(* ===== verification/_CoqProject ===== *)
-Q . S2P
Prelude.v
Str.v
BTreeMap.v
Buddy.v
PhysMem.v
IdIndex.v
Namespace.v
ObjectTable.v
Handle.v
Pipe.v
Semaphore.v
Bytes.v
Security.v
Sam.v
BNode.v
NeoTree.v
NeoForest.v
NeoInsert.v
MemIO.v
NeoDelete.v
NeoBTree.v
FreeList.v
NeoDisk.v
NeoDir.v
NeoFile.v
Snapshot.v
Superblock.v
NeoFs.v
NeoFsOk.v
NeoMkfs.v
NeoCreate.v
NeoRemount.v
NeoMount.v
PageHash.v
PageCache.v
PageLru.v
PageCacheOk.v
PageCacheRuns.v
Vfs.v
Hive.v
HiveFile.v
HiveOk.v
HiveDelete.v
HiveTree.v
HiveBoot.v
Clock.v
RunQueue.v
Sched.v
SchedOk.v
SchedLive.v
SchedSmp.v
