(* ===== verification/Prelude.v ===== *)
(** * NeoDOS: a verification library

    NeoDOS is an operating system written in Rust; its kernel is under
    src/neodos-kernel/src.  This library translates parts of the kernel into Rocq
    functions and proves what makes them correct.  Paths below are relative to
    that directory.

    ** The parts and how they interact

    At boot [memory/mod.rs] turns the UEFI memory map into a list of usable
    segments and hands it to the buddy allocator [memory/buddy.rs].  The Object
    Manager ([object/]) keeps kernel objects with reference counts in a table,
    finds them by id through a hash index ([id_index.rs]) and by name in a tree;
    handles, pipes and semaphores are built on it.  [security/] decides accesses
    and keeps the accounts.  Threads ([scheduler/], [arch/x64/cpu_local.rs]) are
    placed in per-processor run queues and switched by the timer interrupt
    ([arch/x64/idt/mod.rs]).  Paths and drives ([fs/vfs/]) lead to file systems, of
    which NeoFS ([fs/neofs/]) is the native one: copy-on-write B-trees of 4096-byte
    blocks for the directories, a free list, snapshots and a superblock, on a block
    device behind a page cache ([buffer/page_cache/]).  The registry ([cm/]) keeps
    named values under keys in hives, tables of linked cells that are written to
    files; the kernel's settings are in it, among them the time zone by which local
    time is made of the date that the clock driver (src/drivers/rtc) keeps.

    ** How the code is modelled

    A struct is a record, an enum an inductive type, a method a function with the
    state as argument and result; a method with several results in sequence is
    written in a small state and error monad of its file.  A word of [w] bits is a
    [Z] that [wrap w] reduces where the code can overflow; lengths and indices of
    fixed arrays are [nat].  [option] around a result is a panic, or the end of the
    fuel of a loop, and each file says which; [result] is Rust's [Result].  What a
    component uses of another one is a type class where more than one
    implementation matters: [IndexOps] (id index), [BTreeIO] (node store),
    [BlockDevice], [PageCacheOps] and [PageCache] (device and cache), the trait
    [FileSystem].  The laws of the index, the node store and the page cache are
    proved of the modelled implementations, those of the page cache for working sets
    of at most 128 pages; those of devices and of [FsView], what path resolution
    asks of a file system, are hypotheses that an example meets.  A lock makes a method one step, so concurrency is the order of
    steps.

    ** Files

    - Prelude.v: words, tactics and hints, lemmas on lists and options.
    - Str.v, BTreeMap.v, Bytes.v: what the sources use of the standard library
      (strings, ordered maps, buffers and their words).
    - Buddy.v ([memory/buddy.rs]), PhysMem.v ([memory/mod.rs], [init]).
    - IdIndex.v ([id_index.rs]), Namespace.v ([object/namespace/]), ObjectTable.v
      ([object/table.rs]), Handle.v ([infra/handle.rs]), Pipe.v ([object/pipe.rs]),
      Semaphore.v ([object/semaphore.rs]).
    - Security.v ([security/sid.rs], [token.rs], [acl.rs], [access.rs]), Sam.v
      ([security/sam.rs]).
    - BNode.v, NeoTree.v, MemIO.v ([fs/neofs/btree/]): node blocks, the tree
      operations and the in-memory store; NeoForest.v, NeoInsert.v, NeoDelete.v and
      NeoBTree.v hold the well-formedness of trees and the proofs.
    - FreeList.v, NeoDisk.v, NeoDir.v, NeoFile.v, Snapshot.v, Superblock.v, NeoFs.v
      ([fs/neofs/]): the parts of a volume and the volume; NeoFsOk.v, NeoMkfs.v,
      NeoCreate.v, NeoRemount.v and NeoMount.v its invariant and what is proved of
      formatting, creating and mounting.
    - PageHash.v, PageCache.v ([buffer/page_cache/]); PageLru.v, PageCacheOk.v and
      PageCacheRuns.v hold its invariants and theorems.
    - Vfs.v ([fs/vfs/mod.rs]).
    - Hive.v ([cm/hive/], [cm/manager.rs], [cm/api.rs]), HiveFile.v (its files,
      [cm/hive/serialize.rs]); HiveOk.v, HiveDelete.v and HiveTree.v relate the cells
      to trees of keys, HiveBoot.v the defaults of [cm/init.rs].
    - Clock.v (src/drivers/rtc, [drivers/hw/rtc.rs], [cm/timezone.rs] and
      [validate_datetime] of [syscall/ob/set/mod.rs]).
    - RunQueue.v ([arch/x64/cpu_local.rs]), Sched.v ([scheduler/] and the timer
      interrupt); SchedOk.v and SchedLive.v treat one processor, SchedSmp.v several.

    ** What the theorems show

    Memory: allocation and release are exact on the set of free frames, and from
    boot on no frame is handed out twice or outside the usable segments; these, made
    from the memory map, avoid the low megabyte, the kernel and the framebuffer and lie
    in usable descriptors, as does the allocator's bitmap.  Objects:
    the id index is a finite map, an object lives as long as it is referenced (its
    callback may destroy the objects that go with it), the
    namespace finds what was inserted, handles take the lowest closed slot.  Pipes
    deliver bytes in order; semaphore counts stay in their bounds; the access check
    agrees with a reference on requests for one right; the account file is read back
    as written.

    NeoFS: a node block is read back as written and a damaged byte is refused;
    insertion and, for trees of at most two levels, deletion refine a map and leave
    the old tree readable; these hold on any node store, and a volume with free
    blocks is one.  A formatted volume mounts; creating a file in the root changes
    nothing else; what is created is found after mounting again; mounting rebuilds
    the free list from exactly the blocks in use.  A file written whole is read back
    as written, through the kernel's page cache; what any other read returns is given
    exactly, and a partial overwrite is shown to keep the wrong bytes.  Loading the stored free list ends on every device; rebuilding it
    need not.  The page cache is a store of pages for working
    sets of at most 128 pages, and what file access relies on.  Path resolution is
    that of a reference on component lists, no path is too long for the arrays of the
    walk, and the mount table is a list.

    Threads: a run queue is four lists.  On one processor every ready thread runs
    within 41303 timer interrupts, while the boot thread can wait for ever, as long as
    user threads are interrupted in user mode.  On
    several processors, whatever the interleaving, no thread is current twice and
    no executing thread is released.

    Registry: a hive is a tree of named keys with named values, through every
    sequence of operations, without a leaked cell; a registry call does on the hive
    its id names what the tree says and leaves the others alone; a hive is read back
    from its file as it was written; [ensure_key_path] makes paths that open.  The
    defaults written where the [Control] key does not open are under keys that no path
    opens, at that boot and at every later one.  Clock: a
    date that is set in 24-hour mode is read back; local time is the date later by
    exactly the offset of the zone.

    Where the code does not do what it means to, a theorem states it, in general where
    it is a property and on a concrete run for some lemmas, or the property beside it
    names and excludes the case.

    ** Fuel and bounds

    Loops over arrays of fixed size are structural.  The probe loops of IdIndex.v
    and PageHash.v have one turn per entry of the table, and the merge loop of
    Buddy.v one per order; the theorems show that more turns never happen.  The
    recursion of the B-tree has the depth of the tree as fuel, and the theorems
    give a result for every fuel from the depth on; the walks over directories and
    over the free-list chain have theirs as arguments, with termination (or its
    absence) as theorems.  A walk along a list of hive cells has at most as many
    turns as there are cells, and deleting a key at most two for each key below it;
    local time needs a turn for every day of the offset and two months more.  Reaping and stealing have one turn per queued entry.
    Volumes have at most 2^32 blocks, as their 32-bit region lengths require.

    ** Not modelled

    - Code whose meaning is the hardware's or raw memory's: boot loader, page
      tables, kernel heap, descriptor tables and interrupt stubs, device drivers but
      the one of the clock,
      loaders of images, copies from user memory in system calls.
    - Queues of function pointers with raw contexts: deferred calls, work queues,
      IRPs, APCs, the event bus; the blocking half of waits, which suspends a thread
      inside the kernel.  The wake-ups are steps of the scheduler's model.
    - Creation and termination of processes and threads, which build stacks and
      page tables; the release of terminated processes is modelled.
    - Network stack, services, FAT32, consistency checks and partition
      tables: components of their own, which the modelled ones do not call.
    - Output: console, graphics, logs, traces, statistics, tests; user programs and
      libraries. *)

From Stdlib Require Export ZArith Lia.
From stdpp Require Export prelude list list_numbers numbers option.
Export stdpp.list_basics.list stdpp.list_relations.list stdpp.list_monad.list stdpp.list_misc.list.

#[export] Set Default Goal Selector "!".

(** ** Machine words

    An [w]-bit unsigned word is a [Z] in [[0, 2^w)].  [wrap w z] is the value
    a release build stores after an operation whose mathematical result is
    [z]; [swrap w z] is the two's-complement reading of it. *)
Declare Scope word_scope.
Delimit Scope word_scope with word.
Open Scope Z_scope.

Definition wrap (w : Z) (z : Z) : Z := z `mod` 2 ^ w.
Definition swrap (w : Z) (z : Z) : Z :=
  let u := wrap w z in
  if u <? 2 ^ (w - 1) then u else u - 2 ^ w.

Abbreviation u8 := (wrap 8) (only parsing).
Abbreviation u16 := (wrap 16) (only parsing).
Abbreviation u32 := (wrap 32) (only parsing).
Abbreviation u64 := (wrap 64) (only parsing).
Abbreviation i32 := (swrap 32) (only parsing).

Infix "+w64" := (fun a b => wrap 64 (a + b)) (at level 50, left associativity) : word_scope.
Infix "-w64" := (fun a b => wrap 64 (a - b)) (at level 50, left associativity) : word_scope.

(** [u64::saturating_sub] and [saturating_add]. *)
Definition sat_sub (a b : Z) : Z := Z.max 0 (a - b).
Definition sat_add (w a b : Z) : Z := Z.min (2 ^ w - 1) (a + b).

(** [u64::div_ceil]. *)
Definition div_ceil (a b : Z) : Z := if a `mod` b =? 0 then a / b else a / b + 1.

(** ** Tactics *)

(** Reflect the boolean comparisons of the goal and the context. *)
Ltac reflect_bool :=
  repeat match goal with
  | H : (_ && _) = true |- _ => apply andb_true_iff in H; destruct H
  | H : (_ && _) = false |- _ => apply andb_false_iff in H
  | H : (_ || _) = true |- _ => apply orb_true_iff in H
  | H : (_ || _) = false |- _ => apply orb_false_iff in H; destruct H
  | H : negb _ = true |- _ => apply negb_true_iff in H
  | H : negb _ = false |- _ => apply negb_false_iff in H
  | H : context [_ >=? _] |- _ => rewrite Z.geb_leb in H
  | H : context [_ >? _] |- _ => rewrite Z.gtb_ltb in H
  | H : (_ =? _) = true |- _ => apply Z.eqb_eq in H
  | H : (_ =? _) = false |- _ => apply Z.eqb_neq in H
  | H : (_ <? _) = true |- _ => apply Z.ltb_lt in H
  | H : (_ <? _) = false |- _ => apply Z.ltb_ge in H
  | H : (_ <=? _) = true |- _ => apply Z.leb_le in H
  | H : (_ <=? _) = false |- _ => apply Z.leb_gt in H
  | H : (_ =? _)%nat = true |- _ => apply Nat.eqb_eq in H
  | H : (_ =? _)%nat = false |- _ => apply Nat.eqb_neq in H
  | H : (_ <? _)%nat = true |- _ => apply Nat.ltb_lt in H
  | H : (_ <? _)%nat = false |- _ => apply Nat.ltb_ge in H
  | H : (_ <=? _)%nat = true |- _ => apply Nat.leb_le in H
  | H : (_ <=? _)%nat = false |- _ => apply Nat.leb_gt in H
  | H : bool_decide _ = true |- _ => apply bool_decide_eq_true in H
  | H : bool_decide _ = false |- _ => apply bool_decide_eq_false in H
  end.

(** Case split on the innermost condition of the goal. *)
Ltac case_if :=
  match goal with
  | |- context [if ?b then _ else _] =>
      lazymatch b with
      | context [if _ then _ else _] => fail
      | context [match _ with _ => _ end] => fail
      | _ => let E := fresh "Hif" in destruct b eqn:E; reflect_bool
      end
  end.

(** The same in a hypothesis. *)
Ltac case_if_in H :=
  match type of H with
  | context [if ?b then _ else _] =>
      lazymatch b with
      | context [if _ then _ else _] => fail
      | context [match _ with _ => _ end] => fail
      | _ => let E := fresh "Hif" in destruct b eqn:E; reflect_bool
      end
  end.

Create HintDb neodos.
Create Rewrite HintDb neodos_rw.

(** ** Integer lemmas *)

Lemma wrap_small w z : 0 <= z < 2 ^ w -> wrap w z = z.
Proof. intros. unfold wrap. by apply Z.mod_small. Qed.

Lemma wrap_bound w z : 0 <= w -> 0 <= wrap w z < 2 ^ w.
Proof. intros. unfold wrap. apply Z.mod_pos_bound. by apply Z.pow_pos_nonneg. Qed.

Lemma pow2_pos n : 0 < 2 ^ Z.of_nat n.
Proof. apply Z.pow_pos_nonneg; lia. Qed.

Lemma pow2_S n : 2 ^ Z.of_nat (S n) = 2 * 2 ^ Z.of_nat n.
Proof. rewrite Nat2Z.inj_succ, Z.pow_succ_r; lia. Qed.

Lemma pow2_mono m n : (m <= n)%nat -> 2 ^ Z.of_nat m <= 2 ^ Z.of_nat n.
Proof. intros. apply Z.pow_le_mono_r; lia. Qed.

Lemma pow2_divide m n : (m <= n)%nat -> (2 ^ Z.of_nat m | 2 ^ Z.of_nat n).
Proof.
  intros. exists (2 ^ (Z.of_nat n - Z.of_nat m)).
  rewrite <- Z.pow_add_r by lia. f_equal. lia.
Qed.

Lemma shiftl_1 n : Z.shiftl 1 (Z.of_nat n) = 2 ^ Z.of_nat n.
Proof. rewrite Z.shiftl_1_l. done. Qed.

(** Masking with [2^n - 1] is the remainder. *)
Lemma land_mask a n : Z.land a (2 ^ Z.of_nat n - 1) = a `mod` 2 ^ Z.of_nat n.
Proof.
  rewrite <- Z.land_ones by lia. f_equal. rewrite Z.ones_equiv. lia.
Qed.

Lemma lxor_even q : Z.lxor (2 * q) 1 = 2 * q + 1.
Proof.
  rewrite Z.add_nocarry_lxor; [done|].
  apply Z.bits_inj'. intros n Hn. rewrite Z.land_spec, Z.bits_0.
  destruct (decide (n = 0)) as [->|Hne].
  - by rewrite Z.testbit_even_0.
  - replace 1 with (2 ^ 0) by done.
    rewrite (Z.pow2_bits_false 0 n) by lia. by rewrite andb_false_r.
Qed.

Lemma lxor_odd q : Z.lxor (2 * q + 1) 1 = 2 * q.
Proof. by rewrite <- lxor_even, Z.lxor_assoc, Z.lxor_nilpotent, Z.lxor_0_r. Qed.

(** ** List lemmas *)

(** Replacing one component [o] of an indexed concatenation by a
    component with one more element adds that element to the whole. *)
Lemma concat_component_perm {A} (f g : nat -> list A) (x : A) (o n : nat) :
  (o < n)%nat ->
  g o ≡ₚ x :: f o ->
  (forall i, i ≠ o -> g i = f i) ->
  concat (g <$> seq 0 n) ≡ₚ x :: concat (f <$> seq 0 n).
Proof.
  intros Ho Hx Hne.
  replace n with (o + S (n - S o))%nat by lia.
  rewrite seq_app, !fmap_app, !concat_app. csimpl.
  assert (forall s k, (forall i, (s <= i < s + k)%nat -> i ≠ o) ->
    g <$> seq s k = f <$> seq s k) as Heq.
  { intros s k Hk. apply list_fmap_ext. intros i y Hy.
    apply lookup_seq in Hy. apply Hne, Hk. lia. }
  rewrite (Heq 0%nat o), (Heq (S o) (n - S o)%nat) by lia.
  rewrite Hx. simpl. by rewrite <- Permutation_middle.
Qed.

Lemma concat_component_same {A} (f g : nat -> list A) (n : nat) :
  (forall i, (i < n)%nat -> g i = f i) ->
  concat (g <$> seq 0 n) = concat (f <$> seq 0 n).
Proof.
  intros H. f_equal. apply list_fmap_ext. intros i y Hy.
  apply lookup_seq in Hy. apply H. lia.
Qed.

Lemma elem_of_concat_component {A} (f : nat -> list A) (n : nat) x :
  x ∈ concat (f <$> seq 0 n) <-> exists i, (i < n)%nat /\ x ∈ f i.
Proof.
  rewrite list_elem_of_In, in_concat. split.
  - intros (l & Hl & Hx). rewrite <- list_elem_of_In in Hl.
    apply list_elem_of_fmap in Hl as (i & -> & Hi). apply elem_of_seq in Hi.
    exists i. split; [lia|]. by rewrite list_elem_of_In.
  - intros (i & Hi & Hx). exists (f i). split.
    + rewrite <- list_elem_of_In. apply list_elem_of_fmap. exists i.
      split; [done|]. apply elem_of_seq. lia.
    + by rewrite <- list_elem_of_In.
Qed.

Lemma NoDup_of_submseteq {A} (l k : list A) : l ⊆+ k -> NoDup k -> NoDup l.
Proof.
  intros Hs Hk. apply submseteq_Permutation in Hs as [k' Hk'].
  rewrite Hk' in Hk. by apply list.NoDup_app in Hk as [? _].
Qed.

Lemma submseteq_elem_of {A} (l k : list A) x : l ⊆+ k -> x ∈ l -> x ∈ k.
Proof.
  intros Hs Hx. apply submseteq_Permutation in Hs as [k' ->].
  apply elem_of_app. by left.
Qed.

(** Swap removal: overwriting position [i] with the last element [x]. *)
Lemma swap_remove_perm {A} (l : list A) i a x :
  l !! i = Some a -> l ++ [x] ≡ₚ a :: <[i := x]> l.
Proof.
  intros Hi. pose proof (lookup_lt_Some _ _ _ Hi).
  rewrite insert_take_drop by lia.
  rewrite <- (take_drop_middle l i a Hi) at 1.
  solve_Permutation.
Qed.

Lemma length_bind_const {A B} (f : A -> list B) (l : list A) n :
  Forall (λ a, length (f a) = n) l -> length (l ≫= f) = (n * length l)%nat.
Proof. induction 1; csimpl; [lia|]. rewrite length_app. lia. Qed.

(** A field above the low bits. *)
Lemma lor_shiftl a b n : 0 <= n -> 0 <= b < 2 ^ n -> Z.lor (Z.shiftl a n) b = a * 2 ^ n + b.
Proof.
  intros Hn Hb. assert (Z.land (Z.shiftl a n) b = 0) as H0.
  { apply Z.bits_inj'. intros i Hi. rewrite Z.land_spec, Z.bits_0, Z.shiftl_spec by done. destruct (Z.ltb_spec i n); [by rewrite Z.testbit_neg_r by lia|].
    rewrite <- (Z.mod_small b (2 ^ n)), Z.mod_pow2_bits_high by lia. apply andb_false_r. }
  by rewrite <- Z.shiftl_mul_pow2, Z.add_nocarry_lxor, Z.lxor_lor.
Qed.

(** Testing a single bit through a mask. *)
Lemma land_shiftl_testbit w k :
  0 <= k -> negb (Z.land w (Z.shiftl 1 k) =? 0) = Z.testbit w k.
Proof.
  intros Hk. rewrite Z.shiftl_1_l.
  assert (Hb : forall n, 0 <= n -> Z.testbit (Z.land w (2 ^ k)) n = Z.testbit w n && (n =? k)).
  { intros n Hn. rewrite Z.land_spec. destruct (Z.eqb_spec n k) as [->|Hne].
    - by rewrite Z.pow2_bits_true.
    - rewrite Z.pow2_bits_false by lia. by rewrite !andb_false_r. }
  destruct (Z.testbit w k) eqn:Hw.
  - apply negb_true_iff, Z.eqb_neq. intros He. specialize (Hb k Hk).
    rewrite He, Z.bits_0, Hw, Z.eqb_refl in Hb. done.
  - apply negb_false_iff, Z.eqb_eq, Z.bits_inj'. intros n Hn. rewrite Hb, Z.bits_0 by done.
    destruct (Z.eqb_spec n k) as [->|]; [by rewrite Hw|by rewrite andb_false_r].
Qed.

(** Filtering by a predicate that fails or holds throughout. *)
Lemma filter_none {A} (P : A -> Prop) `{!forall z, Decision (P z)} (l : list A) :
  (forall g, g ∈ l -> ~ P g) -> filter P l = [].
Proof.
  induction l as [|x l IH]; intros HP; [done|].
  rewrite filter_cons_False by (apply HP; by left). apply IH. intros g Hg. apply HP. by right.
Qed.

Lemma filter_all {A} (P : A -> Prop) `{!forall z, Decision (P z)} (l : list A) :
  (forall g, g ∈ l -> P g) -> filter P l = l.
Proof.
  induction l as [|x l IH]; intros HP; [done|].
  rewrite filter_cons_True by (apply HP; by left). f_equal.
  apply IH. intros g Hg. apply HP. by right.
Qed.

(** Replacing one entry changes a count by what the entry contributes. *)
Lemma filter_insert_count {A} (P : A -> Prop) `{!forall x, Decision (P x)} (l : list A) i x y :
  l !! i = Some y ->
  (length (filter P (<[i := x]> l)) + (if decide (P y) then 1 else 0) =
   length (filter P l) + (if decide (P x) then 1 else 0))%nat.
Proof.
  intros Hi. rewrite insert_take_drop by eauto using lookup_lt_Some.
  rewrite <- (take_drop_middle l i y Hi) at 3. rewrite !filter_app, !length_app, !filter_cons.
  repeat case_decide; simpl; lia.
Qed.

Lemma wrap_add_l w a b : wrap w (wrap w a + b) = wrap w (a + b).
Proof. unfold wrap. apply Zplus_mod_idemp_l. Qed.

Lemma wrap_sub_l w a b : wrap w (wrap w a - b) = wrap w (a - b).
Proof. unfold wrap. apply Zminus_mod_idemp_l. Qed.

(** A filtered list has no duplicates if its predicate selects positions apart. *)
Lemma NoDup_filter_unique {A} (P : A -> Prop) `{!forall x, Decision (P x)} (l : list A) :
  (forall i j x, l !! i = Some x -> l !! j = Some x -> P x -> i = j) -> NoDup (filter P l).
Proof.
  induction l as [|y l IH]; intros Hu; [constructor|].
  rewrite filter_cons. assert (NoDup (filter P l)).
  { apply IH. intros i j x Hi Hj Hx. specialize (Hu (S i) (S j) x Hi Hj Hx). lia. }
  case_decide as Hy; [|done]. constructor; [|done].
  rewrite list_elem_of_filter. intros [_ [j Hj]%list_elem_of_lookup].
  by specialize (Hu 0%nat (S j) y eq_refl Hj Hy).
Qed.

(** ** Results

    Rust's [Result<A, E>], with [?] as the bind of the monad. *)
Inductive result (E A : Type) :=
  | Ok (a : A)
  | Err (e : E).
#[global] Arguments Ok {E A} a.
#[global] Arguments Err {E A} e.

#[global] Instance result_ret E : MRet (result E) := λ A a, Ok a.
#[global] Instance result_bind E : MBind (result E) := λ A B f r,
  match r with Ok a => f a | Err e => Err e end.
#[global] Instance result_fmap E : FMap (result E) := λ A B f r,
  match r with Ok a => Ok (f a) | Err e => Err e end.

Definition ok_or {E A} (o : option A) (e : E) : result E A :=
  match o with Some a => Ok a | None => Err e end.
Definition ok {E A} (r : result E A) : option A :=
  match r with Ok a => Some a | Err _ => None end.

(** Code that can also panic (an index or a slice out of range). *)
Inductive outcome (E A : Type) :=
  | Val (a : A)
  | Fail (e : E)
  | Panic.
#[global] Arguments Val {E A} a.
#[global] Arguments Fail {E A} e.
#[global] Arguments Panic {E A}.

#[global] Instance outcome_ret E : MRet (outcome E) := λ A a, Val a.
#[global] Instance outcome_bind E : MBind (outcome E) := λ A B f r,
  match r with Val a => f a | Fail e => Fail e | Panic => Panic end.

(** [if b { return Err(e) }]. *)
Definition guard_not {E} (b : bool) (e : E) : outcome E () := if b then Fail e else Val ().

(** A step that panics on [None]. *)
Definition must {E A} (o : option A) : outcome E A :=
  match o with Some a => Val a | None => Panic end.

Lemma bind_val {E A B} (a : A) (f : A -> outcome E B) : Val a ≫= f = f a.
Proof. done. Qed.
Lemma bind_guard {E A} (e : E) (f : () -> outcome E A) : guard_not false e ≫= f = f ().
Proof. done. Qed.
Lemma bind_must {E A B} (a : A) (f : A -> outcome E B) : must (Some a) ≫= f = f a.
Proof. done. Qed.

(** Run the first steps of a computation whose conditions are decided. *)
Ltac outcome_step := rewrite ?bind_guard, ?bind_must, ?bind_val; cbv beta zeta; cbn match.

(** Computations that do not panic. *)
Definition total {E A} (r : outcome E A) : Prop := r ≠ Panic.

Lemma total_bind {E A B} (r : outcome E A) (f : A -> outcome E B) :
  total r -> (forall a, r = Val a -> total (f a)) -> total (r ≫= f).
Proof. intros Hr Hf. destruct r; simpl; [by apply Hf|done|done]. Qed.

Lemma guard_not_val {E} b (e : E) a : guard_not b e = Val a -> b = false.
Proof. by destruct b. Qed.

Lemma total_guard {E A} b (e : E) (f : () -> outcome E A) :
  (b = false -> total (f ())) -> total (guard_not b e ≫= f).
Proof. intros Hf. destruct b; simpl; [done|auto]. Qed.

Lemma total_must {E A B} (o : option A) (f : A -> outcome E B) :
  is_Some o -> (forall a, o = Some a -> total (f a)) -> total (must o ≫= f).
Proof. intros [a ->] Hf. simpl. auto. Qed.
