(* ===== verification/Str.v ===== *)
(** * Str.v: byte strings and the string operations the sources use

    A [&str] is its list of bytes.  The operations below are those of the Rust
    standard library that the modelled code calls with an ASCII separator; on
    UTF-8 text an ASCII byte never occurs inside a longer character, so working
    on bytes is working on characters. *)

From Stdlib Require Ascii String.
From S2P Require Import Prelude.
Export String.StringSyntax.
Delimit Scope string_scope with string.
Open Scope Z_scope.

Definition str := list Z.

(** Bytes of an ASCII literal. *)
Definition bytes_of (s : String.string) : str :=
  (λ c, Z.of_N (Ascii.N_of_ascii c)) <$> String.list_ascii_of_string s.

#[global] Arguments bytes_of s%_string_scope.

Definition to_ascii_lowercase (b : Z) : Z := if (65 <=? b) && (b <=? 90) then b + 32 else b.
Definition to_ascii_uppercase (b : Z) : Z := if (97 <=? b) && (b <=? 122) then b - 32 else b.

(** [s.starts_with(c)]. *)
Definition starts_with (c : Z) (s : str) : bool :=
  match s with b :: _ => b =? c | [] => false end.

(** [s.starts_with(p)] for a string. *)
Fixpoint starts_with_str (p s : str) : bool :=
  match p, s with
  | [], _ => true
  | a :: p, b :: s => (a =? b) && starts_with_str p s
  | _ :: _, [] => false
  end.

Fixpoint trim_start_matches (c : Z) (s : str) : str :=
  match s with
  | b :: t => if b =? c then trim_start_matches c t else s
  | [] => []
  end.

Definition trim_end_matches (c : Z) (s : str) : str :=
  reverse (trim_start_matches c (reverse s)).

(** [s.split(c)]: always at least one piece. *)
Fixpoint split (c : Z) (s : str) : list str :=
  match s with
  | [] => [[]]
  | b :: t =>
      if b =? c then [] :: split c t
      else match split c t with
           | p :: ps => (b :: p) :: ps
           | [] => [[b]]
           end
  end.

(** [parts.join(c)]. *)
Fixpoint join (c : Z) (parts : list str) : str :=
  match parts with
  | [] => []
  | [p] => p
  | p :: ps => p ++ c :: join c ps
  end.

(** Each part preceded by the separator. *)
Definition prefixed (c : Z) (parts : list str) : str := parts ≫= λ p, c :: p.

(** [s.find(c)] and [s.rfind(c)]. *)
Fixpoint find_byte (c : Z) (s : str) : option nat :=
  match s with
  | [] => None
  | b :: t => if b =? c then Some 0%nat else S <$> find_byte c t
  end.

Definition rfind_byte (c : Z) (s : str) : option nat :=
  i ← find_byte c (reverse s); Some (length s - 1 - i)%nat.

(** [bytes.iter().position(|&b| b == 0).unwrap_or(d)] and the text before it. *)
Definition zlen (s : str) (d : nat) : nat := default d (find_byte 0 s).

(** ** UTF-8 *)

Definition cont (b : Z) : bool := (0x80 <=? b) && (b <=? 0xBF).
Definition in_range (lo hi b : Z) : bool := (lo <=? b) && (b <=? hi).

(** Well-formed byte sequences (Unicode, table 3-7). *)
Fixpoint utf8_valid (s : str) : bool :=
  match s with
  | [] => true
  | a :: s1 =>
      if in_range 0 0x7F a then utf8_valid s1
      else match s1 with
      | [] => false
      | b :: s2 =>
          if in_range 0xC2 0xDF a then cont b && utf8_valid s2
          else match s2 with
          | [] => false
          | c :: s3 =>
              if in_range 0xE0 0xEF a then
                (if a =? 0xE0 then in_range 0xA0 0xBF b
                 else if a =? 0xED then in_range 0x80 0x9F b else cont b)
                && cont c && utf8_valid s3
              else match s3 with
              | [] => false
              | d :: s4 =>
                  in_range 0xF0 0xF4 a
                  && (if a =? 0xF0 then in_range 0x90 0xBF b
                      else if a =? 0xF4 then in_range 0x80 0x8F b else cont b)
                  && cont c && cont d && utf8_valid s4
              end
          end
      end
  end.

(** [core::str::from_utf8(b).unwrap_or(d)]. *)
Definition from_utf8_or (b d : str) : str := if utf8_valid b then b else d.

Definition ascii (s : str) : Prop := Forall (λ b, 0 <= b < 128) s.

(** ** Lemmas *)

Lemma utf8_valid_ascii s : ascii s -> utf8_valid s = true.
Proof.
  induction s as [|b s IH]; intros Ha; [done|]. apply Forall_cons in Ha as [Hb Hs].
  simpl. assert (in_range 0 0x7F b = true) as -> by (unfold in_range; lia). auto.
Qed.

Lemma split_nonnil c s : split c s ≠ [].
Proof. destruct s as [|b s]; simpl; [done|]. case_if; [done|]. by destruct (split c s). Qed.

Lemma length_split c s : (length (split c s) <= S (length s))%nat.
Proof. induction s as [|b s IH]; simpl; [done|]. case_if; simpl; [lia|]. destruct (split c s); simpl in *; lia. Qed.

Lemma split_app_sep c p s : c ∉ p -> split c (p ++ c :: s) = p :: split c s.
Proof.
  induction p as [|b p IH]; intros Hc; simpl.
  - by rewrite Z.eqb_refl.
  - rewrite not_elem_of_cons in Hc. destruct Hc as [Hb Hp].
    destruct (Z.eqb_spec b c); [done|]. by rewrite IH.
Qed.

Lemma split_no_sep c p : c ∉ p -> split c p = [p].
Proof.
  induction p as [|b p IH]; intros Hc; [done|]. simpl.
  rewrite not_elem_of_cons in Hc. destruct Hc as [Hb Hp].
  destruct (Z.eqb_spec b c); [done|]. by rewrite IH.
Qed.

Lemma split_join c parts :
  parts ≠ [] -> Forall (λ p, c ∉ p) parts -> split c (join c parts) = parts.
Proof.
  induction parts as [|p ps IH]; intros Hne Hall; [done|].
  apply Forall_cons in Hall as [Hp Hps]. destruct ps as [|q ps].
  - by apply split_no_sep.
  - change (join c (p :: q :: ps)) with (p ++ c :: join c (q :: ps)).
    rewrite split_app_sep by done. by rewrite IH.
Qed.

Lemma split_pieces_clean c s : Forall (λ p, c ∉ p) (split c s).
Proof.
  induction s as [|b s IH]; simpl.
  - constructor; [apply not_elem_of_nil|constructor].
  - destruct (Z.eqb_spec b c); [constructor; [apply not_elem_of_nil|done]|].
    destruct (split c s) as [|p ps]; [by constructor; [rewrite list_elem_of_singleton|]|].
    apply Forall_cons in IH as [? ?]. constructor; [|done]. rewrite not_elem_of_cons. auto.
Qed.

Lemma join_split c s : join c (split c s) = s.
Proof.
  induction s as [|b s IH]; [done|]. simpl. pose proof (split_nonnil c s) as Hne.
  destruct (Z.eqb_spec b c) as [->|].
  - destruct (split c s) as [|q qs] eqn:E; [done|]. simpl. by rewrite <-IH.
  - destruct (split c s) as [|q qs]; [done|]. destruct qs; simpl in *; by rewrite <-IH.
Qed.

Lemma prefixed_join c parts : parts ≠ [] -> prefixed c parts = c :: join c parts.
Proof.
  unfold prefixed. induction parts as [|p ps IH]; intros Hne; [done|].
  destruct ps as [|q ps]; simpl in *; [by rewrite app_nil_r|]. by rewrite IH.
Qed.

Lemma trim_start_id c s : starts_with c s = false -> trim_start_matches c s = s.
Proof. destruct s as [|b s]; [done|]. simpl. by intros ->. Qed.

Lemma trim_end_id c s b : b ≠ c -> trim_end_matches c (s ++ [b]) = s ++ [b].
Proof.
  intros Hb. unfold trim_end_matches. rewrite reverse_app. simpl. apply Z.eqb_neq in Hb as ->.
  by rewrite reverse_cons, reverse_involutive.
Qed.

Lemma find_byte_None c s : find_byte c s = None <-> c ∉ s.
Proof.
  induction s as [|b s IH]; simpl; [split; [intros _; apply not_elem_of_nil|done]|].
  rewrite not_elem_of_cons. destruct (Z.eqb_spec b c) as [->|]; [split; [done|tauto]|].
  rewrite fmap_None, IH. split; [intros; split; [by apply not_eq_sym|done]|tauto].
Qed.

Lemma find_byte_app c p s : c ∉ p -> find_byte c (p ++ c :: s) = Some (length p).
Proof.
  induction p as [|b p IH]; intros Hc; simpl; [by rewrite Z.eqb_refl|].
  rewrite not_elem_of_cons in Hc. destruct Hc as [? ?].
  destruct (Z.eqb_spec b c); [congruence|]. by rewrite IH.
Qed.

Lemma split_elem c s p b : p ∈ split c s -> b ∈ p -> b ∈ s.
Proof.
  revert p. induction s as [|x s IH]; intros p; simpl.
  - rewrite list_elem_of_singleton. intros ->. by intros ?%not_elem_of_nil.
  - destruct (Z.eqb_spec x c).
    + intros [->|Hp]%elem_of_cons Hb; [by apply not_elem_of_nil in Hb|]. right. eauto.
    + pose proof (split_nonnil c s). destruct (split c s) as [|q qs]; [done|].
      intros [->|Hp]%elem_of_cons Hb.
      * apply elem_of_cons in Hb as [->|Hb]; [by left|]. right. eapply IH; [by left|done].
      * right. eapply IH; [by right|done].
Qed.

Lemma trim_start_elem c s b : b ∈ trim_start_matches c s -> b ∈ s.
Proof. induction s as [|x s IH]; simpl; [done|]. case_if; [|done]. intros. right. auto. Qed.

Lemma trim_end_elem c s b : b ∈ trim_end_matches c s -> b ∈ s.
Proof. unfold trim_end_matches. rewrite elem_of_reverse. intros H%trim_start_elem. by apply elem_of_reverse. Qed.

Lemma lowercase_ascii b : 0 < b < 128 -> 0 < to_ascii_lowercase b < 128.
Proof. unfold to_ascii_lowercase. case_if; lia. Qed.

Lemma lowercase_idem b : to_ascii_lowercase (to_ascii_lowercase b) = to_ascii_lowercase b.
Proof. unfold to_ascii_lowercase. repeat case_if; lia. Qed.

(** Bytes of plain ASCII text. *)
Definition plain (s : str) : Prop := Forall (λ b, 0 < b < 128) s.
#[global] Instance plain_dec s : Decision (plain s) := _.

Lemma plain_ascii s : plain s -> ascii s.
Proof. intros H. eapply Forall_impl; [exact H|]. simpl. lia. Qed.

Lemma plain_no_zero s : plain s -> 0 ∉ s.
Proof. unfold plain. rewrite Forall_forall. intros H Hin. specialize (H 0 Hin). simpl in H. lia. Qed.

(** ** Decimal text

    [format!("{}", n)] for an unsigned word: at most twenty digits. *)
Fixpoint dec_digits (fuel : nat) (n : Z) (acc : str) : str :=
  match fuel with
  | O => acc
  | S f =>
      let acc := (48 + n `mod` 10) :: acc in
      if n <? 10 then acc else dec_digits f (n / 10) acc
  end.
Definition dec_string (n : Z) : str := dec_digits 20 n [].

(** [a.eq_ignore_ascii_case(b)]. *)
Definition eq_ignore_case (a b : str) : bool :=
  bool_decide (to_ascii_lowercase <$> a = to_ascii_lowercase <$> b).

Lemma eq_ignore_case_refl a : eq_ignore_case a a = true.
Proof. by apply bool_decide_true. Qed.
