(* ===== verification/BTreeMap.v ===== *)
(** * BTreeMap.v: ordered maps of the standard library

    [alloc::collections::BTreeMap] as a list of entries in ascending key order,
    which is what its iterators observe.  [get], [insert], [remove] and [entry]
    are the operations the modelled code uses. *)

From Stdlib Require Import Sorted.
From S2P Require Import Prelude Str.
Open Scope Z_scope.

(** A decidable strict total order on keys. *)
Class KeyOrder (K : Type) `{EqDecision K} := {
  key_lt : K -> K -> bool;
  key_lt_irrefl k : key_lt k k = false;
  key_lt_trans a b c : key_lt a b = true -> key_lt b c = true -> key_lt a c = true;
  key_lt_total a b : a = b \/ key_lt a b = true \/ key_lt b a = true;
}.

Section btree.
Context {K V : Type} `{KeyOrder K}.

Fixpoint bt_get (m : list (K * V)) (k : K) : option V :=
  match m with
  | [] => None
  | (k', v) :: m => if decide (k = k') then Some v else bt_get m k
  end.

Fixpoint bt_insert (m : list (K * V)) (k : K) (v : V) : list (K * V) :=
  match m with
  | [] => [(k, v)]
  | (k', v') :: m' =>
      if key_lt k k' then (k, v) :: m
      else if decide (k = k') then (k, v) :: m'
      else (k', v') :: bt_insert m' k v
  end.

Fixpoint bt_remove (m : list (K * V)) (k : K) : list (K * V) :=
  match m with
  | [] => []
  | (k', v) :: m => if decide (k = k') then bt_remove m k else (k', v) :: bt_remove m k
  end.

Definition bt_mem (m : list (K * V)) (k : K) : bool :=
  match bt_get m k with Some _ => true | None => false end.

(** Keys in ascending order. *)
Definition bt_sorted (m : list (K * V)) : Prop := StronglySorted (λ a b, key_lt a b = true) m.*1.

Lemma bt_get_insert_eq m k v : bt_get (bt_insert m k v) k = Some v.
Proof.
  induction m as [|[k' v'] m IH]; simpl; [by rewrite decide_True|].
  case_if; simpl; [by rewrite decide_True|]. case_decide; simpl; [by rewrite decide_True|].
  by rewrite decide_False.
Qed.

Lemma bt_get_insert_ne m k k2 v : k ≠ k2 -> bt_get (bt_insert m k v) k2 = bt_get m k2.
Proof.
  intros Hne. induction m as [|[k' v'] m IH]; simpl; [by rewrite decide_False by auto|].
  case_if; simpl; [by rewrite decide_False by auto|]. case_decide; simpl; [subst|].
  - by rewrite !decide_False by auto.
  - case_decide; [done|]. apply IH.
Qed.

Lemma bt_get_remove_eq m k : bt_get (bt_remove m k) k = None.
Proof. induction m as [|[k' v'] m IH]; simpl; [done|]. case_decide; [done|]. simpl. by rewrite decide_False. Qed.

Lemma bt_get_remove_ne m k k2 : k ≠ k2 -> bt_get (bt_remove m k) k2 = bt_get m k2.
Proof.
  intros Hne. induction m as [|[k' v'] m IH]; simpl; [done|].
  case_decide; [subst; by rewrite decide_False by auto|]. simpl. by case_decide.
Qed.

Lemma bt_get_elem m k v : bt_get m k = Some v -> (k, v) ∈ m.
Proof.
  induction m as [|[k' v'] m IH]; simpl; [done|]. case_decide; [intros [= ->]; subst; by left|].
  intros. right. auto.
Qed.

Lemma elem_bt_get m k v : bt_sorted m -> (k, v) ∈ m -> bt_get m k = Some v.
Proof.
  unfold bt_sorted. induction m as [|[k' v'] m IH]; simpl; intros Hs Hin; [by apply not_elem_of_nil in Hin|].
  inversion Hs as [|? ? Hs' Hall]; subst. apply elem_of_cons in Hin as [[= -> ->]|Hin]; [by rewrite decide_True|].
  rewrite decide_False; [auto|]. intros ->. rewrite Forall_forall in Hall.
  specialize (Hall k'). rewrite key_lt_irrefl in Hall. discriminate Hall.
  apply list_elem_of_fmap. by exists (k', v).
Qed.

Lemma bt_insert_elem m k v kv : kv ∈ bt_insert m k v -> kv = (k, v) \/ kv ∈ m.
Proof.
  induction m as [|[k' v'] m IH]; simpl; [rewrite list_elem_of_singleton; auto|].
  case_if; [by rewrite elem_of_cons|]. case_decide; rewrite !elem_of_cons; tauto.
Qed.

Lemma bt_remove_elem m k kv : kv ∈ bt_remove m k -> kv ∈ m.
Proof.
  induction m as [|[k' v'] m IH]; simpl; [done|].
  case_decide; [intros; right; auto|]. rewrite !elem_of_cons. tauto.
Qed.

Lemma bt_insert_sorted m k v : bt_sorted m -> bt_sorted (bt_insert m k v).
Proof.
  unfold bt_sorted. induction m as [|[k' v'] m IH]; simpl; intros Hs; [repeat constructor|].
  inversion Hs as [|? ? Hs' Hall]; subst. case_if; simpl.
  - constructor; [done|]. constructor; [done|]. eapply Forall_impl; [exact Hall|].
    simpl. eauto using key_lt_trans.
  - case_decide; subst; simpl; [done|]. constructor; [auto|].
    rewrite Forall_forall in Hall |- *. intros k2 (kv & -> & [->|Hin]%bt_insert_elem)%list_elem_of_fmap.
    + simpl. destruct (key_lt_total k k') as [?|[?|?]]; congruence.
    + apply Hall. apply list_elem_of_fmap. eauto.
Qed.

Lemma bt_remove_sorted m k : bt_sorted m -> bt_sorted (bt_remove m k).
Proof.
  unfold bt_sorted. induction m as [|[k' v'] m IH]; simpl; intros Hs; [constructor|].
  inversion Hs as [|? ? Hs' Hall]; subst. case_decide; [auto|]. simpl. constructor; [auto|].
  rewrite Forall_forall in Hall |- *. intros k2 (kv & -> & Hin%bt_remove_elem)%list_elem_of_fmap.
  apply Hall. apply list_elem_of_fmap. eauto.
Qed.

End btree.

(** ** Byte arrays in lexicographic order *)

Fixpoint str_lt (a b : str) : bool :=
  match a, b with
  | [], [] => false
  | [], _ :: _ => true
  | _ :: _, [] => false
  | x :: a, y :: b => if x <? y then true else if y <? x then false else str_lt a b
  end.

#[global] Instance str_order : KeyOrder str.
Proof.
  refine {| key_lt := str_lt |}.
  - intros a. induction a as [|x a IH]; [done|]. simpl. by rewrite Z.ltb_irrefl.
  - intros a. induction a as [|x a IH]; intros [|y b] [|z c]; simpl; try done.
    repeat case_if; try done; try lia. assert (x = y) as -> by lia. eauto.
  - intros a. induction a as [|x a IH]; intros [|y b]; simpl; [auto..|].
    destruct (Z.ltb_spec x y); [auto|]. destruct (Z.ltb_spec y x); [auto|].
    assert (x = y) as -> by lia. destruct (IH b) as [->|[?|?]]; auto.
Defined.

#[global] Instance Z_order : KeyOrder Z.
Proof. refine {| key_lt := Z.ltb |}; intros; lia. Defined.

Create HintDb btree.
#[export] Hint Resolve bt_insert_sorted bt_remove_sorted : btree.

(** ** Rewriting entries *)

Section more.
Context {K V : Type} `{KeyOrder K}.
Implicit Types m : list (K * V).

Lemma bt_mem_get m k : bt_mem m k = false <-> bt_get m k = None.
Proof. unfold bt_mem. by destruct (bt_get m k). Qed.

Lemma bt_insert_insert m k v w : bt_insert (bt_insert m k v) k w = bt_insert m k w.
Proof.
  induction m as [|[k' v'] m IH]; simpl.
  - by rewrite key_lt_irrefl, decide_True.
  - destruct (key_lt k k') eqn:E; simpl; [by rewrite key_lt_irrefl, decide_True|].
    case_decide; simpl; [by rewrite key_lt_irrefl, decide_True|].
    by rewrite E, decide_False, IH.
Qed.

Lemma bt_insert_id m k v : bt_sorted m -> bt_get m k = Some v -> bt_insert m k v = m.
Proof.
  unfold bt_sorted. induction m as [|[k' v'] m IH]; simpl; [done|]. intros Hs Hg.
  inversion Hs as [|? ? Hs' Hall]; subst. case_decide; subst.
  - injection Hg as ->. by rewrite key_lt_irrefl.
  - destruct (key_lt k k') eqn:E; [|by rewrite IH].
    apply bt_get_elem in Hg. rewrite Forall_forall in Hall. specialize (Hall k).
    assert (key_lt k' k = true) as E' by (apply Hall, list_elem_of_fmap; by exists (k, v)).
    pose proof (key_lt_trans _ _ _ E E') as Ex. by rewrite key_lt_irrefl in Ex.
Qed.

Lemma bt_remove_id m k : bt_get m k = None -> bt_remove m k = m.
Proof. induction m as [|[k' v'] m IH]; simpl; [done|]. case_decide; [done|]. intros. by rewrite IH. Qed.

Lemma bt_remove_insert m k v : bt_get m k = None -> bt_remove (bt_insert m k v) k = m.
Proof.
  induction m as [|[k' v'] m IH]; simpl; intros Hg; [by rewrite decide_True|].
  case_decide as Hk; [done|]. destruct (key_lt k k'); simpl.
  - rewrite decide_True by done. rewrite decide_False by done. by rewrite bt_remove_id.
  - rewrite decide_False by done. by rewrite IH.
Qed.

End more.
