(* ===== verification/Buddy.v ===== *)
(** * Buddy.v: the physical frame allocator ([memory/buddy.rs])

    [BuddyAllocator] keeps, for every order [0..10], an array of 512 slots
    of which the first [free_counts[order]] hold the physical addresses of free
    blocks of [2^order] pages, and a bitmap that is consulted only while the
    allocator is initialised.  The file models the whole [impl] block.  Orders
    and slot counts are [nat] (they index arrays of fixed size), frames,
    addresses and page counts are [u64] words kept as [Z].  The pointer to the
    bitmap is modelled by the words it points to.

    Every array index of the code is guarded ([order.min(MAX_ORDER)],
    [count < MAX_FREE_SLOTS], [idx < count]), so the model reads arrays with
    the total lookup [!!!]; [wf] records the array lengths that make the reads
    be in range. *)

From S2P Require Import Prelude.
Open Scope Z_scope.

Definition PAGE_SIZE : Z := 4096.
Definition MAX_ORDER : nat := 10.
Definition MAX_FREE_SLOTS : nat := 512.
#[global] Arguments MAX_ORDER : simpl never.
#[global] Arguments MAX_FREE_SLOTS : simpl never.

Record BuddyAllocator := mkBuddy {
  free_lists : list Z;
  free_counts : list nat;
  free_slots : list (list Z);
  bitmap : list Z;
  bitmap_words : nat;
  free_pages : Z;
  total_pages : Z;
}.

(** [BuddyAllocator::new]. *)
Definition buddy_new : BuddyAllocator :=
  mkBuddy (replicate 11 0) (replicate 11 0%nat)
    (replicate 11 (replicate MAX_FREE_SLOTS 0)) [] 0 0 0.

Definition set_slots (st : BuddyAllocator) (cs : list nat) (ss : list (list Z)) :=
  mkBuddy (free_lists st) cs ss (bitmap st) (bitmap_words st) (free_pages st) (total_pages st).
Definition set_bitmap (st : BuddyAllocator) (bm : list Z) :=
  mkBuddy (free_lists st) (free_counts st) (free_slots st) bm (bitmap_words st)
    (free_pages st) (total_pages st).
Definition set_free_pages (st : BuddyAllocator) (n : Z) :=
  mkBuddy (free_lists st) (free_counts st) (free_slots st) (bitmap st) (bitmap_words st)
    n (total_pages st).
Definition set_total_pages (st : BuddyAllocator) (n : Z) :=
  mkBuddy (free_lists st) (free_counts st) (free_slots st) (bitmap st) (bitmap_words st)
    (free_pages st) n.

(** ** The bitmap *)

Definition bitmap_bits (st : BuddyAllocator) : Z := Z.of_nat (bitmap_words st) * 64.

Definition bitmap_set (st : BuddyAllocator) (frame : Z) : BuddyAllocator :=
  if frame <? bitmap_bits st then
    let i := Z.to_nat (frame / 64) in
    set_bitmap st (<[i := Z.lor (bitmap st !!! i) (Z.shiftl 1 (frame `mod` 64))]> (bitmap st))
  else st.

(** [!x] on [u64]. *)
Definition not64 (x : Z) : Z := Z.lxor x (2 ^ 64 - 1).

Definition bitmap_clear (st : BuddyAllocator) (frame : Z) : BuddyAllocator :=
  if frame <? bitmap_bits st then
    let i := Z.to_nat (frame / 64) in
    set_bitmap st
      (<[i := Z.land (bitmap st !!! i) (not64 (Z.shiftl 1 (frame `mod` 64)))]> (bitmap st))
  else st.

Definition bitmap_test (st : BuddyAllocator) (frame : Z) : bool :=
  if frame <? bitmap_bits st then
    negb (Z.land (bitmap st !!! Z.to_nat (frame / 64)) (Z.shiftl 1 (frame `mod` 64)) =? 0)
  else true.

(** ** Frames, pages and buddies *)

Definition page_to_frame (page : Z) : Z := page / PAGE_SIZE.
Definition frame_to_page (frame : Z) : Z := wrap 64 (frame * PAGE_SIZE).
Definition buddy_of (frame : Z) (order : nat) : Z := Z.lxor frame (Z.shiftl 1 (Z.of_nat order)).

(** ** Slot arrays *)

Definition push_slot (st : BuddyAllocator) (order : nat) (addr : Z) : BuddyAllocator :=
  let count := free_counts st !!! order in
  if (count <? MAX_FREE_SLOTS)%nat then
    set_slots st (<[order := S count]> (free_counts st))
      (<[order := <[count := addr]> (free_slots st !!! order)]> (free_slots st))
  else st.

Definition pop_slot (st : BuddyAllocator) (order : nat) : option Z * BuddyAllocator :=
  let count := free_counts st !!! order in
  if (count =? 0)%nat then (None, st)
  else
    let new_count := (count - 1)%nat in
    (Some ((free_slots st !!! order) !!! new_count),
     set_slots st (<[order := new_count]> (free_counts st)) (free_slots st)).

(** [(0..count).find(|&i| slots[i] == buddy_addr)]. *)
Definition scan_for_buddy (st : BuddyAllocator) (order : nat) (buddy_addr : Z) : option nat :=
  let count := free_counts st !!! order in
  list_find (λ i, (free_slots st !!! order) !!! i = buddy_addr) (seq 0 count) ≫= λ '(_, i), Some i.

Definition remove_slot_at (st : BuddyAllocator) (order idx : nat) : BuddyAllocator :=
  let count := free_counts st !!! order in
  if (idx <? count)%nat then
    let last := (count - 1)%nat in
    let slots := free_slots st !!! order in
    set_slots st (<[order := last]> (free_counts st))
      (<[order := <[idx := slots !!! last]> slots]> (free_slots st))
  else st.

(** ** Adding a run of frames *)

(** [while order > 0 && (addr & ((1 << order) - 1)) != 0 { order -= 1 }]. *)
Fixpoint align_order (addr : Z) (order : nat) : nat :=
  match order with
  | O => O
  | S o => if negb (Z.land addr (Z.shiftl 1 (Z.of_nat order) - 1) =? 0)
           then align_order addr o else order
  end.

(** [while order > 0 && (1 << order) > remaining { order -= 1 }]. *)
Fixpoint fit_order (remaining : Z) (order : nat) : nat :=
  match order with
  | O => O
  | S o => if remaining <? Z.shiftl 1 (Z.of_nat order) then fit_order remaining o else order
  end.

(** [while order < MAX_ORDER && (1 << (order+1)) <= remaining && aligned { order += 1 }]. *)
Fixpoint grow_order (addr remaining : Z) (fuel order : nat) : nat :=
  match fuel with
  | O => order
  | S f =>
      if (order <? MAX_ORDER)%nat
         && (Z.shiftl 1 (Z.of_nat (S order)) <=? remaining)
         && (Z.land addr (Z.shiftl 1 (Z.of_nat (S order)) - 1) =? 0)
      then grow_order addr remaining f (S order) else order
  end.

(** The order the loop body of [free_add_run] chooses. *)
Definition run_order (addr remaining : Z) : nat :=
  let order := fit_order remaining (align_order addr MAX_ORDER) in
  if remaining <? Z.shiftl 1 (Z.of_nat order)
  then grow_order addr remaining MAX_ORDER 0 else order.

Fixpoint free_add_run_loop (fuel : nat) (st : BuddyAllocator) (addr remaining : Z)
    : BuddyAllocator :=
  match fuel with
  | O => st
  | S f =>
      if remaining >? 0 then
        let order := run_order addr remaining in
        let block_pages := Z.shiftl 1 (Z.of_nat order) in
        let st := push_slot st order (frame_to_page addr) in
        free_add_run_loop f st (addr + block_pages) (remaining - block_pages)
      else st
  end.

(** Every iteration consumes at least one frame: [count] iterations suffice. *)
Definition free_add_run (st : BuddyAllocator) (start_frame count : Z) : BuddyAllocator :=
  free_add_run_loop (Z.to_nat count) st start_frame count.

(** ** Initialisation *)

Definition init_bitmap (st : BuddyAllocator) (words : nat) : BuddyAllocator :=
  mkBuddy (free_lists st) (free_counts st) (free_slots st)
    (replicate words (2 ^ 64 - 1)) words (free_pages st) (total_pages st).

(** The loop over [regions]: clear the bits of the covered frames. *)
Definition clear_region (limit : Z) (acc : BuddyAllocator * Z) (region : Z * Z)
    : BuddyAllocator * Z :=
  let '(st, covered) := acc in
  let '(start, end_) := region in
  let first := start / PAGE_SIZE in
  let last := div_ceil end_ PAGE_SIZE in
  let hi := Z.min last limit in
  if hi >? first then
    (foldl bitmap_clear st (seqZ first (hi - first)), wrap 64 (covered + (hi - first)))
  else (st, covered).

(** The loop [for frame in 0..=limit] that collects maximal free runs. *)
Definition scan_run (limit : Z) (acc : BuddyAllocator * option Z) (frame : Z)
    : BuddyAllocator * option Z :=
  let '(st, run_start) := acc in
  let is_free := if frame <? limit then negb (bitmap_test st frame) else false in
  match is_free, run_start with
  | true, None => (st, Some frame)
  | true, Some s => (st, Some s)
  | false, Some s =>
      let count := frame - s in
      (if count >? 0
       then free_add_run (set_free_pages st (wrap 64 (free_pages st + count))) s count
       else st, None)
  | false, None => (st, None)
  end.

Definition init_from_regions (st : BuddyAllocator) (regions : list (Z * Z)) (phys_max : Z)
    : BuddyAllocator :=
  let max_frames := div_ceil (Z.max phys_max 1) PAGE_SIZE in
  let limit := Z.min max_frames (bitmap_bits st) in
  let '(st, covered) := foldl (clear_region limit) (st, 0) regions in
  let st := set_total_pages st covered in
  (foldl (scan_run limit) (st, None) (seqZ 0 (limit + 1))).1.

(** ** Allocation and release *)

(** The body of the loop [for o in order..=MAX_ORDER] once a block is found. *)
Definition alloc_from (st : BuddyAllocator) (order o : nat) : option Z * BuddyAllocator :=
  match pop_slot st o with
  | (None, st) => (None, st)
  | (Some addr, st) =>
      let frame := page_to_frame addr in
      let st := bitmap_set st frame in
      let allocated_pages := Z.shiftl 1 (Z.of_nat o) in
      let needed_pages := Z.shiftl 1 (Z.of_nat order) in
      let st := if allocated_pages >? needed_pages
                then free_add_run st (frame + needed_pages) (allocated_pages - needed_pages)
                else st in
      (Some addr, set_free_pages st (wrap 64 (free_pages st - needed_pages)))
  end.

(** [for o in order..=MAX_ORDER { if self.free_counts[o] > 0 { .. } } None]. *)
Fixpoint alloc_scan (st : BuddyAllocator) (order : nat) (orders : list nat)
    : option Z * BuddyAllocator :=
  match orders with
  | [] => (None, st)
  | o :: rest =>
      if (0 <? free_counts st !!! o)%nat then alloc_from st order o else alloc_scan st order rest
  end.

Definition alloc_frames (st : BuddyAllocator) (order : nat) : option Z * BuddyAllocator :=
  let order := Nat.min order MAX_ORDER in
  alloc_scan st order (seq order (S MAX_ORDER - order)).

(** The merge loop [while cur_order < MAX_ORDER]. *)
Fixpoint merge_loop (fuel : nat) (st : BuddyAllocator) (frame : Z) (cur_order : nat)
    : BuddyAllocator * Z * nat :=
  match fuel with
  | O => (st, frame, cur_order)
  | S f =>
      if (cur_order <? MAX_ORDER)%nat then
        let buddy := buddy_of frame cur_order in
        let buddy_addr := frame_to_page buddy in
        match scan_for_buddy st cur_order buddy_addr with
        | Some idx =>
            let st := remove_slot_at st cur_order idx in
            let st := bitmap_set st buddy in
            merge_loop f st (Z.min frame buddy) (S cur_order)
        | None => (st, frame, cur_order)
        end
      else (st, frame, cur_order)
  end.

Definition free_frames (st : BuddyAllocator) (addr : Z) (order : nat) : BuddyAllocator :=
  let order := Nat.min order MAX_ORDER in
  let needed_pages := Z.shiftl 1 (Z.of_nat order) in
  let frame := page_to_frame addr in
  let st := bitmap_set st frame in
  let '(st, frame, cur_order) := merge_loop MAX_ORDER st frame order in
  let st := push_slot st cur_order (frame_to_page frame) in
  set_free_pages st (wrap 64 (free_pages st + needed_pages)).

Definition allocate_frame (st : BuddyAllocator) : option Z * BuddyAllocator := alloc_frames st 0.
Definition free_frame (st : BuddyAllocator) (addr : Z) : BuddyAllocator := free_frames st addr 0.

Definition mark_used_region (st : BuddyAllocator) (start size : Z) : BuddyAllocator :=
  let first := start / PAGE_SIZE in
  let last := div_ceil (wrap 64 (start + size)) PAGE_SIZE in
  let limit := Z.min (total_pages st) (bitmap_bits st) in
  foldl (λ st frame,
    if negb (bitmap_test st frame)
    then let st := bitmap_set st frame in
         set_free_pages st (sat_sub (free_pages st) 1)
    else st) st (seqZ first (Z.min last limit - first)).

(** ** The free pool as a set of frames *)

Definition slots (st : BuddyAllocator) (o : nat) : list Z :=
  take (free_counts st !!! o) (free_slots st !!! o).

(** All free blocks, as pairs of an order and an address. *)
Definition free_blocks (st : BuddyAllocator) : list (nat * Z) :=
  concat ((λ o, pair o <$> slots st o) <$> seq 0 (S MAX_ORDER)).

Definition block_frames (b : nat * Z) : list Z := seqZ (page_to_frame b.2) (2 ^ Z.of_nat b.1).

Definition free_set (st : BuddyAllocator) : list Z := free_blocks st ≫= block_frames.

(** The arrays have their declared sizes. *)
Record shape (st : BuddyAllocator) : Prop := {
  shape_counts : length (free_counts st) = S MAX_ORDER;
  shape_slots : length (free_slots st) = S MAX_ORDER;
  shape_slot o : (o <= MAX_ORDER)%nat -> length (free_slots st !!! o) = MAX_FREE_SLOTS;
  shape_count o : (o <= MAX_ORDER)%nat -> (free_counts st !!! o <= MAX_FREE_SLOTS)%nat;
}.

(** A block of order [o] starts at a page address whose frame is a multiple of
    [2^o], and lies in the 52-bit frame space of a 64-bit physical address. *)
Definition block_ok (b : nat * Z) : Prop :=
  (b.1 <= MAX_ORDER)%nat /\
  exists f, b.2 = f * PAGE_SIZE /\ 0 <= f /\ (2 ^ Z.of_nat b.1 | f) /\ f + 2 ^ Z.of_nat b.1 <= 2 ^ 52.

Record wf (st : BuddyAllocator) : Prop := {
  wf_shape : shape st;
  wf_blocks : Forall block_ok (free_blocks st);
  wf_nodup : NoDup (free_set st);
  wf_pages : Z.of_nat (length (free_set st)) <= free_pages st < 2 ^ 64;
}.

(** No two buddies of an order below [MAX_ORDER] are both free. *)
Definition coalesced (st : BuddyAllocator) : Prop :=
  forall o f, (o < MAX_ORDER)%nat -> 0 <= f < 2 ^ 52 ->
    (o, frame_to_page f) ∈ free_blocks st ->
    (o, frame_to_page (buddy_of f o)) ∉ free_blocks st.

(** ** Arithmetic of frames and buddies *)

Lemma page_frame f : 0 <= f < 2 ^ 52 -> frame_to_page f = f * PAGE_SIZE.
Proof. intros. unfold frame_to_page, PAGE_SIZE. apply wrap_small. lia. Qed.

Lemma page_to_frame_page f : page_to_frame (f * PAGE_SIZE) = f.
Proof. unfold page_to_frame, PAGE_SIZE. by apply Z.div_mul. Qed.

Lemma page_to_frame_frame f : 0 <= f < 2 ^ 52 -> page_to_frame (frame_to_page f) = f.
Proof. intros. by rewrite page_frame, page_to_frame_page. Qed.

(** Toggling bit [o] of an [o]-aligned frame moves to the other half of the
    enclosing block of order [o+1]. *)
Lemma buddy_of_spec f o :
  (2 ^ Z.of_nat o | f) ->
  (buddy_of f o = f + 2 ^ Z.of_nat o /\ (2 ^ Z.of_nat (S o) | f)) \/
  (buddy_of f o = f - 2 ^ Z.of_nat o /\ (2 ^ Z.of_nat (S o) | f - 2 ^ Z.of_nat o)).
Proof.
  intros [q ->]. unfold buddy_of.
  assert (Hx : Z.lxor (q * 2 ^ Z.of_nat o) (Z.shiftl 1 (Z.of_nat o))
               = Z.lxor q 1 * 2 ^ Z.of_nat o).
  { rewrite <- (Z.shiftl_mul_pow2 q), <- Z.shiftl_lxor by lia.
    by rewrite Z.shiftl_mul_pow2 by lia. }
  rewrite Hx, pow2_S. destruct (Z.Even_or_Odd q) as [[k ->]|[k ->]].
  - left. rewrite lxor_even. split; [ring|]. exists k. ring.
  - right. rewrite lxor_odd. split; [ring|]. exists k. ring.
Qed.

Lemma block_ok_page o f :
  (o <= MAX_ORDER)%nat -> 0 <= f -> (2 ^ Z.of_nat o | f) -> f + 2 ^ Z.of_nat o <= 2 ^ 52 ->
  block_ok (o, frame_to_page f).
Proof.
  intros. pose proof (pow2_pos o). split; [done|]. exists f. simpl.
  rewrite page_frame by lia. done.
Qed.

Lemma block_ok_frame b :
  block_ok b ->
  exists f, b = (b.1, frame_to_page f) /\ page_to_frame b.2 = f /\ 0 <= f /\
    (2 ^ Z.of_nat b.1 | f) /\ f + 2 ^ Z.of_nat b.1 <= 2 ^ 52.
Proof.
  destruct b as [o a]. intros [Ho (f & Ha & H0 & Hd & Hl)]. simpl in *. subst a.
  pose proof (pow2_pos o). exists f.
  rewrite page_to_frame_page, page_frame by lia. by split_and!.
Qed.

Lemma block_frames_page o f :
  0 <= f < 2 ^ 52 -> block_frames (o, frame_to_page f) = seqZ f (2 ^ Z.of_nat o).
Proof. intros. unfold block_frames. simpl. by rewrite page_to_frame_frame. Qed.

(** Merging two buddies yields the enclosing block. *)
Lemma merge_frames f o :
  (2 ^ Z.of_nat o | f) ->
  seqZ (Z.min f (buddy_of f o)) (2 ^ Z.of_nat (S o))
    ≡ₚ seqZ f (2 ^ Z.of_nat o) ++ seqZ (buddy_of f o) (2 ^ Z.of_nat o)
  /\ (2 ^ Z.of_nat (S o) | Z.min f (buddy_of f o)).
Proof.
  intros Hd. pose proof (pow2_pos o).
  replace (2 ^ Z.of_nat (S o)) with (2 ^ Z.of_nat o + 2 ^ Z.of_nat o) by (rewrite pow2_S; lia).
  rewrite seqZ_app by lia.
  destruct (buddy_of_spec f o Hd) as [[-> Hs]|[-> Hs]]; rewrite pow2_S in Hs;
    replace (2 * 2 ^ Z.of_nat o) with (2 ^ Z.of_nat o + 2 ^ Z.of_nat o) in Hs by lia.
  - by rewrite Z.min_l by lia.
  - rewrite Z.min_r by lia. split; [|done].
    rewrite Permutation_app_comm. do 2 f_equiv. lia.
Qed.

(** ** Slot operations on the list of free blocks *)

Lemma slots_length st o :
  shape st -> (o <= MAX_ORDER)%nat -> length (slots st o) = free_counts st !!! o.
Proof.
  intros Hs Ho. unfold slots. rewrite length_take.
  pose proof (shape_slot _ Hs o Ho). pose proof (shape_count _ Hs o Ho). lia.
Qed.

Lemma free_blocks_elem st o a :
  (o, a) ∈ free_blocks st <-> (o <= MAX_ORDER)%nat /\ a ∈ slots st o.
Proof.
  unfold free_blocks. rewrite elem_of_concat_component. split.
  - intros (i & Hi & Hx). apply list_elem_of_fmap in Hx as (y & [= <- <-] & Hy).
    split; [lia|done].
  - intros [Ho Ha]. exists o. split; [lia|]. apply list_elem_of_fmap. by exists a.
Qed.

(** [set_slots] at order [o], seen through [slots]. *)
Lemma slots_set_ne st o c s o' :
  shape st -> o' ≠ o ->
  slots (set_slots st (<[o := c]> (free_counts st)) (<[o := s]> (free_slots st))) o' = slots st o'.
Proof.
  intros Hs Hne. unfold slots. simpl.
  by rewrite !list_lookup_total_insert_ne by done.
Qed.

Lemma slots_set_eq st o c s :
  shape st -> (o <= MAX_ORDER)%nat ->
  slots (set_slots st (<[o := c]> (free_counts st)) (<[o := s]> (free_slots st))) o = take c s.
Proof.
  intros Hs Ho. unfold slots. simpl.
  rewrite !list_lookup_total_insert_eq; [done| |].
  - rewrite (shape_slots _ Hs). lia.
  - rewrite (shape_counts _ Hs). lia.
Qed.

Lemma shape_set st o c s :
  shape st -> (c <= MAX_FREE_SLOTS)%nat -> length s = MAX_FREE_SLOTS ->
  shape (set_slots st (<[o := c]> (free_counts st)) (<[o := s]> (free_slots st))).
Proof.
  intros [H1 H2 H3 H4] Hc Hl. constructor; simpl; rewrite ?length_insert; auto.
  - intros o' Ho'. rewrite list_lookup_total_insert. case_decide; auto.
  - intros o' Ho'. rewrite list_lookup_total_insert. case_decide; auto.
Qed.

(** The three slot operations have this form. *)
Lemma pop_slot_set st o :
  shape st -> (o <= MAX_ORDER)%nat ->
  (pop_slot st o).2 = st \/
  (pop_slot st o).2 =
    set_slots st (<[o := (free_counts st !!! o - 1)%nat]> (free_counts st))
      (<[o := free_slots st !!! o]> (free_slots st)).
Proof.
  intros Hs Ho. unfold pop_slot. case_if; [by left|right]. simpl. f_equal.
  rewrite list_insert_id; [done|]. apply list_lookup_lookup_total_lt.
  rewrite (shape_slots _ Hs). lia.
Qed.

(** Moving one block in or out at order [o]. *)
Lemma free_blocks_component st st' o a :
  (o <= MAX_ORDER)%nat ->
  slots st' o ≡ₚ a :: slots st o ->
  (forall o', o' ≠ o -> slots st' o' = slots st o') ->
  free_blocks st' ≡ₚ (o, a) :: free_blocks st.
Proof.
  intros Ho Hp Hne. unfold free_blocks. apply (concat_component_perm _ _ _ o); [lia| |].
  - rewrite Hp. done.
  - intros i Hi. by rewrite Hne.
Qed.

Lemma push_slot_shape st o a :
  shape st -> (o <= MAX_ORDER)%nat -> shape (push_slot st o a).
Proof.
  intros Hs Ho. unfold push_slot. case_if; [|done]. apply shape_set; [done|lia|].
  rewrite length_insert. by apply shape_slot.
Qed.

Lemma push_slot_blocks st o a :
  shape st -> (o <= MAX_ORDER)%nat -> (free_counts st !!! o < MAX_FREE_SLOTS)%nat ->
  free_blocks (push_slot st o a) ≡ₚ (o, a) :: free_blocks st.
Proof.
  intros Hs Ho Hc. unfold push_slot. case_if; [|lia].
  pose proof (shape_slot _ Hs o Ho) as Hl.
  apply free_blocks_component; [done| |].
  - rewrite slots_set_eq by done. erewrite take_S_r.
    2: { apply list_lookup_insert_eq. lia. }
    rewrite take_insert_ge by lia. symmetry. apply Permutation_cons_append.
  - intros o' Hne. by apply slots_set_ne.
Qed.

Lemma push_slot_full st o a :
  (MAX_FREE_SLOTS <= free_counts st !!! o)%nat -> push_slot st o a = st.
Proof. intros. unfold push_slot. case_if; [lia|done]. Qed.

(** In either case no block other than the pushed one appears. *)
Lemma push_slot_sub st o a :
  shape st -> (o <= MAX_ORDER)%nat ->
  free_blocks (push_slot st o a) ⊆+ (o, a) :: free_blocks st.
Proof.
  intros Hs Ho. destruct (decide (free_counts st !!! o < MAX_FREE_SLOTS)%nat).
  - by rewrite push_slot_blocks.
  - rewrite push_slot_full by lia. by apply submseteq_cons.
Qed.

Lemma push_slot_count st o a o' :
  shape st -> (o <= MAX_ORDER)%nat ->
  free_counts (push_slot st o a) !!! o' =
    if decide (o' = o /\ (free_counts st !!! o < MAX_FREE_SLOTS)%nat)
    then S (free_counts st !!! o) else free_counts st !!! o'.
Proof.
  intros Hs Ho. unfold push_slot. case_if.
  - simpl. rewrite list_lookup_total_insert.
    pose proof (shape_counts _ Hs). repeat case_decide; intuition (subst; lia || done).
  - case_decide; [lia|done].
Qed.

Lemma pop_slot_blocks st o a st' :
  shape st -> (o <= MAX_ORDER)%nat -> pop_slot st o = (Some a, st') ->
  free_blocks st ≡ₚ (o, a) :: free_blocks st' /\ shape st'.
Proof.
  intros Hs Ho Hp.
  pose proof (shape_slot _ Hs o Ho) as Hl. pose proof (shape_count _ Hs o Ho) as Hc.
  assert (Hst : st' = (pop_slot st o).2) by by rewrite Hp.
  unfold pop_slot in Hp. case_if_in Hp; [done|]. injection Hp as Ha Hp.
  destruct (pop_slot_set st o Hs Ho) as [He|He].
  { rewrite <- Hst in He. subst st'. exfalso.
    apply (f_equal (λ s, free_counts s !!! o)) in He. simpl in He.
    rewrite list_lookup_total_insert_eq in He; [lia|]. rewrite (shape_counts _ Hs). lia. }
  rewrite Hst, He. split; [|apply shape_set; [done|lia|done]].
  apply free_blocks_component; [done| |].
  - rewrite slots_set_eq by done. unfold slots.
    replace (free_counts st !!! o) with (S (free_counts st !!! o - 1)) at 1 by lia.
    erewrite take_S_r; [by rewrite <- Permutation_cons_append|].
    rewrite <- Ha. apply list_lookup_lookup_total_lt. lia.
  - intros o' Hne. symmetry. by apply slots_set_ne.
Qed.

Lemma remove_slot_blocks st o idx a :
  shape st -> (o <= MAX_ORDER)%nat -> slots st o !! idx = Some a ->
  free_blocks st ≡ₚ (o, a) :: free_blocks (remove_slot_at st o idx) /\
  shape (remove_slot_at st o idx).
Proof.
  intros Hs Ho Ha. pose proof (shape_slot _ Hs o Ho) as Hl.
  pose proof (shape_count _ Hs o Ho) as Hc.
  pose proof (lookup_lt_Some _ _ _ Ha) as Hi. rewrite slots_length in Hi by done.
  unfold remove_slot_at. case_if; [|lia].
  split; [|apply shape_set; [done|lia|by rewrite length_insert]].
  apply free_blocks_component; [done| |].
  2: { intros o' Hne. symmetry. by apply slots_set_ne. }
  rewrite slots_set_eq by done. unfold slots in *.
  set (c := free_counts st !!! o) in *. set (s := free_slots st !!! o) in *.
  assert (Hlast : take c s = take (c - 1) s ++ [s !!! (c - 1)%nat]).
  { replace c with (S (c - 1)) at 1 by lia. apply take_S_r.
    apply list_lookup_lookup_total_lt. lia. }
  rewrite Hlast in Ha |- *. destruct (decide (idx = c - 1)%nat) as [->|Hne].
  - rewrite take_insert_ge by lia.
    rewrite lookup_app_r in Ha by (rewrite length_take; lia).
    rewrite length_take, Nat.min_l, Nat.sub_diag in Ha by lia.
    injection Ha as <-. symmetry. apply Permutation_cons_append.
  - rewrite lookup_app_l in Ha by (rewrite length_take; lia).
    rewrite take_insert_lt by lia. by apply swap_remove_perm.
Qed.

Lemma scan_for_buddy_Some st o a idx :
  shape st -> (o <= MAX_ORDER)%nat ->
  scan_for_buddy st o a = Some idx -> slots st o !! idx = Some a.
Proof.
  intros Hs Ho. unfold scan_for_buddy.
  pose proof (shape_slot _ Hs o Ho) as Hl. pose proof (shape_count _ Hs o Ho) as Hc.
  destruct (list_find _ _) as [[i j]|] eqn:Hf; [|done]. intros [= ->].
  apply list_find_Some in Hf as (Hi & Hp & _).
  apply lookup_seq in Hi as [-> Hi]. simpl in *.
  unfold slots. rewrite lookup_take_lt by lia. rewrite <- Hp.
  apply list_lookup_lookup_total_lt. lia.
Qed.

Lemma scan_for_buddy_None st o a :
  shape st -> (o <= MAX_ORDER)%nat ->
  scan_for_buddy st o a = None -> (o, a) ∉ free_blocks st.
Proof.
  intros Hs Ho Hn. rewrite free_blocks_elem. intros [_ Ha].
  apply list_elem_of_lookup in Ha as [i Hi].
  pose proof (lookup_lt_Some _ _ _ Hi) as Hlt. rewrite slots_length in Hlt by done.
  unfold slots in Hi. rewrite lookup_take_lt in Hi by lia.
  unfold scan_for_buddy in Hn.
  destruct (list_find _ _) as [[??]|] eqn:Hf; [done|].
  apply list_find_None in Hf. rewrite list.Forall_forall in Hf.
  apply (Hf i); [apply elem_of_seq; lia|]. by apply list_lookup_total_correct.
Qed.

(** The bitmap and the page counters do not take part in the free pool. *)
Lemma free_blocks_bitmap st bm : free_blocks (set_bitmap st bm) = free_blocks st.
Proof. done. Qed.

Lemma bitmap_set_pool st f :
  free_blocks (bitmap_set st f) = free_blocks st /\
  free_counts (bitmap_set st f) = free_counts st /\
  free_slots (bitmap_set st f) = free_slots st /\
  free_pages (bitmap_set st f) = free_pages st.
Proof. unfold bitmap_set. by case_if. Qed.

Lemma shape_ext st st' :
  free_counts st' = free_counts st -> free_slots st' = free_slots st -> shape st -> shape st'.
Proof.
  intros H1 H2 [Ha Hb Hc Hd]. constructor; intros; rewrite ?H1, ?H2; auto.
Qed.

Lemma bitmap_set_shape st f : shape st -> shape (bitmap_set st f).
Proof.
  intros Hs. destruct (bitmap_set_pool st f) as (_ & H1 & H2 & _).
  by apply (shape_ext st).
Qed.

Lemma push_slot_pages st o a : free_pages (push_slot st o a) = free_pages st.
Proof. unfold push_slot. by case_if. Qed.

Lemma remove_slot_pages st o i : free_pages (remove_slot_at st o i) = free_pages st.
Proof. unfold remove_slot_at. by case_if. Qed.

Lemma remove_slot_count st o i o' :
  (free_counts (remove_slot_at st o i) !!! o' <= free_counts st !!! o')%nat.
Proof.
  unfold remove_slot_at. case_if; [|done]. simpl.
  rewrite list_lookup_total_insert. case_decide as Hd; [|done]. destruct Hd as [-> _]. lia.
Qed.

Lemma pop_slot_pages st o : free_pages (pop_slot st o).2 = free_pages st.
Proof. unfold pop_slot. by case_if. Qed.

#[export] Hint Resolve bitmap_set_shape push_slot_shape : neodos.
#[export] Hint Rewrite push_slot_pages remove_slot_pages : neodos_rw.

(** ** Releasing a block *)

Lemma free_set_cons o f bs :
  0 <= f < 2 ^ 52 ->
  ((o, frame_to_page f) :: bs) ≫= block_frames = seqZ f (2 ^ Z.of_nat o) ++ (bs ≫= block_frames).
Proof. intros. csimpl. by rewrite block_frames_page. Qed.

(** What the merge loop keeps: the frames of the block under construction
    together with the pool, and the alignment of that block. *)
Record merging (pool : list Z) (st : BuddyAllocator) (frame : Z) (cur : nat) : Prop := {
  mg_shape : shape st;
  mg_blocks : Forall block_ok (free_blocks st);
  mg_cur : (cur <= MAX_ORDER)%nat;
  mg_align : (2 ^ Z.of_nat cur | frame);
  mg_range : 0 <= frame /\ frame + 2 ^ Z.of_nat cur <= 2 ^ 52;
  mg_pool : seqZ frame (2 ^ Z.of_nat cur) ++ free_set st ≡ₚ pool;
}.

(** The frame space is a whole number of maximal blocks, so a buddy stays in it. *)
Lemma buddy_range f o :
  (o < MAX_ORDER)%nat -> (2 ^ Z.of_nat o | f) -> 0 <= f -> f + 2 ^ Z.of_nat o <= 2 ^ 52 ->
  0 <= buddy_of f o /\ buddy_of f o + 2 ^ Z.of_nat o <= 2 ^ 52.
Proof.
  intros Ho Hd H0 Hl. pose proof (pow2_pos o).
  destruct (buddy_of_spec f o Hd) as [[-> Hs]|[-> Hs]].
  - split; [lia|]. assert (Hd2 : (2 ^ Z.of_nat (S o) | 2 ^ 52)).
    { apply (pow2_divide (S o) 52). unfold MAX_ORDER in Ho. lia. }
    rewrite pow2_S in *. destruct Hs as [q ->]. destruct Hd2 as [k Hk].
    rewrite Hk in *. assert (q < k) by nia. nia.
  - rewrite pow2_S in Hs. destruct Hs as [q Hq]. assert (0 <= q) by nia. nia.
Qed.

Lemma merge_step pool st frame cur idx :
  merging pool st frame cur -> (cur < MAX_ORDER)%nat ->
  scan_for_buddy st cur (frame_to_page (buddy_of frame cur)) = Some idx ->
  merging pool (bitmap_set (remove_slot_at st cur idx) (buddy_of frame cur))
    (Z.min frame (buddy_of frame cur)) (S cur).
Proof.
  intros [Hs Hb Hc Ha [H0 Hl] Hp] Ho Hscan.
  apply scan_for_buddy_Some in Hscan; [|done|lia].
  destruct (remove_slot_blocks _ _ _ _ Hs Hc Hscan) as [Hrm Hs'].
  destruct (buddy_range frame cur Ho Ha H0 Hl) as [Hb0 Hbl].
  destruct (merge_frames frame cur Ha) as [Hm Hd]. pose proof (pow2_pos cur).
  set (st' := remove_slot_at st cur idx) in *.
  destruct (bitmap_set_pool st' (buddy_of frame cur)) as (Hpool & _).
  constructor.
  - by apply bitmap_set_shape.
  - rewrite Hpool. rewrite Hrm in Hb. by apply Forall_cons in Hb as [_ ?].
  - lia.
  - done.
  - rewrite pow2_S. destruct (buddy_of_spec frame cur Ha) as [[He _]|[He _]]; lia.
  - unfold free_set. rewrite Hpool, Hm, <- Hp. unfold free_set. rewrite Hrm.
    rewrite free_set_cons by lia. by rewrite app_assoc.
Qed.

Lemma merge_loop_spec pool fuel : forall st frame cur st' frame' cur',
  merging pool st frame cur -> (MAX_ORDER <= fuel + cur)%nat ->
  merge_loop fuel st frame cur = (st', frame', cur') ->
  merging pool st' frame' cur' /\ free_pages st' = free_pages st /\
  (forall b, b ∈ free_blocks st' -> b ∈ free_blocks st) /\
  (forall o, (free_counts st' !!! o <= free_counts st !!! o)%nat) /\
  ((cur' < MAX_ORDER)%nat -> (cur', frame_to_page (buddy_of frame' cur')) ∉ free_blocks st').
Proof.
  induction fuel as [|fuel IH]; intros st frame cur st' frame' cur' Hm Hf Hr.
  { injection Hr as <- <- <-. split_and!; [done|done|done|done|lia]. }
  simpl in Hr. pose proof (mg_shape _ _ _ _ Hm) as Hs. case_if_in Hr.
  2: { injection Hr as <- <- <-. split_and!; [done|done|done|done|lia]. }
  destruct (scan_for_buddy st cur _) as [idx|] eqn:Hscan.
  - pose proof (merge_step _ _ _ _ _ Hm Hif Hscan) as Hm'.
    apply IH in Hr as (H1 & H2 & H3 & H4 & H5); [|done|lia].
    destruct (bitmap_set_pool (remove_slot_at st cur idx) (buddy_of frame cur))
      as (Hpool & Hcnt & _ & Hpg).
    rewrite Hpg, remove_slot_pages in H2. split_and!; [done|done| | |done].
    2: { intros o. specialize (H4 o). rewrite Hcnt in H4.
         pose proof (remove_slot_count st cur idx o). lia. }
    intros b Hb. apply H3 in Hb. rewrite Hpool in Hb.
    apply scan_for_buddy_Some in Hscan; [|done|lia].
    destruct (remove_slot_blocks _ _ _ _ Hs (mg_cur _ _ _ _ Hm) Hscan) as [-> _].
    by right.
  - injection Hr as <- <- <-. split_and!; [done|done|done|done|].
    intros _. apply scan_for_buddy_None; [done|lia|done].
Qed.

Lemma buddy_of_involutive f o : buddy_of (buddy_of f o) o = f.
Proof. unfold buddy_of. by rewrite Z.lxor_assoc, Z.lxor_nilpotent, Z.lxor_0_r. Qed.

Lemma buddy_of_ne f o : buddy_of f o ≠ f.
Proof.
  unfold buddy_of. rewrite shiftl_1. intros H.
  apply (f_equal (Z.lxor f)) in H.
  rewrite <- Z.lxor_assoc, Z.lxor_nilpotent, Z.lxor_0_l in H.
  pose proof (pow2_pos o). lia.
Qed.

Lemma frame_to_page_inj f g :
  0 <= f < 2 ^ 52 -> 0 <= g < 2 ^ 52 -> frame_to_page f = frame_to_page g -> f = g.
Proof. intros Hf Hg H. rewrite !page_frame in H by done. unfold PAGE_SIZE in H. lia. Qed.

Lemma block_ok_page_inv o f :
  0 <= f < 2 ^ 52 -> block_ok (o, frame_to_page f) ->
  (2 ^ Z.of_nat o | f) /\ f + 2 ^ Z.of_nat o <= 2 ^ 52.
Proof.
  intros Hf (g & _ & Hg & Hg0 & Hd & Hl)%block_ok_frame. simpl in *.
  rewrite page_to_frame_frame in Hg by done. by subst g.
Qed.

(** Adding a block whose buddy is not free keeps the pool coalesced. *)
Lemma coalesced_add st st' o f :
  (forall b, b ∈ free_blocks st' -> b = (o, frame_to_page f) \/ b ∈ free_blocks st) ->
  Forall block_ok (free_blocks st) ->
  0 <= f -> (2 ^ Z.of_nat o | f) -> f + 2 ^ Z.of_nat o <= 2 ^ 52 ->
  ((o < MAX_ORDER)%nat -> (o, frame_to_page (buddy_of f o)) ∉ free_blocks st) ->
  coalesced st -> coalesced st'.
Proof.
  intros Hsub Hok Hf0 Hfd Hfl Hnb Hco o' g Ho' Hg Hin Hin'. pose proof (pow2_pos o).
  pose proof (pow2_pos o').
  apply Hsub in Hin as [[= -> Hgf]|Hin]; apply Hsub in Hin' as [Hx|Hin'].
  - apply frame_to_page_inj in Hgf as ->; [|lia..].
    destruct (buddy_range f o) as [Hb0 Hbl]; try done.
    injection Hx as Hx. apply (buddy_of_ne f o). apply frame_to_page_inj; [lia..|done].
  - apply frame_to_page_inj in Hgf as ->; [|lia..]. by apply Hnb in Hin'.
  - injection Hx as -> Hx. rewrite list.Forall_forall in Hok. pose proof (Hok _ Hin) as Hgo.
    apply block_ok_page_inv in Hgo as [Hgd Hgl]; [|done].
    destruct (buddy_range g o) as [Hb0 Hbl]; try lia; [done|].
    apply frame_to_page_inj in Hx as <-; [|lia..].
    apply Hnb; [done|]. by rewrite buddy_of_involutive.
  - by apply (Hco o' g).
Qed.

(** The state before the final [push_slot] of [free_frames]. *)
Lemma free_frames_merged st addr order :
  wf st -> (order <= MAX_ORDER)%nat -> block_ok (order, addr) ->
  exists st1 f cur,
    merging (block_frames (order, addr) ++ free_set st) st1 f cur /\
    free_pages st1 = free_pages st /\
    (forall b, b ∈ free_blocks st1 -> b ∈ free_blocks st) /\
    (forall o, (free_counts st1 !!! o <= free_counts st !!! o)%nat) /\
    ((cur < MAX_ORDER)%nat -> (cur, frame_to_page (buddy_of f cur)) ∉ free_blocks st1) /\
    free_frames st addr order =
      set_free_pages (push_slot st1 cur (frame_to_page f))
        (wrap 64 (free_pages st + 2 ^ Z.of_nat order)).
Proof.
  intros [Hs Hb Hn Hp] Ho Hok. unfold free_frames. rewrite Nat.min_l by done.
  destruct (block_ok_frame _ Hok) as (f & [= Ha] & Hf & Hf0 & Hd & Hl). simpl in Hf, Hd, Hl.
  pose proof (pow2_pos order). rewrite Hf.
  destruct (bitmap_set_pool st f) as (Hpool & Hcnt & _ & Hpg).
  destruct (merge_loop MAX_ORDER (bitmap_set st f) f order) as [[st1 f1] cur] eqn:Hm.
  eapply merge_loop_spec in Hm as (H1 & H2 & H3 & H4 & H5).
  - exists st1, f1, cur. split_and!; [exact H1| | | |done|].
    + by rewrite H2.
    + intros b Hb1. by rewrite <- Hpool; apply H3.
    + intros o. by rewrite <- Hcnt.
    + cbv zeta. by rewrite shiftl_1, push_slot_pages, H2, Hpg.
  - constructor; [by apply bitmap_set_shape|by rewrite Hpool|done..|].
    unfold free_set. rewrite Hpool, Ha, block_frames_page by lia. done.
  - lia.
Qed.

(** Releasing a block keeps the allocator well formed: the pool afterwards
    consists of frames of the old pool and of the released block, each at most
    once, every free block is aligned to its size, the page counter grows by the
    size of the block, and no two buddies are both free if none were before. *)
Lemma free_frames_safe st addr order :
  wf st -> (order <= MAX_ORDER)%nat -> block_ok (order, addr) ->
  NoDup (block_frames (order, addr) ++ free_set st) ->
  free_pages st + 2 ^ Z.of_nat order < 2 ^ 64 ->
  let st' := free_frames st addr order in
  wf st' /\
  free_set st' ⊆+ block_frames (order, addr) ++ free_set st /\
  free_pages st' = free_pages st + 2 ^ Z.of_nat order /\
  (coalesced st -> coalesced st').
Proof.
  intros Hwf Ho Hok Hnd Hov st'.
  destruct (free_frames_merged st addr order Hwf Ho Hok)
    as (st1 & f & cur & [Hs Hb Hc Ha [H0 Hl] Hp] & Hpg & Hsub & Hcnt & Hnb & Heq).
  pose proof (pow2_pos order). pose proof (pow2_pos cur). pose proof (wf_pages _ Hwf).
  assert (Hbl : free_blocks st' ⊆+ (cur, frame_to_page f) :: free_blocks st1).
  { unfold st'. rewrite Heq. by apply push_slot_sub. }
  assert (Hset : free_set st' ⊆+ block_frames (order, addr) ++ free_set st).
  { rewrite <- Hp. unfold free_set. rewrite <- free_set_cons by lia.
    apply submseteq_Permutation in Hbl as [k ->]. rewrite bind_app.
    by apply submseteq_inserts_r. }
  assert (Hpages : free_pages st' = free_pages st + 2 ^ Z.of_nat order).
  { unfold st'. rewrite Heq. simpl. apply wrap_small. lia. }
  split_and!; [|done|done|].
  - constructor.
    + unfold st'. rewrite Heq. apply (shape_ext (push_slot st1 cur (frame_to_page f))); [done..|].
      by apply push_slot_shape.
    + rewrite list.Forall_forall. intros b Hin. apply (submseteq_elem_of _ _ _ Hbl) in Hin.
      apply elem_of_cons in Hin as [->|Hin]; [by apply block_ok_page|].
      by rewrite list.Forall_forall in Hb; apply Hb.
    + by eapply NoDup_of_submseteq.
    + split; [|lia]. apply submseteq_length in Hset. rewrite length_app in Hset.
      unfold block_frames in Hset at 1. rewrite length_seqZ in Hset. simpl in Hset. lia.
  - intros Hco. apply (coalesced_add st1 st' cur f); try done.
    + intros b Hin. apply (submseteq_elem_of _ _ _ Hbl) in Hin. by apply elem_of_cons in Hin.
    + intros o g Hlt Hg Hi Hi'. apply (Hco o g); auto.
Qed.

(** When the slot arrays are not full, nothing of a released block is lost. *)
Lemma free_frames_exact st addr order :
  wf st -> (order <= MAX_ORDER)%nat -> block_ok (order, addr) ->
  (forall o, (o <= MAX_ORDER)%nat -> (free_counts st !!! o < MAX_FREE_SLOTS)%nat) ->
  free_set (free_frames st addr order) ≡ₚ block_frames (order, addr) ++ free_set st.
Proof.
  intros Hwf Ho Hok Hroom.
  destruct (free_frames_merged st addr order Hwf Ho Hok)
    as (st1 & f & cur & [Hs Hb Hc Ha [H0 Hl] Hp] & Hpg & Hsub & Hcnt & Hnb & Heq).
  pose proof (pow2_pos cur). rewrite Heq, <- Hp. unfold free_set.
  transitivity (((cur, frame_to_page f) :: free_blocks st1) ≫= block_frames).
  - apply bind_Permutation. apply push_slot_blocks; [done..|].
    specialize (Hcnt cur). specialize (Hroom cur Hc). lia.
  - by rewrite free_set_cons by lia.
Qed.

(** ** Splitting a run into blocks *)

Lemma align_order_spec addr order :
  let r := align_order addr order in
  (r <= order)%nat /\ (2 ^ Z.of_nat r | addr) /\
  (forall o, (r < o <= order)%nat -> ~ (2 ^ Z.of_nat o | addr)).
Proof.
  induction order as [|o IH]; cbn [align_order].
  { split_and!; [lia|apply Z.divide_1_l|lia]. }
  rewrite shiftl_1, land_mask. case_if.
  - destruct IH as (H1 & H2 & H3). split_and!; [lia|done|].
    intros o' Ho'. destruct (decide (o' = S o)) as [->|]; [|apply H3; lia].
    intros Hd%Z.mod_divide; [done|]. pose proof (pow2_pos (S o)). lia.
  - split_and!; [lia| |lia]. apply Z.mod_divide; [|done]. pose proof (pow2_pos (S o)). lia.
Qed.

Lemma fit_order_spec remaining order :
  0 < remaining ->
  let r := fit_order remaining order in
  (r <= order)%nat /\ 2 ^ Z.of_nat r <= remaining /\
  (forall o, (r < o <= order)%nat -> remaining < 2 ^ Z.of_nat o).
Proof.
  intros Hr. induction order as [|o IH]; cbn [fit_order].
  { split_and!; [lia| |lia]. simpl. lia. }
  rewrite shiftl_1. case_if.
  - destruct IH as (H1 & H2 & H3). split_and!; [lia|done|].
    intros o' Ho'. destruct (decide (o' = S o)) as [->|]; [done|apply H3; lia].
  - split_and!; [lia|lia|lia].
Qed.

(** The chosen order is the largest one that is aligned and fits. *)
Lemma run_order_spec addr remaining :
  0 < remaining ->
  let r := run_order addr remaining in
  (r <= MAX_ORDER)%nat /\ (2 ^ Z.of_nat r | addr) /\ 2 ^ Z.of_nat r <= remaining /\
  (forall o, (r < o <= MAX_ORDER)%nat ->
     ~ (2 ^ Z.of_nat o | addr) \/ remaining < 2 ^ Z.of_nat o).
Proof.
  intros Hr. unfold run_order.
  destruct (align_order_spec addr MAX_ORDER) as (H1 & H2 & H3).
  destruct (fit_order_spec remaining (align_order addr MAX_ORDER) Hr) as (F1 & F2 & F3).
  rewrite shiftl_1. case_if; [lia|]. split_and!; [lia| |done|].
  - etransitivity; [|exact H2]. by apply pow2_divide.
  - intros o Ho. destruct (decide (o <= align_order addr MAX_ORDER)%nat).
    + right. apply F3. lia.
    + left. apply H3. lia.
Qed.

(** The blocks [free_add_run] pushes, as pairs of an order and a frame. *)
Fixpoint run_pieces (fuel : nat) (addr remaining : Z) : list (nat * Z) :=
  match fuel with
  | O => []
  | S n =>
      if remaining >? 0 then
        let o := run_order addr remaining in
        (o, addr) :: run_pieces n (addr + 2 ^ Z.of_nat o) (remaining - 2 ^ Z.of_nat o)
      else []
  end.

Definition push_all (st : BuddyAllocator) (ps : list (nat * Z)) : BuddyAllocator :=
  foldl (λ st p, push_slot st p.1 (frame_to_page p.2)) st ps.

Lemma free_add_run_pieces fuel : forall st addr remaining,
  free_add_run_loop fuel st addr remaining = push_all st (run_pieces fuel addr remaining).
Proof.
  induction fuel as [|n IH]; intros; [done|]. cbn [free_add_run_loop run_pieces].
  rewrite shiftl_1. destruct (remaining >? 0); [|done]. by rewrite IH.
Qed.

(** With [remaining] steps of fuel the pieces tile the run exactly. *)
Lemma run_pieces_tile fuel : forall addr remaining,
  0 <= remaining <= Z.of_nat fuel ->
  run_pieces fuel addr remaining ≫= (λ p, seqZ p.2 (2 ^ Z.of_nat p.1)) = seqZ addr remaining.
Proof.
  induction fuel as [|n IH]; intros addr remaining Hr.
  { by replace remaining with 0 by lia. }
  cbn [run_pieces]. rewrite Z.gtb_ltb. case_if.
  2: { by replace remaining with 0 by lia. }
  destruct (run_order_spec addr remaining) as (H1 & H2 & H3 & _); [lia|].
  set (o := run_order addr remaining) in *. pose proof (pow2_pos o). csimpl.
  rewrite IH by lia. rewrite <- seqZ_app by lia. f_equal. lia.
Qed.

Lemma run_pieces_ok fuel : forall addr remaining,
  0 <= addr -> 0 <= remaining ->
  Forall (λ p, (p.1 <= MAX_ORDER)%nat /\ (2 ^ Z.of_nat p.1 | p.2) /\
    addr <= p.2 /\ p.2 + 2 ^ Z.of_nat p.1 <= addr + remaining)
    (run_pieces fuel addr remaining).
Proof.
  induction fuel as [|n IH]; intros addr remaining Ha Hr; [constructor|].
  cbn [run_pieces]. rewrite Z.gtb_ltb. case_if; [|constructor].
  destruct (run_order_spec addr remaining) as (H1 & H2 & H3 & _); [lia|].
  set (o := run_order addr remaining) in *. pose proof (pow2_pos o).
  constructor; [simpl; split_and!; [done|done|lia|lia]|].
  eapply Forall_impl; [apply IH; lia|]. simpl. intros p (?&?&?&?). split_and!; [done|done|lia|lia].
Qed.

Definition page_block (p : nat * Z) : nat * Z := (p.1, frame_to_page p.2).

(** How many of the pieces go to order [o]. *)
Definition order_count (ps : list (nat * Z)) (o : nat) : nat :=
  length (filter (λ p, p.1 = o) ps).

Lemma push_all_spec ps : forall st,
  shape st -> Forall (λ p, (p.1 <= MAX_ORDER)%nat) ps ->
  shape (push_all st ps) /\ free_pages (push_all st ps) = free_pages st /\
  free_blocks (push_all st ps) ⊆+ (page_block <$> ps) ++ free_blocks st.
Proof.
  induction ps as [|p ps IH]; intros st Hs Hps; [done|].
  apply Forall_cons in Hps as [Hp Hps]. cbn [push_all foldl].
  destruct (IH (push_slot st p.1 (frame_to_page p.2))) as (H1 & H2 & H3);
    [by apply push_slot_shape|done|].
  split_and!; [done|by rewrite <- (push_slot_pages st p.1 (frame_to_page p.2))|].
  etransitivity; [exact H3|]. csimpl. rewrite Permutation_middle.
  apply submseteq_skips_l. by apply push_slot_sub.
Qed.

Lemma push_all_exact ps : forall st,
  shape st -> Forall (λ p, (p.1 <= MAX_ORDER)%nat) ps ->
  (forall o, (o <= MAX_ORDER)%nat ->
     (free_counts st !!! o + order_count ps o <= MAX_FREE_SLOTS)%nat) ->
  free_blocks (push_all st ps) ≡ₚ (page_block <$> ps) ++ free_blocks st.
Proof.
  induction ps as [|p ps IH]; intros st Hs Hps Hroom; [done|].
  apply Forall_cons in Hps as [Hp Hps]. cbn [push_all foldl].
  assert (Hlt : (free_counts st !!! p.1 < MAX_FREE_SLOTS)%nat).
  { specialize (Hroom p.1 Hp). unfold order_count in Hroom.
    rewrite filter_cons_True in Hroom by done. simpl in Hroom. lia. }
  transitivity ((page_block <$> ps) ++ free_blocks (push_slot st p.1 (frame_to_page p.2))).
  - apply IH; [by apply push_slot_shape|done|]. intros o Ho.
    specialize (Hroom o Ho). unfold order_count in Hroom. rewrite filter_cons in Hroom.
    rewrite push_slot_count by done. unfold order_count.
    destruct (decide (p.1 = o)) as [<-|Hne]; simpl in Hroom;
      (case_decide as Hd; [|]); try lia; destruct Hd; by subst.
  - rewrite push_slot_blocks by done. csimpl. by rewrite <- Permutation_middle.
Qed.

(** Splitting the tail of an aligned block gives one block per order. *)
Lemma run_order_split f j o :
  (2 ^ Z.of_nat o | f) -> (j < o <= MAX_ORDER)%nat ->
  run_order (f + 2 ^ Z.of_nat j) (2 ^ Z.of_nat o - 2 ^ Z.of_nat j) = j.
Proof.
  intros Hf Hj. pose proof (pow2_pos j).
  assert (Hle : 2 ^ Z.of_nat (S j) <= 2 ^ Z.of_nat o) by (apply pow2_mono; lia).
  rewrite pow2_S in Hle.
  assert (Hdf : forall i, (i <= o)%nat -> (2 ^ Z.of_nat i | f)).
  { intros i Hi. etransitivity; [|exact Hf]. by apply pow2_divide. }
  destruct (run_order_spec (f + 2 ^ Z.of_nat j) (2 ^ Z.of_nat o - 2 ^ Z.of_nat j))
    as (H1 & H2 & H3 & H4); [lia|].
  set (r := run_order _ _) in *.
  destruct (decide (r < j)%nat) as [Hlt|].
  { destruct (H4 j) as [Hn|Hn]; [lia| |lia]. destruct Hn.
    apply Z.divide_add_r; [apply Hdf; lia|apply Z.divide_refl]. }
  destruct (decide (j < r)%nat) as [Hlt|]; [|lia]. exfalso.
  assert (Hd : (2 ^ Z.of_nat (S j) | 2 ^ Z.of_nat j)).
  { apply (Z.divide_add_cancel_r _ f); [apply Hdf; lia|].
    etransitivity; [|exact H2]. by apply pow2_divide. }
  apply Z.divide_pos_le in Hd; [|done]. rewrite pow2_S in Hd. lia.
Qed.

Lemma run_pieces_split f o : forall n k fuel,
  (2 ^ Z.of_nat o | f) -> (k + n = o)%nat -> (o <= MAX_ORDER)%nat -> (n <= fuel)%nat ->
  run_pieces fuel (f + 2 ^ Z.of_nat k) (2 ^ Z.of_nat o - 2 ^ Z.of_nat k) =
    (λ j, (j, f + 2 ^ Z.of_nat j)) <$> seq k n.
Proof.
  induction n as [|n IH]; intros k fuel Hf Hk Ho Hn.
  { replace k with o by lia. rewrite Z.sub_diag. by destruct fuel. }
  destruct fuel as [|fuel]; [lia|]. cbn [run_pieces seq].
  assert (Hle : 2 ^ Z.of_nat (S k) <= 2 ^ Z.of_nat o) by (apply pow2_mono; lia).
  rewrite pow2_S in Hle. pose proof (pow2_pos k).
  rewrite Z.gtb_ltb. case_if; [|lia]. rewrite run_order_split by (done || lia).
  csimpl. f_equal. rewrite <- (IH (S k) fuel) by (done || lia).
  rewrite pow2_S. f_equal; lia.
Qed.

Lemma pow2_gap k n : Z.of_nat n <= 2 ^ Z.of_nat (k + n) - 2 ^ Z.of_nat k.
Proof.
  induction n as [|n IH]; [rewrite Nat.add_0_r; lia|].
  rewrite <- plus_n_Sm, pow2_S. pose proof (pow2_pos k).
  pose proof (pow2_mono k (k + n)). lia.
Qed.

Lemma order_count_split (g : nat -> Z) k n o :
  (order_count ((λ j, (j, g j)) <$> seq k n) o <= if decide (k <= o < k + n)%nat then 1 else 0)%nat.
Proof.
  unfold order_count. revert k. induction n as [|n IH]; intros k; [simpl; lia|].
  cbn [seq]. csimpl. rewrite filter_cons. specialize (IH (S k)).
  repeat case_decide; simpl in *; try lia.
Qed.

(** ** Allocation *)

Lemma alloc_scan_spec st order : forall n k,
  (exists o, (k <= o < k + n)%nat /\ (0 < free_counts st !!! o)%nat /\
     (forall j, (k <= j < o)%nat -> free_counts st !!! j = 0%nat) /\
     alloc_scan st order (seq k n) = alloc_from st order o) \/
  ((forall j, (k <= j < k + n)%nat -> free_counts st !!! j = 0%nat) /\
   alloc_scan st order (seq k n) = (None, st)).
Proof.
  induction n as [|n IH]; intros k; cbn [seq alloc_scan].
  { right. split; [lia|done]. }
  case_if.
  - left. exists k. split_and!; [lia|lia|done|lia|done].
  - destruct (IH (S k)) as [(o & H1 & H2 & H3 & H4)|[H1 H2]].
    + left. exists o. split_and!; [lia|lia|done| |done]. intros j Hj.
      destruct (decide (j = k)) as [->|]; [lia|]. apply H3. lia.
    + right. split; [|done]. intros j Hj. destruct (decide (j = k)) as [->|]; [lia|].
      apply H1. lia.
Qed.

Definition split_pieces (f : Z) (order o : nat) : list (nat * Z) :=
  (λ j, (j, f + 2 ^ Z.of_nat j)) <$> seq order (o - order).

(** The head of a split block together with its tail is the block. *)
Lemma split_pieces_frames f order o :
  (2 ^ Z.of_nat o | f) -> (order <= o <= MAX_ORDER)%nat ->
  seqZ f (2 ^ Z.of_nat order) ++
    (split_pieces f order o ≫= (λ p, seqZ p.2 (2 ^ Z.of_nat p.1))) = seqZ f (2 ^ Z.of_nat o).
Proof.
  intros Hf Ho. unfold split_pieces. pose proof (pow2_pos order).
  pose proof (pow2_mono order o). pose proof (pow2_gap order (o - order)) as Hgap.
  replace (order + (o - order))%nat with o in Hgap by lia.
  rewrite <- (run_pieces_split f o _ _ (Z.to_nat (2 ^ Z.of_nat o - 2 ^ Z.of_nat order)))
    by (done || lia).
  rewrite run_pieces_tile by lia. rewrite <- seqZ_app by lia. f_equal. lia.
Qed.

Lemma page_block_frames ps :
  Forall (λ p, 0 <= p.2 < 2 ^ 52) ps ->
  (page_block <$> ps) ≫= block_frames = ps ≫= (λ p, seqZ p.2 (2 ^ Z.of_nat p.1)).
Proof.
  induction 1 as [|p ps Hp Hps IH]; [done|]. csimpl.
  unfold page_block at 1. by rewrite block_frames_page, IH by done.
Qed.

Lemma split_pieces_ok f order o :
  (2 ^ Z.of_nat o | f) -> (order <= o <= MAX_ORDER)%nat -> 0 <= f ->
  f + 2 ^ Z.of_nat o <= 2 ^ 52 ->
  Forall (λ p, (p.1 <= MAX_ORDER)%nat /\ 0 <= p.2 < 2 ^ 52 /\ block_ok (page_block p))
    (split_pieces f order o).
Proof.
  intros Hf Ho H0 Hl. unfold split_pieces. apply Forall_fmap, list.Forall_forall.
  intros j Hj%elem_of_seq. simpl. pose proof (pow2_pos j).
  assert (Hle : 2 ^ Z.of_nat (S j) <= 2 ^ Z.of_nat o) by (apply pow2_mono; lia).
  rewrite pow2_S in Hle. split_and!; [lia|lia|lia|].
  apply block_ok_page; simpl; [lia|lia| |lia].
  apply Z.divide_add_r; [|apply Z.divide_refl].
  etransitivity; [|exact Hf]. apply pow2_divide. lia.
Qed.

(** Returning the tail of a larger block pushes exactly its split pieces. *)
Lemma split_run st f order o :
  (2 ^ Z.of_nat o | f) -> (order <= o <= MAX_ORDER)%nat ->
  (if 2 ^ Z.of_nat o >? 2 ^ Z.of_nat order
   then free_add_run st (f + 2 ^ Z.of_nat order) (2 ^ Z.of_nat o - 2 ^ Z.of_nat order)
   else st) = push_all st (split_pieces f order o).
Proof.
  intros Hd Ho. pose proof (pow2_pos order). rewrite Z.gtb_ltb. case_if.
  - unfold free_add_run. rewrite free_add_run_pieces. f_equal.
    pose proof (pow2_gap order (o - order)) as Hgap.
    replace (order + (o - order))%nat with o in Hgap by lia.
    apply run_pieces_split; [done|lia|lia|lia].
  - assert (Heq : o = order).
    { destruct (decide (o = order)); [done|].
      pose proof (pow2_mono (S order) o) as Hm. rewrite pow2_S in Hm. lia. }
    subst o. unfold split_pieces. by rewrite Nat.sub_diag.
Qed.

Lemma alloc_from_spec st order o :
  shape st -> Forall block_ok (free_blocks st) -> (order <= o <= MAX_ORDER)%nat ->
  (0 < free_counts st !!! o)%nat ->
  (forall j, (order <= j < o)%nat -> free_counts st !!! j = 0%nat) ->
  exists f st1 st',
    alloc_from st order o = (Some (frame_to_page f), st') /\
    (0 <= f /\ (2 ^ Z.of_nat o | f) /\ f + 2 ^ Z.of_nat o <= 2 ^ 52) /\
    free_blocks st ≡ₚ (o, frame_to_page f) :: free_blocks st1 /\
    free_blocks st' ≡ₚ (page_block <$> split_pieces f order o) ++ free_blocks st1 /\
    shape st' /\ free_pages st' = wrap 64 (free_pages st - 2 ^ Z.of_nat order).
Proof.
  intros Hs Hb Ho Hc Hz. unfold alloc_from.
  destruct (pop_slot st o) as [[a|] st1] eqn:Hp.
  2: { unfold pop_slot in Hp. case_if_in Hp; [lia|done]. }
  assert (Hpg1 : free_pages st1 = free_pages st)
    by (rewrite <- (pop_slot_pages st o), Hp; done).
  assert (Hc1 : forall j, (order <= j < o)%nat -> free_counts st1 !!! j = 0%nat).
  { intros j Hj. unfold pop_slot in Hp. case_if_in Hp; [done|]. injection Hp as _ <-.
    simpl. rewrite list_lookup_total_insert_ne by lia. by apply Hz. }
  apply pop_slot_blocks in Hp as [Hpop Hs1]; [|done|lia].
  assert (Hok : block_ok (o, a)).
  { rewrite list.Forall_forall in Hb. apply Hb. rewrite Hpop. by left. }
  destruct (block_ok_frame _ Hok) as (f & [= Ha] & Hf & H0 & Hd & Hl). simpl in Hf, Hd, Hl.
  rewrite Hf, !shiftl_1. subst a. clear Hf.
  destruct (bitmap_set_pool st1 f) as (Hpool & Hcnt & _ & Hpg).
  set (st2 := bitmap_set st1 f) in *.
  assert (Hs2 : shape st2) by by apply bitmap_set_shape.
  cbv zeta. rewrite split_run by done. exists f, st1. eexists. split; [reflexivity|].
  pose proof (split_pieces_ok f order o Hd Ho H0 Hl) as Hps.
  destruct (push_all_spec (split_pieces f order o) st2) as (P1 & P2 & P3); [done| |].
  { eapply Forall_impl; [exact Hps|]. by intros ? (?&?&?). }
  split_and!; [done|done|done|done| |by apply (shape_ext (push_all st2 (split_pieces f order o)))|].
  - etransitivity; [apply (push_all_exact (split_pieces f order o) st2)|by rewrite Hpool]; [done| |].
    { eapply Forall_impl; [exact Hps|]. by intros ? (?&?&?). }
    intros j Hj. pose proof (order_count_split (λ j, f + 2 ^ Z.of_nat j) order (o - order) j).
    unfold split_pieces. pose proof (shape_count _ Hs2 j Hj).
    case_decide; [|lia]. rewrite Hcnt, Hc1 by lia. unfold MAX_FREE_SLOTS in *. lia.
  - simpl. by rewrite P2, Hpg, Hpg1.
Qed.

(** What the allocation theorem says of a successful request of order [k]. *)
Definition alloc_post (st st' : BuddyAllocator) (k : nat) (a : Z) : Prop :=
  wf st' /\ block_ok (k, a) /\
  block_frames (k, a) ++ free_set st' ≡ₚ free_set st /\
  free_pages st' = free_pages st - 2 ^ Z.of_nat k /\
  (coalesced st -> coalesced st').

Lemma alloc_pool f st st1 st' order o :
  0 <= f -> (2 ^ Z.of_nat o | f) -> f + 2 ^ Z.of_nat o <= 2 ^ 52 ->
  (order <= o <= MAX_ORDER)%nat ->
  free_blocks st ≡ₚ (o, frame_to_page f) :: free_blocks st1 ->
  free_blocks st' ≡ₚ (page_block <$> split_pieces f order o) ++ free_blocks st1 ->
  seqZ f (2 ^ Z.of_nat order) ++ free_set st' ≡ₚ free_set st.
Proof.
  intros H0 Hd Hl Ho Hst Hst'. pose proof (pow2_pos o).
  pose proof (split_pieces_ok f order o Hd Ho H0 Hl) as Hps.
  unfold free_set. rewrite Hst, Hst', bind_app, free_set_cons by lia.
  rewrite page_block_frames.
  - by rewrite app_assoc, split_pieces_frames.
  - eapply Forall_impl; [exact Hps|]. by intros ? (?&?&?).
Qed.

(** The buddy of the left half of an aligned block is its right half. *)
Lemma buddy_of_left f k :
  (2 ^ Z.of_nat (S k) | f) -> buddy_of f k = f + 2 ^ Z.of_nat k.
Proof.
  intros Hf. pose proof (pow2_pos k).
  destruct (buddy_of_spec f k) as [[-> _]|[_ Hs]]; [|done|].
  { etransitivity; [|exact Hf]. apply pow2_divide. lia. }
  exfalso. apply (Z.divide_sub_r _ f) in Hs; [|done].
  replace (f - (f - 2 ^ Z.of_nat k)) with (2 ^ Z.of_nat k) in Hs by lia.
  apply Z.divide_pos_le in Hs; [|done]. rewrite pow2_S in Hs. lia.
Qed.

(** The pieces of a split block have the allocated head as their buddy. *)
Lemma alloc_coalesced f st st1 st' order o :
  0 <= f -> (2 ^ Z.of_nat o | f) -> f + 2 ^ Z.of_nat o <= 2 ^ 52 ->
  (order <= o <= MAX_ORDER)%nat ->
  Forall block_ok (free_blocks st) ->
  NoDup (seqZ f (2 ^ Z.of_nat order) ++ free_set st') ->
  free_blocks st ≡ₚ (o, frame_to_page f) :: free_blocks st1 ->
  free_blocks st' ≡ₚ (page_block <$> split_pieces f order o) ++ free_blocks st1 ->
  coalesced st -> coalesced st'.
Proof.
  intros H0 Hd Hl Ho Hok Hnd Hst Hst' Hco j g Hj Hg Hin Hin'.
  assert (Hhead : forall i, (i, frame_to_page f) ∉ free_blocks st').
  { intros i Hi. pose proof (pow2_pos order). pose proof (pow2_pos i). pose proof (pow2_pos o).
    apply list.NoDup_app in Hnd as (_ & Hdis & _).
    apply (Hdis f); [apply elem_of_seqZ; lia|]. unfold free_set. apply list_elem_of_bind.
    eexists. split; [|exact Hi]. rewrite block_frames_page by lia. apply elem_of_seqZ. lia. }
  assert (Hpiece : forall i h, (i, frame_to_page h) ∈ page_block <$> split_pieces f order o ->
            0 <= h < 2 ^ 52 -> buddy_of h i = f).
  { intros i h (p & Hp & Hpin)%list_elem_of_fmap Hh.
    pose proof (split_pieces_ok f order o Hd Ho H0 Hl) as Hps.
    rewrite list.Forall_forall in Hps. destruct (Hps _ Hpin) as (_ & Hr & _).
    unfold split_pieces in Hpin. apply list_elem_of_fmap in Hpin as (k & -> & Hk%elem_of_seq).
    injection Hp as -> Hp. apply frame_to_page_inj in Hp as ->; [|done..].
    assert (Hk1 : (2 ^ Z.of_nat (S k) | f)).
    { etransitivity; [|exact Hd]. apply pow2_divide. lia. }
    rewrite <- (buddy_of_left f k) by done. apply buddy_of_involutive. }
  rewrite Hst' in Hin, Hin'. apply elem_of_app in Hin as [Hin|Hin].
  - apply Hpiece in Hin; [|done]. rewrite Hin in Hin'. apply (Hhead j). by rewrite Hst'.
  - assert (Hgin : (j, frame_to_page g) ∈ free_blocks st) by (rewrite Hst; by right).
    apply elem_of_app in Hin' as [Hin'|Hin'].
    + rewrite list.Forall_forall in Hok. pose proof (Hok _ Hgin) as Hgo.
      apply block_ok_page_inv in Hgo as [Hgd Hgl]; [|done].
      destruct (buddy_range g j) as [Hb0 Hbl]; [done|done|lia|done|].
      pose proof (pow2_pos j). apply Hpiece in Hin'; [|lia].
      rewrite buddy_of_involutive in Hin'. subst g. apply (Hhead j).
      rewrite Hst'. apply elem_of_app. by right.
    + apply (Hco j g); [done..|]. rewrite Hst. by right.
Qed.

(** A successful allocation of order [order] (capped at [MAX_ORDER]) takes
    out of the pool exactly the frames of one aligned block of that order: the
    block and the remaining pool are disjoint and together are the old pool,
    the page counter drops by the size of the block, and a coalesced pool stays
    coalesced.  No free block is ever lost by an allocation. *)
Lemma alloc_frames_sound st order a st' :
  wf st -> alloc_frames st order = (Some a, st') ->
  alloc_post st st' (Nat.min order MAX_ORDER) a.
Proof.
  intros Hwf Hal. unfold alloc_frames in Hal. set (k := Nat.min order MAX_ORDER) in *.
  assert (Hk : (k <= MAX_ORDER)%nat) by lia.
  destruct (alloc_scan_spec st k (S MAX_ORDER - k) k)
    as [(o & Ho & Hc & Hz & Heq)|[_ Heq]]; rewrite Heq in Hal; [|done].
  destruct Hwf as [Hs Hb Hn Hp].
  destruct (alloc_from_spec st k o Hs Hb) as (f & st1 & st2 & Hf & (H0 & Hd & Hl) & B1 & B2 & Hs2 & Hpg);
    [lia|done|done|].
  rewrite Hf in Hal. injection Hal as <- <-.
  assert (Hpool : seqZ f (2 ^ Z.of_nat k) ++ free_set st2 ≡ₚ free_set st).
  { eapply alloc_pool; [done..|lia|exact B1|done]. }
  pose proof (pow2_pos k). pose proof (pow2_pos o). pose proof (pow2_mono k o).
  pose proof (Permutation_length Hpool) as Hlen. rewrite length_app, length_seqZ in Hlen.
  assert (Hfp : free_pages st2 = free_pages st - 2 ^ Z.of_nat k).
  { rewrite Hpg. apply wrap_small. lia. }
  assert (Hnd : NoDup (seqZ f (2 ^ Z.of_nat k) ++ free_set st2)) by by rewrite Hpool.
  unfold alloc_post. rewrite block_frames_page by lia. split_and!; [|split|done|done|].
  - constructor; [done| | |lia].
    + rewrite B2. apply Forall_app. split.
      * apply Forall_fmap. eapply Forall_impl; [apply split_pieces_ok; (done || lia)|].
        by intros p (?&?&?).
      * rewrite B1 in Hb. by apply Forall_cons in Hb as [_ ?].
    + by apply list.NoDup_app in Hnd as (_ & _ & ?).
  - done.
  - exists f. simpl. rewrite page_frame by lia. split_and!; [done|done| |lia].
    etransitivity; [|exact Hd]. apply pow2_divide. lia.
  - apply (alloc_coalesced f st st1 st2 k o); done || lia.
Qed.

(** Allocation fails exactly when no free block of the requested order or
    above exists, and then leaves the allocator unchanged. *)
Lemma alloc_frames_complete st order :
  wf st ->
  ((alloc_frames st order).1 = None <->
     forall o b, (Nat.min order MAX_ORDER <= o)%nat -> (o, b) ∉ free_blocks st) /\
  ((alloc_frames st order).1 = None -> (alloc_frames st order).2 = st).
Proof.
  intros Hwf. unfold alloc_frames. set (k := Nat.min order MAX_ORDER) in *.
  assert (Hk : (k <= MAX_ORDER)%nat) by lia. destruct Hwf as [Hs Hb Hn Hp].
  destruct (alloc_scan_spec st k (S MAX_ORDER - k) k)
    as [(o & Ho & Hc & Hz & Heq)|[Hz Heq]]; rewrite Heq.
  - destruct (alloc_from_spec st k o Hs Hb) as (f & st1 & st2 & Hf & _ & B1 & _);
      [lia|done|done|].
    rewrite Hf. simpl. split; [split; [done|]|done]. intros Hno. exfalso.
    apply (Hno o (frame_to_page f)); [lia|]. rewrite B1. by left.
  - simpl. split; [split; [|done]|done]. intros _ o b Ho. rewrite free_blocks_elem.
    intros [Hle Hin]. pose proof (slots_length st o Hs Hle) as Hlen.
    rewrite Hz in Hlen by lia. apply nil_length_inv in Hlen. rewrite Hlen in Hin.
    by apply elem_of_nil in Hin.
Qed.

(** ** The bitmap *)

Definition bitmap_wf (st : BuddyAllocator) : Prop := length (bitmap st) = bitmap_words st.

Lemma bitmap_test_testbit st g :
  0 <= g < bitmap_bits st ->
  bitmap_test st g = Z.testbit (bitmap st !!! Z.to_nat (g / 64)) (g `mod` 64).
Proof.
  intros Hg. unfold bitmap_test. case_if; [|lia].
  apply land_shiftl_testbit. apply Z.mod_pos_bound. lia.
Qed.

Lemma same_word_bit f g :
  0 <= f -> 0 <= g -> Z.to_nat (f / 64) = Z.to_nat (g / 64) -> f `mod` 64 = g `mod` 64 -> f = g.
Proof.
  intros Hf Hg Hq Hr. pose proof (Z.div_pos f 64). pose proof (Z.div_pos g 64).
  rewrite (Z.div_mod f 64), (Z.div_mod g 64) by lia. lia.
Qed.

Lemma word_index st g :
  bitmap_wf st -> 0 <= g < bitmap_bits st -> (Z.to_nat (g / 64) < length (bitmap st))%nat.
Proof.
  unfold bitmap_wf, bitmap_bits. intros -> Hg.
  assert (g / 64 < Z.of_nat (bitmap_words st)) by (apply Z.div_lt_upper_bound; lia).
  pose proof (Z.div_pos g 64). lia.
Qed.

Lemma bitmap_set_test st f g :
  bitmap_wf st -> 0 <= f < bitmap_bits st -> 0 <= g < bitmap_bits st ->
  bitmap_test (bitmap_set st f) g = if decide (g = f) then true else bitmap_test st g.
Proof.
  intros Hwf Hf Hg. pose proof (word_index st f Hwf Hf) as Hi.
  assert (Hb : bitmap_bits (bitmap_set st f) = bitmap_bits st)
    by (unfold bitmap_set; by case_if).
  rewrite bitmap_test_testbit by (by rewrite Hb). rewrite bitmap_test_testbit by done.
  unfold bitmap_set. case_if; [|lia]. simpl. rewrite list_lookup_total_insert.
  pose proof (Z.mod_pos_bound f 64). pose proof (Z.mod_pos_bound g 64).
  case_decide as Hd; cycle 1.
  { case_decide; [|done]. subst g. destruct Hd. split; [done|lia]. }
  destruct Hd as [Hd _]. rewrite Z.lor_spec, Z.shiftl_1_l, <- Hd.
  destruct (decide (g `mod` 64 = f `mod` 64)) as [He|He].
  - rewrite He, Z.pow2_bits_true, orb_true_r by lia. case_decide as Hgf; [done|].
    destruct Hgf. by apply same_word_bit; try lia.
  - rewrite Z.pow2_bits_false, orb_false_r by lia. case_decide; [by subst|done].
Qed.

Lemma not64_testbit x n : 0 <= n < 64 -> Z.testbit (not64 x) n = negb (Z.testbit x n).
Proof.
  intros Hn. unfold not64. rewrite Z.lxor_spec.
  replace (2 ^ 64 - 1) with (Z.ones 64) by done.
  rewrite Z.ones_spec_low by lia. apply xorb_true_r.
Qed.

Lemma bitmap_clear_test st f g :
  bitmap_wf st -> 0 <= f < bitmap_bits st -> 0 <= g < bitmap_bits st ->
  bitmap_test (bitmap_clear st f) g = if decide (g = f) then false else bitmap_test st g.
Proof.
  intros Hwf Hf Hg. pose proof (word_index st f Hwf Hf) as Hi.
  assert (Hb : bitmap_bits (bitmap_clear st f) = bitmap_bits st)
    by (unfold bitmap_clear; by case_if).
  rewrite bitmap_test_testbit by (by rewrite Hb). rewrite bitmap_test_testbit by done.
  unfold bitmap_clear. case_if; [|lia]. simpl. rewrite list_lookup_total_insert.
  pose proof (Z.mod_pos_bound f 64). pose proof (Z.mod_pos_bound g 64).
  case_decide as Hd; cycle 1.
  { case_decide; [|done]. subst g. destruct Hd. split; [done|lia]. }
  destruct Hd as [Hd _]. rewrite Z.land_spec, not64_testbit, Z.shiftl_1_l, <- Hd by lia.
  destruct (decide (g `mod` 64 = f `mod` 64)) as [He|He].
  - rewrite He, Z.pow2_bits_true, andb_false_r by lia. case_decide as Hgf; [done|].
    destruct Hgf. by apply same_word_bit; try lia.
  - rewrite Z.pow2_bits_false, andb_true_r by lia. case_decide; [by subst|done].
Qed.

(** ** Initialisation *)

(** Whether a region of the memory map covers frame [g]. *)
Definition region_covers (r : Z * Z) (g : Z) : bool :=
  (r.1 / PAGE_SIZE <=? g) && (g <? div_ceil r.2 PAGE_SIZE).

Definition usable (limit : Z) (regions : list (Z * Z)) (g : Z) : bool :=
  (g <? limit) && existsb (λ r, region_covers r g) regions.

(** The states differ at most in the bitmap and in [total_pages]. *)
Record same_pool (st st' : BuddyAllocator) : Prop := {
  sp_counts : free_counts st' = free_counts st;
  sp_slots : free_slots st' = free_slots st;
  sp_pages : free_pages st' = free_pages st;
  sp_words : bitmap_words st' = bitmap_words st;
  sp_bitmap : bitmap_wf st -> bitmap_wf st';
}.

Lemma same_pool_trans st1 st2 st3 : same_pool st1 st2 -> same_pool st2 st3 -> same_pool st1 st3.
Proof. intros [] []. constructor; congruence || auto. Qed.

Lemma same_pool_refl st : same_pool st st.
Proof. by constructor. Qed.

Lemma bitmap_clear_same st f : same_pool st (bitmap_clear st f).
Proof.
  unfold bitmap_clear. case_if; [|by apply same_pool_refl].
  constructor; try done. unfold bitmap_wf. simpl. by rewrite length_insert.
Qed.

Lemma foldl_clear_spec (l : list Z) : forall st,
  bitmap_wf st -> Forall (λ f, 0 <= f < bitmap_bits st) l ->
  same_pool st (foldl bitmap_clear st l) /\
  forall g, 0 <= g < bitmap_bits st ->
    bitmap_test (foldl bitmap_clear st l) g = bitmap_test st g && negb (bool_decide (g ∈ l)).
Proof.
  induction l as [|f l IH]; intros st Hwf Hl; cbn [foldl].
  { split; [by apply same_pool_refl|]. intros. rewrite bool_decide_false; [by rewrite andb_true_r|].
    by intros ?%elem_of_nil. }
  apply Forall_cons in Hl as [Hf Hl]. pose proof (bitmap_clear_same st f) as Hsp.
  assert (Hb : bitmap_bits (bitmap_clear st f) = bitmap_bits st)
    by (unfold bitmap_bits; by rewrite (sp_words _ _ Hsp)).
  destruct (IH (bitmap_clear st f)) as [H1 H2]; [by apply (sp_bitmap _ _ Hsp)|by rewrite Hb|].
  split; [by eapply same_pool_trans|]. intros g Hg. rewrite H2, bitmap_clear_test by (by rewrite ?Hb).
  case_decide; subst.
  - rewrite (bool_decide_true (f ∈ f :: l)) by by left. by rewrite andb_false_r.
  - f_equal. f_equal. apply bool_decide_ext. rewrite elem_of_cons. intuition congruence.
Qed.

Lemma clear_region_spec limit st c r :
  bitmap_wf st -> limit <= bitmap_bits st -> 0 <= r.1 ->
  same_pool st (clear_region limit (st, c) r).1 /\
  forall g, 0 <= g < limit ->
    bitmap_test (clear_region limit (st, c) r).1 g = bitmap_test st g && negb (region_covers r g).
Proof.
  intros Hwf Hl Hr. destruct r as [s e]. simpl in Hr.
  assert (Hs : 0 <= s / PAGE_SIZE) by by apply Z.div_pos.
  unfold clear_region, region_covers. simpl. rewrite Z.gtb_ltb. case_if; simpl.
  - destruct (foldl_clear_spec (seqZ (s / PAGE_SIZE)
      (div_ceil e PAGE_SIZE `min` limit - s / PAGE_SIZE)) st Hwf) as [H1 H2].
    { apply Forall_seqZ. intros. lia. }
    split; [done|]. intros g Hg. rewrite H2 by lia. f_equal. f_equal.
    case_bool_decide as Hin; rewrite elem_of_seqZ in Hin; symmetry;
      [apply andb_true_iff|apply andb_false_iff];
      rewrite Z.leb_le, Z.ltb_lt || rewrite Z.leb_gt, Z.ltb_ge; lia.
  - split; [by apply same_pool_refl|]. intros g Hg.
    destruct ((s / PAGE_SIZE <=? g) && (g <? div_ceil e PAGE_SIZE)) eqn:E;
      [reflect_bool; lia|by rewrite andb_true_r].
Qed.

Lemma clear_regions_spec limit regions : forall st c,
  bitmap_wf st -> limit <= bitmap_bits st -> Forall (λ r, 0 <= r.1) regions ->
  same_pool st (foldl (clear_region limit) (st, c) regions).1 /\
  forall g, 0 <= g < limit ->
    bitmap_test (foldl (clear_region limit) (st, c) regions).1 g =
      bitmap_test st g && negb (existsb (λ r, region_covers r g) regions).
Proof.
  induction regions as [|r rs IH]; intros st c Hwf Hl Hr.
  { split; [by apply same_pool_refl|]. intros. simpl. by rewrite andb_true_r. }
  apply Forall_cons in Hr as [Hr Hrs]. cbn [foldl existsb].
  destruct (clear_region_spec limit st c r Hwf Hl Hr) as [H1 H2].
  destruct (clear_region limit (st, c) r) as [st1 c1]. simpl in *.
  destruct (IH st1 c1) as [H3 H4]; [by apply (sp_bitmap _ _ H1)| |done|].
  { unfold bitmap_bits in *. by rewrite (sp_words _ _ H1). }
  split; [by eapply same_pool_trans|]. intros g Hg. rewrite H4, H2 by done.
  by rewrite negb_orb, andb_assoc.
Qed.

(** No two blocks of a run are buddies: the first of them would have been
    pushed at the next order. *)
Lemma run_pieces_no_buddy fuel : forall addr remaining p,
  0 <= addr -> 0 <= remaining -> (p.1 < MAX_ORDER)%nat ->
  p ∈ run_pieces fuel addr remaining ->
  (p.1, buddy_of p.2 p.1) ∉ run_pieces fuel addr remaining.
Proof.
  induction fuel as [|n IH]; intros addr remaining p Ha Hr Hp Hin; [by apply elem_of_nil in Hin|].
  cbn [run_pieces] in *. rewrite Z.gtb_ltb in *. case_if; [|by apply elem_of_nil in Hin].
  destruct (run_order_spec addr remaining) as (H1 & H2 & H3 & H4); [lia|].
  set (o := run_order addr remaining) in *. pose proof (pow2_pos o).
  pose proof (run_pieces_ok n (addr + 2 ^ Z.of_nat o) (remaining - 2 ^ Z.of_nat o)) as Hok.
  rewrite list.Forall_forall in Hok.
  assert (Hhead : (o < MAX_ORDER)%nat -> (o, buddy_of addr o) ∉
            run_pieces n (addr + 2 ^ Z.of_nat o) (remaining - 2 ^ Z.of_nat o)).
  { intros Ho Hb. destruct (Hok ltac:(lia) ltac:(lia) _ Hb) as (_ & _ & Hb1 & Hb2). simpl in *.
    destruct (buddy_of_spec addr o H2) as [[He Hs]|[He _]]; rewrite He in *; [|lia].
    destruct (H4 (S o)) as [Hn|Hn]; [lia|done|]. rewrite pow2_S in Hn. lia. }
  apply elem_of_cons in Hin as [->|Hin]; rewrite elem_of_cons; simpl in *.
  - intros [Hb|Hb]; [|exact (Hhead Hp Hb)].
    injection Hb as Hb. by apply buddy_of_ne in Hb.
  - intros [Hb|Hb]; [|revert Hb; apply IH; done || lia].
    injection Hb as Ho Hb. destruct p as [po pf]; simpl in *. subst po.
    apply Hhead; [done|].
    replace (buddy_of addr o) with pf by (rewrite <- Hb; by rewrite buddy_of_involutive).
    done.
Qed.

Lemma push_all_same ps : forall st,
  bitmap (push_all st ps) = bitmap st /\ bitmap_words (push_all st ps) = bitmap_words st.
Proof.
  induction ps as [|p ps IH]; intros st; [done|]. cbn [push_all foldl].
  destruct (IH (push_slot st p.1 (frame_to_page p.2))) as [H1 H2].
  unfold push_all in *. rewrite H1, H2. unfold push_slot. by case_if.
Qed.

Lemma push_all_mono ps : forall st o,
  shape st -> Forall (λ p, (p.1 <= MAX_ORDER)%nat) ps ->
  (free_counts st !!! o <= free_counts (push_all st ps) !!! o)%nat.
Proof.
  induction ps as [|p ps IH]; intros st o Hs Hps; [done|].
  apply Forall_cons in Hps as [Hp Hps]. cbn [push_all foldl].
  etransitivity; [|apply IH; [by apply push_slot_shape|done]].
  rewrite push_slot_count by done. case_decide as Hd; [destruct Hd as [-> _]|]; lia.
Qed.

(** If no slot array is full afterwards, every piece was stored. *)
Lemma push_all_stored ps : forall st,
  shape st -> Forall (λ p, (p.1 <= MAX_ORDER)%nat) ps ->
  (forall o, (o <= MAX_ORDER)%nat -> (free_counts (push_all st ps) !!! o < MAX_FREE_SLOTS)%nat) ->
  free_blocks (push_all st ps) ≡ₚ (page_block <$> ps) ++ free_blocks st.
Proof.
  induction ps as [|p ps IH]; intros st Hs Hps Hroom; [done|].
  apply Forall_cons in Hps as [Hp Hps]. cbn [push_all foldl] in *.
  pose proof (push_all_mono ps (push_slot st p.1 (frame_to_page p.2)) p.1
    ltac:(by apply push_slot_shape) Hps) as Hm.
  specialize (Hroom p.1 Hp) as Hr. rewrite push_slot_count in Hm by done.
  unfold push_all in *. etransitivity; [apply IH; [by apply push_slot_shape|done|done]|].
  rewrite push_slot_blocks; [|done|done|].
  - csimpl. by rewrite <- Permutation_middle.
  - case_decide; [lia|]. intuition lia.
Qed.

(** The state of the scan after the frames below [frame]: [lo] is the first
    frame that is not yet accounted for. *)
Record scan_inv (free : Z -> bool) (frame : Z) (st : BuddyAllocator) (run : option Z) : Prop := {
  si_shape : shape st;
  si_blocks : Forall block_ok (free_blocks st);
  si_lo : 0 <= default frame run <= frame;
  si_pending g : default frame run <= g < frame -> free g = true;
  si_gap : default frame run = 0 \/ free (default frame run - 1) = false;
  si_sub g : g ∈ free_set st -> 0 <= g < default frame run /\ free g = true;
  si_nodup : NoDup (free_set st);
  si_pages : free_pages st = Z.of_nat (length (filter (λ g, free g = true) (seqZ 0 (default frame run))));
  si_coalesced : coalesced st;
  si_stored : (forall o, (o <= MAX_ORDER)%nat -> (free_counts st !!! o < MAX_FREE_SLOTS)%nat) ->
    forall g, 0 <= g < default frame run -> free g = true -> g ∈ free_set st;
}.

Lemma filter_seqZ_extend (free : Z -> bool) a b c :
  0 <= a <= b -> b <= c ->
  (forall g, a <= g < b -> free g = true) -> (forall g, b <= g < c -> free g = false) ->
  Z.of_nat (length (filter (λ g, free g = true) (seqZ 0 c))) =
  Z.of_nat (length (filter (λ g, free g = true) (seqZ 0 a))) + (b - a).
Proof.
  intros Hab Hbc Ht Hf. replace c with (a + ((b - a) + (c - b))) by lia.
  rewrite seqZ_app, (seqZ_app (0 + a)), !filter_app, !length_app by lia.
  rewrite (filter_all _ (seqZ (0 + a) _)) by (intros g Hg%elem_of_seqZ; apply Ht; lia).
  rewrite (filter_none _ (seqZ (0 + a + (b - a)) _)).
  - rewrite length_seqZ. simpl. lia.
  - intros g Hg%elem_of_seqZ. rewrite Hf by lia. done.
Qed.

Section close_run.
Context (free : Z -> bool) (frame s : Z) (st : BuddyAllocator).
Context (Hinv : scan_inv free frame st (Some s)).
Context (Hlt : s < frame) (Hmax : frame <= 2 ^ 52) (Hfree : free frame = false).

Let n := frame - s.
Let ps := run_pieces (Z.to_nat n) s n.
Let st1 := set_free_pages st (wrap 64 (free_pages st + n)).
Let st' := push_all st1 ps.

Lemma close_run_start : 0 <= s.
Proof using Hinv. pose proof (si_lo _ _ _ _ Hinv) as H. simpl in H. lia. Qed.

Lemma close_run_ps :
  Forall (λ p, (p.1 <= MAX_ORDER)%nat /\ 0 <= p.2 /\ (2 ^ Z.of_nat p.1 | p.2) /\
    s <= p.2 /\ p.2 + 2 ^ Z.of_nat p.1 <= frame) ps.
Proof using Hinv Hlt.
  pose proof close_run_start. eapply Forall_impl; [apply run_pieces_ok; lia|].
  intros p (?&?&?&?). subst n. split_and!; [done|lia|done|lia|lia].
Qed.

Lemma close_run_ps_order : Forall (λ p, (p.1 <= MAX_ORDER)%nat) ps.
Proof using Hinv Hlt. eapply Forall_impl; [exact close_run_ps|]. by intros p (?&_). Qed.

Lemma close_run_ps_frames : (page_block <$> ps) ≫= block_frames = seqZ s n.
Proof using Hinv Hlt Hmax.
  rewrite page_block_frames.
  - apply run_pieces_tile. subst n. lia.
  - eapply Forall_impl; [exact close_run_ps|]. intros p (?&?&?&?&?).
    pose proof (pow2_pos p.1). lia.
Qed.

Lemma close_run_blocks :
  shape st' /\ free_pages st' = free_pages st1 /\
  free_blocks st' ⊆+ (page_block <$> ps) ++ free_blocks st.
Proof using Hinv Hlt.
  apply (push_all_spec ps st1); [|exact close_run_ps_order].
  apply (shape_ext st); [done..|]. exact (si_shape _ _ _ _ Hinv).
Qed.

Lemma close_run_set : free_set st' ⊆+ seqZ s n ++ free_set st.
Proof using Hinv Hlt Hmax.
  destruct close_run_blocks as (_ & _ & Hb). rewrite <- close_run_ps_frames.
  unfold free_set. rewrite <- bind_app.
  apply submseteq_Permutation in Hb as [k ->]. rewrite bind_app. by apply submseteq_inserts_r.
Qed.

Lemma close_run_block_ok : Forall block_ok ((page_block <$> ps) ++ free_blocks st).
Proof using Hinv Hlt Hmax.
  apply Forall_app. split; [|exact (si_blocks _ _ _ _ Hinv)].
  apply Forall_fmap. eapply Forall_impl; [exact close_run_ps|].
  intros p (?&?&?&?&?). apply block_ok_page; (done || lia).
Qed.

Lemma close_run_nodup : NoDup (seqZ s n ++ free_set st).
Proof using Hinv.
  apply list.NoDup_app. split_and!; [apply NoDup_seqZ| |exact (si_nodup _ _ _ _ Hinv)].
  intros g Hg%elem_of_seqZ Hin. apply (si_sub _ _ _ _ Hinv) in Hin as [H _]. simpl in H. lia.
Qed.

(** A piece of the new run has no buddy in the old pool: the frame before the
    run is not free. *)
Lemma close_run_old_buddy p :
  p ∈ ps -> (p.1 < MAX_ORDER)%nat -> (p.1, frame_to_page (buddy_of p.2 p.1)) ∉ free_blocks st.
Proof using Hinv Hlt Hmax Hfree.
  intros Hp Ho Hb. pose proof close_run_ps as Hps. rewrite list.Forall_forall in Hps.
  destruct (Hps _ Hp) as (_ & H0 & Hd & Hl & Hr). pose proof (pow2_pos p.1) as Hpow.
  destruct (buddy_range p.2 p.1) as [Hb0 Hbl]; [done..|lia|].
  assert (Hin : forall g, buddy_of p.2 p.1 <= g < buddy_of p.2 p.1 + 2 ^ Z.of_nat p.1 ->
    g < s /\ free g = true).
  { intros g Hg. assert (Hg' : g ∈ free_set st).
    { unfold free_set. apply list_elem_of_bind. eexists. split; [|exact Hb].
      rewrite block_frames_page by lia. apply elem_of_seqZ. lia. }
    apply (si_sub _ _ _ _ Hinv) in Hg' as [Hg1 Hg2]. simpl in Hg1. split; [lia|done]. }
  destruct (buddy_of_spec p.2 p.1 Hd) as [[He _]|[He _]]; rewrite He in *.
  - destruct (Hin (p.2 + 2 ^ Z.of_nat p.1)); lia.
  - destruct (si_gap _ _ _ _ Hinv) as [Hz|Hz]; simpl in Hz.
    + destruct (Hin (p.2 - 2 ^ Z.of_nat p.1)); lia.
    + destruct (decide (p.2 = s)) as [Hs|Hs].
      * destruct (Hin (s - 1)); [lia|]. congruence.
      * destruct (Hin (p.2 - 1)); lia.
Qed.

Lemma close_run_piece o g :
  0 <= g < 2 ^ 52 -> (o, frame_to_page g) ∈ page_block <$> ps -> (o, g) ∈ ps.
Proof using Hinv Hlt Hmax.
  intros Hg (p & Hp & Hin)%list_elem_of_fmap. pose proof close_run_ps as Hps.
  rewrite list.Forall_forall in Hps. destruct (Hps _ Hin) as (_ & H0 & _ & Hl & Hr).
  pose proof (pow2_pos p.1). destruct p as [po pf]. simpl in *. injection Hp as -> Hp.
  apply frame_to_page_inj in Hp; [by subst|lia|lia].
Qed.

Lemma close_run_coalesced : coalesced st'.
Proof using Hinv Hlt Hmax Hfree.
  intros o g Ho Hg Hin Hin'. destruct close_run_blocks as (_ & _ & Hb).
  apply (submseteq_elem_of _ _ _ Hb) in Hin, Hin'.
  pose proof close_run_block_ok as Hok. rewrite list.Forall_forall in Hok.
  apply Hok in Hin as Hgo. apply block_ok_page_inv in Hgo as [Hgd Hgl]; [|done].
  destruct (buddy_range g o) as [Hb0 Hbl]; [done|done|lia|done|]. pose proof (pow2_pos o).
  apply elem_of_app in Hin as [Hin|Hin]; apply elem_of_app in Hin' as [Hin'|Hin'].
  - apply close_run_piece in Hin, Hin'; [|lia|done].
    apply (run_pieces_no_buddy _ s n (o, g)) in Hin; [done| |subst n; lia|done].
    exact close_run_start.
  - apply close_run_piece in Hin; [|done]. by apply (close_run_old_buddy (o, g)) in Hin.
  - apply close_run_piece in Hin'; [|lia].
    apply (close_run_old_buddy (o, buddy_of g o)) in Hin'; [|done]. simpl in Hin'.
    by rewrite buddy_of_involutive in Hin'.
  - by apply (si_coalesced _ _ _ _ Hinv o g).
Qed.

Lemma close_run_inv : scan_inv free (frame + 1) st' None.
Proof using Hinv Hlt Hmax Hfree.
  destruct close_run_blocks as (Hs & Hpg & Hb). pose proof close_run_start as Hs0.
  pose proof close_run_set as Hset. pose proof close_run_nodup as Hnd.
  pose proof (si_pages _ _ _ _ Hinv) as Hpages. simpl in Hpages.
  assert (Hlen : Z.of_nat (length (filter (λ g, free g = true) (seqZ 0 s))) <= s).
  { pose proof (length_filter (λ g, free g = true) (seqZ 0 s)). rewrite length_seqZ in *. lia. }
  constructor; simpl.
  - done.
  - pose proof close_run_block_ok as Hok. rewrite list.Forall_forall in *.
    intros b Hin. apply Hok. by eapply submseteq_elem_of.
  - lia.
  - lia.
  - right. by replace (frame + 1 - 1) with frame by lia.
  - intros g Hg. apply (submseteq_elem_of _ _ _ Hset) in Hg.
    apply elem_of_app in Hg as [Hg%elem_of_seqZ|Hg].
    + split; [subst n; lia|]. apply (si_pending _ _ _ _ Hinv). simpl. subst n. lia.
    + apply (si_sub _ _ _ _ Hinv) in Hg as [Hg1 Hg2]. simpl in Hg1. split; [lia|done].
  - by eapply NoDup_of_submseteq.
  - rewrite Hpg. simpl. rewrite wrap_small by (subst n; lia).
    rewrite (filter_seqZ_extend free s frame (frame + 1)); [subst n; lia|lia|lia| |].
    + intros g Hg. by apply (si_pending _ _ _ _ Hinv).
    + intros g Hg. by replace g with frame by lia.
  - exact close_run_coalesced.
  - intros Hroom g Hg Hfg.
    assert (Hst : free_blocks st' ≡ₚ (page_block <$> ps) ++ free_blocks st).
    { apply (push_all_stored ps st1); [|exact close_run_ps_order|exact Hroom].
      apply (shape_ext st); [done..|]. exact (si_shape _ _ _ _ Hinv). }
    unfold free_set. rewrite Hst, bind_app, close_run_ps_frames. apply elem_of_app.
    destruct (decide (g < s)) as [Hgs|Hgs].
    + right. apply (si_stored _ _ _ _ Hinv); simpl; [|lia|done].
      intros o Ho. specialize (Hroom o Ho).
      pose proof (push_all_mono ps st1 o ltac:(by apply (shape_ext st);
        [..|exact (si_shape _ _ _ _ Hinv)]) close_run_ps_order) as Hm. simpl in Hm.
      unfold st' in Hroom. lia.
    + left. apply elem_of_seqZ. subst n. destruct (decide (g = frame)); [congruence|lia].
Qed.

End close_run.

Lemma scan_run_inv free limit frame st run :
  scan_inv free frame st run -> 0 <= frame <= limit -> limit <= 2 ^ 52 ->
  (if frame <? limit then negb (bitmap_test st frame) else false) = free frame ->
  (forall s, run = Some s -> s < frame) ->
  let acc := scan_run limit (st, run) frame in
  scan_inv free (frame + 1) acc.1 acc.2 /\
  (bitmap acc.1 = bitmap st /\ bitmap_words acc.1 = bitmap_words st) /\
  (forall s, acc.2 = Some s -> s < frame + 1).
Proof.
  intros Hinv Hfr Hlim Hb Hrun. unfold scan_run. rewrite Hb. clear Hb.
  destruct (free frame) eqn:Hf, run as [s|]; simpl.
  - split; [|split; [done|intros ? [= <-]; specialize (Hrun _ eq_refl); lia]].
    destruct Hinv; simpl in *; constructor; simpl; try done; [lia|].
    intros g Hg. destruct (decide (g = frame)) as [->|]; [done|]. apply si_pending0. lia.
  - split; [|split; [done|intros ? [= <-]; lia]].
    destruct Hinv; simpl in *; constructor; simpl; try done; [lia|].
    intros g Hg. by replace g with frame by lia.
  - rewrite Z.gtb_ltb. specialize (Hrun _ eq_refl). case_if; [|lia].
    split; [|split; [|done]].
    + unfold free_add_run. rewrite free_add_run_pieces.
      apply (close_run_inv free frame s st); (done || lia).
    + unfold free_add_run. rewrite free_add_run_pieces.
      exact (push_all_same _ (set_free_pages st (wrap 64 (free_pages st + (frame - s))))).
  - split; [|done]. destruct Hinv; simpl in *; constructor; simpl; try done; [lia|lia| | | |].
    + right. by replace (frame + 1 - 1) with frame by lia.
    + intros g Hg. apply si_sub0 in Hg as [??]. split; [lia|done].
    + rewrite si_pages0, (filter_seqZ_extend free frame frame (frame + 1)); [lia|lia|lia|lia|].
      intros g Hg. by replace g with frame by lia.
    + intros Hroom g Hg Hfg. apply si_stored0; [done| |done].
      destruct (decide (g = frame)); [congruence|lia].
Qed.

Lemma scan_loop_inv free limit : forall m k st run,
  scan_inv free k st run -> 0 <= k -> k + Z.of_nat m = limit + 1 -> limit <= 2 ^ 52 ->
  (forall g, 0 <= g <= limit ->
     (if g <? limit then negb (bitmap_test st g) else false) = free g) ->
  (forall s, run = Some s -> s < k) ->
  let acc := foldl (scan_run limit) (st, run) (seqZ k (Z.of_nat m)) in
  scan_inv free (limit + 1) acc.1 acc.2 /\ bitmap_words acc.1 = bitmap_words st.
Proof.
  induction m as [|m IH]; intros k st run Hinv Hk Hm Hlim Hb Hrun.
  { simpl. by replace (limit + 1) with k by lia. }
  rewrite seqZ_cons by lia. cbn [foldl].
  destruct (scan_run_inv free limit k st run) as (H1 & [H2 H2'] & H3); [done|lia|done| |done|].
  { apply Hb. lia. }
  destruct (scan_run limit (st, run) k) as [st1 run1]. simpl in *.
  replace (Z.pred (Z.of_nat (S m))) with (Z.of_nat m) by lia.
  destruct (IH (Z.succ k) st1 run1) as [H4 H5]; try (done || lia).
  - intros g Hg. rewrite <- Hb by done. unfold bitmap_test, bitmap_bits. by rewrite H2, H2'.
  - split; [done|congruence].
Qed.

Lemma empty_pool st :
  (forall o, (o <= MAX_ORDER)%nat -> free_counts st !!! o = 0%nat) -> free_blocks st = [].
Proof.
  intros Hz. apply elem_of_nil_inv. intros [o a]. rewrite free_blocks_elem. intros [Ho Ha].
  unfold slots in Ha. rewrite Hz in Ha by done. by apply elem_of_nil in Ha.
Qed.

Lemma empty_scan_inv free st :
  shape st -> (forall o, (o <= MAX_ORDER)%nat -> free_counts st !!! o = 0%nat) ->
  free_pages st = 0 -> scan_inv free 0 st None.
Proof.
  intros Hs Hz Hp. pose proof (empty_pool st Hz) as Hempty.
  assert (Hset : free_set st = []) by (unfold free_set; by rewrite Hempty).
  constructor; simpl; rewrite ?Hset, ?Hempty; try done; try lia.
  - by intros g Hg%elem_of_nil.
  - constructor.
  - intros o f _ _ Hin. rewrite Hempty in Hin. by apply elem_of_nil in Hin.
Qed.

Lemma buddy_new_shape : shape buddy_new.
Proof.
  constructor; try (by rewrite ?length_replicate); intros o Ho;
    unfold buddy_new; cbn [free_slots free_counts];
    rewrite lookup_total_replicate_2 by (unfold MAX_ORDER in *; lia);
    rewrite ?length_replicate; lia.
Qed.

Lemma fresh_bitmap_test words g :
  0 <= g < Z.of_nat words * 64 -> bitmap_test (init_bitmap buddy_new words) g = true.
Proof.
  intros Hg. rewrite bitmap_test_testbit by done. cbn [bitmap init_bitmap].
  assert (g / 64 < Z.of_nat words) by (apply Z.div_lt_upper_bound; lia).
  pose proof (Z.div_pos g 64). pose proof (Z.mod_pos_bound g 64).
  rewrite lookup_total_replicate_2 by lia.
  change (2 ^ 64 - 1) with (Z.ones 64). apply Z.ones_spec_low. lia.
Qed.

(** At the end of the scan no run is pending: frame [limit] is not free. *)
Lemma init_done free limit acc :
  0 <= limit -> (forall g, limit <= g -> free g = false) -> limit <= 2 ^ 52 ->
  scan_inv free (limit + 1) acc.1 acc.2 ->
  let st := acc.1 in
  wf st /\ coalesced st /\
  (forall g, g ∈ free_set st -> 0 <= g /\ free g = true) /\
  free_pages st = Z.of_nat (length (filter (λ g, free g = true) (seqZ 0 limit))) /\
  ((forall o, (o <= MAX_ORDER)%nat -> (free_counts st !!! o < MAX_FREE_SLOTS)%nat) ->
   forall g, 0 <= g -> free g = true -> g ∈ free_set st).
Proof.
  destruct acc as [st run]. intros H0 Hend Hlim [Hs Hb Hlo Hpend _ Hsub Hnd Hpg Hco Hst].
  simpl in *.
  set (lo := default (limit + 1) run) in *.
  assert (Hlo' : lo = limit + 1).
  { destruct (decide (lo <= limit)); [|lia]. specialize (Hpend limit).
    rewrite Hend in Hpend by lia. by assert (false = true) by (apply Hpend; lia). }
  rewrite Hlo' in *. clear Hlo Hpend.
  rewrite (filter_seqZ_extend free limit limit (limit + 1)) in Hpg;
    [|lia|lia|lia|intros g Hg; apply Hend; lia].
  rewrite Z.sub_diag, Z.add_0_r in Hpg.
  assert (Hle : Z.of_nat (length (free_set st)) <= free_pages st).
  { rewrite Hpg. apply Nat2Z.inj_le. apply submseteq_length, NoDup_submseteq; [done|].
    intros g Hg. apply Hsub in Hg as [Hg Hf]. apply list_elem_of_filter. split; [done|].
    apply elem_of_seqZ. destruct (decide (limit <= g)); [|lia]. by rewrite Hend in Hf. }
  split_and!; [constructor; try done; split; [done|]|done| |done|].
  - rewrite Hpg. pose proof (length_filter (λ g, free g = true) (seqZ 0 limit)).
    rewrite length_seqZ in *. lia.
  - intros g Hg. apply Hsub in Hg as [? ?]. split; [lia|done].
  - intros Hroom g Hg Hf. apply Hst; [done| |done].
    destruct (decide (limit <= g)); [|lia]. by rewrite Hend in Hf.
Qed.

(** Initialisation from the memory map: the pool holds only frames that lie
    below the limit and in a usable region, each at most once and in aligned,
    fully coalesced blocks; [free_pages] counts the usable frames; and if no
    slot array filled up, the pool holds all of them. *)
Lemma init_from_regions_sound words regions phys_max :
  Forall (λ r, 0 <= r.1) regions -> 0 <= phys_max -> Z.of_nat words * 64 <= 2 ^ 52 ->
  let limit := Z.min (div_ceil (Z.max phys_max 1) PAGE_SIZE) (Z.of_nat words * 64) in
  let free := usable limit regions in
  let st := init_from_regions (init_bitmap buddy_new words) regions phys_max in
  wf st /\ coalesced st /\
  (forall g, g ∈ free_set st -> 0 <= g /\ free g = true) /\
  free_pages st = Z.of_nat (length (filter (λ g, free g = true) (seqZ 0 limit))) /\
  ((forall o, (o <= MAX_ORDER)%nat -> (free_counts st !!! o < MAX_FREE_SLOTS)%nat) ->
   forall g, 0 <= g -> free g = true -> g ∈ free_set st).
Proof.
  intros Hreg Hphys Hwords limit free st.
  set (st0 := init_bitmap buddy_new words) in *.
  assert (Hwf0 : bitmap_wf st0) by (unfold bitmap_wf; simpl; apply length_replicate).
  assert (Hlim0 : 0 <= limit).
  { unfold limit, div_ceil, PAGE_SIZE. case_if; apply Z.min_glb; try lia;
      pose proof (Z.div_pos (Z.max phys_max 1) 4096); lia. }
  unfold st, init_from_regions. change (bitmap_bits st0) with (Z.of_nat words * 64). fold limit.
  destruct (clear_regions_spec limit regions st0 0 Hwf0) as [Hsp Htest]; [|done|].
  { change (bitmap_bits st0) with (Z.of_nat words * 64). lia. }
  destruct (foldl (clear_region limit) (st0, 0) regions) as [st1 covered]. simpl in Hsp, Htest.
  set (st2 := set_total_pages st1 covered).
  assert (Hshape : shape st2).
  { apply (shape_ext buddy_new); [by apply (sp_counts _ _ Hsp)|by apply (sp_slots _ _ Hsp)|].
    exact buddy_new_shape. }
  assert (Hz : forall o, (o <= MAX_ORDER)%nat -> free_counts st2 !!! o = 0%nat).
  { intros o Ho. change (free_counts st2) with (free_counts st1). rewrite (sp_counts _ _ Hsp).
    apply (lookup_total_replicate_2 11). unfold MAX_ORDER in Ho. lia. }
  destruct (scan_loop_inv free limit (Z.to_nat (limit + 1)) 0 st2 None) as [Hinv Hw].
  - apply empty_scan_inv; [done|done|]. exact (sp_pages _ _ Hsp).
  - lia.
  - lia.
  - lia.
  - intros g Hg. unfold free, usable. destruct (g <? limit) eqn:Hgl; [|done]. reflect_bool.
    change (bitmap_test st2 g) with (bitmap_test st1 g). rewrite Htest by lia.
    unfold st0. rewrite fresh_bitmap_test, andb_true_l by lia.
    by rewrite negb_involutive.
  - done.
  - rewrite Z2Nat.id in Hinv by lia. apply (init_done free limit);
    [done| |lia|done]. intros g Hg. unfold free, usable. destruct (g <? limit) eqn:E; [|done].
    reflect_bool. lia.
Qed.

(** ** Sequences of requests

    A client holds the blocks it was given and gives back only blocks it
    holds.  [owned] lists the blocks held. *)
Inductive buddy_step : BuddyAllocator * list (nat * Z) -> BuddyAllocator * list (nat * Z) -> Prop :=
| step_alloc st owned order a st' :
    alloc_frames st order = (Some a, st') ->
    buddy_step (st, owned) (st', (Nat.min order MAX_ORDER, a) :: owned)
| step_alloc_fail st owned order st' :
    alloc_frames st order = (None, st') -> buddy_step (st, owned) (st', owned)
| step_free st owned owned' o a :
    owned ≡ₚ (o, a) :: owned' ->
    buddy_step (st, owned) (free_frames st a o, owned').

Definition owned_frames (owned : list (nat * Z)) : list Z := owned ≫= block_frames.

Record client_inv (pool : list Z) (s : BuddyAllocator * list (nat * Z)) : Prop := {
  ci_wf : wf s.1;
  ci_coalesced : coalesced s.1;
  ci_owned : Forall block_ok s.2;
  ci_sub : owned_frames s.2 ++ free_set s.1 ⊆+ pool;
  ci_pages : free_pages s.1 + Z.of_nat (length (owned_frames s.2)) < 2 ^ 64;
}.

Lemma block_frames_length b : Z.of_nat (length (block_frames b)) = 2 ^ Z.of_nat b.1.
Proof. unfold block_frames. rewrite length_seqZ. pose proof (pow2_pos b.1). lia. Qed.

Lemma buddy_step_inv pool s s' :
  NoDup pool -> client_inv pool s -> buddy_step s s' -> client_inv pool s'.
Proof.
  intros Hnd [Hwf Hco Hown Hsub Hpg] Hstep.
  destruct Hstep as [st owned order a st' Hal|st owned order st' Hal|st owned owned' o a Hperm];
    simpl in *.
  - apply alloc_frames_sound in Hal as (Hwf' & Hok & Hpool & Hpg' & Hco'); [|done].
    pose proof (block_frames_length (Nat.min order MAX_ORDER, a)) as Hl. simpl in Hl.
    constructor; simpl; [done|by apply Hco'|by constructor| |].
    + etransitivity; [|exact Hsub]. rewrite <- Hpool. unfold owned_frames. csimpl.
      rewrite <- app_assoc. apply Permutation_submseteq. solve_Permutation.
    + unfold owned_frames. csimpl. rewrite length_app. unfold owned_frames in Hpg. lia.
  - pose proof (alloc_frames_complete st order Hwf) as [_ Heq]. rewrite Hal in Heq.
    simpl in Heq. rewrite Heq by done. by constructor.
  - rewrite Hperm in Hown. apply Forall_cons in Hown as [Hok Hown].
    pose proof (block_frames_length (o, a)) as Hl. simpl in Hl.
    assert (Hof : owned_frames owned ≡ₚ block_frames (o, a) ++ owned_frames owned').
    { unfold owned_frames. by rewrite Hperm. }
    rewrite Hof, <- app_assoc in Hsub. rewrite Hof, length_app in Hpg.
    pose proof (NoDup_of_submseteq _ _ Hsub Hnd) as Hall.
    assert (Hdis : NoDup (block_frames (o, a) ++ free_set st)).
    { eapply NoDup_of_submseteq; [|exact Hall]. by apply submseteq_skips_l, submseteq_inserts_l. }
    destruct (free_frames_safe st a o Hwf (proj1 Hok) Hok Hdis ltac:(lia))
      as (Hwf' & Hs' & Hp' & Hco').
    constructor; simpl; [done|by apply Hco'|done| |lia].
    etransitivity; [|exact Hsub]. rewrite (Permutation_app_comm (block_frames _)), <- app_assoc.
    apply submseteq_skips_l. rewrite Permutation_app_comm. done.
Qed.

(** Whatever requests a client makes from a well formed, coalesced
    allocator, the blocks it holds and the free pool never overlap (each frame
    has at most one owner), all of them are frames of the initial pool, and the
    allocator stays well formed and coalesced. *)
Lemma buddy_no_overlap st0 st owned :
  wf st0 -> coalesced st0 -> rtc buddy_step (st0, []) (st, owned) ->
  wf st /\ coalesced st /\
  NoDup (owned_frames owned ++ free_set st) /\
  (forall g, g ∈ owned_frames owned -> g ∈ free_set st0).
Proof.
  intros Hwf Hco Hr.
  assert (Hinit : client_inv (free_set st0) (st0, [])).
  { constructor; simpl; [done..|]. pose proof (wf_pages _ Hwf). lia. }
  assert (Hinv : client_inv (free_set st0) (st, owned)).
  { remember (st0, []) as s eqn:Hs. clear Hs. remember (st, owned) as s' eqn:Hs'. clear Hs'.
    induction Hr; [done|]. apply IHHr. eapply buddy_step_inv; [|done|done]. apply Hwf. }
  destruct Hinv as [? ? _ Hsub _]; simpl in *. split_and!; [done|done| |].
  - eapply NoDup_of_submseteq; [exact Hsub|]. apply Hwf.
  - intros g Hg. eapply submseteq_elem_of; [exact Hsub|]. apply elem_of_app. by left.
Qed.

(** ** Limits of the implementation *)

(** A slot array holds 512 blocks and [push_slot] ignores one more: if the
    array of the order at which a released block comes to rest is full, the
    frames of the block leave the pool for good, although [free_pages] counts
    them as free. *)
Theorem free_frames_full_leaks st addr order :
  wf st -> (order < MAX_ORDER)%nat -> block_ok (order, addr) ->
  free_counts st !!! order = MAX_FREE_SLOTS ->
  (order, frame_to_page (buddy_of (page_to_frame addr) order)) ∉ free_blocks st ->
  free_pages st + 2 ^ Z.of_nat order < 2 ^ 64 ->
  let st' := free_frames st addr order in
  free_set st' = free_set st /\ free_pages st' = free_pages st + 2 ^ Z.of_nat order.
Proof.
  intros Hwf Ho Hok Hfull Hnb Hov st'. unfold st', free_frames. rewrite Nat.min_l by lia.
  set (f := page_to_frame addr) in *. destruct (bitmap_set_pool st f) as (Hpool & Hcnt & _ & Hpg).
  pose proof (wf_shape _ Hwf) as Hs. pose proof (wf_pages _ Hwf). pose proof (pow2_pos order).
  assert (Hm : merge_loop MAX_ORDER (bitmap_set st f) f order = (bitmap_set st f, f, order)).
  { unfold MAX_ORDER at 1. cbn [merge_loop]. case_if; [|lia].
    destruct (scan_for_buddy _ _ _) as [i|] eqn:Hscan; [|done]. exfalso.
    apply scan_for_buddy_Some in Hscan; [|by apply bitmap_set_shape|lia].
    apply Hnb. rewrite <- Hpool. apply free_blocks_elem. split; [lia|].
    apply list_elem_of_lookup. by exists i. }
  rewrite Hm. cbv zeta. rewrite push_slot_full by (rewrite Hcnt; lia).
  split; [unfold free_set; by rewrite <- Hpool|]. simpl.
  rewrite shiftl_1, Hpg. apply wrap_small. lia.
Qed.

Lemma mark_used_region_pool st start size :
  free_counts (mark_used_region st start size) = free_counts st /\
  free_slots (mark_used_region st start size) = free_slots st.
Proof.
  unfold mark_used_region. generalize (seqZ (start / PAGE_SIZE)
    (div_ceil (wrap 64 (start + size)) PAGE_SIZE `min` (total_pages st `min` bitmap_bits st)
      - start / PAGE_SIZE)).
  intros l. revert st. induction l as [|f l IH]; intros st; [done|]. cbn [foldl].
  destruct (negb (bitmap_test st f)); [|by apply IH].
  destruct (bitmap_set_pool st f) as (_ & H1 & H2 & _).
  cbv zeta. rewrite (proj1 (IH _)), (proj2 (IH _)). done.
Qed.

(** ** Main theorems *)

(** C6. From boot on, physical frames have at most one owner: after
    [init_from_regions] on a memory map, and any sequence of [alloc_frames] and
    [free_frames] in which a client releases only blocks it holds, the blocks
    held and the free pool are pairwise disjoint, every frame handed out is a
    usable frame of the memory map, every free block is aligned to its size, and
    no two buddies are free at once. *)
Theorem buddy_boot_safe words regions phys_max st owned :
  Forall (λ r, 0 <= r.1) regions -> 0 <= phys_max -> Z.of_nat words * 64 <= 2 ^ 52 ->
  rtc buddy_step
    (init_from_regions (init_bitmap buddy_new words) regions phys_max, []) (st, owned) ->
  wf st /\ coalesced st /\
  NoDup (owned_frames owned ++ free_set st) /\
  forall g, g ∈ owned_frames owned -> exists r, r ∈ regions /\ region_covers r g = true.
Proof.
  intros Hr Hp Hw Hstep.
  destruct (init_from_regions_sound words regions phys_max Hr Hp Hw) as (Hwf & Hco & Hsub & _).
  destruct (buddy_no_overlap _ _ _ Hwf Hco Hstep) as (H1 & H2 & H3 & H4).
  split_and!; [done..|]. intros g Hg. apply H4, Hsub in Hg as [_ Hg].
  unfold usable in Hg. reflect_bool. apply existsb_exists in H0 as (r & Hin & Hc).
  exists r. split; [by apply list_elem_of_In|done].
Qed.

(** C7. [alloc_frames] never fails while a block of the requested order or above
    is free; when it succeeds it takes exactly one aligned block of that order
    out of the pool (block and remaining pool partition the old pool, and
    [free_pages] drops by the block size), and when it fails the allocator is
    unchanged. *)
Theorem alloc_frames_correct st order :
  wf st ->
  match alloc_frames st order with
  | (Some a, st') => alloc_post st st' (Nat.min order MAX_ORDER) a
  | (None, st') =>
      st' = st /\ forall o b, (Nat.min order MAX_ORDER <= o)%nat -> (o, b) ∉ free_blocks st
  end.
Proof.
  intros Hwf. destruct (alloc_frames_complete st order Hwf) as [Hiff Hsame].
  destruct (alloc_frames st order) as [[a|] st'] eqn:Hal.
  - by apply alloc_frames_sound.
  - simpl in *. split; [by apply Hsame|by apply Hiff].
Qed.

(** C8. Releasing a block that overlaps nothing free adds frames of that block
    only, counts its pages, merges buddies as far as possible, and loses nothing
    as long as no slot array is full. *)
Theorem free_frames_correct st addr order :
  wf st -> block_ok (order, addr) ->
  NoDup (block_frames (order, addr) ++ free_set st) ->
  free_pages st + 2 ^ Z.of_nat order < 2 ^ 64 ->
  let st' := free_frames st addr order in
  wf st' /\ (coalesced st -> coalesced st') /\
  free_pages st' = free_pages st + 2 ^ Z.of_nat order /\
  free_set st' ⊆+ block_frames (order, addr) ++ free_set st /\
  ((forall o, (o <= MAX_ORDER)%nat -> (free_counts st !!! o < MAX_FREE_SLOTS)%nat) ->
   free_set st' ≡ₚ block_frames (order, addr) ++ free_set st).
Proof.
  intros Hwf Hok Hnd Hov st'. pose proof (proj1 Hok) as Ho.
  destruct (free_frames_safe st addr order Hwf Ho Hok Hnd Hov) as (H1 & H2 & H3 & H4).
  split_and!; [done..|]. by apply free_frames_exact.
Qed.

(** Allocating and then releasing a block gives back the same pool of frames
    and the same page count, as long as the slot arrays are not full. *)
Theorem alloc_free_roundtrip st order a st' :
  wf st -> alloc_frames st order = (Some a, st') ->
  (forall o, (o <= MAX_ORDER)%nat -> (free_counts st' !!! o < MAX_FREE_SLOTS)%nat) ->
  let st'' := free_frames st' a (Nat.min order MAX_ORDER) in
  free_set st'' ≡ₚ free_set st /\ free_pages st'' = free_pages st.
Proof.
  intros Hwf Hal Hroom st''. pose proof (wf_nodup _ Hwf) as Hnd. pose proof (wf_pages _ Hwf).
  apply alloc_frames_sound in Hal as (Hwf' & Hok & Hpool & Hpg & _); [|done].
  unfold st''. clear st''. set (k := Nat.min order MAX_ORDER) in *. clearbody k.
  rewrite <- Hpool in Hnd. pose proof (pow2_pos k).
  destruct (free_frames_safe st' a k Hwf' (proj1 Hok) Hok Hnd) as (_ & _ & H3 & _); [lia|].
  split; [|lia]. rewrite <- Hpool. apply (free_frames_exact st' a k);
    [done|exact (proj1 Hok)|done|done].
Qed.

(** After initialisation [free_pages] is the number of frames below the limit
    that a region covers, the pool contains no other frames, and it contains all
    of them unless a slot array filled up. *)
Theorem init_pool_exact words regions phys_max :
  Forall (λ r, 0 <= r.1) regions -> 0 <= phys_max -> Z.of_nat words * 64 <= 2 ^ 52 ->
  let limit := Z.min (div_ceil (Z.max phys_max 1) PAGE_SIZE) (Z.of_nat words * 64) in
  let st := init_from_regions (init_bitmap buddy_new words) regions phys_max in
  let good := filter (λ g, usable limit regions g = true) (seqZ 0 limit) in
  free_pages st = Z.of_nat (length good) /\
  free_set st ⊆+ good /\
  ((forall o, (o <= MAX_ORDER)%nat -> (free_counts st !!! o < MAX_FREE_SLOTS)%nat) ->
   free_set st ≡ₚ good).
Proof.
  intros Hr Hp Hw limit st good.
  destruct (init_from_regions_sound words regions phys_max Hr Hp Hw)
    as (Hwf & Hco & Hsub & Hpg & Hall).
  assert (Hgood : forall g, g ∈ good <-> 0 <= g /\ usable limit regions g = true).
  { intros g. unfold good. rewrite list_elem_of_filter, elem_of_seqZ. unfold usable.
    destruct (g <? limit) eqn:E; reflect_bool; simpl; intuition (try lia; done). }
  split_and!; [done| |].
  - apply NoDup_submseteq; [apply Hwf|]. intros g Hg. by apply Hgood, Hsub.
  - intros Hroom. apply NoDup_Permutation; [apply Hwf|apply NoDup_filter, NoDup_seqZ|].
    intros g. rewrite Hgood. split; [by intros Hg%Hsub|]. intros [? ?]. by apply Hall.
Qed.

(** [mark_used_region] only sets bits of the bitmap: it does not take frames
    out of the slot arrays, so every later allocation hands out the same frames
    as without the call, frames of the marked region included. *)
Theorem mark_used_region_not_reserved st start size order :
  wf st ->
  (alloc_frames (mark_used_region st start size) order).1 = (alloc_frames st order).1 /\
  free_set (mark_used_region st start size) = free_set st.
Proof.
  intros Hwf. destruct (mark_used_region_pool st start size) as [H1 H2].
  split.
  - unfold alloc_frames. generalize (Nat.min order MAX_ORDER) as k. intros k.
    generalize (seq k (S MAX_ORDER - k)) as os. induction os as [|o os IH]; [done|].
    cbn [alloc_scan]. rewrite H1. case_if; [|exact IH].
    unfold alloc_from, pop_slot. rewrite H1, H2. by case_if.
  - unfold free_set, free_blocks, slots. by rewrite H1, H2.
Qed.

(** ** Witnesses: a machine with 64 frames of which frames 3 to 42 are usable *)

Definition demo_map : list (Z * Z) := [(3 * 4096, 43 * 4096)].
Definition demo : BuddyAllocator :=
  init_from_regions (init_bitmap buddy_new 1) demo_map (64 * 4096).

Lemma demo_map_ok : Forall (λ r, 0 <= r.1) demo_map.
Proof. apply Forall_singleton. simpl. lia. Qed.

Lemma demo_wf : wf demo.
Proof. apply (init_from_regions_sound 1 demo_map (64 * 4096)); [exact demo_map_ok|lia|lia]. Qed.

(** All entries of a list of counts are below the capacity. *)
Lemma room_of_counts (cs : list nat) :
  length cs = S MAX_ORDER -> forallb (λ c, (c <? MAX_FREE_SLOTS)%nat) cs = true ->
  forall o, (o <= MAX_ORDER)%nat -> (cs !!! o < MAX_FREE_SLOTS)%nat.
Proof.
  intros Hl Hall o Ho. rewrite forallb_forall in Hall. apply Nat.ltb_lt, Hall.
  apply list_elem_of_In, list_elem_of_lookup. exists o.
  apply list_lookup_lookup_total_lt. lia.
Qed.

Lemma buddy_boot_safe_witness :
  NoDup (owned_frames [(2%nat, 16384)] ++ free_set (alloc_frames demo 2).2).
Proof.
  destruct (buddy_boot_safe 1 demo_map (64 * 4096) (alloc_frames demo 2).2 [(2%nat, 16384)])
    as (_ & _ & H & _); [exact demo_map_ok|lia|lia| |exact H].
  apply rtc_once. change [(2%nat, 16384)] with [(Nat.min 2 MAX_ORDER, 16384)].
  apply step_alloc. vm_compute. reflexivity.
Defined.

Lemma demo_alloc : alloc_frames demo 1 = (Some 163840, (alloc_frames demo 1).2).
Proof. vm_compute. reflexivity. Qed.

Lemma alloc_frames_correct_witness :
  alloc_post demo (alloc_frames demo 1).2 1 163840.
Proof.
  pose proof (alloc_frames_correct demo 1 demo_wf) as H.
  rewrite demo_alloc in H. exact H.
Defined.

Lemma free_frames_correct_witness :
  free_set (free_frames (alloc_frames demo 1).2 163840 1) ≡ₚ
    block_frames (1%nat, 163840) ++ free_set (alloc_frames demo 1).2.
Proof.
  destruct (alloc_frames_sound demo 1 163840 (alloc_frames demo 1).2 demo_wf demo_alloc)
    as (Hwf & Hok & Hpool & Hpg & _).
  pose proof (wf_nodup _ demo_wf) as Hnd. rewrite <- Hpool in Hnd.
  destruct (free_frames_correct (alloc_frames demo 1).2 163840 1 Hwf Hok Hnd)
    as (_ & _ & _ & _ & H); [vm_compute; reflexivity|].
  apply H, room_of_counts; vm_compute; reflexivity.
Defined.

Lemma alloc_free_roundtrip_witness :
  free_set (free_frames (alloc_frames demo 1).2 163840 1) ≡ₚ free_set demo.
Proof.
  destruct (alloc_free_roundtrip demo 1 163840 (alloc_frames demo 1).2 demo_wf demo_alloc)
    as [H _]; [|exact H].
  apply room_of_counts; vm_compute; reflexivity.
Defined.

Lemma init_pool_exact_witness :
  free_pages demo = 40 /\ free_set demo ≡ₚ seqZ 3 40.
Proof.
  unfold demo. destruct (init_pool_exact 1 demo_map (64 * 4096)) as (H1 & _ & H2);
    [exact demo_map_ok|lia|lia|]. split; [rewrite H1; vm_compute; reflexivity|].
  rewrite H2; [vm_compute; reflexivity|]. apply room_of_counts; vm_compute; reflexivity.
Defined.

Lemma mark_used_region_witness :
  (alloc_frames (mark_used_region demo 0 (64 * 4096)) 4).1 = Some 65536.
Proof.
  rewrite (proj1 (mark_used_region_not_reserved demo 0 (64 * 4096) 4 demo_wf)).
  vm_compute. reflexivity.
Defined.

(** An allocator whose array of single frames is full: frames 0, 2, .., 1022. *)
Definition full_demo : BuddyAllocator :=
  mkBuddy (replicate 11 0) (512%nat :: replicate 10 0%nat)
    (((λ i, 2 * i * PAGE_SIZE) <$> seqZ 0 512) :: replicate 10 (replicate MAX_FREE_SLOTS 0))
    [] 0 512 1024.

Lemma full_demo_wf : wf full_demo.
Proof.
  assert (Hb : free_blocks full_demo = (λ i, (0%nat, 2 * i * PAGE_SIZE)) <$> seqZ 0 512)
    by (vm_compute; reflexivity).
  constructor.
  - constructor; try (vm_compute; reflexivity); intros o Ho; unfold MAX_ORDER in Ho;
      do 11 (destruct o as [|o]; [vm_compute; lia|]); lia.
  - rewrite Hb. apply Forall_fmap, Forall_seqZ. intros i Hi. split; [simpl; lia|].
    exists (2 * i). simpl. split_and!; [done|lia|apply Z.divide_1_l|lia].
  - refine (proj1 (bool_decide_eq_true _) _). vm_compute. reflexivity.
  - vm_compute. split; [discriminate|reflexivity].
Qed.

Lemma free_frames_full_leaks_witness :
  free_set (free_frames full_demo (2000 * 4096) 0) = free_set full_demo /\
  free_pages (free_frames full_demo (2000 * 4096) 0) = free_pages full_demo + 1.
Proof.
  apply (free_frames_full_leaks full_demo (2000 * 4096) 0 full_demo_wf).
  - unfold MAX_ORDER. lia.
  - split; [simpl; lia|]. exists 2000. simpl. split_and!; [done|lia|apply Z.divide_1_l|lia].
  - vm_compute. reflexivity.
  - refine (proj1 (bool_decide_eq_true _) _). vm_compute. reflexivity.
  - vm_compute. reflexivity.
Defined.
