(* ===== verification/PhysMem.v ===== *)
(** * PhysMem.v: building the list of usable segments ([memory/mod.rs], [init])

    Before the buddy allocator starts, [init] walks the UEFI memory map,
    collects the usable regions, cuts the reserved regions (low megabyte, kernel
    image, framebuffer) out of them, places the allocator's bitmap in one of the
    remaining segments and hands the rest to [buddy::init_from_regions].  The
    segments live in an array of 64 entries that each cut rewrites in place:
    the write index [n] and the read index [k] run over the same array, which
    the model keeps.  Indexing past the array panics: [None]. *)

From S2P Require Import Prelude Buddy.
Open Scope Z_scope.

Definition MEM_BOOT_SERVICES_CODE : Z := 3.
Definition MEM_BOOT_SERVICES_DATA : Z := 4.
Definition MEM_CONVENTIONAL : Z := 7.
Definition MAX_SEGMENTS : nat := 64.

Record MemoryDescriptorV1 := mkDesc {
  ty : Z;
  phys_start : Z;
  page_count : Z;
}.

(** [u64::saturating_mul]. *)
Definition sat_mul64 (a b : Z) : Z := Z.min (2 ^ 64 - 1) (a * b).

Record map_acc := mkAcc {
  phys_max : Z;
  total_frames : Z;
  usable_frames : Z;
  free_regions : list (Z * Z);
}.

(** One descriptor of the loop [for i in 0..entry_count]. *)
Definition scan_descriptor (acc : map_acc) (desc : MemoryDescriptorV1) : map_acc :=
  let start := phys_start desc in
  let end_ := sat_add 64 start (sat_mul64 (page_count desc) PAGE_SIZE) in
  let phys_max' := Z.max (phys_max acc) end_ in
  let total_for_this := div_ceil (end_ - start) PAGE_SIZE in
  let total' := wrap 64 (total_frames acc + total_for_this) in
  if (ty desc =? MEM_CONVENTIONAL) || (ty desc =? MEM_BOOT_SERVICES_CODE)
     || (ty desc =? MEM_BOOT_SERVICES_DATA)
  then mkAcc phys_max' total' (wrap 64 (usable_frames acc + total_for_this))
         (if (length (free_regions acc) <? MAX_SEGMENTS)%nat
          then free_regions acc ++ [(start, end_)] else free_regions acc)
  else mkAcc phys_max' total' (usable_frames acc) (free_regions acc).

Definition scan_map (descs : list MemoryDescriptorV1) : map_acc :=
  foldl scan_descriptor (mkAcc 0 0 0 []) descs.

(** [clean_segments[n] = seg; n += 1]. *)
Definition put_segment (st : list (Z * Z) * nat) (seg : Z * Z) : option (list (Z * Z) * nat) :=
  let '(segs, n) := st in
  if (n <? length segs)%nat then Some (<[n := seg]> segs, S n) else None.

#[global] Arguments put_segment : simpl never.

(** The body of [for k in 0..clean_count] for the reserved region [(rs, re)]. *)
Definition carve_one (r : Z * Z) (st : list (Z * Z) * nat) (k : nat)
    : option (list (Z * Z) * nat) :=
  let '(rs, re) := r in
  let '(s, e) := st.1 !!! k in
  if (e <=? rs) || (s >=? re) then put_segment st (s, e)
  else
    st ← (if s <? rs then put_segment st (s, rs) else Some st);
    if e >? re then put_segment st (re, e) else Some st.

Fixpoint carve_loop (r : Z * Z) (st : list (Z * Z) * nat) (ks : list nat)
    : option (list (Z * Z) * nat) :=
  match ks with
  | [] => Some st
  | k :: ks => st ← carve_one r st k; carve_loop r st ks
  end.

(** One reserved region: [n] starts at 0 and becomes the new [clean_count]. *)
Definition carve_region (st : list (Z * Z) * nat) (r : Z * Z) : option (list (Z * Z) * nat) :=
  let '(segs, clean_count) := st in
  carve_loop r (segs, 0%nat) (seq 0 clean_count).

Fixpoint carve_all (st : list (Z * Z) * nat) (reserved : list (Z * Z))
    : option (list (Z * Z) * nat) :=
  match reserved with
  | [] => Some st
  | r :: rs => st ← carve_region st r; carve_all st rs
  end.

(** The array [clean_segments] as the copy loop leaves it. *)
Definition initial_segments (regions : list (Z * Z)) : list (Z * Z) * nat :=
  (regions ++ replicate (MAX_SEGMENTS - length regions) (0, 0), length regions).

Definition segments (st : list (Z * Z) * nat) : list (Z * Z) := take st.2 st.1.

(** The regions that are cut out, with the kernel image between the two symbols
    of the linker and the framebuffer of the boot information. *)
Record BootInfo := mkBoot { kernel_start : Z; kernel_end : Z; fb_base : Z; fb_size : Z }.
Definition low_megabyte : Z * Z := (0, 0x100000).
Definition kernel_image (bi : BootInfo) : Z * Z := (kernel_start bi, kernel_end bi).
Definition framebuffer (bi : BootInfo) : Z * Z := (fb_base bi, sat_add 64 (fb_base bi) (fb_size bi)).
Definition reserved_regions (bi : BootInfo) : list (Z * Z) := [low_megabyte; kernel_image bi; framebuffer bi].

(** [buddy_regions]: the non-empty segments. *)
Definition buddy_regions (segs : list (Z * Z)) : list (Z * Z) := filter (λ seg, seg.2 > seg.1) segs.

(** Taking the bitmap from the end of a segment of enough pages, the last such
    segment of the list ([iter_mut().rev()]), or from the start of the first one.
    No segment is reversed ([carve_all_ordered] below), so that [e - s] is the size. *)
Fixpoint take_from_end (segs : list (Z * Z)) (bitmap_pages : Z) : option (Z * list (Z * Z)) :=
  match segs with
  | [] => None
  | (s, e) :: rest =>
      match take_from_end rest bitmap_pages with
      | Some (phys, rest') => Some (phys, (s, e) :: rest')
      | None =>
          if bitmap_pages <=? (e - s) / PAGE_SIZE
          then Some (e - bitmap_pages * PAGE_SIZE, (s, e - bitmap_pages * PAGE_SIZE) :: rest)
          else None
      end
  end.
Fixpoint take_from_start (segs : list (Z * Z)) (bitmap_pages : Z) : option (Z * list (Z * Z)) :=
  match segs with
  | [] => None
  | (s, e) :: rest =>
      if bitmap_pages <=? (e - s) / PAGE_SIZE then Some (s, (s + bitmap_pages * PAGE_SIZE, e) :: rest)
      else '(phys, rest') ← take_from_start rest bitmap_pages; Some (phys, (s, e) :: rest')
  end.

Definition LEGACY_BITMAP_WORDS : Z := 16384.

(** The two loops over the segments; the second runs while [bitmap_phys] is zero. *)
Definition find_bitmap (segs : list (Z * Z)) (pages : Z) : Z * list (Z * Z) :=
  let '(phys, segs) := default (0, segs) (take_from_end segs pages) in
  if phys =? 0 then default (0, segs) (take_from_start segs pages) else (phys, segs).
(** The placement of the bitmap: its address, its words and pages, and the segments
    that are left.  [None] is the panic when there is no room for a bitmap. *)
Definition place_bitmap (phys_max : Z) (segs : list (Z * Z)) : option (Z * Z * Z * list (Z * Z)) :=
  let words := div_ceil (Z.shiftr phys_max 12) 64 in
  let pages := div_ceil (sat_mul64 words 8) 4096 in
  if pages >? 0 then
    let '(phys, segs) := find_bitmap segs pages in
    if phys =? 0 then
      let pages := div_ceil (LEGACY_BITMAP_WORDS * 8) 4096 in
      let '(phys, segs) := find_bitmap segs pages in
      if phys =? 0 then None else Some (phys, LEGACY_BITMAP_WORDS, pages, segs)
    else Some (phys, words, pages, segs)
  else Some (0, words, pages, segs).

(** [init] up to [init_from_regions], from the descriptors of the memory map. *)
Definition memory_init (bi : BootInfo) (descs : list MemoryDescriptorV1) : option (Z * Z * Z * list (Z * Z)) :=
  let acc := scan_map descs in
  st ← carve_all (initial_segments (free_regions acc)) (reserved_regions bi);
  '(phys, words, pages, segs) ← place_bitmap (phys_max acc) (segments st);
  Some (phys, words, pages, buddy_regions segs).

(** ** What cutting means *)

Definition in_seg (seg : Z * Z) (a : Z) : Prop := seg.1 <= a < seg.2.
Definition seg_disjoint (x y : Z * Z) : Prop := forall a, in_seg x a -> ~ in_seg y a.
Definition seg_sub (x y : Z * Z) : Prop := forall a, in_seg x a -> in_seg y a.

(** The entries written so far satisfy [P], those not yet read satisfy [Q] or [P]. *)
Lemma put_segment_take segs n seg segs' n' :
  put_segment (segs, n) seg = Some (segs', n') ->
  n' = S n /\ length segs' = length segs /\ segments (segs', n') = segments (segs, n) ++ [seg] /\
  (forall k, k ≠ n -> segs' !!! k = segs !!! k) /\ segs' !!! n = seg.
Proof.
  unfold put_segment. case_if; [|done]. intros [= <- <-].
  split_and!; [done|by rewrite length_insert| | |].
  - unfold segments. simpl. erewrite take_S_r by (apply list_lookup_insert_eq; lia).
    by rewrite take_insert_ge by lia.
  - intros k Hk. by rewrite list_lookup_total_insert_ne.
  - by rewrite list_lookup_total_insert_eq.
Qed.

Section carve.
Context (r : Z * Z).

(** Every entry of the array below [n] is clear of [r] and lies inside an entry
    of the list [orig]; every entry from [k] on does the latter. *)
Definition carve_inv (orig : list (Z * Z)) (k m : nat) (st : list (Z * Z) * nat) : Prop :=
  (m <= length st.1)%nat /\
  (forall i, (i < st.2)%nat ->
     seg_disjoint (st.1 !!! i) r /\ exists o, o ∈ orig /\ seg_sub (st.1 !!! i) o) /\
  (forall i, (k <= i < m)%nat -> exists o, o ∈ orig /\ seg_sub (st.1 !!! i) o).

Lemma put_segment_inv orig k m st seg st' :
  carve_inv orig k m st -> put_segment st seg = Some st' ->
  seg_disjoint seg r -> (exists o, o ∈ orig /\ seg_sub seg o) ->
  carve_inv orig k m st'.
Proof.
  destruct st as [segs n], st' as [segs' n']. intros (Hm & Hlo & Hhi) Hput Hd Ho.
  apply put_segment_take in Hput as (-> & Hlen & _ & Hne & Heq). simpl in *.
  unfold carve_inv. simpl. split_and!; [lia| |].
  - intros i Hi. destruct (decide (i = n)) as [->|Hin]; [by rewrite Heq|].
    rewrite Hne by done. apply Hlo. lia.
  - intros i Hi. destruct (decide (i = n)) as [->|Hin]; [by rewrite Heq|].
    rewrite Hne by done. by apply Hhi.
Qed.

Lemma carve_one_inv orig k m st st' :
  carve_inv orig k m st -> (k < m)%nat -> carve_one r st k = Some st' ->
  carve_inv orig (S k) m st'.
Proof.
  intros Hinv Hk Hc. pose proof Hinv as (Hm & Hlo & Hhi).
  destruct (Hhi k) as (o & Ho & Hso); [lia|].
  assert (Hinv' : carve_inv orig (S k) m st).
  { split_and!; [done|done|]. intros i Hi. apply Hhi. lia. }
  unfold carve_one in Hc. destruct r as [rs re] eqn:Hr. rewrite <- Hr in *.
  destruct (st.1 !!! k) as [s e] eqn:Hk'. case_if_in Hc.
  - eapply put_segment_inv; [done|exact Hc| |by exists o].
    rewrite Hr. intros a Ha Ha'. unfold in_seg in *. simpl in *.
    destruct Hif as [Hif|Hif]; reflect_bool; lia.
  - destruct (if s <? rs then put_segment st (s, rs) else Some st) as [st1|] eqn:H1; [|done].
    simpl in Hc.
    assert (Hst1 : carve_inv orig (S k) m st1).
    { case_if_in H1; [|by injection H1 as <-].
      eapply put_segment_inv; [done|exact H1| |exists o; split; [done|]].
      - rewrite Hr. intros a Ha Ha'. unfold in_seg in *. simpl in *. lia.
      - intros a Ha. apply Hso. unfold in_seg in *.
        simpl in *. lia. }
    case_if_in Hc; [|by injection Hc as <-].
    eapply put_segment_inv; [done|exact Hc| |exists o; split; [done|]].
    + rewrite Hr. intros a Ha Ha'. unfold in_seg in *. simpl in *. lia.
    + intros a Ha. apply Hso. unfold in_seg in *. simpl in *. lia.
Qed.

Lemma carve_loop_inv orig m : forall c k st st',
  carve_inv orig k m st -> (k + c = m)%nat ->
  carve_loop r st (seq k c) = Some st' -> carve_inv orig m m st'.
Proof.
  induction c as [|c IH]; intros k st st' Hinv Hm Hc.
  { injection Hc as <-. by replace m with k at 1 by lia. }
  cbn [seq carve_loop] in Hc. destruct (carve_one r st k) as [st1|] eqn:H1; [|done].
  eapply (IH (S k)); [|lia|exact Hc]. eapply carve_one_inv; [done|lia|done].
Qed.

End carve.

(** Every cut leaves segments that are clear of the region and lie inside the
    segments before. *)
Lemma carve_region_sound st r st' :
  (st.2 <= length st.1)%nat -> carve_region st r = Some st' ->
  forall seg, seg ∈ segments st' ->
    seg_disjoint seg r /\ exists o, o ∈ segments st /\ seg_sub seg o.
Proof.
  destruct st as [segs c], st' as [segs' n']. simpl. intros Hc Hr seg Hin.
  assert (Hinit : carve_inv r (segments (segs, c)) 0 c (segs, 0%nat)).
  { split_and!; simpl; [done|lia|]. intros i Hi. exists (segs !!! i). split; [|by intros a].
    unfold segments. simpl. apply list_elem_of_lookup. exists i.
    rewrite lookup_take_lt by lia. apply list_lookup_lookup_total_lt. lia. }
  eapply carve_loop_inv in Hinit as (Hm & Hlo & _); [|reflexivity|exact Hr].
  unfold segments in Hin. simpl in *. apply list_elem_of_lookup in Hin as [i Hi].
  apply lookup_take_Some in Hi as [Hi Hlt].
  apply list_lookup_total_correct in Hi as <-. by apply Hlo.
Qed.

Lemma put_segment_length st seg st' :
  put_segment st seg = Some st' -> length st'.1 = length st.1 /\ (st'.2 <= length st'.1)%nat.
Proof.
  destruct st as [segs n]. unfold put_segment. case_if; [|done]. intros [= <-]. simpl.
  rewrite length_insert. lia.
Qed.

Lemma carve_one_length r st k st' :
  (st.2 <= length st.1)%nat -> carve_one r st k = Some st' ->
  length st'.1 = length st.1 /\ (st'.2 <= length st'.1)%nat.
Proof.
  intros Hb H1. unfold carve_one in H1. destruct r as [rs re], (st.1 !!! k) as [s e].
  case_if_in H1; [by apply put_segment_length in H1|].
  destruct (if s <? rs then _ else _) as [st2|] eqn:Hx; [|done]. simpl in H1.
  assert (length st2.1 = length st.1 /\ (st2.2 <= length st2.1)%nat) as [Ha Hc].
  { case_if_in Hx; [by apply put_segment_length in Hx|]. by injection Hx as <-. }
  case_if_in H1; [|by injection H1 as <-]. apply put_segment_length in H1. lia.
Qed.

Lemma carve_region_length st r st' :
  carve_region st r = Some st' -> length st'.1 = length st.1 /\ (st'.2 <= length st'.1)%nat.
Proof.
  destruct st as [segs c]. unfold carve_region. simpl.
  change (length segs) with (length (segs, 0%nat).1).
  assert (Hb : ((segs, 0%nat).2 <= length (segs, 0%nat).1)%nat) by (simpl; lia).
  revert Hb. generalize (segs, 0%nat) as st. generalize (seq 0 c) as ks.
  induction ks as [|k ks IH]; intros st Hb Hl; [by injection Hl as <-|].
  simpl in Hl. destruct (carve_one r st k) as [st1|] eqn:H1; [|done]. simpl in Hl.
  destruct (carve_one_length _ _ _ _ Hb H1) as [H2 H3]. apply IH in Hl; [|done]. lia.
Qed.

Lemma carve_all_sound reserved : forall st st',
  (st.2 <= length st.1)%nat -> carve_all st reserved = Some st' ->
  forall seg, seg ∈ segments st' ->
    Forall (seg_disjoint seg) reserved /\ exists o, o ∈ segments st /\ seg_sub seg o.
Proof.
  induction reserved as [|r rs IH]; intros st st' Hl Hc seg Hin.
  { injection Hc as <-. split; [done|]. exists seg. split; [done|by intros a]. }
  simpl in Hc. destruct (carve_region st r) as [st1|] eqn:H1; [|done]. simpl in Hc.
  pose proof (carve_region_length _ _ _ H1) as [_ Hl1].
  destruct (IH _ _ Hl1 Hc seg Hin) as (Hd & o & Ho & Hso).
  destruct (carve_region_sound _ _ _ Hl H1 o Ho) as (Hdo & o' & Ho' & Hso').
  split; [constructor; [|done]|].
  - intros a Ha. apply Hdo. by apply Hso.
  - exists o'. split; [done|]. intros a Ha. by apply Hso', Hso.
Qed.

(** No cut reverses a segment, whatever the reserved regions are. *)
Definition ordered (seg : Z * Z) : Prop := seg.1 <= seg.2.

Lemma put_segment_ordered st seg st' : Forall ordered st.1 -> ordered seg -> put_segment st seg = Some st' -> Forall ordered st'.1.
Proof. destruct st as [segs n]. intros Hs Hseg. unfold put_segment. case_if; [|done]. intros [= <-]. by apply Forall_insert. Qed.

Lemma carve_one_ordered r st k st' : Forall ordered st.1 -> carve_one r st k = Some st' -> Forall ordered st'.1.
Proof.
  intros Hs Hc. assert (ordered (st.1 !!! k)) as Hk.
  { destruct (decide (k < length st.1)%nat) as [Hlt|]; [by apply Forall_lookup_total_1|]. rewrite list_lookup_total_alt, lookup_ge_None_2 by lia. by vm_compute. }
  unfold carve_one in Hc. destruct r as [rs re], (st.1 !!! k) as [s e]. case_if_in Hc; [by eapply put_segment_ordered|].
  destruct (if s <? rs then _ else _) as [st2|] eqn:Hx; [|done]. simpl in Hc.
  assert (Forall ordered st2.1) as H2. { case_if_in Hx; [|by injection Hx as <-]. eapply put_segment_ordered; [exact Hs| |exact Hx]. unfold ordered. cbn. lia. }
  case_if_in Hc; [|by injection Hc as <-]. eapply put_segment_ordered; [exact H2| |exact Hc]. unfold ordered. cbn. lia.
Qed.

Lemma carve_all_ordered reserved : forall st st', Forall ordered st.1 -> carve_all st reserved = Some st' -> Forall ordered (segments st').
Proof.
  induction reserved as [|r rs IH]; intros st st' Hs Hc; [injection Hc as <-; by apply Forall_take|].
  simpl in Hc. destruct (carve_region st r) as [st1|] eqn:H1; [|done]. apply (IH st1); [|done]. destruct st as [segs c]. unfold carve_region in H1.
  revert H1. cbn in Hs. change segs with (segs, 0%nat).1 in Hs. revert Hs. generalize (segs, 0%nat) as st. generalize (seq 0 c) as ks.
  induction ks as [|k ks IHk]; intros st Hst Hl; [by injection Hl as <-|]. simpl in Hl. destruct (carve_one r st k) as [st2|] eqn:H2; [|done].
  eapply IHk, Hl. by eapply carve_one_ordered.
Qed.

(** ** From the memory map to the regions *)

Definition usable_type (desc : MemoryDescriptorV1) : bool :=
  (ty desc =? MEM_CONVENTIONAL) || (ty desc =? MEM_BOOT_SERVICES_CODE) || (ty desc =? MEM_BOOT_SERVICES_DATA).
Definition desc_range (desc : MemoryDescriptorV1) : Z * Z := (phys_start desc, sat_add 64 (phys_start desc) (sat_mul64 (page_count desc) PAGE_SIZE)).

Definition inside (segs : list (Z * Z)) (x : Z * Z) : Prop := exists o, o ∈ segs /\ seg_sub x o.

Lemma scan_map_sound descs :
  (length (free_regions (scan_map descs)) <= MAX_SEGMENTS)%nat /\
  forall r, r ∈ free_regions (scan_map descs) -> exists desc, desc ∈ descs /\ usable_type desc = true /\ r = desc_range desc.
Proof.
  unfold scan_map. assert (forall acc, (length (free_regions acc) <= MAX_SEGMENTS)%nat ->
    (length (free_regions (foldl scan_descriptor acc descs)) <= MAX_SEGMENTS)%nat /\
    forall r, r ∈ free_regions (foldl scan_descriptor acc descs) -> r ∈ free_regions acc \/ exists desc, desc ∈ descs /\ usable_type desc = true /\ r = desc_range desc) as H.
  { induction descs as [|desc descs IH]; intros acc Hl; cbn [foldl]; [by auto|].
    assert ((length (free_regions (scan_descriptor acc desc)) <= MAX_SEGMENTS)%nat /\
      forall r, r ∈ free_regions (scan_descriptor acc desc) -> r ∈ free_regions acc \/ usable_type desc = true /\ r = desc_range desc) as [Hl1 Hr1].
    { unfold scan_descriptor. fold (usable_type desc). fold (desc_range desc). destruct (usable_type desc); cbn [free_regions]; [|by auto]. destruct (Nat.ltb_spec (length (free_regions acc)) MAX_SEGMENTS); [|by auto].
      rewrite length_app. cbn [length]. split; [lia|]. intros r Hr. apply elem_of_app in Hr as [Hr|Hr%list_elem_of_singleton]; auto. }
    destruct (IH _ Hl1) as [Hl2 Hr2]. split; [done|]. intros r Hr. destruct (Hr2 r Hr) as [Hr'|(d & Hd & Hu & He)]; [destruct (Hr1 r Hr') as [|[Hu He]]; [by left|right; exists desc; split_and!; [left|done|done]]|right; exists d; split_and!; [by right|done|done]]. }
  destruct (H (mkAcc 0 0 0 [])) as [Hl Hr]; [cbn; lia|]. split; [done|]. intros r Hin. destruct (Hr r Hin) as [Hn|]; [by apply elem_of_nil in Hn|done].
Qed.

Lemma seg_sub_trans x y z : seg_sub x y -> seg_sub y z -> seg_sub x z.
Proof. unfold seg_sub. auto. Qed.
Lemma inside_self segs x : x ∈ segs -> inside segs x.
Proof. intros Hx. exists x. split; [done|by intros a]. Qed.
Lemma inside_cons y segs x : inside segs x -> inside (y :: segs) x.
Proof. intros (o & Ho & Hs). exists o. split; [by right|done]. Qed.
Lemma inside_trans segs segs' x : Forall (inside segs) segs' -> inside segs' x -> inside segs x.
Proof. intros Hall (o & Ho & Hs). rewrite list.Forall_forall in Hall. destruct (Hall o Ho) as (o' & Ho' & Hs'). exists o'. split; [done|by eapply seg_sub_trans]. Qed.
Lemma all_inside segs : Forall (inside segs) segs.
Proof. apply list.Forall_forall. intros x Hx. by apply inside_self. Qed.

(** A bitmap of [pages] pages at [phys], taken from the segments. *)
Definition taken (segs segs' : list (Z * Z)) (phys pages : Z) : Prop := Forall (inside segs) segs' /\ inside segs (phys, phys + pages * PAGE_SIZE).

Lemma room_bound s e pages : pages <= (e - s) / PAGE_SIZE -> pages * PAGE_SIZE <= e - s.
Proof. intros Hp. pose proof (Z.mul_div_le (e - s) PAGE_SIZE ltac:(done)). unfold PAGE_SIZE in *. nia. Qed.

Lemma take_from_end_sound segs pages phys segs' : 0 <= pages -> take_from_end segs pages = Some (phys, segs') -> taken segs segs' phys pages.
Proof.
  intros Hp. revert phys segs'. induction segs as [|[s e] rest IH]; intros phys segs' Ht; [done|]. cbn [take_from_end] in Ht. destruct (take_from_end rest pages) as [[ph rest']|].
  - injection Ht as <- <-. destruct (IH ph rest' eq_refl) as [Hall Hin]. split; [|by apply inside_cons]. constructor; [apply inside_self; left|]. eapply Forall_impl; [exact Hall|]. intros x. apply inside_cons.
  - destruct (Z.leb_spec pages ((e - s) / PAGE_SIZE)) as [Hle|]; [|done]. injection Ht as <- <-. apply room_bound in Hle. pose proof (Z.mul_nonneg_nonneg pages PAGE_SIZE Hp ltac:(done)). split.
    + constructor; [|eapply Forall_impl; [apply all_inside|]; intros x; apply inside_cons]. exists (s, e). split; [left|]. intros a. unfold in_seg. cbn. lia.
    + exists (s, e). split; [left|]. intros a. unfold in_seg. cbn. lia.
Qed.
Lemma take_from_start_sound segs pages phys segs' : 0 <= pages -> take_from_start segs pages = Some (phys, segs') -> taken segs segs' phys pages.
Proof.
  intros Hp. revert phys segs'. induction segs as [|[s e] rest IH]; intros phys segs' Ht; [done|]. cbn [take_from_start] in Ht. destruct (Z.leb_spec pages ((e - s) / PAGE_SIZE)) as [Hle|].
  - injection Ht as <- <-. apply room_bound in Hle. pose proof (Z.mul_nonneg_nonneg pages PAGE_SIZE Hp ltac:(done)). split.
    + constructor; [|eapply Forall_impl; [apply all_inside|]; intros x; apply inside_cons]. exists (s, e). split; [left|]. intros a. unfold in_seg. cbn. lia.
    + exists (s, e). split; [left|]. intros a. unfold in_seg. cbn. lia.
  - destruct (take_from_start rest pages) as [[ph rest']|]; [cbn in Ht|done]. injection Ht as <- <-. destruct (IH ph rest' eq_refl) as [Hall Hin]. split; [|by apply inside_cons].
    constructor; [apply inside_self; left|]. eapply Forall_impl; [exact Hall|]. intros x. apply inside_cons.
Qed.

Lemma find_bitmap_sound segs pages phys segs' : 0 <= pages -> find_bitmap segs pages = (phys, segs') -> Forall (inside segs) segs' /\ (phys ≠ 0 -> inside segs (phys, phys + pages * PAGE_SIZE)).
Proof.
  intros Hp. unfold find_bitmap. assert (forall o segs, (forall phys segs', o = Some (phys, segs') -> taken segs segs' phys pages) -> forall phys segs', default (0, segs) o = (phys, segs') ->
    Forall (inside segs) segs' /\ (phys ≠ 0 -> inside segs (phys, phys + pages * PAGE_SIZE))) as Hd.
  { intros [[ph sg]|] segs0 Ho ph0 sg0 He; cbn in He; injection He as <- <-; [destruct (Ho _ _ eq_refl); by split|]. split; [apply all_inside|done]. }
  destruct (default (0, segs) (take_from_end segs pages)) as [ph1 segs1] eqn:E1. apply Hd in E1 as [Ha1 Hi1]; [|intros ? ?; by apply take_from_end_sound].
  destruct (Z.eqb_spec ph1 0) as [->|Hn]; intros E2; [|by injection E2 as <- <-]. apply Hd in E2 as [Ha2 Hi2]; [|intros ? ?; by apply take_from_start_sound].
  split; [eapply Forall_impl; [exact Ha2|]; intros x; by apply inside_trans|]. intros Hph. by eapply inside_trans, Hi2.
Qed.

Lemma place_bitmap_sound pm segs phys words pages segs' : place_bitmap pm segs = Some (phys, words, pages, segs') -> Forall (inside segs) segs' /\ (phys ≠ 0 -> inside segs (phys, phys + pages * PAGE_SIZE)).
Proof.
  unfold place_bitmap. rewrite Z.gtb_ltb. destruct (Z.ltb_spec 0 (div_ceil (sat_mul64 (div_ceil (Z.shiftr pm 12) 64) 8) 4096)) as [Hp|_]; [|intros [= <- <- <- <-]; split; [apply all_inside|done]].
  destruct (find_bitmap segs _) as [ph1 segs1] eqn:E1. apply find_bitmap_sound in E1 as [Ha1 Hi1]; [|lia]. destruct (Z.eqb_spec ph1 0) as [->|Hn]; [|by intros [= <- <- <- <-]].
  destruct (find_bitmap segs1 _) as [ph2 segs2] eqn:E2. apply find_bitmap_sound in E2 as [Ha2 Hi2]; [|by vm_compute]. destruct (Z.eqb_spec ph2 0) as [|Hn]; [done|]. intros [= <- <- <- <-].
  split; [eapply Forall_impl; [exact Ha2|]; intros x; by apply inside_trans|]. intros _. by eapply inside_trans, Hi2.
Qed.

(** Memory that the kernel may use: clear of everything that is reserved, and
    inside a region that the memory map describes as usable. *)
Definition fit_for_use (bi : BootInfo) (descs : list MemoryDescriptorV1) (seg : Z * Z) : Prop :=
  seg_disjoint seg low_megabyte /\ seg_disjoint seg (kernel_image bi) /\ seg_disjoint seg (framebuffer bi) /\
  exists desc, desc ∈ descs /\ usable_type desc = true /\ seg_sub seg (desc_range desc).

(** C31. From the memory map of the firmware to the frame allocator: for every list
    of descriptors, every kernel image and every framebuffer for which [init] does
    not panic, each region handed to the allocator is not empty, shares no address
    with the low megabyte, the kernel image or the framebuffer, and lies inside one
    descriptor of conventional or boot-services memory; and so does the memory taken
    for the allocator's bitmap, wherever it was found. *)
Theorem buddy_regions_avoid_reserved bi descs phys words pages regions :
  memory_init bi descs = Some (phys, words, pages, regions) ->
  (forall seg, seg ∈ regions -> seg.1 < seg.2 /\ fit_for_use bi descs seg) /\
  (phys ≠ 0 -> fit_for_use bi descs (phys, phys + pages * PAGE_SIZE)).
Proof.
  intros Hi. unfold memory_init in Hi. destruct (scan_map_sound descs) as [Hlen Hscan]. set (acc := scan_map descs) in *.
  destruct (carve_all _ _) as [st|] eqn:Hc; [cbn [mbind option_bind] in Hi|done]. destruct (place_bitmap _ _) as [[[[ph wd] pg] segs]|] eqn:Hb; [cbn in Hi|done]. injection Hi as <- <- <- <-.
  assert (forall seg, inside (segments st) seg -> fit_for_use bi descs seg) as Hfit.
  { intros seg (o & Ho & Hso). destruct (carve_all_sound (reserved_regions bi) (initial_segments (free_regions acc)) st) with (seg := o) as (Hd & o' & Ho' & Hso'); [cbn; rewrite length_app; lia|done|done|].
    unfold segments, initial_segments in Ho'. cbn in Ho'. rewrite take_app_length in Ho'. destruct (Hscan o' Ho') as (desc & Hdesc & Hu & ->).
    apply Forall_cons in Hd as [D1 Hd]. apply Forall_cons in Hd as [D2 Hd]. apply Forall_cons in Hd as [D3 _].
    split_and!; [intros a Ha; by apply D1, Hso|intros a Ha; by apply D2, Hso|intros a Ha; by apply D3, Hso|]. exists desc. split_and!; [done|done|by eapply seg_sub_trans]. }
  apply place_bitmap_sound in Hb as [Hall Hbm]. split; [|auto]. intros seg Hin. apply list_elem_of_filter in Hin as [Hne Hin]. split; [lia|]. apply Hfit. rewrite list.Forall_forall in Hall. by apply Hall.
Qed.

(** ** Completeness of a cut

    If the reserved region lies strictly inside no segment, each step writes at
    most one segment, the write index never overtakes the read index, and every
    address outside the region stays covered. *)
Definition splits (r seg : Z * Z) : Prop := seg.1 < r.1 /\ r.2 < seg.2.

Definition covers (segs : list (Z * Z)) (a : Z) : Prop := exists seg, seg ∈ segs /\ in_seg seg a.

Lemma covers_app segs seg a : covers (segs ++ [seg]) a <-> covers segs a \/ in_seg seg a.
Proof.
  unfold covers. split.
  - intros (x & Hx & Ha). apply elem_of_app in Hx as [Hx|Hx%list_elem_of_singleton].
    + left. eauto.
    + subst x. by right.
  - intros [(x & Hx & Ha)|Ha].
    + exists x. split; [apply elem_of_app; by left|done].
    + exists seg. split; [apply elem_of_app; right; by apply list_elem_of_singleton|done].
Qed.

Lemma carve_one_no_split r st k s e :
  (st.2 <= k < length st.1)%nat -> st.1 !!! k = (s, e) -> ~ splits r (s, e) ->
  exists st', carve_one r st k = Some st' /\
    length st'.1 = length st.1 /\ (st'.2 <= S k)%nat /\
    (forall i, (k < i)%nat -> st'.1 !!! i = st.1 !!! i) /\
    forall a, covers (segments st) a \/ (in_seg (s, e) a /\ ~ in_seg r a) ->
      covers (segments st') a.
Proof.
  destruct st as [segs n], r as [rs re]. unfold splits, in_seg. simpl. intros Hk Hse Hns.
  assert (Hput : forall seg, exists st', put_segment (segs, n) seg = Some st' /\
    length st'.1 = length segs /\ (st'.2 <= S k)%nat /\
    (forall i, (k < i)%nat -> st'.1 !!! i = segs !!! i) /\
    segments st' = segments (segs, n) ++ [seg]).
  { intros seg. destruct (put_segment (segs, n) seg) as [[segs' n']|] eqn:Hp.
    - exists (segs', n'). apply put_segment_take in Hp as (-> & H1 & H2 & H3 & H4). simpl.
      split_and!; [done|done|lia| |done]. intros i Hi. apply H3. lia.
    - unfold put_segment in Hp. case_if_in Hp; [done|lia]. }
  unfold carve_one. simpl. rewrite Hse. case_if.
  - destruct (Hput (s, e)) as (st' & Hp & H1 & H2 & H3 & H4). exists st'.
    split_and!; [done..|]. intros a Ha. rewrite H4, covers_app. unfold in_seg. simpl. tauto.
  - assert (Hcase : (s < rs /\ e <= re) \/ (rs <= s /\ re < e) \/ (rs <= s /\ e <= re)) by lia.
    rewrite Z.gtb_ltb. destruct Hcase as [[Hs He]|[[Hs He]|[Hs He]]].
    + destruct (Hput (s, rs)) as (st' & Hp & H1 & H2 & H3 & H4). exists st'.
      rewrite (proj2 (Z.ltb_lt s rs)) by done. rewrite Hp. simpl.
      rewrite (proj2 (Z.ltb_ge re e)) by done. split_and!; [done..|].
      intros a Ha. rewrite H4, covers_app. unfold in_seg. simpl. destruct Ha; [by left|right; lia].
    + destruct (Hput (re, e)) as (st' & Hp & H1 & H2 & H3 & H4). exists st'.
      rewrite (proj2 (Z.ltb_ge s rs)) by done. simpl.
      rewrite (proj2 (Z.ltb_lt re e)) by done. split_and!; [done..|].
      intros a Ha. rewrite H4, covers_app. unfold in_seg. simpl. destruct Ha; [by left|right; lia].
    + exists (segs, n). rewrite (proj2 (Z.ltb_ge s rs)) by done. simpl.
      rewrite (proj2 (Z.ltb_ge re e)) by done. split_and!; [done|done|simpl; lia|done|].
      intros a [Ha|Ha]; [done|lia].
Qed.

Lemma carve_loop_no_split r : forall c k st,
  (st.2 <= k)%nat -> (k + c <= length st.1)%nat ->
  (forall i, (k <= i < k + c)%nat -> ~ splits r (st.1 !!! i)) ->
  exists st', carve_loop r st (seq k c) = Some st' /\
    forall a, covers (segments st) a \/
      (exists i, (k <= i < k + c)%nat /\ in_seg (st.1 !!! i) a /\ ~ in_seg r a) ->
      covers (segments st') a.
Proof.
  induction c as [|c IH]; intros k st Hk Hl Hns.
  { exists st. split; [done|]. intros a [Ha|(i & Hi & _)]; [done|lia]. }
  destruct (st.1 !!! k) as [s e] eqn:Hse. cbn [seq carve_loop].
  destruct (carve_one_no_split r st k s e) as (st1 & H1 & H2 & H3 & H4 & H5);
    [lia|done|rewrite <- Hse; apply Hns; lia|].
  rewrite H1. simpl. destruct (IH (S k) st1) as (st' & H6 & H7); [lia|lia| |].
  { intros i Hi. rewrite H4 by lia. apply Hns. lia. }
  exists st'. split; [done|]. intros a Ha. apply H7.
  destruct Ha as [Ha|(i & Hi & Hin & Hnr)]; [left; apply H5; by left|].
  destruct (decide (i = k)) as [->|].
  - left. apply H5. right. split; [by rewrite <- Hse|done].
  - right. exists i. rewrite H4 by lia. split; [lia|done].
Qed.

(** Cutting a reserved region out of segments none of which it splits in two
    never panics and keeps every other address of the segments. *)
Theorem carve_region_complete segs count r :
  (count <= length segs)%nat ->
  (forall seg, seg ∈ segments (segs, count) -> ~ splits r seg) ->
  exists st', carve_region (segs, count) r = Some st' /\
    forall a, covers (segments (segs, count)) a -> ~ in_seg r a -> covers (segments st') a.
Proof.
  intros Hc Hns.
  assert (Hin : forall i, (i < count)%nat -> segs !!! i ∈ segments (segs, count)).
  { intros i Hi. unfold segments. simpl. apply list_elem_of_lookup. exists i.
    rewrite lookup_take_lt by done. apply list_lookup_lookup_total_lt. lia. }
  destruct (carve_loop_no_split r count 0 (segs, 0%nat)) as (st' & H1 & H2);
    [simpl; lia|simpl; lia| |].
  { intros i Hi. simpl. apply Hns, Hin. lia. }
  exists st'. split; [done|]. intros a (seg & Hseg & Ha) Hnr. apply H2. right.
  unfold segments in Hseg. simpl in Hseg. apply list_elem_of_lookup in Hseg as [i Hi].
  apply lookup_take_Some in Hi as [Hi Hlt]. exists i. split; [lia|]. simpl.
  by rewrite (list_lookup_total_correct _ _ _ Hi).
Qed.

(** A reserved region that splits a segment overwrites the next one before it
    is read: of two usable segments [[1 MiB, 128 MiB)] and [[256 MiB, 512 MiB)]
    with a kernel image at [[64 MiB, 66 MiB)], the second is lost and the right
    half of the first is listed twice. *)
Theorem carve_region_split_loses :
  segments <$> carve_region
    (initial_segments [(0x100000, 0x8000000); (0x10000000, 0x20000000)]) (0x4000000, 0x4200000)
  = Some [(0x100000, 0x4000000); (0x4200000, 0x8000000); (0x4200000, 0x8000000)].
Proof. vm_compute. reflexivity. Qed.

(** ** From addresses to frames

    [init_from_regions] rounds a segment outwards to whole frames. *)
Definition page_aligned (seg : Z * Z) : Prop := (PAGE_SIZE | seg.1) /\ (PAGE_SIZE | seg.2).

Lemma put_segment_aligned st seg st' :
  Forall page_aligned st.1 -> page_aligned seg -> put_segment st seg = Some st' ->
  Forall page_aligned st'.1.
Proof.
  destruct st as [segs n]. intros Hall Hs. unfold put_segment. case_if; [|done].
  intros [= <-]. simpl. by apply Forall_insert.
Qed.

Lemma carve_one_aligned r st k st' :
  Forall page_aligned st.1 -> page_aligned r -> carve_one r st k = Some st' ->
  (k < length st.1)%nat -> Forall page_aligned st'.1.
Proof.
  intros Hall Hr Hc Hk. unfold carve_one in Hc. destruct r as [rs re].
  assert (Hse : page_aligned (st.1 !!! k)).
  { eapply Forall_lookup_1; [exact Hall|]. by apply list_lookup_lookup_total_lt. }
  destruct (st.1 !!! k) as [s e]. destruct Hse, Hr; simpl in *. case_if_in Hc.
  - eapply put_segment_aligned; [done| |done]. by split.
  - destruct (if s <? rs then _ else _) as [st1|] eqn:E1; [|done]. simpl in Hc.
    assert (Forall page_aligned st1.1).
    { case_if_in E1; [|by injection E1 as <-].
      eapply put_segment_aligned; [done| |done]. by split. }
    case_if_in Hc; [|by injection Hc as <-].
    eapply put_segment_aligned; [done| |done]. by split.
Qed.

Lemma carve_loop_aligned r ks : forall st st',
  Forall page_aligned st.1 -> page_aligned r -> (st.2 <= length st.1)%nat ->
  Forall (λ k, (k < length st.1)%nat) ks -> carve_loop r st ks = Some st' ->
  Forall page_aligned st'.1.
Proof.
  induction ks as [|k ks IH]; intros st st' Hall Hr Hb Hks Hc; [by injection Hc as <-|].
  apply Forall_cons in Hks as [Hk Hks]. simpl in Hc.
  destruct (carve_one r st k) as [st1|] eqn:H1; [|done]. simpl in Hc.
  destruct (carve_one_length _ _ _ _ Hb H1) as [Hl Hb1].
  eapply IH; [|done|exact Hb1|by rewrite Hl|exact Hc].
  by eapply carve_one_aligned.
Qed.

Lemma carve_all_aligned reserved : forall st st',
  Forall page_aligned st.1 -> Forall page_aligned reserved -> (st.2 <= length st.1)%nat ->
  carve_all st reserved = Some st' -> Forall page_aligned st'.1.
Proof.
  induction reserved as [|r rs IH]; intros st st' Hall Hr Hb Hc; [by injection Hc as <-|].
  apply Forall_cons in Hr as [Hr Hrs]. simpl in Hc.
  destruct (carve_region st r) as [st1|] eqn:H1; [|done]. simpl in Hc.
  destruct (carve_region_length _ _ _ H1) as [Hl Hb1].
  eapply IH; [|done|exact Hb1|exact Hc]. destruct st as [segs c].
  eapply (carve_loop_aligned r _ (segs, 0%nat)); [done|done|simpl; lia| |exact H1].
  apply Forall_seq. simpl in *. lia.
Qed.

Lemma covers_aligned_frame seg g :
  page_aligned seg -> region_covers seg g = true ->
  seg.1 <= g * PAGE_SIZE /\ (g + 1) * PAGE_SIZE <= seg.2.
Proof.
  intros [[q1 H1] [q2 H2]] Hc. unfold region_covers in Hc. reflect_bool.
  unfold div_ceil in *. rewrite H1, H2 in *. unfold PAGE_SIZE in *.
  rewrite Z.mod_mul, Z.div_mul in * by lia. simpl in *. lia.
Qed.

(** If the memory map and the reserved regions are page aligned, no frame
    that the allocator is initialised with shares a byte with a reserved region. *)
Theorem frames_avoid_reserved regions reserved st :
  (length regions <= MAX_SEGMENTS)%nat ->
  Forall page_aligned regions -> Forall page_aligned reserved ->
  carve_all (initial_segments regions) reserved = Some st ->
  forall seg g a r, seg ∈ buddy_regions (segments st) -> region_covers seg g = true -> r ∈ reserved ->
    g * PAGE_SIZE <= a < (g + 1) * PAGE_SIZE -> ~ in_seg r a.
Proof.
  intros Hl Hreg Hres Hc seg g a r Hin Hcov Hr Ha.
  apply list_elem_of_filter in Hin as [Hne Hin].
  assert (Hlen : ((initial_segments regions).2 <= length (initial_segments regions).1)%nat).
  { simpl. rewrite length_app. lia. }
  destruct (carve_all_sound reserved _ _ Hlen Hc seg Hin) as [Hd _].
  assert (Hal : Forall page_aligned st.1).
  { eapply carve_all_aligned; [|exact Hres|exact Hlen|exact Hc]. simpl. apply Forall_app.
    split; [done|]. apply Forall_replicate. split; apply Z.divide_0_r. }
  rewrite list.Forall_forall in Hal, Hd.
  apply (covers_aligned_frame seg) in Hcov.
  - apply (Hd r Hr). unfold in_seg. lia.
  - apply Hal. unfold segments in Hin. apply list_elem_of_lookup in Hin as [i Hi].
    apply lookup_take_Some in Hi as [Hi _]. apply list_elem_of_lookup. by exists i.
Qed.

(** A reserved region that does not end on a page boundary (the kernel image
    ends where its last section does) shares a frame with the segment behind it,
    and that frame is handed to the allocator: with the kernel in
    [[0x4000000, 0x4200010)], frame [0x4200] is usable although its first 16
    bytes belong to the kernel. *)
Theorem unaligned_reserved_frame_usable :
  exists st, carve_all (initial_segments [(0x100000, 0x8000000)]) [(0x4000000, 0x4200010)] = Some st /\
    usable 0x8000 (buddy_regions (segments st)) 0x4200 = true /\
    in_seg (0x4000000, 0x4200010) (0x4200 * PAGE_SIZE).
Proof.
  eexists. split; [vm_compute; reflexivity|]. split; [vm_compute; reflexivity|].
  unfold in_seg, PAGE_SIZE. simpl. lia.
Qed.

Lemma frames_avoid_reserved_witness :
  ~ in_seg (0x4000000, 0x4200000) (0x4200 * PAGE_SIZE).
Proof.
  destruct (carve_all (initial_segments [(0x100000, 0x8000000)]) [(0x4000000, 0x4200000)])
    as [st|] eqn:E; [|discriminate E].
  apply (frames_avoid_reserved [(0x100000, 0x8000000)] [(0x4000000, 0x4200000)] st)
    with (seg := (0x4200000, 0x8000000)) (g := 0x4200).
  - simpl. unfold MAX_SEGMENTS. lia.
  - apply Forall_singleton. split; [by exists 0x100|by exists 0x8000].
  - apply Forall_singleton. split; [by exists 0x4000|by exists 0x4200].
  - exact E.
  - vm_compute in E. injection E as <-. vm_compute. right. left.
  - vm_compute. reflexivity.
  - by left.
  - unfold PAGE_SIZE. lia.
Defined.

(** A machine with two usable regions, one of them holding the kernel, and a
    framebuffer behind them. *)
Definition sample_boot : BootInfo := mkBoot 0x100000 0x200000 0x80000000 0x800000.
Definition sample_map : list MemoryDescriptorV1 := [mkDesc MEM_CONVENTIONAL 0 0x8000; mkDesc 0 0x8000000 0x100; mkDesc MEM_CONVENTIONAL 0x10000000 0x10000].

Lemma buddy_regions_avoid_reserved_witness : exists phys words pages regions,
  memory_init sample_boot sample_map = Some (phys, words, pages, regions) /\ regions = [(0x200000, 0x8000000); (0x10000000, 0x1FFFC000)] /\
  fit_for_use sample_boot sample_map (0x200000, 0x8000000).
Proof.
  assert (exists r, memory_init sample_boot sample_map = Some r) as [[[[phys words] pages] regions] E] by (eexists; vm_compute; reflexivity).
  destruct (buddy_regions_avoid_reserved sample_boot sample_map phys words pages regions E) as [Hreg _]. exists phys, words, pages, regions. split; [exact E|].
  vm_compute in E. injection E as <- <- <- <-. split; [reflexivity|]. apply (Hreg (0x200000, 0x8000000)). left.
Defined.

Lemma carve_region_complete_witness :
  exists st', carve_region (initial_segments [(0, 0x8000000)]) (0, 0x100000) = Some st' /\
    covers (segments st') 0x200000.
Proof.
  destruct (carve_region_complete ((0, 0x8000000) :: replicate 63 (0, 0)) 1 (0, 0x100000))
    as (st' & H1 & H2).
  - simpl. lia.
  - intros seg Hseg. apply list_elem_of_singleton in Hseg as ->. intros [H _]. simpl in H. lia.
  - exists st'. split; [exact H1|]. apply H2.
    + exists (0, 0x8000000). split; [by left|]. unfold in_seg. simpl. lia.
    + unfold in_seg. simpl. lia.
Defined.
