(* ===== verification/IdIndex.v ===== *)
(** * IdIndex.v: the open-addressing id index ([id_index.rs])

    A linear-probing hash table from [u64] keys to slot numbers: key [0] marks
    an empty slot, [u64::MAX] a tombstone.  The table doubles at 75% load.  Keys
    are words kept as [Z]; positions, values and counters are [nat] (lengths and
    indices of vectors).  The probe loops of the source have no bound; the model
    gives them one turn per slot and returns [None] when the turns run out, and
    [find_terminates] shows that they never do on a well-formed table. *)

From stdpp Require Import gmap.
From S2P Require Import Prelude.
Open Scope Z_scope.

Definition EMPTY : Z := 0.
Definition TOMBSTONE : Z := 2 ^ 64 - 1.

Record IdIndex := mkIndex {
  keys : list Z;
  vals : list nat;
  len : Z;
  used : nat;
  mask : Z;
}.

(** [IdIndex::new], with 16 slots. *)
Definition index_new : IdIndex := mkIndex (replicate 16 EMPTY) (replicate 16 0%nat) 0 0 15.

(** Fibonacci hashing: [(k.wrapping_mul(C) >> 32) as usize]. *)
Definition hash (k : Z) : Z := Z.shiftr (wrap 64 (k * 0x9E3779B97F4A7C15)) 32.

Definition start_slot (ix : IdIndex) (k : Z) : nat := Z.to_nat (Z.land (hash k) (mask ix)).
Definition next_slot (ix : IdIndex) (i : nat) : nat := Z.to_nat (Z.land (Z.of_nat i + 1) (mask ix)).

(** The loop of [get] and [remove]: the position of [k], or [None] at an empty
    slot; the outer [None] is a loop that has not ended. *)
Fixpoint find_loop (fuel : nat) (ix : IdIndex) (k : Z) (i : nat) : option (option nat) :=
  match fuel with
  | O => None
  | S f =>
      let kk := keys ix !!! i in
      if kk =? EMPTY then Some None
      else if kk =? k then Some (Some i)
      else find_loop f ix k (next_slot ix i)
  end.

Definition find_slot (ix : IdIndex) (k : Z) : option (option nat) :=
  find_loop (length (keys ix)) ix k (start_slot ix k).

Definition get (ix : IdIndex) (k : Z) : option (option nat) :=
  r ← find_slot ix k; Some (i ← r; Some (vals ix !!! i)).

(** The loop of [insert_no_grow]: the first empty slot, tombstone or slot of [k]. *)
Fixpoint place_loop (fuel : nat) (ix : IdIndex) (k : Z) (i : nat) : option nat :=
  match fuel with
  | O => None
  | S f =>
      let kk := keys ix !!! i in
      if (kk =? EMPTY) || (kk =? TOMBSTONE) then Some i
      else if kk =? k then Some i
      else place_loop f ix k (next_slot ix i)
  end.

Definition insert_no_grow (ix : IdIndex) (k : Z) (v : nat) : option IdIndex :=
  i ← place_loop (length (keys ix)) ix k (start_slot ix k);
  let kk := keys ix !!! i in
  Some (if (kk =? EMPTY) || (kk =? TOMBSTONE) then
    mkIndex (<[i := k]> (keys ix)) (<[i := v]> (vals ix)) (wrap 64 (len ix + 1))
      (if kk =? EMPTY then S (used ix) else used ix) (mask ix)
  else mkIndex (keys ix) (<[i := v]> (vals ix)) (len ix) (used ix) (mask ix)).

(** [grow]: reinsert the live keys into a table of twice the size. *)
Fixpoint reinsert (ix : IdIndex) (old : list (Z * nat)) : option IdIndex :=
  match old with
  | [] => Some ix
  | (k, v) :: old =>
      if negb (k =? EMPTY) && negb (k =? TOMBSTONE)
      then ix ← insert_no_grow ix k v; reinsert ix old
      else reinsert ix old
  end.

Definition grow (ix : IdIndex) : option IdIndex :=
  let new_cap := (length (keys ix) * 2)%nat in
  reinsert (mkIndex (replicate new_cap EMPTY) (replicate new_cap 0%nat) 0 0 (Z.of_nat new_cap - 1))
    (zip (keys ix) (vals ix)).

Definition insert (ix : IdIndex) (k : Z) (v : nat) : option IdIndex :=
  if (length (keys ix) * 3 <=? (used ix + 1) * 4)%nat
  then ix ← grow ix; insert_no_grow ix k v
  else insert_no_grow ix k v.

Definition remove (ix : IdIndex) (k : Z) : option IdIndex :=
  r ← find_slot ix k;
  Some (match r with
        | None => ix
        | Some i => mkIndex (<[i := TOMBSTONE]> (keys ix)) (vals ix) (wrap 64 (len ix - 1)) (used ix) (mask ix)
        end).

(** ** Probing as a search along a list of positions *)

Definition probe (ix : IdIndex) (k : Z) : list nat :=
  (λ i, (start_slot ix k + i) `mod` length (keys ix))%nat <$> seq 0 (length (keys ix)).

Definition live (k : Z) : Prop := k ≠ EMPTY /\ k ≠ TOMBSTONE.
#[global] Instance live_dec k : Decision (live k) := _.

(** The first position of [ps] with the key predicate [P]. *)
Definition first_key (ix : IdIndex) (P : Z -> Prop) `{!forall z, Decision (P z)} (ps : list nat)
    : option nat := snd <$> list_find (λ p, P (keys ix !!! p)) ps.

Definition stops (k kk : Z) : Prop := kk = EMPTY \/ kk = k.
Definition places (k kk : Z) : Prop := kk = EMPTY \/ kk = TOMBSTONE \/ kk = k.
#[global] Instance stops_dec k kk : Decision (stops k kk) := _.
#[global] Instance places_dec k kk : Decision (places k kk) := _.

(** The size is a power of two and the mask selects a position. *)
Record sized (ix : IdIndex) : Prop := {
  sz_pow : exists n, length (keys ix) = (2 ^ n)%nat;
  sz_vals : length (vals ix) = length (keys ix);
  sz_mask : mask ix = Z.of_nat (length (keys ix)) - 1;
}.

(** A well-formed table: a live key is found where it is stored (so it is stored
    once), the counters count, and the load is below three quarters. *)
Record index_wf (ix : IdIndex) : Prop := {
  iw_sized : sized ix;
  iw_find p : (p < length (keys ix))%nat -> live (keys ix !!! p) ->
    first_key ix (stops (keys ix !!! p)) (probe ix (keys ix !!! p)) = Some p;
  iw_used : used ix = length (filter (λ k, k ≠ EMPTY) (keys ix));
  iw_len : len ix = wrap 64 (Z.of_nat (length (filter live (keys ix))));
  iw_load : (used ix * 4 < length (keys ix) * 3)%nat;
}.

Definition index_map (ix : IdIndex) : gmap Z nat :=
  list_to_map (filter (λ kv, live kv.1) (zip (keys ix) (vals ix))).

(** ** The probe sequence *)

Section probing.
Context (ix : IdIndex) (Hsz : sized ix).

Lemma cap_pos : (0 < length (keys ix))%nat.
Proof. destruct (sz_pow _ Hsz) as [n ->]. pose proof (Nat.pow_nonzero 2 n). lia. Qed.

(** The mask is a remainder. *)
Lemma mask_mod z : 0 <= z -> Z.to_nat (Z.land z (mask ix)) = (Z.to_nat z `mod` length (keys ix))%nat.
Proof.
  intros Hz. destruct (sz_pow _ Hsz) as [n Hn]. rewrite (sz_mask _ Hsz), Hn.
  replace (Z.of_nat (2 ^ n) - 1) with (Z.ones (Z.of_nat n)).
  - rewrite Z.land_ones by lia. rewrite Z2Nat.inj_mod by lia.
    do 2 f_equal. rewrite <-(Nat2Z.id (2 ^ n)), Nat2Z.inj_pow. done.
  - rewrite Z.ones_equiv. rewrite Nat2Z.inj_pow. lia.
Qed.

Lemma start_slot_lt k : (start_slot ix k < length (keys ix))%nat.
Proof.
  pose proof cap_pos. unfold start_slot. rewrite mask_mod; [apply Nat.mod_upper_bound; lia|].
  unfold hash. apply Z.shiftr_nonneg. unfold wrap. apply Z.mod_pos_bound. done.
Qed.

Lemma next_slot_mod i : next_slot ix i = (S i `mod` length (keys ix))%nat.
Proof. unfold next_slot. rewrite mask_mod by lia. f_equal. lia. Qed.

(** Both loops walk the positions [(start + j) mod cap]. *)
Definition walk (s j n : nat) : list nat :=
  (λ i, (s + i) `mod` length (keys ix))%nat <$> seq j n.

Lemma find_loop_walk k s n j :
  find_loop n ix k ((s + j) `mod` length (keys ix))%nat =
  (λ p, if decide (keys ix !!! p = EMPTY) then None else Some p) <$>
    first_key ix (stops k) (walk s j n).
Proof.
  pose proof cap_pos. revert j. induction n as [|n IH]; intros j; [done|].
  unfold first_key, walk. simpl. rewrite next_slot_mod.
  set (p := ((s + j) `mod` length (keys ix))%nat).
  assert (S p `mod` length (keys ix) = (s + S j) `mod` length (keys ix))%nat as ->.
  { unfold p. rewrite <-Nat.add_1_r, Nat.Div0.add_mod_idemp_l. f_equal. lia. }
  destruct (Z.eqb_spec (keys ix !!! p) EMPTY) as [He|He].
  { rewrite decide_True by (by left). simpl. by rewrite decide_True. }
  destruct (Z.eqb_spec (keys ix !!! p) k) as [Hk|Hk].
  { rewrite decide_True by (by right). simpl. by rewrite decide_False. }
  rewrite decide_False by (unfold stops; tauto). rewrite IH.
  unfold first_key, walk. by destruct (list_find _ _) as [[]|].
Qed.

Lemma place_loop_walk k s n j :
  place_loop n ix k ((s + j) `mod` length (keys ix))%nat = first_key ix (places k) (walk s j n).
Proof.
  pose proof cap_pos. revert j. induction n as [|n IH]; intros j; [done|].
  unfold first_key, walk. simpl. rewrite next_slot_mod.
  set (p := ((s + j) `mod` length (keys ix))%nat).
  assert (S p `mod` length (keys ix) = (s + S j) `mod` length (keys ix))%nat as ->.
  { unfold p. rewrite <-Nat.add_1_r, Nat.Div0.add_mod_idemp_l. f_equal. lia. }
  destruct (Z.eqb_spec (keys ix !!! p) EMPTY); simpl.
  { by rewrite decide_True by (by left). }
  destruct (Z.eqb_spec (keys ix !!! p) TOMBSTONE); simpl.
  { by rewrite decide_True by (by right; left). }
  destruct (Z.eqb_spec (keys ix !!! p) k).
  { by rewrite decide_True by (by right; right). }
  rewrite decide_False by (unfold places; tauto). rewrite IH.
  unfold first_key, walk. by destruct (list_find _ _) as [[]|].
Qed.

Lemma find_slot_probe k :
  find_slot ix k = (λ p, if decide (keys ix !!! p = EMPTY) then None else Some p) <$>
    first_key ix (stops k) (probe ix k).
Proof.
  pose proof (start_slot_lt k). unfold find_slot.
  replace (start_slot ix k) with ((start_slot ix k + 0) `mod` length (keys ix))%nat at 1
    by (rewrite Nat.add_0_r; by apply Nat.mod_small).
  apply find_loop_walk.
Qed.

Lemma place_probe k :
  place_loop (length (keys ix)) ix k (start_slot ix k) = first_key ix (places k) (probe ix k).
Proof.
  pose proof (start_slot_lt k).
  replace (start_slot ix k) with ((start_slot ix k + 0) `mod` length (keys ix))%nat at 1
    by (rewrite Nat.add_0_r; by apply Nat.mod_small).
  apply place_loop_walk.
Qed.

(** The probe sequence visits every position. *)
Lemma probe_all k p : (p < length (keys ix))%nat -> p ∈ probe ix k.
Proof.
  intros Hp. pose proof (start_slot_lt k) as Hs. set (s := start_slot ix k) in *.
  apply list_elem_of_fmap.
  destruct (decide (s <= p)%nat).
  - exists (p - s)%nat. split; [|apply elem_of_seq; lia].
    fold s. replace (s + (p - s))%nat with p by lia. by rewrite Nat.mod_small.
  - exists (p + length (keys ix) - s)%nat. split; [|apply elem_of_seq; lia].
    fold s. replace (s + (p + length (keys ix) - s))%nat with (p + 1 * length (keys ix))%nat by lia.
    rewrite Nat.Div0.mod_add. by rewrite Nat.mod_small.
Qed.

Lemma probe_lt k p : p ∈ probe ix k -> (p < length (keys ix))%nat.
Proof.
  intros (i & -> & _)%list_elem_of_fmap. pose proof cap_pos. apply Nat.mod_upper_bound. lia.
Qed.

End probing.

(** ** First positions *)

Section first.
Context (ix : IdIndex) (P : Z -> Prop) `{!forall z, Decision (P z)}.

Lemma first_key_Some ps p :
  first_key ix P ps = Some p <->
  exists pre post, ps = pre ++ p :: post /\ P (keys ix !!! p) /\
    Forall (λ q, ~ P (keys ix !!! q)) pre.
Proof.
  unfold first_key. induction ps as [|q ps IH]; simpl.
  { split; [done|]. intros ([] & ? & ? & ?); simplify_list_eq. }
  case_decide as Hq; simpl.
  - split.
    + intros [= ->]. exists [], ps. done.
    + intros ([|r pre] & post & ? & ? & Hpre); simplify_list_eq; [done|].
      by apply Forall_cons in Hpre as [? _].
  - transitivity (exists pre post, ps = pre ++ p :: post /\ P (keys ix !!! p) /\
      Forall (λ q, ~ P (keys ix !!! q)) pre).
    { rewrite <-IH. by destruct (list_find _ _) as [[]|]. }
    split.
    + intros (pre & post & -> & ? & ?). exists (q :: pre), post. repeat split; auto.
    + intros ([|r pre] & post & ? & ? & Hpre); simplify_list_eq; [done|].
      apply Forall_cons in Hpre as [_ ?]. eauto.
Qed.

Lemma first_key_ex ps p : p ∈ ps -> P (keys ix !!! p) -> is_Some (first_key ix P ps).
Proof.
  intros Hp HP. unfold first_key. apply fmap_is_Some.
  destruct (list_find _ ps) eqn:E; [done|]. apply list_find_None in E.
  rewrite Forall_forall in E. by destruct (E p Hp).
Qed.

End first.

(** The search for [k2] is not disturbed by a new key elsewhere. *)
Lemma first_key_stable ix ix' k2 ps q p :
  first_key ix (stops k2) ps = Some q -> keys ix !!! q = k2 ->
  (forall r, r ≠ p -> keys ix' !!! r = keys ix !!! r) -> p ≠ q ->
  ~ stops k2 (keys ix' !!! p) ->
  first_key ix' (stops k2) ps = Some q.
Proof.
  rewrite !first_key_Some. intros (pre & post & -> & Hq & Hpre) Hk Heq Hpq Hp.
  exists pre, post. split_and!; [done|by rewrite Heq by done|].
  eapply Forall_impl; [exact Hpre|]. simpl. intros r Hr.
  destruct (decide (r = p)) as [->|]; [done|]. by rewrite Heq.
Qed.

Lemma probe_same ix ix' k :
  length (keys ix') = length (keys ix) -> mask ix' = mask ix -> probe ix' k = probe ix k.
Proof. intros H1 H2. unfold probe, start_slot. by rewrite H1, H2. Qed.

(** ** The map a table represents *)

Definition stored (ix : IdIndex) (k : Z) (v : nat) : Prop :=
  live k /\ exists p, keys ix !! p = Some k /\ vals ix !! p = Some v.

Definition index_rep (ix : IdIndex) (m : gmap Z nat) : Prop :=
  index_wf ix /\ forall k v, m !! k = Some v <-> stored ix k v.

Lemma key_lookup ix p k : (p < length (keys ix))%nat -> keys ix !!! p = k -> keys ix !! p = Some k.
Proof. intros H <-. by apply list_lookup_lookup_total_lt. Qed.

Lemma wf_has_empty ix :
  index_wf ix -> exists p, (p < length (keys ix))%nat /\ keys ix !!! p = EMPTY.
Proof.
  intros [Hsz _ Hu _ Hl].
  destruct (decide (Exists (λ k, k = EMPTY) (keys ix))) as [He|He].
  - apply Exists_exists in He as (k & Hk & ->). apply list_elem_of_lookup in Hk as [p Hp].
    exists p. split; [by eapply lookup_lt_Some|]. by apply list_lookup_total_correct.
  - exfalso. apply not_Exists_Forall in He; [|apply _].
    rewrite filter_all in Hu by (intros x Hx; rewrite Forall_forall in He; by apply He).
    lia.
Qed.

(** On a well-formed table the probe loops end. *)
Lemma find_terminates ix k : index_wf ix -> is_Some (first_key ix (stops k) (probe ix k)).
Proof.
  intros Hwf. destruct (wf_has_empty _ Hwf) as (p & Hp & He).
  apply (first_key_ex _ _ _ p); [by apply probe_all, Hp; destruct Hwf|by left].
Qed.

Lemma wf_found ix p k :
  index_wf ix -> keys ix !! p = Some k -> live k -> first_key ix (stops k) (probe ix k) = Some p.
Proof.
  intros Hwf Hp Hl. pose proof (list_lookup_total_correct _ _ _ Hp) as <-.
  apply iw_find; [done|by eapply lookup_lt_Some|done].
Qed.

Lemma stored_unique ix k v v' : index_wf ix -> stored ix k v -> stored ix k v' -> v = v'.
Proof.
  intros Hwf [Hl (p & Hp & Hv)] [_ (p' & Hp' & Hv')].
  pose proof (wf_found _ _ _ Hwf Hp Hl). pose proof (wf_found _ _ _ Hwf Hp' Hl).
  congruence.
Qed.

(** What the search finds. *)
Lemma find_slot_rep ix m k :
  index_rep ix m -> k ≠ TOMBSTONE ->
  exists r, find_slot ix k = Some r /\
    match r with
    | Some p => keys ix !! p = Some k /\ live k /\ exists v, m !! k = Some v /\ vals ix !! p = Some v
    | None => m !! k = None
    end.
Proof.
  intros [Hwf Hm] Hk. pose proof (iw_sized _ Hwf) as Hsz.
  rewrite find_slot_probe by done. destruct (find_terminates ix k Hwf) as [p Hp].
  rewrite Hp. simpl. eexists. split; [done|].
  pose proof Hp as Hp'. apply first_key_Some in Hp' as (pre & post & Hps & Hs & _).
  assert (p < length (keys ix))%nat by (apply (probe_lt ix Hsz k); rewrite Hps; apply elem_of_app; right; left).
  case_decide as He.
  - destruct (m !! k) as [v|] eqn:Hmk; [|done]. apply Hm in Hmk as [Hl (q & Hq & _)].
    rewrite (wf_found _ _ _ Hwf Hq Hl) in Hp. injection Hp as ->.
    apply list_lookup_total_correct in Hq. destruct Hl. congruence.
  - destruct Hs as [|Hs]; [done|]. pose proof (key_lookup _ _ _ H Hs).
    assert (live k) by (split; congruence).
    destruct (lookup_lt_is_Some_2 (vals ix) p) as [v Hv]; [by rewrite sz_vals|].
    split_and!; try done. exists v. split; [|done]. apply Hm. split; eauto.
Qed.

(** ** Operations against the map *)

Lemma get_rep ix m k : index_rep ix m -> k ≠ TOMBSTONE -> get ix k = Some (m !! k).
Proof.
  intros Hr Hk. destruct (find_slot_rep _ _ _ Hr Hk) as (r & Hf & Hcase).
  unfold get. rewrite Hf. simpl. destruct r as [p|]; simpl; [|by rewrite Hcase].
  destruct Hcase as (_ & _ & v & -> & Hv). by rewrite (list_lookup_total_correct _ _ _ Hv).
Qed.

(** A table whose slot [p], which held no live key, now holds [k]. *)
Section fill.
Context (ix : IdIndex) (m : gmap Z nat) (k : Z) (v p : nat).
Context (Hr : index_rep ix m) (Hk : live k) (Hfresh : m !! k = None).
Context (Hload : ((used ix + 1) * 4 < length (keys ix) * 3)%nat).
Context (Hp : first_key ix (places k) (probe ix k) = Some p).

Let kk := keys ix !!! p.
Let ix' := mkIndex (<[p := k]> (keys ix)) (<[p := v]> (vals ix)) (wrap 64 (len ix + 1))
  (if kk =? EMPTY then S (used ix) else used ix) (mask ix).

Lemma fill_absent q : keys ix !! q ≠ Some k.
Proof.
  destruct Hr as [Hwf Hm]. intros Hq.
  destruct (lookup_lt_is_Some_2 (vals ix) q) as [w Hw].
  { rewrite sz_vals by apply Hwf. by eapply lookup_lt_Some. }
  assert (m !! k = Some w) by (apply Hm; split; eauto). congruence.
Qed.

Lemma fill_lt : (p < length (keys ix))%nat.
Proof.
  pose proof Hp as Hp'. apply first_key_Some in Hp' as (pre & post & Hps & _).
  apply (probe_lt ix (iw_sized _ (proj1 Hr)) k). rewrite Hps. apply elem_of_app. right. left.
Qed.

Lemma fill_dead : ~ live kk.
Proof.
  pose proof Hp as Hp'. apply first_key_Some in Hp' as (_ & _ & _ & [He|[He|He]] & _);
    intros [H1 H2]; [done|done|].
  by apply (fill_absent p), key_lookup; [apply fill_lt|].
Qed.

Lemma fill_other q : q ≠ p -> keys ix' !!! q = keys ix !!! q.
Proof. intros H. simpl. by rewrite list_lookup_total_insert_ne. Qed.

Lemma fill_here : keys ix' !!! p = k.
Proof. simpl. apply list_lookup_total_insert_eq, fill_lt. Qed.

Lemma fill_find q :
  (q < length (keys ix'))%nat -> live (keys ix' !!! q) ->
  first_key ix' (stops (keys ix' !!! q)) (probe ix' (keys ix' !!! q)) = Some q.
Proof.
  rewrite (probe_same ix ix') by (done || simpl; by rewrite length_insert).
  destruct (decide (q = p)) as [->|Hq].
  - intros _ _. rewrite fill_here. pose proof Hp as Hp'. apply first_key_Some in Hp'.
    destruct Hp' as (pre & post & Hps & _ & Hpre). apply first_key_Some.
    exists pre, post. split_and!; [done|right; apply fill_here|].
    rewrite Forall_forall in Hpre |- *. intros r Hr' Hs.
    pose proof (Hpre r Hr') as Hnr.
    destruct (decide (r = p)) as [->|Hrp].
    + apply Hnr. apply first_key_Some in Hp as (_ & _ & _ & H & _). done.
    + rewrite fill_other in Hs by done. apply Hnr. destruct Hs; [by left|by right; right].
  - rewrite fill_other by done. simpl. rewrite length_insert. intros Hlt Hl.
    apply (first_key_stable ix ix' _ _ q p); try done.
    + by apply (iw_find _ (proj1 Hr)).
    + apply fill_other.
    + rewrite fill_here. intros [?|Heq]; [by destruct Hk|].
      apply (fill_absent q). apply key_lookup; [done|]. by rewrite Heq.
Qed.

Lemma fill_wf : index_wf ix'.
Proof.
  destruct Hr as [Hwf Hm]. pose proof fill_lt as Hlt. pose proof fill_dead as Hd.
  pose proof (list_lookup_lookup_total_lt (keys ix) p Hlt) as Hkp. fold kk in Hkp.
  destruct Hwf as [[Hpow Hv Hmask] Hf Hu Hn Hl].
  split; simpl; rewrite ?length_insert.
  - split; simpl; rewrite ?length_insert; done.
  - intros q Hq. apply fill_find. simpl. by rewrite length_insert.
  - pose proof (filter_insert_count (λ k, k ≠ EMPTY) _ _ k _ Hkp) as HH.
    rewrite (decide_True (P := k ≠ EMPTY)) in HH by apply Hk.
    destruct (Z.eqb_spec kk EMPTY); [rewrite decide_False in HH by tauto|rewrite decide_True in HH by done]; lia.
  - pose proof (filter_insert_count live _ _ k _ Hkp) as HH.
    rewrite decide_False in HH by done. rewrite decide_True in HH by done.
    rewrite Hn, wrap_add_l. f_equal. lia.
  - destruct (kk =? EMPTY); lia.
Qed.

Lemma fill_rep : index_rep ix' (<[k := v]> m).
Proof.
  split; [apply fill_wf|]. destruct Hr as [Hwf Hm]. pose proof fill_lt as Hlt.
  assert (p < length (vals ix))%nat by (rewrite sz_vals; [done|apply Hwf]).
  intros k2 v2. destruct (decide (k2 = k)) as [->|Hne].
  - rewrite lookup_insert_eq. split.
    + intros [= <-]. split; [done|]. exists p. simpl. by rewrite !list_lookup_insert_eq.
    + intros (_ & q & Hq & Hv2). simpl in *. destruct (decide (q = p)) as [->|].
      * by rewrite list_lookup_insert_eq in Hv2.
      * rewrite list_lookup_insert_ne in Hq by done. by destruct (fill_absent q).
  - rewrite lookup_insert_ne by done. rewrite Hm. unfold stored. simpl.
    split; intros [Hl (q & Hq & Hv2)]; (split; [done|]); exists q.
    + assert (q ≠ p).
      { intros ->. apply fill_dead. unfold kk. by rewrite (list_lookup_total_correct _ _ _ Hq). }
      by rewrite !list_lookup_insert_ne.
    + destruct (decide (q = p)) as [->|].
      * rewrite list_lookup_insert_eq in Hq by done. congruence.
      * by rewrite !list_lookup_insert_ne in * by done.
Qed.

End fill.

Lemma insert_no_grow_rep ix m k v :
  index_rep ix m -> live k -> m !! k = None ->
  ((used ix + 1) * 4 < length (keys ix) * 3)%nat ->
  exists ix', insert_no_grow ix k v = Some ix' /\ index_rep ix' (<[k := v]> m) /\
    (used ix' <= used ix + 1)%nat /\ length (keys ix') = length (keys ix).
Proof.
  intros Hr Hk Hf Hl. pose proof (proj1 Hr) as Hwf. pose proof (iw_sized _ Hwf) as Hsz.
  destruct (wf_has_empty _ Hwf) as (q & Hq & He).
  destruct (first_key_ex ix (places k) (probe ix k) q) as [p Hp].
  { by apply probe_all. } { by left. }
  unfold insert_no_grow. rewrite place_probe, Hp by done. simpl.
  pose proof (fill_dead ix m k p Hr Hk Hf Hp) as Hd. unfold live in Hd.
  destruct ((_ =? EMPTY) || _) eqn:E.
  - eexists. split; [done|]. split_and!.
    + by apply fill_rep.
    + simpl. destruct (_ =? _); lia.
    + simpl. by rewrite length_insert.
  - apply orb_false_iff in E as [?%Z.eqb_neq ?%Z.eqb_neq]. tauto.
Qed.

(** ** Growing *)

Definition fresh_table (cap : nat) : IdIndex :=
  mkIndex (replicate cap EMPTY) (replicate cap 0%nat) 0 0 (Z.of_nat cap - 1).

Lemma fresh_table_rep cap : (exists n, cap = 2 ^ n)%nat -> index_rep (fresh_table cap) ∅.
Proof.
  intros [n ->]. pose proof (Nat.pow_nonzero 2 n).
  assert (forall p, (p < 2 ^ n)%nat -> replicate (2 ^ n) EMPTY !!! p = EMPTY) as Hrep
    by (intros; by apply lookup_total_replicate_2).
  split; [split|]; simpl; rewrite ?length_replicate.
  - split; simpl; rewrite ?length_replicate; eauto.
  - intros p Hp. rewrite Hrep by done. by intros [].
  - by rewrite filter_none by (intros g Hg; apply elem_of_replicate in Hg as [-> _]; tauto).
  - by rewrite filter_none by (intros g Hg [H1 H2]; apply elem_of_replicate in Hg as [-> _]; tauto).
  - lia.
  - intros k v. rewrite lookup_empty. split; [done|].
    intros [[Hk _] (p & Hp & _)]. by apply lookup_replicate in Hp as [-> _].
Qed.

Definition live_entries (old : list (Z * nat)) : list (Z * nat) := filter (λ kv, live kv.1) old.

Lemma reinsert_rep old ix m :
  index_rep ix m -> NoDup (live_entries old).*1 ->
  (forall k, k ∈ (live_entries old).*1 -> m !! k = None) ->
  ((used ix + length (live_entries old)) * 4 < length (keys ix) * 3)%nat ->
  exists ix', reinsert ix old = Some ix' /\ index_rep ix' (list_to_map (live_entries old) ∪ m) /\
    (used ix' <= used ix + length (live_entries old))%nat /\ length (keys ix') = length (keys ix).
Proof.
  revert ix m. induction old as [|[k v] old IH]; intros ix m Hr Hnd Hdis Hl; simpl.
  { exists ix. split_and!; [done| |lia|done]. unfold live_entries. simpl. by rewrite (left_id_L ∅ (∪)). }
  unfold live_entries in Hnd, Hdis, Hl |- *. rewrite filter_cons in Hnd, Hdis, Hl |- *. simpl in *.
  assert (negb (k =? EMPTY) && negb (k =? TOMBSTONE) = bool_decide (live k)) as ->.
  { unfold live. destruct (Z.eqb_spec k EMPTY), (Z.eqb_spec k TOMBSTONE); simpl; symmetry;
      (apply bool_decide_true || apply bool_decide_false); tauto. }
  case_decide as Hk.
  - rewrite bool_decide_true by done. simpl in *. apply NoDup_cons in Hnd as [Hni Hnd].
    destruct (insert_no_grow_rep ix m k v) as (ix1 & -> & Hr1 & Hu1 & Hc1);
      [done|done|apply Hdis; by left|lia|]. simpl.
    destruct (IH ix1 (<[k := v]> m)) as (ix2 & -> & Hr2 & Hu2 & Hc2); [done|done| |unfold live_entries; lia|].
    { intros k' Hk'. rewrite lookup_insert_ne by (intros ->; done). apply Hdis. by right. }
    exists ix2. split_and!; [done| |unfold live_entries in *; lia|congruence].
    rewrite <-insert_union_l, insert_union_r; [done|]. by apply not_elem_of_list_to_map_1.
  - rewrite bool_decide_false by done. by apply IH.
Qed.

Lemma stored_entries ix k v :
  length (vals ix) = length (keys ix) ->
  stored ix k v <-> (k, v) ∈ live_entries (zip (keys ix) (vals ix)).
Proof.
  intros Hlen. unfold live_entries. rewrite list_elem_of_filter. unfold stored. simpl.
  f_equiv. rewrite list_elem_of_lookup. f_equiv. intros p.
  rewrite lookup_zip_Some. done.
Qed.

Lemma live_entries_keys ix :
  length (vals ix) = length (keys ix) ->
  (live_entries (zip (keys ix) (vals ix))).*1 = filter live (keys ix).
Proof.
  generalize (vals ix). induction (keys ix) as [|k ks IH]; intros [|v vs] Hlen; try done.
  unfold live_entries in *. simpl. rewrite !filter_cons. simpl.
  case_decide; simpl; rewrite IH by (simpl in Hlen; lia); done.
Qed.

Lemma live_entries_nodup ix : index_wf ix -> NoDup (live_entries (zip (keys ix) (vals ix))).*1.
Proof.
  intros Hwf. rewrite live_entries_keys by apply sz_vals, Hwf.
  apply NoDup_filter_unique. intros i j x Hi Hj Hx.
  pose proof (wf_found _ _ _ Hwf Hi Hx). pose proof (wf_found _ _ _ Hwf Hj Hx). congruence.
Qed.

Lemma rep_entries ix m :
  index_rep ix m -> m = list_to_map (live_entries (zip (keys ix) (vals ix))).
Proof.
  intros [Hwf Hm]. apply map_eq. intros k. apply option_eq. intros v.
  rewrite <-elem_of_list_to_map by (by apply live_entries_nodup).
  by rewrite Hm, stored_entries by apply sz_vals, Hwf.
Qed.

Lemma live_size ix m : index_rep ix m -> length (filter live (keys ix)) = size m.
Proof.
  intros Hr. pose proof (live_entries_nodup ix (proj1 Hr)) as Hnd.
  rewrite <-live_entries_keys by apply sz_vals, Hr. rewrite length_fmap.
  rewrite (rep_entries ix m Hr), <-length_map_to_list, map_to_list_to_map; done.
Qed.

Lemma grow_rep ix m :
  index_rep ix m ->
  exists ix', grow ix = Some ix' /\ index_rep ix' m /\
    ((used ix' + 1) * 4 < length (keys ix') * 3)%nat.
Proof.
  intros [Hwf Hm]. pose proof (iw_sized _ Hwf) as Hsz. pose proof (cap_pos _ Hsz) as Hcap.
  set (old := zip (keys ix) (vals ix)).
  pose proof (live_entries_nodup ix Hwf) as Hnd. fold old in Hnd.
  assert (length (live_entries old) <= used ix)%nat as Hlive.
  { rewrite <-(length_fmap fst). rewrite (iw_used _ Hwf). apply submseteq_length, NoDup_submseteq; [done|].
    intros k (kv & -> & Hkv)%list_elem_of_fmap. destruct kv as [k v]. apply stored_entries in Hkv as (Hl & p & Hp & _);
      [|apply Hsz]. apply list_elem_of_filter. split; [apply Hl|]. by eapply list_elem_of_lookup_2. }
  pose proof (iw_load _ Hwf) as Hload.
  destruct (reinsert_rep old (fresh_table (length (keys ix) * 2)) ∅) as (ix' & He & Hr & Hu & Hc).
  - apply fresh_table_rep. destruct (sz_pow _ Hsz) as [n ->]. exists (S n). simpl. lia.
  - done.
  - intros. apply lookup_empty.
  - simpl. rewrite length_replicate. lia.
  - exists ix'. split; [exact He|]. simpl in Hu, Hc. rewrite length_replicate in Hc.
    split; [|lia]. rewrite (right_id_L ∅ (∪)) in Hr.
    rewrite (rep_entries ix m); [done|by split].
Qed.

Lemma insert_rep ix m k v :
  index_rep ix m -> live k -> m !! k = None ->
  exists ix', insert ix k v = Some ix' /\ index_rep ix' (<[k := v]> m).
Proof.
  intros Hr Hk Hf. unfold insert. case_if.
  - destruct (grow_rep _ _ Hr) as (ix1 & -> & Hr1 & Hl). simpl.
    destruct (insert_no_grow_rep ix1 m k v) as (ix2 & -> & ? & _); eauto.
  - destruct (insert_no_grow_rep ix m k v) as (ix2 & -> & ? & _); eauto with lia.
Qed.

(** A table whose live slot [p] has become a tombstone. *)
Lemma bury_wf ix k p :
  index_wf ix -> keys ix !! p = Some k -> live k ->
  index_wf (mkIndex (<[p := TOMBSTONE]> (keys ix)) (vals ix) (wrap 64 (len ix - 1)) (used ix) (mask ix)).
Proof.
  intros Hwf Hp Hk. pose proof (lookup_lt_Some _ _ _ Hp) as Hlt.
  set (ix' := mkIndex _ _ _ _ _).
  assert (forall q, q ≠ p -> keys ix' !!! q = keys ix !!! q) as Hother
    by (intros; simpl; by rewrite list_lookup_total_insert_ne).
  assert (keys ix' !!! p = TOMBSTONE) as Hhere by (by apply list_lookup_total_insert_eq).
  destruct Hwf as [[Hpow Hv Hmask] Hf Hu Hn Hl].
  split; simpl; rewrite ?length_insert; try done.
  - split; simpl; rewrite ?length_insert; done.
  - intros q Hq. change (<[p:=TOMBSTONE]> (keys ix)) with (keys ix').
    destruct (decide (q = p)) as [->|Hne]; [rewrite Hhere; by intros [_ []]|].
    rewrite Hother by done. intros Hlq.
    rewrite (probe_same ix ix') by (done || simpl; by rewrite length_insert).
    apply (first_key_stable ix ix' _ _ q p); try done.
    + by apply Hf.
    + rewrite Hhere. intros [?|?]; [done|]. by destruct Hlq.
  - pose proof (filter_insert_count (λ k, k ≠ EMPTY) _ _ TOMBSTONE _ Hp) as HH.
    rewrite !decide_True in HH by (done || apply Hk). lia.
  - pose proof (filter_insert_count live _ _ TOMBSTONE _ Hp) as HH.
    rewrite decide_True in HH by done. rewrite decide_False in HH by (by intros [_ []]).
    rewrite Hn, wrap_sub_l. f_equal. lia.
Qed.

Lemma remove_rep ix m k :
  index_rep ix m -> k ≠ TOMBSTONE ->
  exists ix', remove ix k = Some ix' /\ index_rep ix' (delete k m).
Proof.
  intros Hr Hk. destruct (find_slot_rep _ _ _ Hr Hk) as (r & Hf & Hcase). destruct Hr as [Hwf Hm].
  unfold remove. rewrite Hf. simpl. eexists. split; [done|]. destruct r as [p|].
  2: { rewrite delete_id by done. done. }
  destruct Hcase as (Hp & Hl & v & Hmk & Hv). split; [by eapply bury_wf|].
  pose proof (lookup_lt_Some _ _ _ Hp). intros k2 v2. destruct (decide (k2 = k)) as [->|Hne].
  - rewrite lookup_delete_eq. split; [done|]. intros [_ (q & Hq & _)]. simpl in Hq.
    destruct (decide (q = p)) as [->|].
    + rewrite list_lookup_insert_eq in Hq by done. congruence.
    + rewrite list_lookup_insert_ne in Hq by done.
      pose proof (wf_found _ _ _ Hwf Hq Hl). pose proof (wf_found _ _ _ Hwf Hp Hl). congruence.
  - rewrite lookup_delete_ne by done. rewrite Hm. unfold stored. simpl.
    split; intros [Hl2 (q & Hq & Hv2)]; (split; [done|]); exists q.
    + rewrite list_lookup_insert_ne; [done|]. intros ->. congruence.
    + destruct (decide (q = p)) as [->|].
      * rewrite list_lookup_insert_eq in Hq by done. destruct Hl2. congruence.
      * by rewrite list_lookup_insert_ne in Hq.
Qed.

(** ** The interface other components rely on *)

(** An index from object ids to slots; [None] would be a call that does not
    return. *)
Class IndexOps (T : Type) := {
  ix_new : T;
  ix_get : T -> Z -> option (option nat);
  ix_insert : T -> Z -> nat -> option T;
  ix_remove : T -> Z -> option T;
}.

(** What it promises: it behaves as a finite map on live keys, fresh at insertion. *)
Class IndexLaws (T : Type) `{IndexOps T} := {
  ix_rep : T -> gmap Z nat -> Prop;
  ix_new_ok : ix_rep ix_new ∅;
  ix_get_ok t m k : ix_rep t m -> k ≠ TOMBSTONE -> ix_get t k = Some (m !! k);
  ix_insert_ok t m k v : ix_rep t m -> live k -> m !! k = None ->
    exists t', ix_insert t k v = Some t' /\ ix_rep t' (<[k := v]> m);
  ix_remove_ok t m k : ix_rep t m -> k ≠ TOMBSTONE ->
    exists t', ix_remove t k = Some t' /\ ix_rep t' (delete k m);
}.

#[global] Instance id_index_ops : IndexOps IdIndex := {|
  ix_new := index_new; ix_get := get; ix_insert := insert; ix_remove := remove;
|}.

#[global] Instance id_index_laws : IndexLaws IdIndex.
Proof.
  refine {| ix_rep := index_rep |}.
  - apply (fresh_table_rep 16). by exists 4%nat.
  - apply get_rep.
  - apply insert_rep.
  - apply remove_rep.
Defined.

(** ** Whole runs *)

Inductive index_op :=
  | OpInsert (k : Z) (v : nat)
  | OpRemove (k : Z)
  | OpGet (k : Z).

(** A run of the table, with the results of its lookups. *)
Fixpoint run_index (ix : IdIndex) (ops : list index_op) : option (IdIndex * list (option nat)) :=
  match ops with
  | [] => Some (ix, [])
  | OpInsert k v :: ops => ix ← insert ix k v; run_index ix ops
  | OpRemove k :: ops => ix ← remove ix k; run_index ix ops
  | OpGet k :: ops =>
      r ← get ix k;
      '(ix, rs) ← run_index ix ops;
      Some (ix, r :: rs)
  end.

(** The same run on a finite map. *)
Fixpoint run_map (m : gmap Z nat) (ops : list index_op) : gmap Z nat * list (option nat) :=
  match ops with
  | [] => (m, [])
  | OpInsert k v :: ops => run_map (<[k := v]> m) ops
  | OpRemove k :: ops => run_map (delete k m) ops
  | OpGet k :: ops => let '(m', rs) := run_map m ops in (m', (m !! k) :: rs)
  end.

(** Keys are ids ([1 .. u64::MAX - 1]) and an id is inserted when it is not present. *)
Fixpoint ids_ok (m : gmap Z nat) (ops : list index_op) : Prop :=
  match ops with
  | [] => True
  | OpInsert k v :: ops => live k /\ m !! k = None /\ ids_ok (<[k := v]> m) ops
  | OpRemove k :: ops => k ≠ TOMBSTONE /\ ids_ok (delete k m) ops
  | OpGet k :: ops => k ≠ TOMBSTONE /\ ids_ok m ops
  end.

Lemma run_index_rep ops ix m :
  index_rep ix m -> ids_ok m ops ->
  exists ix', run_index ix ops = Some (ix', (run_map m ops).2) /\
    index_rep ix' (run_map m ops).1.
Proof.
  revert ix m. induction ops as [|[k v|k|k] ops IH]; intros ix m Hr Hok; simpl in *.
  - eauto.
  - destruct Hok as (Hk & Hf & Hok). destruct (insert_rep ix m k v) as (ix' & -> & Hr'); eauto.
  - destruct Hok as (Hk & Hok). destruct (remove_rep ix m k) as (ix' & -> & Hr'); eauto.
  - destruct Hok as (Hk & Hok). rewrite (get_rep _ _ _ Hr Hk). simpl.
    destruct (IH ix m) as (ix' & -> & Hr'); [done|done|]. simpl.
    destruct (run_map m ops) as [m' rs]. eauto.
Qed.

(** C32. Over every sequence of operations that inserts fresh ids the hash table
    gives the lookups of a finite map, no probe loop runs for ever, and the
    table stays well formed below three quarters load with [len] counting the
    entries of the map. *)
Theorem index_refines_map (ops : list index_op) :
  ids_ok ∅ ops ->
  exists ix, run_index index_new ops = Some (ix, (run_map ∅ ops).2) /\
    index_wf ix /\ len ix = wrap 64 (Z.of_nat (size (run_map ∅ ops).1)) /\
    forall k, k ≠ TOMBSTONE -> get ix k = Some ((run_map ∅ ops).1 !! k).
Proof.
  intros Hok. destruct (run_index_rep ops index_new ∅) as (ix & Hrun & Hr).
  { apply (fresh_table_rep 16). by exists 4%nat. } { done. }
  exists ix. split_and!; [done|apply Hr| |].
  - rewrite (iw_len _ (proj1 Hr)). do 2 f_equal. by apply live_size.
  - intros k Hk. by apply get_rep.
Qed.

(** Inserting a key that is already stored behind a tombstone does not
    update it: the new entry takes the tombstone, [len] counts the key twice, and
    removing the key brings the old value back. *)
Theorem insert_behind_tombstone_duplicates :
  exists ix,
    (ix0 ← insert index_new 2 10; ix1 ← insert ix0 7 20; ix2 ← remove ix1 2; insert ix2 7 30)
      = Some ix /\
    len ix = 2 /\ get ix 7 = Some (Some 30%nat) /\
    (ix' ← remove ix 7; get ix' 7) = Some (Some 20%nat).
Proof. eexists. split; [vm_compute; reflexivity|]. vm_compute. done. Qed.

Lemma index_refines_map_witness :
  exists ix, run_index index_new [OpInsert 2 10; OpInsert 7 20; OpRemove 2; OpGet 7; OpGet 2] =
    Some (ix, [Some 20%nat; None]) /\ index_wf ix.
Proof.
  destruct (index_refines_map [OpInsert 2 10; OpInsert 7 20; OpRemove 2; OpGet 7; OpGet 2])
    as (ix & Hrun & Hwf & _).
  - vm_compute. repeat split; discriminate.
  - exists ix. split; [exact Hrun|exact Hwf].
Defined.
