(* ===== verification/Namespace.v ===== *)
(** * Namespace.v: the Object Manager namespace ([object/namespace/])

    A tree of directories, each with three ordered maps keyed by a 24-byte
    case-folded name: objects, sub-directories and symbolic links.  A walk along
    [child_dirs.get_mut] with an update at its end is [modify_at]; the
    one-component branches of the source repeat the general code on the root and
    are the empty walk here.  Every operation runs under the namespace mutex and
    is one function of the tree. *)

From Stdlib Require String.
From S2P Require Import Prelude Str BTreeMap.
Open Scope Z_scope.

Definition MAX_NAME_LEN : nat := 24.
Definition MAX_PATH_LEN : nat := 255.
Definition MAX_SYMLINK_HOPS : nat := 10.
Definition BACKSLASH : Z := 92.

Inductive NsError :=
  | OB_INVALID_PATH | OB_PATH_TOO_LONG | OB_NAME_TOO_LONG | OB_NOT_FOUND
  | OB_ALREADY_EXISTS | OB_SAME_NAME | OB_SYMLINK_LOOP | OB_PROTECTED
  | OB_SYMLINK_INVALID_TARGET | OB_CANNOT_RENAME_ROOT.

(** ** Names and paths ([path.rs]) *)

(** The first 23 bytes in lower case, padded with zeros to 24. *)
Definition name_to_key (name : str) : str :=
  let len := Nat.min (length name) (MAX_NAME_LEN - 1) in
  (to_ascii_lowercase <$> take len name) ++ replicate (MAX_NAME_LEN - len) 0.

Definition key_to_str (key : str) : str :=
  from_utf8_or (take (zlen key MAX_NAME_LEN) key) (bytes_of "<?>").

(** The loop over the components of [normalize_path]. *)
Fixpoint normalize_parts (out : list str) (parts : list str) : list str :=
  match parts with
  | [] => out
  | part :: parts =>
      if decide (part = []) then normalize_parts out parts
      else if decide (part = bytes_of ".") then normalize_parts out parts
      else if decide (part = bytes_of "..") then normalize_parts (removelast out) parts
      else normalize_parts (out ++ [part]) parts
  end.

Definition has_drive (path : str) : bool :=
  (2 <=? length path)%nat && (path !!! 1%nat =? 58).

Definition normalize_path (path : str) : str :=
  if decide (path = []) then [BACKSLASH]
  else
    let drive := has_drive path in
    let path_body := if drive then drop 2 path else path in
    let trimmed := trim_start_matches BACKSLASH path_body in
    if decide (trimmed = []) then [BACKSLASH]
    else
      let out_parts := normalize_parts [] (split BACKSLASH trimmed) in
      if drive
      then BACKSLASH :: to_ascii_uppercase (path !!! 0%nat) :: 58 :: prefixed BACKSLASH out_parts
      else BACKSLASH :: join BACKSLASH out_parts.

(** ** The tree ([types.rs]) *)

Record SymlinkEntry := mkSymlink {
  sl_name : str;
  sl_target : str;
}.

Definition symlink_new (name target : str) : SymlinkEntry :=
  let tlen := Nat.min (length target) 254 in
  mkSymlink (name_to_key name) (take tlen target ++ replicate (255 - tlen) 0).

Definition target_str (s : SymlinkEntry) : str :=
  from_utf8_or (take (zlen (sl_target s) 254) (sl_target s)) (bytes_of "<?>").

#[warnings="-register-all"]
Inductive DirectoryObject := mkDir {
  dir_name : str;
  children : list (str * Z);
  child_dirs : list (str * DirectoryObject);
  symlinks : list (str * SymlinkEntry);
  protected : bool;
  creator : option Z;
}.

Definition dir_new (name : str) : DirectoryObject := mkDir (name_to_key name) [] [] [] false None.

Definition set_children (d : DirectoryObject) c :=
  mkDir (dir_name d) c (child_dirs d) (symlinks d) (protected d) (creator d).
Definition set_child_dirs (d : DirectoryObject) c :=
  mkDir (dir_name d) (children d) c (symlinks d) (protected d) (creator d).
Definition set_symlinks (d : DirectoryObject) c :=
  mkDir (dir_name d) (children d) (child_dirs d) c (protected d) (creator d).
Definition set_dir_protected (d : DirectoryObject) b :=
  mkDir (dir_name d) (children d) (child_dirs d) (symlinks d) b (creator d).
Definition set_dir_name (d : DirectoryObject) n :=
  mkDir n (children d) (child_dirs d) (symlinks d) (protected d) (creator d).

(** [ObNamespace]: its root directory. *)
Definition namespace_new : DirectoryObject := dir_new [BACKSLASH].

(** ** Walking *)

Fixpoint check_components (cs : list str) : result NsError () :=
  match cs with
  | [] => Ok ()
  | c :: cs =>
      if decide (c = []) then Err OB_INVALID_PATH
      else if (MAX_NAME_LEN <? length c)%nat then Err OB_NAME_TOO_LONG
      else check_components cs
  end.

Definition parse_path (path : str) : result NsError (list str) :=
  if negb (starts_with BACKSLASH path) then Err OB_INVALID_PATH
  else if (MAX_PATH_LEN <? length path)%nat then Err OB_PATH_TOO_LONG
  else
    let trimmed := trim_end_matches BACKSLASH path in
    if (length trimmed <=? 1)%nat then Ok []
    else
      let components := split BACKSLASH (drop 1 trimmed) in
      _ ← check_components components; Ok components.

Fixpoint descend (dir : DirectoryObject) (keys : list str) : option DirectoryObject :=
  match keys with
  | [] => Some dir
  | k :: keys => sub ← bt_get (child_dirs dir) k; descend sub keys
  end.

(** Follow [child_dirs.get_mut] along [keys], then run [f] on the directory. *)
Fixpoint modify_at {A} (dir : DirectoryObject) (keys : list str)
    (f : DirectoryObject -> result NsError A * DirectoryObject)
    : result NsError A * DirectoryObject :=
  match keys with
  | [] => f dir
  | k :: keys =>
      match bt_get (child_dirs dir) k with
      | None => (Err OB_NOT_FOUND, dir)
      | Some sub =>
          let '(r, sub') := modify_at sub keys f in
          (r, set_child_dirs dir (bt_insert (child_dirs dir) k sub'))
      end
  end.

Definition to_keys (cs : list str) : list str := name_to_key <$> cs.

(** The parent components and the last one. *)
Definition split_last (cs : list str) : option (list str * str) :=
  c ← last cs; Some (removelast cs, c).

(** ** Lookup ([query.rs]) *)

Definition is_directory (ns : DirectoryObject) (path : str) : bool :=
  match parse_path path with
  | Err _ => false
  | Ok cs => match descend ns (to_keys cs) with Some _ => true | None => false end
  end.

(** One walk of [resolve_symlink_internal]: the object, or the path to go on with. *)
Fixpoint resolve_walk (current : DirectoryObject) (before comps : list str)
    : result NsError (Z + str) :=
  match comps with
  | [] => Err OB_NOT_FOUND
  | c :: rest =>
      let key := name_to_key c in
      match rest with
      | [] =>
          match bt_get (children current) key with
          | Some obj_id => Ok (inl obj_id)
          | None =>
              match bt_get (symlinks current) key with
              | Some symlink =>
                  let target := target_str symlink in
                  if starts_with BACKSLASH target then Ok (inr target)
                  else
                    let parent_path := prefixed BACKSLASH before in
                    Ok (inr (if (length parent_path <=? 1)%nat then BACKSLASH :: target
                             else parent_path ++ BACKSLASH :: target))
              | None => Err OB_NOT_FOUND
              end
          end
      | _ :: _ =>
          match bt_get (child_dirs current) key with
          | Some subdir => resolve_walk subdir (before ++ [c]) rest
          | None =>
              match bt_get (symlinks current) key with
              | Some symlink =>
                  let rest_path := target_str symlink ++ prefixed BACKSLASH rest in
                  Ok (inr (if starts_with BACKSLASH rest_path then rest_path
                           else BACKSLASH :: rest_path))
              | None => Err OB_NOT_FOUND
              end
          end
      end
  end.

(** [resolve_symlink_internal] with [hops] turns left, [MAX_SYMLINK_HOPS + 1 - depth]. *)
Fixpoint resolve_symlink_internal (ns : DirectoryObject) (path : str) (hops : nat)
    : result NsError Z :=
  match hops with
  | O => Err OB_SYMLINK_LOOP
  | S hops =>
      components ← parse_path path;
      if decide (components = []) then Err OB_NOT_FOUND
      else
        r ← resolve_walk ns [] components;
        match r with
        | inl obj_id => Ok obj_id
        | inr path' => resolve_symlink_internal ns path' hops
        end
  end.

Definition lookup_path (ns : DirectoryObject) (path : str) : result NsError Z :=
  resolve_symlink_internal ns path (S MAX_SYMLINK_HOPS).

Definition lookup_path_no_follow (ns : DirectoryObject) (path : str) : result NsError Z :=
  components ← parse_path path;
  match split_last components with
  | None => Err OB_NOT_FOUND
  | Some (parents, c) =>
      d ← ok_or (descend ns (to_keys parents)) OB_NOT_FOUND;
      ok_or (bt_get (children d) (name_to_key c)) OB_NOT_FOUND
  end.

Definition lookup_symlink (ns : DirectoryObject) (path : str) : result NsError SymlinkEntry :=
  components ← parse_path path;
  match split_last components with
  | None => Err OB_NOT_FOUND
  | Some (parents, c) =>
      d ← ok_or (descend ns (to_keys parents)) OB_NOT_FOUND;
      ok_or (bt_get (symlinks d) (name_to_key c)) OB_NOT_FOUND
  end.

Definition lookup_by_path (ns : DirectoryObject) (path : str) : result NsError Z :=
  let normalized := normalize_path path in
  components ← parse_path normalized;
  if decide (components = []) then Err OB_NOT_FOUND
  else resolve_symlink_internal ns normalized (S MAX_SYMLINK_HOPS).

Record NamespaceEntry := mkNsEntry {
  ne_name : str;
  ne_type : Z;
  ne_id : Z;
}.

Definition entry_name (s : str) : str :=
  let len := Nat.min (length s) 31 in take len s ++ replicate (32 - len) 0.

(** [enumerate]; [obj_type] is the type code of an object of the table. *)
Definition enumerate (obj_type : Z -> option Z) (ns : DirectoryObject) (path : str)
    : result NsError (list NamespaceEntry) :=
  components ← parse_path path;
  dir ← ok_or (descend ns (to_keys components)) OB_NOT_FOUND;
  Ok (((λ kd, mkNsEntry (entry_name (key_to_str (dir_name kd.2))) 11 0) <$> child_dirs dir) ++
      ((λ kv, mkNsEntry (entry_name (key_to_str kv.1)) (default 0 (obj_type kv.2)) kv.2) <$> children dir)).

Fixpoint count_dirs (dir : DirectoryObject) : nat :=
  match dir with
  | mkDir _ _ subs _ _ _ =>
      S ((fix go l := match l with [] => 0 | (_, d) :: l => count_dirs d + go l end)%nat subs)
  end.

Fixpoint count_objects (dir : DirectoryObject) : nat :=
  match dir with
  | mkDir _ objs subs _ _ _ =>
      (length objs +
       (fix go l := match l with [] => 0 | (_, d) :: l => count_objects d + go l end) subs)%nat
  end.

Fixpoint count_symlinks (dir : DirectoryObject) : nat :=
  match dir with
  | mkDir _ _ subs links _ _ =>
      (length links +
       (fix go l := match l with [] => 0 | (_, d) :: l => count_symlinks d + go l end) subs)%nat
  end.

(** The first child of a directory with the id. *)
Fixpoint find_child (l : list (str * Z)) (target_id : Z) : option str :=
  match l with
  | [] => None
  | (key, id) :: l => if id =? target_id then Some key else find_child l target_id
  end.

(** [search]: an empty prefix gives the same text as a non-empty one. *)
Fixpoint search_id (dir : DirectoryObject) (prefix : str) (target_id : Z) : option str :=
  match dir with
  | mkDir _ objs subs _ _ _ =>
      match find_child objs target_id with
      | Some key => Some (prefix ++ BACKSLASH :: key_to_str key)
      | None =>
          (fix go (l : list (str * DirectoryObject)) : option str :=
             match l with
             | [] => None
             | (key, subdir) :: l =>
                 match search_id subdir (prefix ++ BACKSLASH :: key_to_str key) target_id with
                 | Some path => Some path
                 | None => go l
                 end
             end) subs
      end
  end.

Definition find_path_by_id (ns : DirectoryObject) (target_id : Z) : option str :=
  search_id ns [] target_id.

(** ** Update ([mutate.rs]) *)

Fixpoint create_dir_internal (dir : DirectoryObject) (name : str) (rest : list str)
    : result NsError () * DirectoryObject :=
  let key := name_to_key name in
  match rest with
  | [] =>
      if bt_mem (child_dirs dir) key then (Err OB_ALREADY_EXISTS, dir)
      else if bt_mem (symlinks dir) key then (Err OB_ALREADY_EXISTS, dir)
      else (Ok (), set_child_dirs dir (bt_insert (child_dirs dir) key (dir_new name)))
  | name' :: rest' =>
      let sub := default (dir_new name) (bt_get (child_dirs dir) key) in
      let '(r, sub') := create_dir_internal sub name' rest' in
      (r, set_child_dirs dir (bt_insert (child_dirs dir) key sub'))
  end.

Definition create_directory (ns : DirectoryObject) (path : str) : result NsError () * DirectoryObject :=
  match parse_path path with
  | Err e => (Err e, ns)
  | Ok [] =>
      if bt_mem (children ns) (name_to_key [BACKSLASH]) then (Ok (), ns) else (Err OB_NOT_FOUND, ns)
  | Ok ((name :: rest) as components) =>
      match descend ns (to_keys (removelast components)) with
      | None => (Err OB_NOT_FOUND, ns)
      | Some _ => create_dir_internal ns name rest
      end
  end.

Definition set_protected (ns : DirectoryObject) (path : str) (b : bool)
    : result NsError () * DirectoryObject :=
  match parse_path path with
  | Err e => (Err e, ns)
  | Ok components => modify_at ns (to_keys components) (λ d, (Ok (), set_dir_protected d b))
  end.

(** Parse [path], walk to the parent of its last component and update there. *)
Definition at_parent {A} (ns : DirectoryObject) (path : str) (on_root : NsError)
    (f : str -> DirectoryObject -> result NsError A * DirectoryObject)
    : result NsError A * DirectoryObject :=
  match parse_path path with
  | Err e => (Err e, ns)
  | Ok components =>
      match split_last components with
      | None => (Err on_root, ns)
      | Some (parents, c) => modify_at ns (to_keys parents) (f c)
      end
  end.

Definition insert_object (ns : DirectoryObject) (path : str) (obj_id : Z)
    : result NsError () * DirectoryObject :=
  at_parent ns path OB_INVALID_PATH (λ obj_name current,
    let key := name_to_key obj_name in
    if bt_mem (children current) key then (Err OB_ALREADY_EXISTS, current)
    else if bt_mem (symlinks current) key then (Err OB_ALREADY_EXISTS, current)
    else (Ok (), set_children current (bt_insert (children current) key obj_id))).

Definition insert_symlink (ns : DirectoryObject) (path target : str)
    : result NsError () * DirectoryObject :=
  match parse_path path with
  | Err e => (Err e, ns)
  | Ok [] => (Err OB_INVALID_PATH, ns)
  | Ok _ =>
      if bool_decide (target = []) || (254 <? length target)%nat then (Err OB_SYMLINK_INVALID_TARGET, ns)
      else at_parent ns path OB_INVALID_PATH (λ sl_name current,
        let key := name_to_key sl_name in
        if bt_mem (children current) key then (Err OB_ALREADY_EXISTS, current)
        else if bt_mem (child_dirs current) key then (Err OB_ALREADY_EXISTS, current)
        else if bt_mem (symlinks current) key then (Err OB_ALREADY_EXISTS, current)
        else (Ok (), set_symlinks current (bt_insert (symlinks current) key (symlink_new sl_name target))))
  end.

Definition remove_object (ns : DirectoryObject) (path : str) : result NsError Z * DirectoryObject :=
  at_parent ns path OB_INVALID_PATH (λ obj_name current,
    let key := name_to_key obj_name in
    match bt_get (children current) key with
    | Some id => (Ok id, set_children current (bt_remove (children current) key))
    | None => (Err OB_NOT_FOUND, current)
    end).

Definition remove_symlink (ns : DirectoryObject) (path : str)
    : result NsError SymlinkEntry * DirectoryObject :=
  at_parent ns path OB_INVALID_PATH (λ sl_name current,
    let key := name_to_key sl_name in
    match bt_get (symlinks current) key with
    | Some s => (Ok s, set_symlinks current (bt_remove (symlinks current) key))
    | None => (Err OB_NOT_FOUND, current)
    end).

Definition rename_directory (ns : DirectoryObject) (old_path new_name : str)
    : result NsError () * DirectoryObject :=
  match parse_path old_path with
  | Err e => (Err e, ns)
  | Ok components =>
      match split_last components with
      | None => (Err OB_CANNOT_RENAME_ROOT, ns)
      | Some (parents, old_name) =>
          let old_key := name_to_key old_name in
          let new_key := name_to_key new_name in
          if decide (new_key = old_key) then (Err OB_SAME_NAME, ns)
          else modify_at ns (to_keys parents) (λ current,
            match bt_get (child_dirs current) old_key with
            | Some dir =>
                let rest := bt_remove (child_dirs current) old_key in
                if bt_mem rest new_key || bt_mem (symlinks current) new_key
                then (Err OB_ALREADY_EXISTS, set_child_dirs current (bt_insert rest old_key dir))
                else (Ok (), set_child_dirs current (bt_insert rest new_key (set_dir_name dir new_key)))
            | None => (Err OB_NOT_FOUND, current)
            end)
      end
  end.

(** ** Entry points ([namespace/mod.rs]) *)

(** The loop of [ob_create_directory_tree]: errors are dropped. *)
Fixpoint create_tree_loop (ns : DirectoryObject) (p : str) (comps : list str) : DirectoryObject :=
  match comps with
  | [] => ns
  | comp :: comps =>
      let p := p ++ BACKSLASH :: comp in
      create_tree_loop (create_directory ns p).2 p comps
  end.

Definition ob_create_directory_tree (ns : DirectoryObject) (path : str) : DirectoryObject :=
  if (length path <=? 1)%nat then ns
  else
    let body := trim_start_matches BACKSLASH path in
    if decide (body = []) then ns
    else
      let parts := split BACKSLASH body in
      if (length parts <=? 1)%nat then ns
      else create_tree_loop ns [] (removelast parts).

Definition ob_remove_by_id (ns : DirectoryObject) (id : Z) : option str * DirectoryObject :=
  match find_path_by_id ns id with
  | None => (None, ns)
  | Some path => (Some path, (remove_object ns path).2)
  end.

Definition ob_is_path_protected (ns : DirectoryObject) (path : str) : bool :=
  match parse_path path with
  | Err _ => false
  | Ok components =>
      match descend ns (to_keys components) with Some d => protected d | None => false end
  end.

(** The guard of the three [_checked] entry points. *)
Definition checked {A} (ns : DirectoryObject) (path : str)
    (op : result NsError A * DirectoryObject) : result NsError A * DirectoryObject :=
  match parse_path path with
  | Err _ => (Err OB_INVALID_PATH, ns)
  | Ok components =>
      if (1 <? length components)%nat then
        match descend ns (to_keys (removelast components)) with
        | None => (Err OB_NOT_FOUND, ns)
        | Some current => if protected current then (Err OB_PROTECTED, ns) else op
        end
      else op
  end.

Definition ob_insert_object_checked (ns : DirectoryObject) (path : str) (obj_id : Z) :=
  checked ns path (insert_object ns path obj_id).
Definition ob_create_directory_checked (ns : DirectoryObject) (path : str) :=
  checked ns path (create_directory ns path).
Definition ob_insert_symlink_checked (ns : DirectoryObject) (path target : str) :=
  checked ns path (insert_symlink ns path target).

(** The constructors of [ObType], with the codes of [object/types.rs]. *)
Inductive ObType :=
  | TUnknown | TProcess | TDriver | TDevice | TPipe | TEventBus | TBlockDevice | TFilesystem
  | TMemoryRegion | TSymlink | TMountPoint | TDirectory | TKey | TEvent | TSemaphore | TTimer
  | TThread | TSection | TSocket | TSession | TService | TPowerManager | TKeyboardDevice.

#[global] Instance ObType_eq_dec : EqDecision ObType.
Proof. solve_decision. Defined.

Definition obj_type_to_auto_path (t : ObType) (name : str) : str :=
  (match t with
   | TProcess => bytes_of "\Ob\Process\"
   | TDriver => bytes_of "\Driver\"
   | TPipe => bytes_of "\Ob\Pipe\"
   | TDevice => bytes_of "\Device\"
   | TBlockDevice => bytes_of "\Device\"
   | TEventBus => bytes_of "\Global\EventBus\"
   | TFilesystem => bytes_of "\FileSystem\"
   | TMemoryRegion => bytes_of "\Ob\Memory\"
   | TSymlink => bytes_of "\Ob\Symlink\"
   | TMountPoint => bytes_of "\Global\Mount\"
   | TDirectory => bytes_of "\Ob\Dir\"
   | TSocket => bytes_of "\Ob\Socket\"
   | _ => bytes_of "\Ob\Unknown\"
   end) ++ name.

Definition ob_insert_object_auto (ns : DirectoryObject) (t : ObType) (name : str) (obj_id : Z)
    : result NsError () * DirectoryObject :=
  let path := obj_type_to_auto_path t name in
  let ns := match parse_path path with
            | Ok components =>
                match removelast components with
                | first :: rest => (create_dir_internal ns first rest).2
                | [] => ns
                end
            | Err _ => ns
            end in
  insert_object ns path obj_id.

Definition ob_remove_object_auto (ns : DirectoryObject) (t : ObType) (name : str) : DirectoryObject :=
  (remove_object ns (obj_type_to_auto_path t name)).2.

Definition root_dirs : list str :=
  [bytes_of "Device"; bytes_of "DosDevices"; bytes_of "Global"; bytes_of "Driver";
   bytes_of "FileSystem"; bytes_of "Ob"; bytes_of "Registry"; bytes_of "System"; bytes_of "Process"].

(** The tree [init_object_namespace] builds; [root_id] is the id of its [\] object. *)
Definition init_object_namespace (ns : DirectoryObject) (root_id : Z) : DirectoryObject :=
  let ns := foldl (λ ns dir, (create_directory ns (BACKSLASH :: dir)).2) ns root_dirs in
  let ns := (create_directory ns (bytes_of "\Global\FileSystem")).2 in
  let ns := foldl (λ ns dir, (set_protected ns (BACKSLASH :: dir) true).2) ns root_dirs in
  if root_id =? 0 then ns else (insert_object ns [BACKSLASH] root_id).2.

(** ** Ordered trees *)

Inductive ns_sorted : DirectoryObject -> Prop :=
  | ns_sorted_dir d :
      bt_sorted (children d) -> bt_sorted (child_dirs d) -> bt_sorted (symlinks d) ->
      (forall k sub, (k, sub) ∈ child_dirs d -> ns_sorted sub) -> ns_sorted d.

(** What the tree holds at a key path. *)
Definition obj_at (ns : DirectoryObject) (ks : list str) (k : str) : option Z :=
  d ← descend ns ks; bt_get (children d) k.
Definition link_at (ns : DirectoryObject) (ks : list str) (k : str) : option SymlinkEntry :=
  d ← descend ns ks; bt_get (symlinks d) k.

Lemma ns_sorted_sub d k sub : ns_sorted d -> bt_get (child_dirs d) k = Some sub -> ns_sorted sub.
Proof. intros [? _ _ _ Hsub] Hg. apply (Hsub k). by apply bt_get_elem. Qed.

Lemma descend_app ns ks ks' : descend ns (ks ++ ks') = (d ← descend ns ks; descend d ks').
Proof.
  revert ns. induction ks as [|k ks IH]; intros ns; simpl; [done|].
  destruct (bt_get (child_dirs ns) k); simpl; auto.
Qed.

Lemma descend_sorted ns ks d : ns_sorted ns -> descend ns ks = Some d -> ns_sorted d.
Proof.
  revert ns. induction ks as [|k ks IH]; intros ns Hs; simpl; [by intros [= ->]|].
  destruct (bt_get (child_dirs ns) k) as [sub|] eqn:E; simpl; [|done].
  apply IH. by eapply ns_sorted_sub.
Qed.

Lemma ns_sorted_set_child ns k sub :
  ns_sorted ns -> ns_sorted sub -> ns_sorted (set_child_dirs ns (bt_insert (child_dirs ns) k sub)).
Proof.
  intros [? H1 H2 H3 H4] Hs. constructor; simpl; auto with btree.
  intros k' sub' [[= -> ->]|Hin]%bt_insert_elem; eauto.
Qed.

Section modify.
Context {A : Type} (f : DirectoryObject -> result NsError A * DirectoryObject).

Lemma modify_at_result ns ks :
  (modify_at ns ks f).1 = match descend ns ks with Some d => (f d).1 | None => Err OB_NOT_FOUND end.
Proof.
  revert ns. induction ks as [|k ks IH]; intros ns; simpl; [done|].
  destruct (bt_get (child_dirs ns) k) as [sub|]; simpl; [|done].
  rewrite <-IH. by destruct (modify_at sub ks f).
Qed.

Lemma modify_at_descend ns ks d :
  descend ns ks = Some d -> descend (modify_at ns ks f).2 ks = Some (f d).2.
Proof.
  revert ns. induction ks as [|k ks IH]; intros ns; simpl; [by intros [= ->]|].
  destruct (bt_get (child_dirs ns) k) as [sub|]; simpl; [|done]. intros Hd.
  specialize (IH sub Hd). destruct (modify_at sub ks f) as [r sub']. simpl in *.
  by rewrite bt_get_insert_eq.
Qed.

(** An update that leaves the directory alone leaves the tree alone. *)
Lemma modify_at_same ns ks :
  ns_sorted ns -> (forall d, descend ns ks = Some d -> (f d).2 = d) -> (modify_at ns ks f).2 = ns.
Proof.
  revert ns. induction ks as [|k ks IH]; intros ns Hs Hf; simpl in *; [auto|].
  destruct (bt_get (child_dirs ns) k) as [sub|] eqn:E; simpl in *; [|done].
  specialize (IH sub (ns_sorted_sub _ _ _ Hs E) Hf). destruct (modify_at sub ks f) as [r sub'].
  simpl in *. subst. destruct Hs as [? _ Hc _ _]. rewrite bt_insert_id by done. by destruct d.
Qed.

Lemma modify_at_sorted ns ks :
  ns_sorted ns -> (forall d, ns_sorted d -> ns_sorted (f d).2) -> ns_sorted (modify_at ns ks f).2.
Proof.
  intros Hs Hf. revert ns Hs. induction ks as [|k ks IH]; intros ns Hs; simpl; [auto|].
  destruct (bt_get (child_dirs ns) k) as [sub|] eqn:E; simpl; [|done].
  specialize (IH sub (ns_sorted_sub _ _ _ Hs E)). destruct (modify_at sub ks f) as [r sub'].
  by apply ns_sorted_set_child.
Qed.

(** Other directories keep every part [g] that is not the list of sub-directories,
    if the update keeps that list. *)
Lemma modify_at_frame {B} (g : DirectoryObject -> B) ns ks qs :
  (forall d c, g (set_child_dirs d c) = g d) ->
  (forall d, descend ns ks = Some d -> child_dirs (f d).2 = child_dirs d) ->
  qs ≠ ks -> g <$> descend (modify_at ns ks f).2 qs = g <$> descend ns qs.
Proof.
  intros Hg. revert ns qs. induction ks as [|k ks IH]; intros ns qs Hf Hne; simpl in *.
  - destruct qs as [|q qs]; [done|]. simpl. by rewrite Hf.
  - destruct (bt_get (child_dirs ns) k) as [sub|] eqn:E; [|done].
    destruct (modify_at sub ks f) as [r sub'] eqn:Em. simpl.
    destruct qs as [|q qs]; simpl; [by rewrite Hg|].
    destruct (decide (k = q)) as [->|Hkq].
    + rewrite bt_get_insert_eq, E. simpl.
      specialize (IH sub qs Hf). rewrite Em in IH. apply IH. congruence.
    + by rewrite bt_get_insert_ne.
Qed.

End modify.

Lemma modify_at_modify_at {A B} (f : DirectoryObject -> result NsError A * DirectoryObject)
    (h : DirectoryObject -> result NsError B * DirectoryObject) ns ks d :
  descend ns ks = Some d ->
  modify_at (modify_at ns ks f).2 ks h = modify_at ns ks (λ d, h (f d).2).
Proof.
  revert ns. induction ks as [|k ks IH]; intros ns; simpl; [done|].
  destruct (bt_get (child_dirs ns) k) as [sub|] eqn:E; simpl; [|done]. intros Hd.
  specialize (IH sub Hd). destruct (modify_at sub ks f) as [r sub'] eqn:Em. simpl in *.
  rewrite bt_get_insert_eq. rewrite IH.
  destruct (modify_at sub ks (λ d, h (f d).2)) as [r2 sub2]. f_equal.
  unfold set_child_dirs. simpl. by rewrite bt_insert_insert.
Qed.

(** ** Lookup against the tree *)

Lemma split_last_snoc ps c : split_last (ps ++ [c]) = Some (ps, c).
Proof. unfold split_last. by rewrite last_snoc, removelast_last. Qed.

Lemma split_last_Some cs ps c : split_last cs = Some (ps, c) -> cs = ps ++ [c].
Proof.
  destruct cs as [|x cs] using rev_ind; [done|]. rewrite split_last_snoc. by intros [= -> ->].
Qed.

Lemma lookup_no_follow_obj ns path ps c :
  parse_path path = Ok (ps ++ [c]) ->
  lookup_path_no_follow ns path = ok_or (obj_at ns (to_keys ps) (name_to_key c)) OB_NOT_FOUND.
Proof.
  intros Hp. unfold lookup_path_no_follow. rewrite Hp. simpl. rewrite split_last_snoc.
  unfold obj_at. by destruct (descend ns (to_keys ps)).
Qed.

Lemma resolve_walk_obj ns before ps c id :
  obj_at ns (to_keys ps) (name_to_key c) = Some id ->
  resolve_walk ns before (ps ++ [c]) = Ok (inl id).
Proof.
  unfold obj_at. revert ns before. induction ps as [|p ps IH]; intros ns before; simpl.
  - by intros ->.
  - intros Hd. destruct (ps ++ [c]) as [|x xs] eqn:E; [by destruct ps|].
    destruct (bt_get (child_dirs ns) (name_to_key p)) as [sub|]; simpl in Hd; [|done].
    rewrite IH; done.
Qed.

Lemma lookup_path_obj ns path ps c id :
  parse_path path = Ok (ps ++ [c]) -> obj_at ns (to_keys ps) (name_to_key c) = Some id ->
  lookup_path ns path = Ok id.
Proof.
  intros Hp Ho. unfold lookup_path. simpl. rewrite Hp. simpl.
  rewrite decide_False by (by destruct ps). by rewrite resolve_walk_obj with (id := id).
Qed.

(** ** Inserting and removing objects *)

Definition put_object (obj_id : Z) (c : str) (current : DirectoryObject)
    : result NsError () * DirectoryObject :=
  let key := name_to_key c in
  if bt_mem (children current) key then (Err OB_ALREADY_EXISTS, current)
  else if bt_mem (symlinks current) key then (Err OB_ALREADY_EXISTS, current)
  else (Ok (), set_children current (bt_insert (children current) key obj_id)).

Lemma put_object_dirs id c d : child_dirs (put_object id c d).2 = child_dirs d.
Proof. unfold put_object. by repeat case_if. Qed.

Lemma put_object_links id c d : symlinks (put_object id c d).2 = symlinks d.
Proof. unfold put_object. by repeat case_if. Qed.

Lemma put_object_sorted id c d : ns_sorted d -> ns_sorted (put_object id c d).2.
Proof.
  intros [? ? ? ? ?]. unfold put_object. repeat case_if; (constructor; simpl; auto with btree).
Qed.

Lemma put_object_err id c d e : (put_object id c d).1 = Err e -> (put_object id c d).2 = d.
Proof. unfold put_object. by repeat case_if. Qed.

Lemma put_object_ok id c d :
  (put_object id c d).1 = Ok () <->
  bt_get (children d) (name_to_key c) = None /\ bt_get (symlinks d) (name_to_key c) = None.
Proof.
  rewrite <-!bt_mem_get. unfold put_object.
  destruct (bt_mem (children d) _), (bt_mem (symlinks d) _); simpl; split; (done || by intros [? ?]).
Qed.

Lemma put_object_child id c d k :
  (put_object id c d).1 = Ok () ->
  bt_get (children (put_object id c d).2) k =
    if decide (k = name_to_key c) then Some id else bt_get (children d) k.
Proof.
  unfold put_object. destruct (bt_mem (children d) _); [done|].
  destruct (bt_mem (symlinks d) _); [done|]. intros _. simpl. case_decide; subst.
  - apply bt_get_insert_eq.
  - by apply bt_get_insert_ne.
Qed.

Lemma insert_object_at ns path id ps c :
  parse_path path = Ok (ps ++ [c]) ->
  insert_object ns path id = modify_at ns (to_keys ps) (put_object id c).
Proof. intros Hp. unfold insert_object, at_parent. by rewrite Hp, split_last_snoc. Qed.

Lemma insert_object_frame ns ps c id qs k :
  (modify_at ns (to_keys ps) (put_object id c)).1 = Ok () ->
  obj_at (modify_at ns (to_keys ps) (put_object id c)).2 qs k =
    (if decide (qs = to_keys ps /\ k = name_to_key c) then Some id else obj_at ns qs k) /\
  link_at (modify_at ns (to_keys ps) (put_object id c)).2 qs k = link_at ns qs k.
Proof.
  set (f := put_object id c). set (ks := to_keys ps). intros Hr.
  rewrite modify_at_result in Hr. destruct (descend ns ks) as [d|] eqn:Hd; [|done].
  unfold obj_at, link_at. destruct (decide (qs = ks)) as [->|Hq].
  - rewrite (modify_at_descend f _ _ _ Hd), Hd. simpl. unfold f. rewrite put_object_links.
    split; [|done]. rewrite put_object_child by done.
    destruct (decide (k = name_to_key c)); [by rewrite decide_True|].
    rewrite decide_False; [done|]. by intros [_ ?].
  - rewrite decide_False by (by intros [? _]).
    pose proof (modify_at_frame f children ns ks qs) as H1.
    pose proof (modify_at_frame f symlinks ns ks qs) as H2.
    specialize (H1 ltac:(done) ltac:(intros; apply put_object_dirs) Hq).
    specialize (H2 ltac:(done) ltac:(intros; apply put_object_dirs) Hq).
    destruct (descend (modify_at ns ks f).2 qs), (descend ns qs); simplify_eq/=; split; congruence.
Qed.

Definition take_object (c : str) (current : DirectoryObject) : result NsError Z * DirectoryObject :=
  let key := name_to_key c in
  match bt_get (children current) key with
  | Some id => (Ok id, set_children current (bt_remove (children current) key))
  | None => (Err OB_NOT_FOUND, current)
  end.

Lemma remove_object_at ns path ps c :
  parse_path path = Ok (ps ++ [c]) ->
  remove_object ns path = modify_at ns (to_keys ps) (take_object c).
Proof. intros Hp. unfold remove_object, at_parent. by rewrite Hp, split_last_snoc. Qed.

Lemma take_object_dirs c d : child_dirs (take_object c d).2 = child_dirs d.
Proof. unfold take_object. by destruct (bt_get _ _). Qed.

Lemma take_object_sorted c d : ns_sorted d -> ns_sorted (take_object c d).2.
Proof.
  intros [? ? ? ? ?]. unfold take_object. destruct (bt_get _ _); constructor; simpl; auto with btree.
Qed.

(** What removing leaves: one entry less. *)
Lemma remove_object_frame ns ps c qs k :
  obj_at (modify_at ns (to_keys ps) (take_object c)).2 qs k =
    if decide (qs = to_keys ps /\ k = name_to_key c) then None else obj_at ns qs k.
Proof.
  set (f := take_object c). set (ks := to_keys ps). unfold obj_at.
  destruct (decide (qs = ks)) as [->|Hq].
  - destruct (descend ns ks) as [d|] eqn:Hd; simpl.
    + rewrite (modify_at_descend f _ _ _ Hd). simpl. unfold f, take_object.
      destruct (decide (k = name_to_key c)) as [->|Hk].
      * rewrite decide_True by done. destruct (bt_get (children d) _) eqn:E; simpl; [apply bt_get_remove_eq|done].
      * rewrite decide_False by (by intros [_ ?]).
        destruct (bt_get (children d) (name_to_key c)); simpl; [by apply bt_get_remove_ne|done].
    + assert (forall m l, descend m l = None -> descend (modify_at m l f).2 l = None) as Hnone.
      { intros m l. revert m. induction l as [|x l IH]; intros m; simpl; [done|].
        destruct (bt_get (child_dirs m) x) as [sub|] eqn:E; simpl; [|by rewrite E].
        intros Hm. specialize (IH sub Hm). destruct (modify_at sub l f); simpl in *.
        by rewrite bt_get_insert_eq. }
      rewrite (Hnone _ _ Hd). simpl. by destruct (decide _).
  - rewrite decide_False by (by intros [? _]).
    pose proof (modify_at_frame f children ns ks qs ltac:(done) ltac:(intros; apply take_object_dirs) Hq) as H1.
    destruct (descend (modify_at ns ks f).2 qs), (descend ns qs); simplify_eq/=; congruence.
Qed.

Lemma insert_remove_id ns ps c id :
  ns_sorted ns -> (modify_at ns (to_keys ps) (put_object id c)).1 = Ok () ->
  modify_at (modify_at ns (to_keys ps) (put_object id c)).2 (to_keys ps) (take_object c) = (Ok id, ns).
Proof.
  intros Hs Hr. rewrite modify_at_result in Hr.
  destruct (descend ns (to_keys ps)) as [d|] eqn:Hd; [|done].
  rewrite (modify_at_modify_at _ _ _ _ _ Hd). pose proof Hr as [Hc Hl]%put_object_ok.
  assert (take_object c (put_object id c d).2 = (Ok id, d)) as Ht.
  { unfold take_object. rewrite put_object_child, decide_True by done. f_equal.
    unfold put_object. apply bt_mem_get in Hc as Hc'. rewrite Hc'. apply bt_mem_get in Hl. rewrite Hl.
    simpl. unfold set_children. simpl. rewrite bt_remove_insert by done. by destruct d. }
  set (h := λ d, take_object c (put_object id c d).2). fold h in Ht |- *.
  assert ((modify_at ns (to_keys ps) h).1 = Ok id) by (rewrite modify_at_result, Hd; unfold h; by rewrite Ht).
  assert ((modify_at ns (to_keys ps) h).2 = ns).
  { apply modify_at_same; [done|]. intros d' Hd'. simplify_eq. unfold h. by rewrite Ht. }
  destruct (modify_at ns (to_keys ps) h); simpl in *. congruence.
Qed.

(** ** Names that print back *)

Definition key_text (k : str) : str := take (zlen k MAX_NAME_LEN) k.

Record good_key (k : str) : Prop := {
  gk_nonempty : key_text k ≠ [];
  gk_no_sep : BACKSLASH ∉ key_text k;
  gk_utf8 : utf8_valid (key_text k) = true;
  gk_len : (length (key_text k) <= MAX_NAME_LEN)%nat;
  gk_back : name_to_key (key_text k) = k;
}.

#[warnings="-register-all"]
Inductive ns_good (key : str -> Prop) : DirectoryObject -> Prop :=
  | ns_good_dir d :
      (forall k id, (k, id) ∈ children d -> key k) ->
      (forall k sub, (k, sub) ∈ child_dirs d -> key k /\ ns_good key sub) -> ns_good key d.

(** Induction over the directories of a tree. *)
Lemma dir_tree_ind (P : DirectoryObject -> Prop) :
  (forall d, (forall k sub, (k, sub) ∈ child_dirs d -> P sub) -> P d) -> forall d, P d.
Proof.
  intros H. fix IH 1. intros [n c subs l p cr]. apply H. simpl.
  assert (Forall (λ kd, P kd.2) subs) as Hall.
  { induction subs as [|[k' s'] subs IHs]; constructor; [apply IH|exact IHs]. }
  clear IH. intros k sub Hin. rewrite Forall_forall in Hall. apply (Hall _ Hin).
Qed.

Lemma good_key_str k : good_key k -> key_to_str k = key_text k.
Proof. intros Hg. unfold key_to_str, from_utf8_or. fold (key_text k). by rewrite gk_utf8. Qed.

Lemma good_keys_back ks : Forall good_key ks -> to_keys (key_to_str <$> ks) = ks.
Proof.
  unfold to_keys. induction 1 as [|k ks Hk Hks IH]; [done|].
  by rewrite !fmap_cons, IH, good_key_str, gk_back.
Qed.

(** A case-folded plain name prints back. *)
Lemma plain_key c : plain c -> c ≠ [] -> BACKSLASH ∉ c -> good_key (name_to_key c).
Proof.
  intros Hp Hne Hsep. set (n := to_ascii_lowercase <$> take 23 c).
  assert (plain n) as Hn.
  { apply Forall_fmap. apply Forall_take. eapply Forall_impl; [exact Hp|]. apply lowercase_ascii. }
  assert (length n <= 23)%nat as Hlen by (unfold n; rewrite length_fmap, length_take; lia).
  assert (forall m, take (Nat.min (length m) 23) m = take 23 m :> str) as Htake.
  { intros m. destruct (decide (length m <= 23)%nat).
    - rewrite Nat.min_l by lia. by rewrite !take_ge by lia.
    - by rewrite Nat.min_r by lia. }
  assert (name_to_key c = n ++ replicate (24 - length n) 0) as Hkey.
  { unfold name_to_key, MAX_NAME_LEN. rewrite Htake. fold n. unfold n. rewrite length_fmap, length_take.
    do 2 f_equal. lia. }
  assert (key_text (name_to_key c) = n) as Htext.
  { rewrite Hkey. unfold key_text, zlen.
    replace (24 - length n)%nat with (S (23 - length n)) by lia. simpl replicate.
    rewrite find_byte_app by (by apply plain_no_zero). simpl. by rewrite take_app_length. }
  split; rewrite Htext.
  - unfold n. destruct c; [done|]. done.
  - intros (b & Hb & Hin)%list_elem_of_fmap. unfold to_ascii_lowercase, BACKSLASH in Hb.
    case_if_in Hb; [lia|]. subst. apply Hsep. by apply elem_of_take in Hin as (? & ?%list_elem_of_lookup_2 & _).
  - by apply utf8_valid_ascii, plain_ascii.
  - unfold MAX_NAME_LEN. lia.
  - rewrite Hkey. unfold name_to_key, MAX_NAME_LEN. rewrite Htake, take_ge by lia.
    rewrite Nat.min_l by lia. f_equal. unfold n. rewrite <-list_fmap_compose.
    apply list_fmap_ext. intros ? ? _. apply lowercase_idem.
Qed.

(** ** Parsing *)

Lemma check_components_ok cs :
  check_components cs = Ok () <-> Forall (λ c, c ≠ [] /\ (length c <= MAX_NAME_LEN)%nat) cs.
Proof.
  induction cs as [|c cs IH]; simpl; [by split|]. rewrite Forall_cons, <-IH.
  case_decide; [split; [done|tauto]|]. destruct (Nat.ltb_spec MAX_NAME_LEN (length c)).
  - split; [done|]. intros [[_ ?] _]. lia.
  - split; [auto|]. by intros [_ ?].
Qed.

Lemma parse_path_Ok path cs :
  parse_path path = Ok cs ->
  Forall (λ c, c ≠ [] /\ (length c <= MAX_NAME_LEN)%nat /\ (BACKSLASH ∉ c) /\
    forall b, b ∈ c -> b ∈ path) cs.
Proof.
  unfold parse_path. repeat case_if; try done; [by (intros [= <-])|].
  set (parts := split _ _). destruct (check_components parts) as [[]|] eqn:E; simpl; [|done].
  intros [= <-]. apply check_components_ok in E. rewrite Forall_forall in E |- *.
  intros c Hc. destruct (E c Hc) as [? ?]. split_and!; try done.
  - pose proof (split_pieces_clean BACKSLASH (drop 1 (trim_end_matches BACKSLASH path))) as Hcl.
    rewrite Forall_forall in Hcl. by apply Hcl.
  - intros b Hb. eapply trim_end_elem. pose proof (split_elem _ _ _ _ Hc Hb) as Hd.
    apply list_elem_of_lookup in Hd as [i Hi]. rewrite lookup_drop in Hi.
    by eapply list_elem_of_lookup_2.
Qed.

Lemma parse_prefixed names :
  names ≠ [] -> Forall (λ c, c ≠ [] /\ (length c <= MAX_NAME_LEN)%nat /\ BACKSLASH ∉ c) names ->
  (length (prefixed BACKSLASH names) <= MAX_PATH_LEN)%nat ->
  parse_path (prefixed BACKSLASH names) = Ok names.
Proof.
  intros Hne Hall Hlen. unfold parse_path. rewrite prefixed_join in * by done. simpl starts_with.
  simpl negb. cbv iota.
  destruct (Nat.ltb_spec MAX_PATH_LEN (length (BACKSLASH :: join BACKSLASH names))); [lia|].
  assert (exists x b, join BACKSLASH names = x ++ [b] /\ b ≠ BACKSLASH) as (x & b & Hx & Hb).
  { clear Hlen H. induction names as [|c names IH]; [done|].
    apply Forall_cons in Hall as [(Hc & _ & Hs) Hall]. destruct names as [|c' names].
    - destruct c as [|b c] using rev_ind; [done|]. exists c, b. split; [done|].
      intros ->. apply Hs. apply elem_of_app. right. left.
    - destruct IH as (x & b & Hx & Hb); [done|done|]. exists (c ++ BACKSLASH :: x), b.
      split; [|done]. change (join BACKSLASH (c :: c' :: names)) with (c ++ BACKSLASH :: join BACKSLASH (c' :: names)).
      rewrite Hx. by rewrite <-app_assoc. }
  replace (BACKSLASH :: join BACKSLASH names) with ((BACKSLASH :: x) ++ [b]) by (by rewrite Hx).
  rewrite trim_end_id by done.
  replace ((BACKSLASH :: x) ++ [b]) with (BACKSLASH :: join BACKSLASH names) by (by rewrite Hx).
  simpl length. destruct (Nat.leb_spec (S (length (join BACKSLASH names))) 1) as [Hl|Hl].
  { rewrite Hx, length_app in Hl. simpl in Hl. lia. }
  rewrite skipn_cons, drop_0. rewrite split_join; [|done|].
  - assert (check_components names = Ok ()) as ->; [|done]. apply check_components_ok.
    eapply Forall_impl; [exact Hall|]. simpl. tauto.
  - eapply Forall_impl; [exact Hall|]. simpl. tauto.
Qed.

(** ** Searching for an object *)

Lemma find_child_Some l id k : find_child l id = Some k -> (k, id) ∈ l.
Proof.
  induction l as [|[k' id'] l IH]; simpl; [done|].
  destruct (Z.eqb_spec id' id) as [->|]; [intros [= ->]; by left|]. intros. right. auto.
Qed.

Lemma find_child_None l id k : find_child l id = None -> (k, id) ∉ l.
Proof.
  induction l as [|[k' id'] l IH]; simpl; [intros _; apply not_elem_of_nil|].
  destruct (Z.eqb_spec id' id); [done|]. intros Hf. rewrite not_elem_of_cons. split; [congruence|auto].
Qed.

(** The loop over the sub-directories. *)
Fixpoint search_subs (subs : list (str * DirectoryObject)) (prefix : str) (id : Z) : option str :=
  match subs with
  | [] => None
  | (key, subdir) :: subs =>
      match search_id subdir (prefix ++ BACKSLASH :: key_to_str key) id with
      | Some path => Some path
      | None => search_subs subs prefix id
      end
  end.

Lemma search_id_unfold d prefix id :
  search_id d prefix id =
  match find_child (children d) id with
  | Some key => Some (prefix ++ BACKSLASH :: key_to_str key)
  | None => search_subs (child_dirs d) prefix id
  end.
Proof.
  destruct d as [n c subs l p cr]. simpl. destruct (find_child c id); [done|].
  induction subs as [|[k s] subs IH]; [done|]. simpl. by destruct (search_id _ _ _).
Qed.

Lemma search_id_sound d prefix id p :
  ns_sorted d -> ns_good good_key d -> search_id d prefix id = Some p ->
  exists ks k, p = prefix ++ prefixed BACKSLASH (key_to_str <$> (ks ++ [k])) /\
    obj_at d ks k = Some id /\ Forall good_key (ks ++ [k]).
Proof.
  revert prefix. induction d as [d IH] using dir_tree_ind. intros prefix Hs Hg.
  inversion Hs as [? Hc Hd _ Hsub]; inversion Hg as [? Hgc Hgs]; subst.
  rewrite search_id_unfold. destruct (find_child (children d) id) as [k|] eqn:Ef.
  - intros Hp. injection Hp as <-. exists [], k. apply find_child_Some in Ef. split_and!.
    + simpl. by rewrite app_nil_r.
    + unfold obj_at. simpl. by apply elem_bt_get.
    + simpl. constructor; [by eapply Hgc|constructor].
  - assert (forall subs, (forall kd, kd ∈ subs -> kd ∈ child_dirs d) ->
      search_subs subs prefix id = Some p ->
      exists ks k, p = prefix ++ prefixed BACKSLASH (key_to_str <$> (ks ++ [k])) /\
        obj_at d ks k = Some id /\ Forall good_key (ks ++ [k])) as Hloop; [|by apply Hloop].
    induction subs as [|[key sub] subs IHs]; intros Hin; simpl; [done|].
    assert ((key, sub) ∈ child_dirs d) as Hks by (apply Hin; by left).
    destruct (search_id sub _ id) as [path|] eqn:Es; [|by apply IHs; intros; apply Hin; right].
    intros Hp. injection Hp as <-. destruct (Hgs key sub Hks) as [Hgk Hgsub].
    destruct (IH key sub Hks _ (Hsub key sub Hks) Hgsub Es) as (ks & k & -> & Ho & Hgk').
    exists (key :: ks), k. split_and!.
    + rewrite <-app_assoc. done.
    + unfold obj_at. simpl. rewrite (elem_bt_get _ key sub) by done. done.
    + by constructor.
Qed.

Lemma search_id_complete d prefix id :
  search_id d prefix id = None -> forall ks k, obj_at d ks k ≠ Some id.
Proof.
  revert prefix. induction d as [d IH] using dir_tree_ind. intros prefix.
  rewrite search_id_unfold. destruct (find_child (children d) id) as [k|] eqn:Ef; [done|].
  intros Hs ks k. unfold obj_at. destruct ks as [|key ks]; simpl.
  - intros Hk%bt_get_elem. by eapply find_child_None.
  - destruct (bt_get (child_dirs d) key) as [sub|] eqn:Eg; simpl; [|done].
    apply bt_get_elem in Eg. intros Ho.
    assert (search_id sub (prefix ++ BACKSLASH :: key_to_str key) id = None) as Hn.
    { revert Eg Hs. clear. induction (child_dirs d) as [|[k' s'] subs IHs]; [by intros ?%not_elem_of_nil|].
      simpl. rewrite elem_of_cons. destruct (search_id s' _ id) eqn:E; [done|].
      intros [[= -> ->]|Hin]; [done|auto]. }
    by apply (IH key sub Eg _ Hn ks k).
Qed.

(** ** The invariant of the tree under every operation *)

(** The invariant is kept by operations on any paths; what else the keys of the
    tree satisfy follows from what the bytes of the paths and the new names do. *)
Section tree_invariant.
Context (byte : Z -> Prop) (fine key : str -> Prop).
Hypothesis byte_sep : byte BACKSLASH.
Hypothesis byte_text : forall t, Forall byte (obj_type_to_auto_path t []).
Hypothesis fine_part : forall c, Forall byte c -> c ≠ [] -> BACKSLASH ∉ c -> fine c.
Hypothesis fine_key : forall c, fine c -> key (name_to_key c).

Definition ns_ok (ns : DirectoryObject) : Prop := ns_sorted ns /\ ns_good key ns.

Lemma ns_ok_sub ns k sub : ns_ok ns -> bt_get (child_dirs ns) k = Some sub -> key k /\ ns_ok sub.
Proof.
  intros [Hs Hg] He. pose proof (ns_sorted_sub _ _ _ Hs He). apply bt_get_elem in He.
  destruct Hg as [d _ Hd]. destruct (Hd _ _ He). done.
Qed.

Lemma ns_ok_set_child ns k sub :
  ns_ok ns -> key k -> ns_ok sub -> ns_ok (set_child_dirs ns (bt_insert (child_dirs ns) k sub)).
Proof.
  intros [Hs Hg] Hk [Hs' Hg']. split; [apply ns_sorted_set_child; assumption|].
  inversion Hg as [? Hc Hd]; subst.
  constructor; simpl; [exact Hc|]. intros k' sub' Hin. apply bt_insert_elem in Hin.
  destruct Hin as [Heq|Hin]; [|exact (Hd k' sub' Hin)]. injection Heq as -> ->. split; assumption.
Qed.

(** The parts of the invariant that one directory's own entries carry. *)
Lemma ns_ok_inv d :
  ns_ok d -> bt_sorted (children d) /\ bt_sorted (symlinks d) /\
    forall k id, (k, id) ∈ children d -> key k.
Proof. intros [Hs Hg]. inversion Hs; inversion Hg; subst. auto. Qed.

(** A directory with the same sub-directories. *)
Lemma ns_ok_local d d' :
  ns_ok d -> child_dirs d' = child_dirs d -> bt_sorted (children d') -> bt_sorted (symlinks d') ->
  (forall k id, (k, id) ∈ children d' -> key k) -> ns_ok d'.
Proof.
  intros [Hs Hg] Hd Hc Hl Hk. inversion Hs; inversion Hg; subst.
  split; constructor; rewrite ?Hd; assumption.
Qed.

Lemma ns_ok_remove_child d k :
  ns_ok d -> ns_ok (set_child_dirs d (bt_remove (child_dirs d) k)).
Proof.
  intros [Hs Hg]. inversion Hs as [? ? ? ? Hsub]; inversion Hg as [? ? Hgs]; subst.
  split; constructor; simpl; auto with btree.
  - intros k' sub Hin. eapply Hsub, bt_remove_elem, Hin.
  - intros k' sub Hin. eapply Hgs, bt_remove_elem, Hin.
Qed.

Lemma ns_ok_sorted ns : ns_ok ns -> ns_sorted ns.
Proof. by intros [? _]. Qed.

Lemma ns_ok_good ns : ns_ok ns -> ns_good key ns.
Proof. by intros [_ ?]. Qed.

Lemma dir_new_ok name : ns_ok (dir_new name).
Proof.
  assert (forall V, bt_sorted (K := str) (V := V) []) by (intros; constructor).
  split; constructor; simpl; auto; intros ? ? Hin; by apply not_elem_of_nil in Hin.
Qed.

Lemma modify_at_ok {A} (f : DirectoryObject -> result NsError A * DirectoryObject) ns ks :
  (forall d, ns_ok d -> ns_ok (f d).2) -> ns_ok ns -> ns_ok (modify_at ns ks f).2.
Proof.
  intros Hf. revert ns. induction ks as [|k ks IH]; intros ns Hok; simpl; [auto|].
  destruct (bt_get (child_dirs ns) k) as [sub|] eqn:E; simpl; [|done].
  destruct (ns_ok_sub _ _ _ Hok E) as [Hk Hsub]. specialize (IH sub Hsub).
  destruct (modify_at sub ks f) as [r sub']. by apply ns_ok_set_child.
Qed.

Lemma parse_path_names path cs : Forall byte path -> parse_path path = Ok cs -> Forall fine cs.
Proof.
  intros Hp Hcs. eapply Forall_impl; [by apply (parse_path_Ok path)|]. simpl.
  intros c (Hne & _ & Hsep & Hin). apply fine_part; [|done..].
  rewrite Forall_forall in Hp |- *. auto.
Qed.

Lemma at_parent_ok {A} ns path e (f : str -> DirectoryObject -> result NsError A * DirectoryObject) :
  Forall byte path -> (forall c d, fine c -> ns_ok d -> ns_ok (f c d).2) -> ns_ok ns ->
  ns_ok (at_parent ns path e f).2.
Proof.
  intros Hp Hf Hok. unfold at_parent. destruct (parse_path path) as [cs|] eqn:E; [|done].
  apply parse_path_names in E; [|done]. destruct (split_last cs) as [[ps c]|] eqn:Es; [|done].
  apply split_last_Some in Es as ->. apply Forall_app in E as [_ [Hc _]%Forall_cons].
  apply modify_at_ok; eauto.
Qed.

Lemma create_dir_internal_ok ns name rest :
  ns_ok ns -> Forall fine (name :: rest) -> ns_ok (create_dir_internal ns name rest).2.
Proof.
  revert ns name. induction rest as [|n rest IH]; intros ns name Hok [Hn Hr]%Forall_cons; simpl.
  - repeat case_if; try assumption. apply ns_ok_set_child; auto using fine_key, dir_new_ok.
  - set (sub := default _ _).
    assert (ns_ok sub) as Hsub.
    { unfold sub. destruct (bt_get _ _) eqn:E; [|apply dir_new_ok]. by eapply ns_ok_sub. }
    specialize (IH sub n Hsub Hr). destruct (create_dir_internal sub n rest) as [r sub'].
    apply ns_ok_set_child; auto using fine_key.
Qed.

Lemma create_directory_ok ns path : Forall byte path -> ns_ok ns -> ns_ok (create_directory ns path).2.
Proof.
  intros Hp Hok. unfold create_directory. destruct (parse_path path) as [cs|] eqn:E; [|done].
  destruct cs as [|c cs]; [by case_if|]. apply parse_path_names in E; [|done].
  destruct (descend _ _); [|done]. by apply create_dir_internal_ok.
Qed.

Lemma insert_object_ok ns path id : Forall byte path -> ns_ok ns -> ns_ok (insert_object ns path id).2.
Proof.
  intros Hp. apply at_parent_ok; [done|]. intros c d Hc Hd.
  destruct (ns_ok_inv _ Hd) as (Hs1 & Hs2 & Hk). simpl. repeat case_if; try assumption.
  apply (ns_ok_local d); simpl; auto with btree.
  intros k i Hin. apply bt_insert_elem in Hin as [Heq|Hin]; [|eauto].
  injection Heq as -> ->. by apply fine_key.
Qed.

Lemma insert_symlink_ok ns path target :
  Forall byte path -> ns_ok ns -> ns_ok (insert_symlink ns path target).2.
Proof.
  intros Hp Hok. unfold insert_symlink. destruct (parse_path path) as [[|c cs]|]; [done| |done].
  case_if; [done|]. apply at_parent_ok; [done| |done]. intros c' d Hc Hd.
  destruct (ns_ok_inv _ Hd) as (Hs1 & Hs2 & Hk). simpl. repeat case_if; try assumption.
  apply (ns_ok_local d); simpl; auto with btree.
Qed.

(** Removing adds no name, so any path will do. *)
Lemma at_parent_remove_ok {A} ns path e (f : str -> DirectoryObject -> result NsError A * DirectoryObject) :
  (forall c d, ns_ok d -> ns_ok (f c d).2) -> ns_ok ns -> ns_ok (at_parent ns path e f).2.
Proof.
  intros Hf Hok. unfold at_parent. destruct (parse_path path) as [cs|]; [|done].
  destruct (split_last cs) as [[ps c]|]; [|done]. apply modify_at_ok; eauto.
Qed.

Lemma remove_object_ok ns path : ns_ok ns -> ns_ok (remove_object ns path).2.
Proof.
  apply at_parent_remove_ok. intros c d Hd.
  destruct (ns_ok_inv _ Hd) as (Hs1 & Hs2 & Hk). simpl. destruct (bt_get _ _); [|done].
  apply (ns_ok_local d); simpl; eauto using bt_remove_elem with btree.
Qed.

Lemma remove_symlink_ok ns path : ns_ok ns -> ns_ok (remove_symlink ns path).2.
Proof.
  apply at_parent_remove_ok. intros c d Hd.
  destruct (ns_ok_inv _ Hd) as (Hs1 & Hs2 & Hk). simpl. destruct (bt_get _ _); [|done].
  apply (ns_ok_local d); simpl; eauto with btree.
Qed.

Lemma set_protected_ok ns path b : ns_ok ns -> ns_ok (set_protected ns path b).2.
Proof.
  intros Hok. unfold set_protected. destruct (parse_path path); [|done].
  apply modify_at_ok; [|done]. intros d Hd.
  destruct (ns_ok_inv _ Hd) as (Hs1 & Hs2 & Hk). by apply (ns_ok_local d).
Qed.

Lemma rename_directory_ok ns path new_name :
  fine new_name -> ns_ok ns -> ns_ok (rename_directory ns path new_name).2.
Proof.
  intros Hn Hok. unfold rename_directory. destruct (parse_path path) as [cs|]; [|done].
  destruct (split_last cs) as [[ps c]|]; [|done]. case_decide; [done|].
  apply modify_at_ok; [|done]. intros d Hd.
  destruct (bt_get (child_dirs d) (name_to_key c)) as [dir|] eqn:E; [|done].
  destruct (ns_ok_sub _ _ _ Hd E) as [Hk Hdir].
  pose proof (ns_ok_remove_child d (name_to_key c) Hd) as Hrest.
  case_if; simpl.
  - by apply (ns_ok_set_child _ _ _ Hrest).
  - apply (ns_ok_set_child _ _ _ Hrest); [by apply fine_key|].
    destruct (ns_ok_inv _ Hdir) as (Hs1 & Hs2 & Hg). by apply (ns_ok_local dir).
Qed.

Lemma checked_ok {A} ns path (op : result NsError A * DirectoryObject) :
  ns_ok ns -> ns_ok op.2 -> ns_ok (checked ns path op).2.
Proof.
  intros H1 H2. unfold checked. destruct (parse_path path); [|done].
  case_if; [|done]. destruct (descend _ _); [|done]. by case_if.
Qed.

Lemma create_tree_ok ns p comps :
  Forall byte p -> Forall (Forall byte) comps -> ns_ok ns -> ns_ok (create_tree_loop ns p comps).
Proof.
  revert ns p. induction comps as [|c comps IH]; intros ns p Hp Hc Hok; simpl; [done|].
  apply Forall_cons in Hc as [Hc Hcs].
  assert (Forall byte (p ++ BACKSLASH :: c)) as Hp'.
  { apply Forall_app. split; [done|]. by constructor. }
  apply IH; [done|done|]. by apply create_directory_ok.
Qed.

Lemma create_directory_tree_ok ns path :
  Forall byte path -> ns_ok ns -> ns_ok (ob_create_directory_tree ns path).
Proof.
  intros Hp Hok. unfold ob_create_directory_tree. repeat case_if; try assumption.
  apply create_tree_ok; [constructor| |done].
  assert (Forall (Forall byte) (split BACKSLASH (trim_start_matches BACKSLASH path))) as Hall.
  { apply Forall_forall. intros c Hc. rewrite Forall_forall in Hp |- *.
    intros b Hb. apply Hp. eapply trim_start_elem, split_elem; done. }
  destruct (split _ _) as [|x l] using rev_ind; [done|]. rewrite removelast_last.
  by apply Forall_app in Hall as [? _].
Qed.

Lemma auto_path_plain t name : Forall byte name -> Forall byte (obj_type_to_auto_path t name).
Proof.
  intros Hn. specialize (byte_text t). unfold obj_type_to_auto_path in *. rewrite app_nil_r in byte_text. by apply Forall_app.
Qed.

Lemma insert_auto_ok ns t name id : Forall byte name -> ns_ok ns -> ns_ok (ob_insert_object_auto ns t name id).2.
Proof.
  intros Hn Hok. unfold ob_insert_object_auto. pose proof (auto_path_plain t name Hn) as Hp.
  apply insert_object_ok; [done|]. destruct (parse_path _) as [cs|] eqn:E; [|done].
  apply parse_path_names in E; [|done]. destruct cs as [|c cs] using rev_ind; [done|].
  rewrite removelast_last. apply Forall_app in E as [E _].
  destruct cs as [|first rest]; [done|]. by apply create_dir_internal_ok.
Qed.

(** One call of an entry point, on any tree and any arguments of the given bytes. *)
Inductive ns_step : DirectoryObject -> DirectoryObject -> Prop :=
  | step_create_directory ns path : Forall byte path -> ns_step ns (create_directory ns path).2
  | step_create_tree ns path : Forall byte path -> ns_step ns (ob_create_directory_tree ns path)
  | step_insert_object ns path id : Forall byte path -> ns_step ns (insert_object ns path id).2
  | step_insert_auto ns t name id : Forall byte name -> ns_step ns (ob_insert_object_auto ns t name id).2
  | step_insert_symlink ns path target : Forall byte path -> ns_step ns (insert_symlink ns path target).2
  | step_insert_checked ns path id : Forall byte path -> ns_step ns (ob_insert_object_checked ns path id).2
  | step_create_checked ns path : Forall byte path -> ns_step ns (ob_create_directory_checked ns path).2
  | step_symlink_checked ns path target :
      Forall byte path -> ns_step ns (ob_insert_symlink_checked ns path target).2
  | step_remove_object ns path : ns_step ns (remove_object ns path).2
  | step_remove_by_id ns id : ns_step ns (ob_remove_by_id ns id).2
  | step_remove_auto ns t name : ns_step ns (ob_remove_object_auto ns t name)
  | step_remove_symlink ns path : ns_step ns (remove_symlink ns path).2
  | step_set_protected ns path b : ns_step ns (set_protected ns path b).2
  | step_rename ns path new_name : fine new_name -> ns_step ns (rename_directory ns path new_name).2.

Lemma ns_step_ok ns ns' : ns_step ns ns' -> ns_ok ns -> ns_ok ns'.
Proof.
  destruct 1; intros Hok; try (apply checked_ok; [done|]);
    auto using create_directory_ok, create_directory_tree_ok, insert_object_ok, insert_auto_ok,
      insert_symlink_ok, remove_object_ok, remove_symlink_ok, set_protected_ok, rename_directory_ok.
  - unfold ob_remove_by_id. destruct (find_path_by_id ns id); simpl; auto using remove_object_ok.
  - apply remove_object_ok, Hok.
Qed.

Lemma reachable_ok ns : rtc ns_step namespace_new ns -> ns_ok ns.
Proof.
  intros Hr. assert (ns_ok namespace_new) as H0 by apply dir_new_ok.
  revert H0. induction Hr; eauto using ns_step_ok.
Qed.

End tree_invariant.

(** The trees that calls with any arguments lead to, and those of calls with plain
    ASCII paths and names. *)
Definition reachable : DirectoryObject -> Prop := rtc (ns_step (λ _, True) (λ _, True)) namespace_new.
Definition good_name (c : str) : Prop := plain c /\ c ≠ [] /\ BACKSLASH ∉ c.
Definition reachable_plain : DirectoryObject -> Prop := rtc (ns_step (λ b, 0 < b < 128) good_name) namespace_new.

Lemma reachable_sorted ns : reachable ns -> ns_sorted ns.
Proof.
  intros Hr. apply (ns_ok_sorted (λ _, True)). apply (reachable_ok (λ _, True) (λ _, True)); [done| |done..|exact Hr].
  intros t. by apply Forall_forall.
Qed.
Lemma reachable_plain_ok ns : reachable_plain ns -> ns_ok good_key ns.
Proof.
  intros Hr. apply (reachable_ok (λ b, 0 < b < 128) good_name); [done| |by intros|by intros c (? & ? & ?); apply plain_key|exact Hr].
  intros t. destruct t; vm_compute; repeat (constructor; [done|]); constructor.
Qed.

(** ** What the namespace promises *)

Lemma insert_object_at_path ns path ps c id :
  ns_sorted ns -> parse_path path = Ok (ps ++ [c]) ->
  let '(r, ns') := insert_object ns path id in
  (r = Ok () <-> is_Some (descend ns (to_keys ps)) /\
     obj_at ns (to_keys ps) (name_to_key c) = None /\ link_at ns (to_keys ps) (name_to_key c) = None) /\
  (r = Ok () -> lookup_path ns' path = Ok id /\ lookup_path_no_follow ns' path = Ok id /\
     forall qs k, link_at ns' qs k = link_at ns qs k /\
       obj_at ns' qs k =
         if decide (qs = to_keys ps /\ k = name_to_key c) then Some id else obj_at ns qs k) /\
  (r ≠ Ok () -> ns' = ns).
Proof.
  intros Hs Hp. rewrite (insert_object_at _ _ _ _ _ Hp).
  pose proof (insert_object_frame ns ps c id) as Hf.
  pose proof (modify_at_result (put_object id c) ns (to_keys ps)) as Hres.
  assert ((modify_at ns (to_keys ps) (put_object id c)).1 ≠ Ok () ->
    (modify_at ns (to_keys ps) (put_object id c)).2 = ns) as Hsame.
  { intros Hne. apply modify_at_same; [done|]. intros d Hd. rewrite Hres, Hd in Hne.
    destruct (put_object id c d).1 as [[]|e] eqn:E; [done|]. by eapply put_object_err. }
  destruct (modify_at ns (to_keys ps) (put_object id c)) as [r ns']. simpl in *. split_and!; [| |done].
  - rewrite Hres. unfold obj_at, link_at. destruct (descend ns (to_keys ps)) as [d|]; simpl.
    + rewrite put_object_ok. split; [intros; split; [by eexists|done]|tauto].
    + split; [done|]. by intros [[? ?] _].
  - intros ->. assert (obj_at ns' (to_keys ps) (name_to_key c) = Some id) as Ho.
    { destruct (Hf (to_keys ps) (name_to_key c) eq_refl) as [-> _]. by rewrite decide_True. }
    split_and!; [by eapply lookup_path_obj|by rewrite (lookup_no_follow_obj _ _ _ _ Hp), Ho|].
    intros qs k. by destruct (Hf qs k eq_refl).
Qed.

(** C33. In every tree that calls with any arguments lead to from an empty namespace,
    and for every path: a path that does not parse gives its error, the root gives
    [OB_INVALID_PATH], and otherwise [insert_object] succeeds exactly when the path
    names an existing directory and a name there that no object or link has.  It then
    adds that one entry (every other object and link stays) and both lookups find the
    object; a failure changes nothing.  Names are compared by their keys, which have
    the first 23 bytes in lower case. *)
Theorem insert_object_correct ns path id :
  reachable ns ->
  match parse_path path with
  | Err e => insert_object ns path id = (Err e, ns)
  | Ok cs =>
      match split_last cs with
      | None => insert_object ns path id = (Err OB_INVALID_PATH, ns)
      | Some (ps, c) =>
          let '(r, ns') := insert_object ns path id in
          (r = Ok () <-> is_Some (descend ns (to_keys ps)) /\
             obj_at ns (to_keys ps) (name_to_key c) = None /\ link_at ns (to_keys ps) (name_to_key c) = None) /\
          (r = Ok () -> lookup_path ns' path = Ok id /\ lookup_path_no_follow ns' path = Ok id /\
             forall qs k, link_at ns' qs k = link_at ns qs k /\
               obj_at ns' qs k =
                 if decide (qs = to_keys ps /\ k = name_to_key c) then Some id else obj_at ns qs k) /\
          (r ≠ Ok () -> ns' = ns)
      end
  end.
Proof.
  intros Hr%reachable_sorted. destruct (parse_path path) as [cs|e] eqn:Hp; [|unfold insert_object, at_parent; by rewrite Hp].
  destruct (split_last cs) as [[ps c]|] eqn:E; [|unfold insert_object, at_parent; by rewrite Hp, E].
  apply split_last_Some in E as ->. by apply insert_object_at_path.
Qed.

(** Removing an object that was just inserted returns its id and gives back
    the tree as it was, entry for entry and in the same order. *)
Theorem insert_remove_object_roundtrip ns path id ns' :
  reachable ns -> insert_object ns path id = (Ok (), ns') ->
  remove_object ns' path = (Ok id, ns).
Proof.
  intros Hr Hi. pose proof (reachable_sorted _ Hr) as Hs.
  assert (exists ps c, parse_path path = Ok (ps ++ [c])) as (ps & c & Hp).
  { unfold insert_object, at_parent in Hi. destruct (parse_path path) as [cs|]; [|done].
    destruct (split_last cs) as [[ps c]|] eqn:E; [|done]. apply split_last_Some in E as ->. eauto. }
  rewrite (insert_object_at _ _ _ _ _ Hp) in Hi. rewrite (remove_object_at _ _ _ _ Hp).
  replace ns' with (modify_at ns (to_keys ps) (put_object id c)).2 by (by rewrite Hi).
  apply insert_remove_id; [done|]. by rewrite Hi.
Qed.

(** Searching the namespace for an object is complete (no path is found only
    when no entry has the id) and sound: the path found resolves to the object,
    and [ob_remove_by_id] deletes exactly one entry, which had the id. *)
Theorem find_path_by_id_correct ns id :
  reachable_plain ns ->
  match find_path_by_id ns id with
  | None => (forall ks k, obj_at ns ks k ≠ Some id) /\ ob_remove_by_id ns id = (None, ns)
  | Some p => (length p <= MAX_PATH_LEN)%nat ->
      lookup_path ns p = Ok id /\
      exists ks k, obj_at ns ks k = Some id /\ forall qs q,
        obj_at (ob_remove_by_id ns id).2 qs q =
          if decide (qs = ks /\ q = k) then None else obj_at ns qs q
  end.
Proof.
  intros Hr. pose proof (ns_ok_sorted _ _ (reachable_plain_ok _ Hr)) as Hs.
  pose proof (ns_ok_good _ _ (reachable_plain_ok _ Hr)) as Hg. unfold ob_remove_by_id, find_path_by_id.
  destruct (search_id ns [] id) as [p|] eqn:E; [|eauto using search_id_complete].
  intros Hlen. destruct (search_id_sound _ _ _ _ Hs Hg E) as (ks & k & Hpk & Ho & Hks).
  rewrite app_nil_l in Hpk. set (names := key_to_str <$> (ks ++ [k])) in *.
  assert (parse_path p = Ok names) as Hp.
  { rewrite Hpk in Hlen |- *. apply parse_prefixed; [by destruct ks| |done].
    unfold names. apply Forall_fmap. eapply Forall_impl; [exact Hks|]. intros k' [].
    simpl. rewrite good_key_str by done. done. }
  unfold names in Hp. rewrite fmap_app in Hp. simpl in Hp.
  apply Forall_app in Hks as [Hks [Hk _]%Forall_cons].
  pose proof (good_keys_back _ Hks) as Hback.
  assert (name_to_key (key_to_str k) = k) as Hbk by (by rewrite good_key_str, gk_back).
  split; [eapply lookup_path_obj; [exact Hp|]; by rewrite Hback, Hbk|].
  exists ks, k. split; [done|]. intros qs q. simpl. rewrite (remove_object_at _ _ _ _ Hp).
  rewrite remove_object_frame. by rewrite Hback, Hbk.
Qed.

(** The root cannot be registered as an object: inserting at the path of one
    backslash fails whatever the tree, and looking that path up always fails. *)
Theorem root_object_not_registered ns id :
  insert_object ns [BACKSLASH] id = (Err OB_INVALID_PATH, ns) /\
  lookup_path ns [BACKSLASH] = Err OB_NOT_FOUND.
Proof. done. Qed.

(** A namespace with directory [\A], object [\A\T] (1) and object [\T] (2). *)
Definition two_targets : DirectoryObject :=
  (insert_object (insert_object (create_directory namespace_new (bytes_of "\A")).2
     (bytes_of "\A\T") 1).2 (bytes_of "\T") 2).2.

(** A relative link is resolved against its own directory when it is the last
    component of a path, and against the root when it is not: the same link
    [\A\L] to a directory [D] leads to [\A\D] or to [\D]. *)
Theorem relative_link_depends_on_position :
  let ns := (insert_symlink two_targets (bytes_of "\A\L") (bytes_of "T")).2 in
  let ns2 := (insert_object (create_directory (create_directory
      (insert_symlink ns (bytes_of "\A\M") (bytes_of "D")).2 (bytes_of "\D")).2 (bytes_of "\A\D")).2
      (bytes_of "\A\D\X") 3).2 in
  lookup_path ns (bytes_of "\A\L") = Ok 1 /\
  lookup_path ns2 (bytes_of "\A\D\X") = Ok 3 /\
  lookup_path ns2 (bytes_of "\A\M\X") = Err OB_NOT_FOUND.
Proof. vm_compute. done. Qed.

(** Names of 24 bytes are accepted but only 23 bytes reach the key: two
    different names collide, and the second object cannot be inserted. *)
Theorem full_length_names_collide :
  let a := bytes_of "\aaaaaaaaaaaaaaaaaaaaaaa1" in
  let b := bytes_of "\aaaaaaaaaaaaaaaaaaaaaaa2" in
  let ns := (insert_object namespace_new a 1).2 in
  parse_path a = Ok [drop 1 a] /\ parse_path b = Ok [drop 1 b] /\
  lookup_path ns b = Ok 1 /\ (insert_object ns b 2).1 = Err OB_ALREADY_EXISTS.
Proof. vm_compute. done. Qed.

Definition ns_demo : DirectoryObject := (create_directory namespace_new (bytes_of "\Device")).2.

Lemma ns_demo_reachable : reachable ns_demo.
Proof. apply rtc_once. constructor. by apply Forall_forall. Qed.
Lemma ns_demo_plain : reachable_plain ns_demo.
Proof. apply rtc_once. constructor. vm_compute. repeat (constructor; [done|]). constructor. Qed.

Lemma insert_object_correct_witness :
  lookup_path (insert_object ns_demo (bytes_of "\device\Com1") 7).2 (bytes_of "\device\Com1") = Ok 7.
Proof.
  pose proof (insert_object_correct ns_demo (bytes_of "\device\Com1") 7 ns_demo_reachable) as H.
  replace (parse_path (bytes_of "\device\Com1")) with (Ok (E := NsError) [bytes_of "device"; bytes_of "Com1"]) in H by reflexivity. cbn [split_last] in H.
  destruct (insert_object ns_demo (bytes_of "\device\Com1") 7) as [r ns'] eqn:E.
  destruct H as (_ & H & _). apply H. vm_compute in E. by injection E as <- _.
Defined.

Lemma insert_remove_object_roundtrip_witness :
  remove_object (insert_object ns_demo (bytes_of "\Device\Com1") 7).2 (bytes_of "\Device\Com1") =
    (Ok 7, ns_demo).
Proof.
  apply insert_remove_object_roundtrip; [apply ns_demo_reachable|]. vm_compute. reflexivity.
Defined.

Lemma find_path_by_id_witness :
  lookup_path (insert_object ns_demo (bytes_of "\Device\Com1") 7).2 (bytes_of "\device\com1") = Ok 7.
Proof.
  pose proof (find_path_by_id_correct (insert_object ns_demo (bytes_of "\Device\Com1") 7).2 7) as H.
  destruct (find_path_by_id _ 7) as [p|] eqn:E; [|vm_compute in E; discriminate].
  destruct H as [H _].
  - eapply rtc_r; [apply ns_demo_plain|]. constructor. vm_compute. repeat (constructor; [done|]). constructor.
  - vm_compute in E. injection E as <-. vm_compute. lia.
  - vm_compute in E. injection E as <-. exact H.
Defined.
