(* ===== verification/ObjectTable.v ===== *)
(** * ObjectTable.v: the object table and its reference counts ([object/table.rs])

    The table keeps objects in a vector of slots and finds them through an id
    index, of which it uses only the interface [IndexOps]/[IndexLaws].  The
    reference-count anomaly counters, the security descriptors and the namespace
    are the other globals the entry points touch.  The type-specific
    [on_destroy] callbacks are a parameter that maps the state of the Object
    Manager to its state after the callback.  [None] is a call that does not
    return or panics. *)

From stdpp Require Import gmap.
From S2P Require Import Prelude Str BTreeMap IdIndex Namespace.
Open Scope Z_scope.

Definition OB_NAME_LEN : nat := 128.

Inductive ObError :=
  | Success | NotFound | AlreadyExists | InvalidParam | RefCountHeld
  | OutOfMemory | AccessDenied | NotSupported | InvalidType | TableFull.

#[global] Instance ObError_eq_dec : EqDecision ObError.
Proof. solve_decision. Defined.

(** [as_err_code]. *)
Definition as_err_code (e : ObError) : Z :=
  match e with
  | Success => 0 | NotFound => -1 | AlreadyExists => -2 | InvalidParam => -3 | RefCountHeld => -4
  | OutOfMemory => -5 | AccessDenied => -6 | NotSupported => -7 | InvalidType => -8 | TableFull => -9
  end.

Section table.
Context {Ops SD T : Type} `{IndexLaws T}.

Record ObObject := mkOb {
  ob_id : Z;
  obj_type : ObType;
  ob_name : list Z;
  refcount : Z;
  flags : Z;
  native_id : Z;
  ops : option Ops;
}.

Record ObObjectTable := mkTable {
  slots : list (option ObObject);
  index : T;
  count : Z;
  next_id : Z;
}.

(** [set_name]: at most 127 bytes, a terminating zero, the rest kept. *)
Definition set_name (old s : list Z) : list Z :=
  let len := Nat.min (length s) (OB_NAME_LEN - 1) in
  take len s ++ 0 :: drop (S len) old.

Definition name_str (o : ObObject) : str :=
  from_utf8_or (take (zlen (ob_name o) OB_NAME_LEN) (ob_name o)) (bytes_of "<?>").

Definition set_refcount (o : ObObject) (n : Z) : ObObject :=
  mkOb (ob_id o) (obj_type o) (ob_name o) n (flags o) (native_id o) (ops o).
Definition set_ob_name (o : ObObject) (n : list Z) : ObObject :=
  mkOb (ob_id o) (obj_type o) n (refcount o) (flags o) (native_id o) (ops o).

Definition table_new : ObObjectTable := mkTable [] ix_new 0 1.

(** The first empty slot, [slots.iter().position(|s| s.is_none())]. *)
Definition free_slot (ss : list (option ObObject)) : option nat :=
  fst <$> list_find (λ s, s = None) ss.

Definition create (t : ObObjectTable) (ty : ObType) (name : list Z) (native fl : Z) (o : option Ops)
    : option (result ObError Z * ObObjectTable) :=
  let id := next_id t in
  let object := mkOb id ty (set_name (replicate OB_NAME_LEN 0) name) 1 fl native o in
  let '(ss, slot_idx) :=
    match free_slot (slots t) with
    | Some pos => (<[pos := Some object]> (slots t), pos)
    | None => (slots t ++ [Some object], length (slots t))
    end in
  ix ← ix_insert (index t) id slot_idx;
  Some (Ok id, mkTable ss ix (wrap 64 (count t + 1)) (wrap 64 (next_id t + 1))).

Definition lookup (t : ObObjectTable) (id : Z) : option (option ObObject) :=
  r ← ix_get (index t) id;
  Some (idx ← r; mjoin (slots t !! idx)).

(** [lookup_mut] with an update of the object found. *)
Definition update {A} (t : ObObjectTable) (id : Z) (f : ObObject -> A * ObObject)
    : option (result ObError A * ObObjectTable) :=
  r ← ix_get (index t) id;
  Some (match r with
        | Some idx =>
            match slots t !! idx with
            | Some (Some o) =>
                let '(a, o') := f o in
                (Ok a, mkTable (<[idx := Some o']> (slots t)) (index t) (count t) (next_id t))
            | _ => (Err NotFound, t)
            end
        | None => (Err NotFound, t)
        end).

Definition U32_MAX : Z := 2 ^ 32 - 1.

(** The new count and whether the overflow counter is bumped. *)
Definition bump (o : ObObject) : (Z * bool) * ObObject :=
  let n := sat_add 32 (refcount o) 1 in
  ((n, refcount o =? U32_MAX), set_refcount o n).

(** The new count and whether the underflow counter is bumped. *)
Definition drop_ref (o : ObObject) : (Z * bool) * ObObject :=
  if refcount o >? 0
  then let n := refcount o - 1 in ((n, false), set_refcount o n)
  else ((refcount o, true), o).

Definition take_for_destroy (t : ObObjectTable) (id : Z)
    : option (result ObError (option Ops * Z) * ObObjectTable) :=
  r ← ix_get (index t) id;
  match r with
  | None => Some (Err NotFound, t)
  | Some idx =>
      slot ← slots t !! idx;
      if from_option refcount 0 slot >? 1 then Some (Err RefCountHeld, t)
      else
        ix ← ix_remove (index t) id;
        Some (Ok (slot ≫= ops, from_option native_id 0 slot),
              mkTable (<[idx := None]> (slots t)) ix (wrap 64 (count t - 1)) (next_id t))
  end.

(** ** The Object Manager's globals *)

Record ObState := mkState {
  ob_table : ObObjectTable;
  ob_security : list (Z * SD);
  ob_namespace : DirectoryObject;
  ref_overflow : Z;
  ref_underflow : Z;
}.

Definition set_table (st : ObState) t :=
  mkState t (ob_security st) (ob_namespace st) (ref_overflow st) (ref_underflow st).
Definition set_security (st : ObState) s :=
  mkState (ob_table st) s (ob_namespace st) (ref_overflow st) (ref_underflow st).
Definition set_namespace (st : ObState) n :=
  mkState (ob_table st) (ob_security st) n (ref_overflow st) (ref_underflow st).
Definition add_overflow (st : ObState) (b : bool) :=
  mkState (ob_table st) (ob_security st) (ob_namespace st)
    (if b then wrap 64 (ref_overflow st + 1) else ref_overflow st) (ref_underflow st).
Definition add_underflow (st : ObState) (b : bool) :=
  mkState (ob_table st) (ob_security st) (ob_namespace st) (ref_overflow st)
    (if b then wrap 64 (ref_underflow st + 1) else ref_underflow st).

Definition ob_create_object (st : ObState) (ty : ObType) (name : list Z) (native fl : Z) (o : option Ops)
    : option (result ObError Z * ObState) :=
  '(r, t) ← create (ob_table st) ty name native fl o; Some (r, set_table st t).

Definition ob_lookup (st : ObState) (id : Z) : option (option ObObject) := lookup (ob_table st) id.

Definition ob_reference (st : ObState) (id : Z) : option (result ObError Z * ObState) :=
  '(r, t) ← update (ob_table st) id bump;
  Some (match r with
        | Ok (n, over) => (Ok n, add_overflow (set_table st t) over)
        | Err e => (Err e, set_table st t)
        end).

Definition ob_open_object (st : ObState) (id _access : Z) : option (result ObError () * ObState) :=
  '(r, st) ← ob_reference st id;
  Some (match r with Ok _ => Ok () | Err e => Err e end, st).

Definition ob_dereference (st : ObState) (id : Z) : option (result ObError Z * ObState) :=
  '(r, t) ← update (ob_table st) id drop_ref;
  Some (match r with
        | Ok (n, under) => (Ok n, add_underflow (set_table st t) under)
        | Err e => (Err e, set_table st t)
        end).

(** [take_for_destroy] also drops the security descriptor. *)
Definition ob_take (st : ObState) (id : Z) : option (result ObError (option Ops * Z) * ObState) :=
  '(r, t) ← take_for_destroy (ob_table st) id;
  Some (r, match r with
           | Ok _ => set_security (set_table st t) (bt_remove (ob_security st) id)
           | Err _ => set_table st t
           end).

Context (on_destroy : Ops -> Z -> Z -> ObState -> option ObState).

(** Phase 2 of [ob_destroy_object] and [ob_close_object]: the callback, outside
    the table lock, then the namespace entry. *)
Definition finalize (st : ObState) (id : Z) (cb : option Ops) (native : Z) : option ObState :=
  st ← match cb with Some o => on_destroy o id native st | None => Some st end;
  Some (set_namespace st (ob_remove_by_id (ob_namespace st) id).2).

Definition ob_destroy_object (st : ObState) (id : Z) : option (result ObError () * ObState) :=
  '(r, st) ← ob_take st id;
  match r with
  | Err e => Some (Err e, st)
  | Ok (cb, native) => st ← finalize st id cb native; Some (Ok (), st)
  end.

Definition ob_close_object (st : ObState) (id : Z) : option (result ObError () * ObState) :=
  '(r, st) ← ob_dereference st id;
  match r with
  | Err e => Some (Err e, st)
  | Ok cnt =>
      if cnt >? 0 then Some (Ok (), st)
      else
        '(r, st) ← ob_take st id;
        match r with
        | Err e => Some (Err e, st)
        | Ok (cb, native) => st ← finalize st id cb native; Some (Ok (), st)
        end
  end.

Definition ob_set_object_name (st : ObState) (id : Z) (name : list Z)
    : option (result ObError () * ObState) :=
  '(r, t) ← update (ob_table st) id (λ o, ((), set_ob_name o (set_name (ob_name o) name)));
  Some (r, set_table st t).

Definition ob_set_security (st : ObState) (id : Z) (sd : SD) : option (result ObError () * ObState) :=
  r ← ob_lookup st id;
  Some (match r with
        | None => (Err NotFound, st)
        | Some _ => (Ok (), set_security st (bt_insert (ob_security st) id sd))
        end).

Definition ob_count (st : ObState) : Z := count (ob_table st).

(** [snapshot]: the occupied slots in order. *)
Definition snapshot (t : ObObjectTable) : list ObObject := omap id (slots t).

(** ** The table as a finite map *)

Definition slot_has (t : ObObjectTable) (i : nat) (o : ObObject) : Prop := slots t !! i = Some (Some o).

Record table_rep (t : ObObjectTable) (m : gmap Z ObObject) : Prop := {
  tr_index : exists mi, ix_rep (index t) mi /\
    forall id i, mi !! id = Some i <-> exists o, slot_has t i o /\ ob_id o = id;
  tr_map id o : m !! id = Some o <-> ob_id o = id /\ exists i, slot_has t i o;
  tr_ids id o : m !! id = Some o -> 1 <= id < next_id t;
  tr_next : 1 <= next_id t <= TOMBSTONE;
  tr_count : count t = wrap 64 (Z.of_nat (size m));
}.

Lemma table_new_rep : table_rep table_new ∅.
Proof.
  split; try done.
  - exists ∅. split; [apply ix_new_ok|]. intros id i. rewrite lookup_empty. split; [done|].
    by intros (o & Ho & _).
  - intros id o. rewrite lookup_empty. split; [done|]. by intros (_ & i & Hi).
Qed.

(** Where the index leads. *)
Lemma index_find t m id :
  table_rep t m -> id ≠ TOMBSTONE ->
  exists r, ix_get (index t) id = Some r /\
    match r with
    | Some i => exists o, m !! id = Some o /\ ob_id o = id /\ slot_has t i o
    | None => m !! id = None
    end.
Proof.
  intros [(mi & Hix & Hmi) Hm _ _ _] Hid. exists (mi !! id).
  split; [by apply ix_get_ok|]. destruct (mi !! id) as [i|] eqn:E.
  - apply Hmi in E as (o & Ho & Hoid). exists o. split_and!; try done. apply Hm. eauto.
  - destruct (m !! id) as [o|] eqn:Em; [|done]. apply Hm in Em as (Hoid & i & Hi).
    assert (mi !! id = Some i) by (apply Hmi; eauto). congruence.
Qed.

Lemma slot_unique t m i j o o' :
  table_rep t m -> slot_has t i o -> slot_has t j o' -> ob_id o = ob_id o' -> i = j.
Proof.
  intros [(mi & _ & Hmi) _ _ _ _] Hi Hj Heq.
  assert (mi !! ob_id o' = Some i) by (apply Hmi; eauto).
  assert (mi !! ob_id o' = Some j) by (apply Hmi; eauto). congruence.
Qed.

Lemma lookup_rep t m id : table_rep t m -> id ≠ TOMBSTONE -> lookup t id = Some (m !! id).
Proof.
  intros Hr Hid. destruct (index_find _ _ _ Hr Hid) as (r & Hg & Hcase).
  unfold lookup. rewrite Hg. simpl. destruct r as [i|]; simpl; [|by rewrite Hcase].
  destruct Hcase as (o & -> & _ & Hs). by rewrite Hs.
Qed.

(** Ids are below [next_id], so there are fewer objects than that. *)
Lemma size_bound t m : table_rep t m -> Z.of_nat (size m) < next_id t.
Proof.
  intros Hr. assert (dom m ⊆ list_to_set (C := gset Z) (seqZ 1 (next_id t - 1))) as Hsub.
  { intros id [o Ho]%elem_of_dom. apply (tr_ids _ _ Hr) in Ho.
    apply elem_of_list_to_set, elem_of_seqZ. lia. }
  apply subseteq_size in Hsub. rewrite size_dom in Hsub.
  rewrite size_list_to_set in Hsub by apply NoDup_seqZ. rewrite length_seqZ in Hsub.
  pose proof (tr_next _ _ Hr). lia.
Qed.

Lemma slot_insert_iff t i so j o :
  (i < length (slots t))%nat ->
  <[i := so]> (slots t) !! j = Some (Some o) <->
  (j = i /\ so = Some o) \/ (j ≠ i /\ slots t !! j = Some (Some o)).
Proof.
  intros Hi. rewrite list_lookup_insert_Some. split.
  - intros [(? & ? & ?)|(? & ?)]; [left; split; congruence|right; split; congruence].
  - intros [[-> ->]|[? ?]]; [left|right]; auto.
Qed.

(** Updating an object in place. *)
Lemma update_rep {A} t m id (f : ObObject -> A * ObObject) :
  table_rep t m -> id ≠ TOMBSTONE -> (forall o, ob_id (f o).2 = ob_id o) ->
  exists t', update t id f =
      Some (match m !! id with Some o => Ok (f o).1 | None => Err NotFound end, t') /\
    table_rep t' (match m !! id with Some o => <[id := (f o).2]> m | None => m end) /\
    next_id t' = next_id t.
Proof.
  intros Hr Hid Hf. destruct (index_find _ _ _ Hr Hid) as (r & Hg & Hcase).
  unfold update. rewrite Hg. simpl. destruct r as [i|]; [|by rewrite Hcase; eauto].
  destruct Hcase as (o & Ho & Hoid & Hs). rewrite Hs, Ho. specialize (Hf o).
  destruct (f o) as [a o'] eqn:Ef. simpl in *. eexists. split; [done|]. split; [|done].
  pose proof (lookup_lt_Some _ _ _ Hs) as Hlt.
  assert (forall j o2, slot_has t j o2 -> ob_id o2 = id -> j = i) as Huniq
    by (intros; eapply slot_unique; eauto; congruence).
  destruct Hr as [(mi & Hix & Hmi) Hm Hids Hn Hc]. split; simpl; try done.
  - exists mi. split; [done|]. intros id2 j. rewrite Hmi. unfold slot_has. simpl.
    setoid_rewrite slot_insert_iff; [|done]. split.
    + intros (o2 & H2 & Hid2). destruct (decide (j = i)) as [->|]; [|eauto].
      unfold slot_has in *. exists o'. split; [by left|]. congruence.
    + intros (o2 & [[-> [= ->]]|[? ?]] & Hid2); [|eauto]. exists o. split; [done|]. congruence.
  - intros id2 o2. unfold slot_has. simpl. setoid_rewrite slot_insert_iff; [|done].
    destruct (decide (id2 = id)) as [->|Hne].
    + rewrite lookup_insert_eq. split.
      * intros [= <-]. split; [congruence|]. exists i. by left.
      * intros (Hid2 & j & [[-> ?]|[Hj Hs2]]); [congruence|].
        by specialize (Huniq j o2 Hs2 Hid2).
    + rewrite lookup_insert_ne, Hm by done. split; intros (Hid2 & j & Hj); (split; [done|]); exists j.
      * right. split; [|done]. intros ->. unfold slot_has in *. congruence.
      * destruct Hj as [[-> [= ->]]|[_ ?]]; [|done]. congruence.
  - intros id2 o2. destruct (decide (id2 = id)) as [->|Hne]; [eauto|].
    rewrite lookup_insert_ne by done. eauto.
  - rewrite map_size_insert_Some; eauto.
Qed.

(** Placing a new object: the slot was empty and nothing else moves. *)
Lemma place_slots ss (object : ObObject) :
  let '(ss', p) := match free_slot ss with
                   | Some pos => (<[pos := Some object]> ss, pos)
                   | None => (ss ++ [Some object], length ss)
                   end in
  (forall o, ss !! p ≠ Some (Some o)) /\ ss' !! p = Some (Some object) /\
  forall j o, j ≠ p -> ss' !! j = Some (Some o) <-> ss !! j = Some (Some o).
Proof.
  unfold free_slot. destruct (list_find _ ss) as [[p s]|] eqn:E; simpl.
  - apply list_find_Some in E as (Hp & -> & _). pose proof (lookup_lt_Some _ _ _ Hp).
    split_and!; [congruence|by apply list_lookup_insert_eq|].
    intros j o Hj. by rewrite list_lookup_insert_ne.
  - split_and!.
    + intros o. rewrite lookup_ge_None_2 by lia. done.
    + rewrite lookup_app_r by lia. by rewrite Nat.sub_diag.
    + intros j o Hj. destruct (decide (j < length ss)%nat); [by rewrite lookup_app_l|].
      rewrite (lookup_ge_None_2 (_ ++ _)) by (rewrite length_app; simpl; lia).
      by rewrite lookup_ge_None_2 by lia.
Qed.

Lemma create_rep t m ty name native fl o :
  table_rep t m -> next_id t < TOMBSTONE ->
  exists t', create t ty name native fl o = Some (Ok (next_id t), t') /\
    m !! next_id t = None /\ next_id t' = next_id t + 1 /\
    table_rep t' (<[next_id t :=
      mkOb (next_id t) ty (set_name (replicate OB_NAME_LEN 0) name) 1 fl native o]> m).
Proof.
  intros Hr Hlt. set (object := mkOb _ _ _ _ _ _ _).
  assert (m !! next_id t = None) as Hfresh.
  { destruct (m !! next_id t) eqn:E; [|done]. apply (tr_ids _ _ Hr) in E. lia. }
  destruct Hr as [(mi & Hix & Hmi) Hm Hids Hn Hc].
  assert (mi !! next_id t = None) as Hfi.
  { destruct (mi !! next_id t) as [i|] eqn:E; [|done]. apply Hmi in E as (o2 & Hs & Hid).
    assert (m !! next_id t = Some o2) by (apply Hm; eauto). congruence. }
  unfold create. fold object. pose proof (place_slots (slots t) object) as Hplace.
  destruct (match free_slot (slots t) with Some _ => _ | None => _ end) as [ss p].
  destruct Hplace as (Hfree & Hp & Hother).
  destruct (ix_insert_ok (index t) mi (next_id t) p) as (ix & Hins & Hix'); [done| |done|].
  { split; unfold EMPTY; lia. }
  rewrite Hins. simpl. unfold TOMBSTONE in *.
  assert (wrap 64 (next_id t + 1) = next_id t + 1) as Hw by (apply wrap_small; lia).
  eexists. split; [done|]. split; [done|]. split; [done|]. split; simpl.
  - exists (<[next_id t := p]> mi). split; [done|]. intros id i. unfold slot_has. simpl.
    destruct (decide (id = next_id t)) as [->|Hne].
    + rewrite lookup_insert_eq. split; [intros [= <-]; by exists object|].
      intros (o2 & Hs & Hid). destruct (decide (i = p)) as [->|Hip]; [done|].
      apply Hother in Hs; [|done]. assert (mi !! next_id t = Some i) by (apply Hmi; eauto). congruence.
    + rewrite lookup_insert_ne, Hmi by done. unfold slot_has. split; intros (o2 & Hs & Hid); exists o2.
      * split; [|done]. apply Hother; [|done]. intros ->. by destruct (Hfree o2).
      * split; [|done]. apply Hother; [|done]. intros ->. rewrite Hp in Hs. injection Hs as <-. done.
  - intros id o2. unfold slot_has. simpl. destruct (decide (id = next_id t)) as [->|Hne].
    + rewrite lookup_insert_eq. split; [intros [= <-]; eauto|].
      intros (Hid & i & Hs). destruct (decide (i = p)) as [->|Hip]; [congruence|].
      apply Hother in Hs; [|done]. assert (m !! next_id t = Some o2) by (apply Hm; eauto). congruence.
    + rewrite lookup_insert_ne, Hm by done. unfold slot_has. split; intros (Hid & i & Hs); (split; [done|]); exists i.
      * apply Hother; [|done]. intros ->. by destruct (Hfree o2).
      * apply Hother; [|done]. intros ->. rewrite Hp in Hs. injection Hs as <-. done.
  - intros id o2. rewrite Hw. destruct (decide (id = next_id t)) as [->|Hne]; [lia|].
    rewrite lookup_insert_ne by done. intros E%Hids. lia.
  - rewrite Hw. unfold TOMBSTONE. lia.
  - rewrite map_size_insert_None, Hc, wrap_add_l by done. f_equal. lia.
Qed.

Lemma take_rep t m id :
  table_rep t m -> id ≠ TOMBSTONE ->
  exists r t', take_for_destroy t id = Some (r, t') /\ next_id t' = next_id t /\
    match m !! id with
    | None => r = Err NotFound /\ t' = t
    | Some o => if refcount o >? 1 then r = Err RefCountHeld /\ t' = t
                else r = Ok (ops o, native_id o) /\ table_rep t' (delete id m)
    end.
Proof.
  intros Hr Hid. destruct (index_find _ _ _ Hr Hid) as (r & Hg & Hcase).
  unfold take_for_destroy. rewrite Hg. simpl. destruct r as [i|]; [|rewrite Hcase; eauto 6].
  destruct Hcase as (o & Ho & Hoid & Hs). rewrite Hs, Ho. simpl.
  destruct (refcount o >? 1); [eauto 6|]. pose proof (lookup_lt_Some _ _ _ Hs) as Hlt.
  assert (forall j o2, slot_has t j o2 -> ob_id o2 = id -> j = i) as Huniq
    by (intros; eapply slot_unique; eauto; congruence).
  destruct Hr as [(mi & Hix & Hmi) Hm Hids Hn Hc].
  destruct (ix_remove_ok (index t) mi id) as (ix & -> & Hix'); [done|done|]. simpl.
  eexists _, _. split; [done|]. split; [done|]. split; [done|]. split; simpl.
  - exists (delete id mi). split; [done|]. intros id2 j. unfold slot_has. simpl.
    setoid_rewrite slot_insert_iff; [|done]. destruct (decide (id2 = id)) as [->|Hne].
    + rewrite lookup_delete_eq. split; [done|].
      intros (o2 & [[_ ?]|[Hj Hs2]] & Hid2); [done|]. by specialize (Huniq j o2 Hs2 Hid2).
    + rewrite lookup_delete_ne, Hmi by done. split; intros (o2 & Hs2 & Hid2); exists o2.
      * split; [|done]. right. split; [|done]. intros ->. unfold slot_has in *. congruence.
      * destruct Hs2 as [[_ ?]|[_ ?]]; done.
  - intros id2 o2. unfold slot_has. simpl. setoid_rewrite slot_insert_iff; [|done].
    destruct (decide (id2 = id)) as [->|Hne].
    + rewrite lookup_delete_eq. split; [done|].
      intros (Hid2 & j & [[_ ?]|[Hj Hs2]]); [done|]. by specialize (Huniq j o2 Hs2 Hid2).
    + rewrite lookup_delete_ne, Hm by done. split; intros (Hid2 & j & Hs2); (split; [done|]); exists j.
      * right. split; [|done]. intros ->. unfold slot_has in *. congruence.
      * destruct Hs2 as [[_ ?]|[_ ?]]; done.
  - intros id2 o2 [_ E]%lookup_delete_Some. eauto.
  - done.
  - rewrite map_size_delete_Some, Hc, wrap_sub_l by eauto.
    assert (0 < size m)%nat by (apply Nat.neq_0_lt_0; intros Hz%map_size_empty_iff; by rewrite Hz in Ho).
    f_equal. lia.
Qed.

(** ** Reference counting as a specification

    What clients of the table rely on: an object exists from its creation to the
    release of the last reference to it.  A type's [on_destroy] may destroy further
    objects, as [PipeObOps::on_destroy] does with the object of the pipe: [victims]
    gives their ids. *)

Context (victims : Ops -> Z -> Z -> list Z).

Inductive ob_op :=
  | OpCreate (ty : ObType) (name : list Z) (native fl : Z) (o : option Ops)
  | OpOpen (id : Z)
  | OpClose (id : Z)
  | OpDestroy (id : Z).

(** Live objects, with their reference counts and the objects that go with them,
    and the next id. *)
Definition spec_state : Type := gmap Z (Z * list Z) * Z.

(** Destroying an object that no one else holds. *)
Definition kill (c : gmap Z (Z * list Z)) (id : Z) : gmap Z (Z * list Z) :=
  match c !! id with
  | Some (k, _) => if k >? 1 then c else delete id c
  | None => c
  end.
Definition release (id : Z) (vs : list Z) (c : gmap Z (Z * list Z)) : gmap Z (Z * list Z) := foldl kill (delete id c) vs.

Definition spec_step (s : spec_state) (op : ob_op) : result ObError Z * spec_state :=
  let '(c, n) := s in
  match op with
  | OpCreate _ _ native _ o => (Ok n, (<[n := (1, from_option (λ f, victims f n native) [] o)]> c, n + 1))
  | OpOpen id =>
      match c !! id with Some (k, vs) => (Ok 0, (<[id := (k + 1, vs)]> c, n)) | None => (Err NotFound, s) end
  | OpClose id =>
      match c !! id with
      | Some (k, vs) => (Ok 0, (if k >? 1 then <[id := (k - 1, vs)]> c else release id vs c, n))
      | None => (Err NotFound, s)
      end
  | OpDestroy id =>
      match c !! id with
      | Some (k, vs) => if k >? 1 then (Err RefCountHeld, s) else (Ok 0, (release id vs c, n))
      | None => (Err NotFound, s)
      end
  end.

(** The entry points, with [Ok(())] as [Ok 0]. *)
Definition unit_code (r : result ObError ()) : result ObError Z := (λ _, 0) <$> r.

Definition ob_step (st : ObState) (op : ob_op) : option (result ObError Z * ObState) :=
  match op with
  | OpCreate ty name native fl o => ob_create_object st ty name native fl o
  | OpOpen id => '(r, st) ← ob_open_object st id 0; Some (unit_code r, st)
  | OpClose id => '(r, st) ← ob_close_object st id; Some (unit_code r, st)
  | OpDestroy id => '(r, st) ← ob_destroy_object st id; Some (unit_code r, st)
  end.

Fixpoint ob_run (st : ObState) (l : list ob_op) : option (list (result ObError Z) * ObState) :=
  match l with
  | [] => Some ([], st)
  | op :: l => '(r, st) ← ob_step st op; '(rs, st) ← ob_run st l; Some (r :: rs, st)
  end.

Fixpoint spec_run (s : spec_state) (l : list ob_op) : list (result ObError Z) * spec_state :=
  match l with
  | [] => ([], s)
  | op :: l => let '(r, s) := spec_step s op in let '(rs, s) := spec_run s l in (r :: rs, s)
  end.

Definition op_id_ok (op : ob_op) : Prop :=
  match op with
  | OpCreate _ _ _ _ _ => True
  | OpOpen id | OpClose id | OpDestroy id => id ≠ TOMBSTONE
  end.

(** Callbacks return, and what they do to the table is to destroy their victims,
    which have no callbacks of their own. *)
Fixpoint take_each (t : ObObjectTable) (vs : list Z) : option ObObjectTable :=
  match vs with
  | [] => Some t
  | v :: vs => '(_, t) ← take_for_destroy t v; take_each t vs
  end.
Definition only_victims : Prop := forall o id native, (TOMBSTONE ∉ victims o id native) /\
  (forall st m, table_rep (ob_table st) m ->
   exists st', on_destroy o id native st = Some st' /\ take_each (ob_table st) (victims o id native) = Some (ob_table st')).

(** What the specification keeps of an object. *)
Definition spec_of (o : ObObject) : Z * list Z := (refcount o, from_option (λ f, victims f (ob_id o) (native_id o)) [] (ops o)).

(** The counts of the model are those of the table, at least one and at most [k]. *)
Record refines (st : ObState) (s : spec_state) (k : Z) : Prop := {
  rf_map : exists m, table_rep (ob_table st) m /\ s.1 = (spec_of <$> m);
  rf_next : next_id (ob_table st) = s.2;
  rf_next_le : s.2 <= k + 1;
  rf_count id c : s.1 !! id = Some c -> 1 <= c.1 <= k;
}.

Lemma reference_refines st s k id :
  refines st s k -> id ≠ TOMBSTONE -> k < U32_MAX ->
  exists st', ob_open_object st id 0 =
      Some (match s.1 !! id with Some _ => Ok () | None => Err NotFound end, st') /\
    refines st' (spec_step s (OpOpen id)).2 (k + 1).
Proof.
  destruct s as [c n]. intros [(m & Hr & Hc) Hn Hle Hb] Hid Hk. simpl in *.
  destruct (update_rep (ob_table st) m id bump Hr Hid) as (t' & Hu & Hr' & Hn'); [done|].
  unfold ob_open_object, ob_reference. rewrite Hu. simpl. subst c.
  rewrite lookup_fmap in *. destruct (m !! id) as [o|] eqn:Hm; simpl.
  - assert (1 <= refcount o <= k) as Ho by (apply (Hb id (spec_of o)); by rewrite lookup_fmap, Hm).
    eexists. split; [done|]. split; simpl; [| |lia|].
    + eexists. split; [exact Hr'|]. rewrite fmap_insert. unfold bump, spec_of. simpl. do 2 f_equal.
      unfold sat_add, U32_MAX in *. lia.
    + by rewrite Hn'.
    + intros id' c'. destruct (decide (id' = id)) as [->|].
      * rewrite lookup_insert_eq. intros [= <-]. simpl. lia.
      * rewrite lookup_insert_ne by done. intros ?%Hb. lia.
  - eexists. split; [done|]. split; simpl; [eauto|by rewrite Hn'|lia|].
    intros id' c' ?%Hb. lia.
Qed.

Section callbacks.
Context (Hcb : only_victims).

(** Destroying one object more. *)
Lemma take_kill t m v : table_rep t m -> v ≠ TOMBSTONE ->
  exists r t' m', take_for_destroy t v = Some (r, t') /\ table_rep t' m' /\ spec_of <$> m' = kill (spec_of <$> m) v /\ next_id t' = next_id t.
Proof.
  intros Hr Hv. destruct (take_rep _ _ _ Hr Hv) as (r & t' & Ht & Hn & Hcase). exists r, t'. unfold kill. rewrite lookup_fmap.
  destruct (m !! v) as [o|] eqn:Hm; simpl in *.
  - destruct (refcount o >? 1); [destruct Hcase as [_ ->]; by exists m|]. destruct Hcase as [_ Hr']. exists (delete v m). by rewrite fmap_delete.
  - destruct Hcase as [_ ->]. by exists m.
Qed.
Lemma take_each_kill vs : forall t m, table_rep t m -> TOMBSTONE ∉ vs ->
  exists t' m', take_each t vs = Some t' /\ table_rep t' m' /\ spec_of <$> m' = foldl kill (spec_of <$> m) vs /\ next_id t' = next_id t.
Proof.
  induction vs as [|v vs IH]; intros t m Hr Hv; [by exists t, m|]. apply not_elem_of_cons in Hv as [Hv Hvs]. simpl.
  destruct (take_kill t m v Hr) as (r & t1 & m1 & -> & Hr1 & Hm1 & Hn1); [done|]. simpl.
  destruct (IH t1 m1 Hr1 Hvs) as (t' & m' & -> & Hr' & Hm' & Hn'). exists t', m'. rewrite Hm', Hm1, Hn', Hn1. by split_and!.
Qed.

Lemma finalize_victims st m id cb native : table_rep (ob_table st) m ->
  exists st' m', finalize st id cb native = Some st' /\ table_rep (ob_table st') m' /\ next_id (ob_table st') = next_id (ob_table st) /\
    spec_of <$> m' = foldl kill (spec_of <$> m) (from_option (λ f, victims f id native) [] cb).
Proof.
  intros Hr. unfold finalize. destruct cb as [o|]; simpl; [|by eexists _, m].
  destruct (Hcb o id native) as [Hv Hrun]. destruct (Hrun st m Hr) as (st' & -> & Ht). simpl.
  destruct (take_each_kill _ _ _ Hr Hv) as (t' & m' & Ht' & Hr' & Hm' & Hn'). rewrite Ht in Ht'. injection Ht' as <-. by eexists _, m'.
Qed.

(** Unlinking and finalizing an object whose count is at most one. *)
Lemma take_refines st m id o :
  table_rep (ob_table st) m -> id ≠ TOMBSTONE -> m !! id = Some o -> refcount o <= 1 ->
  exists st1 st' m', ob_take st id = Some (Ok (ops o, native_id o), st1) /\
    finalize st1 id (ops o) (native_id o) = Some st' /\
    table_rep (ob_table st') m' /\ spec_of <$> m' = release id (spec_of o).2 (spec_of <$> m) /\ next_id (ob_table st') = next_id (ob_table st).
Proof.
  intros Hr Hid Hm Hc. destruct (take_rep _ _ _ Hr Hid) as (r & t' & Ht & Hn & Hcase).
  rewrite Hm in Hcase. destruct (Z.gtb_spec (refcount o) 1); [lia|]. destruct Hcase as [-> Hr'].
  assert (ob_id o = id) as Ho by (by apply (tr_map _ _ Hr) in Hm as [? _]).
  unfold ob_take. rewrite Ht. simpl.
  destruct (finalize_victims (set_security (set_table st t') (bt_remove (ob_security st) id)) (delete id m) id (ops o)
    (native_id o) Hr') as (st' & m' & Hf & Hr2 & Hn2 & Hm2).
  eexists _, st', m'. split; [done|]. split_and!; [exact Hf|done| |rewrite Hn2; done].
  rewrite Hm2, fmap_delete. unfold release, spec_of. simpl. by rewrite Ho.
Qed.

Lemma kill_sub c v id x : kill c v !! id = Some x -> c !! id = Some x.
Proof. unfold kill. destruct (c !! v) as [[k l]|]; [|done]. destruct (k >? 1); [done|]. by intros [_ ?]%lookup_delete_Some. Qed.
Lemma release_sub c vs v id x : release v vs c !! id = Some x -> c !! id = Some x.
Proof.
  unfold release. intros Hl. apply (lookup_delete_Some c v id x). revert Hl. generalize (delete v c) as d.
  induction vs as [|w vs IH]; intros d Hl; simpl in Hl; [done|]. by apply IH, kill_sub in Hl.
Qed.

Lemma delete_refines st0 st' m' c n k id vs :
  refines st0 (c, n) k -> spec_of <$> m' = release id vs c ->
  table_rep (ob_table st') m' -> next_id (ob_table st') = n ->
  refines st' (release id vs c, n) (k + 1).
Proof.
  intros [_ _ Hle Hb] Hc Hr Hn. split; simpl in *; [eauto|done|lia|].
  intros id' c' Hl%release_sub. specialize (Hb id' c' Hl). lia.
Qed.

Lemma close_refines st s k id :
  refines st s k -> id ≠ TOMBSTONE ->
  exists st', ob_close_object st id =
      Some (match s.1 !! id with Some _ => Ok () | None => Err NotFound end, st') /\
    refines st' (spec_step s (OpClose id)).2 (k + 1).
Proof.
  destruct s as [c n]. intros Href Hid. pose proof Href as [(m & Hr & Hc) Hn Hle Hb]. simpl in *.
  destruct (update_rep (ob_table st) m id drop_ref Hr Hid) as (t' & Hu & Hr' & Hn').
  { intros o. unfold drop_ref. by case_if. }
  unfold ob_close_object, ob_dereference. rewrite Hu. simpl.
  assert (c !! id = spec_of <$> m !! id) as Hcid by (by rewrite Hc, lookup_fmap).
  rewrite Hcid. destruct (m !! id) as [o|] eqn:Hm; simpl in *.
  - assert (1 <= refcount o <= k) as Ho by (apply (Hb id (spec_of o)); by rewrite Hcid).
    unfold drop_ref in Hr' |- *. destruct (Z.gtb_spec (refcount o) 0); [|lia]. simpl in *.
    destruct (Z.gtb_spec (refcount o - 1) 0); destruct (Z.gtb_spec (refcount o) 1); try lia.
    + eexists. split; [done|]. split; simpl; [|by rewrite Hn'|lia|].
      * eexists. split; [exact Hr'|]. by rewrite fmap_insert, Hc.
      * intros id' c'. destruct (decide (id' = id)) as [->|]; [rewrite lookup_insert_eq; intros [= <-]; simpl; lia|].
        rewrite lookup_insert_ne by done. intros ?%Hb. lia.
    + set (st1 := add_underflow _ _).
      destruct (take_refines st1 (<[id := set_refcount o (refcount o - 1)]> m) id
        (set_refcount o (refcount o - 1))) as (st2 & st' & m2 & -> & Hf & Hr2 & Hm2 & Hn2);
        [done|done|apply lookup_insert_eq|simpl; lia|].
      simpl in *. rewrite Hf. simpl. eexists. split; [done|].
      eapply (delete_refines st st' m2); try done; [|congruence].
      rewrite Hm2, fmap_insert, Hc. unfold release. by rewrite delete_insert_eq.
  - eexists. split; [done|]. split; simpl; [eauto|by rewrite Hn'|lia|]. intros id' c' ?%Hb. lia.
Qed.

Lemma destroy_refines st s k id :
  refines st s k -> id ≠ TOMBSTONE ->
  exists st', ob_destroy_object st id =
      Some (match (spec_step s (OpDestroy id)).1 with Ok _ => Ok () | Err e => Err e end, st') /\
    refines st' (spec_step s (OpDestroy id)).2 (k + 1).
Proof.
  destruct s as [c n]. intros Href Hid. pose proof Href as [(m & Hr & Hc) Hn Hle Hb]. simpl in *.
  assert (forall st', ob_table st' = ob_table st -> refines st' (c, n) (k + 1)) as Hkeep.
  { intros st' Ht. split; simpl; rewrite ?Ht; [eauto|done|lia|]. intros id' c' ?%Hb. lia. }
  assert (c !! id = spec_of <$> m !! id) as Hcid by (by rewrite Hc, lookup_fmap).
  unfold ob_destroy_object. rewrite Hcid. destruct (m !! id) as [o|] eqn:Hm; simpl.
  - destruct (Z.gtb_spec (refcount o) 1).
    + destruct (take_rep _ _ _ Hr Hid) as (r & t' & Ht & _ & Hcase). rewrite Hm in Hcase.
      destruct (Z.gtb_spec (refcount o) 1); [|lia]. destruct Hcase as [-> ->].
      unfold ob_take. rewrite Ht. simpl. eexists. split; [done|]. by apply Hkeep.
    + destruct (take_refines st m id o) as (st1 & st' & m2 & -> & Hf & Hr2 & Hm2 & Hn2); [done..|].
      simpl. rewrite Hf. simpl. eexists. split; [done|].
      eapply (delete_refines st st' m2); try done; [by rewrite Hm2, Hc|congruence].
  - destruct (take_rep _ _ _ Hr Hid) as (r & t' & Ht & _ & Hcase). rewrite Hm in Hcase.
    destruct Hcase as [-> ->]. unfold ob_take. rewrite Ht. simpl. eexists. split; [done|]. by apply Hkeep.
Qed.

Lemma create_refines st s k ty name native fl o :
  refines st s k -> k < U32_MAX ->
  exists st', ob_create_object st ty name native fl o = Some (Ok s.2, st') /\
    refines st' (<[s.2 := (1, from_option (λ f, victims f s.2 native) [] o)]> s.1, s.2 + 1) (k + 1).
Proof.
  destruct s as [c n]. intros [(m & Hr & Hc) Hn Hle Hb] Hk. simpl in *.
  assert (0 <= k) by (pose proof (tr_next _ _ Hr); lia).
  destruct (create_rep (ob_table st) m ty name native fl o Hr) as (t' & Hcr & Hf & Hn' & Hr').
  { unfold TOMBSTONE, U32_MAX in *. lia. }
  unfold ob_create_object. rewrite Hcr. simpl. subst n. eexists. split; [done|].
  split; simpl; [|done|lia|].
  - eexists. split; [exact Hr'|]. by rewrite fmap_insert, Hc.
  - intros id' c'. destruct (decide (id' = next_id (ob_table st))) as [->|].
    + rewrite lookup_insert_eq. intros [= <-]. simpl. lia.
    + rewrite lookup_insert_ne by done. intros ?%Hb. lia.
Qed.

Lemma step_refines st s k op :
  refines st s k -> op_id_ok op -> k < U32_MAX ->
  exists st', ob_step st op = Some ((spec_step s op).1, st') /\ refines st' (spec_step s op).2 (k + 1).
Proof.
  intros Href Hok Hk. destruct op as [ty name native fl o|id|id|id]; simpl in Hok |- *.
  - destruct (create_refines st s k ty name native fl o) as (st' & -> & H1); [done..|].
    destruct s as [c n]. simpl in *. eauto.
  - destruct (reference_refines st s k id) as (st' & -> & H1); [done..|].
    destruct s as [c n]. simpl in *. destruct (c !! id) as [[]|]; simpl in *; eauto.
  - destruct (close_refines st s k id) as (st' & -> & H1); [done..|].
    destruct s as [c n]. simpl in *. destruct (c !! id) as [[]|]; simpl in *; eauto.
  - destruct (destroy_refines st s k id) as (st' & -> & H1); [done..|].
    destruct s as [c n]. simpl in *. destruct (c !! id) as [[x vs]|]; [destruct (x >? 1)|]; simpl in *; eauto.
Qed.

Lemma run_refines l st s k :
  refines st s k -> Forall op_id_ok l -> k + Z.of_nat (length l) < U32_MAX ->
  exists st', ob_run st l = Some ((spec_run s l).1, st') /\
    refines st' (spec_run s l).2 (k + Z.of_nat (length l)).
Proof.
  revert st s k. induction l as [|op l IH]; intros st s k Href Hok Hk; simpl in *.
  { exists st. split; [done|]. by rewrite Z.add_0_r. }
  apply Forall_cons in Hok as [H1 H2].
  destruct (step_refines st s k op) as (st1 & -> & Href1); [done|done|lia|].
  destruct (spec_step s op) as [r s1]. simpl in *.
  destruct (IH st1 s1 (k + 1)) as (st2 & -> & Href2); [done|done|lia|].
  destruct (spec_run s1 l) as [rs s2]. simpl in *. eexists. split; [done|].
  change (refines st2 s2 (k + Z.of_nat (S (length l)))).
  by replace (k + Z.of_nat (S (length l))) with (k + 1 + Z.of_nat (length l)) by lia.
Qed.

(** C34. Objects live exactly as long as they are referenced: over every sequence
    of creations, opens, closes and destroys (fewer than 2^32 - 1) from an empty
    table, the entry points return what the reference-count specification returns, an
    object is found if and only if the specification has it, with the same count, and
    the number of objects is right.  No call fails to return.  Two conditions: no call
    names the id [u64::MAX], which the index uses for removed entries; and an
    [on_destroy] callback returns and does nothing to the table but destroy the objects
    of a list that its type, id and native id determine (none for files, semaphores,
    timers and sections; for a pipe its own object, which has no callback), if no one
    else holds them. *)
Theorem object_lifetime_refines (sec : list (Z * SD)) (ns : DirectoryObject) (l : list ob_op) :
  Forall op_id_ok l -> Z.of_nat (length l) < U32_MAX ->
  exists st, ob_run (mkState table_new sec ns 0 0) l = Some ((spec_run (∅, 1) l).1, st) /\
    ob_count st = Z.of_nat (size (spec_run (∅, 1) l).2.1) /\
    forall id, id ≠ TOMBSTONE ->
      exists r, ob_lookup st id = Some r /\ refcount <$> r = fst <$> (spec_run (∅, 1) l).2.1 !! id.
Proof.
  intros Hok Hlen.
  destruct (run_refines l (mkState table_new sec ns 0 0) (∅, 1) 0) as (st & Hrun & [(m & Hr & Hc) Hn Hle _]).
  { split; simpl; [|done|done|done]. exists ∅. split; [apply table_new_rep|by rewrite fmap_empty]. }
  { done. } { lia. }
  exists st. split; [done|]. split.
  - unfold ob_count. rewrite (tr_count _ _ Hr), Hc, map_size_fmap. apply wrap_small.
    pose proof (size_bound _ _ Hr) as Hsz. unfold TOMBSTONE in *. rewrite Hn in Hsz.
    unfold U32_MAX in Hlen. lia.
  - intros id Hid. exists (m !! id). unfold ob_lookup. rewrite (lookup_rep _ _ _ Hr Hid).
    split; [done|]. rewrite Hc, lookup_fmap. by destruct (m !! id).
Qed.
End callbacks.

(** When the last reference is closed, the object is unlinked before its
    [on_destroy] callback runs: the callback starts in a state where no lookup,
    open or close finds the id and its security descriptor is gone, so the object
    cannot be resurrected and cannot be destroyed twice; only then is its
    namespace entry removed.  This holds whatever the callback does. *)
Theorem close_last_unlinks_first st m id o :
  table_rep (ob_table st) m -> id ≠ TOMBSTONE -> m !! id = Some o -> refcount o = 1 ->
  exists st1, ob_close_object st id =
      (st2 ← finalize st1 id (ops o) (native_id o); Some (Ok (), st2)) /\
    table_rep (ob_table st1) (delete id m) /\
    ob_lookup st1 id = Some None /\ bt_get (ob_security st1) id = None /\
    (exists t, ob_open_object st1 id 0 = Some (Err NotFound, t)) /\
    (exists t, ob_close_object st1 id = Some (Err NotFound, t)).
Proof.
  intros Hr Hid Hm Hc.
  destruct (update_rep (ob_table st) m id drop_ref Hr Hid) as (t' & Hu & Hr' & _).
  { intros o'. unfold drop_ref. by case_if. }
  assert (drop_ref o = ((0, false), set_refcount o 0)) as Hd by (unfold drop_ref; by rewrite Hc).
  rewrite Hm in Hu, Hr'. rewrite Hd in Hu, Hr'. simpl in Hu, Hr'.
  destruct (take_rep t' _ id Hr' Hid) as (r & t2 & Ht & _ & Hcase).
  rewrite lookup_insert_eq in Hcase. simpl in Hcase. destruct Hcase as [-> Hr2].
  rewrite delete_insert_eq in Hr2.
  exists (set_security (set_table (add_underflow (set_table st t') false) t2) (bt_remove (ob_security st) id)).
  split_and!.
  - unfold ob_close_object, ob_dereference. rewrite Hu. simpl. unfold ob_take. simpl. rewrite Ht. simpl. done.
  - done.
  - unfold ob_lookup. simpl. rewrite (lookup_rep _ _ _ Hr2 Hid). by rewrite lookup_delete_eq.
  - simpl. apply bt_get_remove_eq.
  - unfold ob_open_object, ob_reference. simpl.
    destruct (update_rep t2 _ id bump Hr2 Hid) as (t3 & -> & _); [done|].
    rewrite lookup_delete_eq. simpl. eauto.
  - unfold ob_close_object, ob_dereference. simpl.
    destruct (update_rep t2 _ id drop_ref Hr2 Hid) as (t3 & -> & _); [intros o'; unfold drop_ref; by case_if|].
    rewrite lookup_delete_eq. simpl. eauto.
Qed.

End table.
#[global] Arguments ObObject : clear implicits.
#[global] Arguments ObObjectTable : clear implicits.
#[global] Arguments ObState : clear implicits.

(** ** Examples over the hash index *)

(** Callbacks that do nothing, as [FileHandleOps::on_destroy]. *)
Definition no_callback (o : unit) (id native : Z) (st : ObState unit unit IdIndex)
    : option (ObState unit unit IdIndex) := Some st.

Lemma no_callback_ok : only_victims no_callback (λ _ _ _, []).
Proof. intros o id native. split; [apply not_elem_of_nil|]. intros st m _. by exists st. Qed.

Definition boot_objects (n : nat) : list (ob_op (Ops := unit)) :=
  replicate n (OpCreate TEvent (bytes_of "EVENT") 0 0 None).

Definition empty_state : ObState unit unit IdIndex := mkState table_new [] namespace_new 0 0.

(** The id [u64::MAX], which standard input has in the handle table, is also
    the tombstone of the index: after nine objects were created, the ninth
    destroyed and another one created, looking up [u64::MAX] finds that other
    object, although no object has this id. *)
Theorem stdin_id_finds_other_object :
  exists st o, ob_run no_callback empty_state
      (boot_objects 9 ++ [OpDestroy 9; OpCreate TProcess (bytes_of "PROC") 77 0 None]) =
        Some ((Ok <$> seqZ 1 9) ++ [Ok 0; Ok 10], st) /\
    ob_lookup st (2 ^ 64 - 1) = Some (Some o) /\ ob_id o = 10 /\ obj_type o = TProcess.
Proof.
  eexists _, _. split; [vm_compute; reflexivity|]. split; [vm_compute; reflexivity|]. done.
Qed.

(** The callback of a pipe whose own object has the id 1: it re-enters the Object
    Manager. *)
Definition pipe_callback (o : unit) (id native : Z) (st : ObState unit unit IdIndex) : option (ObState unit unit IdIndex) :=
  '(_, st) ← ob_destroy_object no_callback st 1; Some st.

Lemma pipe_callback_ok : only_victims pipe_callback (λ _ _ _, [1]).
Proof.
  intros o id native. split; [by apply not_elem_of_cons; split; [|apply not_elem_of_nil]|]. intros st m Hr.
  destruct (take_rep (ob_table st) m 1 Hr) as (r & t' & Ht & _); [done|].
  unfold pipe_callback, ob_destroy_object, ob_take. rewrite Ht. cbn [mbind option_bind take_each]. rewrite Ht. destruct r as [[cb nat_id]|e]; cbn; [|by eexists].
  destruct cb; by eexists.
Qed.

(** The object of a pipe (1) and the pipe (2): closing the pipe destroys both. *)
Definition pipe_life : list (ob_op (Ops := unit)) :=
  [OpCreate TPipe (bytes_of "pipe/0") 0 0 None; OpCreate TPipe (bytes_of "P") 0 0 (Some ()); OpOpen 2; OpClose 2; OpDestroy 2; OpClose 2; OpOpen 1].

Lemma object_lifetime_refines_witness :
  exists st, ob_run pipe_callback empty_state pipe_life = Some ([Ok 1; Ok 2; Ok 0; Ok 0; Ok 0; Err NotFound; Err NotFound], st) /\ ob_count st = 0.
Proof.
  destruct (object_lifetime_refines (T := IdIndex) pipe_callback (λ _ _ _, [1]) pipe_callback_ok [] namespace_new pipe_life) as (st & Hrun & Hc & _).
  - repeat (constructor; [done|]). constructor.
  - done.
  - exists st. split; [exact Hrun|exact Hc].
Defined.

Lemma close_last_unlinks_first_witness :
  exists st, (match ob_create_object empty_state TEvent (bytes_of "E") 0 0 None with
              | Some (_, st0) => ob_close_object no_callback st0 1
              | None => None
              end) = Some (Ok (), st).
Proof.
  destruct (create_rep (T := IdIndex) table_new ∅ TEvent (bytes_of "E") 0 0 (None : option unit)
    table_new_rep) as (t' & Hc & _ & _ & Hr); [done|].
  unfold ob_create_object. change (ob_table empty_state) with (table_new (Ops := unit) (T := IdIndex)).
  rewrite Hc. cbn [mbind option_bind].
  destruct (close_last_unlinks_first no_callback (set_table empty_state t') _ 1
    (mkOb 1 TEvent (set_name (replicate OB_NAME_LEN 0) (bytes_of "E")) 1 0 0 None) Hr) as (st1 & -> & _);
    [done|apply lookup_insert_eq|done|].
  eexists. reflexivity.
Defined.
