(* ===== verification/Handle.v ===== *)
(** * Handle.v: handle entries and per-process handle tables ([infra/handle.rs])

    A handle is an object id with an offset; [0] is a closed handle and the three
    largest ids are the standard streams.  The functions that create, validate or
    close a handle call the Object Manager of [ObjectTable.v].  A handle table is
    a vector of entries that [set] and [IndexMut] extend; a descriptor is a [u8]. *)

From stdpp Require Import gmap.
From S2P Require Import Prelude Str BTreeMap IdIndex Namespace ObjectTable.
Open Scope Z_scope.

Definition HANDLE_CLOSED : Z := 0.
Definition HANDLE_STDIN : Z := 2 ^ 64 - 1.
Definition HANDLE_STDOUT : Z := 2 ^ 64 - 2.
Definition HANDLE_STDERR : Z := 2 ^ 64 - 3.

Record HandleEntry := mkHandle {
  object_id : Z;
  offset : Z;
}.

#[global] Instance HandleEntry_inhabited : Inhabited HandleEntry := populate (mkHandle 0 0).

Definition handle_closed : HandleEntry := mkHandle HANDLE_CLOSED 0.
Definition handle_stdin : HandleEntry := mkHandle HANDLE_STDIN 0.
Definition handle_stdout : HandleEntry := mkHandle HANDLE_STDOUT 0.
Definition handle_stderr : HandleEntry := mkHandle HANDLE_STDERR 0.
Definition ob_object (id _access_mask : Z) : HandleEntry := mkHandle id 0.

Definition has_ob_object (h : HandleEntry) : bool :=
  (object_id h >? 0) && (object_id h <? HANDLE_STDERR).
Definition is_open (h : HandleEntry) : bool := negb (object_id h =? HANDLE_CLOSED).
Definition is_stdio (h : HandleEntry) : bool := object_id h >=? HANDLE_STDERR.
Definition is_stdin (h : HandleEntry) : bool := object_id h =? HANDLE_STDIN.
Definition is_stdout (h : HandleEntry) : bool := object_id h =? HANDLE_STDOUT.
Definition is_stderr (h : HandleEntry) : bool := object_id h =? HANDLE_STDERR.

(** ** Handles and the Object Manager *)

Section manager.
Context {Ops SD T : Type} `{IndexLaws T}.
Implicit Types st : ObState Ops SD T.

(** [ob_create_object(..).unwrap_or(0)] as the id of a handle. *)
Definition new_handle st (ty : ObType) (name : str) (native fl off : Z)
    : option (HandleEntry * ObState Ops SD T) :=
  '(r, st) ← ob_create_object st ty name native fl None;
  Some (mkHandle (match r with Ok id => id | Err _ => 0 end) off, st).

Definition handle_pipe_read st (pipe_id : Z) :=
  new_handle st TPipe
    (from_utf8_or (bytes_of "PIPE_R" ++ [wrap 8 (pipe_id + 48)]) (bytes_of "PIPE_R")) pipe_id 0 0.
Definition handle_pipe_write st (pipe_id : Z) :=
  new_handle st TPipe
    (from_utf8_or (bytes_of "PIPE_W" ++ [wrap 8 (pipe_id + 48)]) (bytes_of "PIPE_W")) pipe_id 0 1.
Definition handle_file st (drive inode : Z) := new_handle st TFilesystem (bytes_of "FILE") inode drive 0.
Definition handle_device st (device_id : Z) := new_handle st TDevice (bytes_of "DEVICE") device_id 0 0.
Definition handle_event st (event_type : Z) := new_handle st TEvent (bytes_of "EVENT") event_type 0 0.
Definition handle_dir st (drive inode : Z) := new_handle st TDirectory (bytes_of "DIR") inode drive 0.

Definition is_valid st (h : HandleEntry) : option bool :=
  if negb (has_ob_object h) then Some true
  else r ← ob_lookup st (object_id h); Some (match r with Some _ => true | None => false end).

Definition is_open_and_valid st (h : HandleEntry) : option bool :=
  v ← is_valid st h; Some (is_open h && v).

(** A field of the object behind a handle. *)
Definition handle_field {A} st (h : HandleEntry) (f : ObObject Ops -> A) : option (option A) :=
  if negb (has_ob_object h) then Some None else r ← ob_lookup st (object_id h); Some (option_map f r).

Definition handle_obj_type st h := handle_field st h obj_type.
Definition handle_native_id st h := handle_field st h native_id.
Definition handle_drive st h := handle_field st h (λ o, Z.land (flags o) 0xFF).

Definition is_pipe_end st (h : HandleEntry) (off : Z) : option bool :=
  t ← handle_obj_type st h; Some (bool_decide (t = Some TPipe) && (offset h =? off)).
Definition is_pipe_read st h := is_pipe_end st h 0.
Definition is_pipe_write st h := is_pipe_end st h 1.

Context (on_destroy : Ops -> Z -> Z -> ObState Ops SD T -> option (ObState Ops SD T)).

Definition handle_close st (h : HandleEntry) : option (HandleEntry * ObState Ops SD T) :=
  v ← is_valid st h;
  if has_ob_object h && v then
    '(_, st) ← ob_close_object on_destroy st (object_id h); Some (handle_closed, st)
  else Some (handle_closed, st).

End manager.

(** ** Handle tables *)

Abbreviation HandleTable := (list HandleEntry).

Definition default_handle_table : HandleTable := [handle_stdin; handle_stdout; handle_stderr].
Definition closed_handle_table : HandleTable := [].

Definition ht_get (t : HandleTable) (fd : nat) : HandleEntry := default handle_closed (t !! fd).

(** [entries.resize(idx + 1, closed)] when the index is past the end. *)
Definition ht_extend (t : HandleTable) (idx : nat) : HandleTable :=
  if (length t <=? idx)%nat then t ++ replicate (idx + 1 - length t) handle_closed else t.

Definition ht_set (t : HandleTable) (fd : nat) (e : HandleEntry) : HandleTable :=
  <[fd := e]> (ht_extend t fd).

(** The indices [3..len] whose entry is closed. *)
Definition closed_slots (t : HandleTable) : list nat :=
  filter (λ i, is_open (t !!! i) = false) (seq 3 (length t - 3)).

Definition as_u8 (i : nat) : nat := (i `mod` 256)%nat.

Definition alloc_handle (t : HandleTable) (e : HandleEntry) : option nat * HandleTable :=
  match closed_slots t with
  | i :: _ => (Some (as_u8 i), <[i := e]> t)
  | [] =>
      if (255 <? length t)%nat then (None, t)
      else (Some (as_u8 (length t)), t ++ [e])
  end.

Definition alloc_two_handles (t : HandleTable) (e1 e2 : HandleEntry) : option (nat * nat) * HandleTable :=
  match closed_slots t with
  | [] => (None, t)
  | [i] =>
      if (255 <? length t)%nat then (None, t)
      else (Some (as_u8 i, as_u8 (length t)), <[as_u8 i := e1]> (t ++ [e2]))
  | i :: j :: _ => (Some (as_u8 i, as_u8 j), <[as_u8 j := e2]> (<[as_u8 i := e1]> t))
  end.

(** ** Tables *)

Lemma closed_slots_spec t i :
  i ∈ closed_slots t <-> (3 <= i < length t)%nat /\ is_open (t !!! i) = false.
Proof. unfold closed_slots. rewrite list_elem_of_filter, elem_of_seq. split; intros [? ?]; split; (done || lia). Qed.

Lemma closed_slots_nodup t : NoDup (closed_slots t).
Proof. apply NoDup_filter, NoDup_seq. Qed.

Lemma as_u8_small i : (i < 256)%nat -> as_u8 i = i.
Proof. intros. by apply Nat.mod_small. Qed.

Lemma ht_get_insert_eq t i e : (i < length t)%nat -> ht_get (<[i := e]> t) i = e.
Proof. intros. unfold ht_get. by rewrite list_lookup_insert_eq. Qed.

Lemma ht_get_insert_ne t i j e : i ≠ j -> ht_get (<[i := e]> t) j = ht_get t j.
Proof. intros. unfold ht_get. by rewrite list_lookup_insert_ne. Qed.

Lemma ht_get_snoc t e i : ht_get (t ++ [e]) i = if decide (i = length t) then e else ht_get t i.
Proof.
  unfold ht_get. case_decide as Hi.
  - subst. by rewrite lookup_app_r, Nat.sub_diag by lia.
  - destruct (decide (i < length t)%nat); [by rewrite lookup_app_l|].
    rewrite !lookup_ge_None_2; [done|lia|rewrite length_app; simpl; lia].
Qed.

Lemma ht_get_total t i : (i < length t)%nat -> ht_get t i = t !!! i.
Proof. intros Hi. unfold ht_get. by rewrite list_lookup_lookup_total_lt. Qed.

(** A table whose descriptors fit in a [u8], with its standard streams. *)
Definition table_ok (t : HandleTable) : Prop := (3 <= length t <= 256)%nat.

(** [alloc_handle] on a table of at most 256 entries fails exactly when all
    256 are open; otherwise it returns a descriptor outside the standard streams
    that was closed, stores the entry there, and changes no other descriptor and
    never grows the table past 256 entries. *)
Theorem alloc_handle_correct t e :
  table_ok t ->
  let '(r, t') := alloc_handle t e in
  table_ok t' /\
  match r with
  | Some fd => (3 <= fd < 256)%nat /\ is_open (ht_get t fd) = false /\ ht_get t' fd = e /\
      forall j, j ≠ fd -> ht_get t' j = ht_get t j
  | None => t' = t /\ length t = 256%nat /\ forall i, (3 <= i < 256)%nat -> is_open (ht_get t i) = true
  end.
Proof.
  unfold table_ok. intros Hok. unfold alloc_handle. pose proof (closed_slots_spec t) as Hsp.
  destruct (closed_slots t) as [|i l].
  - destruct (Nat.ltb_spec 255 (length t)); simpl.
    + split; [done|]. split; [done|]. split; [lia|]. intros i Hi.
      destruct (is_open (ht_get t i)) eqn:E; [done|]. rewrite ht_get_total in E by lia.
      assert (i ∈ []) as Hin by (apply Hsp; split; [lia|done]). by apply not_elem_of_nil in Hin.
    + rewrite length_app, as_u8_small by lia. simpl. split; [lia|]. split_and!; [lia|lia| | |].
      * unfold ht_get. by rewrite lookup_ge_None_2 by lia.
      * rewrite ht_get_snoc. by rewrite decide_True.
      * intros j Hj. rewrite ht_get_snoc. by rewrite decide_False.
  - assert ((3 <= i < length t)%nat /\ is_open (t !!! i) = false) as [Hi Ho] by (apply Hsp; by left).
    rewrite length_insert, as_u8_small by lia. split; [lia|]. split_and!; [lia|lia| | |].
    + by rewrite ht_get_total by lia.
    + apply ht_get_insert_eq. lia.
    + intros j Hj. by apply ht_get_insert_ne.
Qed.

(** When [alloc_two_handles] succeeds on such a table it returns two different
    descriptors outside the standard streams, both closed before, holding the two
    entries, and leaves every other descriptor and the bound of 256 entries. *)
Theorem alloc_two_handles_correct t e1 e2 a b t' :
  table_ok t -> alloc_two_handles t e1 e2 = (Some (a, b), t') ->
  table_ok t' /\ a ≠ b /\ (3 <= a < 256)%nat /\ (3 <= b < 256)%nat /\
  is_open (ht_get t a) = false /\ is_open (ht_get t b) = false /\
  ht_get t' a = e1 /\ ht_get t' b = e2 /\
  forall j, j ≠ a -> j ≠ b -> ht_get t' j = ht_get t j.
Proof.
  unfold table_ok. intros Hok. unfold alloc_two_handles.
  pose proof (closed_slots_spec t) as Hsp. pose proof (closed_slots_nodup t) as Hnd.
  destruct (closed_slots t) as [|i [|j l]]; [done| |].
  - assert ((3 <= i < length t)%nat /\ is_open (t !!! i) = false) as [Hi Ho] by (apply Hsp; by left).
    destruct (Nat.ltb_spec 255 (length t)); [done|]. rewrite !as_u8_small by lia. intros [= <- <- <-].
    rewrite length_insert, length_app. simpl. split_and!; try lia.
    + by rewrite ht_get_total by lia.
    + unfold ht_get. by rewrite lookup_ge_None_2 by lia.
    + apply ht_get_insert_eq. rewrite length_app. lia.
    + rewrite ht_get_insert_ne by lia. rewrite ht_get_snoc. by rewrite decide_True.
    + intros k Hk1 Hk2. rewrite ht_get_insert_ne by done. rewrite ht_get_snoc. by rewrite decide_False.
  - assert ((3 <= i < length t)%nat /\ is_open (t !!! i) = false) as [Hi Ho] by (apply Hsp; by left).
    assert ((3 <= j < length t)%nat /\ is_open (t !!! j) = false) as [Hj Hoj] by (apply Hsp; right; by left).
    apply NoDup_cons in Hnd as [Hij _]. rewrite not_elem_of_cons in Hij. destruct Hij as [Hij _].
    rewrite !as_u8_small by lia. intros [= <- <- <-]. rewrite !length_insert.
    split_and!; try lia; try (by rewrite ht_get_total by lia).
    + rewrite ht_get_insert_ne by done. apply ht_get_insert_eq. lia.
    + apply ht_get_insert_eq. rewrite length_insert. lia.
    + intros k Hk1 Hk2. by rewrite !ht_get_insert_ne by done.
Qed.

(** [alloc_two_handles] only extends a table that already has a closed entry:
    on the table every process starts with, and on any table without a closed
    entry, it fails although 250 descriptors are free for [alloc_handle]. *)
Theorem alloc_two_handles_needs_closed_slot t e1 e2 :
  closed_slots t = [] -> (length t <= 254)%nat -> is_open e1 = true ->
  alloc_two_handles t e1 e2 = (None, t) /\
  exists a b t1 t2, alloc_handle t e1 = (Some a, t1) /\ alloc_handle t1 e2 = (Some b, t2).
Proof.
  intros Hc Hlen He. unfold alloc_two_handles. rewrite Hc. split; [done|].
  exists (as_u8 (length t)), (as_u8 (length (t ++ [e1]))), (t ++ [e1]), ((t ++ [e1]) ++ [e2]). split.
  { unfold alloc_handle. rewrite Hc. destruct (Nat.ltb_spec 255 (length t)); [lia|done]. }
  unfold alloc_handle. destruct (closed_slots (t ++ [e1])) as [|i l] eqn:E.
  - destruct (Nat.ltb_spec 255 (length (t ++ [e1]))) as [Hl|]; [rewrite length_app in Hl; simpl in Hl; lia|done].
  - assert (i ∈ closed_slots (t ++ [e1])) as Hi by (rewrite E; by left).
    apply closed_slots_spec in Hi as [Hi Ho]. rewrite length_app in Hi. simpl in Hi.
    rewrite <-ht_get_total, ht_get_snoc in Ho by (rewrite length_app; simpl; lia).
    case_decide; [congruence|].
    assert (i ∈ closed_slots t) as Hin.
    { apply closed_slots_spec. rewrite ht_get_total in Ho by lia. split; [lia|done]. }
    rewrite Hc in Hin. by apply not_elem_of_nil in Hin.
Qed.

(** ** Closing *)

Section closing.
Context {Ops SD T : Type} `{IndexLaws T}.
Context (on_destroy : Ops -> Z -> Z -> ObState Ops SD T -> option (ObState Ops SD T)).
Context (victims : Ops -> Z -> Z -> list Z) (Hcb : only_victims on_destroy victims).

(** Closing a handle drops exactly one reference: a handle on a live object
    runs [ob_close_object] on it and nothing else, a stale handle, a standard
    stream or a closed handle leaves the Object Manager alone, and in each case
    the handle is closed, so that closing it again has no effect. *)
Theorem handle_close_once st s k h :
  refines victims st s k -> 0 <= object_id h < 2 ^ 64 ->
  exists st', handle_close on_destroy st h = Some (handle_closed, st') /\
    handle_close on_destroy st' handle_closed = Some (handle_closed, st') /\
    (if has_ob_object h && bool_decide (is_Some (s.1 !! object_id h))
     then refines victims st' (spec_step victims s (OpClose (Ops := Ops) (object_id h))).2 (k + 1)
     else st' = st).
Proof.
  intros Href Hid. unfold handle_close, is_valid.
  destruct (has_ob_object h) eqn:Ho; simpl; [|eauto].
  assert (object_id h ≠ TOMBSTONE) as Hne.
  { unfold has_ob_object, HANDLE_STDERR, TOMBSTONE in *. lia. }
  destruct (rf_map _ _ _ _ Href) as (m & Hr & Hc). unfold ob_lookup. rewrite (lookup_rep _ _ _ Hr Hne). simpl.
  destruct (close_refines on_destroy victims Hcb st s k (object_id h)) as (st' & Hcl & Href'); [done|done|].
  rewrite Hc, lookup_fmap in Hcl |- *. destruct (m !! object_id h) as [o|]; simpl in Hcl |- *.
  - rewrite Hcl. simpl. eauto.
  - eauto.
Qed.

End closing.

Lemma alloc_handle_correct_witness :
  ht_get (alloc_handle default_handle_table (mkHandle 12 0)).2 3 = mkHandle 12 0.
Proof.
  pose proof (alloc_handle_correct default_handle_table (mkHandle 12 0)) as H.
  destruct (alloc_handle default_handle_table (mkHandle 12 0)) as [r t'] eqn:E.
  destruct H as [_ H]; [split; simpl; lia|]. vm_compute in E. injection E as <- <-.
  destruct H as (_ & _ & H & _). exact H.
Defined.

Lemma alloc_two_handles_correct_witness :
  alloc_two_handles (default_handle_table ++ [handle_closed]) (mkHandle 12 0) (mkHandle 12 1) =
    (Some (3, 4)%nat, default_handle_table ++ [mkHandle 12 0; mkHandle 12 1]) /\ (3 ≠ 4)%nat.
Proof.
  split; [reflexivity|].
  destruct (alloc_two_handles_correct (default_handle_table ++ [handle_closed]) (mkHandle 12 0) (mkHandle 12 1)
    3 4 (default_handle_table ++ [mkHandle 12 0; mkHandle 12 1])) as (_ & Hne & _).
  - split; simpl; lia.
  - reflexivity.
  - exact Hne.
Defined.

Lemma alloc_two_handles_needs_closed_slot_witness :
  alloc_two_handles default_handle_table (mkHandle 12 0) (mkHandle 12 1) = (None, default_handle_table).
Proof.
  destruct (alloc_two_handles_needs_closed_slot default_handle_table (mkHandle 12 0) (mkHandle 12 1))
    as [H _]; [reflexivity|simpl; lia|reflexivity|exact H].
Defined.

Lemma handle_close_once_witness :
  handle_close no_callback empty_state (mkHandle 5 0) = Some (handle_closed, empty_state).
Proof.
  destruct (handle_close_once (T := IdIndex) no_callback
    (λ _ _ _, []) no_callback_ok empty_state (∅, 1) 0 (mkHandle 5 0))
    as (st' & Hc & _ & Hst).
  - split; simpl; [|done|done|done]. exists ∅. split; [apply table_new_rep|reflexivity].
  - simpl. lia.
  - rewrite Hc. vm_compute in Hst. by rewrite Hst.
Defined.
