(* ===== verification/Pipe.v ===== *)
(** * Pipe.v: pipes ([object/pipe.rs])

    A pipe is a ring buffer of 4096 bytes in which one byte stays free, two end
    flags and two reference counts; the manager keeps the pipes in a growing
    vector next to the ids of their kernel objects.  The manager's calls into the
    Object Manager use the model of [ObjectTable.v]; a wake-up of the readers
    ([kwait_wake]) is the boolean the operation returns.  The mutexes make every
    method one step. *)

From stdpp Require Import gmap.
From S2P Require Import Prelude Str BTreeMap IdIndex Namespace ObjectTable.
Open Scope Z_scope.

Definition PIPE_BUF_SIZE : nat := 4096.
Definition MAX_PIPES : nat := 16.
#[global] Arguments PIPE_BUF_SIZE : simpl never.
#[local] Arguments Nat.modulo : simpl never.

Record PipeInner := mkPipe {
  buf : list Z;
  head : nat;
  tail : nat;
  write_closed : bool;
  read_closed : bool;
  in_use : bool;
  read_refs : Z;
  write_refs : Z;
}.

Definition pipe_new_unused : PipeInner :=
  mkPipe (replicate PIPE_BUF_SIZE 0) 0 0 false false false 0 0.

(** [reset]: everything but the bytes and [in_use]. *)
Definition pipe_reset (p : PipeInner) : PipeInner := mkPipe (buf p) 0 0 false false (in_use p) 0 0.

Definition set_in_use (p : PipeInner) (b : bool) : PipeInner :=
  mkPipe (buf p) (head p) (tail p) (write_closed p) (read_closed p) b (read_refs p) (write_refs p).
Definition set_head (p : PipeInner) (h : nat) : PipeInner :=
  mkPipe (buf p) h (tail p) (write_closed p) (read_closed p) (in_use p) (read_refs p) (write_refs p).
Definition set_buf (p : PipeInner) (b : list Z) (t : nat) : PipeInner :=
  mkPipe b (head p) t (write_closed p) (read_closed p) (in_use p) (read_refs p) (write_refs p).
Definition set_read_end (p : PipeInner) (closed : bool) (refs : Z) : PipeInner :=
  mkPipe (buf p) (head p) (tail p) (write_closed p) closed (in_use p) refs (write_refs p).
Definition set_write_end (p : PipeInner) (closed : bool) (refs : Z) : PipeInner :=
  mkPipe (buf p) (head p) (tail p) closed (read_closed p) (in_use p) (read_refs p) refs.

Definition pipe_used (p : PipeInner) : nat :=
  if (head p <=? tail p)%nat then (tail p - head p)%nat else (PIPE_BUF_SIZE - head p + tail p)%nat.

Definition pipe_free (p : PipeInner) : nat := (PIPE_BUF_SIZE - pipe_used p - 1)%nat.

(** [read_into] a buffer of [n] bytes: the bytes copied. *)
Definition read_into (p : PipeInner) (n : nat) : list Z * PipeInner :=
  let to_read := Nat.min (pipe_used p) n in
  ((λ i, buf p !!! ((head p + i) `mod` PIPE_BUF_SIZE)%nat) <$> seq 0 to_read,
   set_head p ((head p + to_read) `mod` PIPE_BUF_SIZE)%nat).

(** The loop of [write_from], from offset [i] of the write position. *)
Fixpoint write_loop (b : list Z) (t i : nat) (bytes : list Z) : list Z :=
  match bytes with
  | [] => b
  | x :: bytes => write_loop (<[((t + i) `mod` PIPE_BUF_SIZE)%nat := x]> b) t (S i) bytes
  end.

Definition write_from (p : PipeInner) (bytes : list Z) : nat * PipeInner :=
  let to_write := Nat.min (pipe_free p) (length bytes) in
  (to_write, set_buf p (write_loop (buf p) (tail p) 0 (take to_write bytes))
               ((tail p + to_write) `mod` PIPE_BUF_SIZE)%nat).

(** ** The manager *)

Record PipeManager := mkPM {
  pipes : list (option PipeInner);
  kobj_ids : list (option Z);
}.

Definition pm_new : PipeManager := mkPM [] [].

Definition resize_none {A} (l : list (option A)) (idx : nat) : list (option A) :=
  if (length l <=? idx)%nat then l ++ replicate (idx + 1 - length l) None else l.

Definition ensure_idx (pm : PipeManager) (idx : nat) : PipeManager :=
  mkPM (resize_none (pipes pm) idx) (resize_none (kobj_ids pm) idx).

Definition set_pipe (pm : PipeManager) (idx : nat) (p : PipeInner) : PipeManager :=
  mkPM (<[idx := Some p]> (pipes pm)) (kobj_ids pm).

Definition set_kobj_id (pm : PipeManager) (idx : nat) (id : option Z) : PipeManager :=
  let pm := ensure_idx pm idx in mkPM (pipes pm) (<[idx := id]> (kobj_ids pm)).

(** [get_kobj_id] extends the vectors before it reads. *)
Definition get_kobj_id (pm : PipeManager) (idx : nat) : option Z := mjoin (kobj_ids pm !! idx).

Definition get_pipe (pm : PipeManager) (idx : nat) : option PipeInner := mjoin (pipes pm !! idx).

(** The methods that update one pipe in place: nothing happens without a pipe. *)
Definition with_pipe (pm : PipeManager) (idx : nat) (f : PipeInner -> PipeInner) : PipeManager :=
  let pm := ensure_idx pm idx in
  match get_pipe pm idx with Some p => set_pipe pm idx (f p) | None => pm end.

Definition sat_inc8 (n : Z) : Z := sat_add 8 n 1.

Definition inc_read_ref (pm : PipeManager) (id : nat) : PipeManager :=
  with_pipe pm id (λ p, set_read_end p (read_closed p) (sat_inc8 (read_refs p))).
Definition inc_write_ref (pm : PipeManager) (id : nat) : PipeManager :=
  with_pipe pm id (λ p, set_write_end p (write_closed p) (sat_inc8 (write_refs p))).

Definition dec8 (n : Z) : Z := if n >? 0 then n - 1 else n.

(** [read] into a buffer of [n] bytes: [Err] is "would block" or no such pipe;
    the boolean is the wake-up of the readers. *)
Definition pm_read (pm : PipeManager) (id n : nat) : result () (list Z) * bool * PipeManager :=
  let pm := ensure_idx pm id in
  match get_pipe pm id with
  | None => (Err (), false, pm)
  | Some p =>
      if (0 <? pipe_used p)%nat then
        let '(bytes, p') := read_into p n in (Ok bytes, true, set_pipe pm id p')
      else if write_closed p then (Ok [], false, pm)
      else (Err (), false, pm)
  end.

Definition pm_write (pm : PipeManager) (id : nat) (bytes : list Z) : result () nat * bool * PipeManager :=
  let pm := ensure_idx pm id in
  match get_pipe pm id with
  | None => (Err (), false, pm)
  | Some p =>
      if read_closed p then (Err (), false, pm)
      else if (pipe_free p =? 0)%nat then (Err (), false, pm)
      else let '(n, p') := write_from p bytes in (Ok n, true, set_pipe pm id p')
  end.

Definition pipe_peek_read_ready (pm : PipeManager) (id : nat) : option bool :=
  p ← get_pipe pm id; Some ((0 <? pipe_used p)%nat || write_closed p).
Definition pipe_peek_write_closed (pm : PipeManager) (id : nat) : option bool :=
  p ← get_pipe pm id; Some (write_closed p).
Definition pipe_peek_read_closed (pm : PipeManager) (id : nat) : option bool :=
  p ← get_pipe pm id; Some (read_closed p).

(** The first pipe that is not in use. *)
Fixpoint find_unused (l : list (option PipeInner)) (i : nat) : option (nat * PipeInner) :=
  match l with
  | [] => None
  | Some p :: l => if in_use p then find_unused l (S i) else Some (i, p)
  | None :: l => find_unused l (S i)
  end.

Section manager.
Context {Ops SD T : Type} `{IndexLaws T}.
Implicit Types st : ObState Ops SD T.
Context (on_destroy : Ops -> Z -> Z -> ObState Ops SD T -> option (ObState Ops SD T)).

(** [format!("pipe/{}", i)] for the two-digit indices there are. *)
Definition pipe_name (i : nat) : str :=
  bytes_of "pipe/" ++
  (if (i <? 10)%nat then [48 + Z.of_nat i] else [48 + Z.of_nat i / 10; 48 + Z.of_nat i `mod` 10]).

(** Registering the kernel object of a pipe that was allocated. *)
Definition register_pipe (pm : PipeManager) st (i : nat) : option (PipeManager * ObState Ops SD T) :=
  '(r, st) ← ob_create_object st TPipe (pipe_name i) (Z.of_nat i) 0 None;
  Some (match r with Ok kid => set_kobj_id pm i (Some kid) | Err _ => pm end, st).

Definition pm_alloc (pm : PipeManager) st : option (option nat * PipeManager * ObState Ops SD T) :=
  match find_unused (pipes pm) 0 with
  | Some (i, p) =>
      '(pm, st) ← register_pipe (set_pipe pm i (pipe_reset (set_in_use p true))) st i;
      Some (Some i, pm, st)
  | None =>
      if (MAX_PIPES <=? length (pipes pm))%nat then Some (None, pm, st)
      else
        let i := length (pipes pm) in
        let pm := mkPM (pipes pm ++ [Some (set_in_use pipe_new_unused true)]) (kobj_ids pm) in
        '(pm, st) ← register_pipe (ensure_idx pm i) st i;
        Some (Some i, pm, st)
  end.

(** Destroying the kernel object; its result is ignored. *)
Definition unregister (pm : PipeManager) st (idx : nat) (kid : option Z)
    : option (PipeManager * ObState Ops SD T) :=
  match kid with
  | Some k => '(_, st) ← ob_destroy_object on_destroy st k; Some (set_kobj_id pm idx None, st)
  | None => Some (pm, st)
  end.

Definition maybe_free_pipe (pm : PipeManager) st (id : nat) : option (PipeManager * ObState Ops SD T) :=
  let pm := ensure_idx pm id in
  let kid := get_kobj_id pm id in
  match get_pipe pm id with
  | Some p =>
      if (read_refs p =? 0) && (write_refs p =? 0)
      then unregister (set_pipe pm id (set_in_use p false)) st id kid
      else Some (pm, st)
  | None => Some (pm, st)
  end.

Definition dec_read_ref (pm : PipeManager) st (id : nat) : option (PipeManager * ObState Ops SD T) :=
  maybe_free_pipe (with_pipe pm id (λ p, set_read_end p true (dec8 (read_refs p)))) st id.
Definition dec_write_ref (pm : PipeManager) st (id : nat) : option (PipeManager * ObState Ops SD T) :=
  maybe_free_pipe (with_pipe pm id (λ p, set_write_end p true (dec8 (write_refs p)))) st id.

Definition free_pipe (pm : PipeManager) st (id : nat) : option (PipeManager * ObState Ops SD T) :=
  let pm := ensure_idx pm id in
  '(pm, st) ← unregister pm st id (get_kobj_id pm id);
  Some (match get_pipe pm id with
        | Some p => set_pipe pm id (pipe_reset (set_in_use p false))
        | None => pm
        end, st).

End manager.

(** ** The bytes in a pipe *)

Definition contents (p : PipeInner) : list Z :=
  (λ i, buf p !!! ((head p + i) `mod` PIPE_BUF_SIZE)%nat) <$> seq 0 (pipe_used p).

Record pipe_ok (p : PipeInner) : Prop := {
  po_buf : length (buf p) = PIPE_BUF_SIZE;
  po_head : (head p < PIPE_BUF_SIZE)%nat;
  po_tail : (tail p < PIPE_BUF_SIZE)%nat;
}.

Lemma size_pos : (0 < PIPE_BUF_SIZE)%nat.
Proof. unfold PIPE_BUF_SIZE. lia. Qed.

(** Positions of the ring: an offset below the size is determined by its position. *)
Lemma ring_inj N a i j : (i < N)%nat -> (j < N)%nat -> ((a + i) `mod` N = (a + j) `mod` N)%nat -> i = j.
Proof.
  intros Hi Hj Heq. pose proof (Nat.div_mod_eq (a + i) N) as H1. pose proof (Nat.div_mod_eq (a + j) N) as H2.
  rewrite Heq in H1. set (q1 := ((a + i) / N)%nat) in *. set (q2 := ((a + j) / N)%nat) in *.
  set (r := ((a + j) `mod` N)%nat) in *. clearbody q1 q2 r.
  destruct (Nat.lt_trichotomy q1 q2) as [Hq|[->|Hq]]; [exfalso; nia|lia|exfalso; nia].
Qed.

Lemma ring_add N a i j : N ≠ 0%nat -> (((a + i) `mod` N + j) `mod` N = (a + (i + j)) `mod` N)%nat.
Proof. intros. rewrite Nat.Div0.add_mod_idemp_l. f_equal. lia. Qed.

Lemma ring_back N a u k :
  (u <= N)%nat -> N ≠ 0%nat -> ((a + k) `mod` N = ((a + u) `mod` N + (N - u + k)) `mod` N)%nat.
Proof.
  intros Hu HN. rewrite ring_add by done. replace (a + (u + (N - u + k)))%nat with (a + k + 1 * N)%nat by lia.
  by rewrite Nat.Div0.mod_add.
Qed.

Lemma used_lt p : pipe_ok p -> (pipe_used p < PIPE_BUF_SIZE)%nat.
Proof. intros [_ ? ?]. unfold pipe_used. destruct (Nat.leb_spec (head p) (tail p)); lia. Qed.

Lemma tail_used p : pipe_ok p -> tail p = ((head p + pipe_used p) `mod` PIPE_BUF_SIZE)%nat.
Proof.
  intros [_ ? ?]. unfold pipe_used. destruct (Nat.leb_spec (head p) (tail p)).
  - rewrite Nat.mod_small; lia.
  - replace (head p + (PIPE_BUF_SIZE - head p + tail p))%nat with (tail p + 1 * PIPE_BUF_SIZE)%nat by lia.
    rewrite Nat.Div0.mod_add. by rewrite Nat.mod_small.
Qed.

(** The count is what separates tail from head. *)
Lemma used_unique p n :
  pipe_ok p -> (n < PIPE_BUF_SIZE)%nat -> tail p = ((head p + n) `mod` PIPE_BUF_SIZE)%nat ->
  pipe_used p = n.
Proof.
  intros Hp Hn Ht. apply (ring_inj PIPE_BUF_SIZE (head p)); [by apply used_lt|done|].
  by rewrite <-tail_used.
Qed.

Lemma length_contents p : length (contents p) = pipe_used p.
Proof. unfold contents. by rewrite length_fmap, length_seq. Qed.

Lemma read_into_spec p n :
  pipe_ok p ->
  pipe_ok (read_into p n).2 /\ (read_into p n).1 = take n (contents p) /\
  contents (read_into p n).2 = drop n (contents p).
Proof.
  intros Hp. pose proof (used_lt p Hp) as Hu. pose proof size_pos as HN. unfold read_into. simpl.
  set (r := Nat.min (pipe_used p) n). set (p' := set_head p _).
  assert (pipe_ok p') as Hp'.
  { destruct Hp. split; simpl; [done|apply Nat.mod_upper_bound; lia|done]. }
  assert (pipe_used p' = pipe_used p - r)%nat as Hu'.
  { apply used_unique; [done|lia|]. simpl. rewrite (tail_used p Hp), ring_add by lia.
    do 2 f_equal. unfold r. lia. }
  split; [done|]. unfold contents. rewrite Hu'. split.
  - rewrite <-fmap_take. f_equal. rewrite take_seq. f_equal. unfold r. lia.
  - rewrite <-fmap_drop, drop_seq. destruct (decide (pipe_used p <= n)%nat).
    { replace (pipe_used p - r)%nat with 0%nat by (unfold r; lia).
      by replace (pipe_used p - n)%nat with 0%nat by lia. }
    assert (r = n) as Hrn by (unfold r; lia). rewrite Hrn.
    replace (seq (0 + n) (pipe_used p - n)) with (Nat.add n <$> seq 0 (pipe_used p - n))
      by (rewrite fmap_add_seq; f_equal; lia).
    rewrite <-list_fmap_compose. apply list_fmap_ext. intros i x _. simpl.
    rewrite ring_add by lia. by rewrite Hrn.
Qed.

Lemma length_write_loop bytes b t i : length (write_loop b t i bytes) = length b.
Proof. revert b i. induction bytes as [|x l IH]; intros b i; simpl; [done|]. by rewrite IH, length_insert. Qed.

(** What the write loop stores at the [m]-th position from the tail. *)
Lemma write_loop_lookup bytes b t i m :
  length b = PIPE_BUF_SIZE -> (m < PIPE_BUF_SIZE)%nat -> (i + length bytes <= PIPE_BUF_SIZE)%nat ->
  write_loop b t i bytes !!! ((t + m) `mod` PIPE_BUF_SIZE)%nat =
    (if decide (i <= m < i + length bytes)%nat then bytes !!! (m - i)%nat
     else b !!! ((t + m) `mod` PIPE_BUF_SIZE)%nat).
Proof.
  pose proof size_pos as HN. revert b i. induction bytes as [|x l IH]; intros b i Hb Hm Hi; simpl in *.
  { by rewrite decide_False by lia. }
  rewrite IH by (rewrite ?length_insert; lia).
  destruct (decide (m = i)) as [->|Hne].
  - rewrite decide_False by lia. rewrite decide_True by lia. rewrite Nat.sub_diag. simpl.
    apply list_lookup_total_insert_eq. rewrite Hb. apply Nat.mod_upper_bound. lia.
  - rewrite list_lookup_total_insert_ne.
    2: { intros Heq. apply Hne. symmetry. by eapply (ring_inj PIPE_BUF_SIZE t); [lia| |]. }
    destruct (decide (S i <= m < S i + length l)%nat).
    + rewrite decide_True by lia. by replace (m - i)%nat with (S (m - S i)) by lia.
    + by rewrite decide_False by lia.
Qed.

Lemma write_from_spec p bytes :
  pipe_ok p ->
  let n := Nat.min (PIPE_BUF_SIZE - 1 - length (contents p)) (length bytes) in
  (write_from p bytes).1 = n /\ pipe_ok (write_from p bytes).2 /\
  contents (write_from p bytes).2 = contents p ++ take n bytes.
Proof.
  intros Hp n. pose proof (used_lt p Hp) as Hu. pose proof size_pos as HN.
  assert (Nat.min (pipe_free p) (length bytes) = n) as Hn.
  { unfold pipe_free, n. rewrite length_contents. lia. }
  unfold write_from. rewrite Hn. simpl. split; [done|]. set (p' := set_buf p _ _).
  assert (pipe_ok p') as Hp'.
  { destruct Hp. split; simpl; [by rewrite length_write_loop|done|apply Nat.mod_upper_bound; lia]. }
  assert (n < PIPE_BUF_SIZE - pipe_used p)%nat as Hlt by (unfold n; rewrite length_contents; lia).
  assert (pipe_used p' = pipe_used p + n)%nat as Hu'.
  { apply used_unique; [done|lia|]. simpl. rewrite (tail_used p Hp), ring_add by lia. done. }
  split; [done|]. unfold contents at 1. rewrite Hu', seq_app, fmap_app. f_equal.
  - unfold contents. apply list_fmap_ext. intros i x Hx%lookup_seq. simpl.
    destruct Hx as [-> Hx]. simpl in *. rewrite (ring_back _ (head p) (pipe_used p)) by lia.
    rewrite <-tail_used by done. rewrite write_loop_lookup.
    + by rewrite decide_False by (rewrite length_take; lia).
    + apply Hp.
    + lia.
    + rewrite length_take. lia.
  - apply list_eq. intros j. destruct (decide (j < n)%nat).
    + rewrite list_lookup_fmap, lookup_seq_lt by lia. simpl.
      replace ((head p + (pipe_used p + j)) `mod` PIPE_BUF_SIZE)%nat
        with ((tail p + j) `mod` PIPE_BUF_SIZE)%nat.
      2: { rewrite (tail_used p Hp). by apply ring_add. }
      assert (length (take n bytes) = n) as Hlen by (rewrite length_take; unfold n; lia).
      rewrite write_loop_lookup by (rewrite ?Hlen; apply Hp || lia).
      rewrite decide_True by lia. rewrite Nat.sub_0_r.
      symmetry. apply list_lookup_lookup_total_lt. lia.
    + rewrite !lookup_ge_None_2; [done| |]; rewrite ?length_fmap, ?length_seq, ?length_take; lia.
Qed.

(** ** Manager lookups *)

Lemma get_pipe_ensure pm i j : get_pipe (ensure_idx pm i) j = get_pipe pm j.
Proof.
  unfold get_pipe, ensure_idx, resize_none. simpl. destruct (Nat.leb_spec (length (pipes pm)) i); [|done].
  destruct (decide (j < length (pipes pm))%nat); [by rewrite lookup_app_l|].
  rewrite (lookup_ge_None_2 (pipes pm)) by lia. rewrite lookup_app_r by lia. simpl.
  destruct (_ !! _) as [o|] eqn:E; [|done]. by apply lookup_replicate in E as [-> _].
Qed.

Lemma get_pipe_set_eq pm i p q : get_pipe pm i = Some q -> get_pipe (set_pipe pm i p) i = Some p.
Proof.
  unfold get_pipe, set_pipe. simpl. intros Hq. rewrite list_lookup_insert_eq; [done|].
  apply lookup_lt_is_Some. destruct (pipes pm !! i); [by eexists|done].
Qed.

Lemma get_pipe_set_ne pm i j p : i ≠ j -> get_pipe (set_pipe pm i p) j = get_pipe pm j.
Proof. intros. unfold get_pipe, set_pipe. simpl. by rewrite list_lookup_insert_ne. Qed.

Definition pm_ok (pm : PipeManager) : Prop := forall i p, get_pipe pm i = Some p -> pipe_ok p.

(** ** Streams of bytes *)

Inductive pipe_op :=
  | PWrite (bytes : list Z)
  | PRead (n : nat).

(** A run on one pipe: the bytes accepted, the bytes returned, the manager. *)
Fixpoint pipe_run (pm : PipeManager) (id : nat) (ops : list pipe_op) : list Z * list Z * PipeManager :=
  match ops with
  | [] => ([], [], pm)
  | PWrite bytes :: ops =>
      let '(r, _, pm) := pm_write pm id bytes in
      let '(ins, outs, pm) := pipe_run pm id ops in
      (match r with Ok n => take n bytes ++ ins | Err _ => ins end, outs, pm)
  | PRead n :: ops =>
      let '(r, _, pm) := pm_read pm id n in
      let '(ins, outs, pm) := pipe_run pm id ops in
      (ins, match r with Ok bytes => bytes ++ outs | Err _ => outs end, pm)
  end.

Lemma pm_write_pipe pm id bytes p :
  get_pipe pm id = Some p -> pipe_ok p ->
  let '(r, wake, pm') := pm_write pm id bytes in
  exists p', get_pipe pm' id = Some p' /\ pipe_ok p' /\
    contents p' = contents p ++ match r with Ok n => take n bytes | Err _ => [] end /\
    (r = Err () <-> read_closed p = true \/ length (contents p) = (PIPE_BUF_SIZE - 1)%nat) /\
    (forall n, r = Ok n -> n = Nat.min (PIPE_BUF_SIZE - 1 - length (contents p)) (length bytes) /\ wake = true).
Proof.
  intros Hg Hp. pose proof (used_lt p Hp) as Hu. unfold pm_write. rewrite get_pipe_ensure, Hg.
  rewrite length_contents. destruct (read_closed p) eqn:Ec.
  { exists p. rewrite get_pipe_ensure, app_nil_r. split_and!; try done. split; auto. }
  destruct (Nat.eqb_spec (pipe_free p) 0) as [Ef|Ef]; unfold pipe_free in Ef.
  { exists p. rewrite get_pipe_ensure, app_nil_r. split_and!; try done. split; [intros _; right; lia|done]. }
  pose proof (write_from_spec p bytes Hp) as (H1 & H2 & H3). rewrite length_contents in H1, H3.
  destruct (write_from p bytes) as [n p']. simpl in *. subst n. exists p'.
  erewrite get_pipe_set_eq by (by rewrite get_pipe_ensure). split_and!; try done.
  - split; [done|]. intros [?|?]; [done|]. change PIPE_BUF_SIZE with 4096%nat in Ef. lia.
  - by intros n [= <-].
Qed.

Lemma pm_read_pipe pm id n p :
  get_pipe pm id = Some p -> pipe_ok p ->
  let '(r, wake, pm') := pm_read pm id n in
  exists p', get_pipe pm' id = Some p' /\ pipe_ok p' /\
    contents p = match r with Ok bytes => bytes | Err _ => [] end ++ contents p' /\
    r = (if decide (contents p = []) then (if write_closed p then Ok [] else Err ())
         else Ok (take n (contents p))).
Proof.
  intros Hg Hp. unfold pm_read. rewrite get_pipe_ensure, Hg.
  destruct (Nat.ltb_spec 0 (pipe_used p)) as [Hu|Hu]; rewrite <-length_contents in Hu.
  - pose proof (read_into_spec p n Hp) as (H1 & H2 & H3). destruct (read_into p n) as [bytes p'].
    simpl in *. exists p'. erewrite get_pipe_set_eq by (by rewrite get_pipe_ensure).
    rewrite decide_False by (intros E; rewrite E in Hu; simpl in Hu; lia).
    split_and!; try done; [by rewrite H2, H3, take_drop|by rewrite H2].
  - assert (contents p = []) as He by (apply nil_length_inv; lia).
    rewrite He, decide_True by done. destruct (write_closed p); exists p; by rewrite get_pipe_ensure, He.
Qed.

(** C35. A pipe is a first-in first-out queue: over every sequence of reads and
    writes, the bytes returned followed by the bytes still in the pipe are the
    bytes it held at the start followed by the bytes the writes accepted, in
    order, none lost, duplicated or reordered, across every wrap-around. *)
Theorem pipe_fifo pm id ops p :
  get_pipe pm id = Some p -> pipe_ok p ->
  let '(ins, outs, pm') := pipe_run pm id ops in
  exists p', get_pipe pm' id = Some p' /\ pipe_ok p' /\ outs ++ contents p' = contents p ++ ins.
Proof.
  revert pm p. induction ops as [|[bytes|n] ops IH]; intros pm p Hg Hp; simpl.
  - exists p. by rewrite app_nil_r.
  - pose proof (pm_write_pipe pm id bytes p Hg Hp) as Hw.
    destruct (pm_write pm id bytes) as [[r w] pm1]. destruct Hw as (p1 & Hg1 & Hp1 & Hc & _).
    specialize (IH pm1 p1 Hg1 Hp1). destruct (pipe_run pm1 id ops) as [[ins outs] pm2].
    destruct IH as (p2 & Hg2 & Hp2 & He). exists p2. split_and!; try done.
    rewrite He, Hc. destruct r; [by rewrite <-app_assoc|by rewrite app_nil_r].
  - pose proof (pm_read_pipe pm id n p Hg Hp) as Hr.
    destruct (pm_read pm id n) as [[r w] pm1]. destruct Hr as (p1 & Hg1 & Hp1 & Hc & _).
    specialize (IH pm1 p1 Hg1 Hp1). destruct (pipe_run pm1 id ops) as [[ins outs] pm2].
    destruct IH as (p2 & Hg2 & Hp2 & He). exists p2. split_and!; try done.
    rewrite Hc. destruct r; rewrite <-?app_assoc, He; done.
Qed.

(** The results of one read and one write: a read returns as many of the
    oldest bytes as fit, end of file on an empty pipe whose writer has closed and
    "would block" on an empty open one; a write accepts bytes up to the capacity
    of 4095 and fails exactly on a full pipe or a closed reader. *)
Theorem pipe_read_write_results pm id n bytes p :
  get_pipe pm id = Some p -> pipe_ok p ->
  (pm_read pm id n).1.1 =
    (if decide (contents p = []) then (if write_closed p then Ok [] else Err ())
     else Ok (take n (contents p))) /\
  (pm_write pm id bytes).1.1 =
    (if decide (read_closed p = true \/ length (contents p) = 4095%nat) then Err ()
     else Ok (Nat.min (4095 - length (contents p)) (length bytes))).
Proof.
  intros Hg Hp. split.
  - pose proof (pm_read_pipe pm id n p Hg Hp) as Hr. destruct (pm_read pm id n) as [[r w] pm'].
    by destruct Hr as (_ & _ & _ & _ & ->).
  - pose proof (pm_write_pipe pm id bytes p Hg Hp) as Hw. destruct (pm_write pm id bytes) as [[r w] pm'].
    destruct Hw as (_ & _ & _ & _ & He & Hok). change (PIPE_BUF_SIZE - 1)%nat with 4095%nat in *.
    simpl. case_decide as Hd; [by apply He|].
    destruct r as [k|[]]; [|by destruct Hd; apply He]. by destruct (Hok k eq_refl) as [-> _].
Qed.

(** ** References and allocation *)

Section references.
Context {Ops SD T : Type} `{IndexLaws T}.
Implicit Types st : ObState Ops SD T.
Context (on_destroy : Ops -> Z -> Z -> ObState Ops SD T -> option (ObState Ops SD T)).

(** Closing one of several write handles ends the stream for the readers: with
    two or more writers left open, [dec_write_ref] still counts a writer, yet a
    read of the empty pipe reports end of file instead of "would block". *)
Theorem close_one_writer_ends_stream pm st id p n :
  get_pipe pm id = Some p -> contents p = [] -> 2 <= write_refs p <= 255 -> write_closed p = false ->
  (pm_read pm id n).1.1 = Err () /\
  exists pm' p', dec_write_ref on_destroy pm st id = Some (pm', st) /\
    get_pipe pm' id = Some p' /\ 1 <= write_refs p' /\ (pm_read pm' id n).1.1 = Ok [].
Proof.
  intros Hg Hc Hr Hw. assert (pipe_used p = 0%nat) as Hu by (rewrite <-length_contents; by rewrite Hc).
  split.
  { unfold pm_read. rewrite get_pipe_ensure, Hg, Hu, Hw. done. }
  set (p' := set_write_end p true (write_refs p - 1)).
  assert (with_pipe pm id (λ p, set_write_end p true (dec8 (write_refs p))) =
    set_pipe (ensure_idx pm id) id p') as Hwp.
  { unfold with_pipe. rewrite get_pipe_ensure, Hg. unfold dec8.
    destruct (Z.gtb_spec (write_refs p) 0); [done|lia]. }
  assert (get_pipe (set_pipe (ensure_idx pm id) id p') id = Some p') as Hg'
    by (eapply get_pipe_set_eq; by rewrite get_pipe_ensure).
  unfold dec_write_ref, maybe_free_pipe. rewrite Hwp, get_pipe_ensure, Hg'.
  assert ((read_refs p' =? 0) && (write_refs p' =? 0) = false) as -> by (simpl; lia).
  eexists _, p'. split; [done|]. rewrite get_pipe_ensure. split; [done|]. split; [simpl; lia|].
  unfold pm_read. rewrite !get_pipe_ensure, Hg'. change (pipe_used p') with (pipe_used p). by rewrite Hu.
Qed.

Lemma find_unused_Some l i j p :
  find_unused l i = Some (j, p) -> (i <= j)%nat /\ l !! (j - i)%nat = Some (Some p) /\ in_use p = false.
Proof.
  revert i. induction l as [|[q|] l IH]; intros i; simpl; [done| |].
  - destruct (in_use q) eqn:E; [|intros [= -> ->]; by rewrite Nat.sub_diag].
    intros Hf%IH. destruct Hf as (? & ? & ?). replace (j - i)%nat with (S (j - S i)) by lia. by split; [lia|].
  - intros Hf%IH. destruct Hf as (? & ? & ?). replace (j - i)%nat with (S (j - S i)) by lia. by split; [lia|].
Qed.

Lemma register_pipe_get pm st i pm' st' j :
  register_pipe pm st i = Some (pm', st') -> get_pipe pm' j = get_pipe pm j.
Proof.
  unfold register_pipe. destruct (ob_create_object _ _ _ _ _ _) as [[[kid|e] st1]|]; simpl; [| |done];
    intros [= <- <-]; [|done]. apply get_pipe_ensure.
Qed.

(** An allocated pipe is clean: it was not in use, it is empty whatever an
    earlier user left in the buffer, neither end is closed and nobody holds a
    reference; the other pipes are as before. *)
Theorem pm_alloc_fresh pm st i pm' st' :
  pm_ok pm -> pm_alloc pm st = Some (Some i, pm', st') ->
  (forall p, get_pipe pm i = Some p -> in_use p = false) /\
  (exists p, get_pipe pm' i = Some p /\ pipe_ok p /\ contents p = [] /\ in_use p = true /\
     read_closed p = false /\ write_closed p = false /\ read_refs p = 0 /\ write_refs p = 0) /\
  forall j, j ≠ i -> get_pipe pm' j = get_pipe pm j.
Proof.
  intros Hok. unfold pm_alloc. pose proof size_pos.
  destruct (find_unused (pipes pm) 0) as [[k q]|] eqn:Ef.
  - apply find_unused_Some in Ef as (_ & Hq & Hu). rewrite Nat.sub_0_r in Hq.
    assert (get_pipe pm k = Some q) as Hgq by (unfold get_pipe; by rewrite Hq).
    destruct (register_pipe _ st k) as [[pm1 st1]|] eqn:Er; simpl; [|done]. intros [= <- <- <-].
    pose proof (register_pipe_get _ _ _ _ _ k Er) as Hk. rewrite (get_pipe_set_eq _ _ _ _ Hgq) in Hk.
    split_and!.
    + intros p Hp. congruence.
    + eexists. split; [exact Hk|]. split_and!; try done. destruct (Hok _ _ Hgq). split; simpl; lia.
    + intros j Hj. rewrite (register_pipe_get _ _ _ _ _ j Er). by apply get_pipe_set_ne.
  - destruct (Nat.leb_spec MAX_PIPES (length (pipes pm))); [done|].
    destruct (register_pipe _ st _) as [[pm1 st1]|] eqn:Er; simpl; [|done]. intros [= <- <- <-].
    split_and!.
    + intros p Hp. unfold get_pipe in Hp. by rewrite lookup_ge_None_2 in Hp.
    + eexists. rewrite (register_pipe_get _ _ _ _ _ _ Er), get_pipe_ensure. split.
      { unfold get_pipe. simpl. by rewrite lookup_app_r, Nat.sub_diag by lia. }
      split_and!; done.
    + intros j Hj. rewrite (register_pipe_get _ _ _ _ _ _ Er), get_pipe_ensure.
      unfold get_pipe. simpl. destruct (decide (j < length (pipes pm))%nat); [by rewrite lookup_app_l|].
      rewrite !lookup_ge_None_2; [done|lia|rewrite length_app; simpl; lia].
Qed.

End references.

(** A manager with one pipe in use. *)
Definition pm_demo (refs : Z) : PipeManager :=
  mkPM [Some (set_write_end (set_in_use pipe_new_unused true) false refs)] [None].

Lemma pm_demo_ok refs p : get_pipe (pm_demo refs) 0 = Some p -> pipe_ok p.
Proof. intros [= <-]. split; [apply length_replicate|apply size_pos|apply size_pos]. Qed.

Lemma pipe_fifo_witness :
  let '(ins, outs, _) := pipe_run (pm_demo 1) 0 [PWrite [1; 2; 3]; PRead 2; PWrite [4]; PRead 9] in
  outs = [1; 2; 3; 4] /\ ins = [1; 2; 3; 4].
Proof.
  pose proof (pipe_fifo (pm_demo 1) 0 [PWrite [1; 2; 3]; PRead 2; PWrite [4]; PRead 9] _ eq_refl
    (pm_demo_ok 1 _ eq_refl)) as H.
  destruct (pipe_run (pm_demo 1) 0 _) as [[ins outs] pm'] eqn:E. vm_compute in E.
  injection E as <- <- _. split; [|reflexivity]. reflexivity.
Defined.

Lemma pipe_read_write_results_witness : (pm_read (pm_demo 1) 0 5).1.1 = Err ().
Proof.
  destruct (pipe_read_write_results (pm_demo 1) 0 5 [1] _ eq_refl (pm_demo_ok 1 _ eq_refl)) as [H _].
  rewrite H. reflexivity.
Defined.

Lemma close_one_writer_ends_stream_witness :
  exists pm', dec_write_ref no_callback (pm_demo 2) empty_state 0 = Some (pm', empty_state) /\
    (pm_read pm' 0 5).1.1 = Ok [].
Proof.
  destruct (close_one_writer_ends_stream no_callback (pm_demo 2) empty_state 0
    (set_write_end (set_in_use pipe_new_unused true) false 2) 5) as (_ & pm' & p' & H1 & _ & _ & H2);
    [reflexivity|reflexivity|simpl; lia|reflexivity|].
  exists pm'. split; [exact H1|exact H2].
Defined.

Lemma pm_alloc_fresh_witness :
  exists p pm', get_pipe pm' 0 = Some p /\ contents p = [].
Proof.
  destruct (pm_alloc pm_new empty_state) as [[[[i|] pm'] st']|] eqn:E;
    [|vm_compute in E; discriminate|vm_compute in E; discriminate].
  assert (i = 0%nat) as -> by (vm_compute in E; by injection E as <- _ _).
  destruct (pm_alloc_fresh pm_new empty_state 0 pm' st') as (_ & (p & Hp & _ & Hc & _) & _).
  - intros j p Hp. unfold get_pipe in Hp. done.
  - exact E.
  - exists p, pm'. split; [exact Hp|exact Hc].
Defined.
