(* ===== verification/Semaphore.v ===== *)
(** * Semaphore.v: counting semaphores ([object/semaphore.rs])

    A table of 64 semaphores with [i32] counts.  A wake-up of the waiters is the
    boolean [release] returns next to its result.  Additions wrap, as in a release
    build. *)

From S2P Require Import Prelude.
Open Scope Z_scope.

Definition MAX_SEMAPHORES : nat := 64.

Record SemaphoreEntry := mkSem {
  s_used : bool;
  s_count : Z;
  s_max_count : Z;
  s_ob_id : Z;
}.

Definition sem_unused : SemaphoreEntry := mkSem false 0 0 0.

#[global] Instance SemaphoreEntry_inhabited : Inhabited SemaphoreEntry := populate sem_unused.

Abbreviation SemaphoreManager := (list SemaphoreEntry).

Definition sem_new : SemaphoreManager := replicate MAX_SEMAPHORES sem_unused.

Definition sem_alloc (m : SemaphoreManager) (ob_id initial_count max_count : Z)
    : option nat * SemaphoreManager :=
  if (initial_count <? 0) || (max_count <=? 0) || (initial_count >? max_count) then (None, m)
  else
    match list_find (λ s, s_used s = false) m with
    | Some (i, _) => (Some i, <[i := mkSem true initial_count max_count ob_id]> m)
    | None => (None, m)
    end.

Definition sem_free (m : SemaphoreManager) (sem_id : nat) : SemaphoreManager := <[sem_id := sem_unused]> m.

(** The result and whether the waiters are woken. *)
Definition sem_release (m : SemaphoreManager) (sem_id : nat) (release_count : Z)
    : bool * bool * SemaphoreManager :=
  if release_count <=? 0 then (false, false, m)
  else
    match m !! sem_id with
    | Some s =>
        if negb (s_used s) then (false, false, m)
        else
          let was_zero := s_count s =? 0 in
          let count := Z.min (swrap 32 (s_count s + release_count)) (s_max_count s) in
          (true, was_zero && (count >? 0),
           <[sem_id := mkSem (s_used s) count (s_max_count s) (s_ob_id s)]> m)
    | None => (false, false, m)
    end.

Definition sem_wait_decrement (m : SemaphoreManager) (sem_id : nat) : bool * SemaphoreManager :=
  match m !! sem_id with
  | Some s =>
      if negb (s_used s) then (false, m)
      else if s_count s >? 0
      then (true, <[sem_id := mkSem (s_used s) (s_count s - 1) (s_max_count s) (s_ob_id s)]> m)
      else (false, m)
  | None => (false, m)
  end.

Definition sem_is_used (m : SemaphoreManager) (sem_id : nat) : bool :=
  match m !! sem_id with Some s => s_used s | None => false end.

Definition sem_get_count (m : SemaphoreManager) (sem_id : nat) : Z :=
  match m !! sem_id with Some s => if s_used s then s_count s else -1 | None => -1 end.

(** ** The bounds of a count *)

Definition sem_ok (s : SemaphoreEntry) : Prop :=
  s_used s = true -> 0 <= s_count s <= s_max_count s /\ 0 < s_max_count s < 2 ^ 31.

Inductive sem_step : SemaphoreManager -> SemaphoreManager -> Prop :=
  | sem_step_alloc m id i mx : mx < 2 ^ 31 -> sem_step m (sem_alloc m id i mx).2
  | sem_step_free m n : sem_step m (sem_free m n)
  | sem_step_release m n k :
      (forall s, m !! n = Some s -> s_count s + k < 2 ^ 31) -> sem_step m (sem_release m n k).2
  | sem_step_wait m n : sem_step m (sem_wait_decrement m n).2.

Lemma sem_insert_ok (m : SemaphoreManager) n s : Forall sem_ok m -> sem_ok s -> Forall sem_ok (<[n := s]> m).
Proof. intros. by apply Forall_insert. Qed.

Lemma swrap_small w z : 0 < w -> - 2 ^ (w - 1) <= z < 2 ^ (w - 1) -> swrap w z = z.
Proof.
  intros Hw Hz. unfold swrap, wrap.
  assert (2 ^ w = 2 * 2 ^ (w - 1)) as Hp by (rewrite <-Z.pow_succ_r by lia; f_equal; lia).
  destruct (decide (0 <= z)).
  - rewrite Z.mod_small by lia. destruct (Z.ltb_spec z (2 ^ (w - 1))); lia.
  - replace (z `mod` 2 ^ w) with (z + 2 ^ w).
    2: { apply (Z.mod_unique _ _ (-1)); lia. }
    destruct (Z.ltb_spec (z + 2 ^ w) (2 ^ (w - 1))); lia.
Qed.

Lemma sem_step_ok m m' : sem_step m m' -> Forall sem_ok m -> Forall sem_ok m'.
Proof.
  assert (sem_ok sem_unused) as Hu by (by intros ?).
  destruct 1 as [m id i mx Hmx|m n|m n k Hk|m n]; intros Hm.
  - unfold sem_alloc. destruct (_ || _) eqn:E; [done|]. destruct (list_find _ m) as [[j s]|]; [|done].
    apply sem_insert_ok; [done|]. intros _. simpl. lia.
  - by apply sem_insert_ok.
  - unfold sem_release. destruct (Z.leb_spec k 0); [done|]. destruct (m !! n) as [s|] eqn:Es; [|done].
    destruct (s_used s) eqn:Eu; simpl; [|done]. apply sem_insert_ok; [done|]. intros _. simpl.
    destruct (proj1 (Forall_forall _ _) Hm s (list_elem_of_lookup_2 _ _ _ Es) Eu).
    rewrite swrap_small by (specialize (Hk s eq_refl); lia). lia.
  - unfold sem_wait_decrement. destruct (m !! n) as [s|] eqn:Es; [|done].
    destruct (s_used s) eqn:Eu; simpl; [|done]. destruct (Z.gtb_spec (s_count s) 0); [|done].
    apply sem_insert_ok; [done|]. intros _. simpl.
    destruct (proj1 (Forall_forall _ _) Hm s (list_elem_of_lookup_2 _ _ _ Es) Eu). lia.
Qed.

(** C36. Over every sequence of operations in which no release would exceed
    [i32::MAX], the count of a semaphore in use stays between zero and its
    maximum; a wait succeeds exactly when the count is positive and takes one,
    and a release adds up to the maximum. *)
Theorem semaphore_bounds m n s :
  rtc sem_step sem_new m -> m !! n = Some s -> s_used s = true ->
  0 <= s_count s <= s_max_count s /\
  (let '(r, m') := sem_wait_decrement m n in
   r = (s_count s >? 0) /\ sem_get_count m' n = if r then s_count s - 1 else s_count s) /\
  (forall k, 0 < k -> s_count s + k < 2 ^ 31 ->
   let '(r, wake, m') := sem_release m n k in
   r = true /\ sem_get_count m' n = Z.min (s_count s + k) (s_max_count s) /\
   wake = (s_count s =? 0)).
Proof.
  intros Hr Hs Hu. assert (Forall sem_ok m) as Hm.
  { assert (Forall sem_ok sem_new) as H0 by (apply Forall_replicate; by intros ?).
    clear Hs. revert H0. induction Hr; eauto using sem_step_ok. }
  destruct (proj1 (Forall_forall _ _) Hm s (list_elem_of_lookup_2 _ _ _ Hs) Hu) as [Hc Hmx].
  pose proof (lookup_lt_Some _ _ _ Hs) as Hlt. split; [done|]. split.
  - unfold sem_wait_decrement. rewrite Hs, Hu. simpl. destruct (Z.gtb_spec (s_count s) 0); simpl.
    + split; [done|]. unfold sem_get_count. by rewrite list_lookup_insert_eq.
    + split; [done|]. unfold sem_get_count. by rewrite Hs, Hu.
  - intros k Hk Hov. unfold sem_release. destruct (Z.leb_spec k 0); [lia|]. rewrite Hs, Hu. simpl.
    rewrite swrap_small by lia. split; [done|]. split.
    + unfold sem_get_count. by rewrite list_lookup_insert_eq.
    + destruct (Z.eqb_spec (s_count s) 0); [|done]. simpl.
      destruct (Z.gtb_spec (Z.min (s_count s + k) (s_max_count s)) 0); [done|lia].
Qed.

(** [release] adds before it clamps: on a semaphore with a large maximum the
    [i32] sum wraps, and releasing turns a positive count into a negative one, so
    that the next wait fails. *)
Theorem release_overflows :
  exists m n, sem_alloc sem_new 9 1 (2 ^ 31 - 1) = (Some n, m) /\
    let '(r, _, m') := sem_release m n (2 ^ 31 - 1) in
    r = true /\ sem_get_count m' n = - 2 ^ 31 /\ (sem_wait_decrement m' n).1 = false.
Proof. eexists _, _. split; [reflexivity|]. vm_compute. done. Qed.

Lemma semaphore_bounds_witness :
  sem_get_count (sem_wait_decrement (sem_alloc sem_new 9 2 5).2 0).2 0 = 1.
Proof.
  destruct (semaphore_bounds (sem_alloc sem_new 9 2 5).2 0 (mkSem true 2 5 9)) as (_ & H & _).
  - apply rtc_once. constructor. done.
  - reflexivity.
  - reflexivity.
  - destruct (sem_wait_decrement _ 0) as [r m'] eqn:E. destruct H as [-> H]. exact H.
Defined.
