(* ===== verification/Bytes.v ===== *)
(** * Bytes.v: byte buffers, little- and big-endian words, padding

    Buffers are lists of bytes kept as [Z].  A slice or an index out of range
    panics ([None]).  The round-trip lemmas below are shared by every on-disk and
    on-wire format of the development. *)

From S2P Require Import Prelude.
Open Scope Z_scope.

Definition is_byte (b : Z) : Prop := 0 <= b < 256.
Definition bytes_ok (l : list Z) : Prop := Forall is_byte l.

Fixpoint le_bytes (n : nat) (z : Z) : list Z :=
  match n with
  | O => []
  | S n => (z `mod` 256) :: le_bytes n (z / 256)
  end.

Fixpoint le_val (l : list Z) : Z :=
  match l with
  | [] => 0
  | b :: l => b + 256 * le_val l
  end.

Definition be_bytes (n : nat) (z : Z) : list Z := reverse (le_bytes n z).
Definition be_val (l : list Z) : Z := le_val (reverse l).

(** [&data[off..off + n]]. *)
Definition slice (data : list Z) (off n : nat) : option (list Z) :=
  if (off + n <=? length data)%nat then Some (take n (drop off data)) else None.

Definition get_le (n : nat) (data : list Z) (off : nat) : option Z :=
  l ← slice data off n; Some (le_val l).
Definition get_be (n : nat) (data : list Z) (off : nat) : option Z :=
  l ← slice data off n; Some (be_val l).

(** [while buf.len() % 4 != 0 { buf.push(0) }]. *)
Definition pad_amount (k n : nat) : nat := ((k - n `mod` k) `mod` k)%nat.
Definition pad_buf (buf : list Z) : list Z := buf ++ replicate (pad_amount 4 (length buf)) 0.

(** [(n + 3) & !3]. *)
Definition pad_to_4 (n : nat) : nat := ((n + 3) / 4 * 4)%nat.

(** ** Words *)

Lemma length_le_bytes n z : length (le_bytes n z) = n.
Proof. revert z. induction n; intros z; simpl; auto. Qed.

Lemma le_bytes_ok n z : bytes_ok (le_bytes n z).
Proof.
  revert z. induction n as [|n IH]; intros z; simpl; constructor; [|apply IH].
  apply Z.mod_pos_bound. lia.
Qed.

Lemma le_val_bytes n z : 0 <= z < 256 ^ Z.of_nat n -> le_val (le_bytes n z) = z.
Proof.
  revert z. induction n as [|n IH]; intros z Hz; simpl; [simpl in Hz; lia|].
  rewrite IH; [pose proof (Z.div_mod z 256); lia|].
  rewrite Nat2Z.inj_succ, Z.pow_succ_r in Hz by lia.
  split; [apply Z.div_pos; lia|apply Z.div_lt_upper_bound; lia].
Qed.

Lemma le_val_bound l : bytes_ok l -> 0 <= le_val l < 256 ^ Z.of_nat (length l).
Proof.
  induction 1 as [|b l Hb Hl IH]; [simpl; lia|]. unfold is_byte in Hb.
  simpl length. rewrite Nat2Z.inj_succ, Z.pow_succ_r by lia. simpl. lia.
Qed.

Lemma le_bytes_val l : bytes_ok l -> le_bytes (length l) (le_val l) = l.
Proof.
  induction 1 as [|b l Hb Hl IH]; [done|]. unfold is_byte in Hb. simpl. f_equal.
  - rewrite (Z.mul_comm 256), Z.mod_add by lia. apply Z.mod_small. lia.
  - rewrite (Z.mul_comm 256), Z.div_add, Z.div_small by lia. exact IH.
Qed.

Lemma length_be_bytes n z : length (be_bytes n z) = n.
Proof. unfold be_bytes. rewrite length_reverse. apply length_le_bytes. Qed.

Lemma be_val_bytes n z : 0 <= z < 256 ^ Z.of_nat n -> be_val (be_bytes n z) = z.
Proof. intros. unfold be_val, be_bytes. rewrite reverse_involutive. by apply le_val_bytes. Qed.

Lemma be_bytes_ok n z : bytes_ok (be_bytes n z).
Proof. apply Forall_reverse, le_bytes_ok. Qed.

(** ** Slices *)

Lemma slice_app pre mid post n :
  length mid = n -> slice (pre ++ mid ++ post) (length pre) n = Some mid.
Proof.
  intros <-. unfold slice. rewrite !length_app.
  destruct (Nat.leb_spec (length pre + length mid) (length pre + (length mid + length post))); [|lia].
  by rewrite drop_app_length, take_app_length.
Qed.

Lemma slice_Some data off n l :
  slice data off n = Some l -> (off + n <= length data)%nat /\ length l = n.
Proof.
  unfold slice. destruct (Nat.leb_spec (off + n) (length data)); [|done].
  intros [= <-]. split; [done|]. rewrite length_take, length_drop. lia.
Qed.

Lemma slice_ok data off n : (off + n <= length data)%nat -> is_Some (slice data off n).
Proof. intros. unfold slice. destruct (Nat.leb_spec (off + n) (length data)); [eauto|lia]. Qed.

Lemma slice_bytes_ok data off n l : bytes_ok data -> slice data off n = Some l -> bytes_ok l.
Proof.
  intros Hd. unfold slice. case_if; [|done]. intros [= <-].
  by apply Forall_take, Forall_drop.
Qed.

Lemma get_le_app n pre z post :
  0 <= z < 256 ^ Z.of_nat n -> get_le n (pre ++ le_bytes n z ++ post) (length pre) = Some z.
Proof.
  intros Hz. unfold get_le. rewrite slice_app by apply length_le_bytes. simpl. by rewrite le_val_bytes.
Qed.

Lemma get_be_app n pre z post :
  0 <= z < 256 ^ Z.of_nat n -> get_be n (pre ++ be_bytes n z ++ post) (length pre) = Some z.
Proof.
  intros Hz. unfold get_be. rewrite slice_app by apply length_be_bytes. simpl. by rewrite be_val_bytes.
Qed.

Lemma get_le_ok n data off : (off + n <= length data)%nat -> is_Some (get_le n data off).
Proof. intros Hl. unfold get_le. destruct (slice_ok data off n Hl) as [l ->]. simpl. eauto. Qed.

Lemma get_be_ok n data off : (off + n <= length data)%nat -> is_Some (get_be n data off).
Proof. intros Hl. unfold get_be. destruct (slice_ok data off n Hl) as [l ->]. simpl. eauto. Qed.

Lemma pad_to_4_eq n : pad_to_4 n = (n + pad_amount 4 n)%nat.
Proof.
  unfold pad_to_4, pad_amount.
  pose proof (Nat.div_mod_eq n 4). pose proof (Nat.mod_upper_bound n 4 ltac:(lia)).
  set (q := (n / 4)%nat) in *. set (r := (n `mod` 4)%nat) in *. clearbody q r. subst n.
  assert (r = 0 \/ r = 1 \/ r = 2 \/ r = 3)%nat as [->|[->|[->| ->]]] by lia.
  - replace (4 * q + 0 + 3)%nat with (3 + q * 4)%nat by lia. rewrite Nat.div_add by lia. simpl. lia.
  - replace (4 * q + 1 + 3)%nat with (0 + (q + 1) * 4)%nat by lia. rewrite Nat.div_add by lia. simpl. lia.
  - replace (4 * q + 2 + 3)%nat with (1 + (q + 1) * 4)%nat by lia. rewrite Nat.div_add by lia. simpl. lia.
  - replace (4 * q + 3 + 3)%nat with (2 + (q + 1) * 4)%nat by lia. rewrite Nat.div_add by lia. simpl. lia.
Qed.

Lemma pad_to_4_ge n : (n <= pad_to_4 n)%nat.
Proof. rewrite pad_to_4_eq. lia. Qed.

Lemma length_pad_buf buf : length (pad_buf buf) = pad_to_4 (length buf).
Proof. unfold pad_buf. by rewrite pad_to_4_eq, length_app, length_replicate. Qed.

(** Buffers of aligned length. *)
Definition aligned4 (n : nat) : Prop := exists q, n = (q * 4)%nat.

Lemma pad_aligned n : aligned4 (pad_to_4 n).
Proof. eexists. done. Qed.

Lemma aligned4_add a b : aligned4 a -> aligned4 b -> aligned4 (a + b).
Proof. intros [x ->] [y ->]. exists (x + y)%nat. lia. Qed.

Lemma pad_amount_shift a n : aligned4 a -> pad_amount 4 (a + n) = pad_amount 4 n.
Proof. intros [q ->]. unfold pad_amount. rewrite Nat.add_comm, Nat.Div0.mod_add. done. Qed.

Lemma pad_to_4_shift a n : aligned4 a -> pad_to_4 (a + n) = (a + pad_to_4 n)%nat.
Proof. intros Ha. rewrite !pad_to_4_eq, pad_amount_shift by done. lia. Qed.

Lemma pad_to_4_id a : aligned4 a -> pad_to_4 a = a.
Proof. intros Ha. rewrite <-(Nat.add_0_r a) at 1. rewrite pad_to_4_shift by done. unfold pad_to_4. simpl. lia. Qed.

Lemma pad_buf_shift pre l : aligned4 (length pre) -> pad_buf (pre ++ l) = pre ++ pad_buf l.
Proof. intros Ha. unfold pad_buf. by rewrite length_app, pad_amount_shift, app_assoc. Qed.

Lemma pad_buf_id l : aligned4 (length l) -> pad_buf l = l.
Proof. intros Ha. rewrite <-(app_nil_r l) at 1. rewrite pad_buf_shift by done. simpl. apply app_nil_r. Qed.

Create HintDb bytes.
#[export] Hint Resolve slice_ok get_le_ok get_be_ok : bytes.

(** Encodings are reasoned about through their lemmas. *)
#[global] Opaque le_bytes be_bytes.
