(* ===== verification/Security.v ===== *)
(** * Security.v: SIDs, tokens, ACLs and the access check ([security/])

    Models [sid.rs], [token.rs], [acl.rs] and [access.rs].  The audit log of
    [se_audit] is the list of records it would write; the time stamp counter a
    token records is an argument. *)

From S2P Require Import Prelude Str Bytes.
Open Scope Z_scope.

(** ** SIDs *)

Definition SID_REVISION : Z := 1.
Definition MAX_SUB_AUTHORITIES : nat := 8.
Definition RID_ADMINISTRATOR : Z := 500.
Definition RID_GUEST : Z := 501.
Definition RID_USER : Z := 1000.

Record Sid := mkSid {
  sid_revision : Z;
  sub_authority_count : Z;
  identifier_authority : list Z;
  sub_authorities : list Z;
}.

#[global] Instance Sid_eq_dec : EqDecision Sid.
Proof. solve_decision. Defined.

Definition sid_new : Sid := mkSid SID_REVISION 0 (replicate 6 0) (replicate MAX_SUB_AUTHORITIES 0).

Definition sid_from_parts (revision : Z) (authority subs : list Z) : Sid :=
  let count := Nat.min (length subs) MAX_SUB_AUTHORITIES in
  mkSid revision (Z.of_nat count) authority
    (take count subs ++ replicate (MAX_SUB_AUTHORITIES - count) 0).

Definition sid_format_string (s : Sid) : str :=
  bytes_of "S-" ++ dec_string (sid_revision s) ++ bytes_of "-" ++ dec_string (be_val (identifier_authority s)) ++
  (take (Z.to_nat (sub_authority_count s)) (sub_authorities s) ≫= λ x, bytes_of "-" ++ dec_string x).

Definition sid_builtin_admin : Sid := sid_from_parts 1 [0; 0; 0; 0; 0; 5] [18].
Definition sid_builtin_system : Sid := sid_builtin_admin.
Definition sid_builtin_domain : Sid := sid_from_parts 1 [0; 0; 0; 0; 0; 5] [21; 0; 0; 0].
Definition sid_builtin_administrator : Sid :=
  sid_from_parts 1 [0; 0; 0; 0; 0; 5] [21; 0; 0; 0; RID_ADMINISTRATOR].
Definition sid_builtin_guest : Sid := sid_from_parts 1 [0; 0; 0; 0; 0; 5] [21; 0; 0; 0; RID_GUEST].
Definition sid_builtin_user : Sid := sid_from_parts 1 [0; 0; 0; 0; 0; 5] [21; 0; 0; 0; RID_USER].

Definition WELL_KNOWN_SIDS : list (str * Sid) :=
  [(bytes_of "SYSTEM", sid_builtin_system); (bytes_of "Administrator", sid_builtin_administrator);
   (bytes_of "Guest", sid_builtin_guest); (bytes_of "Users", sid_builtin_user)].

Definition well_known_sid (name : str) : option Sid :=
  '(_, ns) ← list_find (λ ns, eq_ignore_case ns.1 name = true) WELL_KNOWN_SIDS; Some ns.2.

(** ** Tokens *)

Definition SE_CHANGE_NOTIFY_PRIVILEGE : Z := 64.
Definition SE_ADMIN_PRIVILEGES : Z := 0xFFFF.
Definition SE_USER_PRIVILEGES : Z := SE_CHANGE_NOTIFY_PRIVILEGE.

Inductive IntegrityLevel := Untrusted | Low | Medium | High | System.

Definition integrity_to_u8 (l : IntegrityLevel) : Z :=
  match l with Untrusted => 0 | Low => 1 | Medium => 2 | High => 3 | System => 4 end.

Definition integrity_from_u8 (v : Z) : option IntegrityLevel :=
  if v =? 0 then Some Untrusted else if v =? 1 then Some Low else if v =? 2 then Some Medium
  else if v =? 3 then Some High else if v =? 4 then Some System else None.

Record Token := mkToken {
  tok_sid : Sid;
  is_admin : bool;
  groups : list Sid;
  privileges : Z;
  session_id : Z;
  integrity_level : IntegrityLevel;
  creation_time : Z;
}.

Definition default_integrity (admin : bool) : IntegrityLevel := if admin then System else Medium.

Definition token_new (now : Z) (sid : Sid) (admin : bool) : Token :=
  mkToken sid admin [] (if admin then SE_ADMIN_PRIVILEGES else SE_USER_PRIVILEGES) 0
    (default_integrity admin) now.
Definition token_new_full (now : Z) (sid : Sid) (admin : bool) (gs : list Sid) (privs session : Z) : Token :=
  mkToken sid admin gs privs session (default_integrity admin) now.
Definition token_new_admin (now : Z) : Token :=
  mkToken sid_builtin_admin true [] SE_ADMIN_PRIVILEGES 0 System now.
Definition token_new_user (now : Z) : Token :=
  mkToken sid_builtin_user false [] SE_USER_PRIVILEGES 1 Medium now.

Definition add_group (t : Token) (g : Sid) : Token :=
  if bool_decide (g ∈ groups t) then t
  else mkToken (tok_sid t) (is_admin t) (groups t ++ [g]) (privileges t) (session_id t)
         (integrity_level t) (creation_time t).
Definition is_in_group (t : Token) (g : Sid) : bool := bool_decide (g ∈ groups t).

Definition set_privileges (t : Token) (p : Z) : Token :=
  mkToken (tok_sid t) (is_admin t) (groups t) p (session_id t) (integrity_level t) (creation_time t).
Definition has_privilege (t : Token) (p : Z) : bool := negb (Z.land (privileges t) p =? 0).
Definition enable_privilege (t : Token) (p : Z) : Token := set_privileges t (Z.lor (privileges t) p).
Definition disable_privilege (t : Token) (p : Z) : Token := set_privileges t (Z.ldiff (privileges t) p).
Definition set_integrity_level (t : Token) (l : IntegrityLevel) : Token :=
  mkToken (tok_sid t) (is_admin t) (groups t) (privileges t) (session_id t) l (creation_time t).
Definition inherit_from (now : Z) (p : Token) : Token :=
  mkToken (tok_sid p) (is_admin p) (groups p) (privileges p) (session_id p) (integrity_level p) now.

(** ** Access control lists *)

Definition ACE_TYPE_ACCESS_ALLOWED : Z := 0.
Definition ACE_TYPE_ACCESS_DENIED : Z := 1.
Definition ACE_TYPE_SYSTEM_AUDIT : Z := 2.
Definition ACCESS_READ : Z := 1.
Definition ACCESS_WRITE : Z := 2.

Record Ace := mkAce {
  ace_type : Z;
  ace_flags : Z;
  access_mask : Z;
  ace_sid : Sid;
}.

Definition ace_allow (sid : Sid) (mask : Z) : Ace := mkAce ACE_TYPE_ACCESS_ALLOWED 0 mask sid.
Definition ace_deny (sid : Sid) (mask : Z) : Ace := mkAce ACE_TYPE_ACCESS_DENIED 0 mask sid.

Record Acl := mkAcl {
  acl_revision : Z;
  aces : list Ace;
}.

Definition acl_new : Acl := mkAcl 2 [].
Definition add_ace (a : Acl) (ace : Ace) : Acl := mkAcl (acl_revision a) (aces a ++ [ace]).

Definition is_allow (a : Ace) : Prop := ace_type a = ACE_TYPE_ACCESS_ALLOWED.
#[global] Instance is_allow_dec a : Decision (is_allow a) := _.

Definition insert_ace_canonical (a : Acl) (ace : Ace) : Acl :=
  if ace_type ace =? ACE_TYPE_ACCESS_DENIED then
    let pos := match list_find is_allow (aces a) with Some (i, _) => i | None => length (aces a) end in
    mkAcl (acl_revision a) (take pos (aces a) ++ ace :: drop pos (aces a))
  else mkAcl (acl_revision a) (aces a ++ [ace]).

Record SecurityDescriptor := mkSD {
  sd_revision : Z;
  owner : option Sid;
  group : option Sid;
  dacl : option Acl;
  sacl : option Acl;
}.

Definition sd_new : SecurityDescriptor := mkSD 1 None None None None.
Definition with_dacl (sd : SecurityDescriptor) (a : Acl) : SecurityDescriptor :=
  mkSD (sd_revision sd) (owner sd) (group sd) (Some a) (sacl sd).
Definition with_sacl (sd : SecurityDescriptor) (a : Acl) : SecurityDescriptor :=
  mkSD (sd_revision sd) (owner sd) (group sd) (dacl sd) (Some a).

(** ** The access check *)

Definition trustee_matches (s token_sid : Sid) (gs : list Sid) : bool :=
  bool_decide (s = token_sid) || bool_decide (s ∈ gs).

(** An ACE of type [ty] for the trustee whose mask covers the whole request. *)
Definition ace_covers (ty : Z) (token_sid : Sid) (gs : list Sid) (desired : Z) (a : Ace) : bool :=
  (ace_type a =? ty) && trustee_matches (ace_sid a) token_sid gs
  && (Z.land (access_mask a) desired =? desired).

Definition check_dacl (d : Acl) (token_sid : Sid) (gs : list Sid) (desired : Z) : bool :=
  if existsb (ace_covers ACE_TYPE_ACCESS_DENIED token_sid gs desired) (aces d) then false
  else existsb (ace_covers ACE_TYPE_ACCESS_ALLOWED token_sid gs desired) (aces d).

Definition se_access_check_inner (t : Token) (sd : option SecurityDescriptor) (desired : Z) : bool :=
  if is_admin t then true
  else match sd with
       | None => true
       | Some sd =>
           match dacl sd with
           | None => true
           | Some a => if bool_decide (aces a = []) then false
                       else check_dacl a (tok_sid t) (groups t) desired
           end
       end.

Record AuditRecord := mkAudit { au_sid : Sid; au_access : Z; au_granted : bool }.

(** The records written for an access, given the global audit switch. *)
Definition se_audit (auditing : bool) (t : Token) (sd : option SecurityDescriptor) (desired : Z)
    (granted : bool) : list AuditRecord :=
  if negb auditing then []
  else match sd ≫= sacl with
       | None => []
       | Some a =>
           (λ _, mkAudit (tok_sid t) desired granted) <$>
             filter (λ a, ace_covers ACE_TYPE_SYSTEM_AUDIT (tok_sid t) (groups t) desired a = true) (aces a)
       end.

Definition se_access_check (auditing : bool) (t : Token) (sd : option SecurityDescriptor) (desired : Z)
    : bool * list AuditRecord :=
  let granted := se_access_check_inner t sd desired in
  (granted, se_audit auditing t sd desired granted).

Definition se_access_check_sid (token_sid : Sid) (admin : bool) (d : option Acl) (desired : Z) : bool :=
  if admin then true
  else match d with
       | None => true
       | Some a => if bool_decide (aces a = []) then false else check_dacl a token_sid [] desired
       end.

(** ** The reference evaluation

    The order-sensitive evaluation that the comments call NT-correct: walk the
    list, fail at an ACE that denies a bit still wanted, collect allowed bits,
    and succeed when none is left. *)
Fixpoint nt_check (token_sid : Sid) (gs : list Sid) (l : list Ace) (wanted : Z) : bool :=
  match l with
  | [] => wanted =? 0
  | a :: l =>
      if negb (trustee_matches (ace_sid a) token_sid gs) then nt_check token_sid gs l wanted
      else if (ace_type a =? ACE_TYPE_ACCESS_DENIED) && negb (Z.land (access_mask a) wanted =? 0) then false
      else if ace_type a =? ACE_TYPE_ACCESS_ALLOWED then
        let wanted := Z.ldiff wanted (access_mask a) in
        if wanted =? 0 then true else nt_check token_sid gs l wanted
      else nt_check token_sid gs l wanted
  end.

Definition is_deny (a : Ace) : Prop := ace_type a = ACE_TYPE_ACCESS_DENIED.

(** Every deny ACE stands before every allow ACE. *)
Definition canonical (l : list Ace) : Prop :=
  exists l1 l2, l = l1 ++ l2 /\ Forall (λ a, ~ is_allow a) l1 /\ Forall (λ a, ~ is_deny a) l2.

Lemma canonical_insert a ace :
  canonical (aces a) -> canonical (aces (insert_ace_canonical a ace)) /\
  aces (insert_ace_canonical a ace) ≡ₚ ace :: aces a.
Proof.
  intros (l1 & l2 & Hl & H1 & H2). unfold insert_ace_canonical.
  destruct (Z.eqb_spec (ace_type ace) ACE_TYPE_ACCESS_DENIED) as [Hd|Hd]; simpl.
  - set (pos := match list_find is_allow (aces a) with Some (i, _) => i | None => length (aces a) end).
    split; [|by rewrite <-Permutation_middle, take_drop].
    assert (Forall (λ x, ~ is_allow x) (take pos (aces a)) /\ (length l1 <= pos)%nat) as [Hp1 Hp2].
    { unfold pos. destruct (list_find is_allow (aces a)) as [[i x]|] eqn:E.
      - apply list_find_Some in E as (Hi & Hx & Hb). split.
        + apply Forall_forall. intros y (j & Hj & Hlt)%elem_of_take. by eapply Hb.
        + destruct (decide (length l1 <= i)%nat); [done|]. exfalso. rewrite Hl, lookup_app_l in Hi by lia.
          rewrite Forall_forall in H1. apply (H1 x); [by eapply list_elem_of_lookup_2|done].
      - apply list_find_None in E. rewrite take_ge by lia. split; [done|].
        rewrite Hl, length_app. lia. }
    exists (take pos (aces a) ++ [ace]), (drop pos (aces a)). split_and!.
    + by rewrite <-app_assoc.
    + apply Forall_app. split; [done|]. constructor; [|constructor]. unfold is_allow. by rewrite Hd.
    + rewrite Hl, drop_app_ge by done. by apply Forall_drop.
  - split; [|by rewrite Permutation_app_comm]. exists l1, (l2 ++ [ace]). rewrite Hl, <-app_assoc.
    split_and!; [done|done|]. apply Forall_app. split; [done|]. by constructor; [|constructor].
Qed.

Lemma canonical_build l a :
  canonical (aces a) ->
  canonical (aces (foldl insert_ace_canonical a l)) /\ aces (foldl insert_ace_canonical a l) ≡ₚ aces a ++ l.
Proof.
  revert a. induction l as [|x l IH]; intros a Hc; simpl; [by rewrite app_nil_r|].
  destruct (canonical_insert a x Hc) as [Hc' Hp]. destruct (IH _ Hc') as [Hcc Hpp].
  split; [done|]. rewrite Hpp, Hp. simpl. by rewrite Permutation_middle.
Qed.

Lemma existsb_perm {A} (f : A -> bool) l l' : l ≡ₚ l' -> existsb f l = existsb f l'.
Proof. induction 1 as [|x l l' _ IH|x y l|l l' l'' _ IH1 _ IH2]; simpl; [done|by rewrite IH| |congruence]. by destruct (f x), (f y). Qed.

(** The two-phase evaluation does not depend on the order of the ACEs. *)
Lemma check_dacl_perm d d' s gs desired : aces d ≡ₚ aces d' -> check_dacl d s gs desired = check_dacl d' s gs desired.
Proof. intros Hp. unfold check_dacl. by rewrite !(existsb_perm _ _ _ Hp). Qed.

Section single_bit.
Context (s : Sid) (gs : list Sid) (k : Z) (Hk : 0 <= k).

Lemma land_bit m : Z.land m (2 ^ k) = if Z.testbit m k then 2 ^ k else 0.
Proof.
  apply Z.bits_inj'. intros n Hn. rewrite Z.land_spec, Z.pow2_bits_eqb by done.
  destruct (Z.eqb_spec k n) as [->|].
  - destruct (Z.testbit m n) eqn:E; [by rewrite Z.pow2_bits_true|by rewrite Z.bits_0].
  - rewrite andb_false_r. destruct (Z.testbit m k); [by rewrite Z.pow2_bits_false|by rewrite Z.bits_0].
Qed.

Lemma ldiff_bit m : Z.ldiff (2 ^ k) m = if Z.testbit m k then 0 else 2 ^ k.
Proof.
  apply Z.bits_inj'. intros n Hn. rewrite Z.ldiff_spec, Z.pow2_bits_eqb by done.
  destruct (Z.eqb_spec k n) as [->|].
  - destruct (Z.testbit m n) eqn:E; [by rewrite Z.bits_0|by rewrite Z.pow2_bits_true].
  - destruct (Z.testbit m k); [by rewrite Z.bits_0|by rewrite Z.pow2_bits_false].
Qed.

Lemma bit_nonzero : (2 ^ k =? 0) = false.
Proof. pose proof (Z.pow_pos_nonneg 2 k). lia. Qed.

Lemma covers_bit ty a :
  ace_covers ty s gs (2 ^ k) a =
  (ace_type a =? ty) && trustee_matches (ace_sid a) s gs && Z.testbit (access_mask a) k.
Proof.
  unfold ace_covers. rewrite land_bit. f_equal. destruct (Z.testbit _ _); [apply Z.eqb_refl|].
  rewrite Z.eqb_sym. apply bit_nonzero.
Qed.

(** Past the denies, only the allows matter. *)
Lemma nt_allows l :
  Forall (λ a, ~ is_deny a) l ->
  nt_check s gs l (2 ^ k) = existsb (ace_covers ACE_TYPE_ACCESS_ALLOWED s gs (2 ^ k)) l.
Proof.
  induction 1 as [|a l Ha Hl IH]; simpl; [apply bit_nonzero|]. rewrite covers_bit, IH.
  destruct (trustee_matches _ _ _); simpl; [|by rewrite andb_false_r].
  unfold is_deny in Ha. apply Z.eqb_neq in Ha. rewrite Ha. simpl. rewrite ldiff_bit, andb_true_r.
  destruct (ace_type a =? ACE_TYPE_ACCESS_ALLOWED); simpl; [|done].
  destruct (Z.testbit _ _); simpl; [done|]. by rewrite bit_nonzero.
Qed.

Lemma nt_denies l l' :
  Forall (λ a, ~ is_allow a) l ->
  nt_check s gs (l ++ l') (2 ^ k) =
  if existsb (ace_covers ACE_TYPE_ACCESS_DENIED s gs (2 ^ k)) l then false else nt_check s gs l' (2 ^ k).
Proof.
  induction 1 as [|a l Ha Hl IH]; simpl; [done|]. rewrite covers_bit, land_bit, IH.
  destruct (trustee_matches _ _ _); simpl; [|by rewrite andb_false_r].
  rewrite andb_true_r. unfold is_allow in Ha. apply Z.eqb_neq in Ha. rewrite Ha.
  destruct (ace_type a =? ACE_TYPE_ACCESS_DENIED); simpl; [|done].
  destruct (Z.testbit _ _); simpl; [by rewrite bit_nonzero|done].
Qed.

Lemma no_cover ty l : Forall (λ a, ace_type a ≠ ty) l -> existsb (ace_covers ty s gs (2 ^ k)) l = false.
Proof.
  induction 1 as [|a l Ha Hl IH]; simpl; [done|]. rewrite IH, covers_bit.
  apply Z.eqb_neq in Ha. by rewrite Ha.
Qed.

Lemma check_nt d : canonical (aces d) -> check_dacl d s gs (2 ^ k) = nt_check s gs (aces d) (2 ^ k).
Proof.
  intros (l1 & l2 & Hl & H1 & H2). unfold check_dacl. rewrite Hl, !existsb_app.
  rewrite nt_denies, nt_allows by done. rewrite (no_cover _ l2 H2), (no_cover _ l1 H1). simpl.
  by rewrite orb_false_r.
Qed.
End single_bit.

(** C37. For a request of one access right by a token that is not an administrator,
    on a list that is not empty, the two-phase check is the reference
    evaluation of the canonical list: however the ACEs were appended, the result
    is that of walking the list built with [insert_ace_canonical], which holds
    the same ACEs with every deny before every allow. *)
Theorem access_check_matches_reference (l : list Ace) (r : Z) (t : Token) (k : Z) :
  0 <= k -> is_admin t = false -> l ≠ [] ->
  let a := foldl insert_ace_canonical acl_new l in
  aces a ≡ₚ l /\ canonical (aces a) /\
  se_access_check_inner t (Some (with_dacl sd_new (mkAcl r l))) (2 ^ k) =
    nt_check (tok_sid t) (groups t) (aces a) (2 ^ k).
Proof.
  intros Hk Ht Hl a. destruct (canonical_build l acl_new) as [Hc Hp].
  { exists [], []. repeat split; constructor. }
  simpl in Hp. split; [done|]. split; [done|]. unfold se_access_check_inner. rewrite Ht. simpl.
  rewrite bool_decide_false by done. rewrite <-check_nt by done. by apply check_dacl_perm.
Qed.

(** A deny ACE counts only if it covers the whole request: a user to whom
    writing is denied is refused [WRITE] but granted [READ | WRITE], where the
    reference evaluation refuses both. *)
Theorem deny_bypassed_by_wider_request (t : Token) :
  is_admin t = false ->
  let acl := foldl insert_ace_canonical acl_new
    [ace_allow (tok_sid t) (Z.lor ACCESS_READ ACCESS_WRITE); ace_deny (tok_sid t) ACCESS_WRITE] in
  let sd := Some (with_dacl sd_new acl) in
  se_access_check_inner t sd ACCESS_WRITE = false /\
  se_access_check_inner t sd (Z.lor ACCESS_READ ACCESS_WRITE) = true /\
  nt_check (tok_sid t) (groups t) (aces acl) (Z.lor ACCESS_READ ACCESS_WRITE) = false.
Proof.
  intros Ht. unfold se_access_check_inner. rewrite Ht. simpl.
  assert (forall gs, trustee_matches (tok_sid t) (tok_sid t) gs = true) as Hm
    by (intros; unfold trustee_matches; by rewrite bool_decide_true).
  unfold check_dacl. simpl. unfold ace_covers. simpl. rewrite !Hm. done.
Qed.

Lemma access_check_matches_reference_witness :
  se_access_check_inner (token_new_user 0)
    (Some (with_dacl sd_new (mkAcl 2 [ace_allow sid_builtin_user 3; ace_deny sid_builtin_user 2]))) (2 ^ 1) = false.
Proof.
  destruct (access_check_matches_reference [ace_allow sid_builtin_user 3; ace_deny sid_builtin_user 2] 2
    (token_new_user 0) 1) as (_ & _ & ->); [lia|reflexivity|discriminate|]. vm_compute. reflexivity.
Defined.

Lemma deny_bypassed_by_wider_request_witness :
  nt_check sid_builtin_user [] [ace_deny sid_builtin_user 2; ace_allow sid_builtin_user 3] 3 = false.
Proof.
  destruct (deny_bypassed_by_wider_request (token_new_user 0)) as (_ & _ & H); [reflexivity|]. exact H.
Defined.
