(* ===== verification/Sam.v ===== *)
(** * Sam.v: the account database and its file format ([security/sam.rs])

    Accounts with a name, a SID and flags, kept in a list of at most 64; the file
    is a 16-byte header and one variable-length record per account, with every
    text padded to a multiple of four bytes.  Reading past the end of the data
    would panic in the source; the model keeps this as [Panic]. *)

From S2P Require Import Prelude Str Bytes Security.
Open Scope Z_scope.

Definition SAM_MAGIC : list Z := [83; 65; 77; 0].
Definition SAM_VERSION : Z := 1.
Definition MAX_SAM_ENTRIES : nat := 64.
Definition SAM_FLAG_ADMIN : Z := 1.
Definition SAM_FLAG_DISABLED : Z := 2.
Definition SAM_FLAG_LOCKED : Z := 4.

Inductive SamError :=
  | BadMagic | BadVersion | Truncated | TooManyEntries | InvalidSid | UsernameTooLong | EntryNotFound.

Record SamEntry := mkSam {
  username : str;
  sam_sid : Sid;
  sam_flags : Z;
  full_name : str;
  comment : str;
}.

Definition sam_entry_new (name : str) (sid : Sid) (admin : bool) : SamEntry :=
  mkSam name sid (if admin then SAM_FLAG_ADMIN else 0) [] [].

Definition entry_is_admin (e : SamEntry) : bool := negb (Z.land (sam_flags e) SAM_FLAG_ADMIN =? 0).
Definition entry_is_disabled (e : SamEntry) : bool := negb (Z.land (sam_flags e) SAM_FLAG_DISABLED =? 0).
Definition entry_is_locked (e : SamEntry) : bool := negb (Z.land (sam_flags e) SAM_FLAG_LOCKED =? 0).

(** [SamDatabase]: its entries. *)
Abbreviation SamDatabase := (list SamEntry).

Definition add_user (db : SamDatabase) (e : SamEntry) : result SamError () * SamDatabase :=
  if (MAX_SAM_ENTRIES <=? length db)%nat then (Err TooManyEntries, db) else (Ok (), db ++ [e]).

Definition has_name (name : str) (e : SamEntry) : Prop := eq_ignore_case (username e) name = true.
#[global] Instance has_name_dec name e : Decision (has_name name e).
Proof. unfold has_name. apply _. Defined.

Definition find_by_username (db : SamDatabase) (name : str) : option SamEntry :=
  snd <$> list_find (has_name name) db.
Definition find_by_sid (db : SamDatabase) (s : Sid) : option SamEntry :=
  snd <$> list_find (λ e, sam_sid e = s) db.

Definition remove_user (db : SamDatabase) (name : str) : bool * SamDatabase :=
  match list_find (has_name name) db with
  | Some (i, _) => (true, delete i db)
  | None => (false, db)
  end.

Definition sam_is_admin (db : SamDatabase) (name : str) : bool :=
  match find_by_username db name with Some e => entry_is_admin e | None => false end.

Definition sam_with_builtins : SamDatabase :=
  let db := (add_user [] (mkSam (bytes_of "Administrator") sid_builtin_administrator SAM_FLAG_ADMIN
    (bytes_of "Administrator") (bytes_of "Built-in administrative account"))).2 in
  let db := (add_user db (mkSam (bytes_of "Guest") sid_builtin_guest (Z.lor 0 SAM_FLAG_DISABLED)
    (bytes_of "Guest") (bytes_of "Built-in guest account (disabled)"))).2 in
  (add_user db (mkSam (bytes_of "SYSTEM") sid_builtin_system SAM_FLAG_ADMIN
    (bytes_of "Local System") (bytes_of "Operating system account"))).2.

(** ** Reading *)

(** A length-prefixed text at [off] and the aligned offset behind it. *)
Definition parse_text (data : list Z) (off : nat) : outcome SamError (str * nat) :=
  _ ← guard_not (length data <? off + 2)%nat Truncated;
  n ← must (get_le 2 data off);
  let len := Z.to_nat n in
  let off := (off + 2)%nat in
  _ ← guard_not (length data <? off + len)%nat Truncated;
  text ← must (slice data off len);
  _ ← guard_not (negb (utf8_valid text)) InvalidSid;
  Val (text, pad_to_4 (off + len)).

(** The loop over the sub-authorities. *)
Fixpoint parse_subs (data : list Z) (off n : nat) : outcome SamError (list Z) :=
  match n with
  | O => Val []
  | S n => x ← must (get_le 4 data off); xs ← parse_subs data (off + 4) n; Val (x :: xs)
  end.

Definition parse_sid (data : list Z) (off : nat) : outcome SamError (Sid * nat) :=
  _ ← guard_not (length data <? off + 8)%nat Truncated;
  rev ← must (data !! off);
  cnt ← must (data !! (off + 1)%nat);
  auth ← must (slice data (off + 2) 6);
  let sub_count := Z.to_nat cnt in
  let off := (off + 8)%nat in
  _ ← guard_not ((MAX_SUB_AUTHORITIES <? sub_count)%nat || (length data <? off + sub_count * 4)%nat) Truncated;
  subs ← parse_subs data off sub_count;
  Val (sid_from_parts rev auth subs, pad_to_4 (off + sub_count * 4)).

Definition parse_entry (data : list Z) (off : nat) : outcome SamError (SamEntry * nat) :=
  '(name, off) ← parse_text data off;
  '(sid, off) ← parse_sid data off;
  _ ← guard_not (length data <? off + 4)%nat Truncated;
  flags ← must (get_le 4 data off);
  '(fname, off) ← parse_text data (off + 4);
  '(cmt, off) ← parse_text data off;
  Val (mkSam name sid flags fname cmt, off).

Fixpoint parse_entries (data : list Z) (off n : nat) : outcome SamError (list SamEntry) :=
  match n with
  | O => Val []
  | S n =>
      '(e, off) ← parse_entry data off;
      es ← parse_entries data off n;
      Val (e :: es)
  end.

Definition parse_sam (data : list Z) : outcome SamError SamDatabase :=
  _ ← guard_not (length data <? 16)%nat Truncated;
  magic ← must (slice data 0 4);
  _ ← guard_not (negb (bool_decide (magic = SAM_MAGIC))) BadMagic;
  version ← must (get_le 4 data 4);
  _ ← guard_not (negb (version =? SAM_VERSION)) BadVersion;
  count ← must (get_le 4 data 8);
  _ ← guard_not (count >? Z.of_nat MAX_SAM_ENTRIES) TooManyEntries;
  parse_entries data 16 (Z.to_nat count).

(** ** Writing *)

Definition put_text (buf : list Z) (s : str) : list Z :=
  pad_buf (buf ++ le_bytes 2 (Z.of_nat (length s)) ++ s).

Definition put_sid (buf : list Z) (s : Sid) : list Z :=
  pad_buf (buf ++ [sid_revision s; sub_authority_count s] ++ identifier_authority s ++
    (take (Z.to_nat (sub_authority_count s)) (sub_authorities s) ≫= le_bytes 4)).

Definition put_entry (buf : list Z) (e : SamEntry) : list Z :=
  put_text (put_text (put_sid (put_text buf (username e)) (sam_sid e) ++ le_bytes 4 (sam_flags e))
    (full_name e)) (comment e).

Definition serialize_sam (db : SamDatabase) : result SamError (list Z) :=
  Ok (foldl put_entry (SAM_MAGIC ++ le_bytes 4 SAM_VERSION ++ le_bytes 4 (Z.of_nat (length db)) ++ replicate 4 0) db).

(** ** Reading never panics *)

Lemma parse_text_total data off : total (parse_text data off).
Proof.
  unfold parse_text. apply total_guard. intros H1%Nat.ltb_ge.
  apply total_must; [apply get_le_ok; lia|]. intros n _. apply total_guard. intros H2%Nat.ltb_ge.
  apply total_must; [apply slice_ok; lia|]. intros text _. by apply total_guard.
Qed.

Lemma parse_subs_total n data off : (off + n * 4 <= length data)%nat -> total (parse_subs data off n).
Proof.
  revert off. induction n as [|n IH]; intros off Hl; simpl; [done|].
  apply total_must; [apply get_le_ok; lia|]. intros x _. apply total_bind; [apply IH; lia|done].
Qed.

Lemma parse_sid_total data off : total (parse_sid data off).
Proof.
  unfold parse_sid. apply total_guard. intros H1%Nat.ltb_ge.
  apply total_must; [apply lookup_lt_is_Some_2; lia|]. intros rev _.
  apply total_must; [apply lookup_lt_is_Some_2; lia|]. intros cnt _.
  apply total_must; [apply slice_ok; lia|]. intros auth _.
  apply total_guard. intros [_ H2%Nat.ltb_ge]%orb_false_iff.
  apply total_bind; [apply parse_subs_total; lia|done].
Qed.

Lemma parse_entry_total data off : total (parse_entry data off).
Proof.
  unfold parse_entry. apply total_bind; [apply parse_text_total|]. intros [name off1] _.
  apply total_bind; [apply parse_sid_total|]. intros [sid off2] _.
  apply total_guard. intros H1%Nat.ltb_ge. apply total_must; [apply get_le_ok; lia|]. intros fl _.
  apply total_bind; [apply parse_text_total|]. intros [fname off3] _.
  apply total_bind; [apply parse_text_total|]. by intros [cmt off4] _.
Qed.

Lemma parse_entries_total n data off : total (parse_entries data off n).
Proof.
  revert off. induction n as [|n IH]; intros off; simpl; [done|].
  apply total_bind; [apply parse_entry_total|]. intros [e off1] _. apply total_bind; [apply IH|done].
Qed.

(** Reading an account file never indexes out of range, whatever its bytes:
    it returns a database of at most 64 accounts or an error. *)
Theorem parse_sam_total data :
  parse_sam data ≠ Panic /\ forall db, parse_sam data = Val db -> (length db <= 64)%nat.
Proof.
  split.
  - unfold parse_sam. apply total_guard. intros H1%Nat.ltb_ge.
    apply total_must; [apply slice_ok; lia|]. intros magic _. apply total_guard. intros _.
    apply total_must; [apply get_le_ok; lia|]. intros version _. apply total_guard. intros _.
    apply total_must; [apply get_le_ok; lia|]. intros count _. apply total_guard. intros _.
    apply parse_entries_total.
  - intros db. unfold parse_sam. destruct (guard_not _ _); [|done..]. simpl.
    destruct (slice data 0 4) as [magic|]; [|done]. simpl. destruct (guard_not _ _); [|done..]. simpl.
    destruct (get_le 4 data 4) as [version|]; [|done]. simpl. destruct (guard_not _ _); [|done..]. simpl.
    destruct (get_le 4 data 8) as [count|]; [|done]. simpl.
    destruct (guard_not _ TooManyEntries) eqn:E; [|done..]. apply guard_not_val in E. simpl.
    assert (Z.to_nat count <= 64)%nat as Hc.
    { destruct (Z.gtb_spec count (Z.of_nat MAX_SAM_ENTRIES)); [done|]. unfold MAX_SAM_ENTRIES in *. lia. }
    revert Hc.
    generalize (Z.to_nat count) as n. intros n Hn Hp. assert (length db = n) as ->; [|done]. clear Hn E.
    revert Hp. generalize 16%nat as off. revert db. induction n as [|n IH]; intros db off; simpl; [by intros [= <-]|].
    destruct (parse_entry data off) as [[e off1]| |]; [|done..]. simpl.
    destruct (parse_entries data off1 n) as [es| |] eqn:Ees; [|done..]. simpl. intros [= <-].
    simpl. f_equal. by eapply IH.
Qed.

(** ** Reading back what was written *)

Record sid_ok (s : Sid) : Prop := {
  so_count : 0 <= sub_authority_count s <= 8;
  so_auth : length (identifier_authority s) = 6%nat;
  so_len : length (sub_authorities s) = 8%nat;
  so_subs : Forall (λ x, 0 <= x < 2 ^ 32) (sub_authorities s);
  so_rest : drop (Z.to_nat (sub_authority_count s)) (sub_authorities s) =
    replicate (8 - Z.to_nat (sub_authority_count s)) 0;
}.

Record entry_ok (e : SamEntry) : Prop := {
  eo_name : utf8_valid (username e) = true /\ Z.of_nat (length (username e)) < 65536;
  eo_sid : sid_ok (sam_sid e);
  eo_flags : 0 <= sam_flags e < 2 ^ 32;
  eo_full : utf8_valid (full_name e) = true /\ Z.of_nat (length (full_name e)) < 65536;
  eo_comment : utf8_valid (comment e) = true /\ Z.of_nat (length (comment e)) < 65536;
}.

Definition enc_text (s : str) : list Z := pad_buf (le_bytes 2 (Z.of_nat (length s)) ++ s).
Definition enc_sid (s : Sid) : list Z :=
  [sid_revision s; sub_authority_count s] ++ identifier_authority s ++
    (take (Z.to_nat (sub_authority_count s)) (sub_authorities s) ≫= le_bytes 4).
Definition enc_entry (e : SamEntry) : list Z :=
  enc_text (username e) ++ enc_sid (sam_sid e) ++ le_bytes 4 (sam_flags e) ++
  enc_text (full_name e) ++ enc_text (comment e).

Lemma enc_text_aligned s : aligned4 (length (enc_text s)).
Proof. unfold enc_text. rewrite length_pad_buf. apply pad_aligned. Qed.

Lemma length_subs l : length (l ≫= le_bytes 4) = (length l * 4)%nat.
Proof.
  rewrite Nat.mul_comm. apply length_bind_const, Forall_true. intros. apply length_le_bytes.
Qed.

Lemma length_enc_sid s :
  sid_ok s -> length (enc_sid s) = (8 + Z.to_nat (sub_authority_count s) * 4)%nat.
Proof.
  intros [Hc Ha Hl _ _]. unfold enc_sid. rewrite !length_app, length_subs, length_take, Ha, Hl. simpl. lia.
Qed.

Lemma enc_sid_aligned s : sid_ok s -> aligned4 (length (enc_sid s)).
Proof. intros Hs. rewrite length_enc_sid by done. exists (2 + Z.to_nat (sub_authority_count s))%nat. lia. Qed.

Lemma enc_entry_aligned e : entry_ok e -> aligned4 (length (enc_entry e)).
Proof.
  intros [_ Hs _ _ _]. unfold enc_entry. rewrite !length_app, length_le_bytes.
  repeat apply aligned4_add; auto using enc_text_aligned, enc_sid_aligned. by exists 1%nat.
Qed.

Lemma put_entry_enc buf e :
  aligned4 (length buf) -> entry_ok e -> put_entry buf e = buf ++ enc_entry e.
Proof.
  intros Hb He. pose proof (enc_text_aligned (username e)). pose proof (enc_text_aligned (full_name e)).
  pose proof (enc_sid_aligned _ (eo_sid _ He)). assert (aligned4 4) by (by exists 1%nat).
  assert (forall pre s, aligned4 (length pre) -> put_text pre s = pre ++ enc_text s) as Ht
    by (intros; apply pad_buf_shift; done).
  assert (forall pre s, aligned4 (length pre) -> aligned4 (length (enc_sid s)) -> put_sid pre s = pre ++ enc_sid s) as Hsid.
  { intros pre s Hp Hs. unfold put_sid. rewrite pad_buf_shift by done. f_equal. by apply pad_buf_id. }
  unfold put_entry, enc_entry. rewrite (Ht buf) by done.
  rewrite Hsid by (rewrite ?length_app; auto using aligned4_add).
  rewrite (Ht _ (full_name e)) by (rewrite !length_app, length_le_bytes; auto using aligned4_add).
  rewrite (Ht _ (comment e)) by (rewrite !length_app, length_le_bytes; auto using aligned4_add).
  by rewrite <-!app_assoc.
Qed.

Lemma parse_text_enc pre s post :
  aligned4 (length pre) -> utf8_valid s = true -> Z.of_nat (length s) < 65536 ->
  parse_text (pre ++ enc_text s ++ post) (length pre) = Val (s, length (pre ++ enc_text s)).
Proof.
  intros Ha Hu Hl. unfold parse_text, enc_text, pad_buf. rewrite <-!app_assoc.
  set (pad := replicate _ 0). rewrite !length_app, length_le_bytes.
  assert ((length pre + (2 + (length s + (length pad + length post))) <? length pre + 2)%nat = false) as ->
    by (apply Nat.ltb_ge; lia). outcome_step.
  rewrite get_le_app by (change (256 ^ Z.of_nat 2) with 65536; lia). outcome_step. rewrite Nat2Z.id.
  assert ((length pre + (2 + (length s + (length pad + length post))) <? length pre + 2 + length s)%nat = false) as ->
    by (apply Nat.ltb_ge; lia). outcome_step.
  pose proof (slice_app (pre ++ le_bytes 2 (Z.of_nat (length s))) s (pad ++ post) (length s) eq_refl) as Hsl.
  rewrite length_app, length_le_bytes, <-!app_assoc in Hsl. rewrite Hsl. outcome_step. rewrite Hu. simpl.
  do 2 f_equal. rewrite <-Nat.add_assoc, pad_to_4_shift by done. f_equal.
  rewrite pad_to_4_eq. unfold pad. rewrite length_replicate, length_app, length_le_bytes. lia.
Qed.

Lemma parse_subs_enc l pre post :
  Forall (λ x, 0 <= x < 2 ^ 32) l ->
  parse_subs (pre ++ (l ≫= le_bytes 4) ++ post) (length pre) (length l) = Val l.
Proof.
  intros Hl. revert pre. induction Hl as [|x l Hx Hl IH]; intros pre; [done|].
  rewrite bind_cons, <-app_assoc. cbn [parse_subs length].
  rewrite get_le_app by (change (256 ^ Z.of_nat 4) with (2 ^ 32); lia). outcome_step.
  specialize (IH (pre ++ le_bytes 4 x)). rewrite <-app_assoc, length_app, length_le_bytes in IH.
  by rewrite IH.
Qed.

Lemma parse_sid_enc pre s post :
  aligned4 (length pre) -> sid_ok s ->
  parse_sid (pre ++ enc_sid s ++ post) (length pre) = Val (s, length (pre ++ enc_sid s)).
Proof.
  intros Ha Hs. pose proof (length_enc_sid s Hs) as Hle. pose proof (enc_sid_aligned s Hs) as Hal.
  destruct Hs as [Hc Hau Hl Hsu Hr]. set (k := Z.to_nat (sub_authority_count s)) in *.
  set (data := pre ++ enc_sid s ++ post).
  assert (length data = (length pre + (8 + k * 4 + length post))%nat) as Hd by (unfold data; rewrite !length_app; lia).
  assert (data !! length pre = Some (sid_revision s)) as H0 by (apply list_lookup_middle; done).
  assert (data !! (length pre + 1)%nat = Some (sub_authority_count s)) as H1.
  { unfold data. rewrite lookup_app_r by lia. by replace (length pre + 1 - length pre)%nat with 1%nat by lia. }
  set (subs := take k (sub_authorities s)). assert (length subs = k) as Hlk by (unfold subs; rewrite length_take; lia).
  assert (slice data (length pre + 2) 6 = Some (identifier_authority s)) as H2.
  { pose proof (slice_app (pre ++ [sid_revision s; sub_authority_count s]) (identifier_authority s)
      ((subs ≫= le_bytes 4) ++ post) 6 Hau) as Hsl.
    rewrite length_app in Hsl. rewrite <-Hsl. f_equal. unfold data, enc_sid. by rewrite <-!app_assoc. }
  assert (parse_subs data (length pre + 8) k = Val subs) as H3.
  { pose proof (parse_subs_enc subs (pre ++ [sid_revision s; sub_authority_count s] ++ identifier_authority s) post) as Hps.
    rewrite !length_app, Hau, Hlk in Hps. rewrite <-Hps by (by apply Forall_take).
    f_equal. unfold data, enc_sid. by rewrite <-!app_assoc. }
  unfold parse_sid. rewrite Hd.
  assert ((length pre + (8 + k * 4 + length post) <? length pre + 8)%nat = false) as -> by (apply Nat.ltb_ge; lia).
  outcome_step. rewrite H0. outcome_step. rewrite H1. outcome_step. rewrite H2. outcome_step. fold k.
  assert ((MAX_SUB_AUTHORITIES <? k)%nat || (length pre + (8 + k * 4 + length post) <? length pre + 8 + k * 4)%nat = false) as ->.
  { apply orb_false_iff. unfold MAX_SUB_AUTHORITIES. split; apply Nat.ltb_ge; lia. }
  outcome_step. rewrite H3. outcome_step. do 2 f_equal.
  - unfold sid_from_parts, MAX_SUB_AUTHORITIES. rewrite Hlk, Nat.min_l by lia. unfold subs.
    rewrite take_take, Nat.min_id, <-Hr, take_drop. destruct s. unfold k in *. simpl in *. f_equal. lia.
  - rewrite length_app, <-Nat.add_assoc, pad_to_4_shift by done. f_equal. rewrite <-Hle. by apply pad_to_4_id.
Qed.

Lemma parse_entry_enc pre e post :
  aligned4 (length pre) -> entry_ok e ->
  parse_entry (pre ++ enc_entry e ++ post) (length pre) = Val (e, length (pre ++ enc_entry e)).
Proof.
  intros Ha He. pose proof (enc_sid_aligned _ (eo_sid _ He)) as Hsa. destruct He as [[Hu1 Hl1] Hs Hf [Hu2 Hl2] [Hu3 Hl3]].
  pose proof (enc_text_aligned (username e)). pose proof (enc_text_aligned (full_name e)).
  assert (aligned4 4) by (by exists 1%nat). unfold parse_entry, enc_entry.
  set (t1 := enc_text (username e)) in *. set (sd := enc_sid (sam_sid e)) in *.
  set (fl := le_bytes 4 (sam_flags e)). set (t2 := enc_text (full_name e)) in *. set (t3 := enc_text (comment e)) in *.
  assert (length fl = 4%nat) as Hfl by apply length_le_bytes.
  rewrite <-!app_assoc. unfold t1. rewrite parse_text_enc by done. fold t1. outcome_step.
  pose proof (parse_sid_enc (pre ++ t1) (sam_sid e) (fl ++ t2 ++ t3 ++ post)) as E1.
  fold sd in E1. rewrite <-!app_assoc in E1. rewrite E1 by (rewrite ?length_app; auto using aligned4_add). outcome_step.
  assert ((length (pre ++ t1 ++ sd ++ fl ++ t2 ++ t3 ++ post) <? length (pre ++ t1 ++ sd) + 4)%nat = false) as ->
    by (rewrite !length_app, Hfl; apply Nat.ltb_ge; lia). outcome_step.
  pose proof (get_le_app 4 (pre ++ t1 ++ sd) (sam_flags e) (t2 ++ t3 ++ post)) as E2.
  fold fl in E2. rewrite <-!app_assoc in E2. rewrite E2 by (change (256 ^ Z.of_nat 4) with (2 ^ 32); lia). outcome_step.
  pose proof (parse_text_enc (pre ++ t1 ++ sd ++ fl) (full_name e) (t3 ++ post)) as E3.
  fold t2 in E3. rewrite <-!app_assoc in E3.
  replace (length (pre ++ t1 ++ sd) + 4)%nat with (length (pre ++ t1 ++ sd ++ fl)) by (rewrite !length_app; lia).
  rewrite E3 by (try done; rewrite ?length_app, Hfl; auto using aligned4_add). outcome_step.
  pose proof (parse_text_enc (pre ++ t1 ++ sd ++ fl ++ t2) (comment e) post) as E4.
  fold t3 in E4. rewrite <-!app_assoc in E4.
  rewrite E4 by (try done; rewrite ?length_app, Hfl; auto using aligned4_add). outcome_step.
  by destruct e.
Qed.

Lemma parse_entries_enc db pre :
  aligned4 (length pre) -> Forall entry_ok db ->
  parse_entries (pre ++ (db ≫= enc_entry)) (length pre) (length db) = Val db.
Proof.
  intros Ha Hdb. revert pre Ha. induction Hdb as [|e db He Hdb IH]; intros pre Ha; [done|].
  rewrite bind_cons. cbn [parse_entries length]. rewrite parse_entry_enc by done. outcome_step.
  rewrite app_assoc, IH; [done|]. rewrite length_app. auto using aligned4_add, enc_entry_aligned.
Qed.

Lemma put_entries_enc db buf :
  aligned4 (length buf) -> Forall entry_ok db -> foldl put_entry buf db = buf ++ (db ≫= enc_entry).
Proof.
  intros Ha Hdb. revert buf Ha. induction Hdb as [|e db He Hdb IH]; intros buf Ha.
  { symmetry. apply app_nil_r. }
  rewrite bind_cons. cbn [foldl]. rewrite put_entry_enc by done. rewrite IH; [by rewrite app_assoc|].
  rewrite length_app. auto using aligned4_add, enc_entry_aligned.
Qed.

(** C40. Reading a written account file gives back the accounts, in order, with
    names, SIDs, flags and comments: for every database of at most 64 accounts
    whose texts are UTF-8 of less than 2^16 bytes and whose SIDs are zero beyond
    their sub-authority count. *)
Theorem sam_roundtrip db :
  (length db <= MAX_SAM_ENTRIES)%nat -> Forall entry_ok db ->
  exists bytes, serialize_sam db = Ok bytes /\ parse_sam bytes = Val db.
Proof.
  intros Hl Hdb. eexists. split; [reflexivity|]. unfold MAX_SAM_ENTRIES in Hl.
  set (hd := SAM_MAGIC ++ le_bytes 4 SAM_VERSION ++ le_bytes 4 (Z.of_nat (length db)) ++ replicate 4 0).
  assert (length hd = 16%nat) as Hhd by (unfold hd; rewrite !length_app, !length_le_bytes; done).
  rewrite put_entries_enc by (rewrite ?Hhd; try done; by exists 4%nat). set (es := db ≫= enc_entry).
  assert (slice (hd ++ es) 0 4 = Some SAM_MAGIC) as H1.
  { unfold hd. rewrite <-!app_assoc. by apply (slice_app []). }
  assert (get_le 4 (hd ++ es) 4 = Some SAM_VERSION) as H2.
  { unfold hd. rewrite <-!app_assoc. apply (get_le_app 4 SAM_MAGIC). unfold SAM_VERSION. lia. }
  assert (get_le 4 (hd ++ es) 8 = Some (Z.of_nat (length db))) as H3.
  { unfold hd. rewrite <-!app_assoc.
    pose proof (get_le_app 4 (SAM_MAGIC ++ le_bytes 4 SAM_VERSION) (Z.of_nat (length db)) (replicate 4 0 ++ es)) as E.
    rewrite <-!app_assoc in E. rewrite length_app, length_le_bytes in E. apply E.
    change (256 ^ Z.of_nat 4) with (2 ^ 32). lia. }
  unfold parse_sam.
  assert ((length (hd ++ es) <? 16)%nat = false) as -> by (apply Nat.ltb_ge; rewrite length_app; lia). outcome_step.
  rewrite H1. outcome_step. rewrite bool_decide_eq_true_2 by done. outcome_step.
  rewrite H2. outcome_step. rewrite Z.eqb_refl. outcome_step. rewrite H3. outcome_step.
  assert ((Z.of_nat (length db) >? Z.of_nat MAX_SAM_ENTRIES) = false) as ->.
  { unfold MAX_SAM_ENTRIES. destruct (Z.gtb_spec (Z.of_nat (length db)) (Z.of_nat 64)); [lia|done]. }
  outcome_step. rewrite Nat2Z.id, <-Hhd. apply parse_entries_enc; [|done]. rewrite Hhd. by exists 4%nat.
Qed.

(** The accounts the system creates on its first boot. *)
Lemma sam_roundtrip_witness :
  exists bytes, serialize_sam sam_with_builtins = Ok bytes /\ parse_sam bytes = Val sam_with_builtins.
Proof.
  apply (sam_roundtrip sam_with_builtins).
  - vm_compute. lia.
  - repeat constructor; vm_compute; try done; repeat constructor; done.
Defined.
