(* ===== verification/BNode.v ===== *)
(** * BNode.v: B-tree nodes of the NeoFS file system ([fs/neofs/btree/node.rs])

    A node is a list of entries (key, value) written to a block of 4096 bytes:
    type, number of entries and CRC-32 in an 8-byte header, then each entry with
    16-bit lengths.  [crc32] is that of [fs/crc32.rs].  [find_pos] is the binary
    search of the standard library. *)

From S2P Require Import Prelude Str BTreeMap Bytes.
Open Scope Z_scope.

Definition NODE_SIZE : nat := Z.to_nat 4096.
Definition HEADER_SIZE : nat := 8.

(** ** CRC-32 *)

Definition CRC_POLY : Z := 0xEDB88320.
Definition U32_ONES : Z := 2 ^ 32 - 1.

(** One round of the inner loop. *)
Definition crc_round (crc : Z) : Z :=
  if negb (Z.land crc 1 =? 0) then Z.lxor (Z.shiftr crc 1) CRC_POLY else Z.shiftr crc 1.
Definition crc_byte (crc b : Z) : Z := Nat.iter 8 crc_round (Z.lxor crc b).
Definition crc32 (data : list Z) : Z := Z.lxor (foldl crc_byte U32_ONES data) U32_ONES.

(** ** Nodes *)

Inductive NodeType := Internal | Leaf.
#[global] Instance NodeType_eq_dec : EqDecision NodeType.
Proof. solve_decision. Defined.

(** [BTreeEntry { key, value }]. *)
Abbreviation BTreeEntry := (str * str)%type.
Abbreviation ent := (@pair str str) (only parsing).

Record BTreeNode := mkNode { node_type : NodeType; entries : list BTreeEntry }.

Definition node_new (t : NodeType) : BTreeNode := mkNode t [].
Definition is_leaf (n : BTreeNode) : bool := bool_decide (node_type n = Leaf).

(** [node_type as u16]. *)
Definition type_code (t : NodeType) : Z := match t with Internal => 0 | Leaf => 1 end.

Definition entry_size (e : BTreeEntry) : nat := (4 + length e.1 + length e.2)%nat.
Definition entries_size (es : list BTreeEntry) : nat := sum_list_with entry_size es.

(** The entries written from offset [off] on; writing stops at the first entry
    that does not fit in the block. *)
Fixpoint put_entries (off : nat) (es : list BTreeEntry) : list Z :=
  match es with
  | [] => []
  | (k, v) :: es =>
      if (NODE_SIZE <? off + 4 + length k + length v)%nat then []
      else le_bytes 2 (Z.of_nat (length k)) ++ k ++ le_bytes 2 (Z.of_nat (length v)) ++ v ++
           put_entries (off + (4 + length k + length v)) es
  end.

Definition serialize (n : BTreeNode) : list Z :=
  let body := put_entries HEADER_SIZE (entries n) in
  let payload := body ++ replicate (NODE_SIZE - HEADER_SIZE - length body) 0 in
  le_bytes 2 (type_code (node_type n)) ++ le_bytes 2 (Z.of_nat (length (entries n))) ++
  le_bytes 4 (crc32 payload) ++ payload.

(** A length-prefixed field at [off], and the offset behind it; [None] when it
    leaves the block. *)
Definition get_field (buf : list Z) (off : nat) : option (list Z * nat) :=
  if (NODE_SIZE <? off + 2)%nat then None
  else
    n ← get_le 2 buf off;
    let len := Z.to_nat n in
    if (NODE_SIZE <? off + 2 + len)%nat then None
    else l ← slice buf (off + 2) len; Some (l, (off + 2 + len)%nat).

Fixpoint get_entries (buf : list Z) (off count : nat) : option (list BTreeEntry) :=
  match count with
  | O => Some []
  | S count =>
      if (NODE_SIZE <? off + 4)%nat then None
      else
        '(k, off) ← get_field buf off;
        '(v, off) ← get_field buf off;
        es ← get_entries buf off count;
        Some ((k, v) :: es)
  end.

Definition deserialize (buf : list Z) : option BTreeNode :=
  let cksum := crc32 (drop 8 buf) in
  stored ← get_le 4 buf 4;
  if negb (stored =? 0) && negb (stored =? cksum) then None
  else
    code ← get_le 2 buf 0;
    t ← (if code =? 0 then Some Internal else if code =? 1 then Some Leaf else None);
    count ← get_le 2 buf 2;
    es ← get_entries buf HEADER_SIZE (Z.to_nat count);
    Some (mkNode t es).

(** [slice::binary_search_by]: the loop narrows [base..base + size]. *)
Fixpoint search_base (fuel : nat) (es : list BTreeEntry) (k : str) (base size : nat) : nat :=
  match fuel with
  | O => base
  | S f =>
      if (size <=? 1)%nat then base
      else
        let half := (size / 2)%nat in
        let mid := (base + half)%nat in
        search_base f es k (if key_lt k (es !!! mid).1 then base else mid) (size - half)
  end.

(** [Ok] is the position of the key, [Err] the position to insert it at. *)
Definition find_pos (es : list BTreeEntry) (k : str) : result nat nat :=
  if (length es =? 0)%nat then Err 0%nat
  else
    let base := search_base (length es) es k 0 (length es) in
    let kb := (es !!! base).1 in
    if decide (kb = k) then Ok base else if key_lt kb k then Err (S base) else Err base.

(** ** The checksum is a 32-bit word *)

Lemma lxor_bound32 a b : 0 <= a < 2 ^ 32 -> 0 <= b < 2 ^ 32 -> 0 <= Z.lxor a b < 2 ^ 32.
Proof.
  intros Ha Hb. assert (0 <= Z.lxor a b) by (apply Z.lxor_nonneg; split; lia). split; [done|].
  destruct (decide (Z.lxor a b = 0)) as [->|Hne]; [lia|].
  apply Z.log2_lt_pow2; [lia|]. eapply Z.le_lt_trans; [apply Z.log2_lxor; lia|].
  apply Z.max_lub_lt.
  - destruct (decide (a = 0)) as [->|]; [done|]. apply Z.log2_lt_pow2; lia.
  - destruct (decide (b = 0)) as [->|]; [done|]. apply Z.log2_lt_pow2; lia.
Qed.

Lemma crc_round_bound c : 0 <= c < 2 ^ 32 -> 0 <= crc_round c < 2 ^ 32.
Proof.
  intros Hc. assert (0 <= Z.shiftr c 1 < 2 ^ 32).
  { rewrite Z.shiftr_div_pow2 by lia. change (2 ^ 1) with 2. split; [apply Z.div_pos; lia|].
    eapply Z.le_lt_trans; [apply (Z.div_le_upper_bound c 2 c); lia|lia]. }
  unfold crc_round. case_if; [|done]. apply lxor_bound32; [done|]. unfold CRC_POLY. lia.
Qed.

Lemma crc_byte_bound c b : 0 <= c < 2 ^ 32 -> is_byte b -> 0 <= crc_byte c b < 2 ^ 32.
Proof.
  intros Hc Hb. unfold is_byte in Hb. unfold crc_byte. simpl.
  repeat apply crc_round_bound. apply lxor_bound32; lia.
Qed.

Lemma crc32_bound l : bytes_ok l -> 0 <= crc32 l < 2 ^ 32.
Proof.
  intros Hl. unfold crc32. apply lxor_bound32; [|unfold U32_ONES; lia].
  assert (forall c, 0 <= c < 2 ^ 32 -> 0 <= foldl crc_byte c l < 2 ^ 32) as H.
  { induction Hl as [|b l Hb Hl IH]; intros c Hc; simpl; [done|]. apply IH. by apply crc_byte_bound. }
  apply H. unfold U32_ONES. lia.
Qed.

(** ** The checksum detects a changed byte *)

Lemma crc_round_bit31 c : 0 <= c < 2 ^ 32 -> Z.testbit (crc_round c) 31 = Z.testbit c 0.
Proof.
  intros Hc. assert (Z.testbit (Z.shiftr c 1) 31 = false) as Hs.
  { rewrite Z.shiftr_spec by lia. destruct (decide (c = 0)) as [->|]; [done|].
    apply Z.bits_above_log2; [lia|]. apply Z.log2_lt_pow2; lia. }
  assert (Z.land c 1 = Z.b2z (Z.testbit c 0)) as Hl.
  { change 1 with (Z.ones 1) at 1. rewrite Z.land_ones, Z.bit0_mod by lia. done. }
  unfold crc_round. rewrite Hl. destruct (Z.testbit c 0); cbn [Z.b2z Z.eqb negb]; [|done].
  by rewrite Z.lxor_spec, Hs.
Qed.

Lemma crc_round_inj c d : 0 <= c < 2 ^ 32 -> 0 <= d < 2 ^ 32 -> crc_round c = crc_round d -> c = d.
Proof.
  intros Hc Hd E. assert (Z.testbit c 0 = Z.testbit d 0) as E0 by (by rewrite <-!crc_round_bit31, E).
  assert (Z.shiftr c 1 = Z.shiftr d 1) as Es.
  { unfold crc_round in E. assert (Z.land c 1 = Z.land d 1) as El.
    { change 1 with (Z.ones 1). rewrite !Z.land_ones by lia. change (2 ^ 1) with 2. by rewrite <-!Z.bit0_mod, E0. }
    rewrite El in E. destruct (negb _); [|done].
    apply (f_equal (λ x, Z.lxor x CRC_POLY)) in E. by rewrite !Z.lxor_assoc, !Z.lxor_nilpotent, !Z.lxor_0_r in E. }
  apply Z.bits_inj'. intros n Hn. destruct (decide (n = 0)) as [->|]; [done|].
  apply (f_equal (λ x, Z.testbit x (n - 1))) in Es. rewrite !Z.shiftr_spec in Es by lia.
  by replace (n - 1 + 1) with n in Es by lia.
Qed.

Lemma crc_byte_inj c d a b : 0 <= c < 2 ^ 32 -> 0 <= d < 2 ^ 32 -> is_byte a -> is_byte b ->
  crc_byte c a = crc_byte d b -> Z.lxor c a = Z.lxor d b.
Proof.
  intros Hc Hd Ha Hb. unfold is_byte in *.
  assert (0 <= Z.lxor c a < 2 ^ 32) as Hx by (apply lxor_bound32; lia).
  assert (0 <= Z.lxor d b < 2 ^ 32) as Hy by (apply lxor_bound32; lia).
  unfold crc_byte. revert Hx Hy. generalize (Z.lxor c a) (Z.lxor d b). generalize 8%nat. intros n. induction n as [|n IH]; intros x y Hx Hy E; [done|].
  apply IH; try done. simpl in E. apply crc_round_inj; [| |done].
  - clear - Hx. induction n; [done|]. simpl. by apply crc_round_bound.
  - clear - Hy. induction n; [done|]. simpl. by apply crc_round_bound.
Qed.

Lemma lxor_cancel_r x y a : Z.lxor x a = Z.lxor y a -> x = y.
Proof. intros E%(f_equal (λ z, Z.lxor z a)). by rewrite !Z.lxor_assoc, !Z.lxor_nilpotent, !Z.lxor_0_r in E. Qed.

Lemma crc_bytes_bound l c : bytes_ok l -> 0 <= c < 2 ^ 32 -> 0 <= foldl crc_byte c l < 2 ^ 32.
Proof. intros Hl. revert c. induction Hl as [|b l Hb Hl IH]; intros c Hc; [done|]. simpl. apply IH. by apply crc_byte_bound. Qed.

Lemma crc_bytes_inj l c d : bytes_ok l -> 0 <= c < 2 ^ 32 -> 0 <= d < 2 ^ 32 ->
  foldl crc_byte c l = foldl crc_byte d l -> c = d.
Proof.
  intros Hl. revert c d. induction Hl as [|b l Hb Hl IH]; intros c d Hc Hd E; [done|]. simpl in E.
  apply IH in E; [|by apply crc_byte_bound..]. apply crc_byte_inj in E; try done. by apply lxor_cancel_r in E.
Qed.

Lemma crc32_insert l i b : bytes_ok l -> is_byte b -> (i < length l)%nat -> l !! i ≠ Some b ->
  crc32 (<[i := b]> l) ≠ crc32 l.
Proof.
  intros Hl Hb Hi Hne E. apply lxor_cancel_r in E. destruct (lookup_lt_is_Some_2 l i Hi) as [a Ha].
  assert (is_byte a) as Hab by (by eapply (Forall_lookup_1 is_byte)).
  rewrite <-(take_drop_middle l i a Ha) in E at 2. rewrite insert_take_drop in E by done.
  rewrite !foldl_app in E. simpl in E.
  assert (bytes_ok (take i l)) by (by apply Forall_take). assert (bytes_ok (drop (S i) l)) by (by apply Forall_drop).
  set (c := foldl crc_byte U32_ONES (take i l)) in *.
  assert (0 <= c < 2 ^ 32) as Hc by (apply crc_bytes_bound; [done|unfold U32_ONES; lia]).
  apply crc_bytes_inj in E; [|done|by apply crc_byte_bound..]. apply crc_byte_inj in E; try done.
  rewrite !(Z.lxor_comm c) in E. apply lxor_cancel_r in E. congruence.
Qed.

(** ** Reading back a node *)

Record entry_bytes (e : BTreeEntry) : Prop := { eb_key : bytes_ok e.1; eb_value : bytes_ok e.2 }.

(** A node that fits in its block. *)
Record storable (n : BTreeNode) : Prop := {
  st_fits : (HEADER_SIZE + entries_size (entries n) <= NODE_SIZE)%nat;
  st_bytes : Forall entry_bytes (entries n);
}.

Definition enc_entry (e : BTreeEntry) : list Z :=
  le_bytes 2 (Z.of_nat (length e.1)) ++ e.1 ++ le_bytes 2 (Z.of_nat (length e.2)) ++ e.2.

Lemma NODE_SIZE_Z : Z.of_nat NODE_SIZE = 4096.
Proof. done. Qed.

Lemma length_enc_entry e : length (enc_entry e) = entry_size e.
Proof. unfold enc_entry, entry_size. rewrite !length_app, !length_le_bytes. lia. Qed.

Lemma entries_size_cons e es : entries_size (e :: es) = (entry_size e + entries_size es)%nat.
Proof. done. Qed.

Lemma entries_size_app a b : entries_size (a ++ b) = (entries_size a + entries_size b)%nat.
Proof. apply sum_list_with_app. Qed.

Lemma length_enc_entries es : length (es ≫= enc_entry) = entries_size es.
Proof.
  induction es as [|e es IH]; [done|].
  by rewrite bind_cons, length_app, length_enc_entry, IH.
Qed.

Lemma node_entries_enc off es :
  (off + entries_size es <= NODE_SIZE)%nat -> put_entries off es = es ≫= enc_entry.
Proof.
  revert off. induction es as [|[k v] es IH]; intros off Hf; [done|].
  rewrite entries_size_cons in Hf. unfold entry_size in Hf. cbn [fst snd] in Hf.
  cbn [put_entries]. destruct (Nat.ltb_spec NODE_SIZE (off + 4 + length k + length v)); [lia|].
  rewrite IH by lia.
  rewrite bind_cons. unfold enc_entry. cbn [fst snd]. by rewrite <-!app_assoc.
Qed.

Lemma enc_entry_bytes e : entry_bytes e -> bytes_ok (enc_entry e).
Proof. intros [Hk Hv]. unfold enc_entry. repeat apply Forall_app_2; first [apply le_bytes_ok|done]. Qed.

Lemma enc_entries_bytes es : Forall entry_bytes es -> bytes_ok (es ≫= enc_entry).
Proof.
  induction 1 as [|e es He Hes IH]; [constructor|]. rewrite bind_cons.
  apply Forall_app_2; [by apply enc_entry_bytes|done].
Qed.

Lemma get_field_enc pre l post :
  (length pre + 2 + length l <= NODE_SIZE)%nat ->
  get_field (pre ++ le_bytes 2 (Z.of_nat (length l)) ++ l ++ post) (length pre) =
    Some (l, (length pre + 2 + length l)%nat).
Proof.
  intros Hl. pose proof NODE_SIZE_Z. unfold get_field.
  destruct (Nat.ltb_spec NODE_SIZE (length pre + 2)); [lia|].
  rewrite get_le_app by (change (256 ^ Z.of_nat 2) with 65536; lia). cbn [mbind option_bind]. rewrite Nat2Z.id.
  destruct (Nat.ltb_spec NODE_SIZE (length pre + 2 + length l)); [lia|].
  pose proof (slice_app (pre ++ le_bytes 2 (Z.of_nat (length l))) l post (length l) eq_refl) as Hs.
  rewrite length_app, length_le_bytes, <-app_assoc in Hs. by rewrite Hs.
Qed.

Lemma get_entries_enc es pre post :
  (length pre + entries_size es <= NODE_SIZE)%nat ->
  get_entries (pre ++ (es ≫= enc_entry) ++ post) (length pre) (length es) = Some es.
Proof.
  revert pre. induction es as [|[k v] es IH]; intros pre Hf; [done|].
  rewrite entries_size_cons in Hf. unfold entry_size in Hf. cbn [fst snd] in Hf.
  cbn [get_entries length]. destruct (Nat.ltb_spec NODE_SIZE (length pre + 4)); [lia|].
  assert (enc_entry (k, v) = le_bytes 2 (Z.of_nat (length k)) ++ k ++ le_bytes 2 (Z.of_nat (length v)) ++ v) as He by done.
  rewrite bind_cons, He. rewrite <-!app_assoc.
  rewrite get_field_enc by lia. cbn [mbind option_bind].
  pose proof (get_field_enc (pre ++ le_bytes 2 (Z.of_nat (length k)) ++ k) v ((es ≫= enc_entry) ++ post)) as Hg.
  rewrite <-!app_assoc, !length_app, length_le_bytes, Nat.add_assoc in Hg. rewrite Hg by lia. cbn [mbind option_bind].
  specialize (IH (pre ++ enc_entry (k, v))). rewrite length_app, length_enc_entry, He, <-!app_assoc in IH. unfold entry_size in IH. cbn [fst snd] in IH.
  replace (length pre + 2 + length k + 2 + length v)%nat with (length pre + (4 + length k + length v))%nat by lia.
  by rewrite IH by lia.
Qed.

Lemma entries_size_count es : (4 * length es <= entries_size es)%nat.
Proof.
  induction es as [|e es IH]; [done|]. rewrite entries_size_cons. unfold entry_size. simpl. lia.
Qed.

(** Writing a node that fits and reading the block back gives the node. *)
Lemma deserialize_serialize n : storable n -> deserialize (serialize n) = Some n.
Proof.
  intros [Hf Hb]. destruct n as [t es]. cbn [entries] in *. pose proof NODE_SIZE_Z.
  unfold serialize. cbn [entries node_type]. rewrite node_entries_enc by done.
  set (payload := (es ≫= enc_entry) ++ replicate _ 0).
  assert (bytes_ok payload) as Hp.
  { apply Forall_app_2; [by apply enc_entries_bytes|]. apply Forall_replicate. unfold is_byte. lia. }
  pose proof (crc32_bound payload Hp) as Hc. pose proof (entries_size_count es).
  set (count := Z.of_nat (length es)). assert (0 <= count < 65536) by (unfold HEADER_SIZE in Hf; lia).
  unfold deserialize.
  assert (drop 8 (le_bytes 2 (type_code t) ++ le_bytes 2 count ++ le_bytes 4 (crc32 payload) ++ payload) = payload) as ->.
  { rewrite !app_assoc. apply drop_app_length'. by rewrite !length_app, !length_le_bytes. }
  pose proof (get_le_app 4 (le_bytes 2 (type_code t) ++ le_bytes 2 count) (crc32 payload) payload) as E1.
  rewrite length_app, !length_le_bytes, <-app_assoc in E1. change (2 + 2)%nat with 4%nat in E1. rewrite E1 by exact Hc. cbn [mbind option_bind].
  rewrite Z.eqb_refl, andb_false_r.
  pose proof (get_le_app 2 [] (type_code t) (le_bytes 2 count ++ le_bytes 4 (crc32 payload) ++ payload)) as E0.
  cbn [app length] in E0. rewrite E0 by (destruct t; simpl; lia). cbn [mbind option_bind].
  assert ((if type_code t =? 0 then Some Internal else if type_code t =? 1 then Some Leaf else None) = Some t)
    as -> by (by destruct t). cbn [mbind option_bind].
  pose proof (get_le_app 2 (le_bytes 2 (type_code t)) count (le_bytes 4 (crc32 payload) ++ payload)) as E2.
  rewrite length_le_bytes in E2. rewrite E2 by (change (256 ^ Z.of_nat 2) with 65536; lia).
  cbn [mbind option_bind]. unfold count. rewrite Nat2Z.id.
  pose proof (get_entries_enc es (le_bytes 2 (type_code t) ++ le_bytes 2 count ++ le_bytes 4 (crc32 payload))
    (replicate (NODE_SIZE - HEADER_SIZE - length (es ≫= enc_entry)) 0)) as E3.
  rewrite <-!app_assoc, !length_app, !length_le_bytes in E3. fold payload in E3. unfold count in E3.
  change (2 + (2 + 4))%nat with HEADER_SIZE in E3.
  rewrite E3 by exact Hf. done.
Qed.

Lemma length_serialize n : storable n -> length (serialize n) = NODE_SIZE.
Proof.
  intros [Hf _]. unfold serialize. rewrite node_entries_enc by done.
  rewrite !length_app, !length_le_bytes, length_replicate, length_enc_entries. unfold HEADER_SIZE in *. lia.
Qed.

(** ** The binary search on a sorted node *)

Lemma sorted_keys_lt (es : list BTreeEntry) i j a b :
  bt_sorted es -> es !! i = Some a -> es !! j = Some b -> (i < j)%nat -> key_lt a.1 b.1 = true.
Proof.
  unfold bt_sorted. revert i j. induction es as [|e es IH]; intros i j Hs Hi Hj Hij; [done|].
  inversion Hs as [|? ? Hs' Hall]; subst. destruct j as [|j]; [lia|]. destruct i as [|i]; simpl in *.
  - injection Hi as ->. rewrite Forall_forall in Hall. apply Hall, list_elem_of_fmap.
    exists b. split; [done|]. by eapply list_elem_of_lookup_2.
  - apply (IH i j); [done..|lia].
Qed.

Lemma search_base_spec fuel es k base size :
  bt_sorted es -> (1 <= size <= fuel)%nat -> (base + size <= length es)%nat ->
  (forall j e, es !! j = Some e -> (base + size <= j)%nat -> key_lt k e.1 = true) ->
  (base = 0%nat \/ key_lt k (es !!! base).1 = false) ->
  let b := search_base fuel es k base size in
  (b < length es)%nat /\ (forall j e, es !! j = Some e -> (b < j)%nat -> key_lt k e.1 = true) /\
  (b = 0%nat \/ key_lt k (es !!! b).1 = false).
Proof.
  intros Hs. revert base size. induction fuel as [|f IH]; intros base size Hsz Hl Hhi Hlo; [lia|].
  cbn [search_base]. destruct (Nat.leb_spec size 1).
  { replace size with 1%nat in * by lia. split; [lia|]. split; [|done]. intros j e Hj ?. apply (Hhi j e Hj). lia. }
  pose proof (Nat.div_mod_eq size 2). pose proof (Nat.mod_upper_bound size 2 ltac:(lia)).
  pose proof (Nat.div_lt size 2 ltac:(lia) ltac:(lia)). pose proof (Nat.div_str_pos size 2 ltac:(lia)).
  set (half := (size / 2)%nat) in *. set (mid := (base + half)%nat).
  assert (es !! mid = Some (es !!! mid)) as Hm by (apply list_lookup_lookup_total_lt; lia).
  destruct (key_lt k (es !!! mid).1) eqn:E.
  - apply IH; [lia|lia| |done]. intros j e Hj Hle.
    destruct (decide (j = mid)) as [->|Hne]; [congruence|].
    pose proof (sorted_keys_lt es mid j _ e Hs Hm Hj ltac:(lia)). by eapply key_lt_trans.
  - apply IH; [lia|lia| |by right]. intros j e Hj Hle. apply (Hhi j e Hj). lia.
Qed.

(** What the search tells about the position it returns. *)
Lemma find_pos_spec es k :
  bt_sorted es ->
  match find_pos es k with
  | Ok i => exists v, es !! i = Some (k, v)
  | Err i => (i <= length es)%nat /\ (forall j e, es !! j = Some e -> (j < i)%nat -> key_lt e.1 k = true) /\
      (forall j e, es !! j = Some e -> (i <= j)%nat -> key_lt k e.1 = true)
  end.
Proof.
  intros Hs. unfold find_pos. destruct (Nat.eqb_spec (length es) 0) as [H0|H0].
  { destruct es; [|done]. split; [done|]. by split; intros. }
  destruct (search_base_spec (length es) es k 0 (length es) Hs) as (Hb & Hhi & Hlo); [lia|lia| |by left|].
  { intros j e Hj%lookup_lt_Some ?. lia. }
  set (b := search_base _ _ _ _ _) in *. clearbody b.
  assert (es !! b = Some (es !!! b)) as Hm by (by apply list_lookup_lookup_total_lt).
  destruct (decide ((es !!! b).1 = k)) as [<-|Hne].
  { rewrite Hm. exists (es !!! b).2. by destruct (es !!! b). }
  destruct (key_lt (es !!! b).1 k) eqn:E.
  - split; [lia|]. split; [|intros j e Hj ?; apply (Hhi j e Hj); lia].
    intros j e Hj Hlt. destruct (decide (j = b)) as [->|]; [congruence|].
    eapply key_lt_trans; [|exact E]. by eapply (sorted_keys_lt es j b); [..|lia].
  - destruct (key_lt_total (es !!! b).1 k) as [?|[?|Hgt]]; [done|congruence|].
    destruct Hlo as [Hb0|?]; [|congruence]. rewrite Hb0 in *. split; [lia|]. split; [intros; lia|].
    intros j e Hj _. destruct (decide (j = 0%nat)) as [->|]; [congruence|]. apply (Hhi j e Hj). lia.
Qed.

Lemma serialize_bytes n : storable n -> bytes_ok (serialize n).
Proof.
  intros [Hf Hb]. unfold serialize. rewrite node_entries_enc by done.
  repeat apply Forall_app_2; try apply le_bytes_ok; [by apply enc_entries_bytes|]. apply Forall_replicate. unfold is_byte. lia.
Qed.

(** C15. Reading back a node: a node whose entries fit is written as a block of
    exactly 4096 bytes, and reading that block gives the node again, with its type
    and all its entries in order. *)
Theorem node_block_roundtrip n : storable n -> length (serialize n) = NODE_SIZE /\ deserialize (serialize n) = Some n.
Proof. split; [by apply length_serialize|by apply deserialize_serialize]. Qed.

Definition sample_node : BTreeNode := mkNode Leaf [([97; 98], [1; 2; 3]); ([99], [])].

Lemma sample_storable : storable sample_node.
Proof. constructor; [by apply (Nat.leb_le _ _)|]. repeat constructor; simpl; lia. Qed.

Lemma node_block_roundtrip_witness : deserialize (serialize sample_node) = Some sample_node.
Proof. apply (node_block_roundtrip sample_node). exact sample_storable. Defined.

(** C16. Corruption is detected: in a block that is accepted and carries a
    checksum (one that is not 0), changing any single byte behind the header makes
    [deserialize] reject it; no such change is read as another node. *)
Theorem corrupted_byte_rejected buf stored n i b :
  bytes_ok buf -> length buf = NODE_SIZE -> get_le 4 buf 4 = Some stored -> stored ≠ 0 -> deserialize buf = Some n ->
  (HEADER_SIZE <= i < NODE_SIZE)%nat -> is_byte b -> buf !! i ≠ Some b ->
  deserialize (<[i := b]> buf) = None.
Proof.
  intros Hb Hlen Hst Hnz Hd Hi Hbb Hne. unfold HEADER_SIZE in Hi.
  assert (stored = crc32 (drop 8 buf)) as ->.
  { unfold deserialize in Hd. rewrite Hst in Hd. cbn [mbind option_bind] in Hd.
    destruct (Z.eqb_spec stored 0); [done|]. destruct (Z.eqb_spec stored (crc32 (drop 8 buf))); done. }
  assert (get_le 4 (<[i := b]> buf) 4 = Some (crc32 (drop 8 buf))) as Hst'.
  { rewrite <-Hst. unfold get_le, slice. rewrite length_insert. case_match; [|done]. cbn [mbind option_bind].
    do 2 f_equal. apply list_eq. intros j. destruct (decide (j < 4)%nat) as [Hj|]; [|by rewrite !lookup_take_ge by lia].
    rewrite !lookup_take_lt, !lookup_drop, list_lookup_insert_ne by lia. done. }
  unfold deserialize. rewrite Hst'. cbn [mbind option_bind].
  destruct (Z.eqb_spec (crc32 (drop 8 buf)) 0); [done|].
  destruct (Z.eqb_spec (crc32 (drop 8 buf)) (crc32 (drop 8 (<[i := b]> buf)))) as [E|]; [|done].
  exfalso. rewrite drop_insert_ge in E by lia. symmetry in E. revert E. apply crc32_insert; try done.
  - by apply Forall_drop.
  - rewrite length_drop. lia.
  - by rewrite lookup_drop, Nat.add_sub_assoc, Nat.add_comm, Nat.add_sub by lia.
Qed.

Lemma corrupted_byte_rejected_witness : deserialize (<[10%nat := 255]> (serialize sample_node)) = None.
Proof.
  apply (corrupted_byte_rejected (serialize sample_node) (crc32 (drop 8 (serialize sample_node))) sample_node).
  - apply serialize_bytes, sample_storable.
  - apply length_serialize, sample_storable.
  - vm_compute. reflexivity.
  - vm_compute. discriminate.
  - apply deserialize_serialize, sample_storable.
  - unfold HEADER_SIZE, NODE_SIZE. lia.
  - unfold is_byte. lia.
  - vm_compute. discriminate.
Defined.
