(* ===== verification/NeoTree.v ===== *)
(** * NeoTree.v: the copy-on-write B-tree of NeoFS ([fs/neofs/btree/tree.rs])

    Every directory of the file system is a B-tree of 4096-byte nodes.  Updates
    never overwrite a node: they write new ones and return the new root, and put
    the addresses of the nodes they replace into [garbage].  Reading and writing
    nodes is the interface [BTreeIO], with its laws in [BTreeIOLaws].

    [M] is the effect of the Rust code: the block store and the garbage list are
    threaded, [?] on an [Option] ends the function with the state reached, and the
    outer [None] is a panic or a recursion deeper than the fuel. *)

From stdpp Require Import gmap.
From S2P Require Import Prelude Str BTreeMap Bytes BNode.
Open Scope Z_scope.

Class BTreeIO (S : Type) := {
  read_node : S -> Z -> option BTreeNode;
  write_node : S -> BTreeNode -> Z * S;
}.

(** What the store promises: [io_rep s m r] says that the nodes of [m] are in
    the store and that [r] more can be written; a write goes to a new address and
    keeps the nodes there are. *)
Class BTreeIOLaws (S : Type) `{BTreeIO S} := {
  io_rep : S -> gmap Z BTreeNode -> nat -> Prop;
  io_read s m r l n : io_rep s m r -> m !! l = Some n -> read_node s l = Some n;
  io_write s m r n : io_rep s m (Datatypes.S r) -> storable n ->
    0 < (write_node s n).1 < 2 ^ 64 /\ m !! (write_node s n).1 = None /\
    io_rep (write_node s n).2 (<[(write_node s n).1 := n]> m) r;
}.

(** ** Sizes *)

Definition node_fits (es : list BTreeEntry) : bool := (HEADER_SIZE + entries_size es <=? NODE_SIZE)%nat.
Definition node_underfull (es : list BTreeEntry) : bool := (HEADER_SIZE + entries_size es <? NODE_SIZE / 2)%nat.

Definition clamp (x lo hi : nat) : nat := Nat.max lo (Nat.min x hi).

(** The loop of [split_index]. *)
Fixpoint split_scan (i acc total n : nat) (es : list BTreeEntry) : nat :=
  match es with
  | [] => clamp (n / 2) 1 (n - 1)
  | e :: es =>
      let acc := (acc + entry_size e)%nat in
      if (total <=? acc * 2)%nat then clamp (i + 1) 1 (n - 1) else split_scan (S i) acc total n es
  end.

Definition split_index (es : list BTreeEntry) : nat :=
  let n := length es in
  if (n <? 2)%nat then 1%nat else split_scan 0 0 (entries_size es) n es.

Definition u64_from_value (v : str) : option Z :=
  if (length v <? 8)%nat then None else get_le 8 v 0.

(** The entry of an internal node to descend into. *)
Definition child_index (es : list BTreeEntry) (k : str) : nat :=
  match find_pos es k with Ok p => p | Err O => O | Err p => (p - 1)%nat end.

(** Both halves and the key between them; [None] is the index out of range of a
    node with one entry. *)
Definition split_node (es : list BTreeEntry) : option (str * list BTreeEntry * list BTreeEntry) :=
  let mid := split_index es in
  e ← es !! mid; Some (e.1, take mid es, drop mid es).

Definition split_internal (es : list BTreeEntry) : option (str * list BTreeEntry * list BTreeEntry) :=
  let mid := split_index es in
  e ← es !! mid; Some (e.1, take mid es, ([], e.2) :: drop (mid + 1) es).

Definition merge_nodes (lhs rhs : BTreeNode) (sep : str) : BTreeNode :=
  if is_leaf lhs then mkNode (node_type lhs) (entries lhs ++ entries rhs)
  else match entries rhs with
       | [] => lhs
       | first :: rest => mkNode (node_type lhs) (entries lhs ++ (sep, first.2) :: rest)
       end.

(** [Vec::insert] within range. *)
Definition vec_insert {A} (i : nat) (x : A) (l : list A) : list A := take i l ++ x :: drop i l.

(** [entries[i].value = lba.to_le_bytes()] and [entries[i].key = k]. *)
Definition set_child (es : list BTreeEntry) (i : nat) (lba : Z) : list BTreeEntry :=
  alter (λ e, ent e.1 (le_bytes 8 lba)) i es.
Definition set_key (es : list BTreeEntry) (i : nat) (k : str) : list BTreeEntry :=
  alter (λ e, (k, e.2)) i es.

Inductive InsertResult :=
  | Done (lba : Z)
  | Split (median : str) (left right : Z).

Section tree.
Context {St : Type} `{BTreeIO St}.

(** ** The monad *)

Definition M (A : Type) : Type := St * list Z -> option (option A * (St * list Z)).

#[global] Instance M_ret : MRet M := λ A a st, Some (Some a, st).
#[global] Instance M_bind : MBind M := λ A B f m st,
  match m st with
  | None => None
  | Some (None, st) => Some (None, st)
  | Some (Some a, st) => f a st
  end.

Definition orpanic {A} (o : option A) : M A := λ st, a ← o; Some (Some a, st).
Definition question {A} (o : option A) : M A := λ st, Some (o, st).
Definition readM (lba : Z) : M BTreeNode := λ st, Some (read_node st.1 lba, st).
Definition peekM (lba : Z) : M (option BTreeNode) := λ st, Some (Some (read_node st.1 lba), st).
Definition writeM (t : NodeType) (es : list BTreeEntry) : M Z := λ st,
  let r := write_node st.1 (mkNode t es) in Some (Some r.1, (r.2, st.2)).
Definition pushM (lba : Z) : M () := λ st, Some (Some (), (st.1, st.2 ++ [lba])).
(** [if let Some(l) = u64_from_value(v) { garbage.push(l) }]. *)
Definition push_value (v : str) : M () :=
  match u64_from_value v with Some l => pushM l | None => mret () end.

(** ** Reading *)

Fixpoint lookup_loop (fuel : nat) (s : St) (node : BTreeNode) (key : str) : option (option str) :=
  match fuel with
  | O => None
  | S f =>
      let es := entries node in
      if is_leaf node then
        Some (match find_pos es key with Ok pos => snd <$> es !! pos | Err _ => None end)
      else
        e ← es !! child_index es key;
        match child_lba ← u64_from_value e.2; read_node s child_lba with
        | None => Some None
        | Some child => lookup_loop f s child key
        end
  end.

Definition lookup (fuel : nat) (s : St) (root_lba : Z) (key : str) : option (option str) :=
  if root_lba =? 0 then Some None
  else match read_node s root_lba with
       | None => Some None
       | Some node => lookup_loop fuel s node key
       end.

(** The entries [walk] visits, in order. *)
Fixpoint walk_recursive (fuel : nat) (s : St) (node : BTreeNode) : option (list BTreeEntry) :=
  match fuel with
  | O => None
  | S f =>
      if is_leaf node then Some (entries node)
      else option_map (concat (A:=BTreeEntry)) (mapM (λ e : BTreeEntry,
        match child_lba ← u64_from_value e.2; read_node s child_lba with
        | None => Some []
        | Some child => walk_recursive f s child
        end) (entries node))
  end.

Definition walk (fuel : nat) (s : St) (root_lba : Z) : option (list BTreeEntry) :=
  if root_lba =? 0 then Some []
  else match read_node s root_lba with None => Some [] | Some node => walk_recursive fuel s node end.

(** The addresses [walk_lbas] visits, in order. *)
Fixpoint walk_lbas_recursive (fuel : nat) (s : St) (lba : Z) : option (list Z) :=
  match fuel with
  | O => None
  | S f =>
      if lba =? 0 then Some []
      else match read_node s lba with
           | None => Some [lba]
           | Some node =>
               if is_leaf node then Some [lba]
               else l ← mapM (λ e : BTreeEntry,
                      match u64_from_value e.2 with
                      | None => Some []
                      | Some child => walk_lbas_recursive f s child
                      end) (entries node);
                    Some (lba :: concat (A:=Z) l)
           end
  end.

Definition walk_lbas (fuel : nat) (s : St) (root_lba : Z) : option (list Z) :=
  walk_lbas_recursive fuel s root_lba.

(** ** Insertion *)

(** Write the two halves of a node that does not fit. *)
Definition write_split (t : NodeType) (halves : option (str * list BTreeEntry * list BTreeEntry)) : M InsertResult :=
  '(median, lhs, rhs) ← orpanic halves;
  left_lba ← writeM t lhs;
  right_lba ← writeM t rhs;
  mret (Split median left_lba right_lba).

Fixpoint ins (fuel : nat) (node_lba : Z) (key value : str) : M InsertResult :=
  match fuel with
  | O => λ _, None
  | S f =>
      node ← readM node_lba;
      _ ← pushM node_lba;
      let es := entries node in
      if is_leaf node then
        let new := match find_pos es key with
                   | Ok pos => alter (λ e, (e.1, value)) pos es
                   | Err pos => vec_insert pos (key, value) es
                   end in
        if negb (node_fits new) then write_split Leaf (split_node new)
        else lba ← writeM (node_type node) new; mret (Done lba)
      else
        let child_idx := child_index es key in
        e ← orpanic (es !! child_idx);
        child_lba ← question (u64_from_value e.2);
        r ← ins f child_lba key value;
        match r with
        | Done new_child_lba =>
            lba ← writeM (node_type node) (set_child es child_idx new_child_lba); mret (Done lba)
        | Split median_key left_lba right_lba =>
            let new := vec_insert (child_idx + 1) (ent median_key (le_bytes 8 right_lba))
                         (set_child es child_idx left_lba) in
            if negb (node_fits new) then write_split Internal (split_internal new)
            else lba ← writeM (node_type node) new; mret (Done lba)
        end
  end.

Definition insert_tracked (fuel : nat) (root_lba : Z) (key value : str) : M Z :=
  if root_lba =? 0 then writeM Leaf [(key, value)]
  else
    result ← ins fuel root_lba key value;
    match result with
    | Done new_lba => mret new_lba
    | Split median_key left_lba right_lba =>
        writeM Internal [ent [] (le_bytes 8 left_lba); ent median_key (le_bytes 8 right_lba)]
    end.

(** ** Deletion *)

(** The child at position [i] of [parent]; the inner [None] is an early return. *)
Definition read_child (parent : list BTreeEntry) (i : nat) : M (option BTreeNode) :=
  e ← orpanic (parent !! i);
  match u64_from_value e.2 with None => mret None | Some l => peekM l end.

Definition borrow_left (parent : list BTreeEntry) (child_idx : nat) (lhs child : BTreeNode)
    : M (bool * list BTreeEntry) :=
  e ← orpanic (parent !! child_idx);
  e_left ← orpanic (parent !! (child_idx - 1)%nat);
  _ ← push_value e_left.2;
  _ ← push_value e.2;
  borrowed ← orpanic (last (entries lhs));
  let parent := set_key parent child_idx borrowed.1 in
  let child_es := (if is_leaf child then borrowed else (e.1, borrowed.2)) :: entries child in
  new_left_lba ← writeM (node_type lhs) (removelast (entries lhs));
  new_child_lba ← writeM (node_type child) child_es;
  mret (true, set_child (set_child parent (child_idx - 1) new_left_lba) child_idx new_child_lba).

Definition borrow_right (parent : list BTreeEntry) (child_idx : nat) (child rhs : BTreeNode)
    : M (bool * list BTreeEntry) :=
  let right_idx := (child_idx + 1)%nat in
  e ← orpanic (parent !! child_idx);
  e_right ← orpanic (parent !! right_idx);
  _ ← push_value e.2;
  _ ← push_value e_right.2;
  borrowed ← orpanic (head (entries rhs));
  let rest := tail (entries rhs) in
  new_key ← (if is_leaf child then first ← orpanic (head rest); mret first.1
             else mret (if (length rest =? 0)%nat then [] else borrowed.1));
  let parent := set_key parent right_idx new_key in
  let child_es := entries child ++ [if is_leaf child then borrowed else (e_right.1, borrowed.2)] in
  new_child_lba ← writeM (node_type child) child_es;
  new_right_lba ← writeM (node_type rhs) rest;
  mret (true, set_child (set_child parent child_idx new_child_lba) right_idx new_right_lba).

(** [merge_into_left] at [i = child_idx] and [merge_into_right] at
    [i = child_idx + 1]: both fuse the nodes at [i - 1] and [i] into [i - 1]. *)
Definition merge_pair (parent : list BTreeEntry) (i : nat) (lhs rhs : BTreeNode)
    : M (bool * list BTreeEntry) :=
  e ← orpanic (parent !! i);
  e_left ← orpanic (parent !! (i - 1)%nat);
  _ ← push_value e_left.2;
  _ ← push_value e.2;
  let merged := merge_nodes lhs rhs e.1 in
  if negb (node_fits (entries merged)) then mret (false, parent)
  else
    merged_lba ← writeM (node_type merged) (entries merged);
    mret (true, delete i (set_child parent (i - 1) merged_lba)).

Definition merge_into_left (parent : list BTreeEntry) (child_idx : nat) (lhs child : BTreeNode) :=
  merge_pair parent child_idx lhs child.
Definition merge_into_right (parent : list BTreeEntry) (child_idx : nat) (child rhs : BTreeNode) :=
  merge_pair parent (child_idx + 1) child rhs.

(** The last part of [try_borrow_or_merge]. *)
Definition merge_step (parent : list BTreeEntry) (child_idx : nat) (child : BTreeNode)
    : M (bool * list BTreeEntry) :=
  if (0 <? child_idx)%nat then
    l ← read_child parent (child_idx - 1);
    match l with None => mret (false, parent) | Some lhs => merge_into_left parent child_idx lhs child end
  else if (child_idx + 1 <? length parent)%nat then
    r ← read_child parent (child_idx + 1);
    match r with None => mret (false, parent) | Some rhs => merge_into_right parent child_idx child rhs end
  else mret (true, parent).

(** Its middle part: borrow from the right sibling. *)
Definition right_step (parent : list BTreeEntry) (child_idx : nat) (child : BTreeNode)
    : M (bool * list BTreeEntry) :=
  if (child_idx + 1 <? length parent)%nat then
    r ← read_child parent (child_idx + 1);
    match r with
    | None => mret (false, parent)
    | Some rhs =>
        if negb (node_underfull (entries rhs)) then borrow_right parent child_idx child rhs
        else merge_step parent child_idx child
    end
  else merge_step parent child_idx child.

Definition try_borrow_or_merge (parent : list BTreeEntry) (child_idx : nat) : M (bool * list BTreeEntry) :=
  if (length parent =? 0)%nat then mret (false, parent)
  else
    c ← read_child parent child_idx;
    match c with
    | None => mret (false, parent)
    | Some child =>
        if negb (node_underfull (entries child)) then mret (true, parent)
        else if (0 <? child_idx)%nat then
          l ← read_child parent (child_idx - 1);
          match l with
          | None => mret (false, parent)
          | Some lhs =>
              if negb (node_underfull (entries lhs)) then borrow_left parent child_idx lhs child
              else right_step parent child_idx child
          end
        else right_step parent child_idx child
    end.

(** The result is the new address, or [None] for a node that became empty. *)
Fixpoint del (fuel : nat) (node_lba : Z) (key : str) : M (option Z) :=
  match fuel with
  | O => λ _, None
  | S f =>
      node ← readM node_lba;
      _ ← pushM node_lba;
      let es := entries node in
      if is_leaf node then
        let new := match find_pos es key with Ok pos => delete pos es | Err _ => es end in
        if (length new =? 0)%nat then mret None
        else lba ← writeM (node_type node) new; mret (Some lba)
      else
        let child_idx := child_index es key in
        e ← orpanic (es !! child_idx);
        child_lba ← question (u64_from_value e.2);
        new_child ← del f child_lba key;
        match new_child with
        | None =>
            let new := delete child_idx es in
            if (length new =? 0)%nat then mret None
            else lba ← writeM (node_type node) new; mret (Some lba)
        | Some lba =>
            let new := set_child es child_idx lba in
            c ← peekM lba;
            '(_, new) ← (match c with
                         | Some child_node =>
                             if node_underfull (entries child_node) then try_borrow_or_merge new child_idx
                             else mret (true, new)
                         | None => mret (true, new)
                         end);
            lba ← writeM (node_type node) new; mret (Some lba)
        end
  end.

(** An internal root with one child is replaced by the child: the end of
    [delete_tracked]. *)
Definition collapse_root (r : option Z) : M (option Z) :=
  match r with
  | None => mret None
  | Some lba =>
      c ← peekM lba;
      match c with
      | Some (mkNode Internal [e]) =>
          match u64_from_value e.2 with
          | Some child_lba => _ ← pushM lba; mret (Some child_lba)
          | None => mret (Some lba)
          end
      | _ => mret (Some lba)
      end
  end.

Definition delete_tracked (fuel : nat) (root_lba : Z) (key : str) : M (option Z) :=
  if root_lba =? 0 then mret None
  else r ← del fuel root_lba key; collapse_root r.

(** [insert] and [delete]: the garbage list is dropped. *)
Definition untracked {A} (c : M A) (s : St) : option (option A * St) :=
  '(r, (s', _)) ← c (s, []); Some (r, s').

Definition btree_insert (fuel : nat) (root_lba : Z) (key value : str) (s : St) : option (option Z * St) :=
  untracked (insert_tracked fuel root_lba key value) s.
Definition btree_delete (fuel : nat) (root_lba : Z) (key : str) (s : St) : option (option (option Z) * St) :=
  untracked (delete_tracked fuel root_lba key) s.

End tree.
