(* ===== verification/NeoForest.v ===== *)
(** * NeoForest.v: well-formed B-trees

    [tree m d lo hi l kvs ls] says that the nodes of the store [m] reachable from
    address [l] are a B-tree of depth [d] whose leaves hold [kvs] in ascending
    order within the key range [lo, hi), at the addresses [ls] in the order in
    which [walk_lbas] visits them.  [forest] is the same for the entries of an
    internal node.  The lemmas split a forest at the entry a search descends into,
    and put it together again. *)

From stdpp Require Import gmap.
From S2P Require Import Prelude Str BTreeMap Bytes BNode NeoTree.
Open Scope Z_scope.

#[global] Arguments key_lt : simpl never.

Abbreviation bound := (option str).

(** [lo <= k], [lo < k] and [k < hi]. *)
Definition above (lo : bound) (k : str) : Prop := match lo with None => True | Some b => key_lt k b = false end.
Definition sabove (lo : bound) (k : str) : Prop := match lo with None => True | Some b => key_lt b k = true end.
Definition below (hi : bound) (k : str) : Prop := match hi with None => True | Some b => key_lt k b = true end.
Definition inb (lo hi : bound) (k : str) : Prop := above lo k /\ below hi k.

(** Entries small enough that a node that does not fit has halves that do. *)
Definition MAX_ENTRY : nat := Z.to_nat 1362.

Record entry_ok (e : BTreeEntry) : Prop := {
  eo_bytes : entry_bytes e;
  eo_size : (entry_size e <= MAX_ENTRY)%nat;
  eo_key : (12 + length e.1 <= MAX_ENTRY)%nat;
}.

Definition sep_ok (k : str) : Prop := bytes_ok k /\ (12 + length k <= MAX_ENTRY)%nat.

Inductive forest (T : bound -> bound -> Z -> list BTreeEntry -> list Z -> Prop) :
    bound -> list BTreeEntry -> bound -> list BTreeEntry -> list Z -> Prop :=
  | forest_one lo hi k c kvs ls :
      T lo hi c kvs ls -> sep_ok k -> forest T lo [(ent k (le_bytes 8 c))] hi kvs ls
  | forest_cons lo hi k c k' v' es kvs1 kvs2 ls1 ls2 :
      T lo (Some k') c kvs1 ls1 -> sep_ok k -> key_lt k k' = true -> sabove lo k' -> below hi k' ->
      forest T (Some k') ((k', v') :: es) hi kvs2 ls2 ->
      forest T lo ((ent k (le_bytes 8 c)) :: (k', v') :: es) hi (kvs1 ++ kvs2) (ls1 ++ ls2).

(** The first key of an internal node is empty. *)
Definition head_empty (es : list BTreeEntry) : Prop :=
  exists (v : str) (es' : list BTreeEntry), es = ([], v) :: es'.

(** [strict]: the first key of every internal node is empty. *)
Fixpoint tree (strict : bool) (m : gmap Z BTreeNode) (d : nat) (lo hi : bound) (l : Z)
    (kvs : list BTreeEntry) (ls : list Z) : Prop :=
  0 < l < 2 ^ 64 /\
  match d with
  | O => m !! l = Some (mkNode Leaf kvs) /\ bt_sorted kvs /\ Forall (inb lo hi) kvs.*1 /\
      Forall entry_ok kvs /\ node_fits kvs = true /\ ls = [l]
  | S d => exists es lss, m !! l = Some (mkNode Internal es) /\ node_fits es = true /\
      (strict = true -> head_empty es) /\
      forest (tree strict m d) lo es hi kvs lss /\ ls = l :: lss
  end.

(** ** Keys *)

Lemma key_lt_asym {K} `{KeyOrder K} (a b : K) : key_lt a b = true -> key_lt b a = false.
Proof.
  intros E. destruct (key_lt b a) eqn:E2; [|done].
  pose proof (key_lt_trans _ _ _ E E2) as E3. by rewrite key_lt_irrefl in E3.
Qed.

Lemma key_le_lt_trans {K} `{KeyOrder K} (a b c : K) : key_lt b a = false -> key_lt b c = true -> key_lt a c = true.
Proof.
  intros E1 E2. destruct (key_lt_total a b) as [->|[?|?]]; [done| |congruence]. by eapply key_lt_trans.
Qed.

Lemma key_lt_le_trans {K} `{KeyOrder K} (a b c : K) : key_lt a b = true -> key_lt c b = false -> key_lt a c = true.
Proof.
  intros E1 E2. destruct (key_lt_total b c) as [<-|[?|?]]; [done| |congruence]. by eapply key_lt_trans.
Qed.

Lemma key_le_trans {K} `{KeyOrder K} (a b c : K) : key_lt b a = false -> key_lt c b = false -> key_lt c a = false.
Proof.
  intros E1 E2. destruct (key_lt c a) eqn:E; [|done].
  destruct (key_lt_total b c) as [<-|[E3|?]]; [congruence| |congruence].
  pose proof (key_lt_trans _ _ _ E3 E). congruence.
Qed.

Lemma sabove_above lo k : sabove lo k -> above lo k.
Proof. destruct lo; simpl; [apply key_lt_asym|done]. Qed.

Lemma sabove_above_trans lo k k' : sabove lo k -> key_lt k' k = false -> sabove lo k'.
Proof. destruct lo; simpl; [|done]. intros. by eapply key_lt_le_trans. Qed.

Lemma above_le_trans lo k k' : above lo k -> key_lt k' k = false -> above lo k'.
Proof. destruct lo; simpl; [|done]. intros. by eapply key_le_trans. Qed.

Lemma below_lt_trans hi k k' : below hi k -> key_lt k' k = true -> below hi k'.
Proof. destruct hi; simpl; [|done]. intros. by eapply key_lt_trans. Qed.

Lemma sabove_lt_trans lo k k' : above lo k -> key_lt k k' = true -> sabove lo k'.
Proof. destruct lo; simpl; [|done]. intros. by eapply key_le_lt_trans. Qed.

Lemma nil_lt k : k ≠ [] -> key_lt [] k = true.
Proof. by destruct k. Qed.

Lemma lt_not_nil k k' : key_lt k k' = true -> k' ≠ [].
Proof. intros E ->. by destruct k. Qed.

(** ** Sorted lists in three parts *)

Lemma bt_sorted_app (a b : list BTreeEntry) :
  bt_sorted a -> bt_sorted b -> (forall x y, x ∈ a.*1 -> y ∈ b.*1 -> key_lt x y = true) -> bt_sorted (a ++ b).
Proof.
  unfold bt_sorted. rewrite fmap_app. generalize (a.*1) (b.*1). clear a b. intros a b Ha Hb Hab.
  induction Ha as [|x a Ha IH Hx]; simpl; [done|]. constructor.
  - apply IH. intros. apply Hab; [by right|done].
  - apply Forall_app. split; [done|]. apply Forall_forall. intros y Hy. apply Hab; [by left|done].
Qed.

Lemma bt_sorted_app_inv (a b : list BTreeEntry) :
  bt_sorted (a ++ b) -> bt_sorted a /\ bt_sorted b /\ forall x y, x ∈ a.*1 -> y ∈ b.*1 -> key_lt x y = true.
Proof.
  unfold bt_sorted. rewrite fmap_app. generalize (a.*1) (b.*1). clear a b. intros a b.
  induction a as [|x a IH]; simpl; intros Hs.
  { split; [constructor|]. split; [done|]. by intros x y ?%not_elem_of_nil. }
  inversion Hs as [|? ? Hs' Hall]; subst. apply IH in Hs' as (Ha & Hb & Hab). apply Forall_app in Hall as [Hx1 Hx2].
  split; [by constructor|]. split; [done|]. intros u v [->|Hu]%elem_of_cons Hv; [|auto].
  by eapply (proj1 (Forall_forall _ _) Hx2).
Qed.

Lemma bt_insert_app (a b : list BTreeEntry) k v :
  (forall x, x ∈ a.*1 -> key_lt x k = true) -> bt_insert (a ++ b) k v = a ++ bt_insert b k v.
Proof.
  induction a as [|[k' v'] a IH]; intros Ha; [done|]. simpl.
  pose proof (Ha k' ltac:(by left)) as E. rewrite (key_lt_asym _ _ E).
  rewrite decide_False by (intros ->; by rewrite key_lt_irrefl in E). f_equal. apply IH. intros. apply Ha. by right.
Qed.

Lemma bt_insert_app_l (a b : list BTreeEntry) k v :
  (forall x, x ∈ b.*1 -> key_lt k x = true) -> bt_insert (a ++ b) k v = bt_insert a k v ++ b.
Proof.
  intros Hb. induction a as [|[k' v'] a IH]; simpl.
  - destruct b as [|[k' v'] b]; [done|]. simpl. by rewrite (Hb k') by (by left).
  - case_if; [done|]. case_decide; [done|]. by rewrite IH.
Qed.

Lemma bt_remove_app (a b : list BTreeEntry) k : bt_remove (a ++ b) k = bt_remove a k ++ bt_remove b k.
Proof. induction a as [|[k' v'] a IH]; [done|]. simpl. case_decide; [done|]. simpl. by rewrite IH. Qed.

Lemma bt_get_app (a b : list BTreeEntry) k :
  (forall x, x ∈ a.*1 -> x ≠ k) -> bt_get (a ++ b) k = bt_get b k.
Proof.
  induction a as [|[k' v'] a IH]; intros Ha; [done|]. simpl.
  rewrite decide_False by (intros ->; by apply (Ha k'); [left|]). apply IH. intros. apply Ha. by right.
Qed.

Lemma bt_get_app_l (a b : list BTreeEntry) k :
  (forall x, x ∈ b.*1 -> x ≠ k) -> bt_get (a ++ b) k = bt_get a k.
Proof.
  intros Hb. induction a as [|[k' v'] a IH]; simpl; [|by rewrite IH].
  destruct (bt_get b k) as [v|] eqn:E; [|done]. apply bt_get_elem in E.
  exfalso. apply (Hb k); [|done]. apply list_elem_of_fmap. by exists (k, v).
Qed.

Lemma bt_get_not_in (a : list BTreeEntry) k : (forall x, x ∈ a.*1 -> x ≠ k) -> bt_get a k = None.
Proof. intros Ha. rewrite <-(app_nil_r a), bt_get_app by done. done. Qed.

Lemma key_lt_ne (a b : str) : key_lt a b = true -> a ≠ b.
Proof. intros E ->. by rewrite key_lt_irrefl in E. Qed.

(** ** The child of a search *)

Lemma child_index_spec es k :
  bt_sorted es -> es ≠ [] ->
  let i := child_index es k in
  (i < length es)%nat /\ (i = 0%nat \/ exists e, es !! i = Some e /\ key_lt k e.1 = false) /\
  forall j e, es !! j = Some e -> (i < j)%nat -> key_lt k e.1 = true.
Proof.
  intros Hs Hne. assert (0 < length es)%nat by (destruct es; [done|simpl; lia]).
  pose proof (find_pos_spec es k Hs) as Hf. unfold child_index.
  destruct (find_pos es k) as [i|[|i]]; simpl.
  - destruct Hf as [v Hv]. split; [by eapply lookup_lt_Some|]. split.
    + right. exists (k, v). split; [done|]. apply key_lt_irrefl.
    + intros j e Hj Hlt. by apply (sorted_keys_lt es i j (k, v) e).
  - destruct Hf as (_ & _ & Hhi). split; [done|]. split; [by left|]. intros j e Hj ?. apply (Hhi j e Hj). lia.
  - destruct Hf as (Hle & Hlo & Hhi). rewrite Nat.sub_0_r. split; [lia|]. split.
    + right. destruct (lookup_lt_is_Some_2 es i) as [e He]; [lia|]. exists e. split; [done|].
      apply key_lt_asym. apply (Hlo i e He). lia.
    + intros j e Hj ?. apply (Hhi j e Hj). lia.
Qed.

(** ** Forests *)

Section forest.
Context (T : bound -> bound -> Z -> list BTreeEntry -> list Z -> Prop).

Lemma forest_cons_inv lo es hi kvs ls : forest T lo es hi kvs ls -> exists e es', es = e :: es'.
Proof. destruct 1; eauto. Qed.

Lemma forest_mono (T' : bound -> bound -> Z -> list BTreeEntry -> list Z -> Prop) lo es hi kvs ls :
  (forall lo hi c kvs ls, T lo hi c kvs ls -> T' lo hi c kvs ls) ->
  forest T lo es hi kvs ls -> forest T' lo es hi kvs ls.
Proof. intros HT. induction 1; econstructor; eauto. Qed.

Lemma forest_seps lo e es hi kvs ls :
  forest T lo (e :: es) hi kvs ls ->
  Forall (λ x, sabove lo x.1 /\ below hi x.1 /\ key_lt e.1 x.1 = true) es /\ bt_sorted (e :: es).
Proof.
  remember (e :: es) as l eqn:El. intros Hf. revert e es El.
  induction Hf as [|lo hi k c k' v' es' kvs1 kvs2 ls1 ls2 HT Hk Hlt Hlo Hhi Hf IH]; intros e es [= <- <-].
  { split; [constructor|]. repeat constructor. }
  destruct (IH _ _ eq_refl) as [Hall Hs]. assert (Forall (λ x : BTreeEntry, key_lt k x.1 = true) es') as Hk'.
  { eapply Forall_impl; [exact Hall|]. intros x (? & ? & ?). by eapply key_lt_trans. }
  split.
  - constructor; [done|]. apply Forall_forall. intros x Hx.
    rewrite Forall_forall in Hall, Hk'. destruct (Hall x Hx) as (Hx1 & Hx2 & _). split; [|auto].
    simpl in Hx1. eapply sabove_above_trans; [exact Hlo|]. by apply key_lt_asym.
  - unfold bt_sorted in *. cbn [fmap list_fmap fst] in *. constructor; [done|]. constructor; [done|].
    by apply Forall_fmap.
Qed.

Lemma forest_sorted_keys lo es hi kvs ls : forest T lo es hi kvs ls -> bt_sorted es.
Proof. intros Hf. destruct (forest_cons_inv _ _ _ _ _ Hf) as (e & es' & ->). by eapply forest_seps. Qed.

Lemma forest_entries lo es hi kvs ls :
  forest T lo es hi kvs ls -> Forall (λ e, sep_ok e.1 /\ exists c, e.2 = le_bytes 8 c) es.
Proof. induction 1; constructor; simpl; eauto. Qed.

Lemma forest_rekey lo k v es hi kvs ls k2 :
  forest T lo ((k, v) :: es) hi kvs ls -> sep_ok k2 -> Forall (λ x, key_lt k2 x.1 = true) es ->
  forest T lo ((k2, v) :: es) hi kvs ls.
Proof.
  intros Hf Hk2 Hall. inversion Hf; subst; econstructor; eauto. by inversion Hall.
Qed.

(** The children, in the order of their keys. *)
Lemma forest_bounded lo es hi kvs ls :
  (forall lo hi c kvs ls, T lo hi c kvs ls -> bt_sorted kvs /\ Forall (inb lo hi) kvs.*1) ->
  forest T lo es hi kvs ls -> bt_sorted kvs /\ Forall (inb lo hi) kvs.*1.
Proof.
  intros HT. induction 1 as [|lo hi k c k' v' es' kvs1 kvs2 ls1 ls2 H1 Hk Hlt Hlo Hhi Hf IH]; [eauto|].
  destruct (HT _ _ _ _ _ H1) as [Hs1 Hb1]. destruct IH as [Hs2 Hb2].
  rewrite Forall_forall in Hb1, Hb2. split.
  - apply bt_sorted_app; [done..|]. intros x y Hx%Hb1 Hy%Hb2. destruct Hx as [_ Hx], Hy as [Hy _].
    simpl in *. by eapply key_lt_le_trans.
  - rewrite fmap_app. apply Forall_app. split; apply Forall_forall; intros x Hx.
    + destruct (Hb1 x Hx) as [? Hx2]. split; [done|]. simpl in Hx2. by eapply below_lt_trans.
    + destruct (Hb2 x Hx) as [Hx1 ?]. split; [|done]. simpl in Hx1.
      eapply above_le_trans; [by apply sabove_above|done].
Qed.

(** Two forests side by side. *)
Lemma forest_app lo es1 k' v' es2 hi kvs1 kvs2 ls1 ls2 :
  forest T lo es1 (Some k') kvs1 ls1 -> forest T (Some k') ((k', v') :: es2) hi kvs2 ls2 ->
  sabove lo k' -> below hi k' -> (forall e, head es1 = Some e -> key_lt e.1 k' = true) ->
  forest T lo (es1 ++ (k', v') :: es2) hi (kvs1 ++ kvs2) (ls1 ++ ls2).
Proof.
  remember (Some k') as mid eqn:Em. intros Hf1 Hf2 Hlo Hhi.
  induction Hf1 as [|lo mid' k c k1 v1 es kvsa kvsb lsa lsb H1 Hk Hlt Hlo1 Hhi1 Hf IH]; subst; intros Hh.
  - apply forest_cons; [done..| |done|done|done]. by apply (Hh (ent k (le_bytes 8 c))).
  - rewrite <-!app_assoc. simpl. simpl in Hhi1. apply forest_cons; [done..| |].
    + by eapply below_lt_trans.
    + apply IH; [done..|]. by intros e [= <-].
Qed.

Lemma forest_split es1 lo k' v' es2 hi kvs ls :
  es1 ≠ [] -> forest T lo (es1 ++ (k', v') :: es2) hi kvs ls ->
  exists kvs1 kvs2 ls1 ls2, forest T lo es1 (Some k') kvs1 ls1 /\ forest T (Some k') ((k', v') :: es2) hi kvs2 ls2 /\
    kvs = kvs1 ++ kvs2 /\ ls = ls1 ++ ls2 /\ sabove lo k' /\ below hi k'.
Proof.
  revert lo kvs ls. induction es1 as [|e es1 IH]; intros lo kvs ls Hne Hf; [done|]. destruct es1 as [|e1 es1].
  - simpl in Hf. inversion Hf; subst. eexists _, _, _, _. split; [by constructor|]. eauto 10.
  - simpl in Hf. pose proof (forest_seps _ _ _ _ _ _ Hf) as [Hall _].
    inversion Hf as [|? ? k c k1 v1 ? kvsa kvsb lsa lsb H1 Hk Hlt Hlo Hhi Hf2]; subst.
    destruct (IH (Some k1) kvsb lsb) as (kvs1 & kvs2 & ls1 & ls2 & Hfa & Hfb & -> & -> & Hs & Hb); [done|exact Hf2|].
    exists (kvsa ++ kvs1), kvs2, (lsa ++ ls1), ls2. rewrite <-!app_assoc. split; [|split; [done|]].
    + apply forest_cons; try done. 
    + split; [done|]. split; [done|]. split; [|done]. eapply sabove_lt_trans; [by apply sabove_above|done].
Qed.

End forest.

(** ** Segments of a forest *)

Definition head_key (es : list BTreeEntry) : option str := fst <$> head es.

(** The entries before a segment that starts at the bound [lo'] with the key
    [k0], and those after a segment that ends at the bound [hi']. *)
Definition seg_before (T : bound -> bound -> Z -> list BTreeEntry -> list Z -> Prop) (lo : bound) (pre : list BTreeEntry)
    (lo' : bound) (k0 : str) (hi : bound) (A : list BTreeEntry) (lA : list Z) : Prop :=
  (pre = [] /\ lo' = lo /\ A = [] /\ lA = []) \/
  (lo' = Some k0 /\ forest T lo pre (Some k0) A lA /\ sabove lo k0 /\ below hi k0 /\
    exists e pre', pre = e :: pre' /\ key_lt e.1 k0 = true).

Definition seg_after (T : bound -> bound -> Z -> list BTreeEntry -> list Z -> Prop) (lo' : bound) (k0 : str)
    (hi' : bound) (post : list BTreeEntry) (hi : bound) (C : list BTreeEntry) (lC : list Z) : Prop :=
  (post = [] /\ hi' = hi /\ C = [] /\ lC = []) \/
  (exists k v post', post = (k, v) :: post' /\ hi' = Some k /\ forest T (Some k) post hi C lC /\
    sabove lo' k /\ below hi k /\ key_lt k0 k = true).

(** A larger range. *)
Definition lo_le (lo2 lo : bound) : Prop :=
  match lo2, lo with None, _ => True | Some b, Some a => key_lt a b = false | Some _, None => False end.
Definition hi_le (hi hi2 : bound) : Prop :=
  match hi2, hi with None, _ => True | Some b, Some a => key_lt b a = false | Some _, None => False end.

Lemma lo_le_above lo2 lo k : lo_le lo2 lo -> above lo k -> above lo2 k.
Proof. destruct lo2, lo; simpl; try done. intros. by eapply key_le_trans. Qed.
Lemma lo_le_sabove lo2 lo k : lo_le lo2 lo -> sabove lo k -> sabove lo2 k.
Proof. destruct lo2, lo; simpl; try done. intros. by eapply key_le_lt_trans. Qed.
Lemma hi_le_below hi hi2 k : hi_le hi hi2 -> below hi k -> below hi2 k.
Proof. destruct hi2, hi; simpl; try done. intros. by eapply key_lt_le_trans. Qed.
Lemma lo_le_refl lo : lo_le lo lo.
Proof. destruct lo; simpl; [apply key_lt_irrefl|done]. Qed.
Lemma hi_le_refl hi : hi_le hi hi.
Proof. destruct hi; simpl; [apply key_lt_irrefl|done]. Qed.
Lemma sabove_lo_le lo k : sabove lo k -> lo_le lo (Some k).
Proof. destruct lo; simpl; [apply key_lt_asym|done]. Qed.
Lemma below_hi_le hi k : below hi k -> hi_le (Some k) hi.
Proof. destruct hi; simpl; [apply key_lt_asym|done]. Qed.

Section segments.
Context (T : bound -> bound -> Z -> list BTreeEntry -> list Z -> Prop).

Lemma forest_head_lt lo e es hi kvs ls k v post :
  forest T lo ((e :: es) ++ (k, v) :: post) hi kvs ls -> key_lt e.1 k = true.
Proof.
  intros Hf. simpl in Hf. apply forest_seps in Hf as [Hall _].
  rewrite Forall_forall in Hall. destruct (Hall (k, v)) as (_ & _ & ?); [|done].
  apply elem_of_app. right. by left.
Qed.

(** A segment and what surrounds it. *)
Lemma forest_seg lo pre k0 v0 mid post hi kvs ls :
  forest T lo (pre ++ ((k0, v0) :: mid) ++ post) hi kvs ls ->
  exists lo' hi' A M C lA lM lC, kvs = A ++ M ++ C /\ ls = lA ++ lM ++ lC /\
    forest T lo' ((k0, v0) :: mid) hi' M lM /\ seg_before T lo pre lo' k0 hi A lA /\ seg_after T lo' k0 hi' post hi C lC.
Proof.
  intros Hf. assert (exists lo' A N lA lN, kvs = A ++ N /\ ls = lA ++ lN /\
    forest T lo' (((k0, v0) :: mid) ++ post) hi N lN /\
    seg_before T lo pre lo' k0 hi A lA) as (lo' & A & N & lA & lN & -> & -> & Hfn & Hb).
  { destruct pre as [|e pre].
    - exists lo, [], kvs, [], ls. split_and!; try done. by left.
    - pose proof (forest_head_lt _ _ _ _ _ _ _ _ _ Hf) as Hk.
      destruct (forest_split T (e :: pre) lo k0 v0 (mid ++ post) hi kvs ls)
        as (A & N & lA & lN & Hfa & Hfn & -> & -> & Hs & Hb); [done..|].
      exists (Some k0), A, N, lA, lN. split_and!; try done. right. split_and!; try done. by exists e, pre. }
  destruct post as [|[k v] post].
  - rewrite app_nil_r in Hfn. exists lo', hi, A, N, [], lA, lN, []. rewrite !app_nil_r.
    split_and!; try done. by left.
  - pose proof (forest_head_lt _ _ _ _ _ _ _ _ _ Hfn) as Hk.
    destruct (forest_split T ((k0, v0) :: mid) lo' k v post hi N lN)
      as (M & C & lM & lC & Hfm & Hfc & -> & -> & Hs & Hbb); [done..|].
    exists lo', (Some k), A, M, C, lA, lM, lC. split_and!; try done. right. exists k, v, post. by split_and!.
Qed.

(** Putting another segment with the same bounds and first key in its place. *)
Lemma forest_refill (T' : bound -> bound -> Z -> list BTreeEntry -> list Z -> Prop) lo pre lo' k0 v' mid' hi' post hi A C lA lC M' lM' :
  (forall lo hi c kvs ls, T lo hi c kvs ls -> T' lo hi c kvs ls) ->
  seg_before T lo pre lo' k0 hi A lA -> seg_after T lo' k0 hi' post hi C lC ->
  forest T' lo' ((k0, v') :: mid') hi' M' lM' ->
  forest T' lo (pre ++ ((k0, v') :: mid') ++ post) hi (A ++ M' ++ C) (lA ++ lM' ++ lC).
Proof.
  intros HT Hb Ha Hf. assert (forest T' lo' (((k0, v') :: mid') ++ post) hi (M' ++ C) (lM' ++ lC)) as Hf2.
  { destruct Ha as [(-> & -> & -> & ->)|(k & v & post' & -> & -> & Hfc & Hs & Hbe & Hk)].
    - by rewrite !app_nil_r.
    - apply forest_app; [done|by eapply forest_mono|done..|]. by intros e [= <-]. }
  destruct Hb as [(-> & -> & -> & ->)|(-> & Hfa & Hs & Hbe & e & pre' & -> & Hk)]; [done|].
  apply (forest_app _ _ (e :: pre')); [by eapply forest_mono|done..|]. by intros e' [= <-].
Qed.

Definition widenable : Prop := forall lo hi lo2 hi2 c kvs ls,
  T lo hi c kvs ls -> lo_le lo2 lo -> hi_le hi hi2 -> T lo2 hi2 c kvs ls.

Lemma forest_widen lo es hi kvs ls lo2 hi2 :
  widenable -> forest T lo es hi kvs ls -> lo_le lo2 lo -> hi_le hi hi2 -> forest T lo2 es hi2 kvs ls.
Proof.
  intros HW Hf. revert lo2. induction Hf; intros lo2 Hlo Hhi.
  - constructor; [|done]. by eapply HW.
  - apply forest_cons; [|done..| | |].
    + eapply HW; [done..|apply hi_le_refl].
    + by eapply lo_le_sabove.
    + by eapply hi_le_below.
    + apply IHHf; [apply lo_le_refl|done].
Qed.

(** Leaving the segment out: a neighbour takes over its range. *)
Lemma forest_erase lo pre lo' k0 hi' post hi A C lA lC :
  widenable -> seg_before T lo pre lo' k0 hi A lA -> seg_after T lo' k0 hi' post hi C lC -> pre ++ post ≠ [] ->
  forest T lo (pre ++ post) hi (A ++ C) (lA ++ lC).
Proof.
  intros HW Hb Ha Hne.
  destruct Hb as [(-> & -> & -> & ->)|(-> & Hfa & Hs & Hbe & e & pre' & -> & Hk)];
    destruct Ha as [(-> & -> & -> & ->)|(k & v & post' & -> & -> & Hfc & Hs2 & Hbe2 & Hk2)]; [done|..].
  - eapply forest_widen; [done..|by apply sabove_lo_le|apply hi_le_refl].
  - rewrite !app_nil_r. eapply forest_widen; [done..|apply lo_le_refl|by apply below_hi_le].
  - apply (forest_app _ _ (e :: pre')); [|done|..].
    + eapply forest_widen; [done..|apply lo_le_refl|by apply below_hi_le].
    + eapply sabove_lt_trans; [by apply sabove_above|done].
    + done.
    + intros e' [= <-]. by eapply key_lt_trans.
Qed.

(** Descending: the subtree a search for [k] enters. *)
Lemma forest_focus lo es hi kvs ls k i :
  (forall lo hi c kvs ls, T lo hi c kvs ls -> bt_sorted kvs /\ Forall (inb lo hi) kvs.*1) ->
  forest T lo es hi kvs ls -> inb lo hi k -> (i < length es)%nat ->
  (i = 0%nat \/ exists e, es !! i = Some e /\ key_lt k e.1 = false) ->
  (forall j e, es !! j = Some e -> (i < j)%nat -> key_lt k e.1 = true) ->
  exists ki c lo' hi' A B C lA lB lC,
    es !! i = Some (ent ki (le_bytes 8 c)) /\ T lo' hi' c B lB /\ kvs = A ++ B ++ C /\ ls = lA ++ lB ++ lC /\
    inb lo' hi' k /\ (forall x, x ∈ A.*1 -> key_lt x k = true) /\ (forall x, x ∈ C.*1 -> key_lt k x = true) /\
    sep_ok ki /\ seg_before T lo (take i es) lo' ki hi A lA /\ seg_after T lo' ki hi' (drop (S i) es) hi C lC.
Proof.
  intros HT Hf [Hka Hkb] Hi Hle Hgt. destruct (lookup_lt_is_Some_2 es i Hi) as [[ki vi] Hes].
  pose proof (Forall_lookup_1 _ _ _ _ (forest_entries _ _ _ _ _ _ Hf) Hes) as [Hsep [c0 Hv]].
  rewrite <-(take_drop_middle es i _ Hes) in Hf.
  destruct (forest_seg lo (take i es) ki vi [] (drop (S i) es) hi kvs ls)
    as (lo' & hi' & A & B & C & lA & lB & lC & -> & -> & HfB & Hbef & Haft); [done|].
  inversion HfB as [? ? ? c ? ? HB|]; subst. exists ki, c, lo', hi', A, B, C, lA, lB, lC.
  assert (above lo' k) as Hka'.
  { destruct Hbef as [(_ & -> & _)|(-> & _ & _ & _ & e & pre' & Hpre & _)]; [done|]. simpl.
    destruct Hle as [->|(e' & He' & Hle)]; [done|]. rewrite Hes in He'. by injection He' as <-. }
  assert (below hi' k) as Hkb'.
  { destruct Haft as [(_ & -> & _)|(k2 & v2 & post' & Hpost & -> & _)]; [done|]. simpl.
    apply (Hgt (S i) (k2, v2)); [|lia]. by rewrite <-(Nat.add_0_r (S i)), <-lookup_drop, Hpost. }
  split_and!; try done.
  - intros x Hx. destruct Hbef as [(_ & _ & -> & _)|(-> & HfA & _ & _ & e & pre' & Hpre & _)]; [by apply not_elem_of_nil in Hx|].
    destruct (forest_bounded T _ _ _ _ _ HT HfA) as [_ Hb]. rewrite Forall_forall in Hb. destruct (Hb x Hx) as [_ Hx1].
    simpl in Hx1. destruct Hle as [->|(e' & He' & Hle)]; [done|]. rewrite Hes in He'. injection He' as <-.
    by eapply key_lt_le_trans.
  - intros x Hx. destruct Haft as [(_ & _ & -> & _)|(k2 & v2 & post' & Hpost & -> & HfC & _)]; [by apply not_elem_of_nil in Hx|].
    destruct (forest_bounded T _ _ _ _ _ HT HfC) as [_ Hb]. rewrite Forall_forall in Hb. destruct (Hb x Hx) as [Hx1 _].
    simpl in Hx1. eapply key_lt_le_trans; [|done].
    apply (Hgt (S i) (k2, v2)); [|lia]. by rewrite <-(Nat.add_0_r (S i)), <-lookup_drop, Hpost.
Qed.

End segments.
