(* ===== verification/NeoInsert.v ===== *)
(** * NeoInsert.v: searching, walking and inserting

    The searches and walks of the B-tree against the contents of a well-formed
    tree, and insertion as a refinement of [bt_insert] on those contents.  [runs]
    is total correctness of the monad of [NeoTree]. *)

From stdpp Require Import gmap.
From S2P Require Import Prelude Str BTreeMap Bytes BNode NeoTree NeoForest.
Open Scope Z_scope.

Lemma is_leaf_Leaf es : is_leaf (mkNode Leaf es) = true.
Proof. done. Qed.
Lemma is_leaf_Internal es : is_leaf (mkNode Internal es) = false.
Proof. done. Qed.

(** ** Splitting by bytes *)

Lemma take_S_size (es : list BTreeEntry) j e :
  es !! j = Some e -> entries_size (take (S j) es) = (entries_size (take j es) + entry_size e)%nat.
Proof. intros Hj. rewrite (take_S_r _ _ _ Hj), entries_size_app, entries_size_cons. cbn. lia. Qed.

Lemma take_drop_size (es : list BTreeEntry) j :
  entries_size es = (entries_size (take j es) + entries_size (drop j es))%nat.
Proof. by rewrite <-entries_size_app, take_drop. Qed.

Lemma split_scan_spec pre es total :
  total = entries_size (pre ++ es) -> (entries_size pre * 2 < total)%nat ->
  exists j, split_scan (length pre) (entries_size pre) total (length (pre ++ es)) es =
      clamp (j + 1) 1 (length (pre ++ es) - 1) /\
    (j < length (pre ++ es))%nat /\ (entries_size (take j (pre ++ es)) * 2 < total)%nat /\
    (total <= entries_size (take (S j) (pre ++ es)) * 2)%nat.
Proof.
  revert pre. induction es as [|e es IH]; intros pre Ht Hlt.
  { rewrite app_nil_r in Ht. lia. }
  cbn [split_scan]. destruct (Nat.leb_spec total ((entries_size pre + entry_size e) * 2)) as [Hle|Hgt].
  - exists (length pre). split; [done|]. split; [rewrite length_app; simpl; lia|].
    rewrite take_app_length. split; [done|].
    rewrite (take_S_size _ _ e) by (by rewrite list_lookup_middle). by rewrite take_app_length.
  - destruct (IH (pre ++ [e])) as (j & Hj & Hrest).
    + by rewrite <-app_assoc.
    + rewrite entries_size_app, entries_size_cons. change (entries_size []) with 0%nat. lia.
    + exists j. rewrite <-app_assoc in Hj, Hrest. split; [|done]. simpl in Hj. rewrite <-Hj.
      rewrite length_app, entries_size_app, entries_size_cons. change (entries_size []) with 0%nat.
      rewrite Nat.add_0_r. f_equal. rewrite length_app. simpl. lia.
Qed.

Definition small (es : list BTreeEntry) : Prop := Forall (λ e, entry_size e <= MAX_ENTRY)%nat es.

(** An overfull node with small entries has two halves that fit. *)
Lemma split_index_fits es :
  small es -> node_fits es = false -> (HEADER_SIZE + entries_size es <= NODE_SIZE + MAX_ENTRY)%nat ->
  (1 <= split_index es < length es)%nat /\
  node_fits (take (split_index es) es) = true /\ node_fits (drop (split_index es) es) = true.
Proof.
  intros Hs Hf Hsz. unfold node_fits in *. rewrite !Nat.leb_le, Nat.leb_gt in *.
  assert (Z.of_nat NODE_SIZE = 4096) by done. assert (Z.of_nat MAX_ENTRY = 1362) by done. unfold HEADER_SIZE in *.
  assert (2 <= length es)%nat as Hn.
  { destruct es as [|e [|e2 es]]; [cbn in Hf; lia| |simpl; lia].
    inversion Hs; subst. rewrite entries_size_cons in Hf. change (entries_size []) with 0%nat in Hf. lia. }
  unfold split_index. destruct (Nat.ltb_spec (length es) 2); [lia|].
  destruct (split_scan_spec [] es (entries_size es) eq_refl) as (j & Hj & Hjl & Hlo & Hhi); [cbn; lia|].
  simpl in Hj, Hjl, Hlo, Hhi. change (entries_size []) with 0%nat in Hj. rewrite Hj.
  destruct (lookup_lt_is_Some_2 es j Hjl) as [e He].
  assert (entry_size e <= MAX_ENTRY)%nat by (by eapply (Forall_lookup_1 _ _ _ _ Hs)).
  pose proof (take_S_size es j e He). pose proof (take_drop_size es j). pose proof (take_drop_size es (S j)).
  destruct (decide (S j < length es)%nat).
  - replace (clamp (j + 1) 1 (length es - 1)) with (S j) by (unfold clamp; lia). lia.
  - assert (length es = S j) as Hlen by lia.
    replace (clamp (j + 1) 1 (length es - 1)) with j by (unfold clamp; lia).
    rewrite (drop_ge es (S j)) in * by lia. change (entries_size []) with 0%nat in *. lia.
Qed.

(** ** Trees *)

Lemma tree_addr strict m d lo hi l kvs ls : tree strict m d lo hi l kvs ls -> 0 < l < 2 ^ 64.
Proof. destruct d; simpl; tauto. Qed.

Lemma tree_leaf strict (m : gmap Z BTreeNode) lo hi l kvs :
  0 < l < 2 ^ 64 -> m !! l = Some (mkNode Leaf kvs) -> bt_sorted kvs -> Forall (inb lo hi) kvs.*1 ->
  Forall entry_ok kvs -> node_fits kvs = true -> tree strict m 0 lo hi l kvs [l].
Proof. simpl. tauto. Qed.

Lemma tree_internal strict (m : gmap Z BTreeNode) d lo hi l es kvs lss :
  0 < l < 2 ^ 64 -> m !! l = Some (mkNode Internal es) -> node_fits es = true ->
  (strict = true -> head_empty es) -> forest (tree strict m d) lo es hi kvs lss ->
  tree strict m (S d) lo hi l kvs (l :: lss).
Proof. intros. split; [done|]. exists es, lss. done. Qed.

Lemma tree_root strict m d lo hi l kvs ls : tree strict m d lo hi l kvs ls -> exists n, m !! l = Some n.
Proof. destruct d; simpl; [intros (_ & ? & _); eauto|]. intros (_ & es & lss & ? & _). eauto. Qed.

Lemma tree_mono strict m m' d lo hi l kvs ls :
  m ⊆ m' -> tree strict m d lo hi l kvs ls -> tree strict m' d lo hi l kvs ls.
Proof.
  intros Hm. revert lo hi l kvs ls. induction d as [|d IH]; intros lo hi l kvs ls; simpl.
  - intros (? & ? & ?). split; [done|]. split; [by eapply lookup_weaken|done].
  - intros (? & es & lss & ? & ? & ? & Hf & ?). split; [done|]. exists es, lss.
    split; [by eapply lookup_weaken|]. split; [done|]. split; [done|]. split; [|done]. by eapply forest_mono.
Qed.

Lemma tree_bounded strict m d lo hi l kvs ls :
  tree strict m d lo hi l kvs ls -> bt_sorted kvs /\ Forall (inb lo hi) kvs.*1.
Proof.
  revert lo hi l kvs ls. induction d as [|d IH]; intros lo hi l kvs ls; simpl.
  - tauto.
  - intros (_ & es & lss & _ & _ & _ & Hf & _). by eapply forest_bounded.
Qed.

Lemma tree_weaken m d lo hi l kvs ls strict : tree true m d lo hi l kvs ls -> tree strict m d lo hi l kvs ls.
Proof.
  destruct strict; [done|]. revert lo hi l kvs ls. induction d as [|d IH]; intros lo hi l kvs ls; simpl; [done|].
  intros (? & es & lss & ? & ? & ? & Hf & ?). split; [done|]. exists es, lss.
  do 2 (split; [done|]). split; [done|]. split; [|done]. by eapply forest_mono.
Qed.

Lemma tree_nodes strict m d lo hi l kvs ls :
  tree strict m d lo hi l kvs ls -> Forall (λ a, is_Some (m !! a) /\ a ≠ 0) ls.
Proof.
  revert lo hi l kvs ls. induction d as [|d IH]; intros lo hi l kvs ls; simpl.
  - intros (? & Hl & _ & _ & _ & _ & ->). constructor; [|constructor]. split; [by eexists|lia].
  - intros (? & es & lss & Hl & _ & _ & Hf & ->). constructor; [split; [by eexists|lia]|]. clear Hl.
    induction Hf; [eauto|]. apply Forall_app. eauto.
Qed.

Lemma u64_le_bytes c : 0 < c < 2 ^ 64 -> u64_from_value (le_bytes 8 c) = Some c.
Proof.
  intros Hc. unfold u64_from_value. rewrite length_le_bytes. cbn.
  pose proof (get_le_app 8 [] c []) as E. cbn [app length] in E. rewrite app_nil_r in E.
  apply E. change (256 ^ Z.of_nat 8) with (2 ^ 64). lia.
Qed.

(** The subtree a search descends into. *)
Lemma tree_focus strict m d lo hi kvs es lss k :
  forest (tree strict m d) lo es hi kvs lss -> inb lo hi k ->
  let i := child_index es k in
  exists ki c lo' hi' A B C lA lB lC,
    es !! i = Some (ent ki (le_bytes 8 c)) /\ u64_from_value (le_bytes 8 c) = Some c /\
    tree strict m d lo' hi' c B lB /\ kvs = A ++ B ++ C /\ lss = lA ++ lB ++ lC /\
    inb lo' hi' k /\ (forall x, x ∈ A.*1 -> key_lt x k = true) /\ (forall x, x ∈ C.*1 -> key_lt k x = true) /\
    (i = 0%nat /\ lo' = lo \/ lo' = Some ki) /\ sep_ok ki /\
    forall m' v' es' B' lB', m ⊆ m' -> forest (tree strict m' d) lo' ((ki, v') :: es') hi' B' lB' ->
      forest (tree strict m' d) lo (take i es ++ ((ki, v') :: es') ++ drop (S i) es) hi (A ++ B' ++ C) (lA ++ lB' ++ lC).
Proof.
  intros Hf Hk i. pose proof (forest_sorted_keys _ _ _ _ _ _ Hf) as Hs.
  destruct (forest_cons_inv _ _ _ _ _ _ Hf) as (e0 & es0 & Hes).
  destruct (child_index_spec es k Hs) as (Hi & Hle & Hgt); [by rewrite Hes|].
  destruct (forest_focus (tree strict m d) lo es hi kvs lss k i)
    as (ki & c & lo' & hi' & A & B & C & lA & lB & lC & H1 & H2 & H3 & H4 & H5 & H6 & H7 & H8 & Hbef & Haft);
    eauto using tree_bounded.
  exists ki, c, lo', hi', A, B, C, lA, lB, lC. split_and!; try done.
  - apply u64_le_bytes. by eapply tree_addr.
  - destruct Hbef as [(Hpre & -> & _)|(-> & _)]; [left|by right]. split; [|done].
    destruct i; [done|]. rewrite Hes in Hpre. done.
  - intros m' v' es' B' lB' Hm Hf'. apply (forest_refill (tree strict m d) _ _ _ lo' _ _ _ hi'); try done. intros. by eapply tree_mono.
Qed.

(** ** Searching and walking *)

Section reading.
Context {St : Type} `{BTreeIOLaws St}.

Lemma lookup_loop_internal f (s : St) es k :
  lookup_loop (S f) s (mkNode Internal es) k =
    (e ← es !! child_index es k;
     match child_lba ← u64_from_value e.2; read_node s child_lba with
     | None => Some None
     | Some child => lookup_loop f s child k
     end).
Proof. done. Qed.

Lemma walk_internal f (s : St) es :
  walk_recursive (S f) s (mkNode Internal es) =
    option_map (concat (A:=BTreeEntry)) (mapM (λ e : BTreeEntry,
      match child_lba ← u64_from_value e.2; read_node s child_lba with
      | None => Some []
      | Some child => walk_recursive f s child
      end) es).
Proof. done. Qed.

Lemma walk_lbas_internal f (s : St) l es :
  l ≠ 0 -> read_node s l = Some (mkNode Internal es) ->
  walk_lbas_recursive (S f) s l =
    (ls ← mapM (λ e : BTreeEntry,
      match u64_from_value e.2 with None => Some [] | Some child => walk_lbas_recursive f s child end) es;
     Some (l :: concat (A:=Z) ls)).
Proof. intros Hl Hr. cbn [walk_lbas_recursive]. destruct (Z.eqb_spec l 0); [done|]. by rewrite Hr. Qed.

Lemma leaf_search es k :
  bt_sorted es -> match find_pos es k with Ok pos => snd <$> es !! pos | Err _ => None end = bt_get es k.
Proof.
  intros Hs. pose proof (find_pos_spec es k Hs) as Hf. destruct (find_pos es k) as [i|i].
  - destruct Hf as [v Hv]. rewrite Hv. symmetry. apply elem_bt_get; [done|]. by eapply list_elem_of_lookup_2.
  - destruct Hf as (_ & Hlo & Hhi). symmetry. apply bt_get_not_in.
    intros x (e & -> & [j Hj]%list_elem_of_lookup)%list_elem_of_fmap.
    destruct (decide (j < i)%nat); [by apply key_lt_ne, (Hlo j)|].
    intros E. apply (key_lt_ne k e.1); [apply (Hhi j e Hj); lia|done].
Qed.

Lemma middle_get (A B C : list BTreeEntry) k :
  (forall x, x ∈ A.*1 -> key_lt x k = true) -> (forall x, x ∈ C.*1 -> key_lt k x = true) ->
  bt_get (A ++ B ++ C) k = bt_get B k.
Proof.
  intros HA HC. rewrite bt_get_app by (intros x Hx; by apply key_lt_ne, HA).
  apply bt_get_app_l. intros x Hx E. by apply (key_lt_ne k x); [apply HC|].
Qed.

Lemma lookup_loop_tree strict d s m r lo hi l kvs ls k n :
  io_rep s m r -> tree strict m d lo hi l kvs ls -> inb lo hi k -> m !! l = Some n ->
  lookup_loop (S d) s n k = Some (bt_get kvs k).
Proof.
  intros Hr. revert lo hi l kvs ls n. induction d as [|d IH]; intros lo hi l kvs ls n Ht Hk Hn.
  - cbn [lookup_loop]. destruct Ht as (_ & Hl & Hs & _). rewrite Hl in Hn. injection Hn as <-. rewrite is_leaf_Leaf. cbn [entries].
    by rewrite leaf_search.
  - destruct Ht as (_ & es & lss & Hl & _ & _ & Hf & _). rewrite Hl in Hn. injection Hn as <-. rewrite lookup_loop_internal.
    destruct (tree_focus strict m d lo hi kvs es lss k) as
      (ki & c & lo' & hi' & A & B & C & lA & lB & lC & Hes & Hc & HB & -> & _ & Hin & HA & HC & _); [done..|].
    rewrite Hes. cbn [mbind option_bind snd]. rewrite Hc. cbn [mbind option_bind].
    destruct (tree_root _ _ _ _ _ _ _ _ HB) as [nc Hnc].
    rewrite (io_read s m r c nc Hr Hnc). rewrite (IH lo' hi' c B lB nc HB Hin Hnc). by rewrite middle_get.
Qed.

Lemma lookup_tree strict d s m r l kvs ls k :
  io_rep s m r -> tree strict m d None None l kvs ls -> lookup (S d) s l k = Some (bt_get kvs k).
Proof.
  intros Hr Ht. pose proof (tree_addr _ _ _ _ _ _ _ _ Ht). unfold lookup. destruct (Z.eqb_spec l 0); [lia|].
  assert (exists n, m !! l = Some n) as [nd Hn] by (by eapply tree_root).
  rewrite (io_read s m r l nd Hr Hn). by eapply lookup_loop_tree.
Qed.

(** Visiting the children one after the other. *)
Lemma forest_mapM {A} (T : bound -> bound -> Z -> list BTreeEntry -> list Z -> Prop) (f : BTreeEntry -> option (list A))
    (g : list BTreeEntry -> list Z -> list A) lo es hi kvs ls :
  (forall a b c d, g (a ++ b) (c ++ d) = g a c ++ g b d) ->
  (forall k lo hi c kvs ls, T lo hi c kvs ls -> f (ent k (le_bytes 8 c)) = Some (g kvs ls)) ->
  forest T lo es hi kvs ls -> exists l, mapM f es = Some l /\ concat l = g kvs ls.
Proof.
  intros Hg HT. induction 1 as [|lo1 hi1 k c k' v' es' kvs1 kvs2 ls1 ls2 H1 _ _ _ _ Hf (l & Hl & Hc)].
  - cbn [mapM]. erewrite HT by eassumption. eexists. split; [done|]. cbn. apply app_nil_r.
  - change (mapM f ((ent k (le_bytes 8 c)) :: (k', v') :: es')) with
      (y ← f (ent k (le_bytes 8 c)); l ← mapM f ((k', v') :: es'); mret (y :: l)).
    rewrite (HT _ _ _ _ _ _ H1), Hl. eexists. split; [done|]. cbn. by rewrite Hc, Hg.
Qed.

Lemma walk_tree strict d s m r lo hi l kvs ls n :
  io_rep s m r -> tree strict m d lo hi l kvs ls -> m !! l = Some n -> walk_recursive (S d) s n = Some kvs.
Proof.
  intros Hr. revert lo hi l kvs ls n. induction d as [|d IH]; intros lo hi l kvs ls n Ht Hn.
  - cbn [walk_recursive]. destruct Ht as (_ & Hl & _). rewrite Hl in Hn. by injection Hn as <-.
  - destruct Ht as (_ & es & lss & Hl & _ & _ & Hf & _). rewrite Hl in Hn. injection Hn as <-. rewrite walk_internal.
    match goal with |- context [mapM ?f es] =>
      destruct (forest_mapM (tree strict m d) f (λ kvs _, kvs) lo es hi kvs lss) as (l' & -> & <-); [done| |exact Hf|done] end.
    intros k lo1 hi1 c kvs1 ls1 HT. cbn [snd]. rewrite u64_le_bytes by (by eapply tree_addr). cbn [mbind option_bind].
    destruct (tree_root _ _ _ _ _ _ _ _ HT) as [nc Hnc]. rewrite (io_read s m r c nc Hr Hnc). by eapply IH.
Qed.

Lemma walk_lbas_tree strict d s m r lo hi l kvs ls :
  io_rep s m r -> tree strict m d lo hi l kvs ls -> walk_lbas_recursive (S d) s l = Some ls.
Proof.
  intros Hr. revert lo hi l kvs ls. induction d as [|d IH]; intros lo hi l kvs ls Ht;
    pose proof (tree_addr _ _ _ _ _ _ _ _ Ht).
  - cbn [walk_lbas_recursive]. destruct (Z.eqb_spec l 0); [lia|]. destruct Ht as (_ & Hl & _ & _ & _ & _ & ->). by rewrite (io_read s m r l _ Hr Hl).
  - destruct Ht as (_ & es & lss & Hl & _ & _ & Hf & ->). rewrite (walk_lbas_internal _ s l es) by (eauto using io_read || lia).
    match goal with |- context [mapM ?f es] =>
      destruct (forest_mapM (tree strict m d) f (λ _ ls, ls) lo es hi kvs lss) as (l' & -> & <-); [done| |exact Hf|done] end.
    intros k lo1 hi1 c kvs1 ls1 HT. cbn [snd]. rewrite u64_le_bytes by (by eapply tree_addr). by eapply IH.
Qed.

End reading.

(** ** Total correctness of the monad *)

Section running.
Context {St : Type} `{BTreeIOLaws St}.
Implicit Types st : St * list Z.

Definition runs {A} (c : M (St:=St) A) (st : St * list Z) (Q : A -> St * list Z -> Prop) : Prop :=
  exists a st', c st = Some (Some a, st') /\ Q a st'.

Lemma runs_ret {A} (a : A) st (Q : A -> St * list Z -> Prop) : Q a st -> runs (mret a) st Q.
Proof. intros. by exists a, st. Qed.

Lemma runs_bind {A B} (c : M A) (f : A -> M B) st (Q : B -> St * list Z -> Prop) :
  runs c st (λ a st', runs (f a) st' Q) -> runs (c ≫= f) st Q.
Proof.
  intros (a & st' & Hc & b & st2 & Hf & HQ). exists b, st2. split; [|done].
  unfold mbind, M_bind. by rewrite Hc.
Qed.

Lemma runs_impl {A} (c : M A) st (Q Q' : A -> St * list Z -> Prop) :
  runs c st Q -> (forall a st', Q a st' -> Q' a st') -> runs c st Q'.
Proof. intros (a & st' & ? & ?) HQ. exists a, st'. auto. Qed.

Lemma runs_orpanic {A} (o : option A) a st (Q : A -> St * list Z -> Prop) :
  o = Some a -> Q a st -> runs (orpanic o) st Q.
Proof. intros -> ?. by exists a, st. Qed.

Lemma runs_question {A} (o : option A) a st (Q : A -> St * list Z -> Prop) :
  o = Some a -> Q a st -> runs (question o) st Q.
Proof. intros -> ?. by exists a, st. Qed.

Lemma runs_read m r l n st (Q : BTreeNode -> St * list Z -> Prop) :
  io_rep st.1 m r -> m !! l = Some n -> Q n st -> runs (readM l) st Q.
Proof. intros Hr Hl HQ. exists n, st. split; [|done]. unfold readM. by rewrite (io_read _ _ _ _ _ Hr Hl). Qed.

Lemma runs_peek m r l n st (Q : option BTreeNode -> St * list Z -> Prop) :
  io_rep st.1 m r -> m !! l = Some n -> Q (Some n) st -> runs (peekM l) st Q.
Proof. intros Hr Hl HQ. exists (Some n), st. split; [|done]. unfold peekM. by rewrite (io_read _ _ _ _ _ Hr Hl). Qed.

Lemma runs_push l st (Q : () -> St * list Z -> Prop) : Q () (st.1, st.2 ++ [l]) -> runs (pushM l) st Q.
Proof. intros HQ. by eexists _, _. Qed.

(** What a computation did to the store: it wrote nodes at the addresses
    [fresh], kept the others, and listed [gn] as garbage. *)
Record step_ok st (m : gmap Z BTreeNode) (r : nat) st' (m' : gmap Z BTreeNode) (fresh gn : list Z) : Prop := {
  so_rep : io_rep st'.1 m' (r - length fresh);
  so_sub : m ⊆ m';
  so_garbage : st'.2 = st.2 ++ gn;
  so_nodup : NoDup fresh;
  so_fresh : Forall (λ l, m !! l = None /\ is_Some (m' !! l)) fresh;
}.

Lemma step_ok_refl st m r : io_rep st.1 m r -> step_ok st m r st m [] [].
Proof.
  intros. constructor; [by rewrite Nat.sub_0_r|done|by rewrite app_nil_r|constructor|constructor].
Qed.

Lemma step_ok_push st m r l st' m' fresh gn :
  step_ok (st.1, st.2 ++ [l]) m r st' m' fresh gn -> step_ok st m r st' m' fresh (l :: gn).
Proof. intros [? ? Hg ? ?]. constructor; try done. rewrite Hg. cbn [snd]. by rewrite <-app_assoc. Qed.

Lemma step_ok_trans st m r st1 m1 f1 g1 st2 m2 f2 g2 :
  step_ok st m r st1 m1 f1 g1 -> step_ok st1 m1 (r - length f1) st2 m2 f2 g2 ->
  step_ok st m r st2 m2 (f1 ++ f2) (g1 ++ g2).
Proof.
  intros [R1 S1 G1 N1 F1] [R2 S2 G2 N2 F2]. rewrite Forall_forall in F1, F2. constructor.
  - by rewrite length_app, Nat.sub_add_distr.
  - by etrans.
  - by rewrite G2, G1, app_assoc.
  - apply NoDup_app. split; [done|]. split; [|done]. intros x [_ [n Hx]]%F1 [Hx2 _]%F2. congruence.
  - apply Forall_app. split; apply Forall_forall; intros x Hx.
    + destruct (F1 x Hx) as [? [n Hn]]. split; [done|]. exists n. by eapply lookup_weaken.
    + destruct (F2 x Hx) as [Hx1 ?]. split; [|done]. destruct (m !! x) as [n|] eqn:E; [|done].
      pose proof (lookup_weaken _ _ _ _ E S1). congruence.
Qed.

Lemma runs_write st m r t es (Q : Z -> St * list Z -> Prop) :
  io_rep st.1 m r -> (1 <= r)%nat -> storable (mkNode t es) ->
  (forall l st', 0 < l < 2 ^ 64 -> m !! l = None -> step_ok st m r st' (<[l := mkNode t es]> m) [l] [] -> Q l st') ->
  runs (writeM t es) st Q.
Proof.
  intros Hr H1 Hs HQ. destruct r as [|r]; [lia|]. destruct (io_write _ _ _ _ Hr Hs) as (Hl & Hn & Hr').
  eexists _, _. split; [reflexivity|]. apply HQ; [done..|]. constructor; simpl.
  - by rewrite Nat.sub_0_r.
  - by apply insert_subseteq.
  - by rewrite app_nil_r.
  - apply NoDup_singleton.
  - constructor; [|constructor]. split; [done|]. rewrite lookup_insert_eq. by eexists.
Qed.

End running.

(** ** Insertion into a leaf *)

Lemma bt_insert_small (es : list BTreeEntry) k v :
  (entries_size (bt_insert es k v) <= entries_size es + entry_size (k, v))%nat.
Proof.
  induction es as [|[k' v'] es IH]; [cbn [bt_insert]; rewrite entries_size_cons; lia|]. cbn [bt_insert]. case_if; [rewrite !entries_size_cons; lia|].
  case_decide; rewrite !entries_size_cons; lia.
Qed.

Lemma bt_insert_Forall (P : BTreeEntry -> Prop) es k v :
  Forall P es -> P (k, v) -> Forall P (bt_insert es k v).
Proof.
  rewrite !Forall_forall. intros Hes Hk x [->|Hx]%bt_insert_elem; auto.
Qed.

Lemma alter_take_drop {A} (f : A -> A) (l : list A) i x :
  l !! i = Some x -> alter f i l = take i l ++ f x :: drop (S i) l.
Proof.
  revert i. induction l as [|y l IH]; intros [|i] Hi; [done..| |].
  - by injection Hi as ->.
  - simpl. f_equal. by apply IH.
Qed.

Lemma leaf_insert es k v :
  bt_sorted es ->
  match find_pos es k with
  | Ok pos => alter (λ e : BTreeEntry, (e.1, v)) pos es
  | Err pos => vec_insert pos (k, v) es
  end = bt_insert es k v.
Proof.
  intros Hs. pose proof (find_pos_spec es k Hs) as Hf. destruct (find_pos es k) as [i|i].
  - destruct Hf as [w Hw]. rewrite (alter_take_drop _ _ _ _ Hw). cbn [fst].
    transitivity (bt_insert (take i es ++ (k, w) :: drop (S i) es) k v); [|by rewrite take_drop_middle].
    rewrite <-(take_drop_middle es i (k, w) Hw) in Hs. apply bt_sorted_app_inv in Hs as (_ & _ & Hlt). rewrite bt_insert_app.
    + cbn [bt_insert]. by rewrite key_lt_irrefl, decide_True by done.
    + intros x Hx. apply Hlt; [done|]. by left.
  - destruct Hf as (Hi & Hlo & Hhi). unfold vec_insert. rewrite <-(take_drop i es) at 3. rewrite bt_insert_app.
    + f_equal. destruct (drop i es) as [|[k' v'] l] eqn:E; [done|]. cbn [bt_insert].
      assert (key_lt k k' = true) as ->; [|done]. apply (Hhi i (k', v')); [|lia].
      by rewrite <-(Nat.add_0_r i), <-lookup_drop, E.
    + intros x (e & -> & [j Hj]%list_elem_of_lookup)%list_elem_of_fmap.
      assert (j < i)%nat by (apply lookup_lt_Some in Hj; rewrite length_take in Hj; lia).
      rewrite lookup_take_lt in Hj by done. by apply (Hlo j).
Qed.

(** ** Insertion *)

(** The outcome of [ins] on a tree of depth [d]. *)
Definition inserted (d : nat) (lo hi : bound) (kvs : list BTreeEntry) (ls : list Z) (m' : gmap Z BTreeNode)
    (fresh gn : list Z) (res : InsertResult) : Prop :=
  match res with
  | Done l' => exists ls', tree true m' d lo hi l' kvs ls' /\ ls' ++ gn ≡ₚ fresh ++ ls
  | Split med l1 l2 => exists kv1 kv2 ls1 ls2,
      tree true m' d lo (Some med) l1 kv1 ls1 /\ tree true m' d (Some med) hi l2 kv2 ls2 /\
      kvs = kv1 ++ kv2 /\ sabove lo med /\ below hi med /\ sep_ok med /\ med ≠ [] /\
      (ls1 ++ ls2) ++ gn ≡ₚ fresh ++ ls
  end.

Lemma entry_ok_storable es : Forall entry_ok es -> node_fits es = true -> storable (mkNode Leaf es).
Proof.
  intros He Hf. unfold node_fits in Hf. apply Nat.leb_le in Hf. constructor; [done|].
  eapply Forall_impl; [exact He|]. by intros e [? _ _].
Qed.

Lemma forest_storable T lo es hi kvs ls :
  forest T lo es hi kvs ls -> node_fits es = true -> storable (mkNode Internal es).
Proof.
  intros Hf Hfit. unfold node_fits in Hfit. apply Nat.leb_le in Hfit. constructor; [done|].
  eapply Forall_impl; [by eapply forest_entries|]. intros [k v] [[Hk _] [c Hc]]. simpl in *. subst v.
  constructor; [done|]. apply le_bytes_ok.
Qed.

Lemma forest_small T lo es hi kvs ls : forest T lo es hi kvs ls -> small es.
Proof.
  intros Hf. eapply Forall_impl; [by eapply forest_entries|]. intros [k v] [[_ Hk] [c Hc]].
  unfold entry_size. simpl in *. subst v. rewrite length_le_bytes. lia.
Qed.

(** The keys on both sides of an entry. *)
Lemma sorted_split_keys (es : list BTreeEntry) i e :
  bt_sorted es -> es !! i = Some e ->
  (forall x, x ∈ (take i es).*1 -> key_lt x e.1 = true) /\ (forall x, x ∈ (drop i es).*1 -> key_lt x e.1 = false).
Proof.
  intros Hs Hi. rewrite <-(take_drop_middle es i e Hi) in Hs.
  apply bt_sorted_app_inv in Hs as (_ & Hs2 & Hlt). split.
  - intros x Hx. apply Hlt; [done|]. by left.
  - rewrite (drop_S es e i Hi). intros x. cbn. intros [->|Hx]%elem_of_cons; [apply key_lt_irrefl|].
    unfold bt_sorted in Hs2. cbn in Hs2. inversion Hs2 as [|? ? _ Hall]; subst.
    apply key_lt_asym. by eapply (proj1 (Forall_forall _ _) Hall).
Qed.

Lemma set_child_eq (es : list BTreeEntry) i k v c :
  es !! i = Some (k, v) -> set_child es i c = take i es ++ (ent k (le_bytes 8 c)) :: drop (S i) es.
Proof. intros Hi. unfold set_child. by rewrite (alter_take_drop _ _ _ _ Hi). Qed.

Lemma vec_insert_next {A} (a c : list A) b x : vec_insert (length a + 1) x (a ++ b :: c) = a ++ b :: x :: c.
Proof.
  unfold vec_insert. replace (a ++ b :: c) with ((a ++ [b]) ++ c) by (by rewrite <-app_assoc).
  assert (length (a ++ [b]) = (length a + 1)%nat) as <- by (rewrite length_app; done).
  rewrite take_app_length, drop_app_length, <-app_assoc. done.
Qed.

Lemma set_child_size (es : list BTreeEntry) i k c0 c :
  es !! i = Some (ent k (le_bytes 8 c0)) ->
  entries_size (take i es ++ (ent k (le_bytes 8 c)) :: drop (S i) es) = entries_size es.
Proof.
  intros Hi. rewrite <-(take_drop_middle es i _ Hi) at 3. rewrite !entries_size_app, !entries_size_cons.
  unfold entry_size. cbn [fst snd]. by rewrite !length_le_bytes.
Qed.

(** The first key stays empty when the entries are replaced from [i] on. *)
Lemma head_empty_replace (es : list BTreeEntry) i k v v' rest :
  head_empty es -> es !! i = Some (k, v) -> head_empty (take i es ++ (k, v') :: rest).
Proof. intros (w & es' & ->) Hi. destruct i; [injection Hi as <- <-|]; simpl; do 2 eexists; done. Qed.

Section insertion.
Context {St : Type} `{BTreeIOLaws St}.
Implicit Types st : St * list Z.

(** Writing the halves of a leaf. *)
Lemma write_split_leaf st m r lo hi es gn0 l :
  io_rep st.1 m r -> (2 <= r)%nat -> bt_sorted es -> Forall (inb lo hi) es.*1 -> Forall entry_ok es ->
  node_fits es = false -> (HEADER_SIZE + entries_size es <= NODE_SIZE + MAX_ENTRY)%nat -> gn0 = [l] ->
  runs (write_split Leaf (split_node es)) st (λ res st', exists m' fresh,
    step_ok st m r st' m' fresh [] /\ (length fresh <= 2)%nat /\ inserted 0 lo hi es [l] m' fresh gn0 res).
Proof.
  intros Hr H2 Hs Hin He Hf Hsz ->.
  assert (small es) as Hsm by (eapply Forall_impl; [exact He|]; by intros e [_ ? _]).
  destruct (split_index_fits es Hsm Hf Hsz) as (Hmid & Hf1 & Hf2).
  unfold write_split, split_node. set (mid := split_index es) in *.
  destruct (lookup_lt_is_Some_2 es mid) as [e Hmide]; [lia|]. rewrite Hmide.
  destruct (sorted_split_keys es mid e Hs Hmide) as [Hlt Hge].
  pose proof (take_drop mid es) as Htd. pose proof Hs as Hs'. rewrite <-Htd in Hs'.
  apply bt_sorted_app_inv in Hs' as (Hsl & Hsr & _).
  assert (Forall entry_ok (take mid es) /\ Forall entry_ok (drop mid es)) as [Hel Her]
    by (split; [by apply Forall_take|by apply Forall_drop]).
  rewrite Forall_forall in Hin.
  apply runs_bind. eapply runs_orpanic; [done|]. apply runs_bind.
  eapply (runs_write _ m r); [done|lia|by apply entry_ok_storable|]. intros l1 st1 Ha1 Hn1 Hs1.
  apply runs_bind. eapply (runs_write _ _ (r - 1)); [by destruct Hs1|lia|by apply entry_ok_storable|].
  intros l2 st2 Ha2 Hn2 Hs2. apply runs_ret. eexists _, _. split; [exact (step_ok_trans _ _ _ _ _ _ _ _ _ _ _ Hs1 Hs2)|]. split; [done|].
  exists (take mid es), (drop mid es), [l1], [l2].
  assert (forall x, x ∈ (take mid es).*1 -> x ∈ es.*1) as Hsub1.
  { intros x Hx. rewrite <-Htd, fmap_app. apply elem_of_app. by left. }
  assert (forall x, x ∈ (drop mid es).*1 -> x ∈ es.*1) as Hsub2.
  { intros x Hx. rewrite <-Htd, fmap_app. apply elem_of_app. by right. }
  assert (inb lo hi e.1) as [Hea Heb].
  { apply Hin, list_elem_of_fmap. exists e. split; [done|]. by eapply list_elem_of_lookup_2. }
  assert (exists x0, x0 ∈ (take mid es).*1) as [x0 Hx0].
  { destruct (lookup_lt_is_Some_2 (take mid es) 0) as [y Hy]; [rewrite length_take; lia|].
    exists y.1. apply list_elem_of_fmap. exists y. split; [done|]. by eapply list_elem_of_lookup_2. }
  assert (sep_ok e.1) by (destruct (proj1 (Forall_forall _ _) He e) as [[? _] _ ?]; [by eapply list_elem_of_lookup_2|done]).
  split; [|split; [|split_and!; try done]].
  - apply tree_leaf; [done| |done| |done..].
    + rewrite lookup_insert_ne by (intros ->; by rewrite lookup_insert_eq in Hn2). by rewrite lookup_insert_eq.
    + apply Forall_forall. intros x Hx. split; [apply (Hin x); auto|]. simpl. auto.
  - apply tree_leaf; [done| |done| |done..].
    + by rewrite lookup_insert_eq.
    + apply Forall_forall. intros x Hx. split; [simpl; auto|apply (Hin x); auto].
  - eapply sabove_lt_trans; [apply (Hin x0); auto|auto].
  - eapply lt_not_nil. by apply (Hlt x0).
Qed.


Lemma write_internal strict st m r d lo hi es kvs lss :
  io_rep st.1 m r -> (1 <= r)%nat -> forest (tree strict m d) lo es hi kvs lss -> node_fits es = true ->
  (strict = true -> head_empty es) ->
  runs (writeM Internal es) st (λ l st', exists m', step_ok st m r st' m' [l] [] /\ m ⊆ m' /\
    tree strict m' (S d) lo hi l kvs (l :: lss)).
Proof.
  intros Hr H1 Hf Hfit Hh. eapply (runs_write _ m r); [done..|by eapply forest_storable|].
  intros l st' Hl Hn Hs. eexists. split; [exact Hs|]. split; [by destruct Hs|].
  apply (tree_internal _ _ _ _ _ _ es); [done|by rewrite lookup_insert_eq|done..|].
  eapply forest_mono; [|exact Hf]. intros. eapply tree_mono; [|done]. by destruct Hs.
Qed.

Lemma write_split_internal st m r d lo hi es kvs lss :
  io_rep st.1 m r -> (2 <= r)%nat -> forest (tree true m d) lo es hi kvs lss -> node_fits es = false ->
  (HEADER_SIZE + entries_size es <= NODE_SIZE + MAX_ENTRY)%nat -> head_empty es ->
  runs (write_split Internal (split_internal es)) st (λ res st', exists m' fresh,
    step_ok st m r st' m' fresh [] /\ (length fresh <= 2)%nat /\
    exists med l1 l2 kv1 kv2 ls1 ls2, res = Split med l1 l2 /\
      tree true m' (S d) lo (Some med) l1 kv1 ls1 /\ tree true m' (S d) (Some med) hi l2 kv2 ls2 /\
      kvs = kv1 ++ kv2 /\ sabove lo med /\ below hi med /\ sep_ok med /\ med ≠ [] /\
      ls1 ++ ls2 ≡ₚ fresh ++ lss).
Proof.
  intros Hr H2 Hf Hfit Hsz (v0 & es0 & Hes).
  destruct (split_index_fits es (forest_small _ _ _ _ _ _ Hf) Hfit Hsz) as (Hmid & Hf1 & Hf2).
  unfold write_split, split_internal. set (mid := split_index es) in *.
  destruct (lookup_lt_is_Some_2 es mid) as [[k v] Hmide]; [lia|]. rewrite Hmide.
  assert (sep_ok k) as Hk by (apply (Forall_lookup_1 _ _ _ _ (forest_entries _ _ _ _ _ _ Hf) Hmide)).
  pose proof Hf as Hf'. rewrite <-(take_drop_middle es mid _ Hmide) in Hf'.
  destruct (forest_split (tree true m d) (take mid es) lo k v (drop (S mid) es) hi kvs lss)
    as (kv1 & kv2 & ls1 & ls2 & Hfa & Hfb & -> & -> & Hs & Hb); [|exact Hf'|].
  { intros E. apply (f_equal length) in E. rewrite length_take in E. simpl in E. lia. }
  assert (key_lt [] k = true) as Hk0.
  { pose proof Hf as Hall. rewrite Hes in Hall, Hmide. apply forest_seps in Hall as [Hall _]. destruct mid as [|mid']; [lia|]. simpl in Hmide.
    apply (Forall_lookup_1 _ _ _ _ Hall Hmide). }
  assert (forest (tree true m d) (Some k) (([], v) :: drop (S mid) es) hi kv2 ls2) as Hfb'.
  { eapply forest_rekey; [exact Hfb| |].
    - split; [constructor|]. cbn. destruct Hk. lia.
    - eapply Forall_impl; [by eapply forest_seps|]. intros x (_ & _ & Hx). apply nil_lt. by eapply lt_not_nil. }
  assert (node_fits (([], v) :: drop (S mid) es) = true) as Hf2'.
  { unfold node_fits in *. apply Nat.leb_le. apply Nat.leb_le in Hf2. rewrite (drop_S _ _ _ Hmide) in Hf2.
    rewrite entries_size_cons in *. unfold entry_size in *. cbn [fst snd length] in *. lia. }
  apply runs_bind. eapply runs_orpanic; [done|]. apply runs_bind. cbn [fst snd].
  eapply runs_impl; [apply (write_internal true _ m r d lo (Some k) (take mid es) kv1 ls1); [done|lia|done..|]|].
  { rewrite Hes. destruct mid as [|mid']; [lia|]. do 2 eexists. done. }
  intros l1 st1 (m1 & Hs1 & Hm1 & Ht1). apply runs_bind. rewrite Nat.add_1_r.
  eapply runs_impl; [apply (write_internal true _ m1 (r - 1) d (Some k) hi (([], v) :: drop (S mid) es) kv2 ls2)|].
  { by destruct Hs1. } { lia. } { eapply forest_mono; [|exact Hfb']. intros. by eapply tree_mono. } { done. } { do 2 eexists. done. }
  intros l2 st2 (m2 & Hs2 & Hm2 & Ht2). apply runs_ret. exists m2, [l1; l2].
  split; [exact (step_ok_trans _ _ _ _ _ _ _ _ _ _ _ Hs1 Hs2)|]. split; [done|].
  exists k, l1, l2, kv1, kv2, (l1 :: ls1), (l2 :: ls2). split_and!; try done.
  - by eapply tree_mono.
  - by eapply lt_not_nil.
  - solve_Permutation.
Qed.


Lemma ins_leaf st m r lo hi l kvs ls key v :
  io_rep st.1 m r -> tree true m 0 lo hi l kvs ls -> inb lo hi key -> entry_ok (key, v) -> (2 <= r)%nat ->
  runs (ins 1 l key v) st (λ res st', exists m' fresh gn,
    step_ok st m r st' m' fresh gn /\ (length fresh <= 2)%nat /\
    inserted 0 lo hi (bt_insert kvs key v) ls m' fresh gn res).
Proof.
  intros Hr (Ha & Hl & Hs & Hin & He & Hfit & ->) Hk Hkv H2. cbn [ins].
  apply runs_bind. eapply (runs_read m r); [done..|]. apply runs_bind, runs_push. rewrite is_leaf_Leaf. cbn [entries node_type].
  rewrite leaf_insert by done. set (new := bt_insert kvs key v).
  assert (bt_sorted new) by (by apply bt_insert_sorted).
  assert (Forall entry_ok new) by (by apply bt_insert_Forall).
  assert (Forall (inb lo hi) new.*1).
  { rewrite Forall_fmap in Hin |- *. by apply bt_insert_Forall. }
  assert (HEADER_SIZE + entries_size new <= NODE_SIZE + MAX_ENTRY)%nat.
  { unfold node_fits in Hfit. apply Nat.leb_le in Hfit. pose proof (bt_insert_small kvs key v). destruct Hkv. unfold new. lia. }
  destruct (node_fits new) eqn:Hnf; cbn [negb].
  - apply runs_bind. eapply (runs_write _ m r); [done|lia|by apply entry_ok_storable|].
    intros l' st' Ha' Hn' Hs'. apply runs_ret. exists (<[l' := mkNode Leaf new]> m), [l'], [l].
    split; [by apply step_ok_push|]. split; [simpl; lia|]. exists [l']. split; [|done]. by apply tree_leaf; try done; rewrite lookup_insert_eq.
  - eapply runs_impl; [by eapply (write_split_leaf _ m r)|].
    intros res st' (m' & fresh & Hs' & Hlen & Hi). exists m', fresh, [l]. split; [|done].
    by apply step_ok_push.
Qed.

Lemma step_ok_rep st m r st' m' fresh gn : step_ok st m r st' m' fresh gn -> io_rep st'.1 m' (r - length fresh).
Proof. by intros []. Qed.

Lemma step_ok_sub st m r st' m' fresh gn : step_ok st m r st' m' fresh gn -> m ⊆ m'.
Proof. by intros []. Qed.

(** Contents around the subtree that changed. *)
Lemma middle_insert (A B C : list BTreeEntry) k v :
  (forall x, x ∈ A.*1 -> key_lt x k = true) -> (forall x, x ∈ C.*1 -> key_lt k x = true) ->
  bt_insert (A ++ B ++ C) k v = A ++ bt_insert B k v ++ C.
Proof. intros HA HC. rewrite bt_insert_app by done. by rewrite bt_insert_app_l. Qed.

Lemma ins_tree d : forall st m r lo hi l kvs ls key v,
  io_rep st.1 m r -> tree true m d lo hi l kvs ls -> inb lo hi key -> entry_ok (key, v) -> (2 * S d <= r)%nat ->
  runs (ins (S d) l key v) st (λ res st', exists m' fresh gn,
    step_ok st m r st' m' fresh gn /\ (length fresh <= 2 * S d)%nat /\
    inserted d lo hi (bt_insert kvs key v) ls m' fresh gn res).
Proof.
  induction d as [|d IH]; intros st m r lo hi l kvs ls key v Hr Ht Hk Hkv Hroom.
  { eapply ins_leaf; eauto; lia. }
  destruct Ht as (Ha & es & lss & Hl & Hfit & Hh & Hf & ->). specialize (Hh eq_refl).
  remember (S d) as f eqn:Ef. cbn [ins]. subst f.
  apply runs_bind. eapply (runs_read m r); [done..|]. apply runs_bind, runs_push.
  rewrite is_leaf_Internal. cbn [entries node_type]. cbv zeta.
  destruct (tree_focus true m d lo hi kvs es lss key Hf Hk) as
    (ki & c & lo' & hi' & A & B & C & lA & lB & lC & Hes & Hc & HB & -> & -> & Hin & HA & HC & Hlo' & Hki & Hre).
  set (i := child_index es key) in *.
  apply runs_bind. eapply runs_orpanic; [exact Hes|]. apply runs_bind. eapply runs_question; [exact Hc|].
  apply runs_bind. eapply runs_impl; [eapply (IH _ m r lo' hi'); try done; lia|].
  intros res st1 (m1 & f1 & g1 & Hs1 & Hlen1 & Hres).
  apply step_ok_push in Hs1 as Ht1. clear Hs1. pose proof (step_ok_sub _ _ _ _ _ _ _ Ht1) as Hm1. pose proof (step_ok_rep _ _ _ _ _ _ _ Ht1) as Hr1.
  rewrite middle_insert by done. destruct res as [c'|med l1 l2]; cbn [inserted] in Hres.
  - destruct Hres as (lB' & HB' & Hperm). rewrite (set_child_eq _ _ _ _ _ Hes).
    apply runs_bind. eapply runs_impl; [apply (write_internal true _ m1 (r - length f1) d lo hi _
      (A ++ bt_insert B key v ++ C) (lA ++ lB' ++ lC)); [done|lia| | |]|].
    { apply (Hre m1 _ [] _ _ Hm1). by constructor. }
    { unfold node_fits in *. by rewrite (set_child_size es i ki c). }
    { intros _. by eapply head_empty_replace. }
    intros l' st2 (m2 & Hs2 & Hm2 & Ht2). apply runs_ret. exists m2, (f1 ++ [l']), (l :: g1).
    split; [|split; [rewrite length_app; simpl; lia|]].
    + pose proof (step_ok_trans _ _ _ _ _ _ _ _ _ _ _ Ht1 Hs2) as Ht. by rewrite app_nil_r in Ht.
    + exists (l' :: lA ++ lB' ++ lC). split; [done|].
      transitivity (l' :: l :: lA ++ lC ++ (lB' ++ g1)); [solve_Permutation|]. rewrite Hperm. solve_Permutation.
  - destruct Hres as (kv1 & kv2 & ls1 & ls2 & HT1 & HT2 & Hkv12 & Hsa & Hsb & Hsm & Hne & Hperm).
    rewrite (set_child_eq _ _ _ _ _ Hes). 
    assert (length (take i es) = i) as Hli by (rewrite length_take; apply lookup_lt_Some in Hes; lia).
    assert (key_lt ki med = true) as Hkm.
    { destruct Hlo' as [[Hi0 ->]| ->]; [|done]. destruct Hh as (v0 & es0 & ->). rewrite Hi0 in Hes.
      injection Hes as <- _. by apply nil_lt. }
    set (new := take i es ++ (ent ki (le_bytes 8 l1)) :: (ent med (le_bytes 8 l2)) :: drop (S i) es).
    assert (vec_insert (i + 1) (ent med (le_bytes 8 l2)) (take i es ++ (ent ki (le_bytes 8 l1)) :: drop (S i) es) = new) as ->
      by (rewrite <-Hli at 1; apply vec_insert_next).
    assert (forest (tree true m1 d) lo new hi (A ++ (kv1 ++ kv2) ++ C) (lA ++ (ls1 ++ ls2) ++ lC)) as Hfn.
    { apply (Hre m1 _ [(ent med (le_bytes 8 l2))] _ _ Hm1). apply forest_cons; try done. by constructor. }
    assert (head_empty new) as Hhn by (by eapply head_empty_replace).
    assert (HEADER_SIZE + entries_size new <= NODE_SIZE + MAX_ENTRY)%nat as Hsz.
    { unfold node_fits in Hfit. apply Nat.leb_le in Hfit. rewrite <-(set_child_size es i ki c l1 Hes) in Hfit.
      unfold new. rewrite !entries_size_app, !entries_size_cons in *. unfold entry_size in *. cbn [fst snd] in *.
      rewrite !length_le_bytes in *. destruct Hsm. lia. }
    rewrite Hkv12. destruct (node_fits new) eqn:Hnf; cbn [negb].
    + apply runs_bind. eapply runs_impl; [apply (write_internal true _ m1 (r - length f1) d lo hi new); try done; lia|].
      intros l' st2 (m2 & Hs2 & Hm2 & Ht2). apply runs_ret. exists m2, (f1 ++ [l']), (l :: g1).
      split; [|split; [rewrite length_app; simpl; lia|]].
      * pose proof (step_ok_trans _ _ _ _ _ _ _ _ _ _ _ Ht1 Hs2) as Ht. by rewrite app_nil_r in Ht.
      * exists (l' :: lA ++ (ls1 ++ ls2) ++ lC). split; [exact Ht2|].
        transitivity (l' :: l :: lA ++ lC ++ ((ls1 ++ ls2) ++ g1)); [solve_Permutation|]. rewrite Hperm. solve_Permutation.
    + eapply runs_impl; [apply (write_split_internal _ m1 (r - length f1) d lo hi new); try done; lia|].
      intros res st2 (m2 & f2 & Hs2 & Hlen2 & med' & l1' & l2' & kv1' & kv2' & ls1' & ls2' & -> & HT1' & HT2' & Hkv' & Hrest).
      destruct Hrest as (Hsa' & Hsb' & Hsm' & Hne' & Hperm').
      exists m2, (f1 ++ f2), (l :: g1). split; [|split; [rewrite length_app; lia|]].
      * pose proof (step_ok_trans _ _ _ _ _ _ _ _ _ _ _ Ht1 Hs2) as Ht. by rewrite app_nil_r in Ht.
      * exists kv1', kv2', ls1', ls2'. split_and!; try done. rewrite Hperm'.
        transitivity (f2 ++ l :: lA ++ lC ++ ((ls1 ++ ls2) ++ g1)); [solve_Permutation|]. rewrite Hperm. solve_Permutation.
Qed.

(** ** The operations on a directory root *)

(** A root and its contents: address 0 is the empty tree. *)
Definition rooted (strict : bool) (m : gmap Z BTreeNode) (d : nat) (root : Z) (kvs : list BTreeEntry) (ls : list Z) : Prop :=
  (root = 0 /\ kvs = [] /\ ls = []) \/ tree strict m d None None root kvs ls.

Lemma rooted_lookup strict s m r d root kvs ls k :
  io_rep s m r -> rooted strict m d root kvs ls -> lookup (S d) s root k = Some (bt_get kvs k).
Proof. intros Hr [(-> & -> & _)|Ht]; [done|]. by eapply lookup_tree. Qed.

Lemma rooted_mono strict m m' d root kvs ls : m ⊆ m' -> rooted strict m d root kvs ls -> rooted strict m' d root kvs ls.
Proof. intros Hm [?|?]; [by left|right]. by eapply tree_mono. Qed.

Lemma insert_tracked_runs st m r d root kvs ls key v :
  io_rep st.1 m r -> rooted true m d root kvs ls -> entry_ok (key, v) -> (2 * d + 3 <= r)%nat ->
  runs (insert_tracked (S d) root key v) st (λ root' st', exists m' fresh gn d' ls',
    step_ok st m r st' m' fresh gn /\ (length fresh <= 2 * d + 3)%nat /\ (d' <= S d)%nat /\
    tree true m' d' None None root' (bt_insert kvs key v) ls' /\ ls' ++ gn ≡ₚ fresh ++ ls).
Proof.
  intros Hr Hroot Hkv Hroom. unfold insert_tracked. destruct Hroot as [(-> & -> & ->)|Ht].
  - cbn [Z.eqb].
    assert (node_fits [(key, v)] = true) as Hfit.
    { unfold node_fits. apply Nat.leb_le. rewrite entries_size_cons. change (entries_size []) with 0%nat.
      destruct Hkv as [_ Hsz _]. unfold HEADER_SIZE, NODE_SIZE, MAX_ENTRY in *. lia. }
    assert (Forall entry_ok [(key, v)]) by (constructor; [done|constructor]).
    eapply (runs_write _ m r); [done|lia|by apply entry_ok_storable|].
    intros l st' Ha Hn Hs. eexists _, [l], [], 0%nat, [l]. split; [exact Hs|]. split; [simpl; lia|]. split; [lia|].
    split; [|done]. apply tree_leaf; try done; [by rewrite lookup_insert_eq|repeat constructor..].
  - pose proof (tree_addr _ _ _ _ _ _ _ _ Ht). destruct (Z.eqb_spec root 0); [lia|].
    apply runs_bind. eapply runs_impl; [eapply (ins_tree d _ m r); [done..|lia]|].
    intros res st1 (m1 & f1 & g1 & Hs1 & Hlen1 & Hres). destruct res as [l'|med l1 l2]; cbn [inserted] in Hres.
    + destruct Hres as (ls' & Ht' & Hperm). apply runs_ret. exists m1, f1, g1, d, ls'. split_and!; try done; lia.
    + destruct Hres as (kv1 & kv2 & ls1 & ls2 & HT1 & HT2 & Hkv12 & Hsa & Hsb & Hsm & Hne & Hperm).
      eapply runs_impl; [apply (write_internal true _ m1 (r - length f1) d None None
        [(ent [] (le_bytes 8 l1)); (ent med (le_bytes 8 l2))] (kv1 ++ kv2) (ls1 ++ ls2))|].
      { by eapply step_ok_rep. } { lia. }
      { apply forest_cons; try done; [|by apply nil_lt|by constructor]. split; [constructor|]. destruct Hsm. cbn. lia. }
      { unfold node_fits. apply Nat.leb_le. rewrite !entries_size_cons. unfold entry_size. cbn [fst snd length].
        rewrite !length_le_bytes. change (entries_size []) with 0%nat. destruct Hsm as [_ Hsm].
        unfold HEADER_SIZE, NODE_SIZE, MAX_ENTRY in *. lia. }
      { intros _. do 2 eexists. done. }
      intros l' st2 (m2 & Hs2 & Hm2 & Ht2). exists m2, (f1 ++ [l']), g1, (S d), (l' :: ls1 ++ ls2).
      split; [|split; [rewrite length_app; simpl; lia|split; [lia|]]].
      * pose proof (step_ok_trans _ _ _ _ _ _ _ _ _ _ _ Hs1 Hs2) as Ht3. by rewrite app_nil_r in Ht3.
      * rewrite Hkv12. split; [done|]. transitivity (l' :: ((ls1 ++ ls2) ++ g1)); [solve_Permutation|].
        rewrite Hperm. solve_Permutation.
Qed.

End insertion.
