(* ===== verification/MemIO.v ===== *)
(** * MemIO.v: the in-memory node store ([fs/neofs/btree/mem.rs])

    Nodes are kept serialised in a vector with their addresses, as on a disk
    block; the store satisfies the laws the B-tree relies on. *)

From stdpp Require Import gmap.
From S2P Require Import Prelude Str BTreeMap Bytes BNode NeoTree.
Open Scope Z_scope.

Record MemBTreeIO := mkMem { mem_nodes : list (Z * list Z); next_lba : Z }.

Definition mem_new : MemBTreeIO := mkMem [] 1.

Definition mem_read_node (s : MemBTreeIO) (lba : Z) : option BTreeNode :=
  '(_, data) ← list_find (λ p : Z * list Z, p.1 = lba) (mem_nodes s); deserialize data.2.

Definition mem_write_node (s : MemBTreeIO) (node : BTreeNode) : Z * MemBTreeIO :=
  let lba := next_lba s in
  (lba, mkMem (mem_nodes s ++ [(lba, serialize node)]) (wrap 64 (next_lba s + 1))).

#[global] Instance mem_io : BTreeIO MemBTreeIO := {| read_node := mem_read_node; write_node := mem_write_node |}.

(** The addresses in the vector are below [next_lba], each used once. *)
Record mem_rep (s : MemBTreeIO) (m : gmap Z BTreeNode) (r : nat) : Prop := {
  mr_next : 0 < next_lba s /\ next_lba s + Z.of_nat r < 2 ^ 64;
  mr_below : Forall (λ p, p.1 < next_lba s) (mem_nodes s);
  mr_nodes l n : m !! l = Some n ->
    storable n /\ exists i, list_find (λ p : Z * list Z, p.1 = l) (mem_nodes s) = Some (i, (l, serialize n));
}.

#[global] Program Instance mem_laws : BTreeIOLaws MemBTreeIO := {| io_rep := mem_rep |}.
Next Obligation.
  intros s m r l n [_ _ Hn] Hl. destruct (Hn l n Hl) as (Hs & i & Hi). cbn. unfold mem_read_node.
  rewrite Hi. cbn. by apply deserialize_serialize.
Qed.
Next Obligation.
  intros s m r n [[H1 H2] Hb Hn] Hst. cbn [write_node mem_io mem_write_node fst snd].
  assert (m !! next_lba s = None) as Hnone.
  { destruct (m !! next_lba s) as [n'|] eqn:E; [|done]. destruct (Hn _ _ E) as (_ & i & Hi).
    apply list_find_Some in Hi as (Hi & _ & _). apply (Forall_lookup_1 _ _ _ _ Hb) in Hi. simpl in Hi. lia. }
  split; [lia|]. split; [done|].
  assert (wrap 64 (next_lba s + 1) = next_lba s + 1) as Hw by (apply wrap_small; lia).
  constructor; cbn [next_lba mem_nodes]; rewrite ?Hw.
  - lia.
  - apply Forall_app. split; [|constructor; [simpl; lia|constructor]].
    eapply Forall_impl; [exact Hb|]. intros p Hp. simpl in *. lia.
  - intros l n'. destruct (decide (l = next_lba s)) as [->|Hne].
    + rewrite lookup_insert_eq. intros [= <-]. split; [done|]. exists (length (mem_nodes s)).
      apply list_find_app_Some. right. rewrite Nat.sub_diag. split; [lia|]. split; [|by cbn; rewrite decide_True].
      apply list_find_None. eapply Forall_impl; [exact Hb|]. intros p Hp. simpl in *. lia.
    + rewrite lookup_insert_ne by done. intros Hl. destruct (Hn l n' Hl) as (? & i & Hi). split; [done|].
      exists i. apply list_find_app_Some. by left.
Qed.

Lemma mem_new_rep r : Z.of_nat r < 2 ^ 64 - 1 -> io_rep mem_new ∅ r.
Proof. intros Hr. constructor; [simpl; lia|constructor|]. intros l n Hl. by rewrite lookup_empty in Hl. Qed.
