(* ===== verification/NeoDelete.v ===== *)
(** * NeoDelete.v: deletion

    Deletion from a tree of at most two levels (a leaf, or a root over leaves)
    against [bt_remove], with borrowing and merging between leaves.  Deeper trees
    are excluded: rebalancing internal nodes does not keep them ordered, which the
    last section shows on a concrete tree. *)

From stdpp Require Import gmap.
From S2P Require Import Prelude Str BTreeMap Bytes BNode NeoTree NeoForest NeoInsert.
Open Scope Z_scope.

(** ** Two neighbouring children *)

Lemma forest_pair_inv T lo ka va kb vb hi kvs ls :
  forest T lo [(ka, va); (kb, vb)] hi kvs ls ->
  exists ca cb K1 K2 l1 l2, va = le_bytes 8 ca /\ vb = le_bytes 8 cb /\ T lo (Some kb) ca K1 l1 /\ T (Some kb) hi cb K2 l2 /\
    kvs = K1 ++ K2 /\ ls = l1 ++ l2 /\ sep_ok ka /\ sep_ok kb /\ key_lt ka kb = true /\ sabove lo kb /\ below hi kb.
Proof.
  intros Hf. inversion Hf as [|? ? ? ca ? ? ? K1 K2 l1 l2 ? ? ? ? ? Hf2]; subst.
  inversion Hf2 as [? ? ? cb|]; subst. exists ca, cb, K1, K2, l1, l2. by split_and!.
Qed.

Lemma forest_pair (T : bound -> bound -> Z -> list BTreeEntry -> list Z -> Prop) lo ka ca kb cb hi K1 K2 l1 l2 :
  T lo (Some kb) ca K1 l1 -> T (Some kb) hi cb K2 l2 -> sep_ok ka -> sep_ok kb -> key_lt ka kb = true ->
  sabove lo kb -> below hi kb -> forest T lo [(ent ka (le_bytes 8 ca)); (ent kb (le_bytes 8 cb))] hi (K1 ++ K2) (l1 ++ l2).
Proof. intros. apply forest_cons; try done. by constructor. Qed.

Definition head_key (es : list BTreeEntry) : option str := fst <$> head es.

(** Only widths matter for a leaf. *)
Lemma leaf_inv strict m lo hi c kvs ls :
  tree strict m 0 lo hi c kvs ls ->
  m !! c = Some (mkNode Leaf kvs) /\ bt_sorted kvs /\ Forall (inb lo hi) kvs.*1 /\ Forall entry_ok kvs /\
  node_fits kvs = true /\ ls = [c].
Proof. simpl. tauto. Qed.

(** ** Rebalancing two leaves *)

(** The outcome of rebalancing the entries [es] of the root. *)
Definition rebalanced {St} `{BTreeIOLaws St} (st : St * list Z) (m : gmap Z BTreeNode) (r : nat) (lo hi : bound)
    (es kvs : list BTreeEntry) (lss : list Z) (K : nat) (res : bool * list BTreeEntry) (st' : St * list Z) : Prop :=
  exists m' fresh gn lss', step_ok st m r st' m' fresh gn /\ (length fresh <= 2)%nat /\
    forest (tree true m' 0) lo res.2 hi kvs lss' /\ lss' ++ gn ≡ₚ fresh ++ lss /\
    head_key res.2 = head_key es /\ (entries_size res.2 <= entries_size es + K)%nat.

Lemma addr_inj a b : 0 < a < 2 ^ 64 -> 0 < b < 2 ^ 64 -> le_bytes 8 a = le_bytes 8 b -> a = b.
Proof. intros Ha Hb E. apply u64_le_bytes in Ha, Hb. rewrite E in Ha. congruence. Qed.

(** Two neighbouring leaves: their entries may be divided anew, or put together. *)
Lemma leaf_pair (m : gmap Z BTreeNode) lo hi pre ka ca kb cb post kvs lss LA LB :
  forest (tree true m 0) lo (pre ++ [(ent ka (le_bytes 8 ca)); (ent kb (le_bytes 8 cb))] ++ post) hi kvs lss ->
  head_key (pre ++ [(ent ka (le_bytes 8 ca)); (ent kb (le_bytes 8 cb))] ++ post) = Some [] ->
  0 < ca < 2 ^ 64 -> 0 < cb < 2 ^ 64 -> m !! ca = Some (mkNode Leaf LA) -> m !! cb = Some (mkNode Leaf LB) ->
  exists A C lA lC,
    kvs = A ++ (LA ++ LB) ++ C /\ lss = lA ++ [ca; cb] ++ lC /\ Forall entry_ok (LA ++ LB) /\
    (forall m' N1 N2 l1 l2 kmid, m ⊆ m' -> LA ++ LB = N1 ++ N2 -> N1 ≠ [] -> head_key N2 = Some kmid ->
      node_fits N1 = true -> node_fits N2 = true -> 0 < l1 < 2 ^ 64 -> 0 < l2 < 2 ^ 64 ->
      m' !! l1 = Some (mkNode Leaf N1) -> m' !! l2 = Some (mkNode Leaf N2) ->
      forest (tree true m' 0) lo (pre ++ [(ent ka (le_bytes 8 l1)); (ent kmid (le_bytes 8 l2))] ++ post) hi kvs (lA ++ [l1; l2] ++ lC)) /\
    (forall m' l1, m ⊆ m' -> node_fits (LA ++ LB) = true -> 0 < l1 < 2 ^ 64 ->
      m' !! l1 = Some (mkNode Leaf (LA ++ LB)) ->
      forest (tree true m' 0) lo (pre ++ [(ent ka (le_bytes 8 l1))] ++ post) hi kvs (lA ++ [l1] ++ lC)).
Proof.
  intros Hf Hh Hca Hcb HA HB.
  destruct (forest_seg (tree true m 0) lo pre ka (le_bytes 8 ca) [(ent kb (le_bytes 8 cb))] post hi kvs lss)
    as (lo' & hi' & A & M & C & lA & lM & lC & -> & -> & Hfm & Hbef & Haft); [done..|]. clear Hf.
  assert (pre = [] /\ lo' = lo \/ lo' = Some ka) as Hlo by (destruct Hbef as [(? & ? & _)|(? & _)]; auto).
  assert (forall m' v' mid' M' lM', m ⊆ m' -> forest (tree true m' 0) lo' ((ka, v') :: mid') hi' M' lM' ->
    forest (tree true m' 0) lo (pre ++ ((ka, v') :: mid') ++ post) hi (A ++ M' ++ C) (lA ++ lM' ++ lC)) as Hre.
  { intros m' v' mid' M' lM' Hm Hf'. apply (forest_refill (tree true m 0) _ _ _ lo' _ _ _ hi'); try done.
    intros. by eapply tree_mono. }
  apply forest_pair_inv in Hfm as (c1 & c2 & K1 & K2 & ls1 & ls2 & E1 & E2 & H1 & H2 & -> & -> & Hka & Hkb & Hlt & Hsa & Hsb).
  assert (c1 = ca) as -> by (apply (addr_inj c1 ca); [by eapply tree_addr|done..]).
  assert (c2 = cb) as -> by (apply (addr_inj c2 cb); [by eapply tree_addr|done..]).
  apply leaf_inv in H1 as (Hm1 & Hs1 & Hi1 & He1 & Hf1 & ->). apply leaf_inv in H2 as (Hm2 & Hs2 & Hi2 & He2 & Hf2' & ->).
  rewrite HA in Hm1. rewrite HB in Hm2. injection Hm1 as <-. injection Hm2 as <-.
  assert (bt_sorted (LA ++ LB) /\ Forall (inb lo' hi') (LA ++ LB).*1) as [Hs Hi].
  { eapply (forest_bounded (tree true m 0)); [intros; by eapply tree_bounded|].
    apply (forest_pair _ lo' ka ca kb cb hi' LA LB [ca] [cb]); try done; by apply tree_leaf. }
  rewrite Forall_forall in Hi. assert (Forall entry_ok (LA ++ LB)) as He by (by apply Forall_app).
  exists A, C, lA, lC. split_and!; try done.
  - intros m' N1 N2 l1 l2 kmid Hm HN Hne HkN Hfn1 Hfn2 Ha1 Ha2 Hl1 Hl2. rewrite HN.
    apply (Hre m' _ [(ent kmid (le_bytes 8 l2))] (N1 ++ N2) [l1; l2] Hm).
    destruct N2 as [|[k2 v2] N2]; [done|]. injection HkN as ->. rewrite HN in Hs, Hi, He.
    destruct (sorted_split_keys _ (length N1) (kmid, v2) Hs) as [Hlt1 Hge2]; [by apply list_lookup_middle|].
    rewrite take_app_length in Hlt1. rewrite drop_app_length in Hge2. cbn [fst] in *.
    apply bt_sorted_app_inv in Hs as (HsN1 & HsN2 & _). apply Forall_app in He as [HeN1 HeN2].
    setoid_rewrite fmap_app in Hi. setoid_rewrite elem_of_app in Hi.
    destruct N1 as [|[x0 y0] N1]; [done|].
    assert (key_lt x0 kmid = true) as Hx0 by (apply Hlt1; by left).
    assert (sabove lo' kmid) as Hsk by (eapply sabove_lt_trans; [apply (Hi x0); left; by left|done]).
    apply (forest_pair _ lo' ka l1 kmid l2 hi' _ _ [l1] [l2]); [| |done| | |done|].
    + apply tree_leaf; try done. apply Forall_forall. intros x Hx. split; [apply Hi; by left|by apply Hlt1].
    + apply tree_leaf; try done. apply Forall_forall. intros x Hx. split; [by apply Hge2|apply Hi; by right].
    + inversion HeN2 as [|? ? [[? _] _ ?] _]; subst. done.
    + destruct Hlo as [[-> ->]| ->]; [|done]. injection Hh as ->.
      apply nil_lt. by eapply lt_not_nil.
    + apply Hi. right. by left.
  - intros m' l1 Hm Hfit Ha1 Hl1. apply (Hre m' _ [] (LA ++ LB) [l1] Hm).
    constructor; [|done]. apply tree_leaf; try done. by apply Forall_forall.
Qed.

(** Two neighbouring entries of a vector. *)
Lemma pair_lookup_l {A} (pre : list A) a b post : (pre ++ [a; b] ++ post) !! length pre = Some a.
Proof. by apply list_lookup_middle. Qed.
Lemma pair_lookup_r {A} (pre : list A) a b post : (pre ++ [a; b] ++ post) !! (length pre + 1)%nat = Some b.
Proof. rewrite lookup_app_r by lia. by replace (length pre + 1 - length pre)%nat with 1%nat by lia. Qed.
Lemma pair_alter_l {A} f (pre : list A) a b post : alter f (length pre) (pre ++ [a; b] ++ post) = pre ++ [f a; b] ++ post.
Proof. induction pre as [|x pre IH]; [done|]. simpl. f_equal. apply IH. Qed.
Lemma pair_alter_r {A} f (pre : list A) a b post : alter f (length pre + 1)%nat (pre ++ [a; b] ++ post) = pre ++ [a; f b] ++ post.
Proof. induction pre as [|x pre IH]; [done|]. simpl. f_equal. apply IH. Qed.
Lemma pair_delete_r {A} (pre : list A) a b post : delete (length pre + 1)%nat (pre ++ [a; b] ++ post) = pre ++ [a] ++ post.
Proof. induction pre as [|x pre IH]; [done|]. simpl. f_equal. apply IH. Qed.

Lemma head_key_pair pre (ka : str) va va' (e : BTreeEntry) post es' :
  head_key (pre ++ (ka, va') :: es') = head_key (pre ++ [(ka, va); e] ++ post).
Proof. by destruct pre. Qed.

Section rebalance.
Context {St : Type} `{BTreeIOLaws St}.
Implicit Types st : St * list Z.

Lemma runs_push_value st c (Q : () -> St * list Z -> Prop) :
  0 < c < 2 ^ 64 -> Q () (st.1, st.2 ++ [c]) -> runs (push_value (le_bytes 8 c)) st Q.
Proof. intros Hc HQ. unfold push_value. rewrite u64_le_bytes by done. by apply runs_push. Qed.

Lemma runs_read_child st m r (es : list BTreeEntry) i k c n (Q : option BTreeNode -> St * list Z -> Prop) :
  io_rep st.1 m r -> es !! i = Some (ent k (le_bytes 8 c)) -> 0 < c < 2 ^ 64 -> m !! c = Some n ->
  Q (Some n) st -> runs (read_child es i) st Q.
Proof.
  intros Hr Hes Hc Hn HQ. unfold read_child. apply runs_bind. eapply runs_orpanic; [exact Hes|]. cbn [snd].
  rewrite u64_le_bytes by done. by eapply runs_peek.
Qed.

Lemma underfull_size es : node_underfull es = true -> (entries_size es < 2040)%nat.
Proof. unfold node_underfull, HEADER_SIZE. intros E%Nat.ltb_lt. change (NODE_SIZE / 2)%nat with 2048%nat in E. lia. Qed.

Lemma full_size es : node_underfull es = false -> (2040 <= entries_size es)%nat.
Proof. unfold node_underfull, HEADER_SIZE. intros E%Nat.ltb_ge. change (NODE_SIZE / 2)%nat with 2048%nat in E. lia. Qed.

Lemma fits_size es : node_fits es = true <-> Z.of_nat (entries_size es) <= 4088.
Proof. unfold node_fits, HEADER_SIZE. rewrite Nat.leb_le. unfold NODE_SIZE. lia. Qed.

Lemma borrow_left_ok st m r lo hi pre ka ca kb cb post kvs lss LA LB K :
  let es := pre ++ [(ent ka (le_bytes 8 ca)); (ent kb (le_bytes 8 cb))] ++ post in
  io_rep st.1 m r -> (2 <= r)%nat -> forest (tree true m 0) lo es hi kvs lss -> head_key es = Some [] ->
  0 < ca < 2 ^ 64 -> 0 < cb < 2 ^ 64 -> m !! ca = Some (mkNode Leaf LA) -> m !! cb = Some (mkNode Leaf LB) ->
  node_fits LA = true -> node_underfull LA = false -> node_underfull LB = true ->
  Forall (λ e : BTreeEntry, (length e.1 <= K)%nat) kvs ->
  runs (borrow_left es (length pre + 1) (mkNode Leaf LA) (mkNode Leaf LB)) st (rebalanced st m r lo hi es kvs lss K).
Proof.
  intros es Hr H2 Hf Hh Hca Hcb HA HB HfA HuA HuB HK.
  destruct (leaf_pair m lo hi pre ka ca kb cb post kvs lss LA LB) as (A & C & lA & lC & -> & -> & He & Hre & _); [done..|].
  apply full_size in HuA. apply underfull_size in HuB. apply fits_size in HfA.
  destruct (last LA) as [b|] eqn:Hlast; [|apply last_None in Hlast as ->; cbn in HuA; lia].
  apply last_Some in Hlast as [LA' ->]. rewrite !Forall_app in HK. destruct HK as (_ & ((_ & HKb) & _) & _).
  inversion HKb as [|? ? HKb' _]; subst. apply Forall_app in He as [HeA HeB].
  apply Forall_app in HeA as [HeA' Heb]. inversion Heb as [|? ? Heb' _]; subst.
  pose proof (eo_size _ Heb') as Hbs. assert (Z.of_nat MAX_ENTRY = 1362) as HME by done.
  rewrite entries_size_app, entries_size_cons in HuA, HfA. change (entries_size []) with 0%nat in HuA, HfA.
  assert (node_fits LA' = true) as Hf1 by (apply fits_size; lia).
  assert (node_fits (b :: LB) = true) as Hf2 by (apply fits_size; rewrite entries_size_cons; lia).
  unfold borrow_left. replace (length pre + 1 - 1)%nat with (length pre) by lia.
  apply runs_bind. eapply runs_orpanic; [apply pair_lookup_r|]. apply runs_bind. eapply runs_orpanic; [apply pair_lookup_l|].
  apply runs_bind, runs_push_value; [done|]. apply runs_bind, runs_push_value; [done|].
  apply runs_bind. eapply runs_orpanic; [apply last_snoc|]. cbn [entries node_type is_leaf].
  apply runs_bind. rewrite removelast_last. eapply (runs_write _ m r); [done|lia|by apply entry_ok_storable|].
  intros l1 st1 Ha1 Hn1 Hs1. apply runs_bind. rewrite is_leaf_Leaf.
  eapply (runs_write _ _ (r - 1)); [exact (step_ok_rep _ _ _ _ _ _ _ Hs1)|lia|apply entry_ok_storable; [by constructor|done]|].
  intros l2 st2 Ha2 Hn2 Hs2. apply runs_ret.
  pose proof (step_ok_trans _ _ _ _ _ _ _ _ _ _ _ Hs1 Hs2) as Hs. apply step_ok_push in Hs.
  apply (step_ok_push st) in Hs. eexists _, [l1; l2], [ca; cb], (lA ++ [l1; l2] ++ lC).
  split; [exact Hs|]. split; [done|].
  unfold es, set_key, set_child. rewrite pair_alter_r, pair_alter_l, pair_alter_r. cbn [snd fst].
  split; [|split; [|split]].
  - apply (Hre _ LA' (b :: LB)); try done.
    + by eapply step_ok_sub.
    + by rewrite <-app_assoc.
    + intros ->. change (entries_size []) with 0%nat in HuA. lia.
    + rewrite lookup_insert_ne by (intros ->; by rewrite lookup_insert_eq in Hn2). by rewrite lookup_insert_eq.
    + by rewrite lookup_insert_eq.
  - solve_Permutation.
  - apply head_key_pair.
  - rewrite !entries_size_app, !entries_size_cons. unfold entry_size. cbn [fst snd]. rewrite !length_le_bytes. lia.
Qed.

Lemma borrow_right_ok st m r lo hi pre ka ca kb cb post kvs lss LA LB K :
  let es := pre ++ [(ent ka (le_bytes 8 ca)); (ent kb (le_bytes 8 cb))] ++ post in
  io_rep st.1 m r -> (2 <= r)%nat -> forest (tree true m 0) lo es hi kvs lss -> head_key es = Some [] ->
  0 < ca < 2 ^ 64 -> 0 < cb < 2 ^ 64 -> m !! ca = Some (mkNode Leaf LA) -> m !! cb = Some (mkNode Leaf LB) ->
  node_fits LB = true -> node_underfull LA = true -> node_underfull LB = false ->
  Forall (λ e : BTreeEntry, (length e.1 <= K)%nat) kvs ->
  runs (borrow_right es (length pre) (mkNode Leaf LA) (mkNode Leaf LB)) st (rebalanced st m r lo hi es kvs lss K).
Proof.
  intros es Hr H2 Hf Hh Hca Hcb HA HB HfB HuA HuB HK.
  destruct (leaf_pair m lo hi pre ka ca kb cb post kvs lss LA LB) as (A & C & lA & lC & -> & -> & He & Hre & _); [done..|].
  apply full_size in HuB. apply underfull_size in HuA. apply fits_size in HfB.
  rewrite !Forall_app in HK. destruct HK as (_ & (_ & HKb) & _). apply Forall_app in He as [HeA HeB].
  assert (Z.of_nat MAX_ENTRY = 1362) as HME by done.
  destruct LB as [|b [|e R]]; [cbn in HuB; lia|exfalso|].
  { inversion HeB as [|? ? Heb _]; subst. pose proof (eo_size _ Heb). rewrite entries_size_cons in HuB.
    change (entries_size []) with 0%nat in HuB. lia. }
  inversion HeB as [|? ? Heb HeR]; subst. pose proof (eo_size _ Heb) as Hbs.
  inversion HKb as [|? ? _ HKR]; subst. inversion HKR as [|? ? HKe _]; subst.
  rewrite entries_size_cons in HuB, HfB.
  assert (node_fits (LA ++ [b]) = true) as Hf1.
  { apply fits_size. rewrite entries_size_app, entries_size_cons. change (entries_size []) with 0%nat. lia. }
  assert (node_fits (e :: R) = true) as Hf2 by (apply fits_size; lia).
  unfold borrow_right.
  apply runs_bind. eapply runs_orpanic; [apply pair_lookup_l|]. apply runs_bind. eapply runs_orpanic; [apply pair_lookup_r|].
  apply runs_bind, runs_push_value; [done|]. apply runs_bind, runs_push_value; [done|].
  apply runs_bind. eapply runs_orpanic; [done|]. cbn [entries node_type tail]. rewrite is_leaf_Leaf.
  apply runs_bind. apply runs_bind. eapply runs_orpanic; [done|]. apply runs_ret.
  apply runs_bind. eapply (runs_write _ m r); [done|lia| |].
  { apply entry_ok_storable; [|done]. apply Forall_app. split; [done|]. constructor; [done|constructor]. }
  intros l1 st1 Ha1 Hn1 Hs1. apply runs_bind.
  eapply (runs_write _ _ (r - 1)); [exact (step_ok_rep _ _ _ _ _ _ _ Hs1)|lia|by apply entry_ok_storable|].
  intros l2 st2 Ha2 Hn2 Hs2. apply runs_ret.
  pose proof (step_ok_trans _ _ _ _ _ _ _ _ _ _ _ Hs1 Hs2) as Hs. apply step_ok_push in Hs.
  apply (step_ok_push st) in Hs. eexists _, [l1; l2], [ca; cb], (lA ++ [l1; l2] ++ lC).
  split; [exact Hs|]. split; [done|].
  unfold es, set_key, set_child. rewrite pair_alter_r, pair_alter_l, pair_alter_r. cbn [snd fst].
  split; [|split; [|split]].
  - apply (Hre _ (LA ++ [b]) (e :: R)); try done.
    + by eapply step_ok_sub.
    + by rewrite <-app_assoc.
    + by destruct LA.
    + rewrite lookup_insert_ne by (intros ->; by rewrite lookup_insert_eq in Hn2). by rewrite lookup_insert_eq.
    + by rewrite lookup_insert_eq.
  - solve_Permutation.
  - apply head_key_pair.
  - rewrite !entries_size_app, !entries_size_cons. unfold entry_size. cbn [fst snd]. rewrite !length_le_bytes. lia.
Qed.

Lemma merge_pair_ok st m r lo hi pre ka ca kb cb post kvs lss LA LB K :
  let es := pre ++ [(ent ka (le_bytes 8 ca)); (ent kb (le_bytes 8 cb))] ++ post in
  io_rep st.1 m r -> (2 <= r)%nat -> forest (tree true m 0) lo es hi kvs lss -> head_key es = Some [] ->
  0 < ca < 2 ^ 64 -> 0 < cb < 2 ^ 64 -> m !! ca = Some (mkNode Leaf LA) -> m !! cb = Some (mkNode Leaf LB) ->
  node_underfull LA = true -> node_underfull LB = true ->
  runs (merge_pair es (length pre + 1) (mkNode Leaf LA) (mkNode Leaf LB)) st (rebalanced st m r lo hi es kvs lss K).
Proof.
  intros es Hr H2 Hf Hh Hca Hcb HA HB HuA HuB.
  destruct (leaf_pair m lo hi pre ka ca kb cb post kvs lss LA LB) as (A & C & lA & lC & -> & -> & He & _ & Hre); [done..|].
  apply underfull_size in HuA, HuB.
  assert (node_fits (LA ++ LB) = true) as Hfit by (apply fits_size; rewrite entries_size_app; lia).
  unfold merge_pair. replace (length pre + 1 - 1)%nat with (length pre) by lia.
  apply runs_bind. eapply runs_orpanic; [apply pair_lookup_r|]. apply runs_bind. eapply runs_orpanic; [apply pair_lookup_l|].
  apply runs_bind, runs_push_value; [done|]. apply runs_bind, runs_push_value; [done|].
  unfold merge_nodes. rewrite is_leaf_Leaf. cbn [entries node_type]. rewrite Hfit. cbn [negb].
  apply runs_bind. eapply (runs_write _ m r); [done|lia|by apply entry_ok_storable|].
  intros l1 st1 Ha1 Hn1 Hs1. apply runs_ret. apply step_ok_push in Hs1. apply (step_ok_push st) in Hs1.
  eexists _, [l1], [ca; cb], (lA ++ [l1] ++ lC). split; [exact Hs1|]. split; [simpl; lia|].
  unfold es, set_child. rewrite pair_alter_l, pair_delete_r. cbn [snd fst].
  split; [|split; [|split]].
  - apply Hre; try done; [by eapply step_ok_sub|by rewrite lookup_insert_eq].
  - solve_Permutation.
  - apply head_key_pair.
  - rewrite !entries_size_app, !entries_size_cons. unfold entry_size. cbn [fst snd]. rewrite !length_le_bytes.
    repeat change (entries_size []) with 0%nat. lia.
Qed.

Lemma forest_leaf (m : gmap Z BTreeNode) lo es hi kvs lss i k v :
  forest (tree true m 0) lo es hi kvs lss -> es !! i = Some (k, v) ->
  exists c L, v = le_bytes 8 c /\ 0 < c < 2 ^ 64 /\ m !! c = Some (mkNode Leaf L) /\ node_fits L = true.
Proof.
  intros Hf. revert i. induction Hf as [lo hi k0 c kvs ls HT _|lo hi k0 c k' v' es kvs1 kvs2 ls1 ls2 HT _ _ _ _ Hf IH]; intros i Hi.
  - destruct i as [|i]; [|done]. injection Hi as <- <-. exists c, kvs. split; [done|]. split; [by eapply tree_addr|].
    by apply leaf_inv in HT as (? & ? & ? & ? & ? & ?).
  - destruct i as [|i]; [|by apply (IH i)]. injection Hi as <- <-. exists c, kvs1. split; [done|]. split; [by eapply tree_addr|].
    by apply leaf_inv in HT as (? & ? & ? & ? & ? & ?).
Qed.

(** Two entries in sequence and the rest of the vector. *)
Lemma split_pair {A} (l : list A) j a b :
  l !! j = Some a -> l !! S j = Some b -> l = take j l ++ [a; b] ++ drop (S (S j)) l /\ length (take j l) = j.
Proof.
  intros Ha Hb. split; [|rewrite length_take; apply lookup_lt_Some in Ha; lia].
  rewrite <-(take_drop_middle l j a Ha) at 1. by rewrite (drop_S l b (S j) Hb).
Qed.

Lemma rebalanced_refl st m r lo hi es kvs lss K b :
  io_rep st.1 m r -> forest (tree true m 0) lo es hi kvs lss -> rebalanced st m r lo hi es kvs lss K (b, es) st.
Proof.
  intros Hr Hf. exists m, [], [], lss. split; [by apply step_ok_refl|]. split; [simpl; lia|]. split; [done|].
  split; [by rewrite app_nil_r|]. split; [done|simpl; lia].
Qed.

Section parent.
Context (st : St * list Z) (m : gmap Z BTreeNode) (r : nat) (lo hi : bound) (es kvs : list BTreeEntry) (lss : list Z) (K : nat).
Context (i : nat) (k : str) (c : Z) (L : list BTreeEntry).
Hypothesis (Hr : io_rep st.1 m r) (Hroom : (2 <= r)%nat) (Hf : forest (tree true m 0) lo es hi kvs lss).
Hypothesis (Hh : head_key es = Some []) (HK : Forall (λ e : BTreeEntry, (length e.1 <= K)%nat) kvs).
Hypothesis (Hi : es !! i = Some (ent k (le_bytes 8 c))) (Hc : 0 < c < 2 ^ 64) (Hm : m !! c = Some (mkNode Leaf L)).
Hypothesis (Hu : node_underfull L = true).

Lemma left_sibling : (0 < i)%nat -> exists ka ca LA,
  es !! (i - 1)%nat = Some (ent ka (le_bytes 8 ca)) /\ 0 < ca < 2 ^ 64 /\ m !! ca = Some (mkNode Leaf LA) /\ node_fits LA = true /\
  es = take (i - 1) es ++ [(ent ka (le_bytes 8 ca)); (ent k (le_bytes 8 c))] ++ drop (S i) es /\
  i = (length (take (i - 1) es) + 1)%nat.
Proof.
  intros Hpos. destruct (lookup_lt_is_Some_2 es (i - 1)) as [[ka va] Ha]; [pose proof (lookup_lt_Some _ _ _ Hi); lia|].
  destruct (forest_leaf _ _ _ _ _ _ _ _ _ Hf Ha) as (ca & LA & -> & Hca & HA & HfA). exists ka, ca, LA.
  assert (es !! S (i - 1) = Some (ent k (le_bytes 8 c))) as Hi' by (by replace (S (i - 1)) with i by lia).
  destruct (split_pair es (i - 1) _ _ Ha Hi') as [Heq Hlen]. replace (S (S (i - 1))) with (S i) in Heq by lia.
  split_and!; try done; lia.
Qed.

Lemma right_sibling : (i + 1 < length es)%nat -> exists kb cb LB,
  es !! (i + 1)%nat = Some (ent kb (le_bytes 8 cb)) /\ 0 < cb < 2 ^ 64 /\ m !! cb = Some (mkNode Leaf LB) /\ node_fits LB = true /\
  es = take i es ++ [(ent k (le_bytes 8 c)); (ent kb (le_bytes 8 cb))] ++ drop (S (S i)) es /\ i = length (take i es).
Proof.
  intros Hlt. destruct (lookup_lt_is_Some_2 es (i + 1) Hlt) as [[kb vb] Hb].
  destruct (forest_leaf _ _ _ _ _ _ _ _ _ Hf Hb) as (cb & LB & -> & Hcb & HB & HfB). exists kb, cb, LB.
  assert (es !! S i = Some (ent kb (le_bytes 8 cb))) as Hb' by (by rewrite <-Nat.add_1_r).
  destruct (split_pair es i _ _ Hi Hb') as [Heq Hlen]. split_and!; done || lia.
Qed.

Lemma merge_step_ok :
  (forall ka ca LA, es !! (i - 1)%nat = Some (ent ka (le_bytes 8 ca)) -> (0 < i)%nat -> m !! ca = Some (mkNode Leaf LA) ->
     0 < ca < 2 ^ 64 -> node_underfull LA = true) ->
  (forall kb cb LB, es !! (i + 1)%nat = Some (ent kb (le_bytes 8 cb)) -> m !! cb = Some (mkNode Leaf LB) ->
     0 < cb < 2 ^ 64 -> node_underfull LB = true) ->
  runs (merge_step es i (mkNode Leaf L)) st (rebalanced st m r lo hi es kvs lss K).
Proof.
  intros HL HR. unfold merge_step. destruct (Nat.ltb_spec 0 i) as [Hpos|Hz].
  - destruct (left_sibling Hpos) as (ka & ca & LA & Ha & Hca & HA & HfA & Heq & Hlen).
    apply runs_bind. eapply (runs_read_child _ m r); [done..|]. unfold merge_into_left.
    pose proof (merge_pair_ok st m r lo hi (take (i - 1) es) ka ca k c (drop (S i) es) kvs lss LA L K) as Hok.
    cbv zeta in Hok. rewrite <-Heq, <-Hlen in Hok. apply Hok; eauto.
  - destruct (Nat.ltb_spec (i + 1) (length es)) as [Hlt|Hge].
    + destruct (right_sibling Hlt) as (kb & cb & LB & Hb & Hcb & HB & HfB & Heq & Hlen).
      apply runs_bind. eapply (runs_read_child _ m r); [done..|]. unfold merge_into_right.
      pose proof (merge_pair_ok st m r lo hi (take i es) k c kb cb (drop (S (S i)) es) kvs lss L LB K) as Hok.
      cbv zeta in Hok. rewrite <-Heq, <-Hlen in Hok. apply Hok; eauto.
    + apply runs_ret. by apply rebalanced_refl.
Qed.

Lemma right_step_ok :
  (forall ka ca LA, es !! (i - 1)%nat = Some (ent ka (le_bytes 8 ca)) -> (0 < i)%nat -> m !! ca = Some (mkNode Leaf LA) ->
     0 < ca < 2 ^ 64 -> node_underfull LA = true) ->
  runs (right_step es i (mkNode Leaf L)) st (rebalanced st m r lo hi es kvs lss K).
Proof.
  intros HL. unfold right_step. destruct (Nat.ltb_spec (i + 1) (length es)) as [Hlt|Hge].
  - destruct (right_sibling Hlt) as (kb & cb & LB & Hb & Hcb & HB & HfB & Heq & Hlen).
    apply runs_bind. eapply (runs_read_child _ m r); [done..|]. cbn [entries].
    destruct (node_underfull LB) eqn:HuB; cbn [negb].
    + apply merge_step_ok; [done|]. intros kb' cb' LB' Hb' HB' Hcb'. rewrite Hb in Hb'.
      assert (le_bytes 8 cb = le_bytes 8 cb') as E%addr_inj by congruence; [congruence|done..].
    + pose proof (borrow_right_ok st m r lo hi (take i es) k c kb cb (drop (S (S i)) es) kvs lss L LB K) as Hok.
      cbv zeta in Hok. rewrite <-Heq, <-Hlen in Hok. apply Hok; eauto.
  - apply merge_step_ok; [done|]. intros kb cb LB Hb%lookup_lt_Some. lia.
Qed.

Lemma try_borrow_or_merge_ok :
  runs (try_borrow_or_merge es i) st (rebalanced st m r lo hi es kvs lss K).
Proof.
  unfold try_borrow_or_merge. destruct (Nat.eqb_spec (length es) 0) as [Hz0|_].
  { pose proof (lookup_lt_Some _ _ _ Hi). lia. }
  apply runs_bind. eapply (runs_read_child _ m r); [done..|]. cbn [entries]. rewrite Hu. cbn [negb].
  destruct (Nat.ltb_spec 0 i) as [Hpos|Hz].
  - destruct (left_sibling Hpos) as (ka & ca & LA & Ha & Hca & HA & HfA & Heq & Hlen).
    apply runs_bind. eapply (runs_read_child _ m r); [done..|]. cbn [entries].
    destruct (node_underfull LA) eqn:HuA; cbn [negb].
    + apply right_step_ok. intros ka' ca' LA' Ha' _ HA' Hca'. rewrite Ha in Ha'.
      assert (le_bytes 8 ca = le_bytes 8 ca') as E%addr_inj by congruence; [congruence|done..].
    + pose proof (borrow_left_ok st m r lo hi (take (i - 1) es) ka ca k c (drop (S i) es) kvs lss LA L K) as Hok.
      cbv zeta in Hok. rewrite <-Heq, <-Hlen in Hok. apply Hok; eauto.
  - apply right_step_ok. intros. lia.
Qed.

End parent.

End rebalance.

(** ** Deleting *)

Lemma bt_remove_absent (es : list BTreeEntry) k : (forall x, x ∈ es.*1 -> x ≠ k) -> bt_remove es k = es.
Proof. intros Hx. by apply bt_remove_id, bt_get_not_in. Qed.

Lemma leaf_delete es k :
  bt_sorted es -> match find_pos es k with Ok pos => delete pos es | Err _ => es end = bt_remove es k.
Proof.
  intros Hs. pose proof (find_pos_spec es k Hs) as Hf. pose proof (leaf_search es k Hs) as Hg.
  destruct (find_pos es k) as [i|i]; [|symmetry; by apply bt_remove_id].
  destruct Hf as [v Hv]. pose proof (sorted_split_keys es i _ Hs Hv) as [Hlt _].
  rewrite <-(take_drop_middle es i _ Hv) in Hs |- *.
  assert (i = length (take i es)) as Hi by (rewrite length_take; apply lookup_lt_Some in Hv; lia).
  rewrite Hi at 1. rewrite delete_middle.
  apply bt_sorted_app_inv in Hs as (_ & Hs2 & _). inversion Hs2 as [|? ? _ Hall]; subst.
  rewrite Forall_forall in Hall. rewrite bt_remove_app. simpl. rewrite decide_True by done.
  rewrite !bt_remove_absent; [done|..].
  - intros x Hx <-. specialize (Hall x Hx). by rewrite key_lt_irrefl in Hall.
  - intros x Hx. by apply key_lt_ne, Hlt.
Qed.

Lemma bt_remove_Forall (P : BTreeEntry -> Prop) es k : Forall P es -> Forall P (bt_remove es k).
Proof. rewrite !Forall_forall. intros Hes x Hx%bt_remove_elem. auto. Qed.

Lemma bt_remove_size (es : list BTreeEntry) k : (entries_size (bt_remove es k) <= entries_size es)%nat.
Proof.
  induction es as [|[k' v'] es IH]; [done|]. cbn [bt_remove]. case_decide; rewrite !entries_size_cons; lia.
Qed.

Lemma middle_remove (A B C : list BTreeEntry) k :
  (forall x, x ∈ A.*1 -> key_lt x k = true) -> (forall x, x ∈ C.*1 -> key_lt k x = true) ->
  bt_remove (A ++ B ++ C) k = A ++ bt_remove B k ++ C.
Proof.
  intros HA HC. rewrite !bt_remove_app, (bt_remove_absent A), (bt_remove_absent C); [done|..].
  - intros x Hx E. by apply (key_lt_ne k x); [apply HC|].
  - intros x Hx. by apply key_lt_ne, HA.
Qed.

Lemma leaf_widenable strict m : widenable (tree strict m 0).
Proof.
  intros lo hi lo2 hi2 c kvs ls (Ha & Hm & Hs & Hi & Hrest) Hlo Hhi. split; [done|]. split; [done|]. split; [done|].
  split; [|done]. eapply Forall_impl; [exact Hi|]. intros k [? ?]. split; [by eapply lo_le_above|by eapply hi_le_below].
Qed.

Section deletion.
Context {St : Type} `{BTreeIOLaws St}.
Implicit Types st : St * list Z.

Lemma step_ok_push_end st m r st' m' fresh gn l :
  step_ok st m r st' m' fresh gn -> step_ok st m r (st'.1, st'.2 ++ [l]) m' fresh (gn ++ [l]).
Proof. intros [? ? Hg ? ?]. constructor; try done. cbn [snd]. by rewrite Hg, app_assoc. Qed.

(** The outcome of deleting [key] below a node: [None] when nothing is left. *)
Definition deleted (strict : bool) (d : nat) (lo hi : bound) (kvs : list BTreeEntry) (ls : list Z) (m' : gmap Z BTreeNode)
    (fresh gn : list Z) (res : option Z) : Prop :=
  match res with
  | None => kvs = [] /\ gn ≡ₚ fresh ++ ls
  | Some l' => exists d' ls', (d' <= d)%nat /\ tree strict m' d' lo hi l' kvs ls' /\ ls' ++ gn ≡ₚ fresh ++ ls
  end.

Lemma del_leaf f strict st m r lo hi l kvs ls key :
  io_rep st.1 m r -> (1 <= r)%nat -> tree strict m 0 lo hi l kvs ls ->
  runs (del (S f) l key) st (λ res st', exists m' fresh gn, step_ok st m r st' m' fresh gn /\ (length fresh <= 1)%nat /\
    deleted strict 0 lo hi (bt_remove kvs key) ls m' fresh gn res /\
    forall l', res = Some l' -> m' !! l' = Some (mkNode Leaf (bt_remove kvs key))).
Proof.
  intros Hr H1 Ht. apply leaf_inv in Ht as (Hl & Hs & Hi & He & Hfit & ->).
  cbn [del]. apply runs_bind. eapply runs_read; [done..|]. apply runs_bind, runs_push. cbn [entries node_type].
  rewrite is_leaf_Leaf, leaf_delete by done. destruct (Nat.eqb_spec (length (bt_remove kvs key)) 0) as [E%length_zero_iff_nil|E].
  - apply runs_ret. exists m, [], [l]. split; [|split; [simpl; lia|split; [done|done]]].
    by apply step_ok_push, step_ok_refl.
  - apply runs_bind. assert (node_fits (bt_remove kvs key) = true) as Hfit'.
    { apply fits_size in Hfit. apply fits_size. pose proof (bt_remove_size kvs key). lia. }
    eapply (runs_write _ m r); [done..|apply entry_ok_storable; [by apply bt_remove_Forall|done]|].
    intros l' st' Ha Hn Hs'. apply runs_ret. apply step_ok_push in Hs'. eexists _, [l'], [l].
    split; [exact Hs'|]. split; [done|]. split.
    + exists 0%nat, [l']. split; [done|]. split; [|solve_Permutation]. apply tree_leaf; try done.
      * by rewrite lookup_insert_eq.
      * by apply bt_remove_sorted.
      * rewrite Forall_forall in Hi |- *. intros x (e & -> & Hx%bt_remove_elem)%list_elem_of_fmap.
        apply Hi. apply list_elem_of_fmap. eauto.
      * by apply bt_remove_Forall.
    + intros ? [= <-]. by rewrite lookup_insert_eq.
Qed.

Lemma head_empty_key es : head_empty es <-> head_key es = Some [].
Proof.
  split; [by intros (v & es' & ->)|]. destruct es as [|[k v] es]; [done|]. intros [= ->]. by exists v, es.
Qed.

(** Writing the root back after its child [i] was replaced: it is rebalanced
    first when the new child is underfull. *)
Lemma del_root_keep st m r es kvs lss i ki c L K :
  io_rep st.1 m r -> (3 <= r)%nat -> forest (tree true m 0) None es None kvs lss -> head_empty es ->
  es !! i = Some (ent ki (le_bytes 8 c)) -> 0 < c < 2 ^ 64 -> m !! c = Some (mkNode Leaf L) ->
  Forall (λ e : BTreeEntry, (length e.1 <= K)%nat) kvs -> (HEADER_SIZE + entries_size es + K <= NODE_SIZE)%nat ->
  runs ('(_, new) ← (if node_underfull L then try_borrow_or_merge es i else mret (true, es));
        lba ← writeM Internal new; mret (Some lba)) st
    (λ res st', exists m' fresh gn, step_ok st m r st' m' fresh gn /\ (length fresh <= 3)%nat /\
      exists l' lss', res = Some l' /\ tree true m' 1 None None l' kvs (l' :: lss') /\ (l' :: lss') ++ gn ≡ₚ fresh ++ lss).
Proof.
  intros Hr H3 Hf Hh Hi Hc Hm HK Hfit. apply head_empty_key in Hh. apply runs_bind.
  assert (runs (if node_underfull L then try_borrow_or_merge es i else mret (true, es)) st
    (rebalanced st m r None None es kvs lss K)) as Hreb.
  { destruct (node_underfull L) eqn:Hu.
    - eapply (try_borrow_or_merge_ok st m r None None es kvs lss K i ki c L); try done; lia.
    - by apply runs_ret, rebalanced_refl. }
  eapply runs_impl; [exact Hreb|]. intros [b new] st1 (m1 & f1 & g1 & lss1 & Hs1 & Hlen & Hf1 & Hperm & Hk1 & Hsz).
  cbn [snd] in *. apply runs_bind.
  eapply runs_impl; [eapply (write_internal true _ m1 (r - length f1)); [by eapply step_ok_rep|lia|done| |]|].
  { unfold node_fits. apply Nat.leb_le. lia. }
  { intros _. apply head_empty_key. by rewrite Hk1. }
  intros l' st2 (m2 & Hs2 & _ & Ht). apply runs_ret. exists m2, (f1 ++ [l']), g1.
  pose proof (step_ok_trans _ _ _ _ _ _ _ _ _ _ _ Hs1 Hs2) as Hs. rewrite app_nil_r in Hs.
  split; [done|]. split; [rewrite length_app; simpl; lia|]. exists l', lss1. split; [done|]. split; [done|].
  transitivity (l' :: (lss1 ++ g1)); [solve_Permutation|]. rewrite Hperm. solve_Permutation.
Qed.

(** The root without the child that became empty. *)
Lemma del_root_erase st m r es i kvs lss :
  io_rep st.1 m r -> (1 <= r)%nat -> (delete i es = [] -> kvs = [] /\ lss = []) ->
  (delete i es ≠ [] -> forest (tree false m 0) None (delete i es) None kvs lss) -> node_fits (delete i es) = true ->
  runs (if (length (delete i es) =? 0)%nat then mret None else lba ← writeM Internal (delete i es); mret (Some lba)) st
    (λ res st', exists m' fresh, step_ok st m r st' m' fresh [] /\ (length fresh <= 1)%nat /\
      match res with
      | None => kvs = [] /\ lss = [] /\ fresh = []
      | Some l' => tree false m' 1 None None l' kvs (l' :: lss) /\ fresh = [l']
      end).
Proof.
  intros Hr H1 Hnil Hf Hfit. destruct (Nat.eqb_spec (length (delete i es)) 0) as [E%length_zero_iff_nil|E].
  - apply runs_ret. exists m, []. split; [by apply step_ok_refl|]. split; [simpl; lia|]. by destruct (Hnil E) as [-> ->].
  - apply runs_bind. eapply runs_impl; [eapply (write_internal false _ m r); try done; apply Hf; intros Hd; by rewrite Hd in E|].
    intros l' st' (m' & Hs & _ & Ht). apply runs_ret. exists m', [l']. by split_and!.
Qed.

Lemma delete_fits es i : node_fits es = true -> node_fits (delete i es) = true.
Proof.
  rewrite !fits_size, delete_take_drop. destruct (es !! i) as [e|] eqn:Hi.
  - rewrite <-(take_drop_middle es i e Hi) at 1. rewrite !entries_size_app, entries_size_cons. lia.
  - apply lookup_ge_None in Hi. rewrite take_ge, drop_ge, app_nil_r by lia. done.
Qed.

(** Deletion at a root over leaves. *)
Lemma del_root st m r l kvs ls key K es :
  io_rep st.1 m r -> (4 <= r)%nat -> tree true m 1 None None l kvs ls -> m !! l = Some (mkNode Internal es) ->
  Forall (λ e : BTreeEntry, (length e.1 <= K)%nat) kvs -> (HEADER_SIZE + entries_size es + K <= NODE_SIZE)%nat ->
  runs (del 2 l key) st (λ res st', exists m' fresh gn, step_ok st m r st' m' fresh gn /\ (length fresh <= 4)%nat /\
    deleted false 1 None None (bt_remove kvs key) ls m' fresh gn res).
Proof.
  intros Hr H4 (Ha & es' & lss & Hl & Hfit & Hh & Hf & ->) Hes HK Hsz. rewrite Hl in Hes. injection Hes as ->.
  pose proof (forest_sorted_keys _ _ _ _ _ _ Hf) as Hs.
  destruct (forest_cons_inv _ _ _ _ _ _ Hf) as (e0 & es0 & Hes).
  destruct (child_index_spec es key Hs) as (Hi & Hle & Hgt); [by rewrite Hes|].
  destruct (forest_focus (tree true m 0) None es None kvs lss key (child_index es key))
    as (ki & c & lo' & hi' & A & B & C & lA & lB & lC & He & HB & -> & -> & Hk & HA & HC & Hsep & Hbef & Haft);
    eauto using tree_bounded; [done|].
  pose proof (tree_addr _ _ _ _ _ _ _ _ HB) as Hc.
  remember 1%nat as f. cbn [del]. subst f. apply runs_bind. eapply runs_read; [done..|]. apply runs_bind, runs_push.
  cbn [entries node_type]. rewrite is_leaf_Internal. apply runs_bind. eapply runs_orpanic; [exact He|].
  apply runs_bind. cbn [snd]. eapply runs_question; [by apply u64_le_bytes|].
  apply runs_bind. eapply runs_impl; [eapply (del_leaf 0 true _ m r); [done|lia|exact HB]|].
  intros res st1 (m1 & f1 & g1 & Hs1 & Hlen1 & Hdel & Hnode). pose proof (so_sub _ _ _ _ _ _ _ Hs1) as Hm1.
  apply step_ok_push in Hs1. rewrite (middle_remove A B C key) by done. destruct res as [c'|]; cbn [deleted] in Hdel.
  - destruct Hdel as (d' & lB' & Hd & HB' & Hperm). assert (d' = 0%nat) as -> by lia.
    apply runs_bind. eapply runs_peek; [by eapply step_ok_rep|by apply Hnode|]. cbn [entries].
    rewrite (set_child_eq _ _ _ _ _ He). set (i := child_index es key) in *.
    assert (forest (tree true m1 0) None (take i es ++ (ent ki (le_bytes 8 c')) :: drop (S i) es) None
      (A ++ bt_remove B key ++ C) (lA ++ lB' ++ lC)) as Hf1.
    { apply (forest_refill (tree true m 0) (tree true m1 0) None _ lo' ki (le_bytes 8 c') [] hi'); try done.
      - intros. by eapply tree_mono.
      - by constructor. }
    eapply runs_impl; [eapply (del_root_keep _ m1 (r - length f1) _ _ _ i ki c' (bt_remove B key) K)|].
    { by eapply step_ok_rep. } { lia. } { exact Hf1. } { eapply head_empty_replace; [by apply Hh|exact He]. }
    { rewrite lookup_app_r by (rewrite length_take; lia). rewrite length_take, Nat.min_l by lia. by rewrite Nat.sub_diag. }
    { by eapply tree_addr. } { by apply Hnode. }
    { rewrite !Forall_app in HK |- *. destruct HK as (? & ? & ?). split_and!; try done. by apply bt_remove_Forall. }
    { by rewrite (set_child_size es i ki c). }
    intros res st2 (m2 & f2 & g2 & Hs2 & Hlen2 & l' & lss' & -> & Ht & Hperm2).
    exists m2, (f1 ++ f2), ((l :: g1) ++ g2). split; [exact (step_ok_trans _ _ _ _ _ _ _ _ _ _ _ Hs1 Hs2)|].
    split; [rewrite length_app; lia|]. exists 1%nat, (l' :: lss'). split; [done|]. split; [by apply tree_weaken|].
    transitivity (l :: g1 ++ ((l' :: lss') ++ g2)); [solve_Permutation|]. rewrite Hperm2.
    transitivity (f2 ++ l :: lA ++ lC ++ (lB' ++ g1)); [solve_Permutation|]. rewrite Hperm. solve_Permutation.
  - destruct Hdel as [-> Hperm]. cbn [app].
    eapply runs_impl; [apply (del_root_erase _ m1 (r - length f1) es (child_index es key) (A ++ C) (lA ++ lC))|].
    { by eapply step_ok_rep. } { lia. }
    { rewrite delete_take_drop. intros [E1 E2]%app_nil. rewrite E1 in Hbef. rewrite E2 in Haft.
      destruct Hbef as [(_ & _ & -> & ->)|(_ & Hfn & _)]; [|by inversion Hfn].
      destruct Haft as [(_ & _ & -> & ->)|(? & ? & ? & [=] & _)]. done. }
    { rewrite delete_take_drop. intros Hne. apply (forest_mono (tree true m 0)).
      { intros. apply tree_weaken. by eapply tree_mono. }
      eapply forest_erase; [apply leaf_widenable|done..]. }
    { by apply delete_fits. }
    intros res st2 (m2 & f2 & Hs2 & Hlen2 & Hres). exists m2, (f1 ++ f2), ((l :: g1) ++ []).
    split; [exact (step_ok_trans _ _ _ _ _ _ _ _ _ _ _ Hs1 Hs2)|]. split; [rewrite length_app; lia|].
    destruct res as [l'|].
    + destruct Hres as [Ht ->]. exists 1%nat, (l' :: lA ++ lC). split; [done|]. split; [done|].
      rewrite app_nil_r. transitivity (l' :: l :: lA ++ lC ++ g1); [solve_Permutation|]. rewrite Hperm. solve_Permutation.
    + destruct Hres as (-> & [-> ->]%app_nil & ->). split; [done|]. rewrite !app_nil_r. simpl. rewrite Hperm. solve_Permutation.
Qed.

Lemma collapse_root_ok st m r st1 m1 d kvs ls fresh gn res :
  step_ok st m r st1 m1 fresh gn -> deleted false d None None kvs ls m1 fresh gn res ->
  runs (collapse_root res) st1 (λ res' st', exists gn', step_ok st m r st' m1 fresh gn' /\
    deleted false d None None kvs ls m1 fresh gn' res').
Proof.
  intros Hs Hd. destruct res as [l|]; cbn [collapse_root]; [|apply runs_ret; by exists gn].
  destruct Hd as (d' & ls' & Hle & Ht & Hperm). destruct (tree_root _ _ _ _ _ _ _ _ Ht) as [n Hn].
  apply runs_bind. eapply runs_peek; [by eapply step_ok_rep|exact Hn|].
  assert (runs (mret (Some l)) st1 (λ res' st', exists gn', step_ok st m r st' m1 fresh gn' /\
    deleted false d None None kvs ls m1 fresh gn' res')) as Hstop.
  { apply runs_ret. exists gn. split; [done|]. by exists d', ls'. }
  destruct n as [[|] [|e [|e2 es]]]; try exact Hstop.
  destruct d' as [|d']; [apply leaf_inv in Ht as [Hl _]; by rewrite Hn in Hl|].
  destruct Ht as (_ & es & lss & Hl & _ & _ & Hf & ->). rewrite Hn in Hl. injection Hl as <-.
  inversion Hf as [? ? k c ? ? Hc _|]; subst. cbn [snd]. rewrite u64_le_bytes by (by eapply tree_addr).
  apply runs_bind, runs_push, runs_ret. exists (gn ++ [l]). split; [by apply step_ok_push_end|].
  exists d', lss. split; [lia|]. split; [done|]. rewrite <-Hperm. solve_Permutation.
Qed.

Lemma delete_tracked_runs st m r d root kvs ls key K :
  io_rep st.1 m r -> (d <= 1)%nat -> rooted true m d root kvs ls -> (4 <= r)%nat ->
  Forall (λ e : BTreeEntry, (length e.1 <= K)%nat) kvs ->
  (forall es, m !! root = Some (mkNode Internal es) -> HEADER_SIZE + entries_size es + K <= NODE_SIZE)%nat ->
  runs (delete_tracked 2 root key) st (λ res st', exists m' fresh gn, step_ok st m r st' m' fresh gn /\
    (length fresh <= 4)%nat /\ deleted false d None None (bt_remove kvs key) ls m' fresh gn res).
Proof.
  intros Hr Hd Hroot H4 HK Hsz. unfold delete_tracked. destruct Hroot as [(-> & -> & ->)|Ht].
  { apply runs_ret. exists m, [], []. split; [by apply step_ok_refl|]. by split; [simpl; lia|]. }
  pose proof (tree_addr _ _ _ _ _ _ _ _ Ht). destruct (Z.eqb_spec root 0); [lia|]. apply runs_bind.
  assert (runs (del 2 root key) st (λ res st', exists m' fresh gn, step_ok st m r st' m' fresh gn /\
    (length fresh <= 4)%nat /\ deleted false d None None (bt_remove kvs key) ls m' fresh gn res)) as Hdel.
  { destruct d as [|[|d]]; [| |lia].
    - eapply runs_impl; [eapply (del_leaf 1 false _ m r); [done|lia|by apply tree_weaken]|].
      intros res st' (m' & f & g & ? & ? & ? & _). exists m', f, g. split_and!; try done; lia.
    - assert (Ht2 := Ht). destruct Ht2 as (_ & es & lss & Hl & _).
      eapply (del_root _ m r); try done. by apply Hsz. }
  eapply runs_impl; [exact Hdel|]. intros res st1 (m1 & f1 & g1 & Hs1 & Hlen & Hres).
  eapply runs_impl; [by eapply (collapse_root_ok _ _ _ _ _ d)|]. intros res' st2 (g2 & Hs2 & Hres2). by exists m1, f1, g2.
Qed.

End deletion.
