(* ===== verification/NeoBTree.v ===== *)
(** * NeoBTree.v: what the B-tree promises its callers

    The contract of [lookup], [walk], [insert_tracked] and [delete_tracked] over
    any node store that satisfies [BTreeIOLaws], stated on what a caller sees:
    the answers of [lookup] and [walk] on the new and on the old root, and the list
    of replaced addresses. *)

From stdpp Require Import gmap.
From S2P Require Import Prelude Str BTreeMap Bytes BNode NeoTree NeoForest NeoInsert MemIO NeoDelete.
Open Scope Z_scope.

Section contract.
Context {St : Type} `{BTreeIOLaws St}.

Lemma bt_get_insert (kvs : list BTreeEntry) key v k :
  bt_get (bt_insert kvs key v) k = if decide (k = key) then Some v else bt_get kvs k.
Proof. case_decide as E; [subst; apply bt_get_insert_eq|apply bt_get_insert_ne; congruence]. Qed.

Lemma bt_get_remove (kvs : list BTreeEntry) key k :
  bt_get (bt_remove kvs key) k = if decide (k = key) then None else bt_get kvs k.
Proof. case_decide as E; [subst; apply bt_get_remove_eq|apply bt_get_remove_ne; congruence]. Qed.

(** What a caller reads at a root: the entries [kvs], in key order. *)
Definition reads_as (d : nat) (s : St) (root : Z) (kvs : list BTreeEntry) : Prop :=
  walk (S d) s root = Some kvs /\ forall k, lookup (S d) s root k = Some (bt_get kvs k).

Lemma rooted_reads strict s m r d root kvs ls : io_rep s m r -> rooted strict m d root kvs ls -> reads_as d s root kvs.
Proof.
  intros Hr Ht. split; [|intros k; by eapply rooted_lookup]. unfold walk.
  destruct Ht as [(-> & -> & _)|Ht]; [done|]. pose proof (tree_addr _ _ _ _ _ _ _ _ Ht).
  destruct (tree_root _ _ _ _ _ _ _ _ Ht) as [n Hn].
  destruct (Z.eqb_spec root 0); [lia|]. rewrite (io_read s m r root n Hr Hn). by eapply walk_tree.
Qed.

(** C9. Insertion refines the update of a map.  On a well-formed tree of depth
    [d] (or the empty tree, address 0) in any store with room for [2 d + 3] nodes,
    inserting an entry of at most 1362 bytes returns a new root, without panic and
    without recursing deeper than the tree; the new root is again well formed, its
    [walk] lists the old contents with the entry inserted or replaced in key order,
    and [lookup] answers the new value for the key and the old answer for every
    other key. *)
Theorem insert_tracked_refines_map (s : St) g m r d root kvs ls key v :
  io_rep s m r -> rooted true m d root kvs ls -> entry_ok (key, v) -> (2 * d + 3 <= r)%nat ->
  exists root' s' g' m' r' d' ls', insert_tracked (S d) root key v (s, g) = Some (Some root', (s', g')) /\
    io_rep s' m' r' /\ (r <= r' + (2 * d + 3))%nat /\ (d' <= S d)%nat /\
    rooted true m' d' root' (bt_insert kvs key v) ls' /\ reads_as d' s' root' (bt_insert kvs key v) /\
    forall k, lookup (S d') s' root' k = Some (if decide (k = key) then Some v else bt_get kvs k).
Proof.
  intros Hr Ht Hkv Hroom. destruct (insert_tracked_runs (s, g) m r d root kvs ls key v Hr Ht Hkv Hroom)
    as (root' & [s' g'] & Hrun & m' & fresh & gn & d' & ls' & Hs & Hlen & Hd & Ht' & Hperm).
  destruct Hs as [Hr' _ _ _ _]. cbn [fst] in Hr'.
  exists root', s', g', m', (r - length fresh)%nat, d', ls'. split_and!; try done; [lia|by right|eapply rooted_reads; [exact Hr'|by right]|].
  intros k. rewrite (lookup_tree true d' s' m' _ root' _ _ k Hr' Ht'). by rewrite bt_get_insert.
Qed.

(** What a caller may conclude from an update that replaced the tree with the
    addresses [ls] by one with the addresses [ls'] and listed [gn] as garbage. *)
Lemma garbage_exact (st st' : St * list Z) m r m' fresh gn strict d root kvs ls ls' :
  io_rep st.1 m r ->
  step_ok st m r st' m' fresh gn -> rooted strict m d root kvs ls -> NoDup ls -> ls' ++ gn ≡ₚ fresh ++ ls ->
  NoDup (ls' ++ gn) /\ (forall a, a ∈ gn -> is_Some (m !! a) -> a ∈ ls) /\ (forall a, a ∈ ls -> a ∈ ls' \/ a ∈ gn) /\
  reads_as d st'.1 root kvs.
Proof.
  intros Hr [Hr' Hsub _ Hnf Hfr] Ht Hnd Hperm. rewrite Forall_forall in Hfr.
  assert (forall a, a ∈ ls -> is_Some (m !! a)) as Hls.
  { intros a Ha. destruct Ht as [(_ & _ & ->)|Ht]; [by apply not_elem_of_nil in Ha|].
    apply tree_nodes in Ht. rewrite Forall_forall in Ht. by apply Ht. }
  split; [|split; [|split]].
  - rewrite Hperm. apply NoDup_app. split_and!; try done. intros a [Hn _]%Hfr [n Hl]%Hls. congruence.
  - intros a Ha [n Hn]. assert (a ∈ fresh ++ ls) as [Hf|?]%elem_of_app; [|by apply Hfr in Hf as [? _]; congruence|done].
    rewrite <-Hperm. apply elem_of_app. by right.
  - intros a Ha. apply elem_of_app. rewrite Hperm. apply elem_of_app. by right.
  - eapply rooted_reads; [exact Hr'|]. by eapply rooted_mono.
Qed.

(** C10. Copy on write, for an entry of at most 1362 bytes and a store with room for
    [2 d + 3] nodes: insertion leaves the old tree readable, so a snapshot
    that kept the old root still sees the old contents; and the garbage list is
    exact: no address on it is reachable from the new root, none is listed twice,
    none belongs to another tree of the store, and every node of the old tree is
    either reused by the new one or listed, so freeing the list neither frees a
    live node nor leaks one. *)
Theorem insert_tracked_copy_on_write (s : St) g m r d root kvs ls key v :
  io_rep s m r -> rooted true m d root kvs ls -> NoDup ls -> entry_ok (key, v) -> (2 * d + 3 <= r)%nat ->
  exists root' s' gn d' ls', insert_tracked (S d) root key v (s, g) = Some (Some root', (s', g ++ gn)) /\
    reads_as d s root kvs /\ reads_as d s' root kvs /\
    walk_lbas (S d') s' root' = Some ls' /\ NoDup (ls' ++ gn) /\
    (forall a, a ∈ gn -> is_Some (m !! a) -> a ∈ ls) /\ (forall a, a ∈ ls -> a ∈ ls' \/ a ∈ gn).
Proof.
  intros Hr Ht Hnd Hkv Hroom. destruct (insert_tracked_runs (s, g) m r d root kvs ls key v Hr Ht Hkv Hroom)
    as (root' & [s' g'] & Hrun & m' & fresh & gn & d' & ls' & Hs & Hlen & Hd & Ht' & Hperm).
  destruct (garbage_exact (s, g) _ _ _ _ _ _ _ _ _ _ _ _ Hr Hs Ht Hnd Hperm) as (H1 & H2 & H3 & H4).
  pose proof (so_garbage _ _ _ _ _ _ _ Hs) as Hg. pose proof (step_ok_rep _ _ _ _ _ _ _ Hs) as Hr'. cbn [fst snd] in *. subst g'.
  exists root', s', gn, d', ls'. split_and!; try done; [by eapply rooted_reads|by eapply walk_lbas_tree].
Qed.

(** C11. Deletion on trees of at most two levels (a leaf, or a root over leaves
    with room for one more key of the tree) refines the removal of a key: it
    returns without panic; [None] means that nothing is left, and otherwise [walk]
    lists the old contents without the key and [lookup] finds every other key and
    not this one, through every way of borrowing from and merging with a sibling,
    dropping an emptied leaf and replacing the root by its only child.  The old
    root still reads the old contents, and no garbage address is reachable from
    the new root. *)
Theorem delete_tracked_refines_map (s : St) g m r d root kvs ls key K :
  io_rep s m r -> (d <= 1)%nat -> rooted true m d root kvs ls -> NoDup ls -> (4 <= r)%nat ->
  Forall (λ e : BTreeEntry, (length e.1 <= K)%nat) kvs ->
  (forall es, m !! root = Some (mkNode Internal es) -> HEADER_SIZE + entries_size es + K <= NODE_SIZE)%nat ->
  exists res s' gn, delete_tracked 2 root key (s, g) = Some (Some res, (s', g ++ gn)) /\
    reads_as d s root kvs /\ reads_as d s' root kvs /\
    (forall a, a ∈ gn -> is_Some (m !! a) -> a ∈ ls) /\
    match res with
    | None => bt_remove kvs key = [] /\ forall a, a ∈ ls -> a ∈ gn
    | Some root' => exists d' ls', (d' <= d)%nat /\ reads_as d' s' root' (bt_remove kvs key) /\
        (forall k, lookup (S d') s' root' k = Some (if decide (k = key) then None else bt_get kvs k)) /\
        walk_lbas (S d') s' root' = Some ls' /\ NoDup (ls' ++ gn) /\ (forall a, a ∈ ls -> a ∈ ls' \/ a ∈ gn)
    end.
Proof.
  intros Hr Hd Ht Hnd Hroom HK Hsz. destruct (delete_tracked_runs (s, g) m r d root kvs ls key K)
    as (res & [s' g'] & Hrun & m' & fresh & gn & Hs & Hlen & Hdel); [done..|].
  pose proof (so_garbage _ _ _ _ _ _ _ Hs) as Hg. pose proof (step_ok_rep _ _ _ _ _ _ _ Hs) as Hr'. cbn [fst snd] in *. subst g'.
  exists res, s', gn. split; [done|]. destruct res as [root'|]; cbn [deleted] in Hdel.
  - destruct Hdel as (d' & ls' & Hle & Ht' & Hperm).
    destruct (garbage_exact (s, g) _ _ _ _ _ _ _ _ _ _ _ _ Hr Hs Ht Hnd Hperm) as (H1 & H2 & H3 & H4).
    split; [by eapply rooted_reads|]. split; [done|]. split; [done|]. exists d', ls'. split_and!; try done.
    + eapply rooted_reads; [exact Hr'|by right].
    + intros k. rewrite (lookup_tree _ _ _ _ _ _ _ _ k Hr' Ht'). by rewrite bt_get_remove.
    + by eapply walk_lbas_tree.
  - destruct Hdel as [-> Hperm].
    destruct (garbage_exact (s, g) _ _ _ _ _ _ _ _ _ _ _ [] Hr Hs Ht Hnd Hperm) as (H1 & H2 & H3 & H4).
    split; [by eapply rooted_reads|]. do 3 (split; [done|]). intros a Ha. by destruct (H3 a Ha) as [?%not_elem_of_nil|].
Qed.

End contract.

(** ** A two-level tree in the in-memory store *)

Definition demo_a : BTreeNode := mkNode Leaf [([97], [1]); ([98], [2])].
Definition demo_b : BTreeNode := mkNode Leaf [([109], [3])].
Definition demo_root : list BTreeEntry := [(ent [] (le_bytes 8 1)); (ent [109] (le_bytes 8 2))].
Definition demo_store : MemBTreeIO :=
  (write_node (write_node (write_node mem_new demo_a).2 demo_b).2 (mkNode Internal demo_root)).2.
Definition demo_nodes : gmap Z BTreeNode := <[3 := mkNode Internal demo_root]> (<[2 := demo_b]> (<[1 := demo_a]> ∅)).

Lemma demo_entry k v : 0 <= k < 256 -> 0 <= v < 256 -> entry_ok ([k], [v]).
Proof. intros. repeat constructor; simpl; unfold MAX_ENTRY; lia. Qed.

Lemma demo_entries : Forall entry_ok (entries demo_a) /\ Forall entry_ok (entries demo_b).
Proof. split; repeat (apply Forall_cons; split; [by apply demo_entry|]); constructor. Qed.

Lemma demo_forest : forest (tree true demo_nodes 0) None demo_root None (entries demo_a ++ entries demo_b) [1; 2].
Proof.
  destruct demo_entries. apply (forest_pair _ None [] 1 [109] 2 None _ _ [1] [2]); try done.
  - apply tree_leaf; try done; repeat constructor.
  - apply tree_leaf; try done; repeat constructor.
  - split; [constructor|simpl; unfold MAX_ENTRY; lia].
  - split; [repeat constructor; lia|simpl; unfold MAX_ENTRY; lia].
Qed.

Lemma demo_tree : rooted true demo_nodes 1 3 (entries demo_a ++ entries demo_b) [3; 1; 2].
Proof.
  right. apply (tree_internal _ _ _ _ _ _ demo_root); try done; [|apply demo_forest]. intros _. by do 2 eexists.
Qed.

Lemma demo_rep : io_rep demo_store demo_nodes 20.
Proof.
  destruct demo_entries as [Ha%entry_ok_storable Hb%entry_ok_storable]; [|done..].
  destruct (io_write mem_new ∅ 22 demo_a) as (_ & _ & H1); [by apply mem_new_rep|done|].
  destruct (io_write _ _ 21 demo_b H1 Hb) as (_ & _ & H2).
  refine (proj2 (proj2 (io_write _ _ 20 (mkNode Internal demo_root) H2 _))).
  eapply forest_storable; [apply demo_forest|done].
Qed.

(** Inserting ["c"] below the root at 3. *)
Lemma insert_tracked_refines_map_witness : exists root' s' g' d',
  insert_tracked 2 3 [99] [7] (demo_store, []) = Some (Some root', (s', g')) /\
  lookup (S d') s' root' [99] = Some (Some [7]) /\ lookup (S d') s' root' [109] = Some (Some [3]).
Proof.
  destruct (insert_tracked_refines_map demo_store [] demo_nodes 20 1 3 (entries demo_a ++ entries demo_b) [3; 1; 2] [99] [7])
    as (root' & s' & g' & m' & r' & d' & ls' & Hrun & _ & _ & _ & _ & _ & Hl);
    [apply demo_rep|apply demo_tree|apply demo_entry; lia|simpl; lia|].
  exists root', s', g', d'. split; [exact Hrun|]. rewrite !Hl. split; reflexivity.
Defined.

Lemma demo_nodup : NoDup [3; 1; 2].
Proof. by apply (bool_decide_unpack _). Qed.

Lemma insert_tracked_copy_on_write_witness : exists root' s' gn,
  insert_tracked 2 3 [99] [7] (demo_store, []) = Some (Some root', (s', gn)) /\
  walk 2 s' 3 = walk 2 demo_store 3 /\ NoDup gn.
Proof.
  destruct (insert_tracked_copy_on_write demo_store [] demo_nodes 20 1 3 (entries demo_a ++ entries demo_b) [3; 1; 2] [99] [7])
    as (root' & s' & gn & d' & ls' & Hrun & [Hold _] & [Hnew _] & _ & Hnd & _);
    [apply demo_rep|apply demo_tree|apply demo_nodup|apply demo_entry; lia|simpl; lia|].
  exists root', s', gn. split; [exact Hrun|]. split; [exact (eq_trans Hnew (eq_sym Hold))|]. apply NoDup_app in Hnd. apply Hnd.
Defined.

(** Deleting ["m"], the only entry of the second leaf. *)
Lemma delete_tracked_refines_map_witness : exists root' s' gn d',
  delete_tracked 2 3 [109] (demo_store, []) = Some (Some (Some root'), (s', gn)) /\
  lookup (S d') s' root' [109] = Some None /\ lookup (S d') s' root' [97] = Some (Some [1]).
Proof.
  destruct (delete_tracked_refines_map demo_store [] demo_nodes 20 1 3 (entries demo_a ++ entries demo_b) [3; 1; 2] [109] 1)
    as (res & s' & gn & Hrun & _ & _ & _ & Hres);
    [apply demo_rep|lia|apply demo_tree|apply demo_nodup|lia|repeat constructor| |].
  - intros es [= <-]. vm_compute. lia.
  - destruct res as [root'|]; [|destruct Hres as [E _]; discriminate E].
    destruct Hres as (d' & ls' & _ & _ & Hl & _). exists root', s', gn, d'. split; [exact Hrun|].
    rewrite !Hl. split; reflexivity.
Defined.

(** ** Deeper trees *)

(** A store that keeps the nodes themselves; it satisfies the same laws. *)
Definition NodeMap : Type := gmap Z BTreeNode * Z.

#[global] Instance node_map_io : BTreeIO NodeMap :=
  {| read_node s l := s.1 !! l; write_node s n := (s.2, (<[s.2 := n]> s.1, s.2 + 1)) |}.

#[global] Program Instance node_map_laws : BTreeIOLaws NodeMap :=
  {| io_rep s m r := m = s.1 /\ 0 < s.2 /\ s.2 + Z.of_nat r < 2 ^ 64 /\ forall l, s.2 <= l -> s.1 !! l = None |}.
Next Obligation. by intros s m r l n (-> & _) Hl. Qed.
Next Obligation.
  intros [nodes next] m r n (-> & H1 & H2 & Hf) _. cbn [write_node node_map_io fst snd] in *.
  split; [lia|]. split; [apply Hf; lia|]. split; [done|]. split; [lia|]. split; [lia|].
  intros l Hl. rewrite lookup_insert_ne by lia. apply Hf. lia.
Qed.

(** A key of 1000 bytes that starts with the byte [n]. *)
Definition long_key (n : Z) : str := n :: replicate (Z.to_nat 999) 0.

Fixpoint insert_keys (ns : list Z) (root : Z) (st : NodeMap * list Z) : option (Z * (NodeMap * list Z)) :=
  match ns with
  | [] => Some (root, st)
  | n :: ns =>
      match insert_tracked 10 root (long_key n) [n] st with
      | Some (Some root', st') => insert_keys ns root' st'
      | _ => None
      end
  end.

Fixpoint delete_keys (ns : list Z) (root : Z) (st : NodeMap * list Z) : option (Z * (NodeMap * list Z)) :=
  match ns with
  | [] => Some (root, st)
  | n :: ns =>
      match delete_tracked 10 root (long_key n) st with
      | Some (Some (Some root'), st') => delete_keys ns root' st'
      | _ => None
      end
  end.

(** The tree of the keys 1 to 20, and what is left of it. *)
Definition twenty_keys : option (Z * (NodeMap * list Z)) := insert_keys (seqZ 1 20) 0 ((∅, 1), []).

Definition found_after (ns qs : list Z) : option (list (option (option str))) :=
  '(root, (s, g)) ← twenty_keys; '(root', (s', g')) ← delete_keys ns root (s, []);
  Some (map (λ n, lookup 10 s' root' (long_key n)) qs).

Definition live_garbage_after (ns : list Z) : option (list Z) :=
  '(root, (s, g)) ← twenty_keys; '(root', (s', g')) ← delete_keys ns root (s, []); 
  ls ← walk_lbas 10 s' root'; Some (filter (λ a, a ∈ g') ls).

(** Deletion does not keep trees of three levels: rebalancing internal
    nodes is wrong.  In the tree of twenty keys of 1000 bytes all are found;
    deleting the key 20 makes the keys 10 to 12, which were not deleted, impossible
    to find ([borrow_left] puts the borrowed child under the separator in front
    of the entry with the empty key); and deleting 1 and 2 reports nodes as
    garbage that the new root still uses ([merge_into_left] and
    [merge_into_right] list both nodes before they test whether the merged node
    fits), which the file system then frees. *)
Theorem delete_breaks_three_levels :
  found_after [] (seqZ 1 20) = Some (map (λ n, Some (Some [n])) (seqZ 1 20)) /\
  found_after [20] [9; 10; 11; 12; 13] = Some [Some (Some [9]); Some None; Some None; Some None; Some (Some [13])] /\
  exists a l, live_garbage_after [1; 2] = Some (a :: l).
Proof. split; [vm_compute; reflexivity|]. split; [vm_compute; reflexivity|]. vm_compute. do 2 eexists. reflexivity. Qed.
