(* ===== verification/FreeList.v ===== *)
(** * FreeList.v: the free blocks of a NeoFS volume ([fs/neofs/freelist.rs])

    Free blocks are a vector of regions (first block, number of blocks) sorted by
    address.  [alloc] takes the smallest region that is large enough and [free]
    merges the released blocks with the regions they touch.  The lemmas relate the
    vector to the set of blocks it covers. *)

From Stdlib Require Import Sorting.Sorted.
From S2P Require Import Prelude Str Bytes BNode.
Open Scope Z_scope.

Definition REGION_SIZE : nat := 12.
Definition REGIONS_PER_NODE : nat := 340.

Record FreeRegion := mkRegion { start_lba : Z; region_len : Z }.
Record FreeList := mkFree { regions : list FreeRegion; dirty : bool }.

Definition fl_new : FreeList := mkFree [] false.
Definition with_range (start total_blocks : Z) : FreeList := mkFree [mkRegion start (u32 total_blocks)] true.

(** The scan of [alloc]: the index of the smallest region of at least [count]
    blocks among those seen. *)
Fixpoint best_scan (all : list FreeRegion) (count : Z) (i : nat) (rs : list FreeRegion) (best : option nat) : option nat :=
  match rs with
  | [] => best
  | r :: rs =>
      let best :=
        if count <=? region_len r then
          match b ← best; all !! b with
          | Some rb => if region_len rb <=? region_len r then best else Some i
          | None => Some i
          end
        else best in
      best_scan all count (S i) rs best
  end.

(** [None] for no region; the index found is always in range. *)
Definition alloc (fl : FreeList) (count : Z) : option (Z * Z) * FreeList :=
  if count =? 0 then (None, fl)
  else
    match i ← best_scan (regions fl) count 0 (regions fl) None; r ← regions fl !! i; Some (i, r) with
    | None => (None, fl)
    | Some (i, r) =>
        let rs :=
          if region_len r =? count then delete i (regions fl)
          else <[i := mkRegion (u64 (start_lba r + count)) (u32 (region_len r - count))]> (regions fl) in
        (Some (start_lba r, count), mkFree rs true)
    end.

Definition alloc_blocks (fl : FreeList) (count : Z) : option Z * FreeList :=
  let '(r, fl) := alloc fl count in (fst <$> r, fl).

Definition region_end (r : FreeRegion) : Z := u64 (start_lba r + region_len r).

(** The loop of [free]: a region that touches [merged] is taken out of the vector
    and becomes part of it. *)
Fixpoint free_loop (merged : FreeRegion) (rs : list FreeRegion) : list FreeRegion :=
  match rs with
  | [] => [merged]
  | r :: rs =>
      if region_end r =? start_lba merged then
        free_loop (mkRegion (start_lba r) (u32 (region_len r + region_len merged))) rs
      else if region_end merged =? start_lba r then
        free_loop (mkRegion (start_lba merged) (u32 (region_len merged + region_len r))) rs
      else if region_end merged <=? start_lba r then merged :: r :: rs
      else r :: free_loop merged rs
  end.

Definition free (fl : FreeList) (start length : Z) : FreeList :=
  mkFree (free_loop (mkRegion start length) (regions fl)) true.

Definition total_free_of (rs : list FreeRegion) : Z := foldr (λ r acc, region_len r + acc) 0 rs.
Definition total_free (fl : FreeList) : Z := u64 (total_free_of (regions fl)).
Definition region_count (fl : FreeList) : nat := length (regions fl).

(** The loop of [is_valid]; [checked_add] fails past [2^64]. *)
Fixpoint valid_from (prev_end total_blocks : Z) (rs : list FreeRegion) : bool :=
  match rs with
  | [] => true
  | r :: rs =>
      if (region_len r =? 0) || (start_lba r <? prev_end) then false
      else
        let e := start_lba r + region_len r in
        if (e <? 2 ^ 64) && (e <=? total_blocks) then valid_from e total_blocks rs else false
  end.

Definition is_valid (fl : FreeList) (total_blocks : Z) : bool := valid_from 2 total_blocks (regions fl).

(** [from_used]: [used] is the part of the vector from [idx] on. *)
Fixpoint skip_below (used : list Z) (block : Z) : list Z :=
  match used with
  | u :: used' => if u <? block then skip_below used' block else used
  | [] => []
  end.

Definition is_used (used : list Z) (block : Z) : bool :=
  match used with u :: _ => u =? block | [] => false end.

(** The inner loop: the first used block, or the end. *)
Fixpoint run_end (fuel : nat) (block total : Z) (used : list Z) : Z * list Z :=
  match fuel with
  | O => (block, used)
  | S f =>
      if block <? total then
        let used := skip_below used block in
        if is_used used block then (block, used) else run_end f (block + 1) total used
      else (block, used)
  end.

Fixpoint from_used_loop (fuel : nat) (block total : Z) (used : list Z) : list FreeRegion :=
  match fuel with
  | O => []
  | S f =>
      if block <? total then
        let used := skip_below used block in
        if is_used used block then from_used_loop f (block + 1) total used
        else
          let '(e, used) := run_end (Z.to_nat (total - block)) block total used in
          mkRegion block (u32 (e - block)) :: from_used_loop f e total used
      else []
  end.

Definition from_used (used : list Z) (total_blocks : Z) : FreeList :=
  mkFree (from_used_loop (Z.to_nat total_blocks) 0 total_blocks used) true.

(** ** Blocks *)

Definition put_region (r : FreeRegion) : list Z := le_bytes 8 (start_lba r) ++ le_bytes 4 (region_len r).

Definition fl_serialize (fl : FreeList) (next_lba : Z) : list Z :=
  let count := Nat.min (length (regions fl)) REGIONS_PER_NODE in
  let body := take count (regions fl) ≫= put_region in
  let offset := (8 + count * REGION_SIZE)%nat in
  let next := if (offset + 8 <=? NODE_SIZE)%nat then le_bytes 8 next_lba else [] in
  let payload := body ++ next ++ replicate (NODE_SIZE - 8 - length body - length next) 0 in
  le_bytes 2 3 ++ le_bytes 2 (Z.of_nat count) ++ le_bytes 4 (crc32 payload) ++ payload.

Fixpoint get_regions (buf : list Z) (offset count : nat) : option (list FreeRegion * nat) :=
  match count with
  | O => Some ([], offset)
  | S count =>
      if (NODE_SIZE <? offset + 12)%nat then Some ([], offset)
      else
        s ← get_le 8 buf offset;
        n ← get_le 4 buf (offset + 8);
        '(rs, off) ← get_regions buf (offset + REGION_SIZE) count;
        Some (mkRegion s n :: rs, off)
  end.

Definition fl_deserialize (buf : list Z) : option (FreeList * Z) :=
  let cksum := crc32 (drop 8 buf) in
  stored ← get_le 4 buf 4;
  if negb (stored =? 0) && negb (stored =? cksum) then None
  else
    count ← get_le 2 buf 2;
    '(rs, offset) ← get_regions buf 8 (Nat.min (Z.to_nat count) REGIONS_PER_NODE);
    next ← (if (offset + 8 <=? NODE_SIZE)%nat then get_le 8 buf offset else Some 0);
    Some (mkFree rs false, next).

(** ** The set of free blocks *)

Definition in_region (r : FreeRegion) (b : Z) : Prop := start_lba r <= b < start_lba r + region_len r.
Definition covers (rs : list FreeRegion) (b : Z) : Prop := Exists (λ r, in_region r b) rs.

(** Non-empty regions in ascending order within [[lo, hi)]. *)
Fixpoint chain (lo : Z) (rs : list FreeRegion) (hi : Z) : Prop :=
  match rs with
  | [] => True
  | r :: rs => 0 < region_len r /\ lo <= start_lba r /\ start_lba r + region_len r <= hi /\
      chain (start_lba r + region_len r) rs hi
  end.

(** The lengths are words, and regions that touch have been merged. *)
Fixpoint apart (lo : Z) (rs : list FreeRegion) : Prop :=
  match rs with [] => True | r :: rs => lo < start_lba r /\ apart (start_lba r + region_len r) rs end.

Lemma valid_from_chain lo hi rs : hi < 2 ^ 64 ->
  Forall (λ r, 0 <= region_len r) rs -> valid_from lo hi rs = true <-> chain lo rs hi.
Proof.
  intros Hhi. revert lo. induction rs as [|r rs IH]; intros lo Hr; [done|]. simpl.
  inversion Hr as [|? ? Hr0 Hr1]; subst. rewrite <-IH by done.
  destruct (Z.eqb_spec (region_len r) 0); simpl; [split; [done|lia]|].
  destruct (Z.ltb_spec (start_lba r) lo); [split; [done|lia]|].
  destruct (Z.leb_spec (start_lba r + region_len r) hi); [|rewrite andb_false_r; split; [done|lia]].
  rewrite andb_true_r. destruct (Z.ltb_spec (start_lba r + region_len r) (2 ^ 64)); [|lia]. intuition lia.
Qed.

Lemma chain_len lo rs hi : chain lo rs hi -> Forall (λ r, 0 <= region_len r) rs.
Proof. revert lo. induction rs as [|r rs IH]; simpl; [done|]. intros lo (? & ? & ? & ?). constructor; [lia|eauto]. Qed.

Lemma chain_weaken lo lo' rs hi : chain lo rs hi -> lo' <= lo -> chain lo' rs hi.
Proof. destruct rs; simpl; [done|]. intuition lia. Qed.

Lemma chain_covers lo rs hi b : chain lo rs hi -> covers rs b -> lo <= b < hi.
Proof.
  revert lo. induction rs as [|r rs IH]; simpl; intros lo Hc Hb; [by apply Exists_nil in Hb|].
  destruct Hc as (? & ? & ? & Hc). apply Exists_cons in Hb as [Hb|Hb]; [unfold in_region in Hb; lia|].
  apply (IH _ Hc) in Hb. lia.
Qed.

Lemma region_covers_app a c b : covers (a ++ c) b <-> covers a b \/ covers c b.
Proof. apply Exists_app. Qed.

Lemma covers_cons r rs b : covers (r :: rs) b <-> in_region r b \/ covers rs b.
Proof. apply Exists_cons. Qed.

Definition end_of (lo : Z) (rs : list FreeRegion) : Z :=
  match last rs with Some r => start_lba r + region_len r | None => lo end.

Lemma end_of_cons lo r rs : end_of lo (r :: rs) = end_of (start_lba r + region_len r) rs.
Proof. unfold end_of. rewrite last_cons. by destruct (last rs). Qed.

Lemma chain_app lo a c hi : chain lo (a ++ c) hi <-> chain lo a hi /\ chain (end_of lo a) c hi.
Proof.
  revert lo. induction a as [|r a IH]; intros lo; [simpl; tauto|]. simpl app. cbn [chain].
  rewrite IH, end_of_cons. tauto.
Qed.

Lemma end_of_ge lo rs hi : chain lo rs hi -> lo <= end_of lo rs.
Proof.
  revert lo. induction rs as [|r rs IH]; intros lo Hc; [done|]. rewrite end_of_cons.
  destruct Hc as (? & ? & ? & Hc). apply IH in Hc. lia.
Qed.

Lemma chain_before lo rs hi e b : chain lo rs hi -> end_of lo rs <= e -> covers rs b -> b < e.
Proof.
  revert lo. induction rs as [|r rs IH]; intros lo Hc He Hb; [by apply Exists_nil in Hb|].
  destruct Hc as (? & ? & ? & Hc). rewrite end_of_cons in He. apply covers_cons in Hb as [Hb|Hb]; [|by eapply IH].
  apply end_of_ge in Hc. unfold in_region in Hb. lia.
Qed.

(** ** Allocation *)

(** What the scan has found after the regions [seen]. *)
Definition best_of (count : Z) (seen : list FreeRegion) (best : option nat) : Prop :=
  match best with
  | None => Forall (λ r, region_len r < count) seen
  | Some b => exists rb, seen !! b = Some rb /\ count <= region_len rb /\
      Forall (λ r, count <= region_len r -> region_len rb <= region_len r) seen
  end.

Lemma best_scan_spec all count rs seen best :
  all = seen ++ rs -> best_of count seen best -> best_of count all (best_scan all count (length seen) rs best).
Proof.
  revert seen best. induction rs as [|r rs IH]; intros seen best Hall Hb; [by rewrite app_nil_r in Hall; subst|].
  cbn [best_scan]. replace (S (length seen)) with (length (seen ++ [r])) by (rewrite length_app; simpl; lia).
  apply IH; [by rewrite <-app_assoc|]. clear IH.
  assert (forall b rb, seen !! b = Some rb -> (seen ++ [r]) !! b = Some rb /\ all !! b = Some rb) as Hlk.
  { intros b rb Hs. subst all. split; by apply lookup_app_l_Some. }
  assert ((seen ++ [r]) !! length seen = Some r) as Hr by (by apply list_lookup_middle).
  assert (forall P Q : FreeRegion -> Prop, Forall P seen -> (forall x, P x -> Q x) -> Q r -> Forall Q (seen ++ [r])) as Hin.
  { intros P Q Hs HPQ Hq. apply Forall_app_2; [by eapply Forall_impl|by constructor]. }
  destruct (Z.leb_spec count (region_len r)) as [Hc|Hc].
  - destruct best as [b|]; cbn [mbind option_bind].
    + destruct Hb as (rb & Hrb & Hcb & Hmin). destruct (Hlk b rb Hrb) as [H1 H2]. rewrite H2.
      destruct (Z.leb_spec (region_len rb) (region_len r)).
      * exists rb. split_and!; try done. by eapply Hin.
      * exists r. split_and!; try done. eapply Hin; [exact Hmin| |done]. simpl. intros x Hx Hcx. specialize (Hx Hcx). lia.
    + exists r. split_and!; try done. eapply Hin; [exact Hb| |done]. simpl. lia.
  - destruct best as [b|].
    + destruct Hb as (rb & Hrb & Hcb & Hmin). exists rb. split_and!; [by apply Hlk|done|]. eapply Hin; [exact Hmin|done|lia].
    + by eapply Hin.
Qed.

Lemma total_free_app a c : total_free_of (a ++ c) = total_free_of a + total_free_of c.
Proof. induction a; simpl; lia. Qed.

(** Taking the first [count] blocks of one region. *)
Lemma take_from_region lo hi pre r post count :
  chain lo (pre ++ r :: post) hi -> 0 < count <= region_len r ->
  let rs' := pre ++ (if region_len r =? count then post else mkRegion (start_lba r + count) (region_len r - count) :: post) in
  chain lo rs' hi /\ total_free_of rs' = total_free_of (pre ++ r :: post) - count /\
  forall b, covers (pre ++ r :: post) b /\ ~ (start_lba r <= b < start_lba r + count) <-> covers rs' b.
Proof.
  intros Hc Hn rs'. apply chain_app in Hc as [Hp Hc]. cbn [chain] in Hc. destruct Hc as (Hl & Hlo & Hhi & Hpost).
  pose proof (λ b, chain_before lo pre hi (start_lba r) b Hp Hlo) as Hpre.
  assert (forall b, covers post b -> start_lba r + region_len r <= b) as Hps by (intros b Hb; apply (chain_covers _ _ _ _ Hpost) in Hb; lia).
  unfold rs'. destruct (Z.eqb_spec (region_len r) count) as [<-|Hne].
  - split; [apply chain_app; split; [done|]; eapply chain_weaken; [exact Hpost|lia]|]. split.
    + rewrite !total_free_app. simpl. lia.
    + intros b. rewrite !region_covers_app, covers_cons. unfold in_region. specialize (Hpre b). specialize (Hps b). intuition lia.
  - split; [apply chain_app; split; [done|]; simpl; split_and!; try lia|].
    { by replace (start_lba r + count + (region_len r - count)) with (start_lba r + region_len r) by lia. }
    split; [rewrite !total_free_app; simpl; lia|].
    intros b. rewrite !region_covers_app, !covers_cons. unfold in_region. cbn [start_lba region_len].
    specialize (Hpre b). specialize (Hps b). intuition lia.
Qed.

Lemma chain_total lo rs hi : chain lo rs hi -> lo <= hi -> 0 <= total_free_of rs <= hi - lo.
Proof.
  revert lo. induction rs as [|r rs IH]; intros lo Hc Hlo; [simpl; lia|].
  destruct Hc as (? & ? & ? & Hc). apply IH in Hc; simpl; lia.
Qed.

Lemma chain_elem lo rs hi r : chain lo rs hi -> r ∈ rs -> lo <= start_lba r /\ 0 < region_len r /\ start_lba r + region_len r <= hi.
Proof.
  revert lo. induction rs as [|r' rs IH]; intros lo Hc Hr; [by apply not_elem_of_nil in Hr|].
  destruct Hc as (? & ? & ? & Hc). apply elem_of_cons in Hr as [->|Hr]; [lia|]. apply (IH _ Hc) in Hr. lia.
Qed.

(** The outcome of [alloc] on a list whose regions are a chain. *)
Lemma alloc_spec fl lo total count :
  chain lo (regions fl) total -> 0 <= lo <= total -> total <= 2 ^ 32 -> 0 < count ->
  (alloc fl count = (None, fl) /\ Forall (λ r, region_len r < count) (regions fl)) \/
  exists r rs', alloc fl count = (Some (start_lba r, count), mkFree rs' true) /\ chain lo rs' total /\
    r ∈ regions fl /\ count <= region_len r /\
    Forall (λ r', count <= region_len r' -> region_len r <= region_len r') (regions fl) /\
    total_free_of rs' = total_free_of (regions fl) - count /\
    forall b, covers (regions fl) b /\ ~ (start_lba r <= b < start_lba r + count) <-> covers rs' b.
Proof.
  intros Hc Hlo Hhi Hn. unfold alloc. destruct (Z.eqb_spec count 0); [lia|].
  pose proof (best_scan_spec (regions fl) count (regions fl) [] None eq_refl (Forall_nil_2 _)) as Hb. cbn [length] in Hb.
  destruct (best_scan _ _ _ _ _) as [i|]; cbn [mbind option_bind best_of] in *; [right|by left].
  destruct Hb as (r & Hi & Hcr & Hmin). rewrite Hi. cbn [mbind option_bind].
  pose proof (list_elem_of_lookup_2 _ _ _ Hi) as Hin. pose proof (chain_elem _ _ _ _ Hc Hin) as (H1 & H2 & H3).
  eexists r, _. split; [reflexivity|].
  pose proof (take_drop_middle _ _ _ Hi) as Hsplit. rewrite <-Hsplit in Hc.
  destruct (take_from_region lo total (take i (regions fl)) r (drop (S i) (regions fl)) count) as (Hc' & Ht & Hcov); [done|lia|].
  assert ((if region_len r =? count then delete i (regions fl)
     else <[i:=mkRegion (u64 (start_lba r + count)) (u32 (region_len r - count))]> (regions fl)) =
    take i (regions fl) ++ (if region_len r =? count then drop (S i) (regions fl)
      else mkRegion (start_lba r + count) (region_len r - count) :: drop (S i) (regions fl))) as ->.
  { destruct (region_len r =? count); [by apply delete_take_drop|].
    rewrite insert_take_drop by (by apply lookup_lt_Some in Hi). by rewrite !wrap_small by lia. }
  rewrite Hsplit in Ht, Hcov. by split_and!.
Qed.

(** ** Release *)

Lemma apart_weaken lo lo' rs : apart lo rs -> lo' <= lo -> apart lo' rs.
Proof. destruct rs; simpl; [done|]. intuition lia. Qed.

(** Releasing [m], of which no block is free, into a chain. *)
Lemma free_loop_spec rs lo hi m :
  chain lo rs hi -> 0 < lo -> hi <= 2 ^ 32 -> lo <= start_lba m -> 0 < region_len m -> start_lba m + region_len m <= hi ->
  (forall b, in_region m b -> ~ covers rs b) ->
  chain lo (free_loop m rs) hi /\ total_free_of (free_loop m rs) = total_free_of rs + region_len m /\
  (forall b, covers (free_loop m rs) b <-> covers rs b \/ in_region m b) /\
  (forall lo', apart lo' rs -> lo' < start_lba m -> apart lo' (free_loop m rs)).
Proof.
  revert lo m. induction rs as [|r rs IH]; intros lo m Hc H0 Hhi Hlo Hm Hend Hdis.
  { simpl. split; [done|]. split; [lia|]. split; [|done]. intros b. unfold covers. rewrite Exists_cons, !Exists_nil. tauto. }
  destruct Hc as (Hr & Hrlo & Hrhi & Hc). unfold in_region in Hdis.
  assert (forall b, covers rs b -> start_lba r + region_len r <= b < hi) as Hrs by (intros; by eapply chain_covers).
  cbn [free_loop]. unfold region_end. rewrite !(wrap_small 64) by lia.
  destruct (Z.eqb_spec (start_lba r + region_len r) (start_lba m)) as [E1|N1];
    [|destruct (Z.eqb_spec (start_lba m + region_len m) (start_lba r)) as [E2|N2];
      [|destruct (Z.leb_spec (start_lba m + region_len m) (start_lba r)) as [L|L]]].
  - rewrite (wrap_small 32) by lia. destruct (IH lo (mkRegion (start_lba r) (region_len r + region_len m))) as (I1 & I2 & I3 & I4); simpl; try lia.
    + eapply chain_weaken; [done|lia].
    + intros b Hb Hcov. pose proof (Hrs b Hcov). apply (Hdis b); [unfold in_region in Hb; simpl in Hb; lia|]. by right.
    + split_and!; try done.
      * simpl in *. lia.
      * intros b. rewrite I3, covers_cons. unfold in_region. simpl. intuition lia.
      * intros lo' [Ha1 Ha2] Hlo'. apply I4; [eapply apart_weaken; [done|lia]|done].
  - rewrite (wrap_small 32) by lia. destruct (IH lo (mkRegion (start_lba m) (region_len m + region_len r))) as (I1 & I2 & I3 & I4); simpl; try lia.
    + eapply chain_weaken; [done|lia].
    + intros b Hb Hcov. pose proof (Hrs b Hcov). apply (Hdis b); [unfold in_region in Hb; simpl in Hb; lia|]. by right.
    + split_and!; try done.
      * simpl in *. lia.
      * intros b. rewrite I3, covers_cons. unfold in_region. simpl. intuition lia.
      * intros lo' [Ha1 Ha2] Hlo'. apply I4; [eapply apart_weaken; [done|lia]|done].
  - simpl. split_and!; try done; try lia.
    + intros b. rewrite !covers_cons. unfold in_region. tauto.
    + intros lo' [Ha1 Ha2] Hlo'. split_and!; try done. lia.
  - assert (start_lba r + region_len r <= start_lba m).
    { destruct (decide (start_lba r + region_len r <= start_lba m)); [done|]. exfalso.
      apply (Hdis (Z.max (start_lba m) (start_lba r))); [lia|]. left. unfold in_region. lia. }
    destruct (IH (start_lba r + region_len r) m) as (I1 & I2 & I3 & I4); try done; try lia.
    + intros b Hb Hcov. apply (Hdis b Hb). by right.
    + simpl. split_and!; try done; try lia.
      * intros b. rewrite covers_cons, I3, covers_cons. tauto.
      * intros lo' [Ha1 Ha2] Hlo'. split; [done|]. apply I4; [done|lia].
Qed.

(** ** Rebuilding the list *)

Abbreviation ascending := (StronglySorted Z.lt).

Lemma skip_below_spec used block : ascending used ->
  ascending (skip_below used block) /\ Forall (λ u, block <= u) (skip_below used block) /\
  forall b, block <= b -> b ∈ skip_below used block <-> b ∈ used.
Proof.
  induction 1 as [|u used Hs IH Hall]; simpl; [by repeat constructor|]. destruct (Z.ltb_spec u block) as [Hu|Hu].
  - destruct IH as (I1 & I2 & I3). split_and!; try done. intros b Hb. rewrite I3, elem_of_cons by done. intuition lia.
  - split_and!; [by constructor| |done]. constructor; [done|]. eapply Forall_impl; [exact Hall|]. simpl. lia.
Qed.

Lemma is_used_spec used block : ascending used -> Forall (λ u, block <= u) used ->
  is_used used block = true <-> block ∈ used.
Proof.
  intros Hs Hall. destruct used as [|u used]; simpl; [split; [done|by intros ?%not_elem_of_nil]|].
  rewrite Z.eqb_eq, elem_of_cons. split; [by left|]. intros [->|Hb]; [done|].
  inversion Hs as [|? ? _ Hu]; subst. inversion Hall; subst. rewrite Forall_forall in Hu. specialize (Hu block Hb). lia.
Qed.

Lemma run_end_spec fuel block total used e used' : ascending used -> block <= total -> total - block <= Z.of_nat fuel ->
  run_end fuel block total used = (e, used') ->
  block <= e <= total /\ (e = total \/ e ∈ used) /\ (forall b, block <= b < e -> b ∉ used) /\
  ascending used' /\ (forall b, e <= b -> b ∈ used' <-> b ∈ used).
Proof.
  revert block used. induction fuel as [|f IH]; intros block used Hs Hb Hf; simpl.
  { intros [= <- <-]. split_and!; try done; [lia..|left; lia|lia]. }
  destruct (Z.ltb_spec block total) as [Hlt|Hge]; [|intros [= <- <-]; split_and!; try done; [lia..|left; lia|lia]].
  destruct (skip_below_spec used block Hs) as (S1 & S2 & S3).
  destruct (is_used (skip_below used block) block) eqn:Hu.
  - apply is_used_spec in Hu; [|done..]. intros [= <- <-]. split_and!; try done; [lia..|right; by apply S3|lia].
  - intros Hr. apply IH in Hr as (I1 & I2 & I3 & I4 & I5); [|done|lia|lia]. split_and!; try done; [lia..| | |].
    + destruct I2 as [->|I2]; [by left|]. right. apply S3; [lia|done].
    + intros b Hbb. destruct (decide (b = block)) as [->|].
      * rewrite <-S3, <-is_used_spec by (done || lia). by rewrite Hu.
      * rewrite <-S3 by lia. apply I3. lia.
    + intros b Hbb. rewrite I5 by done. apply S3. lia.
Qed.

Lemma apart_strict lo rs hi : (forall lo', lo' < lo -> apart lo' rs) -> chain lo rs hi -> ~ covers rs lo -> apart lo rs.
Proof.
  intros Ha Hc Hn. destruct rs as [|r rs]; [done|]. specialize (Ha (lo - 1) ltac:(lia)). destruct Ha as [_ Ha].
  destruct Hc as (? & ? & ? & _). split; [|done]. destruct (decide (start_lba r = lo)) as [E|]; [|lia].
  exfalso. apply Hn. left. unfold in_region. lia.
Qed.

Lemma from_used_loop_spec fuel block total used : ascending used -> 0 <= block <= total -> total < 2 ^ 32 ->
  total - block <= Z.of_nat fuel ->
  let rs := from_used_loop fuel block total used in
  chain block rs total /\ (forall b, covers rs b <-> block <= b < total /\ b ∉ used) /\
  forall lo', lo' < block -> apart lo' rs.
Proof.
  revert block used. induction fuel as [|f IH]; intros block used Hs Hb Ht Hf; cbn [from_used_loop].
  { split_and!; try done. intros b. unfold covers. rewrite Exists_nil. split; [done|lia]. }
  destruct (Z.ltb_spec block total) as [Hlt|Hge].
  2:{ split_and!; try done. intros b. unfold covers. rewrite Exists_nil. split; [done|lia]. }
  destruct (skip_below_spec used block Hs) as (S1 & S2 & S3).
  destruct (is_used (skip_below used block) block) eqn:Hu.
  - apply is_used_spec in Hu; [|done..]. apply S3 in Hu; [|lia].
    destruct (IH (block + 1) (skip_below used block)) as (I1 & I2 & I3); [done|lia..|]. split_and!.
    + eapply chain_weaken; [done|lia].
    + intros b. rewrite I2. split.
      * intros [Hb1 Hb2]. rewrite S3 in Hb2 by lia. split; [lia|done].
      * intros [Hb1 Hb2]. assert (b ≠ block) by (by intros ->). rewrite S3 by lia. split; [lia|done].
    + intros lo' Hlo. apply I3. lia.
  - assert (block ∉ used) as Hfree by (rewrite <-S3, <-is_used_spec by (done || lia); by rewrite Hu).
    destruct (run_end _ _ _ _) as [e used'] eqn:Hr. apply run_end_spec in Hr as (R1 & R2 & R3 & R4 & R5); [|done|lia|lia].
    assert (block < e). { destruct R2 as [->|R2]; [done|]. apply S3 in R2; [|lia]. assert (e ≠ block) by (by intros ->). lia. }
    destruct (IH e used') as (I1 & I2 & I3); [done|lia..|]. rewrite wrap_small by lia.
    assert (forall b, e <= b -> b ∈ used' <-> b ∈ used) as Hmem by (intros b Hbb; rewrite R5, S3 by lia; done).
    cbn [chain apart start_lba region_len]. replace (block + (e - block)) with e by lia. split_and!; try done; try lia.
    + intros b. rewrite covers_cons, I2. unfold in_region. cbn [start_lba region_len]. split.
      * intros [Hbb|[Hbb Hn]]; [|split; [lia|]; by rewrite <-Hmem by lia].
        split; [lia|]. rewrite <-S3 by lia. apply R3. lia.
      * intros [Hbb Hn]. destruct (decide (b < e)); [left; lia|right]. split; [lia|]. by rewrite Hmem by lia.
    + intros lo' Hlo. split; [done|]. eapply apart_strict; [done..|]. rewrite I2. intros [Hbb Hn].
      destruct R2 as [->|R2]; [lia|]. apply Hn. apply S3 in R2; [|lia]. by apply Hmem.
Qed.

(** ** Reading back a block of regions *)

Definition region_words (r : FreeRegion) : Prop := 0 <= start_lba r < 2 ^ 64 /\ 0 <= region_len r < 2 ^ 32.

Lemma length_put_region r : length (put_region r) = 12%nat.
Proof. unfold put_region. by rewrite length_app, !length_le_bytes. Qed.

Lemma length_put_regions rs : length (rs ≫= put_region) = (length rs * 12)%nat.
Proof. induction rs as [|r rs IH]; [done|]. rewrite bind_cons, length_app, length_put_region, IH. simpl. lia. Qed.

Lemma get_regions_put rs pre post :
  Forall region_words rs -> (length pre + length rs * 12 <= NODE_SIZE)%nat ->
  get_regions (pre ++ (rs ≫= put_region) ++ post) (length pre) (length rs) = Some (rs, (length pre + length rs * 12)%nat).
Proof.
  intros Hw. revert pre. induction Hw as [|r rs [Hs Hl] Hw IH]; intros pre Hlen; [simpl; by rewrite Nat.add_0_r|].
  cbn [get_regions length] in *. destruct (Nat.ltb_spec NODE_SIZE (length pre + 12)); [lia|].
  rewrite bind_cons. assert (put_region r = le_bytes 8 (start_lba r) ++ le_bytes 4 (region_len r)) as -> by done.
  rewrite <-!app_assoc. rewrite get_le_app by (change (256 ^ Z.of_nat 8) with (2 ^ 64); lia). cbn [mbind option_bind].
  pose proof (get_le_app 4 (pre ++ le_bytes 8 (start_lba r)) (region_len r) ((rs ≫= put_region) ++ post)) as E.
  rewrite length_app, length_le_bytes, <-!app_assoc in E.
  rewrite E by (change (256 ^ Z.of_nat 4) with (2 ^ 32); lia). cbn [mbind option_bind].
  specialize (IH (pre ++ le_bytes 8 (start_lba r) ++ le_bytes 4 (region_len r))).
  rewrite !length_app, !length_le_bytes, <-!app_assoc in IH. unfold REGION_SIZE.
  change (8 + 4)%nat with 12%nat in IH. rewrite IH by lia. cbn [mbind option_bind]. do 2 f_equal; [by destruct r|lia].
Qed.

Lemma fl_roundtrip fl next :
  Forall region_words (regions fl) -> 0 <= next < 2 ^ 64 ->
  length (fl_serialize fl next) = NODE_SIZE /\
  fl_deserialize (fl_serialize fl next) = Some (mkFree (take REGIONS_PER_NODE (regions fl)) false, next).
Proof.
  intros Hw Hn. pose proof NODE_SIZE_Z as HN. unfold fl_serialize. set (count := Nat.min _ _).
  assert (count <= 340)%nat as Hc by (unfold count, REGIONS_PER_NODE; lia).
  set (rs := take count (regions fl)). assert (length rs = count) as Hlen by (unfold rs, count; rewrite length_take; lia).
  assert (Forall region_words rs) as Hw' by (by apply Forall_take).
  unfold REGION_SIZE. destruct (Nat.leb_spec (8 + count * 12 + 8) NODE_SIZE) as [Hfit|]; [|lia].
  set (pad := replicate (NODE_SIZE - 8 - _ - _) 0).
  set (payload := (rs ≫= put_region) ++ le_bytes 8 next ++ pad).
  assert (length payload = (NODE_SIZE - 8)%nat) as Hp.
  { unfold payload, pad. rewrite !length_app, length_put_regions, length_le_bytes, length_replicate. lia. }
  split; [rewrite !length_app, !length_le_bytes; lia|].
  assert (bytes_ok payload) as Hb.
  { unfold payload. apply Forall_app_2; [|apply Forall_app_2; [apply le_bytes_ok|apply Forall_replicate; unfold is_byte; lia]].
    clear. induction rs as [|r rs IH]; [constructor|]. rewrite bind_cons. apply Forall_app_2; [|done].
    apply Forall_app_2; apply le_bytes_ok. }
  pose proof (crc32_bound payload Hb) as Hcrc. unfold fl_deserialize.
  assert (drop 8 (le_bytes 2 3 ++ le_bytes 2 (Z.of_nat count) ++ le_bytes 4 (crc32 payload) ++ payload) = payload) as ->.
  { rewrite !app_assoc. apply drop_app_length'. by rewrite !length_app, !length_le_bytes. }
  pose proof (get_le_app 4 (le_bytes 2 3 ++ le_bytes 2 (Z.of_nat count)) (crc32 payload) payload) as E1.
  rewrite length_app, !length_le_bytes, <-app_assoc in E1. change (2 + 2)%nat with 4%nat in E1. rewrite E1 by exact Hcrc.
  cbn [mbind option_bind]. rewrite Z.eqb_refl, andb_false_r.
  pose proof (get_le_app 2 (le_bytes 2 3) (Z.of_nat count) (le_bytes 4 (crc32 payload) ++ payload)) as E2.
  rewrite length_le_bytes in E2. rewrite E2 by (change (256 ^ Z.of_nat 2) with 65536; lia).
  cbn [mbind option_bind]. rewrite Nat2Z.id, Nat.min_l by (unfold REGIONS_PER_NODE; lia).
  set (hdr := le_bytes 2 3 ++ le_bytes 2 (Z.of_nat count) ++ le_bytes 4 (crc32 payload)).
  assert (length hdr = 8%nat) as Hh by (unfold hdr; by rewrite !length_app, !length_le_bytes).
  assert (le_bytes 2 3 ++ le_bytes 2 (Z.of_nat count) ++ le_bytes 4 (crc32 payload) ++ payload = hdr ++ payload) as ->
    by (unfold hdr; by rewrite <-!app_assoc).
  pose proof (get_regions_put rs hdr (le_bytes 8 next ++ pad) Hw') as E3.
  rewrite Hh, Hlen in E3. fold payload in E3. rewrite E3 by lia. cbn [mbind option_bind].
  destruct (Nat.leb_spec (8 + count * 12 + 8) NODE_SIZE); [|lia].
  pose proof (get_le_app 8 (hdr ++ (rs ≫= put_region)) next pad) as E4.
  rewrite length_app, Hh, length_put_regions, Hlen, <-!app_assoc in E4. unfold payload.
  rewrite E4 by (change (256 ^ Z.of_nat 8) with (2 ^ 64); lia). cbn [mbind option_bind]. do 3 f_equal. 
  unfold rs, count. destruct (decide (length (regions fl) <= REGIONS_PER_NODE)%nat).
  - by rewrite Nat.min_l, !take_ge by lia.
  - by rewrite Nat.min_r by lia.
Qed.

(** ** The contract *)

Lemma valid_chain fl total : total <= 2 ^ 32 -> Forall region_words (regions fl) ->
  is_valid fl total = true -> chain 2 (regions fl) total.
Proof.
  intros Ht Hw. apply valid_from_chain; [lia|]. eapply Forall_impl; [exact Hw|]. intros r [_ ?]. lia.
Qed.

Lemma chain_valid fl total : total <= 2 ^ 32 -> chain 2 (regions fl) total -> is_valid fl total = true.
Proof. intros Ht Hc. apply valid_from_chain; [lia|by eapply chain_len|done]. Qed.

Lemma chain_step lo rs hi : chain lo rs hi -> ~ covers rs lo -> chain (lo + 1) rs hi.
Proof.
  destruct rs as [|r rs]; [done|]. intros (? & ? & ? & ?) Hn. split_and!; try done.
  destruct (decide (start_lba r = lo)) as [E|]; [|lia]. exfalso. apply Hn. left. unfold in_region. lia.
Qed.

Lemma from_used_spec used total : ascending used -> 0 ∈ used -> 1 ∈ used -> 2 <= total < 2 ^ 32 ->
  chain 2 (regions (from_used used total)) total /\ apart 1 (regions (from_used used total)) /\
  forall b, covers (regions (from_used used total)) b <-> 0 <= b < total /\ b ∉ used.
Proof.
  intros Hs H0 H1 Ht. destruct (from_used_loop_spec (Z.to_nat total) 0 total used) as (Hc & Hcov & Ha); [done|lia..|].
  cbn [from_used regions]. assert (chain 2 (from_used_loop (Z.to_nat total) 0 total used) total) as Hc2.
  { apply (chain_step 1); [apply (chain_step 0); [done|]|]; rewrite Hcov; tauto. }
  split_and!; try done. destruct (from_used_loop _ _ _ _) as [|r rs]; [done|]. specialize (Ha (-1) ltac:(lia)).
  destruct Hc2 as (_ & ? & _). destruct Ha. split; [lia|done].
Qed.

(** The blocks of an allocated range. *)
Definition blocks (x : Z * Z) : list Z := seqZ x.1 x.2.

(** Allocations and releases of allocated ranges, after mounting. *)
Inductive fl_step : FreeList * list (Z * Z) -> FreeList * list (Z * Z) -> Prop :=
  | step_alloc fl owned count lba n fl' :
      0 < count < 2 ^ 32 -> alloc fl count = (Some (lba, n), fl') -> fl_step (fl, owned) (fl', (lba, n) :: owned)
  | step_alloc_none fl owned count fl' :
      alloc fl count = (None, fl') -> fl_step (fl, owned) (fl', owned)
  | step_free fl pre s n post :
      fl_step (fl, pre ++ (s, n) :: post) (free fl s n, pre ++ post).

Record fl_inv (used : list Z) (total : Z) (st : FreeList * list (Z * Z)) : Prop := {
  fi_chain : chain 2 (regions st.1) total;
  fi_owned : Forall (λ x : Z * Z, 0 < x.2) st.2;
  fi_nodup : NoDup (st.2 ≫= blocks);
  fi_partition b : 0 <= b < total /\ b ∉ used <-> covers (regions st.1) b \/ b ∈ (st.2 ≫= blocks);
  fi_disjoint b : covers (regions st.1) b -> b ∉ (st.2 ≫= blocks);
}.

Lemma elem_of_blocks s n b : b ∈ blocks (s, n) <-> s <= b < s + n.
Proof. apply elem_of_seqZ. Qed.

Lemma alloc_inv used total fl owned count lba n fl' :
  2 <= total < 2 ^ 32 -> fl_inv used total (fl, owned) -> 0 < count -> alloc fl count = (Some (lba, n), fl') ->
  fl_inv used total (fl', (lba, n) :: owned).
Proof.
  intros Ht [Hc Ho Hn Hp Hd] Hcount Ha. simpl in *.
  destruct (alloc_spec fl 2 total count) as [[E _]|(r & rs' & E & Hc' & Hr & Hle & _ & _ & Hcov)]; [done|lia..|congruence|].
  rewrite E in Ha. injection Ha as <- <- <-. pose proof (elem_of_blocks (start_lba r) count) as Hb.
  assert (forall b, b ∈ blocks (start_lba r, count) -> covers (regions fl) b) as Hbc.
  { intros b Hbb%Hb. apply Exists_exists. exists r. split; [done|]. unfold in_region. lia. }
  constructor; simpl; try done.
  - constructor; [simpl; lia|done].
  - apply NoDup_app. split_and!; [apply NoDup_seqZ| |done]. intros b ?%Hbc. by apply Hd.
  - intros b. rewrite Hp, elem_of_app, <-Hcov, <-Hb. pose proof (Hbc b). destruct (decide (b ∈ blocks (start_lba r, count))); tauto.
  - intros b. rewrite <-Hcov, elem_of_app, Hb. intros [Hb1 Hb2] [?|?]; [tauto|]. by apply (Hd b).
Qed.

Lemma free_inv used total fl pre s n post :
  2 <= total < 2 ^ 32 -> 0 ∈ used -> 1 ∈ used -> fl_inv used total (fl, pre ++ (s, n) :: post) ->
  fl_inv used total (free fl s n, pre ++ post).
Proof.
  intros Ht U0 U1 [Hc Ho Hn Hp Hd]. simpl in *. pose proof (elem_of_blocks s n) as Hb.
  rewrite bind_app, bind_cons in Hn, Hp, Hd. apply Forall_app in Ho as [Ho1 [Hs Ho2]%Forall_cons]. simpl in Hs.
  assert (forall b, s <= b < s + n -> 2 <= b < total) as Hrange.
  { intros b Hbb%Hb. assert (0 <= b < total /\ b ∉ used) as [Hr Hu] by (apply Hp; right; rewrite !elem_of_app; tauto).
    assert (b ≠ 0) by (by intros ->). assert (b ≠ 1) by (by intros ->). lia. }
  apply NoDup_app in Hn as (N1 & N2 & N3). apply NoDup_app in N3 as (_ & N4 & N5).
  destruct (free_loop_spec (regions fl) 2 total (mkRegion s n)) as (F1 & _ & F3 & _); simpl; try done; try lia.
  { pose proof (Hrange s). lia. } { pose proof (Hrange (s + n - 1)). lia. }
  { intros b Hbb Hcov. apply (Hd b Hcov). rewrite !elem_of_app. right. left. by apply Hb. }
  constructor; simpl; try done.
  - by apply Forall_app.
  - rewrite bind_app. apply NoDup_app. split_and!; try done. intros b Hb1 Hb2. apply (N2 b Hb1). apply elem_of_app. by right.
  - intros b. rewrite Hp, F3, bind_app, !elem_of_app, Hb. unfold in_region. simpl. tauto.
  - intros b. rewrite F3, bind_app, elem_of_app. unfold in_region. simpl. rewrite <-Hb. intros [Hcov|Hbb] Hin.
    + apply (Hd b Hcov). rewrite !elem_of_app. tauto.
    + destruct Hin as [Hin|Hin]; [apply (N2 b Hin); apply elem_of_app; by left|by apply (N4 b Hbb)].
Qed.

Lemma fl_step_inv used total st st' : 2 <= total < 2 ^ 32 -> 0 ∈ used -> 1 ∈ used ->
  fl_inv used total st -> fl_step st st' -> fl_inv used total st'.
Proof.
  intros Ht U0 U1 Hi Hstep. destruct Hstep as [fl owned count lba n fl' Hcount Ha|fl owned count fl' Ha|fl pre s n post].
  - eapply alloc_inv; [done|exact Hi| |exact Ha]; lia.
  - assert (fl' = fl) as ->; [|done]. unfold alloc in Ha. repeat case_match; by simplify_eq.
  - by apply free_inv.
Qed.

(** C30. Block allocation is safe from mount on.  The list rebuilt from the blocks
    in use is the rest of the volume; after every sequence of allocations and
    releases of allocated ranges the list passes [is_valid], the allocated ranges
    share no block with each other, with a block in use at mount or with the list,
    lie within the volume past the two reserved blocks, and every block of the
    volume that is neither in use nor allocated is still on the list. *)
Theorem freelist_run_safe used total fl owned :
  ascending used -> 0 ∈ used -> 1 ∈ used -> 2 <= total < 2 ^ 32 ->
  rtc fl_step (from_used used total, []) (fl, owned) ->
  is_valid fl total = true /\ NoDup (owned ≫= blocks) /\
  (forall b, b ∈ (owned ≫= blocks) -> 2 <= b < total /\ (b ∉ used) /\ ~ covers (regions fl) b) /\
  (forall b, 0 <= b < total -> b ∉ used -> b ∉ (owned ≫= blocks) -> covers (regions fl) b).
Proof.
  intros Hs U0 U1 Ht Hrun. destruct (from_used_spec used total) as (Hc & _ & Hcov); [done..|].
  assert (fl_inv used total (from_used used total, [])) as H0.
  { constructor; simpl; [done|constructor|constructor| |by intros b _ ?%not_elem_of_nil].
    intros b. rewrite Hcov. rewrite elem_of_nil. tauto. }
  assert (fl_inv used total (fl, owned)) as [Hc' Ho Hn Hp Hd].
  { revert H0. generalize dependent (from_used used total, @nil (Z * Z)). intros st0 Hrun H0.
    remember (fl, owned) as st. clear Heqst. induction Hrun; [done|]. eauto using fl_step_inv. }
  simpl in *. split_and!; [apply chain_valid; [lia|done]|done| |].
  - intros b Hb. assert (0 <= b < total /\ b ∉ used) as [Hr Hu] by (apply Hp; by right).
    assert (b ≠ 0) by (by intros ->). assert (b ≠ 1) by (by intros ->). split_and!; try done; try lia.
    intros Hcb. by apply (Hd b).
  - intros b Hr Hu Hb. assert (covers (regions fl) b \/ b ∈ (owned ≫= blocks)) as [?|?] by (by apply Hp); done.
Qed.

Lemma freelist_run_safe_witness : exists fl owned,
  rtc fl_step (from_used [0; 1; 5] 20, []) (fl, owned) /\ owned = [(6, 4)] /\ is_valid fl 20 = true.
Proof.
  assert (rtc fl_step (from_used [0; 1; 5] 20, []) (mkFree [mkRegion 2 3; mkRegion 10 10] true, [(6, 4)])) as Hrun.
  { eapply rtc_l; [apply (step_alloc _ [] 3 2 3); [lia|vm_compute; reflexivity]|].
    eapply rtc_l; [apply (step_alloc _ _ 4 6 4); [lia|vm_compute; reflexivity]|].
    eapply rtc_l; [apply (step_free _ [(6, 4)] 2 3 [])|]. vm_compute. apply rtc_refl. }
  eexists _, _. split; [exact Hrun|]. split; [reflexivity|].
  apply (freelist_run_safe [0; 1; 5] 20 _ [(6, 4)]); [|by left|right; by left|lia|exact Hrun].
  repeat constructor; lia.
Defined.

(** Allocation is best fit and exact: it fails, changing nothing, exactly
    when no region has [count] blocks; otherwise it returns the first [count] blocks
    of a smallest region that is large enough, removes exactly these blocks from
    the list and nothing else, and the list stays valid. *)
Theorem freelist_alloc_best_fit fl total count :
  is_valid fl total = true -> Forall region_words (regions fl) -> 2 <= total <= 2 ^ 32 -> 0 < count ->
  match alloc fl count with
  | (None, fl') => fl' = fl /\ Forall (λ r, region_len r < count) (regions fl)
  | (Some (lba, n), fl') => n = count /\ is_valid fl' total = true /\ total_free fl' = total_free fl - count /\
      (exists r, r ∈ regions fl /\ start_lba r = lba /\ count <= region_len r /\
        forall r', r' ∈ regions fl -> count <= region_len r' -> region_len r <= region_len r') /\
      forall b, covers (regions fl') b <-> covers (regions fl) b /\ ~ (lba <= b < lba + count)
  end.
Proof.
  intros Hv Hw Ht Hn. apply valid_chain in Hv; [|lia|done].
  destruct (alloc_spec fl 2 total count) as [[E Hall]|(r & rs' & E & Hc' & Hr & Hle & Hmin & Htot & Hcov)]; [done|lia..| |];
    rewrite E; [done|].
  pose proof (chain_total _ _ _ Hv ltac:(lia)). pose proof (chain_total _ _ _ Hc' ltac:(lia)).
  split_and!; [done|apply chain_valid; [lia|done]| | |].
  - unfold total_free. cbn [regions]. rewrite !wrap_small by lia. done.
  - exists r. split_and!; try done. rewrite Forall_forall in Hmin. exact Hmin.
  - intros b. by rewrite <-Hcov.
Qed.

Lemma freelist_alloc_best_fit_witness :
  alloc (mkFree [mkRegion 2 9; mkRegion 20 3; mkRegion 30 5] false) 3 =
    (Some (20, 3), mkFree [mkRegion 2 9; mkRegion 30 5] true) /\
  is_valid (mkFree [mkRegion 2 9; mkRegion 30 5] true) 40 = true.
Proof.
  pose proof (freelist_alloc_best_fit (mkFree [mkRegion 2 9; mkRegion 20 3; mkRegion 30 5] false) 40 3) as H.
  split; [reflexivity|]. apply H; [reflexivity| |lia|lia]. repeat constructor; simpl; lia.
Defined.

(** Releasing a range merges it: releasing blocks of which none is free adds
    exactly them to the list, keeps it valid, and leaves no two regions that touch
    if there were none before. *)
Theorem freelist_free_merges fl total start len :
  is_valid fl total = true -> Forall region_words (regions fl) -> total <= 2 ^ 32 ->
  2 <= start -> 0 < len -> start + len <= total -> (forall b, start <= b < start + len -> ~ covers (regions fl) b) ->
  is_valid (free fl start len) total = true /\ total_free (free fl start len) = total_free fl + len /\
  (forall b, covers (regions (free fl start len)) b <-> covers (regions fl) b \/ start <= b < start + len) /\
  (apart 1 (regions fl) -> apart 1 (regions (free fl start len))).
Proof.
  intros Hv Hw Ht Hs Hl He Hd. apply valid_chain in Hv; [|lia|done].
  destruct (free_loop_spec (regions fl) 2 total (mkRegion start len)) as (F1 & F2 & F3 & F4); simpl; try done; try lia.
  pose proof (chain_total _ _ _ Hv ltac:(lia)). pose proof (chain_total _ _ _ F1 ltac:(lia)).
  split_and!; [apply chain_valid; [lia|done]| |exact F3|].
  - unfold total_free, free. cbn [regions]. rewrite !wrap_small by lia. exact F2.
  - intros Ha. apply F4; [done|simpl; lia].
Qed.

Lemma freelist_free_merges_witness :
  regions (free (mkFree [mkRegion 2 3; mkRegion 10 5] false) 5 5) = [mkRegion 2 13] /\
  is_valid (free (mkFree [mkRegion 2 3; mkRegion 10 5] false) 5 5) 40 = true.
Proof.
  split; [reflexivity|]. apply (freelist_free_merges (mkFree [mkRegion 2 3; mkRegion 10 5] false) 40 5 5);
    [reflexivity|repeat constructor; simpl; lia|lia..|].
  intros b Hb Hc. repeat (apply covers_cons in Hc as [Hc|Hc]; [unfold in_region in Hc; simpl in Hc; lia|]). by apply Exists_nil in Hc.
Defined.

(** The block of a free list is read back: up to 340 regions and the address
    of the next block, as one block of 4096 bytes. *)
Theorem freelist_block_roundtrip fl next :
  Forall region_words (regions fl) -> (length (regions fl) <= REGIONS_PER_NODE)%nat -> 0 <= next < 2 ^ 64 ->
  length (fl_serialize fl next) = NODE_SIZE /\
  fl_deserialize (fl_serialize fl next) = Some (mkFree (regions fl) false, next).
Proof.
  intros Hw Hlen Hn. destruct (fl_roundtrip fl next Hw Hn) as [H1 H2]. split; [done|]. by rewrite take_ge in H2.
Qed.

Lemma freelist_block_roundtrip_witness :
  fl_deserialize (fl_serialize (mkFree [mkRegion 1000 500; mkRegion 2000 300] true) 7) =
    Some (mkFree [mkRegion 1000 500; mkRegion 2000 300] false, 7).
Proof.
  apply (freelist_block_roundtrip (mkFree [mkRegion 1000 500; mkRegion 2000 300] true) 7);
    [repeat constructor; simpl; lia|apply (Nat.leb_le _ _); reflexivity|lia].
Defined.
