(* ===== verification/NeoDisk.v ===== *)
(** * NeoDisk.v: B-tree nodes on a volume ([BTreeIO for NeoDosFsV2], fs/neofs/neodos_v2.rs)

    A node is written to a block taken from the free list, as eight sectors of the
    device, and its block is dropped from the page cache; it is read from the
    device.  The block device and the page cache are interfaces: a device reads
    back what was written, and the cache is only told which sectors changed.  The
    volume satisfies the laws of a node store as long as blocks are free, so the
    contract of the B-tree holds on it. *)

From stdpp Require Import gmap.
From S2P Require Import Prelude Str BTreeMap Bytes BNode NeoTree NeoForest NeoInsert FreeList.
Open Scope Z_scope.

(** ** Devices *)

Definition SECTOR_SIZE : nat := 512.

(** [read_sector] and [write_sector] of the trait [BlockDevice]. *)
Class BlockDevice (D : Type) := {
  read_sector : D -> Z -> option (list Z);
  write_sector : D -> Z -> list Z -> option D;
}.

(** A device of [dev_sectors] sectors that works. *)
Class BlockDeviceLaws (D : Type) `{BlockDevice D} := {
  dev_ok : D -> Z -> Prop;
  dev_read_len d cap l s : dev_ok d cap -> read_sector d l = Some s -> length s = SECTOR_SIZE;
  dev_write d cap l s : dev_ok d cap -> 0 <= l < cap -> length s = SECTOR_SIZE ->
    exists d', write_sector d l s = Some d' /\ dev_ok d' cap /\ read_sector d' l = Some s /\
      forall l', l' ≠ l -> read_sector d' l' = read_sector d l';
}.

(** What a write tells the page cache. *)
Class PageCacheOps (C : Type) := { invalidate_range : C -> Z -> Z -> C }.

(** ** The volume *)

Record NeoVolume (D C : Type) := mkVolume {
  vol_free : FreeList; vol_blocks : Z; vol_base : Z; vol_dev : D; vol_cache : C
}.
Arguments mkVolume {D C} _ _ _ _ _.
Arguments vol_free {D C} _.
Arguments vol_blocks {D C} _.
Arguments vol_base {D C} _.
Arguments vol_dev {D C} _.
Arguments vol_cache {D C} _.

Section volume.
Context {D C : Type} `{BlockDevice D} `{PageCacheOps C}.
Abbreviation Vol := (NeoVolume D C).

(** [IoStack::translate_lba]; a volume without partition has base 0. *)
Definition translate_lba (s : Vol) (lba : Z) : Z := u64 (vol_base s + lba).

(** The loops over the sectors of a block. *)
Fixpoint read_sectors (d : D) (lba : Z) (n : nat) : option (list Z) :=
  match n with
  | O => Some []
  | S n => s ← read_sector d lba; rest ← read_sectors d (lba + 1) n; Some (s ++ rest)
  end.

Fixpoint write_sectors (d : D) (lba : Z) (n : nat) (buf : list Z) : bool * D :=
  match n with
  | O => (true, d)
  | S n =>
      match write_sector d lba (take SECTOR_SIZE buf) with
      | None => (false, d)
      | Some d => write_sectors d (lba + 1) n (drop SECTOR_SIZE buf)
      end
  end.

Definition vol_read_node (s : Vol) (block_lba : Z) : option BTreeNode :=
  buf ← read_sectors (vol_dev s) (translate_lba s (u64 (block_lba * 8))) 8; deserialize buf.

Definition vol_write_node (s : Vol) (node : BTreeNode) : Z * Vol :=
  let '(r, fl) := alloc_blocks (vol_free s) 1 in
  let block_lba := match r with Some l => l | None => 0 end in
  let s := mkVolume fl (vol_blocks s) (vol_base s) (vol_dev s) (vol_cache s) in
  if block_lba =? 0 then (0, s)
  else
    let abs_sector := translate_lba s (u64 (block_lba * 8)) in
    let '(ok, d) := write_sectors (vol_dev s) abs_sector 8 (serialize node) in
    if ok then
      (block_lba, mkVolume fl (vol_blocks s) (vol_base s) d (invalidate_range (vol_cache s) abs_sector (abs_sector + 8)))
    else (0, mkVolume fl (vol_blocks s) (vol_base s) d (vol_cache s)).

#[global] Instance vol_io : BTreeIO Vol := {| read_node := vol_read_node; write_node := vol_write_node |}.

(** ** The volume as a node store *)

Context `{!BlockDeviceLaws D}.

Lemma read_sectors_ext d d' lba n :
  (forall l, lba <= l < lba + Z.of_nat n -> read_sector d' l = read_sector d l) ->
  read_sectors d' lba n = read_sectors d lba n.
Proof.
  revert lba. induction n as [|n IH]; intros lba Hl; [done|]. cbn [read_sectors].
  rewrite Hl by lia. destruct (read_sector d lba); [|done]. cbn [mbind option_bind]. rewrite IH; [done|]. intros. apply Hl. lia.
Qed.

Lemma write_sectors_spec d cap lba n buf :
  dev_ok d cap -> 0 <= lba -> lba + Z.of_nat n <= cap -> length buf = (n * SECTOR_SIZE)%nat ->
  exists d', write_sectors d lba n buf = (true, d') /\ dev_ok d' cap /\ read_sectors d' lba n = Some buf /\
    forall l, ~ (lba <= l < lba + Z.of_nat n) -> read_sector d' l = read_sector d l.
Proof.
  revert d lba buf. induction n as [|n IH]; intros d lba buf Hd Hlba Hcap Hlen.
  { exists d. destruct buf; [|done]. by split_and!. }
  cbn [write_sectors]. unfold SECTOR_SIZE in *. cbn [Nat.mul] in Hlen.
  destruct (dev_write d cap lba (take 512 buf) Hd) as (d1 & -> & Hd1 & Hr1 & Ho1); [lia|unfold SECTOR_SIZE; rewrite length_take; lia|].
  destruct (IH d1 (lba + 1) (drop 512 buf) Hd1) as (d2 & -> & Hd2 & Hr2 & Ho2); [lia|lia|rewrite length_drop; lia|].
  exists d2. split_and!; try done.
  - cbn [read_sectors]. rewrite Ho2, Hr1 by lia. cbn [mbind option_bind]. rewrite Hr2. cbn [mbind option_bind].
    by rewrite take_drop.
  - intros l Hl. rewrite Ho2, Ho1 by lia. done.
Qed.

(** The nodes [m] are on blocks that are not free, and [r] blocks are free. *)
Record vol_rep (s : Vol) (m : gmap Z BTreeNode) (r : nat) : Prop := {
  vr_free : chain 2 (regions (vol_free s)) (vol_blocks s);
  vr_size : 2 <= vol_blocks s <= 2 ^ 32;
  vr_dev : exists cap, dev_ok (vol_dev s) cap /\ 0 <= vol_base s /\ vol_base s + vol_blocks s * 8 <= cap /\ cap <= 2 ^ 64;
  vr_room : Z.of_nat r <= total_free_of (regions (vol_free s));
  vr_nodes l n : m !! l = Some n -> storable n /\ 0 < l < vol_blocks s /\ ~ covers (regions (vol_free s)) l /\
    read_sectors (vol_dev s) (vol_base s + l * 8) 8 = Some (serialize n);
}.

Lemma translate_small s l : 0 <= l < vol_blocks s -> vol_blocks s <= 2 ^ 32 -> 0 <= vol_base s ->
  vol_base s + vol_blocks s * 8 <= 2 ^ 64 -> translate_lba s (u64 (l * 8)) = vol_base s + l * 8.
Proof. intros. unfold translate_lba. by rewrite (wrap_small 64 (l * 8)), wrap_small by lia. Qed.

Lemma node_sectors n : storable n -> length (serialize n) = (8 * SECTOR_SIZE)%nat.
Proof. intros Hs. rewrite length_serialize by done. unfold NODE_SIZE, SECTOR_SIZE. lia. Qed.

Lemma vol_read s m r l n : vol_rep s m r -> m !! l = Some n -> vol_read_node s l = Some n.
Proof.
  intros [_ Hsz (cap & _ & Hb & Hcap & Hc64) _ Hn] Hl. destruct (Hn l n Hl) as (Hs & Hlr & _ & Hr).
  unfold vol_read_node. rewrite translate_small by lia. rewrite Hr. cbn [mbind option_bind]. by apply deserialize_serialize.
Qed.

(** What allocating and writing blocks leaves alone: a block that was not free is
    not free after, and its sectors hold what they held. *)
Record vol_frame (s s' : Vol) : Prop := {
  vf_blocks : vol_blocks s' = vol_blocks s;
  vf_base : vol_base s' = vol_base s;
  vf_free b : covers (regions (vol_free s')) b -> covers (regions (vol_free s)) b;
  vf_data l : (forall b, covers (regions (vol_free s)) b -> ~ (vol_base s + b * 8 <= l < vol_base s + b * 8 + 8)) ->
    read_sector (vol_dev s') l = read_sector (vol_dev s) l;
}.

Lemma vol_frame_refl s : vol_frame s s.
Proof. by constructor. Qed.

Lemma vol_frame_trans s s' s'' : vol_frame s s' -> vol_frame s' s'' -> vol_frame s s''.
Proof.
  intros [B1 A1 F1 D1] [B2 A2 F2 D2]. constructor; [congruence|congruence|auto|].
  intros l Hl. rewrite D2; [auto|]. rewrite A1. auto.
Qed.

Lemma vol_write_spec s m r n : vol_rep s m (S r) -> storable n ->
  let l := (vol_write_node s n).1 in
  covers (regions (vol_free s)) l /\ 0 < l < 2 ^ 64 /\ m !! l = None /\ vol_rep (vol_write_node s n).2 (<[l := n]> m) r /\
  vol_frame s (vol_write_node s n).2 /\
  total_free_of (regions (vol_free (vol_write_node s n).2)) = total_free_of (regions (vol_free s)) - 1.
Proof.
  intros [Hfree Hsz (cap & Hd & Hb & Hcap & Hc64) Hroom Hn] Hst.
  destruct (alloc_spec (vol_free s) 2 (vol_blocks s) 1) as [[_ Hall]|(rg & rs' & Ha & Hc' & Hin & Hle & _ & Htot & Hcov)]; [done|lia..| |].
  { exfalso. clear - Hroom Hall Hfree. destruct (regions (vol_free s)) as [|rg rs]; [simpl in Hroom; lia|].
    inversion Hall; subst. destruct Hfree. lia. }
  pose proof (chain_elem _ _ _ _ Hfree Hin) as (Hlo & Hpos & Hhi). unfold vol_write_node, alloc_blocks. rewrite Ha. cbn [fmap option_fmap option_map fst].
  assert (covers (regions (vol_free s)) (start_lba rg)) as Hcovr.
  { apply Exists_exists. exists rg. split; [done|]. unfold in_region. lia. }
  assert (m !! start_lba rg = None) as Hnone.
  { destruct (m !! start_lba rg) as [n'|] eqn:E; [|done]. destruct (Hn _ _ E) as (_ & _ & Hnc & _). done. }
  destruct (Z.eqb_spec (start_lba rg) 0); [lia|]. cbn [vol_dev vol_cache vol_base vol_blocks].
  rewrite (translate_small (mkVolume (mkFree rs' true) (vol_blocks s) (vol_base s) (vol_dev s) (vol_cache s))); cbn [vol_blocks vol_base]; [|lia..].
  destruct (write_sectors_spec (vol_dev s) cap (vol_base s + start_lba rg * 8) 8 (serialize n)) as (d' & Hw & Hd' & Hr' & Ho');
    [done|lia|lia|by apply node_sectors|]. rewrite Hw. cbn [fst snd].
  split; [done|]. split; [lia|]. split; [done|]. split.
  2:{ split; [|done]. constructor; cbn [vol_free vol_blocks vol_base vol_dev regions]; [done|done|by intros b [? _]%Hcov|].
      intros l Hl. apply Ho'. apply (Hl _ Hcovr). }
  constructor; cbn [vol_free vol_blocks vol_base vol_dev vol_cache regions]; [done|done|by exists cap|lia|].
  intros l n'. destruct (decide (l = start_lba rg)) as [->|Hne].
  - rewrite lookup_insert_eq. intros [= <-]. split_and!; try done; try lia. rewrite <-Hcov. lia.
  - rewrite lookup_insert_ne by done. intros Hl. destruct (Hn l n' Hl) as (H1 & H2 & H3 & H4). split_and!; try done; try lia.
    + rewrite <-Hcov. tauto.
    + rewrite <-H4. apply read_sectors_ext. intros l' Hl'. apply Ho'. lia.
Qed.

Lemma vol_write s m r n : vol_rep s m (S r) -> storable n ->
  0 < (vol_write_node s n).1 < 2 ^ 64 /\ m !! (vol_write_node s n).1 = None /\
  vol_rep (vol_write_node s n).2 (<[(vol_write_node s n).1 := n]> m) r.
Proof. intros Hr Hs. by destruct (vol_write_spec s m r n Hr Hs) as (_ & ? & ? & ? & _). Qed.

#[global] Instance vol_laws : BTreeIOLaws Vol := {| io_rep := vol_rep; io_read := vol_read; io_write := vol_write |}.

(** Nodes on a volume: with a block free, writing a node takes a block that
    was free and no longer is, leaves the free list valid, and reading the block
    from the device gives the node back; every node that was on the volume is still
    read as before. *)
Theorem volume_write_node_correct s m r n :
  vol_rep s m (S r) -> storable n ->
  let '(l, s') := vol_write_node s n in
  vol_read_node s' l = Some n /\ covers (regions (vol_free s)) l /\ ~ covers (regions (vol_free s')) l /\
  is_valid (vol_free s') (vol_blocks s') = true /\ vol_rep s' (<[l := n]> m) r /\
  forall l' n', m !! l' = Some n' -> vol_read_node s' l' = Some n'.
Proof.
  intros Hr Hs. destruct (vol_write_spec s m r n Hr Hs) as (Hc & Hl & Hn & Hr' & _). destruct (vol_write_node s n) as [l s']. cbn [fst snd] in *.
  split_and!; [eapply vol_read; [exact Hr'|apply lookup_insert_eq]|done| | |done|].
  - destruct Hr' as [_ _ _ _ Hnodes]. by destruct (Hnodes l n (lookup_insert_eq _ _ _)) as (_ & _ & ? & _).
  - apply chain_valid; [apply Hr'|apply Hr'].
  - intros l' n' Hl'. eapply vol_read; [exact Hr'|]. rewrite lookup_insert_ne; [done|]. intros ->. congruence.
Qed.

(** A full volume loses a directory: when no block is free, inserting into
    a directory of one leaf that has room does not fail.  Every write returns 0,
    [insert_tracked] returns 0 as the new root and reports the old leaf as garbage,
    and at root 0 no name is found. *)
Theorem insert_on_full_volume_loses_directory s g root es key v f :
  regions (vol_free s) = [] -> root ≠ 0 -> vol_read_node s root = Some (mkNode Leaf es) ->
  node_fits (match find_pos es key with
             | Ok pos => alter (λ e : BTreeEntry, (e.1, v)) pos es
             | Err pos => vec_insert pos (key, v) es
             end) = true ->
  insert_tracked (S f) root key v (s, g) = Some (Some 0, (s, g ++ [root])) /\ forall k, lookup f s 0 k = Some None.
Proof.
  intros Hfull Hroot Hread Hfit. split; [|done].
  assert (forall n, vol_write_node s n = (0, s)) as Hw.
  { intros n. unfold vol_write_node, alloc_blocks, alloc. rewrite Hfull. by destruct s. }
  assert (ins (S f) root key v (s, g) = Some (Some (Done 0), (s, g ++ [root]))) as Hins.
  { cbn [ins]. unfold mbind, M_bind, readM, pushM, writeM, mret, M_ret. cbn [fst snd read_node write_node vol_io].
    rewrite Hread. cbn [fst snd entries node_type]. rewrite is_leaf_Leaf, Hfit. cbn [negb fst snd].
    by rewrite Hw. }
  unfold insert_tracked. destruct (Z.eqb_spec root 0); [done|]. unfold mbind, M_bind. by rewrite Hins.
Qed.

End volume.

(** ** A small volume in memory *)

Abbreviation MemDisk := (gmap Z (list Z)).

#[global] Instance mem_disk : BlockDevice MemDisk :=
  {| read_sector d l := d !! l; write_sector d l s := Some (<[l := s]> d) |}.

#[global] Program Instance mem_disk_laws : BlockDeviceLaws MemDisk :=
  {| dev_ok d cap := forall l s, d !! l = Some s -> length s = SECTOR_SIZE |}.
Next Obligation. intros d cap l s Hd Hl. exact (Hd l s Hl). Qed.
Next Obligation.
  intros d cap l s Hd Hl Hs. exists (<[l := s]> d). split; [done|]. split; [|split; [apply lookup_insert_eq|]].
  - intros l' s'. destruct (decide (l' = l)) as [->|]; [rewrite lookup_insert_eq; congruence|].
    rewrite lookup_insert_ne by done. apply Hd.
  - intros l' Hne. by apply lookup_insert_ne.
Qed.

#[global] Instance no_cache : PageCacheOps () := {| invalidate_range c _ _ := c |}.

(** Ten blocks behind sector 100, none of them written. *)
Definition demo_volume : NeoVolume MemDisk () := mkVolume (mkFree [mkRegion 2 8] false) 10 100 ∅ tt.

Lemma demo_volume_rep : vol_rep demo_volume ∅ 8.
Proof.
  constructor; cbn.
  - lia.
  - lia.
  - exists 1000. split_and!; try lia. intros l s Hl. by rewrite lookup_empty in Hl.
  - lia.
  - intros l n Hl. by rewrite lookup_empty in Hl.
Qed.

Lemma volume_write_node_correct_witness : exists l s', vol_write_node demo_volume sample_node = (l, s') /\
  vol_read_node s' l = Some sample_node /\ is_valid (vol_free s') (vol_blocks s') = true.
Proof.
  pose proof (volume_write_node_correct demo_volume ∅ 7 sample_node demo_volume_rep sample_storable) as Hw.
  destruct (vol_write_node demo_volume sample_node) as [l s']. exists l, s'. split; [reflexivity|].
  destruct Hw as (H1 & _ & _ & H2 & _). split; assumption.
Defined.

(** The same volume with its last block taken. *)
Definition full_volume : NeoVolume MemDisk () :=
  let s := (vol_write_node demo_volume sample_node).2 in mkVolume fl_new (vol_blocks s) (vol_base s) (vol_dev s) tt.

Lemma insert_on_full_volume_loses_directory_witness :
  insert_tracked 1 2 [100] [1] (full_volume, []) = Some (Some 0, (full_volume, [2])) /\
  forall k, lookup 0 full_volume 0 k = Some None.
Proof.
  apply (insert_on_full_volume_loses_directory full_volume [] 2 (entries sample_node) [100] [1] 0);
    [reflexivity|discriminate| |reflexivity].
  vm_compute. reflexivity.
Defined.
