(* ===== verification/NeoDir.v ===== *)
(** * NeoDir.v: directory entries ([fs/neofs/neodos_dir.rs])

    A directory is a B-tree whose keys are names and whose values are entries of
    128 bytes.  The theorems state that an entry is read back as it was written
    and that a directory behaves as a map from names to entries. *)

From stdpp Require Import gmap.
From S2P Require Import Prelude Str BTreeMap Bytes BNode NeoTree NeoForest NeoInsert MemIO.
Open Scope Z_scope.

Definition DIRENTRY_SIZE : nat := 128.
Definition NAME_MAX : nat := 48.
Definition INLINE_MAX : nat := 16.

Definition MODE_DIR : Z := 0x40.
Definition MODE_FILE : Z := 0x80.
Definition PERM_R : Z := 1.
Definition PERM_W : Z := 2.
Definition PERM_X : Z := 4.
Definition PERM_D : Z := 16.

Record DirEntryV2 := mkDirEntry {
  de_name : str; de_mode : Z; de_size : Z; de_created : Z; de_modified : Z; de_checksum : Z;
  de_inline_len : Z; de_inline_data : list Z; de_extent_lba : Z; de_extent_count : Z
}.

Definition new_entry (name : str) (mode : Z) : DirEntryV2 :=
  mkDirEntry name mode 0 0 0 0 0 (replicate INLINE_MAX 0) 0 0.
Definition new_file (name : str) : DirEntryV2 :=
  new_entry name (Z.lor MODE_FILE (Z.lor PERM_R (Z.lor PERM_W (Z.lor PERM_X PERM_D)))).
Definition new_dir (name : str) : DirEntryV2 :=
  new_entry name (Z.lor MODE_DIR (Z.lor PERM_R (Z.lor PERM_W (Z.lor PERM_X PERM_D)))).

Definition de_is_dir (e : DirEntryV2) : bool := negb (Z.land (de_mode e) MODE_DIR =? 0).
Definition de_is_file (e : DirEntryV2) : bool := negb (Z.land (de_mode e) MODE_FILE =? 0).

(** A field of [n] bytes that starts with [l]. *)
Definition field (n : nat) (l : list Z) : list Z := l ++ replicate (n - length l) 0.

(** The fields in order, at offsets 0, 1, 49, 65, 67, 75, 83, 91, 95, 99 and 107,
    and the padding. *)
Definition de_serialize (e : DirEntryV2) : list Z :=
  let nl := Nat.min (length (de_name e)) NAME_MAX in
  let il := Z.to_nat (Z.min (de_inline_len e) (Z.of_nat INLINE_MAX)) in
  [Z.of_nat nl] ++ field NAME_MAX (take nl (de_name e)) ++ field INLINE_MAX (take il (de_inline_data e)) ++
  le_bytes 2 (de_mode e) ++ le_bytes 8 (de_size e) ++ le_bytes 8 (de_created e) ++ le_bytes 8 (de_modified e) ++
  le_bytes 4 (de_checksum e) ++ le_bytes 4 (de_inline_len e) ++ le_bytes 8 (de_extent_lba e) ++
  le_bytes 4 (de_extent_count e) ++ replicate 17 0.

Definition sub (buf : list Z) (off n : nat) : list Z := take n (drop off buf).

Definition de_deserialize (buf : list Z) : DirEntryV2 :=
  let nl := Z.to_nat (le_val (sub buf 0 1)) in
  mkDirEntry (if (0 <? nl)%nat then sub buf 1 (Nat.min nl NAME_MAX) else [])
    (le_val (sub buf 65 2)) (le_val (sub buf 67 8)) (le_val (sub buf 75 8)) (le_val (sub buf 83 8))
    (le_val (sub buf 91 4)) (le_val (sub buf 95 4)) (sub buf 49 16) (le_val (sub buf 99 8)) (le_val (sub buf 107 4)).

Definition to_btree_entry (e : DirEntryV2) : BTreeEntry := (de_name e, de_serialize e).

(** The value in a buffer of 128 bytes, cut or filled with zeros. *)
Definition entry_of_value (v : str) : DirEntryV2 :=
  de_deserialize (field DIRENTRY_SIZE (take (Nat.min (length v) DIRENTRY_SIZE) v)).

Definition from_btree_entry (e : BTreeEntry) : DirEntryV2 := entry_of_value e.2.

Section dir.
Context {St : Type} `{BTreeIO St}.

Definition dir_lookup (fuel : nat) (s : St) (dir_root_lba : Z) (name : str) : option (option DirEntryV2) :=
  r ← NeoTree.lookup fuel s dir_root_lba name; Some (option_map entry_of_value r).

Definition dir_readdir (fuel : nat) (s : St) (dir_root_lba : Z) (index : nat) : option (option DirEntryV2) :=
  es ← walk fuel s dir_root_lba; Some (option_map from_btree_entry (es !! index)).

Definition dir_count (fuel : nat) (s : St) (dir_root_lba : Z) : option nat :=
  es ← walk fuel s dir_root_lba; Some (length es).

End dir.

(** ** Reading back an entry *)

(** Fields within their widths; the inline bytes past the length are 0. *)
Record de_ok (e : DirEntryV2) : Prop := {
  do_name : bytes_ok (de_name e) /\ (length (de_name e) <= NAME_MAX)%nat;
  do_mode : 0 <= de_mode e < 2 ^ 16;
  do_size : 0 <= de_size e < 2 ^ 64;
  do_created : 0 <= de_created e < 2 ^ 64;
  do_modified : 0 <= de_modified e < 2 ^ 64;
  do_checksum : 0 <= de_checksum e < 2 ^ 32;
  do_inline_len : 0 <= de_inline_len e <= Z.of_nat INLINE_MAX;
  do_inline : exists l, bytes_ok l /\ Z.of_nat (length l) = de_inline_len e /\ de_inline_data e = field INLINE_MAX l;
  do_extent_lba : 0 <= de_extent_lba e < 2 ^ 64;
  do_extent_count : 0 <= de_extent_count e < 2 ^ 32;
}.

Lemma length_field n l : (length l <= n)%nat -> length (field n l) = n.
Proof. intros. unfold field. rewrite length_app, length_replicate. lia. Qed.

Lemma take_field n l : take (length l) (field n l) = l.
Proof. apply take_app_length. Qed.

Lemma sub_skip a b off n : (length a <= off)%nat -> sub (a ++ b) off n = sub b (off - length a) n.
Proof. intros. unfold sub. by rewrite drop_app_ge. Qed.

Lemma sub_here a b n : length a = n -> sub (a ++ b) 0 n = a.
Proof. intros <-. apply take_app_length. Qed.

Lemma length_de_serialize e : length (de_inline_data e) = INLINE_MAX -> length (de_serialize e) = DIRENTRY_SIZE.
Proof.
  intros Hi. unfold de_serialize. rewrite !length_app, !length_le_bytes, !length_field, length_replicate; [done|..];
    rewrite length_take; lia.
Qed.

Lemma de_roundtrip e : de_ok e -> de_deserialize (de_serialize e) = e.
Proof.
  intros [[_ Hn] Hm Hs Hc Hmo Hck Hil (l & _ & Hl & Hid) Hel Hec].
  assert (length (field NAME_MAX (take (Nat.min (length (de_name e)) NAME_MAX) (de_name e))) = 48%nat) as L1
    by (apply length_field; rewrite length_take; unfold NAME_MAX; lia).
  assert (field INLINE_MAX (take (Z.to_nat (Z.min (de_inline_len e) (Z.of_nat INLINE_MAX))) (de_inline_data e)) = de_inline_data e) as Ei.
  { rewrite Z.min_l, <-Hl, Nat2Z.id, Hid, take_field by lia. done. }
  assert (length (de_inline_data e) = 16%nat) as L2 by (rewrite Hid; apply length_field; unfold INLINE_MAX in *; lia).
  unfold de_deserialize, de_serialize. rewrite Ei. clear Ei Hid. change (Z.of_nat INLINE_MAX) with 16 in *.
  set (nl := Nat.min _ _) in *. set (name := field _ _) in *. rewrite (sub_here [_]) by done.
  assert (le_val [Z.of_nat nl] = Z.of_nat nl) as -> by (cbn; lia). rewrite Nat2Z.id.
  destruct e as [ename mode size created modified checksum ilen idata elba ecount]. cbn [de_name de_mode de_size de_created
    de_modified de_checksum de_inline_len de_inline_data de_extent_lba de_extent_count] in *.
  f_equal; [|repeat (rewrite sub_skip by (rewrite ?length_le_bytes, ?L1, ?L2; cbn [length]; lia);
      rewrite ?length_le_bytes, ?L1, ?L2; cbn [length Nat.sub]);
    rewrite sub_here by (rewrite ?length_le_bytes; done); try (apply le_val_bytes; cbn; lia); done..].
  rewrite (sub_skip [_]) by (cbn; lia). cbn [length Nat.sub]. unfold nl in *. rewrite (Nat.min_l _ NAME_MAX) in * by lia.
  destruct (Nat.ltb_spec 0 (length ename)) as [Hp|Hp]; [|by destruct ename; [|simpl in Hp; lia]].
  unfold sub, name. rewrite drop_0, take_app_le by (rewrite length_field; rewrite ?length_take; lia).
  rewrite Nat.min_l, firstn_all by lia. apply take_field.
Qed.

Lemma entry_of_serialized e : de_ok e -> entry_of_value (de_serialize e) = e.
Proof.
  intros He. assert (length (de_serialize e) = DIRENTRY_SIZE) as Hl.
  { apply length_de_serialize. destruct He as [_ _ _ _ _ _ ? (l & _ & ? & ->) _ _]. apply length_field. unfold INLINE_MAX in *. lia. }
  unfold entry_of_value. rewrite Nat.min_l, firstn_all by lia. unfold field. rewrite Hl, Nat.sub_diag. cbn [replicate].
  rewrite app_nil_r. by apply de_roundtrip.
Qed.

Lemma de_serialize_bytes e : de_ok e -> bytes_ok (de_serialize e).
Proof.
  intros [[Hn Hl] _ _ _ _ _ _ (l & Hb & _ & Hid) _ _]. unfold de_serialize. unfold bytes_ok.
  repeat apply Forall_app_2; try apply le_bytes_ok; try (apply Forall_replicate; unfold is_byte; lia).
  - constructor; [|constructor]. unfold is_byte, NAME_MAX in *. lia.
  - by apply Forall_take.
  - apply Forall_take. rewrite Hid. apply Forall_app_2; [done|]. apply Forall_replicate. unfold is_byte. lia.
Qed.

(** Directory entries are small B-tree entries. *)
Lemma de_entry_ok e : de_ok e -> entry_ok (to_btree_entry e).
Proof.
  intros He. assert (length (de_serialize e) = 128%nat) as Hl.
  { apply length_de_serialize. destruct He as [_ _ _ _ _ _ ? (l & _ & ? & ->) _ _]. apply length_field. unfold INLINE_MAX in *. lia. }
  pose proof (do_name e He) as [Hb Hn]. unfold NAME_MAX in Hn. constructor; unfold to_btree_entry, entry_size, MAX_ENTRY; cbn [fst snd].
  - constructor; [done|by apply de_serialize_bytes].
  - lia.
  - lia.
Qed.

(** ** Directories *)

Section directory.
Context {St : Type} `{BTreeIOLaws St}.

(** The tree at [root] holds the entries [des]. *)
Definition is_directory (m : gmap Z BTreeNode) (d : nat) (root : Z) (des : list DirEntryV2) : Prop :=
  Forall de_ok des /\ exists ls, rooted true m d root (map to_btree_entry des) ls.

Definition find_entry (des : list DirEntryV2) (name : str) : option DirEntryV2 :=
  head (filter (λ e, de_name e = name) des).

Lemma bt_get_entries des name :
  bt_get (map to_btree_entry des) name = option_map de_serialize (find_entry des name).
Proof.
  induction des as [|e des IH]; [done|]. unfold find_entry. cbn [map to_btree_entry bt_get]. rewrite filter_cons.
  destruct (decide (name = de_name e)) as [->|Hne]; [by rewrite decide_True|].
  rewrite decide_False by done. exact IH.
Qed.

Lemma find_entry_ok des name e : Forall de_ok des -> find_entry des name = Some e -> de_ok e /\ de_name e = name.
Proof.
  intros Hall Hf. unfold find_entry in Hf. destruct (filter _ des) as [|e' l] eqn:E; [done|]. injection Hf as ->.
  assert (e ∈ filter (λ e, de_name e = name) des) as [Hn Hin]%list_elem_of_filter by (rewrite E; by left).
  rewrite Forall_forall in Hall. auto.
Qed.

(** The entries after inserting or replacing [e]. *)
Fixpoint insert_entry (des : list DirEntryV2) (e : DirEntryV2) : list DirEntryV2 :=
  match des with
  | [] => [e]
  | x :: des =>
      if key_lt (de_name e) (de_name x) then e :: x :: des
      else if decide (de_name e = de_name x) then e :: des
      else x :: insert_entry des e
  end.

Lemma insert_entry_map des e :
  bt_insert (map to_btree_entry des) (de_name e) (de_serialize e) = map to_btree_entry (insert_entry des e).
Proof.
  induction des as [|x des IH]; [done|]. cbn [map to_btree_entry bt_insert insert_entry].
  destruct (key_lt (de_name e) (de_name x)); [done|]. case_decide; [done|]. cbn [map]. by rewrite <-IH.
Qed.

Lemma Forall_insert_entry (P : DirEntryV2 -> Prop) des e : Forall P des -> P e -> Forall P (insert_entry des e).
Proof.
  intros Hd He. induction Hd as [|x des Hx Hd IH]; simpl; [by constructor|].
  destruct (key_lt (de_name e) (de_name x)); [constructor; [done|by constructor]|]. case_decide; by constructor.
Qed.

Lemma insert_entry_ok des e : Forall de_ok des -> de_ok e -> Forall de_ok (insert_entry des e).
Proof. apply Forall_insert_entry. Qed.

Lemma find_entry_cons x des name :
  find_entry (x :: des) name = if decide (de_name x = name) then Some x else find_entry des name.
Proof. unfold find_entry. rewrite filter_cons. by case_decide. Qed.

Lemma find_insert_entry des e name :
  find_entry (insert_entry des e) name = if decide (name = de_name e) then Some e else find_entry des name.
Proof.
  induction des as [|x des IH]; cbn [insert_entry].
  { rewrite find_entry_cons. repeat case_decide; congruence || done. }
  destruct (key_lt (de_name e) (de_name x)); [|destruct (decide (de_name e = de_name x)) as [E|E]];
    rewrite !find_entry_cons; [|..]; repeat case_decide; congruence || done.
Qed.

(** What the directory operations answer. *)
Lemma directory_reads s m r d root des :
  io_rep s m r -> is_directory m d root des ->
  (forall name, dir_lookup (S d) s root name = Some (find_entry des name)) /\
  (forall i, dir_readdir (S d) s root i = Some (des !! i)) /\ dir_count (S d) s root = Some (length des).
Proof.
  intros Hr [Hok [ls Ht]]. assert (walk (S d) s root = Some (map to_btree_entry des)) as Hw.
  { unfold walk. destruct Ht as [(-> & E & _)|Ht]; [by rewrite E|]. pose proof (tree_addr _ _ _ _ _ _ _ _ Ht).
    destruct (tree_root _ _ _ _ _ _ _ _ Ht) as [n Hn]. destruct (Z.eqb_spec root 0); [lia|].
    rewrite (io_read s m r root n Hr Hn). by eapply walk_tree. }
  split; [|split].
  - intros name. unfold dir_lookup. rewrite (rooted_lookup true s m r d root _ ls name Hr Ht), bt_get_entries.
    destruct (find_entry des name) as [e|] eqn:E; [|done]. cbn [mbind option_bind option_map]. apply find_entry_ok in E as [He _]; [|done].
    by rewrite entry_of_serialized.
  - intros i. unfold dir_readdir. rewrite Hw. cbn [mbind option_bind]. rewrite list_lookup_fmap.
    destruct (des !! i) as [e|] eqn:E; [|done]. cbn [fmap option_fmap option_map]. unfold from_btree_entry. cbn [to_btree_entry snd].
    rewrite entry_of_serialized; [done|]. by eapply (Forall_lookup_1 de_ok).
  - unfold dir_count. rewrite Hw. cbn [mbind option_bind]. by rewrite length_map.
Qed.

(** C17. A directory is a map from names to entries.  The entry inserted has a name
    of at most 48 bytes, fields that fit their width, at most 16 inline bytes, and
    zeros behind them; the store has room for [2 d + 3] nodes, [d] being the depth of
    the tree.  After inserting it (a new name, or a new entry for a name there is) the
    new root answers it for its name and the old entry for every other name,
    enumerates exactly the resulting entries in name order, and counts them; every
    field of the entry, its inline bytes included, comes back as it was stored. *)
Theorem directory_insert_correct (s : St) g m r d root des e :
  io_rep s m r -> is_directory m d root des -> de_ok e -> (2 * d + 3 <= r)%nat ->
  exists root' s' g' m' r' d', insert_tracked (S d) root (de_name e) (de_serialize e) (s, g) = Some (Some root', (s', g')) /\
    io_rep s' m' r' /\ is_directory m' d' root' (insert_entry des e) /\
    (forall name, dir_lookup (S d') s' root' name = Some (if decide (name = de_name e) then Some e else find_entry des name)) /\
    (forall i, dir_readdir (S d') s' root' i = Some (insert_entry des e !! i)) /\
    dir_count (S d') s' root' = Some (length (insert_entry des e)).
Proof.
  intros Hr [Hok [ls Ht]] He Hroom.
  destruct (insert_tracked_runs (s, g) m r d root _ ls (de_name e) (de_serialize e) Hr Ht (de_entry_ok e He) Hroom)
    as (root' & [s' g'] & Hrun & m' & fresh & gn & d' & ls' & Hs & Hlen & Hd & Ht' & Hperm).
  pose proof (step_ok_rep _ _ _ _ _ _ _ Hs) as Hr'. cbn [fst] in Hr'. rewrite insert_entry_map in Ht'.
  assert (is_directory m' d' root' (insert_entry des e)) as Hdir.
  { split; [by apply insert_entry_ok|]. exists ls'. by right. }
  destruct (directory_reads s' m' _ d' root' _ Hr' Hdir) as (H1 & H2 & H3).
  exists root', s', g', m', (r - length fresh)%nat, d'. split_and!; try done. intros name. by rewrite H1, find_insert_entry.
Qed.

End directory.

(** An entry is stored in 128 bytes and read back field by field: name (up to
    48 bytes), mode, size, times, checksum, inline bytes and extent. *)
Theorem dir_entry_roundtrip e : de_ok e ->
  length (de_serialize e) = DIRENTRY_SIZE /\ de_deserialize (de_serialize e) = e /\ from_btree_entry (to_btree_entry e) = e.
Proof.
  intros He. split_and!; [|by apply de_roundtrip|by apply entry_of_serialized].
  apply length_de_serialize. destruct He as [_ _ _ _ _ _ ? (l & _ & ? & ->) _ _]. apply length_field. unfold INLINE_MAX in *. lia.
Qed.

Definition sample_entry : DirEntryV2 :=
  mkDirEntry [65; 46; 84] 0x97 3 10 20 77 3 (field INLINE_MAX [1; 2; 3]) 0 0.

Lemma sample_entry_ok : de_ok sample_entry.
Proof.
  constructor; cbn; try lia.
  - split; [repeat constructor; lia|unfold NAME_MAX; lia].
  - unfold INLINE_MAX. lia.
  - exists [1; 2; 3]. split; [repeat constructor; lia|done].
Qed.

Lemma dir_entry_roundtrip_witness : de_deserialize (de_serialize sample_entry) = sample_entry.
Proof. apply (dir_entry_roundtrip sample_entry sample_entry_ok). Defined.

Lemma directory_insert_correct_witness : exists root' s' g' d',
  insert_tracked 1 0 [65; 46; 84] (de_serialize sample_entry) (mem_new, []) = Some (Some root', (s', g')) /\
  dir_lookup (S d') s' root' [65; 46; 84] = Some (Some sample_entry) /\ dir_count (S d') s' root' = Some 1%nat.
Proof.
  destruct (directory_insert_correct mem_new [] ∅ 20 0 0 [] sample_entry)
    as (root' & s' & g' & m' & r' & d' & Hrun & _ & _ & Hl & _ & Hc);
    [by apply mem_new_rep| |exact sample_entry_ok|simpl; lia|].
  - split; [constructor|]. exists []. by left.
  - exists root', s', g', d'. split; [exact Hrun|]. split; [rewrite Hl; reflexivity|exact Hc].
Defined.
