(* ===== verification/NeoFile.v ===== *)
(** * NeoFile.v: reading and writing files ([fs/neofs/neodos_io.rs])

    A file is up to 16 bytes inside its directory entry, or one run of blocks.  A
    write allocates a new run and copies what it does not replace.  Pages of 4096
    bytes are read and changed through the page cache, an interface here: at page
    addresses that do not overlap it reads back what was written.

    The outer [None] is a panic; an inner [None] is [Err(())]. *)

From stdpp Require Import gmap.
From S2P Require Import Prelude Str Bytes BNode FreeList NeoDir.
Open Scope Z_scope.

Definition BLOCK_SIZE : nat := Z.to_nat 4096.

(** [read_page] and [get_page_mut]: the page at a sector address; a change to it
    is made in place. *)
Class PageCache (S : Type) := {
  read_page : S -> Z -> option (list Z) * S;
  change_page : S -> Z -> (list Z -> list Z) -> bool * S;
}.

(** [dst[at..at + src.len()].copy_from_slice(src)]. *)
Definition overwrite (dst : list Z) (at_ : nat) (src : list Z) : list Z :=
  take at_ dst ++ src ++ drop (at_ + length src) dst.

Section file.
Context {S : Type} `{PageCache S}.

(** The loop of [file_read]; [fuel] is the number of blocks left. *)
Fixpoint read_blocks (fuel : nat) (start_lba size offset : Z) (block_offset : nat) (block : Z)
    (bytes_read : nat) (buf : list Z) (s : S) : option nat * list Z * S :=
  match fuel with
  | O => (Some bytes_read, buf, s)
  | Datatypes.S fuel =>
      if (bytes_read <? length buf)%nat then
        let lba := u64 (start_lba + block * 8) in
        match read_page s lba with
        | (None, s) => (None, buf, s)
        | (Some data, s) =>
            let remaining := u64 (size - offset - Z.of_nat bytes_read) in
            let to_copy := Z.to_nat (Z.min (Z.of_nat (Nat.min (BLOCK_SIZE - block_offset) (length buf - bytes_read))) remaining) in
            let buf := overwrite buf bytes_read (sub data block_offset to_copy) in
            read_blocks fuel start_lba size offset block_offset (block + 1) (bytes_read + to_copy) buf s
        end
      else (Some bytes_read, buf, s)
  end.

Definition blocks_of (size : Z) : Z := u32 (u64 (size + 4096 - 1) / 4096).

Definition file_read (entry : DirEntryV2) (offset : Z) (buf : list Z) (s : S) : option (option nat * list Z * S) :=
  if 0 <? de_inline_len entry then
    if Z.of_nat INLINE_MAX <? de_inline_len entry then None
    else
      let data := take (Z.to_nat (de_inline_len entry)) (de_inline_data entry) in
      if Z.of_nat (length data) <=? offset then Some (Some 0%nat, buf, s)
      else
        let to_copy := Nat.min (length buf) (length data - Z.to_nat offset) in
        Some (Some to_copy, overwrite buf 0 (sub data (Z.to_nat offset) to_copy), s)
  else if de_extent_lba entry =? 0 then Some (Some 0%nat, buf, s)
  else
    let total_blocks := blocks_of (de_size entry) in
    let start_block := u32 (offset / 4096) in
    let block_offset := Z.to_nat (offset mod 4096) in
    Some (read_blocks (Z.to_nat (total_blocks - start_block)) (de_extent_lba entry) (de_size entry) offset
            block_offset start_block 0 buf s).

(** What a write makes of the page of the block that starts at [block_start]. *)
Definition new_page (old : option (list Z)) (offset : Z) (data : list Z) (new_size block_start : Z) (page : list Z) : list Z :=
  let to_write := Z.to_nat (Z.min 4096 (new_size - block_start)) in
  let bs := Z.to_nat block_start in
  let page := match old with
              | Some old => let n := Nat.min to_write (length old - bs) in
                            if (0 <? n)%nat then overwrite page 0 (sub old bs n) else page
              | None => page
              end in
  if offset <=? block_start then
    let src_start := Z.to_nat (block_start - offset) in
    let n := Nat.min to_write (length data - src_start) in
    if (0 <? n)%nat then overwrite page 0 (sub data src_start n) else page
  else
    let overlap := Nat.min (Z.to_nat (offset - block_start)) to_write in
    let n := Nat.min (to_write - overlap) (length data) in
    if (0 <? n)%nat then overwrite page overlap (sub data 0 n) else page.

Fixpoint write_blocks (fuel : nat) (start_sector : Z) (old : option (list Z)) (offset : Z) (data : list Z) (new_size : Z)
    (block_idx : Z) (s : S) : bool * S :=
  match fuel with
  | O => (true, s)
  | Datatypes.S fuel =>
      match change_page s (u64 (start_sector + block_idx * 8)) (new_page old offset data new_size (block_idx * 4096)) with
      | (false, s) => (false, s)
      | (true, s) => write_blocks fuel start_sector old offset data new_size (block_idx + 1) s
      end
  end.

Definition with_extent (e : DirEntryV2) (lba count ilen size modified checksum : Z) (inline : list Z) : DirEntryV2 :=
  mkDirEntry (de_name e) (de_mode e) size (de_created e) modified checksum ilen inline lba count.

(** The part of a write that stays in the entry; [copy_from_slice] panics when
    the lengths differ. *)
Definition write_inline (entry : DirEntryV2) (offset : Z) (data : list Z) (new_size now : Z) : option DirEntryV2 :=
  let n := Z.to_nat new_size in
  let src := take (Nat.min (length data) INLINE_MAX) data in
  if negb (length src =? n)%nat then None
  else
    let inline := overwrite (replicate INLINE_MAX 0) 0 src in
    let inline :=
      if de_inline_len entry <? u64 (offset + Z.of_nat (length data)) then
        take INLINE_MAX (overwrite inline (Z.to_nat offset) data)
      else inline in
    Some (with_extent entry 0 0 new_size new_size now (crc32 (take n inline)) inline).

(** [ticks] is the time. The free list and the cache are threaded. *)
Definition file_write (entry : DirEntryV2) (offset : Z) (data : list Z) (fl : FreeList) (s : S) (base now : Z)
    : option (option DirEntryV2 * FreeList * S) :=
  let new_size := Z.max (u64 (offset + Z.of_nat (length data))) (de_size entry) in
  if new_size <=? Z.of_nat INLINE_MAX then
    e ← write_inline entry offset data new_size now; Some (Some e, fl, s)
  else
    let total_blocks := blocks_of new_size in
    match alloc_blocks fl total_blocks with
    | (None, fl) => Some (None, fl, s)
    | (Some start_block, fl) =>
        let start_sector := u64 (base + start_block * 8) in
        let need_preserve := (0 <? de_size entry) && ((0 <? offset) || (u64 (offset + Z.of_nat (length data)) <? new_size)) in
        '(old, s) ← (if need_preserve then
                       '(_, buf, s) ← file_read entry 0 (replicate (Z.to_nat (de_size entry)) 0) s; Some (Some buf, s)
                     else Some (None, s));
        match write_blocks (Z.to_nat total_blocks) start_sector old offset data new_size 0 s with
        | (false, s) => Some (None, fl, s)
        | (true, s) =>
            let e := with_extent entry start_block total_blocks 0 new_size now (de_checksum entry) (de_inline_data entry) in
            if new_size <=? 65536 then
              '(_, full, s) ← file_read (with_extent e start_sector total_blocks 0 new_size now (de_checksum e) (de_inline_data e))
                                0 (replicate (Z.to_nat new_size) 0) s;
              Some (Some (with_extent e start_block total_blocks 0 new_size now (crc32 full) (de_inline_data e)), fl, s)
            else Some (Some e, fl, s)
        end
    end.

Definition file_free_extents (entry : DirEntryV2) (fl : FreeList) : FreeList :=
  if negb (de_extent_lba entry =? 0) && (0 <? de_extent_count entry) then free fl (de_extent_lba entry) (de_extent_count entry)
  else fl.

End file.

(** ** Buffers *)

Lemma length_overwrite dst i src : (i + length src <= length dst)%nat -> length (overwrite dst i src) = length dst.
Proof. intros. unfold overwrite. rewrite !length_app, length_take, length_drop. lia. Qed.

Lemma overwrite_nil dst i : overwrite dst i [] = dst.
Proof. unfold overwrite. simpl. by rewrite Nat.add_0_r, take_drop. Qed.

Lemma overwrite_all dst src : length src = length dst -> overwrite dst 0 src = src.
Proof. intros E. unfold overwrite. rewrite E. simpl. by rewrite drop_all, app_nil_r. Qed.

Lemma lookup_overwrite dst i src j : (i + length src <= length dst)%nat ->
  overwrite dst i src !! j = if decide (i <= j < i + length src)%nat then src !! (j - i)%nat else dst !! j.
Proof.
  intros Hl. unfold overwrite. assert (length (take i dst) = i) as Ht by (rewrite length_take; lia).
  destruct (decide (j < i)%nat).
  - rewrite lookup_app_l, lookup_take_lt by lia. case_decide; [lia|done].
  - rewrite lookup_app_r, Ht by lia. destruct (decide (j < i + length src)%nat).
    + rewrite lookup_app_l by lia. case_decide; [done|lia].
    + rewrite lookup_app_r, lookup_drop by lia. case_decide; [lia|]. f_equal. lia.
Qed.

Lemma overwrite_app dst i a b : (i + length a + length b <= length dst)%nat ->
  overwrite (overwrite dst i a) (i + length a) b = overwrite dst i (a ++ b).
Proof.
  intros Hl. apply list_eq. intros j. rewrite !lookup_overwrite by (rewrite ?length_overwrite, ?length_app; lia).
  rewrite length_app. repeat case_decide; try lia; try done.
  - rewrite lookup_app_r by lia. f_equal. lia.
  - rewrite lookup_app_l by lia. done.
Qed.

Lemma length_sub l off n : (off + n <= length l)%nat -> length (sub l off n) = n.
Proof. intros. unfold sub. rewrite length_take, length_drop. lia. Qed.

Lemma lookup_sub l off n j : (j < n)%nat -> sub l off n !! j = l !! (off + j)%nat.
Proof. intros. unfold sub. by rewrite lookup_take_lt, lookup_drop. Qed.

Lemma sub_split l off n m : sub l off (n + m) = sub l off n ++ sub l (off + n) m.
Proof. unfold sub. by rewrite <-drop_drop, take_take_drop. Qed.

Lemma sub_sub l off n i m : (i + m <= n)%nat -> sub (sub l off n) i m = sub l (off + i) m.
Proof.
  intros. unfold sub. rewrite <-drop_drop. replace n with (i + (n - i))%nat by lia.
  rewrite <-take_drop_commute, take_take. f_equal. lia.
Qed.

Lemma sub_all l : sub l 0 (length l) = l.
Proof. unfold sub. by rewrite drop_0, firstn_all. Qed.

(** ** Reading a file *)

(** At the page addresses of [pc_page] the cache behaves as a store of pages. *)
Class PageCacheLaws (S : Type) `{PageCache S} := {
  pc_page : Z -> Prop;
  pc_view : S -> (Z -> list Z) -> Prop;
  pc_len s f l : pc_view s f -> pc_page l -> length (f l) = BLOCK_SIZE;
  pc_read s f l : pc_view s f -> pc_page l -> exists s', read_page s l = (Some (f l), s') /\ pc_view s' f;
  pc_change s f l g : pc_view s f -> pc_page l -> length (g (f l)) = BLOCK_SIZE -> exists s' f',
    change_page s l g = (true, s') /\ pc_view s' f' /\ f' l = g (f l) /\ forall l', pc_page l' -> l' ≠ l -> f' l' = f l';
}.

(** The run of pages from the sector [lba] on holds [content]. *)
Definition holds_file {S} `{PageCacheLaws S} (f : Z -> list Z) (lba : Z) (content : list Z) : Prop :=
  forall b, 0 <= b < blocks_of (Z.of_nat (length content)) ->
    pc_page (u64 (lba + b * 8)) /\
    forall j, (j < BLOCK_SIZE)%nat -> (Z.to_nat (b * 4096) + j < length content)%nat ->
      f (u64 (lba + b * 8)) !! j = content !! (Z.to_nat (b * 4096) + j)%nat.

Lemma blocks_of_spec size : 0 <= size < 2 ^ 40 -> size <= 4096 * blocks_of size < size + 4096.
Proof.
  intros Hs. unfold blocks_of. rewrite (wrap_small 64) by lia. replace (size + 4096 - 1) with (size + 4095) by lia.
  pose proof (Z.div_mod (size + 4095) 4096 ltac:(lia)) as Hd. pose proof (Z.mod_pos_bound (size + 4095) 4096 ltac:(lia)) as Hm.
  rewrite wrap_small by lia. lia.
Qed.

Section reading.
Context {S : Type} `{PageCacheLaws S}.

(** The loop of [file_read], when the offset is at the start of a page or the
    buffer ends within its page. *)
Lemma read_blocks_spec fuel lba content offset bo block br buf s f size want :
  size = Z.of_nat (length content) -> want = Nat.min (length buf) (length content - Z.to_nat offset) ->
  pc_view s f -> holds_file f lba content -> Z.of_nat (length content) < 2 ^ 40 -> 0 <= offset <= Z.of_nat (length content) ->
  0 <= block -> Z.of_nat fuel = Z.max 0 (blocks_of size - block) -> (br <= want)%nat -> (bo < BLOCK_SIZE)%nat ->
  (br = want \/ offset + Z.of_nat br = block * 4096 + Z.of_nat bo /\ (bo = 0%nat \/ br = 0%nat /\ bo + length buf <= BLOCK_SIZE)%nat) ->
  exists s', read_blocks fuel lba size offset bo block br buf s =
      (Some want, overwrite buf br (sub content (Z.to_nat offset + br) (want - br)), s') /\ pc_view s' f.
Proof.
  intros Hsize Hwant Hv Hf H40 Hoff. revert block br buf s Hwant Hv.
  induction fuel as [|fuel IH]; intros block br buf s Hwant Hv Hb Hfuel Hbr Hbo Hinv.
  - pose proof (blocks_of_spec size ltac:(lia)). assert (br = want) as ->.
    { destruct Hinv as [?|[E _]]; [done|]. lia. }
    exists s. rewrite Nat.sub_diag. unfold sub. cbn [take]. by rewrite overwrite_nil.
  - cbn [read_blocks]. destruct (Nat.ltb_spec br (length buf)) as [Hlt|Hge].
    2:{ assert (br = want) as -> by lia. exists s. rewrite Nat.sub_diag. unfold sub. cbn [take]. by rewrite overwrite_nil. }
    destruct (Hf block) as [Hpage Hcont]; [rewrite <-Hsize; lia|]. destruct (pc_read s f _ Hv Hpage) as (s1 & -> & Hv1).
    rewrite (wrap_small 64 (size - _ - _)) by lia.
    set (to_copy := Z.to_nat (Z.min _ _)).
    assert (to_copy = Nat.min (Nat.min (BLOCK_SIZE - bo) (length buf - br)) (length content - Z.to_nat offset - br)) as Htc by (unfold to_copy; lia). clearbody to_copy.
    assert (br + to_copy <= want)%nat as Hle by lia.
    assert (sub (f (u64 (lba + block * 8))) bo to_copy = sub content (Z.to_nat offset + br) to_copy) as ->.
    { destruct Hinv as [->|[E _]]; [assert (to_copy = 0%nat) as -> by lia; done|].
      apply list_eq. intros j. destruct (decide (j < to_copy)%nat); [|by unfold sub; rewrite !lookup_take_ge by lia].
      rewrite !lookup_sub by done. rewrite Hcont by lia. f_equal. lia. }
    set (piece := sub content _ to_copy). assert (length piece = to_copy) as Hpl by (apply length_sub; lia).
    destruct (IH (block + 1) (br + to_copy)%nat (overwrite buf br piece) s1) as (s2 & -> & Hv2).
    { by rewrite length_overwrite by lia. } { done. }
    { lia. } { lia. } { lia. } { done. }
    { rewrite length_overwrite by lia. destruct Hinv as [->|[E [->|[-> ?]]]]; [left; lia| |left; lia].
      destruct (decide (br + to_copy = want)%nat); [by left|right]. split; [unfold BLOCK_SIZE in *; lia|by left]. }
    exists s2. split; [|done]. f_equal. f_equal.
    rewrite <-Hpl at 1. rewrite overwrite_app by (rewrite length_sub; lia). f_equal. unfold piece.
    replace (want - br)%nat with (to_copy + (want - (br + to_copy)))%nat by lia. rewrite sub_split. do 2 f_equal; lia.
Qed.


(** The loop as it is: every page is read from the same offset on. *)
Lemma read_blocks_exact fuel lba size offset bo block br buf s f (limit : nat) :
  pc_view s f -> (bo < BLOCK_SIZE)%nat -> 0 <= size < 2 ^ 40 -> 0 <= offset < 2 ^ 40 -> Z.of_nat (length buf) < 2 ^ 40 ->
  limit = Nat.min (length buf) (if offset <=? size then Z.to_nat (size - offset) else length buf) -> (br <= limit)%nat ->
  (forall b, block <= b < block + Z.of_nat fuel -> pc_page (u64 (lba + b * 8))) ->
  let pages := (λ b, f (u64 (lba + b * 8))) <$> seqZ block (Z.of_nat fuel) in
  let n := Nat.min limit (br + fuel * (BLOCK_SIZE - bo)) in
  exists s', read_blocks fuel lba size offset bo block br buf s = (Some n, overwrite buf br (take (n - br) (concat (drop bo <$> pages))), s') /\ pc_view s' f.
Proof.
  intros Hv Hbo Hsz Ho Hbuf Hlim. cbv zeta. revert block br buf s Hv Hbuf Hlim. induction fuel as [|fuel IH]; intros block br buf s Hv Hbuf Hlim Hbr Hpages.
  { exists s. split; [|done]. cbn. replace (Nat.min limit (br + 0)) with br by lia. by rewrite Nat.sub_diag, overwrite_nil. }
  cbn [read_blocks]. destruct (Nat.ltb_spec br (length buf)) as [Hlt|Hge].
  2:{ exists s. split; [|done]. replace (Nat.min limit _) with br by lia. by rewrite Nat.sub_diag, overwrite_nil. }
  pose proof (Hpages block ltac:(lia)) as Hp. pose proof (pc_len _ _ _ Hv Hp) as Hlen. destruct (pc_read s f _ Hv Hp) as (s1 & -> & Hv1).
  set (page := f (u64 (lba + block * 8))) in *. set (to_copy := Z.to_nat (Z.min _ _)).
  assert (to_copy = Nat.min (BLOCK_SIZE - bo) (limit - br)) as Htc.
  { unfold to_copy. rewrite Hlim. destruct (Z.leb_spec offset size).
    - rewrite (wrap_small 64) by lia. lia.
    - replace (u64 (size - offset - Z.of_nat br)) with (size - offset - Z.of_nat br + 2 ^ 64) by (symmetry; unfold wrap; rewrite <-(Z.mod_add _ 1 (2 ^ 64)), Z.mul_1_l by lia; apply Z.mod_small; lia).
      unfold BLOCK_SIZE in *. lia. }
  clearbody to_copy. assert (length (sub page bo to_copy) = to_copy) as Hpl by (apply length_sub; lia).
  destruct (IH (block + 1) (br + to_copy)%nat (overwrite buf br (sub page bo to_copy)) s1 Hv1) as (s2 & -> & Hv2).
  { rewrite length_overwrite by lia. done. } { by rewrite length_overwrite by lia. } { lia. } { intros b Hb. apply Hpages. lia. }
  exists s2. split; [|done]. rewrite Nat2Z.inj_succ, (seqZ_cons block), Z.pred_succ by lia. rewrite <-Z.add_1_r. cbn [fmap list_fmap concat]. fold page.
  set (rest := concat _). set (k := (BLOCK_SIZE - bo)%nat) in *. assert (length (drop bo page) = k) as Hd by (rewrite length_drop; lia).
  replace (Nat.min limit (br + to_copy + fuel * k)) with (Nat.min limit (br + Datatypes.S fuel * k)) by (destruct (decide (limit - br <= k)%nat); nia).
  set (n := Nat.min limit (br + Datatypes.S fuel * k)). f_equal. f_equal.
  pose proof (overwrite_app buf br (sub page bo to_copy) (take (n - (br + to_copy)) rest)) as Hov. rewrite Hpl, length_take in Hov. rewrite Hov by lia.
  f_equal. rewrite take_app, Hd. unfold sub. rewrite Htc. destruct (decide (limit - br <= k)%nat) as [Hs|Hb].
  - assert (n = limit) as -> by (unfold n; lia). rewrite Nat.min_r by lia. replace (limit - (br + (limit - br)))%nat with 0%nat by lia. replace (limit - br - k)%nat with 0%nat by lia. done.
  - rewrite Nat.min_l by lia. rewrite !(take_ge (drop bo page)) by lia. do 2 f_equal. lia.
Qed.

End reading.

(** ** Writing a file *)

(** The byte a write puts at position [i] of the file. *)
Definition written (old : option (list Z)) (offset : Z) (data : list Z) (i : nat) : option Z :=
  if decide (offset <= Z.of_nat i < offset + Z.of_nat (length data)) then data !! (i - Z.to_nat offset)%nat
  else o ← old; o !! i.

Lemma length_new_page old offset data new_size bs page :
  0 <= bs < new_size -> 0 <= offset -> length page = BLOCK_SIZE -> length (new_page old offset data new_size bs page) = BLOCK_SIZE.
Proof.
  intros Hbs Ho Hp. unfold new_page. assert (Z.of_nat BLOCK_SIZE = 4096) as HB by done.
  set (page1 := match old with Some _ => _ | None => _ end).
  assert (length page1 = BLOCK_SIZE) as Hp1.
  { unfold page1. destruct old as [o|]; [|done]. destruct (Nat.ltb_spec 0 (Nat.min (Z.to_nat (Z.min 4096 (new_size - bs))) (length o - Z.to_nat bs))); [|done].
    rewrite length_overwrite; [done|]. rewrite length_sub by lia. lia. }
  clearbody page1. destruct (Z.leb_spec offset bs).
  - destruct (Nat.ltb_spec 0 (Nat.min (Z.to_nat (Z.min 4096 (new_size - bs))) (length data - Z.to_nat (bs - offset)))); [|done].
    rewrite length_overwrite; [done|]. rewrite length_sub by lia. lia.
  - set (ov := Nat.min (Z.to_nat (offset - bs)) (Z.to_nat (Z.min 4096 (new_size - bs)))).
    destruct (Nat.ltb_spec 0 (Nat.min (Z.to_nat (Z.min 4096 (new_size - bs)) - ov) (length data))); [|done].
    rewrite length_overwrite; [done|]. rewrite length_sub by lia. lia.
Qed.

Lemma new_page_lookup old offset data new_size b page j v :
  0 <= b -> 0 <= offset -> length page = BLOCK_SIZE -> (j < BLOCK_SIZE)%nat ->
  b * 4096 + Z.of_nat j < new_size -> written old offset data (Z.to_nat (b * 4096) + j) = Some v ->
  new_page old offset data new_size (b * 4096) page !! j = Some v.
Proof.
  intros Hb Ho Hp Hj Hi Hw. unfold new_page. assert (Z.of_nat BLOCK_SIZE = 4096) as HB by done.
  set (tw := Z.to_nat (Z.min 4096 (new_size - b * 4096))). assert (j < tw)%nat as Hjt by lia. assert (tw <= 4096)%nat by lia.
  set (page1 := match old with Some _ => _ | None => _ end).
  assert (length page1 = BLOCK_SIZE /\ forall o x, old = Some o -> o !! (Z.to_nat (b * 4096) + j)%nat = Some x -> page1 !! j = Some x) as [Hp1 Hold].
  { unfold page1. destruct old as [o|]; [|by split]. destruct (Nat.ltb_spec 0 (Nat.min tw (length o - Z.to_nat (b * 4096)))) as [Hn|Hn].
    - split; [rewrite length_overwrite; [done|]; rewrite length_sub by lia; lia|].
      intros o' x [= <-] Hx. pose proof (lookup_lt_Some _ _ _ Hx).
      rewrite lookup_overwrite by (rewrite length_sub by lia; lia). rewrite length_sub by lia.
      rewrite decide_True by lia. rewrite lookup_sub by lia. rewrite <-Hx. f_equal. lia.
    - split; [done|]. intros o' x [= <-] Hx%lookup_lt_Some. lia. }
  clearbody page1. unfold written in Hw. destruct (Z.leb_spec offset (b * 4096)).
  - destruct (Nat.ltb_spec 0 (Nat.min tw (length data - Z.to_nat (b * 4096 - offset)))) as [Hn|Hn].
    + rewrite lookup_overwrite by (rewrite length_sub by lia; lia). rewrite length_sub by lia.
      destruct (decide (offset <= _ < _)) as [Hd|Hd].
      * rewrite decide_True by lia. rewrite lookup_sub by lia. rewrite <-Hw. f_equal. lia.
      * rewrite decide_False by lia. destruct old as [o|]; [|done]. by eapply Hold.
    + destruct (decide (offset <= _ < _)) as [Hd|Hd]; [lia|]. destruct old as [o|]; [|done]. by eapply Hold.
  - set (ov := Nat.min (Z.to_nat (offset - b * 4096)) tw). destruct (Nat.ltb_spec 0 (Nat.min (tw - ov) (length data))) as [Hn|Hn].
    + rewrite lookup_overwrite by (rewrite length_sub by lia; lia). rewrite length_sub by lia.
      destruct (decide (offset <= _ < _)) as [Hd|Hd].
      * rewrite decide_True by lia. rewrite lookup_sub by lia. rewrite <-Hw. f_equal. lia.
      * rewrite decide_False by lia. destruct old as [o|]; [|done]. by eapply Hold.
    + destruct (decide (offset <= _ < _)) as [Hd|Hd]; [lia|]. destruct old as [o|]; [|done]. by eapply Hold.
Qed.

Section writing.
Context {S : Type} `{PageCacheLaws S}.
Context (sector : Z) (old : option (list Z)) (offset : Z) (data : list Z) (new_size : Z).

(** The page of block [b] has the bytes of the write. *)
Definition page_written (f : Z -> list Z) (b : Z) : Prop := forall j v,
  (j < BLOCK_SIZE)%nat -> b * 4096 + Z.of_nat j < new_size -> written old offset data (Z.to_nat (b * 4096) + j) = Some v ->
  f (u64 (sector + b * 8)) !! j = Some v.

Lemma write_blocks_spec fuel b s f :
  pc_view s f -> 0 <= offset -> 0 < new_size < 2 ^ 40 -> 0 <= sector -> sector + 8 * blocks_of new_size <= 2 ^ 64 ->
  (forall b, 0 <= b < blocks_of new_size -> pc_page (u64 (sector + b * 8))) ->
  0 <= b -> b + Z.of_nat fuel = blocks_of new_size -> (forall b', 0 <= b' < b -> page_written f b') ->
  exists s' f', write_blocks fuel sector old offset data new_size b s = (true, s') /\ pc_view s' f' /\
    (forall b', 0 <= b' < blocks_of new_size -> page_written f' b').
Proof.
  intros Hv Ho Hsz Hs0 Hs64 Hpages. pose proof (blocks_of_spec new_size ltac:(lia)) as HB.
  revert b s f Hv. induction fuel as [|fuel IH]; intros b s f Hv Hb Hbf Hdone.
  { exists s, f. split; [done|]. split; [done|]. intros b' Hb'. apply Hdone. lia. }
  cbn [write_blocks]. pose proof (Hpages b ltac:(lia)) as Hp. pose proof (pc_len _ _ _ Hv Hp) as Hlen.
  destruct (pc_change s f _ (new_page old offset data new_size (b * 4096)) Hv Hp) as (s1 & f1 & -> & Hv1 & Hf1 & Hother).
  { apply length_new_page; [lia|done|done]. }
  apply (IH (b + 1) s1 f1 Hv1); [lia|lia|]. intros b' Hb' j v Hj Hi Hw. destruct (decide (b' = b)) as [->|Hne].
  - rewrite Hf1. by apply new_page_lookup.
  - rewrite Hother; [apply Hdone; [lia|done..]|apply Hpages; lia|]. rewrite !wrap_small by lia. lia.
Qed.

End writing.

(** ** The contract *)

Section contract.
Context {S : Type} `{PageCacheLaws S}.

Lemma file_read_spec e offset buf (s : S) f content want :
  pc_view s f -> de_inline_len e = 0 -> de_extent_lba e ≠ 0 -> de_size e = Z.of_nat (length content) ->
  holds_file f (de_extent_lba e) content -> Z.of_nat (length content) < 2 ^ 40 -> 0 <= offset <= Z.of_nat (length content) ->
  offset mod 4096 = 0 \/ offset mod 4096 + Z.of_nat (length buf) <= 4096 ->
  want = Nat.min (length buf) (length content - Z.to_nat offset) ->
  exists s', file_read e offset buf s = Some (Some want, overwrite buf 0 (sub content (Z.to_nat offset) want), s') /\ pc_view s' f.
Proof.
  intros Hv Hi Hx Hsz Hf H40 Hoff Hal Hwant. unfold file_read. rewrite Hi. cbn [Z.ltb Z.compare].
  destruct (Z.eqb_spec (de_extent_lba e) 0); [done|]. rewrite Hsz.
  pose proof (Z.div_mod offset 4096 ltac:(lia)) as Hdm. pose proof (Z.mod_pos_bound offset 4096 ltac:(lia)) as Hm.
  rewrite (wrap_small 32 (offset / 4096)) by lia.
  destruct (read_blocks_spec (Z.to_nat (blocks_of (Z.of_nat (length content)) - offset / 4096)) (de_extent_lba e) content offset
    (Z.to_nat (offset mod 4096)) (offset / 4096) 0 buf s f _ want eq_refl Hwant Hv Hf H40 Hoff) as (s' & Hr & Hv'); try lia.
  - unfold BLOCK_SIZE. lia.
  - right. split; [lia|]. unfold BLOCK_SIZE. lia.
  - exists s'. rewrite Hr, Nat.add_0_r, Nat.sub_0_r. done.
Qed.

(** Reading a stored file: when the offset is at a page boundary, or the
    bytes asked for lie within one page, [file_read] returns exactly the bytes of
    the file from the offset on, as many as the buffer holds or the file has, and
    leaves the rest of the buffer alone. *)
Theorem file_read_correct e offset buf (s : S) f content :
  pc_view s f -> de_inline_len e = 0 -> de_extent_lba e ≠ 0 -> de_size e = Z.of_nat (length content) ->
  holds_file f (de_extent_lba e) content -> Z.of_nat (length content) < 2 ^ 40 -> 0 <= offset <= Z.of_nat (length content) ->
  offset mod 4096 = 0 \/ offset mod 4096 + Z.of_nat (length buf) <= 4096 ->
  exists s', file_read e offset buf s =
    Some (Some (Nat.min (length buf) (length content - Z.to_nat offset)),
          overwrite buf 0 (sub content (Z.to_nat offset) (Nat.min (length buf) (length content - Z.to_nat offset))), s').
Proof.
  intros Hv Hi Hx Hsz Hf H40 Hoff Hal. destruct (file_read_spec e offset buf s f content _ Hv Hi Hx Hsz Hf H40 Hoff Hal eq_refl) as (s' & Hr & _).
  by exists s'.
Qed.

(** The entry as [read_entry_bytes] passes it on, with the address in sectors. *)
Definition at_sector (e : DirEntryV2) (sector : Z) : DirEntryV2 :=
  with_extent e sector (de_extent_count e) (de_inline_len e) (de_size e) (de_modified e) (de_checksum e) (de_inline_data e).

(** Writing a whole file and reading it: writing more than 16 bytes from the
    start over a file that is not longer puts them on the blocks just allocated;
    the new entry has their number as its size and, up to 64 KiB, their checksum,
    and reading the file back through the new entry gives exactly these bytes. *)
Theorem file_write_read_roundtrip entry data fl fl' (s : S) f base now start :
  pc_view s f -> 16 < Z.of_nat (length data) < 2 ^ 40 -> 0 <= de_size entry <= Z.of_nat (length data) ->
  alloc_blocks fl (blocks_of (Z.of_nat (length data))) = (Some start, fl') ->
  0 <= base -> 0 < start -> base + start * 8 + 8 * blocks_of (Z.of_nat (length data)) <= 2 ^ 64 ->
  (forall b, 0 <= b < blocks_of (Z.of_nat (length data)) -> pc_page (u64 (base + start * 8 + b * 8))) ->
  exists e s' s'', file_write entry 0 data fl s base now = Some (Some e, fl', s') /\
    de_size e = Z.of_nat (length data) /\ de_extent_lba e = start /\ de_extent_count e = blocks_of (Z.of_nat (length data)) /\
    (Z.of_nat (length data) <= 65536 -> de_checksum e = crc32 data) /\
    file_read (at_sector e (base + start * 8)) 0 (replicate (length data) 0) s' = Some (Some (length data), data, s'').
Proof.
  intros Hv Hn Hes Ha Hb Hs Hend Hpages. set (n := Z.of_nat (length data)) in *. pose proof (blocks_of_spec n ltac:(lia)) as HB.
  unfold file_write. fold n. rewrite !Z.add_0_l, (wrap_small 64 n), Z.max_l by lia.
  destruct (Z.leb_spec n (Z.of_nat INLINE_MAX)) as [Hle|_]; [unfold INLINE_MAX in Hle; lia|]. rewrite Ha.
  rewrite (wrap_small 64 (base + start * 8)), !Z.ltb_irrefl by lia. cbn [orb]. rewrite andb_false_r. cbn [mbind option_bind].
  destruct (write_blocks_spec (base + start * 8) None 0 data n (Z.to_nat (blocks_of n)) 0 s f Hv) as (s1 & f1 & Hw & Hv1 & Hp1);
    [lia..|done|lia|lia|lia|]. rewrite Hw.
  assert (holds_file f1 (base + start * 8) data) as Hf1.
  { intros b Hbb. split; [by apply Hpages|]. intros j Hj Hi. destruct (lookup_lt_is_Some_2 data _ Hi) as [v Hv2]. rewrite Hv2.
    apply (Hp1 b Hbb j v Hj); [unfold n; lia|]. unfold written. rewrite decide_True by lia. rewrite <-Hv2. f_equal. lia. }
  assert (forall e (s2 : S), pc_view s2 f1 -> de_inline_len e = 0 -> de_extent_lba e = base + start * 8 -> de_size e = n ->
    exists s3, file_read e 0 (replicate (length data) 0) s2 = Some (Some (length data), data, s3) /\ pc_view s3 f1) as Hread.
  { intros e s2 Hv2 Hi Hx Hz. destruct (file_read_spec e 0 (replicate (length data) 0) s2 f1 data (length data)) as (s3 & -> & Hv3);
      try done; [lia|by rewrite Hx|lia|lia|by left|rewrite length_replicate; lia|].
    exists s3. split; [|done]. rewrite sub_all, overwrite_all by (by rewrite length_replicate). done. }
  destruct (Z.leb_spec n 65536) as [Hle|Hgt].
  - assert (Z.to_nat n = length data) as -> by (unfold n; lia).
    match goal with |- context [file_read ?e 0 _ s1] => destruct (Hread e s1 Hv1 eq_refl eq_refl eq_refl) as (s3 & -> & Hv3) end.
    cbn [mbind option_bind]. match goal with |- context [Some (Some ?e, fl', s3)] =>
      destruct (Hread (at_sector e (base + start * 8)) s3 Hv3 eq_refl eq_refl eq_refl) as (s4 & Hr4 & _); exists e, s3, s4 end.
    by split_and!.
  - match goal with |- context [Some (Some ?e, fl', s1)] =>
      destruct (Hread (at_sector e (base + start * 8)) s1 Hv1 eq_refl eq_refl eq_refl) as (s4 & Hr4 & _); exists e, s1, s4 end.
    split_and!; try done. lia.
Qed.

(** C19. What any read of a file on blocks returns, for every offset, at or past the end of
    the file as well, and every buffer (sizes below 2^40), through a cache that reads
    the file's pages right: the pages from the one of the offset on, each without as
    many bytes at its start as the offset has within its own page, one after the other,
    up to the size of the file or the end of the buffer.  So a read that starts inside
    a page and goes on into the next one gets that page not from its start but from the
    same offset within it; and with an offset past the end of the file but within its
    last page, where the size that remains wraps around (in a build with overflow
    checks it panics), bytes that are not part of the file. *)
Theorem file_read_exact e offset buf (s : S) f :
  pc_view s f -> de_inline_len e = 0 -> de_extent_lba e ≠ 0 -> 0 <= de_size e < 2 ^ 40 -> 0 <= offset < 2 ^ 40 -> Z.of_nat (length buf) < 2 ^ 40 ->
  (forall b, 0 <= b < blocks_of (de_size e) -> pc_page (u64 (de_extent_lba e + b * 8))) ->
  let within := Z.to_nat (offset mod 4096) in
  let pages := (λ b, f (u64 (de_extent_lba e + b * 8))) <$> seqZ (offset / 4096) (blocks_of (de_size e) - offset / 4096) in
  let n := Nat.min (Nat.min (length buf) (if offset <=? de_size e then Z.to_nat (de_size e - offset) else length buf)) (length pages * (BLOCK_SIZE - within)) in
  exists s' buf', file_read e offset buf s = Some (Some n, buf', s') /\ buf' = overwrite buf 0 (take n (concat (drop within <$> pages))) /\
    forall p q l, pages = p :: q :: l -> (BLOCK_SIZE - within < n)%nat -> buf' !! (BLOCK_SIZE - within)%nat = q !! within.
Proof.
  intros Hv Hi Hx Hsz Ho Hbuf Hpages. cbv zeta. set (within := Z.to_nat (offset mod 4096)). set (pages := _ <$> seqZ _ _).
  pose proof (Z.mod_pos_bound offset 4096 ltac:(lia)) as Hm. pose proof (Z.div_pos offset 4096 ltac:(lia) ltac:(lia)) as Hd. assert (within < BLOCK_SIZE)%nat as Hw by (unfold within, BLOCK_SIZE; lia).
  set (fuel := Z.to_nat (blocks_of (de_size e) - offset / 4096)).
  assert (pages = (λ b, f (u64 (de_extent_lba e + b * 8))) <$> seqZ (offset / 4096) (Z.of_nat fuel)) as Hpg.
  { unfold pages, fuel. f_equal. unfold seqZ. by rewrite Nat2Z.id. }
  assert (length pages = fuel) as Hpl by (rewrite Hpg, length_fmap, length_seqZ; lia).
  set (limit := Nat.min (length buf) (if offset <=? de_size e then Z.to_nat (de_size e - offset) else length buf)).
  destruct (read_blocks_exact fuel (de_extent_lba e) (de_size e) offset within (offset / 4096) 0 buf s f limit Hv Hw Hsz Ho Hbuf eq_refl ltac:(lia)) as (s' & Hr & _).
  { intros b Hb. apply Hpages. unfold fuel in Hb. lia. }
  cbv zeta in Hr. rewrite <-Hpg, Nat.add_0_l, Nat.sub_0_r, <-Hpl in Hr. rewrite Hpl. set (n := Nat.min limit (fuel * (BLOCK_SIZE - within))) in *. rewrite Hpl in Hr. fold n in Hr.
  exists s', (overwrite buf 0 (take n (concat (drop within <$> pages)))). split_and!; [|done|].
  - unfold file_read. rewrite Hi. cbn [Z.ltb Z.compare]. destruct (Z.eqb_spec (de_extent_lba e) 0); [done|]. pose proof (blocks_of_spec (de_size e) Hsz). pose proof (Z.div_lt_upper_bound offset 4096 (2 ^ 32) ltac:(lia) ltac:(lia)).
    rewrite (wrap_small 32 (offset / 4096)) by lia. fold fuel. fold within. by rewrite Hr.
  - intros p q l Hpq Hn. assert (forall x, x ∈ pages -> length x = BLOCK_SIZE) as Hlen.
    { intros x Hin. rewrite Hpg in Hin. apply list_elem_of_fmap in Hin as (b & -> & Hb%elem_of_seqZ). apply (pc_len _ _ _ Hv), Hpages. unfold fuel in Hb. lia. }
    assert (length p = BLOCK_SIZE /\ length q = BLOCK_SIZE) as [Hp Hq] by (split; apply Hlen; rewrite Hpq; [left|right; left]).
    assert (concat (drop within <$> pages) !! (BLOCK_SIZE - within)%nat = q !! within) as Hc.
    { rewrite Hpq. cbn [fmap list_fmap concat]. rewrite lookup_app_r; rewrite length_drop, Hp; [|lia]. rewrite Nat.sub_diag, lookup_app_l by (rewrite length_drop; lia). by rewrite lookup_drop, Nat.add_0_r. }
    unfold overwrite. rewrite take_0, app_nil_l. rewrite lookup_app_l; [by rewrite lookup_take_lt by lia|]. apply lookup_lt_is_Some. rewrite lookup_take_lt, Hc by lia. apply lookup_lt_is_Some. lia.
Qed.

(** C20. A write that changes part of a file of more than 16 bytes keeps the wrong bytes
    around it: [file_write] reads the old content through the entry it was given, whose
    address is a block number, where [file_read] takes a sector.  So for every file on
    blocks and every range within it that is not the whole file, with blocks free for
    the new run and a cache that serves both runs of pages right, the file reads
    afterwards, through the new entry, as what the sectors with the old block's number
    held, with the new bytes over it, whatever the file had contained; the comment in
    the code says that it keeps its previous content where the write does not reach. *)
Theorem partial_write_wrong_sectors entry offset data fl fl' (s : S) f base now start other :
  pc_view s f -> de_inline_len entry = 0 -> de_extent_lba entry ≠ 0 -> 16 < de_size entry < 2 ^ 40 ->
  0 <= offset -> offset + Z.of_nat (length data) <= de_size entry -> 0 < offset \/ offset + Z.of_nat (length data) < de_size entry ->
  alloc_blocks fl (blocks_of (de_size entry)) = (Some start, fl') -> 0 <= base -> 0 < start -> base + start * 8 + 8 * blocks_of (de_size entry) <= 2 ^ 64 ->
  (forall b, 0 <= b < blocks_of (de_size entry) -> pc_page (u64 (base + start * 8 + b * 8))) ->
  holds_file f (de_extent_lba entry) other -> Z.of_nat (length other) = de_size entry ->
  exists e s' s'', file_write entry offset data fl s base now = Some (Some e, fl', s') /\ de_extent_lba e = start /\ de_size e = de_size entry /\
    file_read (at_sector e (base + start * 8)) 0 (replicate (length other) 0) s' = Some (Some (length other), overwrite other (Z.to_nat offset) data, s'').
Proof.
  intros Hv Hi Hx Hsz Ho Hin Hpart Ha Hb Hs Hend Hpages Hother Hol. set (n := de_size entry) in *. pose proof (blocks_of_spec n ltac:(lia)) as HB.
  unfold file_write. fold n. rewrite (wrap_small 64 (offset + _)), Z.max_r by lia.
  destruct (Z.leb_spec n (Z.of_nat INLINE_MAX)) as [Hle|_]; [unfold INLINE_MAX in Hle; lia|]. rewrite Ha, (wrap_small 64 (base + start * 8)) by lia.
  assert ((0 <? n) && ((0 <? offset) || (offset + Z.of_nat (length data) <? n)) = true) as -> by (rewrite andb_true_iff, orb_true_iff, !Z.ltb_lt; lia).
  destruct (file_read_spec entry 0 (replicate (Z.to_nat n) 0) s f other (length other) Hv Hi Hx) as (s0 & -> & Hv0);
    [by rewrite Hol|done|lia|lia|by left|rewrite length_replicate; lia|]. cbn [mbind option_bind]. cbn [Z.to_nat]. rewrite sub_all, overwrite_all by (rewrite length_replicate; lia).
  set (new := overwrite other (Z.to_nat offset) data). assert (length new = length other) as Hnl by (apply length_overwrite; lia).
  destruct (write_blocks_spec (base + start * 8) (Some other) offset data n (Z.to_nat (blocks_of n)) 0 s0 f Hv0) as (s1 & f1 & -> & Hv1 & Hp1);
    [lia..|done|lia|lia|lia|].
  assert (holds_file f1 (base + start * 8) new) as Hf1.
  { intros b Hbb. rewrite Hnl, Hol in Hbb. split; [by apply Hpages|]. intros j Hj Hlt. destruct (lookup_lt_is_Some_2 new _ Hlt) as [v Hv2]. rewrite Hv2.
    apply (Hp1 b Hbb j v Hj); [lia|]. unfold written. unfold new in Hv2. rewrite lookup_overwrite in Hv2 by lia. cbn [mbind option_bind].
    destruct (decide (offset <= _ < _)); [rewrite decide_True in Hv2 by lia; done|by rewrite decide_False in Hv2 by lia]. }
  assert (forall e (s2 : S), pc_view s2 f1 -> de_inline_len e = 0 -> de_extent_lba e = base + start * 8 -> de_size e = n ->
    exists s3, file_read e 0 (replicate (length other) 0) s2 = Some (Some (length other), new, s3) /\ pc_view s3 f1) as Hread.
  { intros e s2 Hv2 Hi2 Hx2 Hz. destruct (file_read_spec e 0 (replicate (length other) 0) s2 f1 new (length other)) as (s3 & -> & Hv3);
      try done; [lia|rewrite Hz; lia|by rewrite Hx2|lia|lia|by left|rewrite length_replicate; lia|].
    exists s3. split; [|done]. assert (sub new (Z.to_nat 0) (length other) = new) as -> by (rewrite <-Hnl; apply sub_all). by rewrite overwrite_all by (rewrite length_replicate; lia). }
  replace (Z.to_nat n) with (length other) by lia. destruct (Z.leb_spec n 65536) as [Hle|Hgt].
  - match goal with |- context [file_read ?e 0 _ s1] => destruct (Hread e s1 Hv1 eq_refl eq_refl eq_refl) as (s3 & -> & Hv3) end.
    cbn [mbind option_bind]. match goal with |- context [Some (Some ?e, fl', s3)] =>
      destruct (Hread (at_sector e (base + start * 8)) s3 Hv3 eq_refl eq_refl eq_refl) as (s4 & Hr4 & _); exists e, s3, s4 end.
    by split_and!.
  - match goal with |- context [Some (Some ?e, fl', s1)] =>
      destruct (Hread (at_sector e (base + start * 8)) s1 Hv1 eq_refl eq_refl eq_refl) as (s4 & Hr4 & _); exists e, s1, s4 end.
    by split_and!.
Qed.

End contract.

(** Small files: a write after which the file has at most 16 bytes panics
    unless it starts at offset 0 and covers the whole file, because the source of
    [copy_from_slice] is then shorter than its destination; otherwise the bytes are
    stored in the entry and read back from it. *)
Theorem small_write_panics_unless_whole {S} `{PageCache S} entry offset data fl (s : S) base now :
  0 <= offset -> 0 <= de_size entry -> Z.max (offset + Z.of_nat (length data)) (de_size entry) <= 16 ->
  if decide (offset = 0 /\ de_size entry <= Z.of_nat (length data)) then
    exists e, file_write entry offset data fl s base now = Some (Some e, fl, s) /\ de_size e = Z.of_nat (length data) /\
      (data ≠ [] -> file_read e 0 (replicate (length data) 0) s = Some (Some (length data), data, s))
  else file_write entry offset data fl s base now = None.
Proof.
  intros Ho Hes Hsz. unfold file_write. rewrite (wrap_small 64) by lia. change (Z.of_nat INLINE_MAX) with 16.
  destruct (Z.leb_spec (Z.max (offset + Z.of_nat (length data)) (de_size entry)) 16); [|lia].
  unfold write_inline. assert (length (take (Nat.min (length data) INLINE_MAX) data) = length data) as Hl by (rewrite length_take; unfold INLINE_MAX; lia).
  rewrite Hl. destruct (decide _) as [[-> Hle]|Hn].
  - rewrite Z.max_l, Z.add_0_l, Nat2Z.id, Nat.eqb_refl by lia. cbn [negb mbind option_bind]. eexists. split; [reflexivity|]. split; [done|].
    intros Hne. unfold file_read. cbn [with_extent de_inline_len de_inline_data].
    destruct (Z.ltb_spec 0 (Z.of_nat (length data))) as [Hp|Hp]; [|by destruct data].
    change (Z.of_nat INLINE_MAX) with 16. destruct (Z.ltb_spec 16 (Z.of_nat (length data))); [lia|]. rewrite Nat2Z.id.
    assert (forall l, take (length data) (data ++ l) = data) as Ht by (intros l; apply take_app_length).
    assert (forall b : bool, take (length data) (if b then take INLINE_MAX (overwrite (overwrite (replicate INLINE_MAX 0) 0 (take (Nat.min (length data) INLINE_MAX) data)) 0 data)
      else overwrite (replicate INLINE_MAX 0) 0 (take (Nat.min (length data) INLINE_MAX) data)) = data) as ->.
    { assert (take (Nat.min (length data) INLINE_MAX) data = data) as -> by (rewrite take_ge; [done|unfold INLINE_MAX; lia]).
      intros []; unfold overwrite; cbn [take app]; rewrite ?take_take, ?Nat.min_l by (unfold INLINE_MAX; lia); apply Ht. }
    destruct (Z.leb_spec (Z.of_nat (length data)) 0); [lia|]. cbn [Z.to_nat]. rewrite Nat.sub_0_r, length_replicate, Nat.min_id, sub_all.
    by rewrite overwrite_all by (by rewrite length_replicate).
  - destruct (Nat.eqb_spec (length data) (Z.to_nat (Z.max (offset + Z.of_nat (length data)) (de_size entry)))) as [E|]; [|done].
    exfalso. apply Hn. lia.
Qed.

(** ** A cache in memory, and what goes wrong *)

Abbreviation MemPages := (gmap Z (list Z)).

Definition mem_page (s : MemPages) (l : Z) : list Z := match s !! l with Some p => p | None => replicate BLOCK_SIZE 0 end.

#[global] Instance mem_pages : PageCache MemPages :=
  {| read_page s l := (Some (mem_page s l), s); change_page s l g := (true, <[l := g (mem_page s l)]> s) |}.

#[global] Program Instance mem_pages_laws : PageCacheLaws MemPages :=
  {| pc_page l := True; pc_view s f := forall l, f l = mem_page s l /\ length (f l) = BLOCK_SIZE |}.
Next Obligation. intros s f l Hv _. apply Hv. Qed.
Next Obligation. intros s f l Hv _. exists s. split; [|done]. cbn. by destruct (Hv l) as [<- _]. Qed.
Next Obligation.
  intros s f l g Hv _ Hg. exists (<[l := g (mem_page s l)]> s), (mem_page (<[l := g (mem_page s l)]> s)).
  assert (forall l', l' ≠ l -> mem_page (<[l := g (mem_page s l)]> s) l' = f l') as Hne.
  { intros l' Hl'. destruct (Hv l') as [-> _]. unfold mem_page at 1. by rewrite lookup_insert_ne by done. }
  assert (mem_page (<[l := g (mem_page s l)]> s) l = g (f l)) as He.
  { destruct (Hv l) as [-> _]. unfold mem_page at 1. by rewrite lookup_insert_eq. }
  split; [done|]. split; [|split; [exact He|]; intros l' _ Hl'; by apply Hne].
  intros l'. split; [done|]. destruct (decide (l' = l)) as [->|Hl']; [by rewrite He|]. rewrite Hne by done. apply Hv.
Qed.

(** A file of two pages at sector 80: ones, then zeros with a 9 at the end. *)
Definition two_pages : MemPages :=
  <[80 := replicate BLOCK_SIZE 1]> (<[88 := replicate 4095 0 ++ [9]]> ∅).
Definition two_page_file (size : Z) : DirEntryV2 := mkDirEntry [70] 0x97 size 0 0 0 0 (replicate INLINE_MAX 0) 80 2.

(** A file of twenty sevens in block 10 of a volume without partition. *)
Definition sevens : MemPages := <[80 := replicate 20 7 ++ replicate 4076 0]> ∅.
Definition sevens_file : DirEntryV2 := mkDirEntry [70] 0x97 20 0 0 0 0 (replicate INLINE_MAX 0) 10 1.

Lemma sevens_view : pc_view sevens (mem_page sevens).
Proof.
  intros l. split; [done|]. unfold sevens, mem_page. destruct (decide (l = 80)) as [->|Hne].
  - rewrite lookup_insert_eq, length_app, !length_replicate. unfold BLOCK_SIZE. lia.
  - rewrite lookup_insert_ne, lookup_empty, length_replicate by done. done.
Qed.

Lemma file_read_correct_witness : exists s',
  file_read (with_extent sevens_file 80 1 0 20 0 0 []) 3 [0; 0; 0] sevens = Some (Some 3%nat, [7; 7; 7], s').
Proof.
  apply (file_read_correct (with_extent sevens_file 80 1 0 20 0 0 []) 3 [0; 0; 0] sevens (mem_page sevens) (replicate 20 7));
    [exact sevens_view|reflexivity|discriminate|reflexivity| |reflexivity|simpl; lia|right; vm_compute; discriminate].
  intros b Hb. assert (blocks_of (Z.of_nat (length (replicate 20 7))) = 1) as E by reflexivity. rewrite E in Hb.
  assert (b = 0) as -> by lia. split; [exact I|]. intros j _ Hj. rewrite length_replicate in Hj. simpl in Hj.
  assert (forall i, (i < 20)%nat -> (replicate 20 7 ++ replicate 4076 0) !! i = replicate 20 7 !! i) as Hlk.
  { intros i Hi. apply lookup_app_l. by rewrite length_replicate. }
  unfold sevens, mem_page. rewrite lookup_insert_eq. cbn [Z.mul Z.to_nat Nat.add]. by apply Hlk.
Defined.

Lemma file_write_read_roundtrip_witness : exists e s' s'',
  file_write sevens_file 0 (replicate 30 5) (mkFree [mkRegion 20 50] false) sevens 0 0 = Some (Some e, mkFree [mkRegion 21 49] true, s') /\
  de_size e = 30 /\ file_read (at_sector e 160) 0 (replicate 30 0) s' = Some (Some 30%nat, replicate 30 5, s'').
Proof.
  destruct (file_write_read_roundtrip sevens_file (replicate 30 5) (mkFree [mkRegion 20 50] false) (mkFree [mkRegion 21 49] true)
    sevens (mem_page sevens) 0 0 20) as (e & s' & s'' & H1 & H2 & _ & _ & _ & H3);
    [exact sevens_view|simpl; lia|simpl; lia|reflexivity|lia|lia|vm_compute; discriminate|intros; exact I|].
  exists e, s', s''. split; [exact H1|]. split; [exact H2|exact H3].
Defined.

(** Two bytes from offset 4095 on: the second is the last of the next page. *)
Lemma two_pages_view : pc_view two_pages (mem_page two_pages).
Proof.
  intros l. split; [done|]. unfold two_pages, mem_page. destruct (decide (l = 80)) as [->|Hne]; [by rewrite lookup_insert_eq, length_replicate|]. rewrite lookup_insert_ne by done.
  destruct (decide (l = 88)) as [->|Hne2]; [rewrite lookup_insert_eq, length_app, length_replicate; unfold BLOCK_SIZE; cbn [length]; lia|]. by rewrite lookup_insert_ne, lookup_empty, length_replicate by done.
Qed.

Lemma file_read_exact_witness : exists s' buf', file_read (two_page_file 8192) 4095 [0; 0] two_pages = Some (Some 2%nat, buf', s') /\ buf' !! 1%nat = Some 9.
Proof.
  destruct (file_read_exact (two_page_file 8192) 4095 [0; 0] two_pages (mem_page two_pages)) as (s' & buf' & Hr & _ & Hq);
    [exact two_pages_view|reflexivity|discriminate|cbn; lia|lia|cbn; lia|intros; exact I|].
  exists s', buf'. split; [exact Hr|]. etransitivity; [eapply (Hq (mem_page two_pages 80) (mem_page two_pages 88) []); [reflexivity|by vm_compute; lia]|]. vm_compute. reflexivity.
Defined.

(** The first of twenty sevens is changed: the rest becomes the zeros of sector 10. *)
Lemma partial_write_wrong_sectors_witness : exists e s' s'',
  file_write sevens_file 0 [5] (mkFree [mkRegion 20 50] false) sevens 0 0 = Some (Some e, mkFree [mkRegion 21 49] true, s') /\
  file_read (at_sector e 160) 0 (replicate 20 0) s' = Some (Some 20%nat, 5 :: replicate 19 0, s'').
Proof.
  destruct (partial_write_wrong_sectors sevens_file 0 [5] (mkFree [mkRegion 20 50] false) (mkFree [mkRegion 21 49] true)
    sevens (mem_page sevens) 0 0 20 (replicate 20 0)) as (e & s' & s'' & H1 & _ & _ & H2);
    [exact sevens_view|reflexivity|discriminate|cbn; lia|lia|cbn; lia|right; cbn; lia|reflexivity|lia|lia|vm_compute; discriminate|intros; exact I| |reflexivity|].
  - intros b Hb. assert (blocks_of (Z.of_nat (length (replicate 20 0))) = 1) as E by reflexivity. rewrite E in Hb. assert (b = 0) as -> by lia. split; [exact I|].
    intros j Hj Hlt. change (mem_page sevens (u64 (de_extent_lba sevens_file + 0 * 8))) with (replicate BLOCK_SIZE 0). cbn [Z.mul Z.to_nat Nat.add].
    destruct (decide (j < 20)%nat); [by rewrite !lookup_replicate_2 by lia|]. exfalso. rewrite length_replicate in *. cbn in *. lia.
  - exists e, s', s''. split; [exact H1|exact H2].
Defined.

Lemma small_write_panics_unless_whole_witness :
  file_write (mkDirEntry [70] 0x97 4 0 0 0 4 (field INLINE_MAX [1; 2; 3; 4]) 0 0) 4 [5] fl_new sevens 0 0 = None.
Proof.
  apply (small_write_panics_unless_whole (mkDirEntry [70] 0x97 4 0 0 0 4 (field INLINE_MAX [1; 2; 3; 4]) 0 0) 4 [5] fl_new sevens 0 0); simpl; lia.
Defined.
