(* ===== verification/Snapshot.v ===== *)
(** * Snapshot.v: the snapshot table ([fs/neofs/snapshot.rs])

    Up to 64 snapshots, oldest first; a snapshot is the root of the directory tree
    at its creation and has a generation number as its id. *)

From stdpp Require Import sorting.
From S2P Require Import Prelude Str Bytes BNode.
Open Scope Z_scope.

Definition MAX_SNAPSHOTS : nat := 64.

Record Snapshot := mkSnapshot { snap_root : Z; snap_time : Z; snap_gen : Z }.
Record SnapshotTable := mkSnapTable { snapshots : list Snapshot; next_generation : Z }.

Definition snap_new : SnapshotTable := mkSnapTable [] 0.

Definition snap_create (t : SnapshotTable) (root_lba timestamp : Z) : Z * SnapshotTable :=
  let generation := next_generation t in
  let l := if (MAX_SNAPSHOTS <=? length (snapshots t))%nat then tail (snapshots t) else snapshots t in
  (generation, mkSnapTable (l ++ [mkSnapshot root_lba timestamp generation]) (u64 (next_generation t + 1))).

Definition snap_restore (t : SnapshotTable) (id : Z) : option Z :=
  snap_root ∘ snd <$> list_find (λ s, snap_gen s = id) (snapshots t).

Definition snap_delete (t : SnapshotTable) (id : Z) : bool * SnapshotTable :=
  match list_find (λ s, snap_gen s = id) (snapshots t) with
  | Some (pos, _) => (true, mkSnapTable (delete pos (snapshots t)) (next_generation t))
  | None => (false, t)
  end.

Definition snap_list (t : SnapshotTable) : list (Z * Snapshot) := map (λ s, (snap_gen s, s)) (snapshots t).
Definition snap_purge (t : SnapshotTable) : SnapshotTable := mkSnapTable [] (next_generation t).
Definition snapshot_count (t : SnapshotTable) : nat := length (snapshots t).

Definition put_snapshot (s : Snapshot) : list Z :=
  le_bytes 8 (snap_root s) ++ le_bytes 8 (snap_time s) ++ le_bytes 8 (snap_gen s).

(** 64 snapshots of 24 bytes always fit. *)
Definition snap_serialize (t : SnapshotTable) : list Z :=
  let body := take MAX_SNAPSHOTS (snapshots t) ≫= put_snapshot in
  let payload := body ++ replicate (NODE_SIZE - 8 - length body) 0 in
  le_bytes 2 4 ++ le_bytes 2 (Z.of_nat (snapshot_count t)) ++ le_bytes 4 (crc32 payload) ++ payload.

Fixpoint get_snapshots (buf : list Z) (offset count : nat) : option (list Snapshot) :=
  match count with
  | O => Some []
  | S count =>
      if (NODE_SIZE <? offset + 24)%nat then Some []
      else
        r ← get_le 8 buf offset;
        t ← get_le 8 buf (offset + 8);
        g ← get_le 8 buf (offset + 16);
        l ← get_snapshots buf (offset + 24) count;
        Some (mkSnapshot r t g :: l)
  end.

Definition snap_deserialize (buf : list Z) : option SnapshotTable :=
  let cksum := crc32 (drop 8 buf) in
  stored ← get_le 4 buf 4;
  if negb (stored =? 0) && negb (stored =? cksum) then None
  else
    count ← get_le 2 buf 2;
    l ← get_snapshots buf 8 (Nat.min (Z.to_nat count) MAX_SNAPSHOTS);
    let next := match l with [] => 0 | s :: l => u64 (foldl Z.max (snap_gen s) (map snap_gen l) + 1) end in
    Some (mkSnapTable l next).

(** ** The table *)

Definition gens (t : SnapshotTable) : list Z := map snap_gen (snapshots t).

(** At most 64 snapshots whose generations grow. *)
Record snap_inv (t : SnapshotTable) : Prop := {
  si_len : (length (snapshots t) <= MAX_SNAPSHOTS)%nat;
  si_sorted : StronglySorted Z.lt (gens t);
  si_gens : Forall (λ g, 0 <= g < next_generation t) (gens t);
  si_next : 0 <= next_generation t < 2 ^ 64;
  si_words : Forall (λ s, 0 <= snap_root s < 2 ^ 64 /\ 0 <= snap_time s < 2 ^ 64) (snapshots t);
}.

Lemma restore_cons s l n id :
  snap_restore (mkSnapTable (s :: l) n) id = if decide (snap_gen s = id) then Some (snap_root s) else snap_restore (mkSnapTable l n) id.
Proof.
  unfold snap_restore. cbn [snapshots list_find]. case_decide; [done|]. destruct (list_find _ l) as [[i x]|]; done.
Qed.

Lemma restore_next l n n' id : snap_restore (mkSnapTable l n) id = snap_restore (mkSnapTable l n') id.
Proof. done. Qed.

Lemma restore_None l n id : Forall (λ g, g ≠ id) (map snap_gen l) -> snap_restore (mkSnapTable l n) id = None.
Proof.
  induction l as [|s l IH]; [done|]. cbn [map]. intros [Hs Hl]%Forall_cons. rewrite restore_cons, decide_False by done. by apply IH.
Qed.

Lemma restore_app l s n id : Forall (λ g, g < snap_gen s) (map snap_gen l) ->
  snap_restore (mkSnapTable (l ++ [s]) n) id = if decide (id = snap_gen s) then Some (snap_root s) else snap_restore (mkSnapTable l n) id.
Proof.
  induction l as [|x l IH]; cbn [map app].
  - intros _. rewrite restore_cons. repeat case_decide; congruence || done.
  - intros [Hx Hl]%Forall_cons. rewrite !restore_cons, IH by done. repeat case_decide; (lia || done).
Qed.

Lemma snap_sorted_app l g : StronglySorted Z.lt l -> Forall (λ x, x < g) l -> StronglySorted Z.lt (l ++ [g]).
Proof.
  induction 1 as [|x l Hs IH Hx]; intros Hg; cbn [app]; [repeat constructor|]. apply Forall_cons in Hg as [Hg1 Hg2].
  constructor; [by apply IH|]. apply Forall_app. split; [done|by repeat constructor].
Qed.

(** The oldest snapshot of a full table is dropped first. *)
Definition kept (t : SnapshotTable) : list Snapshot :=
  if (MAX_SNAPSHOTS <=? length (snapshots t))%nat then tail (snapshots t) else snapshots t.

Lemma kept_inv t : snap_inv t -> snap_inv (mkSnapTable (kept t) (next_generation t)) /\ (length (kept t) < MAX_SNAPSHOTS)%nat.
Proof.
  intros [Hl Hs Hg Hn Hw]. unfold kept, gens in *. destruct (Nat.leb_spec MAX_SNAPSHOTS (length (snapshots t))) as [Hfull|Hroom];
    destruct (snapshots t) as [|s l]; cbn [tail length] in *; try (split; [|unfold MAX_SNAPSHOTS in *; lia]); constructor;
    unfold gens, MAX_SNAPSHOTS in *; cbn [snapshots next_generation map length] in *; try done; try lia.
  - by inversion Hs.
  - by apply Forall_cons in Hg as [_ ?].
  - by apply Forall_cons in Hw as [_ ?].
Qed.

Lemma create_inv t root time : snap_inv t -> 0 <= root < 2 ^ 64 -> 0 <= time < 2 ^ 64 -> next_generation t + 1 < 2 ^ 64 ->
  snap_inv (snap_create t root time).2.
Proof.
  intros Hi Hr Ht Hn. destruct (kept_inv t Hi) as [[Hl Hs Hg Hk Hw] Hlen]. unfold gens in *. cbn [snapshots next_generation] in *.
  unfold snap_create. fold (kept t). rewrite wrap_small by lia. constructor; unfold gens; cbn [snd snapshots next_generation].
  - rewrite length_app. cbn. lia.
  - rewrite map_app. apply snap_sorted_app; [done|]. eapply Forall_impl; [exact Hg|]. cbn. lia.
  - rewrite map_app. apply Forall_app. split; [eapply Forall_impl; [exact Hg|]; cbn; lia|]. repeat constructor; cbn; lia.
  - lia.
  - apply Forall_app. split; [done|]. apply Forall_singleton. done.
Qed.

Lemma delete_spec t id : snap_inv t ->
  (snap_delete t id).1 = bool_decide (id ∈ gens t) /\ snap_inv (snap_delete t id).2 /\
  forall i, snap_restore (snap_delete t id).2 i = if decide (i = id) then None else snap_restore t i.
Proof.
  destruct t as [l n]. unfold snap_delete, gens. cbn [snapshots next_generation]. intros Hi.
  destruct (list_find (λ s, snap_gen s = id) l) as [[pos s]|] eqn:E; cbn [fst snd].
  - apply list_find_Some in E as (Hpos & Hs & Hbefore). pose proof (take_drop_middle _ _ _ Hpos) as Hl.
    rewrite delete_take_drop. set (a := take pos l) in *. set (b := drop (S pos) l) in *. clearbody a b. subst l.
    destruct Hi as [Hlen Hso Hg Hn Hw]. unfold gens in *. cbn [snapshots next_generation] in *. rewrite map_app in Hso, Hg. cbn [map] in Hso, Hg.
    rewrite length_app in Hlen. cbn [length] in Hlen. apply Forall_app in Hg as [Hga [Hgs Hgb]%Forall_cons]. apply Forall_app in Hw as [Hwa [Hws Hwb]%Forall_cons].
    apply StronglySorted_app in Hso as (Hab & Ha & Hb). inversion Hb as [|? ? Hb1 Hb2]; subst.
    assert (forall g, g ∈ map snap_gen a -> g < snap_gen s) as Has by (intros g Hg'; apply Hab; [done|left]).
    rewrite Forall_forall in Hb2. split; [symmetry; apply bool_decide_eq_true; rewrite map_app, elem_of_app; right; left|]. split.
    + constructor; unfold gens; cbn [snapshots next_generation]; rewrite ?map_app, ?length_app.
      * lia.
      * apply StronglySorted_app_2; [|done|done]. intros x y Hx Hy. apply Hab; [done|by right].
      * by apply Forall_app.
      * done.
      * by apply Forall_app.
    + intros i. clear - Has Hb2. induction a as [|x a IH]; cbn [app map] in *; rewrite !restore_cons.
      * destruct (decide (i = snap_gen s)) as [->|Hne]; [|by rewrite decide_False by congruence].
        apply restore_None, Forall_forall. intros g Hg'%Hb2. lia.
      * rewrite IH by (intros; apply Has; by right). pose proof (Has (snap_gen x) ltac:(left)). repeat case_decide; subst; (lia || done).
  - apply list_find_None in E. split; [|split; [done|]].
    + symmetry. apply bool_decide_eq_false. intros (s & -> & Hs)%list_elem_of_fmap. rewrite Forall_forall in E. by apply (E s Hs).
    + intros i. case_decide; [subst|done]. apply restore_None, Forall_fmap. eapply Forall_impl; [exact E|]. done.
Qed.

(** ** The block of the table *)

Lemma length_put_snapshot s : length (put_snapshot s) = 24%nat.
Proof. unfold put_snapshot. by rewrite !length_app, !length_le_bytes. Qed.

Lemma length_put_snapshots l : length (l ≫= put_snapshot) = (length l * 24)%nat.
Proof. induction l as [|s l IH]; [done|]. rewrite bind_cons, length_app, IH, length_put_snapshot. cbn. lia. Qed.

Definition snap_words (s : Snapshot) : Prop :=
  0 <= snap_root s < 2 ^ 64 /\ 0 <= snap_time s < 2 ^ 64 /\ 0 <= snap_gen s < 2 ^ 64.

Lemma get_snapshots_put l pre post :
  Forall snap_words l -> (length pre + length l * 24 <= NODE_SIZE)%nat ->
  get_snapshots (pre ++ (l ≫= put_snapshot) ++ post) (length pre) (length l) = Some l.
Proof.
  revert pre. induction l as [|s l IH]; intros pre; [done|]. intros [(H1 & H2 & H3) Hl]%Forall_cons Hfit. cbn [length get_snapshots] in *.
  destruct (Nat.ltb_spec NODE_SIZE (length pre + 24)); [lia|]. set (tl := (l ≫= put_snapshot) ++ post).
  assert (pre ++ ((s :: l) ≫= put_snapshot) ++ post =
    pre ++ le_bytes 8 (snap_root s) ++ le_bytes 8 (snap_time s) ++ le_bytes 8 (snap_gen s) ++ tl) as ->
    by (rewrite bind_cons; unfold put_snapshot at 1; by rewrite <-!app_assoc).
  change (2 ^ 64) with (256 ^ Z.of_nat 8) in *.
  rewrite (get_le_app 8 pre (snap_root s)) by done. cbn [mbind option_bind].
  pose proof (get_le_app 8 (pre ++ le_bytes 8 (snap_root s)) (snap_time s) (le_bytes 8 (snap_gen s) ++ tl) H2) as E2.
  rewrite length_app, length_le_bytes, <-!app_assoc in E2. rewrite E2. cbn [mbind option_bind].
  pose proof (get_le_app 8 (pre ++ le_bytes 8 (snap_root s) ++ le_bytes 8 (snap_time s)) (snap_gen s) tl H3) as E3.
  rewrite !length_app, !length_le_bytes, <-!app_assoc in E3. change (8 + 8)%nat with 16%nat in E3. rewrite E3. cbn [mbind option_bind].
  pose proof (IH (pre ++ put_snapshot s) Hl) as E4. rewrite length_app, length_put_snapshot in E4. unfold put_snapshot in E4 at 1.
  rewrite <-!app_assoc in E4. fold tl in E4. rewrite E4 by lia. cbn [mbind option_bind]. by destruct s.
Qed.

Lemma put_snapshots_bytes l : bytes_ok (l ≫= put_snapshot).
Proof.
  induction l as [|s l IH]; [constructor|]. rewrite bind_cons. apply Forall_app_2; [|done].
  unfold put_snapshot. repeat apply Forall_app_2; apply le_bytes_ok.
Qed.

(** The generation a mounted table continues with. *)
Definition next_of (t : SnapshotTable) : Z :=
  match gens t with [] => 0 | g :: l => foldl Z.max g l + 1 end.

Lemma foldl_max_bound g l n : g < n -> Forall (λ x, x < n) l -> g <= foldl Z.max g l < n.
Proof.
  intros Hg Hl. revert g Hg. induction Hl as [|x l Hx Hl IH]; intros g Hg; cbn [foldl]; [lia|]. specialize (IH (Z.max g x)). lia.
Qed.

Lemma foldl_max_init g l : g <= foldl Z.max g l.
Proof. revert g. induction l as [|x l IH]; intros g; cbn [foldl]; [lia|]. specialize (IH (Z.max g x)). lia. Qed.

Lemma foldl_max_ge g l y : y ∈ g :: l -> y <= foldl Z.max g l.
Proof.
  revert g. induction l as [|x l IH]; intros g [->|Hy]%elem_of_cons; [apply foldl_max_init|by apply elem_of_nil in Hy|apply foldl_max_init|].
  cbn [foldl]. apply elem_of_cons in Hy as [->|Hy]; [pose proof (foldl_max_init (Z.max g x) l); lia|]. apply IH. by right.
Qed.

Lemma next_of_fresh t : Forall (λ x, x < next_of t) (gens t).
Proof.
  unfold next_of. destruct (gens t) as [|g l]; [constructor|]. apply Forall_forall. intros y Hy. pose proof (foldl_max_ge g l y Hy). lia.
Qed.

Lemma next_of_bound t : snap_inv t -> 0 <= next_of t <= next_generation t.
Proof.
  intros [_ _ Hg Hn _]. unfold next_of. destruct (gens t) as [|g l]; [lia|]. apply Forall_cons in Hg as [Hg Hl].
  pose proof (foldl_max_bound g l (next_generation t)) as Hb. destruct Hb; [lia|eapply Forall_impl; [exact Hl|]; cbn; lia|lia].
Qed.

Lemma snap_roundtrip t : snap_inv t -> snap_deserialize (snap_serialize t) = Some (mkSnapTable (snapshots t) (next_of t)).
Proof.
  intros Hi. pose proof (next_of_bound t Hi) as Hno. destruct Hi as [Hlen _ Hg Hn Hw]. unfold snap_serialize, snapshot_count. unfold MAX_SNAPSHOTS in *.
  rewrite take_ge by done. pose proof NODE_SIZE_Z as HN. set (pad := replicate _ 0). set (payload := (snapshots t ≫= put_snapshot) ++ pad).
  assert (bytes_ok payload) as Hb.
  { apply Forall_app_2; [apply put_snapshots_bytes|apply Forall_replicate; unfold is_byte; lia]. }
  pose proof (crc32_bound payload Hb) as Hcrc. unfold snap_deserialize.
  assert (drop 8 (le_bytes 2 4 ++ le_bytes 2 (Z.of_nat (length (snapshots t))) ++ le_bytes 4 (crc32 payload) ++ payload) = payload) as ->.
  { rewrite !app_assoc. apply drop_app_length'. by rewrite !length_app, !length_le_bytes. }
  pose proof (get_le_app 4 (le_bytes 2 4 ++ le_bytes 2 (Z.of_nat (length (snapshots t)))) (crc32 payload) payload) as E1.
  rewrite length_app, !length_le_bytes, <-app_assoc in E1. change (2 + 2)%nat with 4%nat in E1. rewrite E1 by exact Hcrc.
  cbn [mbind option_bind]. rewrite Z.eqb_refl, andb_false_r.
  pose proof (get_le_app 2 (le_bytes 2 4) (Z.of_nat (length (snapshots t))) (le_bytes 4 (crc32 payload) ++ payload)) as E2.
  rewrite length_le_bytes in E2. rewrite E2 by (change (256 ^ Z.of_nat 2) with 65536; lia).
  cbn [mbind option_bind]. rewrite Nat2Z.id, Nat.min_l by (unfold MAX_SNAPSHOTS; lia).
  pose proof (get_snapshots_put (snapshots t) (le_bytes 2 4 ++ le_bytes 2 (Z.of_nat (length (snapshots t))) ++ le_bytes 4 (crc32 payload)) pad) as E3.
  rewrite !length_app, !length_le_bytes, <-!app_assoc in E3. change (2 + (2 + 4))%nat with 8%nat in E3. fold payload in E3.
  rewrite E3; [|apply Forall_forall; intros s Hs|lia].
  - cbn [mbind option_bind]. do 2 f_equal. unfold next_of, gens in *. destruct (snapshots t) as [|s l]; [done|]. cbn [map] in *.
    apply wrap_small. lia.
  - rewrite Forall_forall in Hw. destruct (Hw s Hs) as [? ?]. unfold gens in Hg. rewrite Forall_forall in Hg.
    pose proof (Hg (snap_gen s) (list_elem_of_fmap_2 snap_gen _ _ Hs)). cbn in *. unfold snap_words. lia.
Qed.

(** C27. The snapshot table is a ring of 64.  Creating a snapshot gives the next
    generation as its id and the id then names the root; every other id names what
    it did before, but for the oldest of 64, which is gone.  Deleting succeeds
    exactly for an id in the table, and then only that id is gone.  Both keep the
    table well formed, and what is written to the block of the table is read back
    with the same snapshots and an unused next generation. *)
Theorem snapshot_table_correct t root time id :
  snap_inv t -> 0 <= root < 2 ^ 64 -> 0 <= time < 2 ^ 64 -> next_generation t + 1 < 2 ^ 64 ->
  let '(g, t') := snap_create t root time in
  let '(found, t'') := snap_delete t id in
  g = next_generation t /\ snap_inv t' /\
  (forall i, snap_restore t' i =
    if decide (i = g) then Some root
    else if (MAX_SNAPSHOTS <=? length (snapshots t))%nat && bool_decide (head (gens t) = Some i) then None else snap_restore t i) /\
  snap_inv t'' /\ found = bool_decide (id ∈ gens t) /\ (forall i, snap_restore t'' i = if decide (i = id) then None else snap_restore t i) /\
  exists n, snap_deserialize (snap_serialize t') = Some (mkSnapTable (snapshots t') n) /\ Forall (λ x, x < n) (gens t').
Proof.
  intros Hi Hr Ht Hn. pose proof (create_inv t root time Hi Hr Ht Hn) as Hi'. destruct (delete_spec t id Hi) as (D1 & D2 & D3).
  destruct (snap_delete t id) as [found t'']. cbn [fst snd] in *. pose proof (snap_roundtrip _ Hi') as Hrt.
  destruct (kept_inv t Hi) as [[_ _ Hk _ _] _]. unfold gens in Hk. cbn [snapshots next_generation] in Hk.
  assert (snap_create t root time = (next_generation t,
    mkSnapTable (kept t ++ [mkSnapshot root time (next_generation t)]) (u64 (next_generation t + 1)))) as Ec by done.
  rewrite Ec in *. cbn [snd] in *. split; [done|]. split; [exact Hi'|]. split; [|split; [exact D2|split; [exact D1|split; [exact D3|]]]].
  - intros i. rewrite restore_app by (eapply Forall_impl; [exact Hk|]; cbn; lia). cbn [snap_gen snap_root]. destruct (decide (i = next_generation t)) as [|Hne]; [done|].
    unfold kept. destruct Hi as [_ Hs _ _ _]. destruct t as [l n]. cbn [snapshots next_generation] in *. unfold gens in *. cbn [snapshots] in *.
    destruct (MAX_SNAPSHOTS <=? length l)%nat; cbn [andb]; [|done]. destruct l as [|s l]; [done|]. cbn [tail map head] in *.
    inversion Hs as [|? ? _ Hlt]; subst. case_bool_decide as E.
    + injection E as <-. apply restore_None. eapply Forall_impl; [exact Hlt|]. cbn. lia.
    + rewrite restore_cons, decide_False; [done|]. congruence.
  - eexists. split; [exact Hrt|apply next_of_fresh].
Qed.

Definition two_snapshots : SnapshotTable := mkSnapTable [mkSnapshot 10 1 0; mkSnapshot 20 2 5] 6.

Lemma snapshot_table_correct_witness :
  snap_restore (snap_create two_snapshots 30 3).2 6 = Some 30 /\ snap_restore (snap_create two_snapshots 30 3).2 5 = Some 20 /\
  snap_restore (snap_delete two_snapshots 5).2 5 = None.
Proof.
  pose proof (snapshot_table_correct two_snapshots 30 3 5) as Hc. destruct Hc as (_ & _ & Hr & _ & _ & Hd & _); try (cbn; lia).
  - constructor; cbn; unfold MAX_SNAPSHOTS; try lia; repeat constructor; cbn; lia.
  - cbn [snd snap_create]. split; [apply (Hr 6)|]. split; [apply (Hr 5)|apply (Hd 5)].
Defined.
