(* ===== verification/Superblock.v ===== *)
(** * Superblock.v: the superblock ([SuperblockNE2], fs/neofs/neodos_v2.rs)

    The packed structure of 512 bytes in sector 0 of a volume: written with a
    CRC32 in the first four reserved bytes, and parsed field by field when the
    volume is mounted. *)

From S2P Require Import Prelude Str Bytes BNode NeoDir NeoFile.
Open Scope Z_scope.

Definition SUPERBLOCK_MAGIC : Z := 0x0032454E.
Definition SB_CHECKSUM_OFFSET : nat := 109.
Definition LABEL_MAX : nat := 32.
Definition RESERVED_LEN : nat := 403.

Record Superblock := mkSb {
  sb_magic : Z; sb_version : Z; sb_root : Z; sb_root_version : Z; sb_time : Z;
  sb_blocks : Z; sb_used : Z; sb_free : Z; sb_label_len : Z; sb_label : list Z;
  sb_flags : Z; sb_freelist : Z; sb_snapshots : Z; sb_reserved : list Z
}.

(** The bytes of the packed structure, little endian. *)
Definition sb_fields (sb : Superblock) : list Z :=
  le_bytes 4 (sb_magic sb) ++ le_bytes 4 (sb_version sb) ++ le_bytes 8 (sb_root sb) ++
  le_bytes 8 (sb_root_version sb) ++ le_bytes 8 (sb_time sb) ++ le_bytes 8 (sb_blocks sb) ++
  le_bytes 8 (sb_used sb) ++ le_bytes 8 (sb_free sb) ++ le_bytes 1 (sb_label_len sb) ++ sb_label sb ++
  le_bytes 4 (sb_flags sb) ++ le_bytes 8 (sb_freelist sb) ++ le_bytes 8 (sb_snapshots sb).
Definition sb_bytes (sb : Superblock) : list Z := sb_fields sb ++ sb_reserved sb.

Definition superblock_crc (sb : Superblock) : Z :=
  crc32 (overwrite (sb_bytes sb) SB_CHECKSUM_OFFSET (replicate 4 0)).

(** [sb.reserved[..4].copy_from_slice(&cksum)]. *)
Definition sb_seal (sb : Superblock) : Superblock :=
  mkSb (sb_magic sb) (sb_version sb) (sb_root sb) (sb_root_version sb) (sb_time sb) (sb_blocks sb) (sb_used sb) (sb_free sb)
    (sb_label_len sb) (sb_label sb) (sb_flags sb) (sb_freelist sb) (sb_snapshots sb)
    (overwrite (sb_reserved sb) 0 (le_bytes 4 (superblock_crc sb))).

(** The parsing at the start of [NeoDosFsV2::new]. *)
Definition sb_parse (raw : list Z) : option Superblock :=
  let magic := le_val (sub raw 0 4) in
  if negb (magic =? SUPERBLOCK_MAGIC) then None
  else Some (mkSb magic (le_val (sub raw 4 4)) (le_val (sub raw 8 8)) (le_val (sub raw 16 8)) (le_val (sub raw 24 8))
    (le_val (sub raw 32 8)) (le_val (sub raw 40 8)) (le_val (sub raw 48 8)) (le_val (sub raw 56 1)) (sub raw 57 32)
    (le_val (sub raw 89 4)) (le_val (sub raw 93 8)) (le_val (sub raw 101 8)) (sub raw 109 403)).

(** ** Reading back *)

(** Fields within their widths. *)
Record sb_ok (sb : Superblock) : Prop := {
  so_magic : sb_magic sb = SUPERBLOCK_MAGIC;
  so_version : 0 <= sb_version sb < 2 ^ 32;
  so_root : 0 <= sb_root sb < 2 ^ 64;
  so_root_version : 0 <= sb_root_version sb < 2 ^ 64;
  so_time : 0 <= sb_time sb < 2 ^ 64;
  so_blocks : 0 <= sb_blocks sb < 2 ^ 64;
  so_used : 0 <= sb_used sb < 2 ^ 64;
  so_free : 0 <= sb_free sb < 2 ^ 64;
  so_label_len : 0 <= sb_label_len sb < 2 ^ 8;
  so_label : length (sb_label sb) = LABEL_MAX;
  so_flags : 0 <= sb_flags sb < 2 ^ 32;
  so_freelist : 0 <= sb_freelist sb < 2 ^ 64;
  so_snapshots : 0 <= sb_snapshots sb < 2 ^ 64;
  so_reserved : length (sb_reserved sb) = RESERVED_LEN;
}.

Lemma length_sb_fields sb : length (sb_label sb) = LABEL_MAX -> length (sb_fields sb) = SB_CHECKSUM_OFFSET.
Proof. intros Hl. unfold sb_fields. rewrite !length_app, !length_le_bytes, Hl. done. Qed.

Lemma length_sb_bytes sb : sb_ok sb -> length (sb_bytes sb) = 512%nat.
Proof. intros Hs. unfold sb_bytes. rewrite length_app, length_sb_fields by apply Hs. by rewrite (so_reserved sb Hs). Qed.

(** Skip the fields before an offset, then read the one there. *)
Ltac sb_field Hl := repeat (rewrite sub_skip by (rewrite ?length_le_bytes, ?Hl; lia); rewrite ?length_le_bytes, ?Hl; cbn [Nat.sub]);
  rewrite sub_here by (by rewrite ?length_le_bytes, ?Hl).

Lemma sb_roundtrip sb : sb_ok sb -> sb_parse (sb_bytes sb) = Some sb.
Proof.
  intros [Hm ? ? ? ? ? ? ? ? Hl ? ? ? Hr]. unfold sb_parse, sb_bytes, sb_fields. rewrite <-!app_assoc.
  destruct sb as [magic version root rv time blocks used free llen label flags fl snaps res].
  cbn [sb_magic sb_version sb_root sb_root_version sb_time sb_blocks sb_used sb_free sb_label_len sb_label sb_flags
    sb_freelist sb_snapshots sb_reserved] in *. unfold LABEL_MAX, RESERVED_LEN, SUPERBLOCK_MAGIC in *.
  assert (le_val (sub (le_bytes 4 magic ++ le_bytes 4 version ++ le_bytes 8 root ++ le_bytes 8 rv ++ le_bytes 8 time ++
    le_bytes 8 blocks ++ le_bytes 8 used ++ le_bytes 8 free ++ le_bytes 1 llen ++ label ++ le_bytes 4 flags ++ le_bytes 8 fl ++
    le_bytes 8 snaps ++ res) 0 4) = magic) as Em.
  { rewrite sub_here by apply length_le_bytes. apply le_val_bytes. cbn. lia. }
  rewrite Em, Hm. cbn [negb Z.eqb Pos.eqb]. do 2 f_equal; try (sb_field Hl; try (apply le_val_bytes; cbn; lia); done).
  repeat (rewrite sub_skip by (rewrite ?length_le_bytes, ?Hl; lia); rewrite ?length_le_bytes, ?Hl; cbn [Nat.sub]).
  unfold sub. rewrite drop_0. by rewrite <-Hr, firstn_all.
Qed.

Lemma sb_seal_ok sb : sb_ok sb -> sb_ok (sb_seal sb).
Proof.
  intros [? ? ? ? ? ? ? ? ? ? ? ? ? Hr]. constructor; try done. cbn [sb_seal sb_reserved].
  rewrite length_overwrite; [done|]. rewrite length_le_bytes, Hr. unfold RESERVED_LEN. lia.
Qed.
