(* ===== verification/NeoFs.v ===== *)
(** * NeoFs.v: the file system ([fs/neofs/neodos_v2.rs])

    A mounted NeoFS volume: the superblock, the free list and the device
    ([NeoDisk]), the inode cache, the snapshot table and the list of blocks that
    copy on write has replaced.  Every change to a directory inserts into or
    deletes from its B-tree, writes the new root into the entry of the directory in
    its parent and so on up to the superblock, and then frees the replaced blocks
    unless a snapshot may need them.

    The device is registered and [IoStack] is at cache level L1, as every mount
    sets it up.  The ticks read by an operation are its arguments.  In results the
    outer [None] is a panic, or fuel that does not suffice. *)

From stdpp Require Import gmap sorting.
From S2P Require Import Prelude Str BTreeMap Bytes BNode NeoTree NeoForest NeoInsert FreeList NeoDisk NeoDir NeoFile Snapshot Superblock.
Open Scope Z_scope.

Inductive VfsError :=
  | NotFound | NotADirectory | NotAFile | AlreadyExists | IOError | InvalidPath
  | PermissionDenied | NotImplemented | MountTableFull | AlreadyMounted | NotMounted | DirectoryNotEmpty.

Record VfsNode := mkVfsNode { vn_inode : Z; vn_mode : Z; vn_size : Z }.

(** The root of a directory's tree (of the parent's, for a file), the entry in
    the parent, and the parent. *)
Record CachedInode := mkCached { ci_root : Z; ci_entry : DirEntryV2; ci_parent : option Z }.

Record NeoFs (D C : Type) := mkFs {
  fs_vol : NeoVolume D C; fs_sb : Superblock;
  fs_inodes : list (option CachedInode); fs_next_inode : Z;
  fs_snaps : SnapshotTable; fs_chain : list Z; fs_garbage : list (Z * Z); fs_snap_dirty : bool
}.
Arguments mkFs {D C}.
Arguments fs_vol {D C}. Arguments fs_sb {D C}. Arguments fs_inodes {D C}. Arguments fs_next_inode {D C}.
Arguments fs_snaps {D C}. Arguments fs_chain {D C}. Arguments fs_garbage {D C}. Arguments fs_snap_dirty {D C}.

(** ** Superblock fields *)

Definition sb_with_root (r : Z) (b : Superblock) : Superblock :=
  mkSb (sb_magic b) (sb_version b) r (sb_root_version b) (sb_time b) (sb_blocks b) (sb_used b) (sb_free b)
    (sb_label_len b) (sb_label b) (sb_flags b) (sb_freelist b) (sb_snapshots b) (sb_reserved b).
Definition sb_with_stamp (version time : Z) (b : Superblock) : Superblock :=
  mkSb (sb_magic b) (sb_version b) (sb_root b) version time (sb_blocks b) (sb_used b) (sb_free b)
    (sb_label_len b) (sb_label b) (sb_flags b) (sb_freelist b) (sb_snapshots b) (sb_reserved b).
Definition sb_with_counts (used free : Z) (b : Superblock) : Superblock :=
  mkSb (sb_magic b) (sb_version b) (sb_root b) (sb_root_version b) (sb_time b) (sb_blocks b) used free
    (sb_label_len b) (sb_label b) (sb_flags b) (sb_freelist b) (sb_snapshots b) (sb_reserved b).
Definition sb_with_label (len : Z) (label : list Z) (b : Superblock) : Superblock :=
  mkSb (sb_magic b) (sb_version b) (sb_root b) (sb_root_version b) (sb_time b) (sb_blocks b) (sb_used b) (sb_free b)
    len label (sb_flags b) (sb_freelist b) (sb_snapshots b) (sb_reserved b).
Definition sb_with_lists (freelist snaps : Z) (b : Superblock) : Superblock :=
  mkSb (sb_magic b) (sb_version b) (sb_root b) (sb_root_version b) (sb_time b) (sb_blocks b) (sb_used b) (sb_free b)
    (sb_label_len b) (sb_label b) (sb_flags b) freelist snaps (sb_reserved b).

Definition with_root (e : DirEntryV2) (root : Z) : DirEntryV2 :=
  mkDirEntry (de_name e) (de_mode e) (de_size e) (de_created e) (de_modified e) (de_checksum e)
    (de_inline_len e) (de_inline_data e) root (de_extent_count e).
Definition with_times (e : DirEntryV2) (t : Z) : DirEntryV2 :=
  mkDirEntry (de_name e) (de_mode e) (de_size e) t t (de_checksum e)
    (de_inline_len e) (de_inline_data e) (de_extent_lba e) (de_extent_count e).
Definition with_name (e : DirEntryV2) (name : str) : DirEntryV2 :=
  mkDirEntry name (de_mode e) (de_size e) (de_created e) (de_modified e) (de_checksum e)
    (de_inline_len e) (de_inline_data e) (de_extent_lba e) (de_extent_count e).

(** The size a node reports. *)
Definition node_size (e : DirEntryV2) : Z := if 0 <? de_inline_len e then de_inline_len e else u32 (de_size e).

(** The components of [C:\A\B] or [\A\B]. *)
Definition path_components (path : str) : list str :=
  let p := match path with _ :: 58 :: p => p | _ => path end in
  filter (λ s, s ≠ []) (split 92 (map (λ b, if b =? 47 then 92 else b) p)).

Section fs.
Context {D C : Type} `{BlockDevice D} `{PageCacheOps C} `{PageCache (C * D)}.
Abbreviation Fs := (NeoFs D C).
Abbreviation Vol := (NeoVolume D C).

(** ** State *)

Definition set_vol (v : Vol) (s : Fs) : Fs :=
  mkFs v (fs_sb s) (fs_inodes s) (fs_next_inode s) (fs_snaps s) (fs_chain s) (fs_garbage s) (fs_snap_dirty s).
Definition on_sb (f : Superblock -> Superblock) (s : Fs) : Fs :=
  mkFs (fs_vol s) (f (fs_sb s)) (fs_inodes s) (fs_next_inode s) (fs_snaps s) (fs_chain s) (fs_garbage s) (fs_snap_dirty s).
Definition set_inodes (l : list (option CachedInode)) (next : Z) (s : Fs) : Fs :=
  mkFs (fs_vol s) (fs_sb s) l next (fs_snaps s) (fs_chain s) (fs_garbage s) (fs_snap_dirty s).
Definition set_snaps (t : SnapshotTable) (dirty : bool) (s : Fs) : Fs :=
  mkFs (fs_vol s) (fs_sb s) (fs_inodes s) (fs_next_inode s) t (fs_chain s) (fs_garbage s) dirty.
Definition set_chain (chain : list Z) (s : Fs) : Fs :=
  mkFs (fs_vol s) (fs_sb s) (fs_inodes s) (fs_next_inode s) (fs_snaps s) chain (fs_garbage s) (fs_snap_dirty s).
Definition set_garbage (g : list (Z * Z)) (s : Fs) : Fs :=
  mkFs (fs_vol s) (fs_sb s) (fs_inodes s) (fs_next_inode s) (fs_snaps s) (fs_chain s) g (fs_snap_dirty s).

Definition vol_with (v : Vol) (fl : FreeList) (d : D) (c : C) : Vol := mkVolume fl (vol_blocks v) (vol_base v) d c.
Definition fs_free (s : Fs) : FreeList := vol_free (fs_vol s).
Definition set_free (fl : FreeList) (s : Fs) : Fs :=
  set_vol (vol_with (fs_vol s) fl (vol_dev (fs_vol s)) (vol_cache (fs_vol s))) s.

(** Nodes are read and written on the volume. *)
#[global] Instance fs_io : BTreeIO Fs := {|
  read_node s l := vol_read_node (fs_vol s) l;
  write_node s n := let '(l, v) := vol_write_node (fs_vol s) n in (l, set_vol v s)
|}.

(** ** Raw blocks and sectors *)

Definition read_block_raw (v : Vol) (block_lba : Z) : option (list Z) :=
  read_sectors (vol_dev v) (translate_lba v (u64 (block_lba * 8))) 8.

Definition write_block_raw (v : Vol) (block_lba : Z) (buf : list Z) : bool * Vol :=
  let l := translate_lba v (u64 (block_lba * 8)) in
  let '(ok, d) := write_sectors (vol_dev v) l 8 buf in
  (ok, vol_with v (vol_free v) d (if ok then invalidate_range (vol_cache v) l (l + 8) else vol_cache v)).

(** [invalidate_cache]. *)
Definition invalidate_cache (v : Vol) (start count : Z) : Vol :=
  let l := translate_lba v start in
  vol_with v (vol_free v) (vol_dev v) (invalidate_range (vol_cache v) l (l + count)).

(** [IoStack::write_sector] at level L1: to the device, then the cached page is
    dropped. *)
Definition io_write_sector (v : Vol) (lba : Z) (data : list Z) : bool * Vol :=
  let l := translate_lba v lba in
  let '(ok, d) := match write_sector (vol_dev v) l data with Some d => (true, d) | None => (false, vol_dev v) end in
  (ok, vol_with v (vol_free v) d (invalidate_range (vol_cache v) l (l + 1))).

(** ** Results *)

Definition F (A : Type) : Type := Fs -> option (result VfsError A * Fs).
#[global] Instance F_ret : MRet F := λ A a s, Some (Ok a, s).
#[global] Instance F_bind : MBind F := λ A B f m s,
  match m s with
  | None => None
  | Some (Err e, s) => Some (Err e, s)
  | Some (Ok a, s) => f a s
  end.

Definition throw {A} (e : VfsError) : F A := λ s, Some (Err e, s).
Definition gets {A} (f : Fs -> A) : F A := λ s, Some (Ok (f s), s).
Definition modify (f : Fs -> Fs) : F () := λ s, Some (Ok (), f s).
Definition some_or {A} (e : VfsError) (o : option A) : F A := match o with Some a => mret a | None => throw e end.
(** A computation that only reads; [None] is a panic. *)
Definition reading {A} (f : Fs -> option A) : F A := λ s, a ← f s; Some (Ok a, s).
(** [.ok()]. *)
Definition attempt {A} (c : F A) : F (option A) := λ s, '(r, s) ← c s; Some (Ok (ok r), s).

(** ** Persistence *)

Definition save_freelist (s : Fs) : Fs :=
  if negb (dirty (fs_free s)) && (sb_freelist (fs_sb s) =? 0) then s
  else
    let fl := foldl (λ fl lba, free fl lba 1) (fs_free s) (fs_chain s) in
    on_sb (λ b, sb_with_lists 0 (sb_snapshots b) b) (set_chain [] (set_free (mkFree (regions fl) false) s)).

Definition set_snap_lba (lba : Z) (s : Fs) : Fs := on_sb (λ b, sb_with_lists (sb_freelist b) lba b) s.

Definition save_snapshot_table (s : Fs) : Fs :=
  let lba := sb_snapshots (fs_sb s) in
  let clean := set_snaps (fs_snaps s) false in
  if negb (fs_snap_dirty s) then s
  else if (snapshot_count (fs_snaps s) =? 0)%nat then
    clean (if negb (lba =? 0) then set_snap_lba 0 (set_free (free (fs_free s) lba 1) s) else s)
  else
    let '(block, fl) := if negb (lba =? 0) then (Some lba, fs_free s)
                        else let '(r, fl) := alloc (fs_free s) 1 in (fst <$> r, fl) in
    let s := set_free fl s in
    match block with
    | None => clean s
    | Some lba =>
        let '(ok, v) := write_block_raw (fs_vol s) lba (snap_serialize (fs_snaps s)) in
        let s := set_vol v s in
        clean (if ok then set_snap_lba lba s else s)
    end.

(** Blocks 0 and 1 are never freed. *)
Definition free_garbage (fl : FreeList) (x : Z * Z) : FreeList :=
  if (2 <=? x.1) && (0 <? x.2) then free fl x.1 x.2 else fl.

Definition reclaim_cow_garbage (s : Fs) : Fs :=
  if (0 <? snapshot_count (fs_snaps s))%nat then s
  else set_garbage [] (set_free (foldl free_garbage (fs_free s) (fs_garbage s)) s).

(** A superblock that cannot be written is not an error. *)
Definition save_sb (now : Z) (s : Fs) : Fs :=
  let s := on_sb (λ b, sb_with_stamp (u64 (sb_root_version b + 1)) now b) s in
  let s := save_freelist (reclaim_cow_garbage (save_snapshot_table s)) in
  let n := total_free (fs_free s) in
  let s := on_sb (λ b, sb_seal (sb_with_counts (Z.max 0 (sb_blocks b - n)) n b)) s in
  set_vol (invalidate_cache (io_write_sector (fs_vol s) 0 (sb_bytes (fs_sb s))).2 0 1) s.

(** ** Inodes *)

Definition get_inode (i : Z) (s : Fs) : option CachedInode := c ← fs_inodes s !! Z.to_nat i; c.
Definition inode (i : Z) : F CachedInode := c ← gets (get_inode i); some_or NotFound c.

Definition set_inode (i : Z) (c : CachedInode) (s : Fs) : Fs :=
  set_inodes (<[Z.to_nat i := Some c]> (fs_inodes s)) (fs_next_inode s) s.

Definition same_dir (root : Z) (name : str) (c : option CachedInode) : bool :=
  match c with Some c => (ci_root c =? root) && bool_decide (de_name (ci_entry c) = name) | None => false end.

(** [cache] and [alloc_inum]: a directory that is cached keeps its number. *)
Definition cache (parent : Z) (entry : DirEntryV2) (fallback_root : Z) (s : Fs) : Z * Fs :=
  let isd := de_is_dir entry && (0 <? de_extent_lba entry) in
  let root := if isd then de_extent_lba entry else fallback_root in
  match (if isd then list_find (λ c, same_dir root (de_name entry) c = true) (fs_inodes s) else None) with
  | Some (i, _) => (u32 (Z.of_nat i), s)
  | None =>
      let i := fs_next_inode s in
      let l := fs_inodes s ++ replicate (Z.to_nat i + 1 - length (fs_inodes s)) None in
      (i, set_inodes (<[Z.to_nat i := Some (mkCached root entry (Some parent))]> l) (u32 (i + 1)) s)
  end.
Definition cacheF (parent : Z) (entry : DirEntryV2) (fallback_root : Z) : F Z := λ s,
  let '(i, s) := cache parent entry fallback_root s in Some (Ok i, s).

Definition queue (g : list (Z * Z)) (s : Fs) : Fs := set_garbage (fs_garbage s ++ g) s.
Definition queue_nodes (g : list Z) : Fs -> Fs := queue (map (λ l, (l, 1)) g).
Definition queue_extent (e : DirEntryV2) (s : Fs) : Fs :=
  if negb (de_extent_lba e =? 0) && (0 <? de_extent_count e) then queue [(de_extent_lba e, de_extent_count e)] s else s.

(** A B-tree update: its replaced nodes are queued if it succeeds. *)
Definition tree_update {A} (c : M (St:=Fs) A) : F A := λ s,
  '(r, (s, g)) ← c (s, []);
  Some match r with Some a => (Ok a, queue_nodes g s) | None => (Err IOError, s) end.

(** [tf] is the fuel of the B-tree operations, [pf] of the way up. *)
Fixpoint propagate_dir_root (tf pf : nat) (i new_root : Z) (s : Fs) : option Fs :=
  match pf with
  | O => None
  | S pf =>
      if i =? 0 then
        let s := on_sb (sb_with_root new_root) s in
        Some match get_inode 0 s with
             | Some c => set_inode 0 (mkCached new_root (ci_entry c) (ci_parent c)) s
             | None => s
             end
      else
        match get_inode i s with
        | None => Some s
        | Some c =>
            let entry := with_root (ci_entry c) new_root in
            let s := set_inode i (mkCached new_root entry (ci_parent c)) s in
            match p ← ci_parent c; pc ← get_inode p s; Some (p, ci_root pc) with
            | None => Some s
            | Some (parent, parent_root) =>
                '(r, (s, g)) ← insert_tracked tf parent_root (de_name (ci_entry c)) (de_serialize entry) (s, []);
                match r with
                | None => Some s
                | Some new_parent_root => propagate_dir_root tf pf parent new_parent_root (queue_nodes g s)
                end
            end
        end
  end.
Definition propagate (tf pf : nat) (i new_root : Z) : F () := λ s,
  s ← propagate_dir_root tf pf i new_root s; Some (Ok (), s).

(** ** File contents *)

Definition set_pages (fl : FreeList) (p : C * D) (s : Fs) : Fs := set_vol (vol_with (fs_vol s) fl p.2 p.1) s.
Definition pages (s : Fs) : C * D := (vol_cache (fs_vol s), vol_dev (fs_vol s)).

(** The bytes read and the buffer. *)
Definition read_entry_bytes (entry : DirEntryV2) (offset : Z) (buf : list Z) : F (nat * list Z) := λ s,
  let adj := with_root entry (translate_lba (fs_vol s) (u64 (de_extent_lba entry * 8))) in
  '(r, buf, p) ← file_read adj offset buf (pages s);
  let s := set_pages (fs_free s) p s in
  Some match r with Some n => (Ok (n, buf), s) | None => (Err IOError, s) end.

Definition fs_read (i offset : Z) (buf : list Z) : F (nat * list Z) :=
  c ← inode i; read_entry_bytes (ci_entry c) offset buf.

Definition file_writeF (entry : DirEntryV2) (offset : Z) (buf : list Z) (now : Z) : F DirEntryV2 := λ s,
  '(r, fl, p) ← file_write entry offset buf (fs_free s) (pages s) (translate_lba (fs_vol s) 0) now;
  let s := set_pages fl p s in
  Some match r with Some e => (Ok e, s) | None => (Err IOError, s) end.

Definition fs_write (tf pf : nat) (i offset : Z) (buf : list Z) (t_file t_save : Z) : F nat :=
  c ← inode i;
  new_entry ← file_writeF (ci_entry c) offset buf t_file;
  _ ← modify (queue_extent (ci_entry c));
  new_root ← tree_update (insert_tracked tf (ci_root c) (de_name new_entry) (de_serialize new_entry));
  _ ← match ci_parent c with Some p => propagate tf pf p new_root | None => mret () end;
  _ ← modify (λ s, match get_inode i s with
                   | Some c => set_inode i (mkCached new_root new_entry (ci_parent c)) s
                   | None => s
                   end);
  _ ← modify (save_sb t_save);
  mret (length buf).

(** ** Directories *)

Definition fs_lookup (tf : nat) (dir : Z) (name : str) : F VfsNode :=
  c ← inode dir;
  e ← reading (λ s, dir_lookup tf s (ci_root c) name);
  e ← some_or NotFound e;
  i ← cacheF dir e (ci_root c);
  mret (mkVfsNode i (de_mode e) (node_size e)).

Definition fs_readdir (tf : nat) (dir : Z) (index : nat) : F (option (str * VfsNode)) :=
  c ← inode dir;
  e ← reading (λ s, dir_readdir tf s (ci_root c) index);
  match e with
  | None => mret None
  | Some e =>
      i ← cacheF dir e (ci_root c);
      slot ← reading (λ s, fs_inodes s !! Z.to_nat i);
      cached ← some_or NotFound slot;
      let e := ci_entry cached in
      mret (Some (from_utf8_or (de_name e) (bytes_of "?"), mkVfsNode i (de_mode e) (node_size e)))
  end.

Definition all_perms : Z := Z.lor PERM_R (Z.lor PERM_W (Z.lor PERM_X PERM_D)).

Definition write_nodeF (n : BTreeNode) : F Z := λ s, let '(l, s) := write_node s n in Some (Ok l, s).

Definition fs_mkdir (tf pf : nat) (dir : Z) (name : str) (t_create t_save : Z) : F VfsNode :=
  c ← inode dir;
  subdir_root ← write_nodeF (mkNode Leaf []);
  if subdir_root =? 0 then throw IOError
  else
    let entry := with_times (with_root (new_dir name) subdir_root) t_create in
    new_root ← tree_update (insert_tracked tf (ci_root c) name (de_serialize entry));
    _ ← propagate tf pf dir new_root;
    _ ← modify (save_sb t_save);
    i ← cacheF dir entry new_root;
    mret (mkVfsNode i (Z.lor MODE_DIR all_perms) 0).

Definition fs_create (tf pf : nat) (dir : Z) (name : str) (t_save : Z) : F VfsNode :=
  c ← inode dir;
  let entry := new_file name in
  new_root ← tree_update (insert_tracked tf (ci_root c) name (de_serialize entry));
  _ ← propagate tf pf dir new_root;
  _ ← modify (save_sb t_save);
  i ← cacheF dir entry new_root;
  mret (mkVfsNode i (Z.lor MODE_FILE all_perms) 0).

Definition fs_stat (i : Z) : F VfsNode :=
  c ← inode i; mret (mkVfsNode i (de_mode (ci_entry c)) (node_size (ci_entry c))).

(** The end of both removals: an empty tree is not propagated. *)
Definition remove_entry (tf pf : nat) (dir root : Z) (name : str) (t_save : Z) : F () :=
  nr ← tree_update (delete_tracked tf root name);
  _ ← match nr with Some r => propagate tf pf dir r | None => mret () end;
  modify (save_sb t_save).

Definition fs_remove_file (tf pf : nat) (dir : Z) (name : str) (t_save : Z) : F () :=
  c ← inode dir;
  e ← reading (λ s, dir_lookup tf s (ci_root c) name);
  _ ← match e with Some e => modify (queue_extent e) | None => mret () end;
  remove_entry tf pf dir (ci_root c) name t_save.

Definition fs_remove_dir (tf pf : nat) (dir : Z) (name : str) (t_save : Z) : F () :=
  c ← inode dir;
  e ← reading (λ s, dir_lookup tf s (ci_root c) name);
  _ ← match e with
      | Some e =>
          _ ← (if de_is_dir e then
                 count ← reading (λ s, dir_count tf s (de_extent_lba e));
                 if (0 <? count)%nat then throw NotAFile else mret ()
               else mret ());
          modify (queue_extent e)
      | None => mret ()
      end;
  remove_entry tf pf dir (ci_root c) name t_save.

(** One garbage list for the deletion and the insertion. *)
Definition rename_tree (tf : nat) (root : Z) (old new : str) (e : DirEntryV2) : M (St:=Fs) Z :=
  ad ← delete_tracked tf root old;
  insert_tracked tf (match ad with Some r => r | None => root end) new (de_serialize (with_name e new)).

Definition fs_rename (tf pf : nat) (dir : Z) (old new : str) (t_save : Z) : F () :=
  c ← inode dir;
  e ← reading (λ s, dir_lookup tf s (ci_root c) old);
  e ← some_or NotFound e;
  nr ← tree_update (rename_tree tf (ci_root c) old new e);
  _ ← propagate tf pf dir nr;
  modify (save_sb t_save).

(** A length above 32 panics. *)
Definition volume_label (s : Fs) : option str :=
  let len := Z.to_nat (sb_label_len (fs_sb s)) in
  if (LABEL_MAX <? len)%nat then None else Some (from_utf8_or (take len (sb_label (fs_sb s))) []).

Definition set_volume_label (label : str) (t_save : Z) : F () :=
  let len := Nat.min (length label) LABEL_MAX in
  _ ← modify (on_sb (λ b, sb_with_label (Z.of_nat len) (overwrite (sb_label b) 0 (take len label)) b));
  modify (save_sb t_save).

Definition total_sectors (s : Fs) : Z := u64 (sb_blocks (fs_sb s) * 8).

(** ** Snapshots *)

Definition snapshot_create (t_snap t_save : Z) : F Z := λ s,
  let '(id, t) := snap_create (fs_snaps s) (sb_root (fs_sb s)) t_snap in
  Some (Ok id, save_sb t_save (set_snaps t true s)).

(** The superblock gets the old root; the inode cache keeps the present one. *)
Definition snapshot_restore (id t_save : Z) : F () :=
  r ← gets (λ s, snap_restore (fs_snaps s) id);
  root_lba ← some_or NotFound r;
  _ ← modify (on_sb (sb_with_root root_lba));
  modify (save_sb t_save).

Definition raw_entry (x : Z * Snapshot) : list Z := le_bytes 8 x.1 ++ le_bytes 8 (snap_root x.2) ++ le_bytes 8 (snap_time x.2).

(** The number of snapshots, and as many entries of 24 bytes as the buffer takes. *)
Definition snapshot_list (buf : list Z) (s : Fs) : nat * list Z :=
  let entries := snap_list (fs_snaps s) in
  let count := Nat.min (length entries) (length buf / 24) in
  (length entries, overwrite buf 0 (take count entries ≫= raw_entry)).

Definition snapshot_delete (id t_save : Z) : F () := λ s,
  match snap_delete (fs_snaps s) id with
  | (false, _) => Some (Err NotFound, s)
  | (true, t) => Some (Ok (), save_sb t_save (set_snaps t true s))
  end.

Definition snapshot_purge (t_save : Z) : F () := modify (λ s, save_sb t_save (set_snaps (snap_purge (fs_snaps s)) true s)).

Fixpoint resolve_from (tf : nat) (cur : Z) (comps : list str) (s : Fs) : option (option DirEntryV2) :=
  match comps with
  | [] => Some None
  | c :: rest =>
      e ← dir_lookup tf s cur c;
      match e, rest with
      | None, _ => Some None
      | Some e, [] => Some (Some e)
      | Some e, _ => if negb (de_is_dir e) || (de_extent_lba e =? 0) then Some None else resolve_from tf (de_extent_lba e) rest s
      end
  end.
Definition resolve_entry_in (tf : nat) (root : Z) (path : str) (s : Fs) : option (option DirEntryV2) :=
  resolve_from tf root (path_components path) s.

(** The directories on the way are looked up, and so cached. *)
Fixpoint resolve_dirs (tf : nat) (i : Z) (comps : list str) : F (Z * str) :=
  match comps with
  | [] => throw NotFound
  | [name] => mret (i, name)
  | c :: rest => n ← fs_lookup tf i c; resolve_dirs tf (vn_inode n) rest
  end.
Definition resolve_parent_inode (tf : nat) (path : str) : F (option (Z * str)) :=
  attempt (resolve_dirs tf 0 (path_components path)).

Definition MAX_EXTRACT : Z := 64 * 1024 * 1024.

Definition snapshot_extract (tf pf : nat) (id : Z) (src dst : str) (t1 t2 t3 t4 t5 : Z) : F Z :=
  r ← gets (λ s, snap_restore (fs_snaps s) id);
  root ← some_or NotFound r;
  e ← reading (resolve_entry_in tf root src);
  entry ← some_or NotFound e;
  if de_is_dir entry then throw NotAFile
  else
    let size := if 0 <? de_inline_len entry then de_inline_len entry else de_size entry in
    if MAX_EXTRACT <? size then throw IOError
    else
      let zeros := replicate (Z.to_nat size) 0 in
      data ← (if 0 <? size then '(_, buf) ← read_entry_bytes entry 0 zeros; mret buf else mret zeros);
      p ← resolve_parent_inode tf dst;
      '(parent, name) ← some_or NotFound p;
      found ← attempt (fs_lookup tf parent name);
      _ ← match found with Some _ => _ ← attempt (fs_remove_file tf pf parent name t1); mret () | None => mret () end;
      node ← fs_create tf pf parent name t2;
      _ ← (if 0 <? size then _ ← fs_write tf pf (vn_inode node) 0 data t3 t4; mret () else mret ());
      _ ← modify (save_sb t5);
      mret size.

(** ** Mounting *)

Definition MAX_FREELIST_NODES : Z := Z.shiftl 1 20.

(** The loop of [load_freelist]: the regions and the blocks of the chain, or
    [Some None] for a list that is refused. *)
Fixpoint load_chain (fuel : nat) (v : Vol) (lba : Z) (rs : list FreeRegion) (chain : list Z)
    : option (option (list FreeRegion * list Z)) :=
  if lba =? 0 then Some (Some (rs, chain))
  else match fuel with
  | O => None
  | S fuel =>
      if (MAX_FREELIST_NODES <=? Z.of_nat (length chain)) || bool_decide (lba ∈ chain) then Some None
      else match buf ← read_block_raw v lba; fl_deserialize buf with
           | None => Some None
           | Some (node, next) => load_chain fuel v next (rs ++ regions node) (chain ++ [lba])
           end
  end.

(** [Some None]: refused, nothing changed. *)
Definition load_freelist (fuel : nat) (head : Z) (s : Fs) : option (option Fs) :=
  r ← load_chain fuel (fs_vol s) head [] [];
  Some ('(rs, chain) ← r;
        let fl := mkFree rs false in
        if is_valid fl (sb_blocks (fs_sb s)) then Some (set_chain chain (set_free fl s)) else None).

(** The blocks an entry uses, and the directory it names. *)
Definition entry_blocks (e : DirEntryV2) : list Z :=
  if negb (de_extent_lba e =? 0) && (0 <? de_extent_count e) then
    seqZ (de_extent_lba e) (Z.min (2 ^ 64 - 1) (de_extent_lba e + de_extent_count e) - de_extent_lba e)
  else [].
Definition entry_dirs (dir_root : Z) (e : DirEntryV2) : list Z :=
  if de_is_dir e && negb (de_extent_lba e =? 0) && negb (de_extent_lba e =? dir_root) then [de_extent_lba e] else [].

(** The blocks used and the directories to visit, in the order pushed. *)
Definition collect_directory_blocks (tf : nat) (dir_root : Z) (s : Fs) : option (list Z * list Z) :=
  lbas ← walk_lbas tf s dir_root;
  es ← walk tf s dir_root;
  let des := map from_btree_entry es in
  Some (lbas ++ (des ≫= entry_blocks), des ≫= entry_dirs dir_root).

(** [pending] is a stack; its head is the end of the vector. *)
Fixpoint collect_all (tf fuel : nat) (pending used : list Z) (s : Fs) : option (list Z) :=
  match pending with
  | [] => Some used
  | dir_root :: pending =>
      match fuel with
      | O => None
      | S fuel =>
          '(u, p) ← collect_directory_blocks tf dir_root s;
          collect_all tf fuel (reverse p ++ pending) (used ++ u) s
      end
  end.

(** [Vec::dedup]. *)
Fixpoint dedup (l : list Z) : list Z :=
  match l with
  | x :: ((y :: _) as t) => if x =? y then dedup t else x :: dedup t
  | _ => l
  end.

Definition recover_freelist (tf fuel : nat) (s : Fs) : option Fs :=
  let nonzero l := if negb (l =? 0) then [l] else [] in
  let pending := nonzero (sb_root (fs_sb s)) ++ (snap_list (fs_snaps s) ≫= λ x, nonzero (snap_root x.2)) in
  used ← collect_all tf fuel (reverse pending) [0; 1] s;
  let used := dedup (merge_sort Z.le (used ++ nonzero (sb_snapshots (fs_sb s)))) in
  let fl := from_used used (sb_blocks (fs_sb s)) in
  Some (set_chain [] (set_free (mkFree (regions fl) false) s)).

(** A sector of the table that cannot be read is left zero. *)
Fixpoint read_lenient (d : D) (lba : Z) (n : nat) : list Z :=
  match n with
  | O => []
  | S n => match read_sector d lba with Some b => b | None => replicate SECTOR_SIZE 0 end ++ read_lenient d (lba + 1) n
  end.

Definition load_snapshots (v : Vol) (lba : Z) : SnapshotTable :=
  if 0 <? lba then
    match snap_deserialize (read_lenient (vol_dev v) (translate_lba v (u64 (lba * 8))) 8) with
    | Some t => t
    | None => snap_new
    end
  else snap_new.

(** [NeoDosFsV2::new]; the inner [None] is [Err(())]. *)
Definition fs_new (tf fuel : nat) (base : Z) (d : D) (c : C) : option (option Fs) :=
  match raw ← read_sector d (u64 (base + 0)); sb_parse raw with
  | None => Some None
  | Some sb =>
      let v := mkVolume fl_new (sb_blocks sb) base d c in
      let root := mkCached (sb_root sb) (new_dir (bytes_of "\")) None in
      let s := mkFs v sb [Some root] 1 (load_snapshots v (sb_snapshots sb)) [] [] false in
      let head := sb_freelist sb in
      loaded ← (if head =? 0 then Some None else load_freelist fuel head s);
      match loaded with
      | Some s => Some (Some s)
      | None => s ← recover_freelist tf fuel s; Some (Some s)
      end
  end.

(** ** Formatting *)

(** The loop of [mkfs_ne2]: sector [i] of the root, then of the free list. *)
Fixpoint mkfs_sectors (v : Vol) (i : Z) (n : nat) (root fl : list Z) : bool * Vol :=
  match n with
  | O => (true, v)
  | S n =>
      match io_write_sector v (8 + i) (take SECTOR_SIZE root) with
      | (false, v) => (false, v)
      | (true, v) =>
          match io_write_sector v (16 + i) (take SECTOR_SIZE fl) with
          | (false, v) => (false, v)
          | (true, v) => mkfs_sectors v (i + 1) n (drop SECTOR_SIZE root) (drop SECTOR_SIZE fl)
          end
      end
  end.

Definition mkfs_superblock (num_blocks now : Z) (label : str) : Superblock :=
  let len := Nat.min (length label) LABEL_MAX in
  sb_seal (mkSb SUPERBLOCK_MAGIC 2 1 1 now num_blocks 3 (num_blocks - 3) (Z.of_nat len) (field LABEL_MAX (take len label))
    0 2 0 (replicate RESERVED_LEN 0)).

Definition mkfs_ne2 (v : Vol) (num_blocks now : Z) (label : str) : bool * Vol :=
  if num_blocks <? 4 then (false, v)
  else
    match mkfs_sectors v 0 8 (serialize (mkNode Leaf [])) (fl_serialize (with_range 3 (num_blocks - 3)) 0) with
    | (false, v) => (false, v)
    | (true, v) =>
        match io_write_sector v 0 (sb_bytes (mkfs_superblock num_blocks now label)) with
        | (false, v) => (false, v)
        | (true, v) => (true, invalidate_cache v 0 24)
        end
    end.

End fs.
