(* ===== verification/NeoFsOk.v ===== *)
(** * NeoFsOk.v: the invariant of a mounted volume ([fs/neofs/neodos_v2.rs])

    The file system as a node store, what saving the superblock does (the garbage
    and the free-list chain are freed, the superblock is on the device), and the
    invariant [fs_rep] of a mounted volume without snapshots. *)

From stdpp Require Import gmap.
From S2P Require Import Prelude Str BTreeMap Bytes BNode NeoTree NeoForest NeoInsert FreeList NeoDisk NeoDir NeoFile Snapshot Superblock NeoBTree NeoFs.
Open Scope Z_scope.

(** ** Freeing a list of blocks *)

Definition free_blocks (fl : FreeList) (l : list Z) : FreeList := foldl (λ fl b, free fl b 1) fl l.

Lemma free_blocks_spec l fl hi :
  chain 2 (regions fl) hi -> hi <= 2 ^ 32 -> NoDup l -> Forall (λ b, 2 <= b < hi /\ ~ covers (regions fl) b) l ->
  chain 2 (regions (free_blocks fl l)) hi /\
  total_free_of (regions (free_blocks fl l)) = total_free_of (regions fl) + Z.of_nat (length l) /\
  forall b, covers (regions (free_blocks fl l)) b <-> covers (regions fl) b \/ b ∈ l.
Proof.
  revert fl. induction l as [|x l IH]; intros fl Hc Hhi Hnd Hl.
  { cbn [free_blocks foldl length]. split_and!; [done|lia|]. intros b. rewrite elem_of_nil. tauto. }
  apply NoDup_cons in Hnd as [Hx Hnd]. apply Forall_cons in Hl as [[Hr Hn] Hl].
  destruct (free_loop_spec (regions fl) 2 hi (mkRegion x 1)) as (C1 & T1 & V1 & _); cbn [start_lba region_len]; try done; try lia.
  { intros b Hb. unfold in_region in Hb. cbn in Hb. by replace b with x by lia. }
  unfold in_region in V1. cbn [start_lba region_len] in T1, V1.
  destruct (IH (free fl x 1)) as (C2 & T2 & V2); cbn [free regions]; try done.
  { rewrite Forall_forall in Hl |- *. intros b Hb. destruct (Hl b Hb) as [? Hnb]. split; [done|].
    rewrite V1. intros [?|?]; [done|]. by replace b with x in Hb by lia. }
  change (free_blocks fl (x :: l)) with (free_blocks (free fl x 1) l). cbn [length]. split_and!; [done|rewrite T2; cbn [free regions]; lia|].
  intros b. rewrite V2. cbn [free regions]. rewrite V1, elem_of_cons.
  assert (x <= b < x + 1 <-> b = x) as -> by lia. tauto.
Qed.

Lemma free_blocks_app fl a b : free_blocks (free_blocks fl a) b = free_blocks fl (a ++ b).
Proof. unfold free_blocks. by rewrite foldl_app. Qed.

(** The garbage list of nodes: blocks 0 and 1 are kept. *)
Lemma free_garbage_nodes fl g :
  foldl free_garbage fl (map (λ l, (l, 1)) g) = free_blocks fl (filter (λ b, 2 <= b) g).
Proof.
  revert fl. induction g as [|x g IH]; intros fl; [done|]. cbn [map foldl]. rewrite IH, filter_cons.
  unfold free_garbage. cbn [fst snd]. destruct (Z.leb_spec 2 x); cbn [andb]; case_decide; try lia; done.
Qed.

(** ** Trees only depend on their nodes *)

Lemma forest_restrict (T T' : bound -> bound -> Z -> list BTreeEntry -> list Z -> Prop) lo es hi kvs ls :
  forest T lo es hi kvs ls ->
  (forall lo hi c kvs ls', T lo hi c kvs ls' -> ls' ⊆ ls -> T' lo hi c kvs ls') -> forest T' lo es hi kvs ls.
Proof.
  induction 1 as [|lo hi k c k' v' es kvs1 kvs2 ls1 ls2 HT Hk Hlt Hlo Hhi Hf IH]; intros HT'; econstructor; eauto.
  - apply HT'; [done|]. intros a Ha. apply elem_of_app. by left.
  - apply IH. intros * H1 H2. apply HT'; [done|]. intros a Ha. apply elem_of_app. right. by apply H2.
Qed.

Lemma tree_restrict strict m m' d lo hi l kvs ls :
  tree strict m d lo hi l kvs ls -> (forall a, a ∈ ls -> m' !! a = m !! a) -> tree strict m' d lo hi l kvs ls.
Proof.
  revert lo hi l kvs ls. induction d as [|d IH]; intros lo hi l kvs ls; cbn [tree].
  - intros (? & Hl & ? & ? & ? & ? & ->) Hm. rewrite Hm by constructor. tauto.
  - intros (? & es & lss & Hl & ? & ? & Hf & ->) Hm. split; [done|]. exists es, lss. rewrite Hm by constructor.
    do 3 (split; [done|]). split; [|done].
    eapply forest_restrict; [exact Hf|]. intros * Ht Hsub. apply IH; [done|]. intros a Ha. apply Hm. right. by apply Hsub.
Qed.

Section ok.
Context {D C : Type} `{BlockDeviceLaws D} `{PageCacheOps C}.
Abbreviation Fs := (NeoFs D C).

(** ** The file system as a node store *)

(** [s] is [s0] but for the volume, on which only blocks that were free were
    written and [r] blocks are free. *)
Record fs_io_rep (s0 : Fs) (m0 : gmap Z BTreeNode) (s : Fs) (m : gmap Z BTreeNode) (r : nat) : Prop := {
  fi_vol : vol_rep (fs_vol s) m r;
  fi_frame : vol_frame (fs_vol s0) (fs_vol s);
  fi_rest : s = set_vol (fs_vol s) s0;
  fi_new b : is_Some (m !! b) -> is_Some (m0 !! b) \/ covers (regions (fs_free s0)) b;
  fi_count : total_free_of (regions (fs_free s)) = Z.of_nat r;
}.

Lemma fs_io_read s0 m0 s m r l n : fs_io_rep s0 m0 s m r -> m !! l = Some n -> read_node s l = Some n.
Proof. intros [Hr _ _ _ _] Hl. by eapply vol_read. Qed.

Lemma fs_io_write s0 m0 s m r n : fs_io_rep s0 m0 s m (S r) -> storable n ->
  0 < (write_node s n).1 < 2 ^ 64 /\ m !! (write_node s n).1 = None /\
  fs_io_rep s0 m0 (write_node s n).2 (<[(write_node s n).1 := n]> m) r.
Proof.
  intros [Hr Hf Hs Hnew Hc] Hn. destruct (vol_write_spec _ m r n Hr Hn) as (Hcov & Hl & Hnone & Hr' & Hf' & Ht).
  unfold fs_free in *. cbn [write_node fs_io]. destruct (vol_write_node (fs_vol s) n) as [l v]. cbn [fst snd] in *.
  split; [done|]. split; [done|]. constructor; cbn [fs_vol set_vol].
  - done.
  - by eapply vol_frame_trans.
  - by rewrite Hs.
  - intros b. destruct (decide (b = l)) as [->|Hne]; [intros _; right; by apply (vf_free _ _ Hf)|].
    rewrite lookup_insert_ne by done. apply Hnew.
  - unfold fs_free. cbn [fs_vol set_vol]. lia.
Qed.

Definition fs_laws (s0 : Fs) (m0 : gmap Z BTreeNode) : BTreeIOLaws Fs :=
  {| io_rep := fs_io_rep s0 m0; io_read := fs_io_read s0 m0; io_write := fs_io_write s0 m0 |}.

(** ** Saving *)

Lemma save_freelist_spec (s : Fs) : (sb_freelist (fs_sb s) = 0 -> fs_chain s = []) ->
  save_freelist s = on_sb (λ b, sb_with_lists 0 (sb_snapshots b) b)
    (set_chain [] (set_free (mkFree (regions (free_blocks (fs_free s) (fs_chain s))) false) s)).
Proof.
  intros Hc. unfold save_freelist. destruct (dirty (fs_free s)) eqn:Ed, (Z.eqb_spec (sb_freelist (fs_sb s)) 0) as [E|]; try done.
  specialize (Hc E). destruct s as [[[rs dr] ? ? ? ?] [] ? ? ? ? ? ?]. cbn in *. by subst.
Qed.

Lemma reclaim_spec (s : Fs) g : snapshots (fs_snaps s) = [] -> fs_garbage s = map (λ l, (l, 1)) g ->
  reclaim_cow_garbage s = set_garbage [] (set_free (free_blocks (fs_free s) (filter (λ b, 2 <= b) g)) s).
Proof. intros Hs Hg. unfold reclaim_cow_garbage, snapshot_count. by rewrite Hs, Hg, free_garbage_nodes. Qed.

(** Freed blocks hold no node that is kept, and the device is as before but for
    the superblock. *)
Lemma vol_rep_release (v : NeoVolume D C) m r l m2 cap d' c' :
  vol_rep v m r -> NoDup l -> Forall (λ b, 2 <= b < vol_blocks v /\ ~ covers (regions (vol_free v)) b) l ->
  m2 ⊆ m -> (forall b, b ∈ l -> m2 !! b = None) ->
  dev_ok d' cap -> 0 <= vol_base v -> vol_base v + vol_blocks v * 8 <= cap -> cap <= 2 ^ 64 ->
  (forall x, x ≠ vol_base v -> read_sector d' x = read_sector (vol_dev v) x) ->
  vol_rep (vol_with v (mkFree (regions (free_blocks (vol_free v) l)) false) d' c') m2 (r + length l).
Proof.
  intros [Hch Hsz _ Hroom Hn] Hnd Hl Hsub Hgone Hd Hb Hcap Hc64 Hdev.
  destruct (free_blocks_spec l (vol_free v) (vol_blocks v)) as (C1 & T1 & V1); [done|lia|done|done|].
  constructor; cbn [vol_with vol_free vol_blocks vol_base vol_dev regions]; [done|done|by exists cap|lia|].
  intros a n Ha. destruct (Hn a n) as (H3 & H4 & H5 & H6); [by eapply lookup_weaken|]. split_and!; try done; try lia.
  - rewrite V1. intros [?|Hal]; [done|]. rewrite (Hgone a Hal) in Ha. done.
  - rewrite <-H6. apply read_sectors_ext. intros x Hx. apply Hdev. lia.
Qed.

(** What [save_sb] leaves when it frees the blocks [l]: the superblock is on the
    device, and nothing else of the device changed. *)
Record saved (s s' : Fs) (l : list Z) : Prop := {
  sv_regions : regions (fs_free s') = regions (free_blocks (fs_free s) l);
  sv_place : vol_base (fs_vol s') = vol_base (fs_vol s) /\ vol_blocks (fs_vol s') = vol_blocks (fs_vol s);
  sv_root : sb_root (fs_sb s') = sb_root (fs_sb s) /\ sb_blocks (fs_sb s') = sb_blocks (fs_sb s) /\
    sb_freelist (fs_sb s') = 0 /\ sb_snapshots (fs_sb s') = sb_snapshots (fs_sb s);
  sv_sb : sb_ok (fs_sb s');
  sv_inodes : fs_inodes s' = fs_inodes s /\ fs_next_inode s' = fs_next_inode s;
  sv_lists : fs_snaps s' = fs_snaps s /\ fs_snap_dirty s' = false /\ fs_garbage s' = [] /\ fs_chain s' = [];
  sv_disk : read_sector (vol_dev (fs_vol s')) (vol_base (fs_vol s)) = Some (sb_bytes (fs_sb s'));
  sv_other x : x ≠ vol_base (fs_vol s) -> read_sector (vol_dev (fs_vol s')) x = read_sector (vol_dev (fs_vol s)) x;
}.

Lemma sb_ok_saved b now n : sb_ok b -> 0 <= now < 2 ^ 64 -> 0 <= n < 2 ^ 64 ->
  sb_ok (sb_seal (sb_with_counts (Z.max 0 (sb_blocks b - n)) n
    (sb_with_lists 0 (sb_snapshots b) (sb_with_stamp (u64 (sb_root_version b + 1)) now b)))).
Proof.
  intros [] Hnow Hn. apply sb_seal_ok. pose proof (wrap_bound 64 (sb_root_version b + 1)).
  constructor; cbn; try done; lia.
Qed.

Lemma save_sb_spec (s : Fs) now m r g m2 :
  vol_rep (fs_vol s) m r -> sb_ok (fs_sb s) -> 0 <= now < 2 ^ 64 ->
  snapshots (fs_snaps s) = [] -> fs_snap_dirty s = false -> fs_garbage s = map (λ l, (l, 1)) g ->
  (sb_freelist (fs_sb s) = 0 -> fs_chain s = []) ->
  let l := filter (λ b, 2 <= b) g ++ fs_chain s in
  NoDup l -> Forall (λ b, 2 <= b < vol_blocks (fs_vol s) /\ ~ covers (regions (fs_free s)) b) l ->
  m2 ⊆ m -> (forall b, b ∈ l -> m2 !! b = None) ->
  vol_rep (fs_vol (save_sb now s)) m2 (r + length l) /\ saved s (save_sb now s) l.
Proof.
  intros Hv Hsb Hnow Hsn Hsd Hg Hch l Hnd Hl Hsub Hgone. destruct (vr_dev _ _ _ Hv) as (cap & Hd & Hb & Hcap & Hc64).
  pose proof (vr_size _ _ _ Hv) as Hsz.
  unfold save_sb, save_snapshot_table. cbn [on_sb fs_snap_dirty]. rewrite Hsd. cbn [negb].
  rewrite (reclaim_spec _ g) by done. rewrite save_freelist_spec by done.
  set (n := total_free _). assert (0 <= n < 2 ^ 64) as Hn by (by apply wrap_bound). clearbody n.
  pose proof (sb_ok_saved (fs_sb s) now n Hsb Hnow Hn) as Hsb'.
  unfold io_write_sector, invalidate_cache, translate_lba. cbn -[sb_bytes sb_seal sb_with_counts free_blocks].
  rewrite Z.add_0_r, (wrap_small 64 (vol_base (fs_vol s))) by lia.
  set (sb' := sb_seal _) in *. destruct (dev_write (vol_dev (fs_vol s)) cap (vol_base (fs_vol s)) (sb_bytes sb') Hd)
    as (d' & Hw & Hd' & Hr' & Ho'); [lia|by apply length_sb_bytes|].
  rewrite Hw. cbn -[sb_bytes free_blocks]. unfold set_free, fs_free in *. cbn -[sb_bytes free_blocks]. rewrite free_blocks_app. fold l.
  split; [by apply (vol_rep_release (fs_vol s) m r l m2 cap)|]. by constructor.
Qed.

#[local] Opaque save_sb.

(** ** The invariant *)

(** A mounted volume without snapshots whose root directory holds [des] in the
    nodes [ls]; [m] has these and the nodes of other directories. *)
Record fs_rep (s : Fs) (m : gmap Z BTreeNode) (d : nat) (des : list DirEntryV2) (ls : list Z) : Prop := {
  fr_vol : vol_rep (fs_vol s) m (Z.to_nat (total_free_of (regions (fs_free s))));
  fr_sb : sb_ok (fs_sb s) /\ sb_blocks (fs_sb s) = vol_blocks (fs_vol s);
  fr_dir : Forall de_ok des /\ rooted true m d (sb_root (fs_sb s)) (map to_btree_entry des) ls /\ NoDup ls;
  fr_root : exists c, fs_inodes s !! 0%nat = Some (Some c) /\ ci_root c = sb_root (fs_sb s);
  fr_next : 1 <= fs_next_inode s < 2 ^ 32;
  fr_snaps : snapshots (fs_snaps s) = [] /\ fs_snap_dirty s = false /\ fs_garbage s = [];
  fr_chain : NoDup (fs_chain s) /\
    Forall (λ b, 2 <= b < vol_blocks (fs_vol s) /\ ~ covers (regions (fs_free s)) b /\ m !! b = None) (fs_chain s) /\
    (sb_freelist (fs_sb s) = 0 -> fs_chain s = []);
}.

Definition free_count (s : Fs) : Z := total_free_of (regions (fs_free s)).
(** The blocks of a list that can be free at all. *)
Definition own (l : list Z) : list Z := filter (λ b, 2 <= b) l.

Lemma own_all l : Forall (λ b, 2 <= b) l -> length (own l) = length l.
Proof.
  unfold own. induction 1 as [|b l Hb Hl IH]; [done|]. rewrite filter_cons. case_decide; [|done]. cbn [length]. by rewrite IH.
Qed.

Lemma fs_rep_io s m d des ls : fs_rep s m d des ls -> fs_io_rep s m s m (Z.to_nat (free_count s)).
Proof.
  intros Hs. pose proof (fr_vol _ _ _ _ _ Hs) as Hv. constructor; [done|apply vol_frame_refl|by destruct s|by left|].
  destruct (chain_total _ _ _ (vr_free _ _ _ Hv)); [apply Hv|]. unfold free_count, fs_free in *. lia.
Qed.

Lemma vol_rep_exact (v : NeoVolume D C) m r : vol_rep v m r -> vol_rep v m (Z.to_nat (total_free_of (regions (vol_free v)))).
Proof.
  intros Hv. destruct (chain_total _ _ _ (vr_free _ _ _ Hv)); [apply Hv|]. destruct Hv. constructor; try done. lia.
Qed.

(** The superblock on the device. *)
Definition disk_superblock (s : Fs) : option Superblock :=
  raw ← read_sector (vol_dev (fs_vol s)) (vol_base (fs_vol s)); sb_parse raw.

Lemma disk_saved (s s' : Fs) l : saved s s' l -> disk_superblock s' = Some (fs_sb s').
Proof. intros [_ [Hb _] _ Hsb _ _ Hd _]. unfold disk_superblock. rewrite Hb, Hd. exact (sb_roundtrip _ Hsb). Qed.

Lemma fs_rep_inodes (s : Fs) m d des ls l next :
  fs_rep s m d des ls -> (forall c, fs_inodes s !! 0%nat = Some c -> l !! 0%nat = Some c) -> 1 <= next < 2 ^ 32 ->
  fs_rep (set_inodes l next s) m d des ls.
Proof.
  intros [H1' H2' H3' (c & Hc & Hr) _ H6' H7'] Hl Hn.
  constructor; [exact H1'|exact H2'|exact H3'|exists c; split; [by apply Hl|exact Hr]|exact Hn|exact H6'|exact H7'].
Qed.

Lemma fs_rep_lookup s m d des ls name : fs_rep s m d des ls -> dir_lookup (S d) s (sb_root (fs_sb s)) name = Some (find_entry des name).
Proof.
  intros Hs. destruct (fr_dir _ _ _ _ _ Hs) as (Hok & Hrt & _).
  by destruct (@directory_reads Fs _ (fs_laws s m) _ m _ d _ _ (fs_rep_io _ _ _ _ _ Hs) (conj Hok (ex_intro _ _ Hrt))) as (-> & _).
Qed.

End ok.
