(* ===== verification/NeoMkfs.v ===== *)
(** * NeoMkfs.v: formatting and mounting ([mkfs_ne2], [NeoDosFsV2::new])

    On every working device a formatted volume can be mounted: the superblock, the
    empty root directory and the free list that [mkfs_ne2] writes are what
    [NeoDosFsV2::new] reads, and the mounted volume satisfies the invariant of
    [NeoFsOk]. *)

From stdpp Require Import gmap.
From S2P Require Import Prelude Str BTreeMap Bytes BNode NeoTree NeoForest NeoInsert FreeList NeoDisk NeoDir NeoFile Snapshot Superblock NeoBTree NeoFs NeoFsOk.
Open Scope Z_scope.

#[local] Opaque crc32 superblock_crc.

Section mkfs.
Context {D C : Type} `{BlockDeviceLaws D} `{PageCacheOps C}.
Abbreviation Vol := (NeoVolume D C).

(** A volume on a device of [cap] sectors. *)
Definition on_device (v : Vol) (cap : Z) : Prop := dev_ok (vol_dev v) cap /\ 0 <= vol_base v /\ cap <= 2 ^ 64.

Lemma io_write_sector_spec (v : Vol) cap lba data :
  on_device v cap -> 0 <= lba -> vol_base v + lba < cap -> length data = SECTOR_SIZE ->
  exists v', io_write_sector v lba data = (true, v') /\ on_device v' cap /\ vol_base v' = vol_base v /\
    read_sector (vol_dev v') (vol_base v + lba) = Some data /\
    forall x, x ≠ vol_base v + lba -> read_sector (vol_dev v') x = read_sector (vol_dev v) x.
Proof.
  intros (Hd & Hb & Hc) Hl Hcap Hlen. unfold io_write_sector, translate_lba. rewrite wrap_small by lia.
  destruct (dev_write (vol_dev v) cap (vol_base v + lba) data Hd) as (d' & -> & Hd' & Hr & Ho); [lia|done|].
  eexists. split; [reflexivity|]. by split_and!.
Qed.

(** The sectors of two blocks written in turn. *)
Lemma mkfs_sectors_spec n (v : Vol) cap i root fl :
  on_device v cap -> 0 <= i -> i + Z.of_nat n <= 8 -> vol_base v + 24 <= cap ->
  length root = (n * SECTOR_SIZE)%nat -> length fl = (n * SECTOR_SIZE)%nat ->
  exists v', mkfs_sectors v i n root fl = (true, v') /\ on_device v' cap /\ vol_base v' = vol_base v /\
    read_sectors (vol_dev v') (vol_base v + 8 + i) n = Some root /\
    read_sectors (vol_dev v') (vol_base v + 16 + i) n = Some fl /\
    forall x, ~ (vol_base v + 8 + i <= x < vol_base v + 8 + i + Z.of_nat n) ->
      ~ (vol_base v + 16 + i <= x < vol_base v + 16 + i + Z.of_nat n) ->
      read_sector (vol_dev v') x = read_sector (vol_dev v) x.
Proof.
  revert v i root fl. induction n as [|n IH]; intros v i root fl Hv Hi Hn Hcap Hr Hf.
  { exists v. destruct root, fl; try done. }
  unfold SECTOR_SIZE in *. cbn [mkfs_sectors]. cbn [Nat.mul] in Hr, Hf. unfold SECTOR_SIZE.
  destruct (io_write_sector_spec v cap (8 + i) (take 512 root) Hv) as (v1 & -> & Hv1 & B1 & R1 & O1);
    [lia|lia|rewrite length_take; unfold SECTOR_SIZE; lia|].
  destruct (io_write_sector_spec v1 cap (16 + i) (take 512 fl) Hv1) as (v2 & -> & Hv2 & B2 & R2 & O2);
    [lia|lia|rewrite length_take; unfold SECTOR_SIZE; lia|].
  destruct (IH v2 (i + 1) (drop 512 root) (drop 512 fl) Hv2) as (v' & -> & Hv' & B' & R3 & R4 & O'); [lia|lia|lia|rewrite length_drop; lia..|].
  rewrite B2, B1 in B', R3, R4, O'. rewrite B1 in R2, O2. exists v'. split_and!; try done.
  - cbn [read_sectors]. rewrite O', O2 by lia. replace (vol_base v + 8 + i) with (vol_base v + (8 + i)) by lia. rewrite R1.
    cbn [mbind option_bind]. replace (vol_base v + (8 + i) + 1) with (vol_base v + 8 + (i + 1)) by lia. rewrite R3.
    cbn [mbind option_bind]. by rewrite take_drop.
  - cbn [read_sectors]. rewrite O' by lia. replace (vol_base v + 16 + i) with (vol_base v + (16 + i)) by lia. rewrite R2.
    cbn [mbind option_bind]. replace (vol_base v + (16 + i) + 1) with (vol_base v + 16 + (i + 1)) by lia. rewrite R4.
    cbn [mbind option_bind]. by rewrite take_drop.
  - intros x Hx1 Hx2. rewrite O', O2, O1 by lia. done.
Qed.

Lemma mkfs_superblock_ok num_blocks now label : 4 <= num_blocks <= 2 ^ 32 -> 0 <= now < 2 ^ 64 ->
  sb_ok (mkfs_superblock num_blocks now label).
Proof.
  intros Hn Hnow. apply sb_seal_ok. constructor; cbn [sb_magic sb_version sb_root sb_root_version sb_time sb_blocks sb_used
    sb_free sb_label_len sb_label sb_flags sb_freelist sb_snapshots sb_reserved]; try done; try lia.
  - unfold LABEL_MAX. lia.
  - apply length_field. rewrite length_take. lia.
Qed.

Definition empty_root : BTreeNode := mkNode Leaf [].

Lemma empty_root_storable : storable empty_root.
Proof. constructor; [cbn; unfold HEADER_SIZE; pose proof NODE_SIZE_Z; lia|constructor]. Qed.

Lemma initial_list_words num_blocks : 4 <= num_blocks <= 2 ^ 32 -> Forall region_words (regions (with_range 3 (num_blocks - 3))).
Proof. intros Hn. repeat constructor; cbn [start_lba region_len]; rewrite ?wrap_small by lia; lia. Qed.

(** What is on the device after formatting. *)
Lemma mkfs_disk (v : Vol) cap num_blocks now label :
  on_device v cap -> 4 <= num_blocks <= 2 ^ 32 -> vol_base v + num_blocks * 8 <= cap -> 0 <= now < 2 ^ 64 ->
  exists v', mkfs_ne2 v num_blocks now label = (true, v') /\ on_device v' cap /\ vol_base v' = vol_base v /\
    read_sector (vol_dev v') (vol_base v) = Some (sb_bytes (mkfs_superblock num_blocks now label)) /\
    read_sectors (vol_dev v') (vol_base v + 8) 8 = Some (serialize empty_root) /\
    read_sectors (vol_dev v') (vol_base v + 16) 8 = Some (fl_serialize (with_range 3 (num_blocks - 3)) 0) /\
    forall x, ~ (vol_base v + 8 <= x < vol_base v + 24) -> x ≠ vol_base v -> read_sector (vol_dev v') x = read_sector (vol_dev v) x.
Proof.
  intros Hv Hn Hcap Hnow. unfold mkfs_ne2. destruct (Z.ltb_spec num_blocks 4); [lia|]. fold empty_root.
  pose proof (node_sectors _ empty_root_storable) as L1.
  destruct (fl_roundtrip (with_range 3 (num_blocks - 3)) 0 (initial_list_words _ Hn)) as [L2 _]; [lia|].
  destruct (mkfs_sectors_spec 8 v cap 0 (serialize empty_root) (fl_serialize (with_range 3 (num_blocks - 3)) 0))
    as (v1 & -> & Hv1 & B1 & R1 & R2 & O1); [done|lia..|done| |].
  { rewrite L2. unfold SECTOR_SIZE. pose proof NODE_SIZE_Z. lia. }
  destruct (io_write_sector_spec v1 cap 0 (sb_bytes (mkfs_superblock num_blocks now label)) Hv1)
    as (v2 & -> & (Hd2 & Hb2 & Hc2) & B2 & R3 & O2); [lia|lia|by apply length_sb_bytes, mkfs_superblock_ok|].
  rewrite B1, ?Z.add_0_r in *. eexists. split; [reflexivity|]. cbn [invalidate_cache vol_with vol_base vol_dev].
  split; [exact (conj Hd2 (conj Hb2 Hc2))|]. split; [exact B2|]. split; [exact R3|].
  split; [rewrite <-R1; apply read_sectors_ext; intros; apply O2; lia|].
  split; [rewrite <-R2; apply read_sectors_ext; intros; apply O2; lia|]. intros x Hx Hx0. rewrite O2, O1 by lia. done.
Qed.

(** The state [NeoDosFsV2::new] gives on such a device. *)
Definition fresh_fs (base num_blocks now : Z) (label : str) (d : D) (c : C) : NeoFs D C :=
  mkFs (mkVolume (mkFree [mkRegion 3 (num_blocks - 3)] false) num_blocks base d c) (mkfs_superblock num_blocks now label)
    [Some (mkCached 1 (new_dir (bytes_of "\")) None)] 1 snap_new [2] [] false.

Lemma mount_formatted base num_blocks now label (d : D) (c : C) tf fuel :
  4 <= num_blocks <= 2 ^ 32 -> 0 <= now < 2 ^ 64 -> 0 <= base -> base + num_blocks * 8 <= 2 ^ 64 ->
  read_sector d base = Some (sb_bytes (mkfs_superblock num_blocks now label)) ->
  read_sectors d (base + 16) 8 = Some (fl_serialize (with_range 3 (num_blocks - 3)) 0) ->
  fs_new tf (S fuel) base d c = Some (Some (fresh_fs base num_blocks now label d c)).
Proof.
  intros Hn Hnow Hb Hcap Hsb Hfl. unfold fs_new. rewrite Z.add_0_r, wrap_small, Hsb by lia.
  unfold mbind at 1, option_bind at 1. rewrite sb_roundtrip by (by apply mkfs_superblock_ok).
  destruct (fl_roundtrip (with_range 3 (num_blocks - 3)) 0 (initial_list_words _ Hn)) as [_ Hd]; [lia|].
  unfold load_snapshots, load_freelist. change (sb_freelist (mkfs_superblock num_blocks now label)) with 2.
  change (sb_snapshots (mkfs_superblock num_blocks now label)) with 0. change (sb_blocks (mkfs_superblock num_blocks now label)) with num_blocks.
  change (sb_root (mkfs_superblock num_blocks now label)) with 1.
  cbn [Z.eqb Z.ltb Z.compare load_chain fs_vol length]. unfold read_block_raw, translate_lba. cbn [vol_dev vol_base].
  rewrite (wrap_small 64 (2 * 8)), (wrap_small 64 (base + 2 * 8)) by lia. change (2 * 8) with 16. rewrite Hfl.
  cbn [mbind option_bind]. rewrite Hd. change (MAX_FREELIST_NODES <=? Z.of_nat 0) with false.
  change (bool_decide (2 ∈ @nil Z)) with false. cbn [orb].
  assert (load_chain fuel (mkVolume fl_new num_blocks base d c) 0 ([] ++ take REGIONS_PER_NODE (regions (with_range 3 (num_blocks - 3)))) ([] ++ [2]) =
    Some (Some ([mkRegion 3 (num_blocks - 3)], [2]))) as E.
  { unfold REGIONS_PER_NODE. cbn [with_range regions take app]. rewrite wrap_small by lia. by destruct fuel. }
  cbn [regions]. rewrite E. cbn [mbind option_bind fs_sb]. change (sb_blocks (mkfs_superblock num_blocks now label)) with num_blocks.
  rewrite chain_valid; [done|lia|]. cbn. lia.
Qed.

Lemma fresh_label base num_blocks now label (d : D) (c : C) :
  volume_label (fresh_fs base num_blocks now label d c) = Some (from_utf8_or (take LABEL_MAX label) []).
Proof.
  unfold volume_label. change (sb_label_len _) with (Z.of_nat (Nat.min (length label) LABEL_MAX)).
  change (sb_label _) with (field LABEL_MAX (take (Nat.min (length label) LABEL_MAX) label)). rewrite Nat2Z.id.
  destruct (Nat.ltb_spec LABEL_MAX (Nat.min (length label) LABEL_MAX)); [lia|]. do 2 f_equal.
  assert (take (Nat.min (length label) LABEL_MAX) label = take LABEL_MAX label) as ->.
  { destruct (decide (length label <= LABEL_MAX)%nat); [rewrite Nat.min_l by lia; by rewrite !take_ge by lia|by rewrite Nat.min_r by lia]. }
  pose proof (take_field LABEL_MAX (take LABEL_MAX label)) as E. by rewrite length_take, Nat.min_comm in E.
Qed.

Lemma fresh_fs_rep base num_blocks now label (d : D) (c : C) cap :
  4 <= num_blocks <= 2 ^ 32 -> 0 <= now < 2 ^ 64 -> dev_ok d cap -> 0 <= base -> base + num_blocks * 8 <= cap -> cap <= 2 ^ 64 ->
  read_sectors d (base + 8) 8 = Some (serialize empty_root) ->
  fs_rep (fresh_fs base num_blocks now label d c) {[1 := empty_root]} 0 [] [1].
Proof.
  intros Hn Hnow Hd Hb Hcap Hc64 Hroot. constructor; cbn [fresh_fs fs_sb fs_inodes fs_next_inode fs_snaps fs_snap_dirty fs_garbage fs_chain fs_vol].
  - constructor; cbn [vol_free vol_blocks vol_base vol_dev regions]; [cbn; lia|lia|by exists cap|cbn; lia|].
    intros l n [<- <-]%lookup_singleton_Some. split; [apply empty_root_storable|]. split; [lia|]. split; [|by rewrite Z.mul_1_l].
    rewrite covers_cons. unfold in_region, covers. rewrite Exists_nil. cbn. lia.
  - split; [by apply mkfs_superblock_ok|done].
  - split; [constructor|]. split; [|apply NoDup_singleton]. right. change (sb_root _) with 1.
    apply tree_leaf; [lia|apply lookup_singleton_eq|constructor|constructor|constructor|done].
  - eexists. split; [reflexivity|done].
  - lia.
  - done.
  - split; [apply NoDup_singleton|]. split; [|done]. constructor; [|constructor]. cbn [vol_blocks]. split; [lia|]. split.
    + unfold fs_free. cbn [fresh_fs fs_vol vol_free regions]. rewrite covers_cons. unfold in_region, covers. rewrite Exists_nil. cbn. lia.
    + by rewrite lookup_singleton_ne.
Qed.

(** A formatted volume mounts, on every working device.  [mkfs_ne2] refuses
    fewer than four blocks and writes nothing then; with four or more it succeeds,
    and [NeoDosFsV2::new] on the device then succeeds with an empty root directory,
    the free list of all blocks but the first three, and the first 32 bytes of the
    label.  No sector outside the three blocks is written. *)
Theorem mkfs_mount_correct (v : Vol) cap num_blocks now label :
  on_device v cap -> vol_base v + num_blocks * 8 <= cap -> num_blocks <= 2 ^ 32 -> 0 <= now < 2 ^ 64 ->
  if num_blocks <? 4 then mkfs_ne2 v num_blocks now label = (false, v)
  else exists v', mkfs_ne2 v num_blocks now label = (true, v') /\
    (forall x, ~ (vol_base v <= x < vol_base v + 24) -> read_sector (vol_dev v') x = read_sector (vol_dev v) x) /\
    forall tf fuel c, exists s m, fs_new tf (S fuel) (vol_base v) (vol_dev v') c = Some (Some s) /\
      fs_rep s m 0 [] [1] /\ regions (fs_free s) = [mkRegion 3 (num_blocks - 3)] /\
      (forall name, dir_lookup 1 s 1 name = Some None) /\
      volume_label s = Some (from_utf8_or (take LABEL_MAX label) []).
Proof.
  intros Hv Hcap Hn Hnow. destruct (Z.ltb_spec num_blocks 4) as [Hlt|Hge].
  { unfold mkfs_ne2. by destruct (Z.ltb_spec num_blocks 4); [|lia]. }
  assert (4 <= num_blocks <= 2 ^ 32) as Hn' by lia.
  destruct (mkfs_disk v cap num_blocks now label Hv Hn' Hcap Hnow) as (v' & Hrun & (Hd & Hb & Hc) & B & R1 & R2 & R3 & O).
  exists v'. split; [exact Hrun|]. split; [intros x Hx; apply O; lia|]. intros tf fuel c. rewrite B in Hb.
  pose proof (fresh_fs_rep (vol_base v) num_blocks now label (vol_dev v') c cap Hn' Hnow Hd Hb Hcap Hc R2) as Hs.
  exists (fresh_fs (vol_base v) num_blocks now label (vol_dev v') c), {[1 := empty_root]}.
  split; [apply mount_formatted; (done || lia)|]. split; [exact Hs|]. split; [reflexivity|]. split.
  - intros name. exact (fs_rep_lookup _ _ _ _ _ name Hs).
  - apply fresh_label.
Qed.
End mkfs.

(** ** A volume of 32 blocks behind sector 100 *)

Definition blank_volume : NeoVolume MemDisk () := mkVolume fl_new 32 100 ∅ tt.

Lemma blank_on_device : on_device blank_volume 1000.
Proof. split; [|cbn; lia]. intros l s Hl. cbn in Hl. by rewrite lookup_empty in Hl. Qed.

Definition test_label : str := bytes_of "TEST".

Lemma mkfs_mount_correct_witness : exists v' s m, mkfs_ne2 blank_volume 32 5 test_label = (true, v') /\
  fs_new 1 1 100 (vol_dev v') tt = Some (Some s) /\ fs_rep s m 0 [] [1] /\ regions (fs_free s) = [mkRegion 3 29] /\
  volume_label s = Some test_label.
Proof.
  destruct (mkfs_mount_correct blank_volume 1000 32 5 test_label blank_on_device ltac:(cbn; lia) ltac:(lia) ltac:(lia))
    as (v' & Hrun & _ & Hm).
  destruct (Hm 1%nat 0%nat tt) as (s & m & Hn & Hs & Hf & _ & Hl).
  exists v', s, m. split; [exact Hrun|]. split; [exact Hn|]. split; [exact Hs|]. split; [exact Hf|exact Hl].
Defined.

(** The volume formatted and mounted. *)
Lemma demo_mounted : exists s m, fs_rep (D:=MemDisk) (C:=()) s m 0 [] [1] /\ fs_next_inode s = 1 /\ free_count s = 29 /\
  sb_snapshots (fs_sb s) = 0 /\ sb_blocks (fs_sb s) = 32.
Proof.
  destruct (mkfs_disk blank_volume 1000 32 5 test_label blank_on_device) as (v' & _ & (Hd & Hb & Hc) & B & _ & R & _); [lia|cbn; lia|lia|].
  eexists (fresh_fs 100 32 5 test_label (vol_dev v') tt), _. split; [|done].
  eapply fresh_fs_rep; [lia|lia|exact Hd|lia| |exact Hc|exact R]. lia.
Qed.
