(* ===== verification/NeoCreate.v ===== *)
(** * NeoCreate.v: creating files ([NeoDosFsV2::create])

    Creating a file in the root directory inserts its entry, frees the replaced
    nodes and leaves everything else on the volume as it was. *)

From stdpp Require Import gmap.
From S2P Require Import Prelude Str BTreeMap Bytes BNode NeoTree NeoForest NeoInsert FreeList NeoDisk NeoDir NeoFile Snapshot Superblock NeoBTree NeoFs NeoFsOk NeoMkfs.
Open Scope Z_scope.

#[local] Opaque save_sb.

Section create.
Context {D C : Type} `{BlockDeviceLaws D} `{PageCacheOps C}.
Abbreviation Fs := (NeoFs D C).

(** What inserting an entry into the root directory's tree does. *)
Record inserted (s : Fs) (m : gmap Z BTreeNode) (ls : list Z) (v1 : NeoVolume D C) (m1 : gmap Z BTreeNode)
    (fresh gn ls' : list Z) : Prop := {
  in_rep : fs_io_rep s m (set_vol v1 s) m1 (Z.to_nat (free_count s) - length fresh);
  in_sub : m ⊆ m1;
  in_perm : ls' ++ gn ≡ₚ fresh ++ ls;
  in_nodup : NoDup (ls' ++ gn);
  in_fresh : Forall (λ b, covers (regions (fs_free s)) b) fresh;
  in_nodes : Forall (λ b, is_Some (m1 !! b)) (ls' ++ gn);
  in_old a : a ∈ gn -> is_Some (m !! a) -> a ∈ ls;
  in_room : Z.of_nat (length fresh) <= free_count s;
}.

Lemma fs_insert_ok s m d des ls e :
  fs_rep s m d des ls -> de_ok e -> Z.of_nat (2 * d + 3) <= free_count s ->
  exists root' v1 m1 d' fresh gn ls',
    insert_tracked (S d) (sb_root (fs_sb s)) (de_name e) (de_serialize e) (s, []) = Some (Some root', (set_vol v1 s, gn)) /\
    tree true m1 d' None None root' (map to_btree_entry (insert_entry des e)) ls' /\ inserted s m ls v1 m1 fresh gn ls' /\
    (d' <= S d /\ length fresh <= 2 * d + 3)%nat.
Proof.
  intros Hs He Hroom. destruct (fr_dir _ _ _ _ _ Hs) as (Hok & Ht & Hnd). pose proof (fs_rep_io _ _ _ _ _ Hs) as Hio.
  destruct (@insert_tracked_runs Fs _ (fs_laws s m) (s, []) m (Z.to_nat (free_count s)) d _ _ ls (de_name e) (de_serialize e)
    Hio Ht (de_entry_ok e He)) as (root' & [s1 g1] & Hrun & m1 & fresh & gn & d' & ls' & Hst & Hlen & Hd & Ht' & Hperm); [lia|].
  destruct (@garbage_exact Fs _ (fs_laws s m) (s, []) _ _ _ _ _ _ _ _ _ _ _ _ Hio Hst Ht Hnd Hperm) as (Hn1 & Hold & _ & _).
  destruct Hst as [Hr1 Hsub Hg _ Hfr]. cbn [fst snd io_rep fs_laws app] in *. subst g1. rewrite insert_entry_map in Ht'.
  assert (Forall (λ b, is_Some (m1 !! b)) (ls' ++ gn)) as Hnodes.
  { rewrite Hperm. apply Forall_app. split; [eapply Forall_impl; [exact Hfr|]; by intros a [_ ?]|].
    destruct Ht as [(_ & _ & ->)|Ht]; [constructor|]. eapply Forall_impl; [exact (tree_nodes _ _ _ _ _ _ _ _ Ht)|].
    intros a [[n Hn] _]. exists n. by eapply lookup_weaken. }
  exists root', (fs_vol s1), m1, d', fresh, gn, ls'. rewrite <-(fi_rest _ _ _ _ _ Hr1). split; [done|]. split; [done|]. split; [|done].
  constructor; try done; [by rewrite <-(fi_rest _ _ _ _ _ Hr1)| |lia].
  eapply Forall_impl; [exact Hfr|]. intros b [Hb1 Hb2]. destruct (fi_new _ _ _ _ _ Hr1 b Hb2) as [[n Hn]|]; [congruence|done].
Qed.

(** The blocks that are freed then. *)
Lemma inserted_garbage s m d des ls v1 m1 fresh gn ls' :
  fs_rep s m d des ls -> inserted s m ls v1 m1 fresh gn ls' ->
  let l := own gn ++ fs_chain s in
  NoDup l /\ Forall (λ b, 2 <= b < vol_blocks v1 /\ ~ covers (regions (vol_free v1)) b) l /\
  (forall a, a ∈ ls' -> a ∉ l) /\
  free_count s - Z.of_nat (length fresh) + Z.of_nat (length l) + Z.of_nat (length (own ls')) =
    free_count s + Z.of_nat (length (own ls)) + Z.of_nat (length (fs_chain s)).
Proof.
  intros Hs [Hr Hsub Hperm Hnd Hfr Hnodes Hold Hroom] l. destruct (fr_chain _ _ _ _ _ Hs) as (Cn & Cf & _).
  rewrite Forall_forall in Cf, Hfr, Hnodes. apply NoDup_app in Hnd as (_ & Hdis & Ng).
  destruct Hr as [Hv Hf _ Hnew _]. cbn [fs_vol set_vol] in *.
  assert (forall b, b ∈ fs_chain s -> m1 !! b = None) as Hcm.
  { intros b Hb. destruct (Cf b Hb) as (_ & Hnc & Hm0). destruct (m1 !! b) as [n|] eqn:E; [|done].
    destruct (Hnew b (ex_intro _ n E)) as [[? ?]|?]; [congruence|done]. }
  assert (forall b, b ∈ fs_chain s -> ~ is_Some (m1 !! b)) as Hcm' by (intros b Hb [? ?]; rewrite Hcm in *; done).
  unfold l, own. split_and!.
  - apply NoDup_app. split_and!; [by apply NoDup_filter| |done]. intros b [_ Hb]%list_elem_of_filter Hc.
    apply (Hcm' b Hc), Hnodes, elem_of_app. by right.
  - apply Forall_app. split; apply Forall_forall; intros b Hb.
    + apply list_elem_of_filter in Hb as [H2' Hb]. destruct (Hnodes b) as [n Hn]; [apply elem_of_app; by right|].
      destruct (vr_nodes _ _ _ Hv b n Hn) as (_ & ? & ? & _). split; [lia|done].
    + destruct (Cf b Hb) as (? & Hnc & _). rewrite (vf_blocks _ _ Hf). split; [done|]. by intros ?%(vf_free _ _ Hf).
  - intros a Ha [[_ Hg]%list_elem_of_filter|Hc]%elem_of_app; [by apply (Hdis a)|].
    apply (Hcm' a Hc), Hnodes, elem_of_app. by left.
  - assert (length (own fresh) = length fresh) as Ef.
    { apply own_all. apply Forall_forall. intros b Hb. pose proof (fr_vol _ _ _ _ _ Hs) as Hv0.
      pose proof (chain_covers _ _ _ b (vr_free _ _ _ Hv0) (Hfr b Hb)). lia. }
    assert (length (own (ls' ++ gn)) = length (own (fresh ++ ls))) as El by (unfold own; by rewrite Hperm).
    unfold own in *. rewrite !filter_app, !length_app in El. rewrite length_app. lia.
Qed.

(** ** Creating a file *)

Definition name_ok (name : str) : Prop := bytes_ok name /\ (length name <= NAME_MAX)%nat.

Lemma new_file_ok name : name_ok name -> de_ok (new_file name).
Proof.
  intros Hn. constructor; cbn; try done; try lia. exists []. split; [constructor|done].
Qed.

(** [cache] of a file: a new number, the other inodes unchanged. *)
Lemma cache_file parent e root (s : Fs) : de_is_dir e = false -> 1 <= fs_next_inode s ->
  exists l, cache parent e root s = (fs_next_inode s, set_inodes l (u32 (fs_next_inode s + 1)) s) /\
    forall c, fs_inodes s !! 0%nat = Some c -> l !! 0%nat = Some c.
Proof.
  intros Hd Hn. unfold cache. rewrite Hd. cbn [andb]. eexists. split; [reflexivity|]. intros c Hc.
  rewrite list_lookup_insert_ne by lia. by apply lookup_app_l_Some.
Qed.

(** The state in which [create] saves the superblock. *)
Definition rerooted (v : NeoVolume D C) (g : list Z) (root : Z) (c : CachedInode) (s : Fs) : Fs :=
  set_inode 0 (mkCached root (ci_entry c) (ci_parent c)) (on_sb (sb_with_root root) (queue_nodes g (set_vol v s))).

Lemma create_runs (s s' : Fs) tf pf name now c root v g :
  fs_inodes s !! 0%nat = Some (Some c) -> 1 <= fs_next_inode s ->
  insert_tracked tf (ci_root c) name (de_serialize (new_file name)) (s, []) = Some (Some root, (set_vol v s, g)) ->
  s' = save_sb now (rerooted v g root c s) -> fs_next_inode s' = fs_next_inode s ->
  exists l, fs_create tf (S pf) 0 name now s =
      Some (Ok (mkVfsNode (fs_next_inode s) (Z.lor MODE_FILE all_perms) 0), set_inodes l (u32 (fs_next_inode s + 1)) s') /\
    forall c', fs_inodes s' !! 0%nat = Some c' -> l !! 0%nat = Some c'.
Proof.
  intros Hc Hn Hins -> Hnext.
  destruct (cache_file 0 (new_file name) root (save_sb now (rerooted v g root c s))) as (l & Hl & Hkeep); [done|lia|].
  exists l. split; [|done]. rewrite Hnext in Hl. unfold fs_create, inode, gets, some_or, tree_update, propagate, modify, cacheF.
  unfold mbind, F_bind, mret, F_ret. unfold get_inode at 1. change (Z.to_nat 0) with 0%nat. rewrite Hc. cbn [mbind option_bind].
  unfold mbind, option_bind. rewrite Hins. cbn [propagate_dir_root Z.eqb].
  unfold get_inode at 1. cbn [on_sb queue_nodes queue set_garbage set_vol fs_inodes]. change (Z.to_nat 0) with 0%nat. rewrite Hc.
  lazymatch goal with |- context [cache _ _ _ (save_sb now ?x)] => change x with (rerooted v g root c s) end. by rewrite Hl.
Qed.

(** Nothing but the blocks [mine] is released, and no sector of a block in use is
    written, the superblock apart. *)
Definition leaves_rest (s s' : Fs) (mine : list Z) : Prop :=
  (forall b, ~ covers (regions (fs_free s)) b -> b ∉ mine -> ~ covers (regions (fs_free s')) b) /\
  forall x, x ≠ vol_base (fs_vol s) ->
    (forall b, covers (regions (fs_free s)) b -> ~ (vol_base (fs_vol s) + b * 8 <= x < vol_base (fs_vol s) + b * 8 + 8)) ->
    read_sector (vol_dev (fs_vol s')) x = read_sector (vol_dev (fs_vol s)) x.

Lemma inserted_leaves s m d des ls v1 m1 fresh gn ls' c root s' :
  fs_rep s m d des ls -> inserted s m ls v1 m1 fresh gn ls' ->
  saved (rerooted v1 gn root c s) s' (own gn ++ fs_chain s) -> leaves_rest s s' (ls ++ fs_chain s) /\
  free_count s' + Z.of_nat (length (own ls')) = free_count s + Z.of_nat (length (own ls)) + Z.of_nat (length (fs_chain s)) /\
  free_count s - Z.of_nat (length fresh) <= free_count s'.
Proof.
  intros Hs Hi Hsv. destruct (inserted_garbage _ _ _ _ _ _ _ _ _ _ Hs Hi) as (Hnd & Hl & _ & Hcount).
  destruct Hi as [[Hv Hf _ Hnew Hc] _ _ _ _ Hnodes Hold Hroom]. cbn [fs_vol set_vol] in *. rewrite Forall_forall in Hnodes.
  destruct (free_blocks_spec _ _ _ (vr_free _ _ _ Hv) (proj2 (vr_size _ _ _ Hv)) Hnd Hl) as (_ & T & V).
  pose proof (sv_regions _ _ _ Hsv) as Hreg. unfold fs_free in Hreg at 2. cbn [fs_vol rerooted set_inode set_inodes on_sb queue_nodes queue set_garbage set_vol] in Hreg.
  split; [split|].
  - intros b Hb Hm. rewrite Hreg, V. intros [Hb1|[[_ Hg]%list_elem_of_filter|Hch]%elem_of_app].
    + by apply Hb, (vf_free _ _ Hf).
    + destruct (Hnew b) as [Hm0|?]; [apply Hnodes, elem_of_app; by right| |done]. apply Hm, elem_of_app. left. by apply Hold.
    + apply Hm, elem_of_app. by right.
  - intros x Hx Hb. rewrite (sv_other _ _ _ Hsv); cbn; [by apply (vf_data _ _ Hf)|by rewrite (vf_base _ _ Hf)].
  - unfold free_count, fs_free in *. cbn [fs_vol set_vol] in Hc. rewrite Hreg, T. lia.
Qed.

(** Saving after the insertion gives the invariant for the new directory. *)
Lemma create_saved s m d des ls e now root v1 m1 d' fresh gn ls' c :
  fs_rep s m d des ls -> de_ok e -> 0 <= now < 2 ^ 64 -> fs_inodes s !! 0%nat = Some (Some c) ->
  tree true m1 d' None None root (map to_btree_entry (insert_entry des e)) ls' -> inserted s m ls v1 m1 fresh gn ls' ->
  let s' := save_sb now (rerooted v1 gn root c s) in
  saved (rerooted v1 gn root c s) s' (own gn ++ fs_chain s) /\ exists m', fs_rep s' m' d' (insert_entry des e) ls'.
Proof.
  intros Hs He Hnow Hc Ht Hi s'. destruct (inserted_garbage _ _ _ _ _ _ _ _ _ _ Hs Hi) as (Hnd & Hl & Hkeep & _).
  pose proof (tree_addr _ _ _ _ _ _ _ _ Ht) as Haddr. destruct Hi as [[Hv Hf _ _ _] _ _ Hnd' _ _ _ _]. cbn [fs_vol set_vol] in *.
  destruct Hs as [_ [Hsb Hblk] (Hok & _ & _) _ Hnext (Hsn & Hsd & Hg) (_ & _ & Hch)].
  set (l := own gn ++ fs_chain s) in *. set (m2 := filter (λ x : Z * BTreeNode, x.1 ∉ l) m1).
  destruct (save_sb_spec (rerooted v1 gn root c s) now m1 _ gn m2 Hv) as [Hv' Hsv]; cbn; try done.
  { destruct Hsb. constructor; cbn; try done. lia. } { by rewrite Hg. }
  { apply map_filter_subseteq. }
  { intros b Hb. apply map_lookup_filter_None. right. intros n _ Hn. by apply Hn. }
  fold s' in Hv', Hsv. clearbody s'. split; [done|]. exists m2. destruct Hsv as [Hreg [Hb Hbl] (Hr & Hbk & Hfl & _) Hsb' [Hin Hnx] (Hs1 & Hs2 & Hs3 & Hs4) _ _].
  cbn in Hr, Hbk, Hin, Hnx, Hs1, Hbl. constructor.
  - eapply vol_rep_exact. exact Hv'.
  - split; [done|]. rewrite Hbk, Hbl, Hblk. symmetry. apply Hf.
  - split; [by apply insert_entry_ok|]. split; [|by apply NoDup_app in Hnd' as (? & _)]. right. rewrite Hr.
    eapply tree_restrict; [exact Ht|]. intros a Ha. unfold m2. destruct (m1 !! a) as [n|] eqn:E.
    + apply map_lookup_filter_Some. split; [done|]. by apply Hkeep.
    + apply map_lookup_filter_None. by left.
  - rewrite Hin, Hr. eexists. split; [apply list_lookup_insert_eq; by eapply lookup_lt_Some|done].
  - by rewrite Hnx.
  - rewrite Hs1. by split_and!.
  - rewrite Hs4. split_and!; [constructor|constructor|done].
Qed.

(** What creating [name] makes of the volume. *)
Record after_create (s s' : Fs) (d : nat) (des : list DirEntryV2) (ls : list Z) (name : str)
    (m' : gmap Z BTreeNode) (d' : nat) (ls' : list Z) : Prop := {
  ac_rep : fs_rep s' m' d' (insert_entry des (new_file name)) ls';
  ac_disk : disk_superblock s' = Some (fs_sb s');
  ac_sb : sb_root (fs_sb s') ≠ 0 /\ sb_freelist (fs_sb s') = 0 /\ sb_snapshots (fs_sb s') = sb_snapshots (fs_sb s) /\
    sb_blocks (fs_sb s') = sb_blocks (fs_sb s) /\ vol_base (fs_vol s') = vol_base (fs_vol s);
  ac_rest : leaves_rest s s' (ls ++ fs_chain s);
  ac_count : free_count s' + Z.of_nat (length (own ls')) = free_count s + Z.of_nat (length (own ls)) + Z.of_nat (length (fs_chain s));
  ac_room : free_count s - Z.of_nat (2 * d + 3) <= free_count s' /\ (d' <= S d)%nat;
}.

(** The run, with the state before the new inode is cached. *)
Lemma create_steps s m d des ls name now pf :
  fs_rep s m d des ls -> name_ok name -> 0 <= now < 2 ^ 64 -> Z.of_nat (2 * d + 3) <= free_count s ->
  exists s1 l m' d' ls',
    fs_create (S d) (S pf) 0 name now s =
      Some (Ok (mkVfsNode (fs_next_inode s) (Z.lor MODE_FILE all_perms) 0), set_inodes l (u32 (fs_next_inode s + 1)) s1) /\
    (forall c, fs_inodes s1 !! 0%nat = Some c -> l !! 0%nat = Some c) /\ after_create s s1 d des ls name m' d' ls'.
Proof.
  intros Hs Hname Hnow Hroom. pose proof (new_file_ok name Hname) as He.
  destruct (fs_insert_ok s m d des ls (new_file name) Hs He Hroom) as (root & v1 & m1 & d' & fresh & gn & ls' & Hins & Ht & Hi & Hd & Hfresh).
  destruct (fr_root _ _ _ _ _ Hs) as (c & Hc & Hcr). rewrite <-Hcr in Hins. change (de_name (new_file name)) with name in Hins.
  destruct (create_saved _ _ _ _ _ _ now _ _ _ _ _ _ _ c Hs He Hnow Hc Ht Hi) as [Hsv [m' Hs']].
  pose proof (disk_saved _ _ _ Hsv) as Hdisk.
  destruct (inserted_leaves _ _ _ _ _ _ _ _ _ _ _ _ _ Hs Hi Hsv) as (Hrest & Hcount & Hfree).
  destruct (sv_inodes _ _ _ Hsv) as [_ Hnx]. destruct (sv_root _ _ _ Hsv) as (R1 & R2 & R3 & R4). destruct (sv_place _ _ _ Hsv) as [P1 _].
  destruct (create_runs s _ (S d) pf name now c root v1 gn Hc (proj1 (fr_next _ _ _ _ _ Hs)) Hins eq_refl Hnx) as (l & Hrun & Hkeep).
  pose proof (tree_addr _ _ _ _ _ _ _ _ Ht) as Haddr. pose proof (vf_base _ _ (fi_frame _ _ _ _ _ (in_rep _ _ _ _ _ _ _ _ Hi))) as P2.
  exists (save_sb now (rerooted v1 gn root c s)), l, m', d', ls'. refine (conj Hrun (conj Hkeep _)).
  refine (Build_after_create s _ d des ls name m' d' ls' Hs' Hdisk (conj _ (conj R3 (conj R4 (conj R2 (eq_trans P1 P2))))) Hrest Hcount (conj _ Hd)).
  - rewrite R1. cbn. lia.
  - lia.
Qed.

Lemma create_full s m d des ls name now pf :
  fs_rep s m d des ls -> name_ok name -> 0 <= now < 2 ^ 64 -> fs_next_inode s + 1 < 2 ^ 32 -> Z.of_nat (2 * d + 3) <= free_count s ->
  exists s' m' d' ls',
    fs_create (S d) (S pf) 0 name now s = Some (Ok (mkVfsNode (fs_next_inode s) (Z.lor MODE_FILE all_perms) 0), s') /\
    after_create s s' d des ls name m' d' ls' /\ fs_next_inode s' = fs_next_inode s + 1.
Proof.
  intros Hs Hname Hnow Hnext Hroom.
  destruct (create_steps s m d des ls name now pf Hs Hname Hnow Hroom) as (s1 & l & m' & d' & ls' & Hrun & Hkeep & [Hs' Hdk Hsb Hre Hco Hro]).
  pose proof (fr_next _ _ _ _ _ Hs) as Hn1. rewrite (wrap_small 32) in Hrun by lia.
  pose proof (fs_rep_inodes s1 m' d' _ ls' l (fs_next_inode s + 1) Hs' Hkeep ltac:(lia)) as Hs2.
  exists (set_inodes l (fs_next_inode s + 1) s1), m', d', ls'. split; [exact Hrun|]. split; [|done].
  constructor; [exact Hs2|exact Hdk|exact Hsb|exact Hre|exact Hco|exact Hro].
Qed.

(** C2. Creating a file in the root directory, on a mounted volume without
    snapshots and with room for the nodes of an insertion (three and two for each
    level of the tree), under a name of at most 48 bytes and with an inode number
    below 2^32 left, succeeds.  (A longer name is cut in its entry by the code, and
    the number wraps around after 2^32 inodes; neither is covered.)  The volume
    is again well formed; its root directory is the old one with an empty file
    under the name; the superblock with the new root is on the device, so that a
    mount finds it.  No block is lost: the blocks that are free or hold the root
    directory are as many as before and those of the free-list chain.  No other
    block in use is released, and none of their sectors is written. *)
Theorem create_in_root_correct s m d des ls name now pf :
  fs_rep s m d des ls -> name_ok name -> 0 <= now < 2 ^ 64 -> fs_next_inode s + 1 < 2 ^ 32 ->
  Z.of_nat (2 * d + 3) <= free_count s ->
  exists s' m' d' ls',
    fs_create (S d) (S pf) 0 name now s = Some (Ok (mkVfsNode (fs_next_inode s) (Z.lor MODE_FILE all_perms) 0), s') /\
    fs_rep s' m' d' (insert_entry des (new_file name)) ls' /\
    (forall n, dir_lookup (S d') s' (sb_root (fs_sb s')) n =
       Some (if decide (n = name) then Some (new_file name) else find_entry des n)) /\
    disk_superblock s' = Some (fs_sb s') /\
    free_count s' + Z.of_nat (length (own ls')) = free_count s + Z.of_nat (length (own ls)) + Z.of_nat (length (fs_chain s)) /\
    leaves_rest s s' (ls ++ fs_chain s).
Proof.
  intros Hs Hname Hnow Hnext Hroom.
  destruct (create_full s m d des ls name now pf Hs Hname Hnow Hnext Hroom) as (s' & m' & d' & ls' & Hrun & [Hs' Hdisk _ Hrest Hcount _] & _).
  exists s', m', d', ls'. split; [exact Hrun|]. split; [exact Hs'|]. split; [|split; [exact Hdisk|split; [exact Hcount|exact Hrest]]].
  intros n. by rewrite (fs_rep_lookup _ _ _ _ _ n Hs'), find_insert_entry.
Qed.
End create.

Lemma demo_name : name_ok [65; 46; 84].
Proof. split; [repeat constructor; lia|unfold NAME_MAX; cbn; lia]. Qed.

Lemma create_in_root_correct_witness : exists (s s' : NeoFs MemDisk ()) d',
  fs_create 1 1 0 [65; 46; 84] 7 s = Some (Ok (mkVfsNode 1 0x97 0), s') /\
  dir_lookup (S d') s' (sb_root (fs_sb s')) [65; 46; 84] = Some (Some (new_file [65; 46; 84])) /\
  disk_superblock s' = Some (fs_sb s').
Proof.
  destruct demo_mounted as (s & m & Hs & Hn & Hf & _).
  destruct (create_in_root_correct s m 0 [] [1] [65; 46; 84] 7 0 Hs demo_name)
    as (s' & m' & d' & ls' & Hrun & _ & Hl & Hd & _); [lia|rewrite Hn; lia|rewrite Hf; lia|].
  exists s, s', d'. rewrite Hn in Hrun. split; [exact Hrun|]. split; [rewrite Hl; reflexivity|exact Hd].
Defined.
