(* ===== verification/NeoRemount.v ===== *)
(** * NeoRemount.v: mounting a volume again ([recover_freelist])

    The free list is not kept on the device: a mount rebuilds it from the blocks
    of the directory tree and of the files.  For a volume whose root directory
    holds only files the mounted volume has the same directory, and the blocks that
    are free are exactly those that nothing uses. *)

From stdpp Require Import gmap sorting.
From S2P Require Import Prelude Str BTreeMap Bytes BNode NeoTree NeoForest NeoInsert FreeList NeoDisk NeoDir NeoFile Snapshot Superblock NeoBTree NeoFs NeoFsOk NeoMkfs NeoCreate.
Open Scope Z_scope.

(** ** Sorting the blocks in use *)

Lemma dedup_cons x y t : dedup (x :: y :: t) = if x =? y then dedup (y :: t) else x :: dedup (y :: t).
Proof. done. Qed.

Lemma elem_of_dedup b l : b ∈ dedup l <-> b ∈ l.
Proof.
  induction l as [|x l IH]; [done|]. destruct l as [|y t]; [done|]. rewrite dedup_cons. destruct (Z.eqb_spec x y) as [<-|Hne].
  - rewrite IH, !elem_of_cons. tauto.
  - by rewrite elem_of_cons, IH, (elem_of_cons (y :: t)).
Qed.

Lemma dedup_ascending l : StronglySorted Z.le l -> ascending (dedup l).
Proof.
  induction 1 as [|x l Hs IH Hx]; [constructor|]. destruct l as [|y t]; [repeat constructor|]. rewrite dedup_cons.
  destruct (Z.eqb_spec x y) as [|Hne]; [done|]. constructor; [done|].
  apply Forall_forall. intros b Hb. rewrite elem_of_dedup in Hb. apply Forall_cons in Hx as [Hxy Hxt].
  inversion Hs as [|? ? _ Hy]; subst. rewrite Forall_forall in Hy. apply elem_of_cons in Hb as [->|Hb]; [lia|]. specialize (Hy b Hb). lia.
Qed.

Lemma sorted_used l : ascending (dedup (merge_sort Z.le l)) /\ forall b, b ∈ dedup (merge_sort Z.le l) <-> b ∈ l.
Proof.
  split.
  - apply dedup_ascending. apply (StronglySorted_merge_sort Z.le).
  - intros b. rewrite elem_of_dedup. by rewrite (merge_sort_Permutation Z.le l).
Qed.

Section remount.
Context {D C : Type} `{BlockDeviceLaws D} `{PageCacheOps C}.
Abbreviation Fs := (NeoFs D C).

(** The blocks a root directory of files uses. *)
Definition used_blocks (des : list DirEntryV2) (ls : list Z) : list Z := [0; 1] ++ ls ++ (des ≫= entry_blocks).

Lemma no_dirs root des : Forall (λ e, de_is_dir e = false) des -> des ≫= entry_dirs root = [].
Proof.
  induction 1 as [|e des He _ IH]; [done|]. rewrite bind_cons, IH, app_nil_r. unfold entry_dirs. by rewrite He.
Qed.

Lemma from_to_entries des : Forall de_ok des -> map from_btree_entry (map to_btree_entry des) = des.
Proof.
  induction 1 as [|e des He _ IH]; [done|]. cbn [map]. rewrite IH. unfold from_btree_entry. cbn [to_btree_entry snd].
  by rewrite entry_of_serialized.
Qed.

Lemma collect_files (s0 s : Fs) m0 m r d root des ls :
  fs_io_rep s0 m0 s m r -> tree true m d None None root (map to_btree_entry des) ls -> Forall de_ok des ->
  Forall (λ e, de_is_dir e = false) des ->
  collect_directory_blocks (S d) root s = Some (ls ++ (des ≫= entry_blocks), []).
Proof.
  intros Hio Ht Hok Hf. unfold collect_directory_blocks, walk_lbas.
  rewrite (@walk_lbas_tree Fs _ (fs_laws s0 m0) true d s m r None None root _ ls Hio Ht).
  destruct (@rooted_reads Fs _ (fs_laws s0 m0) true s m r d root _ ls Hio (or_intror Ht)) as [-> _].
  cbn [mbind option_bind]. by rewrite from_to_entries, no_dirs.
Qed.

(** ** Recovery *)

Lemma recover_files (s : Fs) m d des ls fuel :
  fs_io_rep s m s m 0 -> tree true m d None None (sb_root (fs_sb s)) (map to_btree_entry des) ls -> Forall de_ok des ->
  Forall (λ e, de_is_dir e = false) des -> snapshots (fs_snaps s) = [] -> sb_snapshots (fs_sb s) = 0 -> 2 <= sb_blocks (fs_sb s) < 2 ^ 32 ->
  exists rs, recover_freelist (S d) (S fuel) s = Some (set_chain [] (set_free (mkFree rs false) s)) /\
    chain 2 rs (sb_blocks (fs_sb s)) /\
    forall b, covers rs b <-> 0 <= b < sb_blocks (fs_sb s) /\ b ∉ used_blocks des ls.
Proof.
  intros Hio Ht Hok Hf Hsn Hs0 Hblk. unfold recover_freelist, snap_list. rewrite Hsn, Hs0.
  pose proof (tree_addr _ _ _ _ _ _ _ _ Ht). destruct (Z.eqb_spec (sb_root (fs_sb s)) 0); [lia|].
  change (reverse _) with [sb_root (fs_sb s)]. cbn [collect_all]. rewrite (collect_files s s m m 0 d _ des ls) by done.
  cbn [mbind option_bind]. change (reverse [] ++ []) with (@nil Z).
  assert (forall u, collect_all (S d) fuel [] u s = Some u) as -> by (intros; by destruct fuel). cbn [Z.eqb negb mbind option_bind].
  rewrite app_nil_r. fold (used_blocks des ls).
  destruct (sorted_used (used_blocks des ls)) as [Ha He].
  destruct (from_used_spec (dedup (merge_sort Z.le (used_blocks des ls))) (sb_blocks (fs_sb s)) Ha) as (Hc & _ & Hcov);
    [apply He; left|apply He; right; left|done|].
  eexists. split; [reflexivity|]. split; [exact Hc|]. intros b. by rewrite Hcov, He.
Qed.

(** The state before recovery, and that the tree is read there. *)
Definition bare_fs (base : Z) (d : D) (c : C) (sb : Superblock) : Fs :=
  mkFs (mkVolume fl_new (sb_blocks sb) base d c) sb [Some (mkCached (sb_root sb) (new_dir (bytes_of "\")) None)] 1 snap_new [] [] false.

Lemma bare_io (s : Fs) m d des ls (c : C) :
  fs_rep s m d des ls ->
  let s0 := bare_fs (vol_base (fs_vol s)) (vol_dev (fs_vol s)) c (fs_sb s) in fs_io_rep s0 m s0 m 0.
Proof.
  intros [[_ Hsz Hd _ Hn] [_ Hblk] _ _ _ _ _] s0. constructor; [|apply vol_frame_refl|done|by left|done].
  constructor; cbn [s0 bare_fs fs_vol vol_free vol_blocks vol_base vol_dev regions fl_new]; rewrite ?Hblk; [cbn; lia|done|done|cbn; lia|].
  intros l n Hl. destruct (Hn l n Hl) as (? & ? & _ & ?). split_and!; try done; try lia. by intros ?%Exists_nil.
Qed.

(** Putting the free list in place. *)
Lemma recovered_rep (s : Fs) m d des ls (c : C) rs :
  fs_rep s m d des ls -> tree true m d None None (sb_root (fs_sb s)) (map to_btree_entry des) ls ->
  sb_freelist (fs_sb s) = 0 -> chain 2 rs (sb_blocks (fs_sb s)) ->
  (forall b, covers rs b -> b ∉ ls) ->
  exists m', fs_rep (set_chain [] (set_free (mkFree rs false)
    (bare_fs (vol_base (fs_vol s)) (vol_dev (fs_vol s)) c (fs_sb s)))) m' d des ls.
Proof.
  intros [[_ Hsz Hd _ Hn] [Hsb Hblk] (Hok & _ & Hnd) _ _ _ _] Ht Hfl Hc Hcov. set (m' := filter (λ x : Z * BTreeNode, x.1 ∈ ls) m).
  destruct (chain_total _ _ _ Hc) as [Hp _]; [lia|]. exists m'. constructor.
  - constructor; cbn -[total_free_of]; rewrite ?Hblk in *; [done|done|done|unfold fs_free; cbn -[total_free_of]; lia|].
    intros l n [Hl Hin]%map_lookup_filter_Some. cbn in Hin. destruct (Hn l n Hl) as (? & ? & _ & ?).
    split_and!; try done; try lia. intros Hcl. by apply (Hcov l Hcl).
  - by split.
  - split; [done|]. split; [|done]. right. eapply tree_restrict; [exact Ht|]. intros a Ha. unfold m'.
    destruct (m !! a) as [n|] eqn:E; [by apply map_lookup_filter_Some|]. apply map_lookup_filter_None. by left.
  - eexists. split; [reflexivity|done].
  - cbn. lia.
  - done.
  - cbn. split; [constructor|]. split; [constructor|done].
Qed.

Lemma remount_files (s : Fs) m d des ls (c : C) fuel :
  fs_rep s m d des ls -> disk_superblock s = Some (fs_sb s) ->
  sb_root (fs_sb s) ≠ 0 -> sb_freelist (fs_sb s) = 0 -> sb_snapshots (fs_sb s) = 0 -> sb_blocks (fs_sb s) < 2 ^ 32 ->
  Forall (λ e, de_is_dir e = false) des ->
  exists s' m', fs_new (S d) (S fuel) (vol_base (fs_vol s)) (vol_dev (fs_vol s)) c = Some (Some s') /\
    fs_rep s' m' d des ls /\ fs_sb s' = fs_sb s /\
    forall b, covers (regions (fs_free s')) b <-> 0 <= b < sb_blocks (fs_sb s) /\ b ∉ used_blocks des ls.
Proof.
  intros Hs Hdisk Hroot Hfl Hsn Hblk Hf. destruct (fr_dir _ _ _ _ _ Hs) as (Hok & [(? & _)|Ht] & _); [done|].
  pose proof (bare_io s m d des ls c Hs) as Hio. pose proof (fr_vol _ _ _ _ _ Hs) as [_ Hsz (cap & _ & Hb & Hcap & Hc64) _ _].
  pose proof (proj2 (fr_sb _ _ _ _ _ Hs)) as Hbl.
  destruct (recover_files (bare_fs (vol_base (fs_vol s)) (vol_dev (fs_vol s)) c (fs_sb s)) m d des ls fuel Hio Ht Hok Hf eq_refl Hsn)
    as (rs & Hrec & Hc & Hcov); [cbn; lia|].
  destruct (recovered_rep s m d des ls c rs Hs Ht Hfl Hc) as [m' Hs'].
  { intros b Hb1 Hin. apply Hcov in Hb1 as [_ Hu]. apply Hu. unfold used_blocks. rewrite !elem_of_app. tauto. }
  set (s' := set_chain _ _) in *. exists s', m'. split; [|split; [exact Hs'|split; [done|]]].
  - unfold fs_new. rewrite Z.add_0_r, wrap_small by lia. unfold disk_superblock in Hdisk. rewrite Hdisk, Hsn, Hfl.
    unfold load_snapshots. cbn [Z.ltb Z.compare Z.eqb]. fold (bare_fs (vol_base (fs_vol s)) (vol_dev (fs_vol s)) c (fs_sb s)).
    cbn [mbind option_bind]. by rewrite Hrec.
  - exact Hcov.
Qed.

(** C3. A saved volume mounts again.  When the superblock is on the device, the
    free list is not, no snapshot exists and the root directory holds only files,
    [NeoDosFsV2::new] succeeds on the device whatever the page cache holds; the
    mounted volume is well formed and has the same root directory, and its free
    blocks are exactly the blocks of the volume that are not the first two, hold
    no node of the directory and belong to no file. *)
Theorem remount_recovers (s : Fs) m d des ls (c : C) fuel :
  fs_rep s m d des ls -> disk_superblock s = Some (fs_sb s) ->
  sb_root (fs_sb s) ≠ 0 -> sb_freelist (fs_sb s) = 0 -> sb_snapshots (fs_sb s) = 0 -> sb_blocks (fs_sb s) < 2 ^ 32 ->
  Forall (λ e, de_is_dir e = false) des ->
  exists s' m', fs_new (S d) (S fuel) (vol_base (fs_vol s)) (vol_dev (fs_vol s)) c = Some (Some s') /\
    fs_rep s' m' d des ls /\ fs_sb s' = fs_sb s /\
    (forall name, dir_lookup (S d) s' (sb_root (fs_sb s')) name = Some (find_entry des name)) /\
    forall b, covers (regions (fs_free s')) b <-> 0 <= b < sb_blocks (fs_sb s) /\ b ∉ used_blocks des ls.
Proof.
  intros Hs Hd H1' H2' H3' H4' Hf. destruct (remount_files s m d des ls c fuel Hs Hd H1' H2' H3' H4' Hf) as (s' & m' & Hn & Hs' & Hsb & Hcov).
  exists s', m'. split; [exact Hn|]. split; [exact Hs'|]. split; [exact Hsb|]. split; [|exact Hcov].
  intros name. exact (fs_rep_lookup _ _ _ _ _ name Hs').
Qed.

(** ** From formatting to the next mount *)

(** Files created in the root directory one after the other, each with success. *)
Inductive created : Fs -> list str -> Fs -> Prop :=
  | created_nil s : created s [] s
  | created_cons s s1 s2 name names tf pf now node :
      fs_create tf pf 0 name now s = Some (Ok node, s1) -> created s1 names s2 -> created s (name :: names) s2.

Definition listing (des : list DirEntryV2) (names : list str) : list DirEntryV2 := foldl (λ des n, insert_entry des (new_file n)) des names.

Lemma find_listing names des n :
  find_entry (listing des names) n = if decide (n ∈ names) then Some (new_file n) else find_entry des n.
Proof.
  revert des. induction names as [|x names IH]; intros des; [done|]. cbn [listing foldl]. fold (listing (insert_entry des (new_file x)) names).
  rewrite IH, find_insert_entry. cbn [de_name new_file new_entry].
  destruct (decide (n ∈ names)), (decide (n ∈ x :: names)) as [Hin|Hnin]; try done; [exfalso; apply Hnin; by right| |].
  - apply elem_of_cons in Hin as [->|]; [by rewrite decide_True|done].
  - rewrite decide_False; [done|]. intros ->. apply Hnin. left.
Qed.

Lemma files_listing names des : Forall (λ e, de_is_dir e = false) des -> Forall (λ e, de_is_dir e = false) (listing des names).
Proof.
  revert des. induction names as [|x names IH]; intros des Hd; [done|]. apply IH. by apply Forall_insert_entry.
Qed.

(** Depth and space after [k] more files. *)
Lemma create_all names s m d des ls K :
  fs_rep s m d des ls -> Forall name_ok names -> fs_next_inode s + Z.of_nat (length names) < 2 ^ 32 ->
  (d + length names <= K)%nat -> Z.of_nat (length names * (2 * K + 3)) <= free_count s -> (0 < length names)%nat ->
  exists s' m' d' ls', created s names s' /\ fs_rep s' m' d' (listing des names) ls' /\ disk_superblock s' = Some (fs_sb s') /\
    sb_root (fs_sb s') ≠ 0 /\ sb_freelist (fs_sb s') = 0 /\ sb_snapshots (fs_sb s') = sb_snapshots (fs_sb s) /\
    sb_blocks (fs_sb s') = sb_blocks (fs_sb s) /\ vol_base (fs_vol s') = vol_base (fs_vol s).
Proof.
  revert s m d des ls. induction names as [|x names IH]; intros s m d des ls Hs Hn Hnext HK Hroom Hlen; [cbn in Hlen; lia|].
  apply Forall_cons in Hn as [Hx Hn]. cbn [length] in *.
  destruct (create_full s m d des ls x 0 0 Hs Hx) as (s1 & m1 & d1 & ls1 & Hrun & [Hs1 Hdk Hsb _ _ [Hfr Hd1]] & Hnx); [lia|lia|nia|].
  destruct Hsb as (R0 & R1 & R2 & R3 & R4). destruct names as [|y names].
  { exists s1, m1, d1, ls1. split; [by eapply created_cons, created_nil|]. done. }
  destruct (IH s1 m1 d1 _ ls1 Hs1 Hn) as (s' & m' & d' & ls' & Hc & Hs' & Hdk' & Q0 & Q1 & Q2 & Q3 & Q4); [lia|lia|nia|cbn; lia|].
  exists s', m', d', ls'. split; [by eapply created_cons|]. split; [done|]. split_and!; congruence.
Qed.

(** C1. From formatting to the next mount: on every working device, formatting at
    least four and fewer than 2^32 blocks succeeds, the volume mounts, any list of
    [k] names of at most 48 bytes each can then be created in its root directory one
    after the other if the volume has [k (2 k + 3) + 3] blocks, and mounting the
    device again, with whatever page cache, finds exactly the files created, each
    empty.  A longer name is cut in its entry by the code and is not covered. *)
Theorem format_create_remount (v : NeoVolume D C) cap num_blocks now label names (c c' : C) :
  on_device v cap -> vol_base v + num_blocks * 8 <= cap -> 4 <= num_blocks < 2 ^ 32 -> 0 <= now < 2 ^ 64 ->
  Forall name_ok names -> Z.of_nat (length names * (2 * length names + 3)) <= num_blocks - 3 ->
  exists v' s0 s1 s2 d, mkfs_ne2 v num_blocks now label = (true, v') /\
    fs_new 1 1 (vol_base v) (vol_dev v') c = Some (Some s0) /\ created s0 names s1 /\
    fs_new (S d) 1 (vol_base v) (vol_dev (fs_vol s1)) c' = Some (Some s2) /\
    forall n, dir_lookup (S d) s2 (sb_root (fs_sb s2)) n = Some (if decide (n ∈ names) then Some (new_file n) else None).
Proof.
  intros Hv Hcap Hn Hnow Hnames Hroom.
  destruct (mkfs_disk v cap num_blocks now label Hv) as (v' & Hrun & (Hd & Hb & Hc) & B & R1 & R2 & R3 & _); [lia|done|done|].
  rewrite B in Hb. pose proof (fresh_fs_rep (vol_base v) num_blocks now label (vol_dev v') c cap ltac:(lia) Hnow Hd Hb Hcap Hc R2) as Hs.
  destruct (decide (names = [])) as [->|Hne].
  { pose proof (fresh_fs_rep (vol_base v) num_blocks now label (vol_dev v') c' cap ltac:(lia) Hnow Hd Hb Hcap Hc R2) as Hs'.
    exists v', (fresh_fs (vol_base v) num_blocks now label (vol_dev v') c), (fresh_fs (vol_base v) num_blocks now label (vol_dev v') c), (fresh_fs (vol_base v) num_blocks now label (vol_dev v') c'), 0%nat.
    split; [exact Hrun|]. split; [apply mount_formatted; (done || lia)|]. split; [constructor|]. split; [apply mount_formatted; (done || lia)|]. intros n. by rewrite (fs_rep_lookup _ _ _ _ _ n Hs'). }
  destruct (create_all names _ _ _ _ _ (length names) Hs Hnames) as (s1 & m1 & d1 & ls1 & Hcr & Hs1 & Hdk & Q0 & Q1 & Q2 & Q3 & Q4);
    [cbn; nia|lia|unfold free_count; cbn -[Z.of_nat Nat.mul]; lia|by destruct names; [|cbn; lia]|].
  destruct (remount_files s1 m1 d1 _ ls1 c' 0 Hs1 Hdk Q0 Q1 Q2) as (s2 & m2 & Hnew & Hs2 & _); [rewrite Q3; cbn; lia|by apply files_listing|].
  exists v', (fresh_fs (vol_base v) num_blocks now label (vol_dev v') c), s1, s2, d1. split; [exact Hrun|]. split; [apply mount_formatted; (done || lia)|]. split; [exact Hcr|].
  rewrite Q4 in Hnew. split; [exact Hnew|]. intros n. rewrite (fs_rep_lookup _ _ _ _ _ n Hs2), find_listing. done.
Qed.
End remount.

(** ** The volume of 32 blocks with a file *)

Lemma remount_recovers_witness : exists (s s' : NeoFs MemDisk ()) d,
  fs_new (S d) 1 (vol_base (fs_vol s)) (vol_dev (fs_vol s)) tt = Some (Some s') /\
  dir_lookup (S d) s' (sb_root (fs_sb s')) [65; 46; 84] = Some (Some (new_file [65; 46; 84])).
Proof.
  destruct demo_mounted as (s & m & Hs & Hn & Hf & Hsn & Hb).
  destruct (create_full s m 0 [] [1] [65; 46; 84] 7 0 Hs demo_name)
    as (s1 & m1 & d1 & ls1 & _ & [Hs1 Hd1 (Q0 & Q1 & Q2 & Q3 & _) _ _ _] & _); [lia|rewrite Hn; lia|rewrite Hf; lia|].
  destruct (remount_recovers s1 m1 d1 _ ls1 tt 0 Hs1 Hd1 Q0 Q1) as (s2 & m2 & Hnew & _ & _ & Hl & _);
    [by rewrite Q2|rewrite Q3, Hb; lia|by repeat constructor|].
  exists s1, s2, d1. split; [exact Hnew|]. rewrite Hl. reflexivity.
Defined.

Lemma format_create_remount_witness : exists v' s0 s1 s2 d,
  mkfs_ne2 blank_volume 32 5 test_label = (true, v') /\ fs_new 1 1 100 (vol_dev v') tt = Some (Some s0) /\
  created s0 [[65]; [66]] s1 /\ fs_new (S d) 1 100 (vol_dev (fs_vol s1)) tt = Some (Some s2) /\
  dir_lookup (S d) s2 (sb_root (fs_sb s2)) [66] = Some (Some (new_file [66])) /\
  dir_lookup (S d) s2 (sb_root (fs_sb s2)) [67] = Some None.
Proof.
  destruct (format_create_remount blank_volume 1000 32 5 test_label [[65]; [66]] tt tt blank_on_device)
    as (v' & s0 & s1 & s2 & d & H1 & H2 & H3 & H4 & H5); [cbn; lia|lia|lia| |cbn; lia|].
  { repeat constructor; cbn; unfold is_byte, NAME_MAX; lia. }
  exists v', s0, s1, s2, d. rewrite !H5. split_and!; (assumption || reflexivity).
Defined.
