(* ===== verification/NeoMount.v ===== *)
(** * NeoMount.v: termination of mounting ([fs/neofs/neodos_v2.rs])

    Loading the stored free list ends on every device, whatever it holds, because
    the chain is bounded and a block that comes twice is refused.  Rebuilding the
    free list has no such guard: on directories that contain each other it does not
    end. *)

From stdpp Require Import gmap.
From S2P Require Import Prelude Str BTreeMap Bytes BNode NeoTree FreeList NeoDisk NeoDir NeoFile Snapshot Superblock NeoFs NeoMkfs.
Open Scope Z_scope.

Section mount.
Context {D C : Type} `{BlockDevice D} `{PageCacheOps C} `{PageCache (C * D)}.

(** ** The chain of free list blocks *)

Lemma load_chain_ends fuel (v : NeoVolume D C) lba rs chain : MAX_FREELIST_NODES < Z.of_nat fuel + Z.of_nat (length chain) ->
  Z.of_nat (length chain) <= MAX_FREELIST_NODES -> NoDup chain ->
  exists r, load_chain fuel v lba rs chain = Some r /\
    forall rs' chain', r = Some (rs', chain') -> NoDup chain' /\ Z.of_nat (length chain') <= MAX_FREELIST_NODES.
Proof.
  revert lba rs chain. induction fuel as [|fuel IH]; intros lba rs chain Hf Hc Hnd; cbn [load_chain]; destruct (lba =? 0) eqn:E0.
  - exists (Some (rs, chain)). split; [done|]. by intros ? ? [= -> ->].
  - lia.
  - exists (Some (rs, chain)). split; [done|]. by intros ? ? [= -> ->].
  - destruct (Z.leb_spec MAX_FREELIST_NODES (Z.of_nat (length chain))); cbn [orb]; [by exists None|].
    case_bool_decide as Hin; [by exists None|]. destruct (read_block_raw v lba ≫= fl_deserialize) as [[node next]|]; [|by exists None].
    apply IH; rewrite ?length_app; cbn [length]; [lia|lia|]. apply NoDup_app. split_and!; [done|set_solver|apply NoDup_singleton].
Qed.

(** C26. Loading the stored free list ends on every volume, with any bytes on the
    device: 2^20 + 1 turns are enough.  A list that is accepted is valid, and its
    chain has no block twice, so a chain that runs in a circle is refused. *)
Theorem load_freelist_terminates fuel head (s : NeoFs D C) : MAX_FREELIST_NODES < Z.of_nat fuel ->
  exists r, load_freelist fuel head s = Some r /\
    forall s', r = Some s' -> NoDup (fs_chain s') /\ is_valid (fs_free s') (sb_blocks (fs_sb s)) = true /\ fs_sb s' = fs_sb s /\ fs_inodes s' = fs_inodes s.
Proof.
  intros Hf. destruct (load_chain_ends fuel (fs_vol s) head [] []) as (r & E & Hr); [cbn; lia|by vm_compute|apply NoDup_nil_2|].
  unfold load_freelist. rewrite E. cbn [mbind option_bind]. eexists. split; [reflexivity|]. intros s'. destruct r as [[rs chain]|]; [|done]. cbn [mbind option_bind].
  destruct (is_valid (mkFree rs false) (sb_blocks (fs_sb s))) eqn:Ev; [|done]. intros [= <-]. destruct (Hr rs chain eq_refl) as [Hnd _]. by split_and!.
Qed.

(** ** Directories that contain each other *)

(** The directory [x] has an entry for the directory [y]. *)
Definition contains_dir (s : NeoFs D C) (x y : Z) : Prop :=
  exists node, x ≠ 0 /\ y ≠ 0 /\ y ≠ x /\ read_node s x = Some node /\ is_leaf node = true /\
    exists e, e ∈ entries node /\ de_is_dir (from_btree_entry e) = true /\ de_extent_lba (from_btree_entry e) = y.

Lemma collect_finds tf s x y u p : contains_dir s x y -> collect_directory_blocks tf x s = Some (u, p) -> y ∈ p.
Proof.
  intros (node & Hx & Hy & Hne & Hr & Hleaf & e & He & Hd & Hl). unfold collect_directory_blocks. destruct (walk_lbas tf s x) as [l|]; [|done]. cbn [mbind option_bind].
  unfold walk. destruct (Z.eqb_spec x 0); [done|]. rewrite Hr. destruct tf as [|tf]; [done|]. cbn [walk_recursive]. rewrite Hleaf. cbn [mbind option_bind].
  intros [= <- <-]. apply list_elem_of_bind. exists (from_btree_entry e). split; [|by apply list_elem_of_fmap_2]. unfold entry_dirs. rewrite Hd, Hl.
  destruct (Z.eqb_spec y 0); [done|]. destruct (Z.eqb_spec y x); [done|]. cbn. by left.
Qed.

Lemma collect_diverges (cyclic : Z -> Prop) tf s : (forall x, cyclic x -> exists y, cyclic y /\ contains_dir s x y) ->
  forall fuel pending used x, cyclic x -> x ∈ pending -> collect_all tf fuel pending used s = None.
Proof.
  intros Hc fuel. induction fuel as [|fuel IH]; intros pending used x Hx Hin; destruct pending as [|z pending]; try (by apply not_elem_of_nil in Hin); [done|].
  cbn [collect_all]. destruct (collect_directory_blocks tf z s) as [[u p]|] eqn:E; [|done]. cbn [mbind option_bind].
  apply elem_of_cons in Hin as [->|Hin].
  - destruct (Hc z Hx) as (y & Hy & Hzy). apply (IH _ _ y); [done|]. apply elem_of_app. left. apply elem_of_reverse. by eapply collect_finds.
  - apply (IH _ _ x); [done|]. apply elem_of_app. by right.
Qed.

Lemma recover_diverges tf fuel s a b : sb_root (fs_sb s) = a -> contains_dir s a b -> contains_dir s b a -> recover_freelist tf fuel s = None.
Proof.
  intros Ha Hab Hba. unfold recover_freelist. rewrite Ha. assert (a ≠ 0) as Hn by (by destruct Hab as (? & ? & _)).
  rewrite (collect_diverges (λ x, x = a \/ x = b) tf s) with (x := a); [done| |by left|].
  - intros x [-> | ->]; [exists b|exists a]; auto.
  - apply elem_of_reverse. destruct (Z.eqb_spec a 0); [done|]. cbn. by left.
Qed.

(** Mounting does not end on a volume whose root directory contains a directory
    that contains the root directory again: no number of turns of the walk that
    rebuilds the free list is enough.  Every volume that was changed since it was
    formatted is mounted by that walk. *)
Theorem mount_diverges_on_directory_cycle tf base (d : D) (c : C) raw sb a b na nb ea eb :
  read_sector d (u64 (base + 0)) = Some raw -> sb_parse raw = Some sb -> sb_freelist sb = 0 -> sb_root sb = a -> a ≠ 0 -> b ≠ 0 -> a ≠ b ->
  let v := mkVolume fl_new (sb_blocks sb) base d c in
  vol_read_node v a = Some na -> is_leaf na = true -> ea ∈ entries na -> de_is_dir (from_btree_entry ea) = true -> de_extent_lba (from_btree_entry ea) = b ->
  vol_read_node v b = Some nb -> is_leaf nb = true -> eb ∈ entries nb -> de_is_dir (from_btree_entry eb) = true -> de_extent_lba (from_btree_entry eb) = a ->
  forall fuel, fs_new tf fuel base d c = None.
Proof.
  intros Hraw Hsb Hfl Hroot Ha Hb Hab v Hna La Hea Da Ea Hnb Lb Heb Db Eb fuel. unfold fs_new. rewrite Hraw. cbn [mbind option_bind]. rewrite Hsb.
  rewrite Hfl. cbn [mbind option_bind Z.eqb]. rewrite (recover_diverges tf fuel _ a b); [done|done| |].
  - exists na. split_and!; try done. eauto.
  - exists nb. split_and!; try done. eauto.
Qed.
End mount.

(** ** A damaged volume *)

(** A device of zeros, formatted. *)
Definition zero_disk : MemDisk := list_to_map (map (λ i, (Z.of_nat i, replicate SECTOR_SIZE 0)) (seq 0 256)).
Definition formatted : MemDisk := vol_dev (mkfs_ne2 (mkVolume fl_new 32 0 zero_disk tt) 32 5 test_label).2.
Definition A_ : str := bytes_of "A".
Definition B_ : str := bytes_of "B".

(** A directory entry for the directory with the root block [root]. *)
Definition dir_entry (name : str) (root : Z) : BTreeEntry := to_btree_entry (with_root (new_dir name) root).
Definition dir_node (name : str) (root : Z) : BTreeNode := mkNode Leaf [dir_entry name root].

Definition cyclic_sb : Superblock := sb_with_root 2 (sb_with_lists 0 0 (mkfs_superblock 32 5 test_label)).

(** Block 2 contains block 3 and block 3 contains block 2; block 2 is the root. *)
Definition cyclic_disk : MemDisk :=
  let v := mkVolume fl_new 32 0 formatted tt in
  let v := (write_block_raw v 2 (serialize (dir_node A_ 3))).2 in
  let v := (write_block_raw v 3 (serialize (dir_node B_ 2))).2 in
  (io_write_sector v 0 (sb_bytes cyclic_sb)).2.(vol_dev).

(** The formatted volume before its free list is loaded. *)
Definition unloaded : NeoFs MemDisk () :=
  mkFs (mkVolume fl_new 32 0 formatted tt) (mkfs_superblock 32 5 test_label) [] 1 snap_new [] [] false.

Lemma load_freelist_terminates_witness : exists r, load_freelist (Z.to_nat (2 ^ 20 + 1)) 2 unloaded = Some r.
Proof.
  destruct (load_freelist_terminates (Z.to_nat (2 ^ 20 + 1)) 2 unloaded) as (r & E & _); [|by exists r].
  rewrite Z2Nat.id by lia. unfold MAX_FREELIST_NODES. rewrite Z.shiftl_1_l. lia.
Defined.

Lemma cyclic_blocks : read_sector cyclic_disk (u64 (0 + 0)) = Some (sb_bytes cyclic_sb) /\ sb_parse (sb_bytes cyclic_sb) = Some cyclic_sb /\
  vol_read_node (mkVolume fl_new (sb_blocks cyclic_sb) 0 cyclic_disk tt) 2 = Some (dir_node A_ 3) /\
  vol_read_node (mkVolume fl_new (sb_blocks cyclic_sb) 0 cyclic_disk tt) 3 = Some (dir_node B_ 2).
Proof. vm_compute. done. Qed.

Lemma cyclic_entries : de_is_dir (from_btree_entry (dir_entry A_ 3)) = true /\ de_extent_lba (from_btree_entry (dir_entry A_ 3)) = 3 /\
  de_is_dir (from_btree_entry (dir_entry B_ 2)) = true /\ de_extent_lba (from_btree_entry (dir_entry B_ 2)) = 2.
Proof. vm_compute. done. Qed.

Lemma mount_diverges_on_directory_cycle_witness : fs_new 4 1000 0 cyclic_disk tt = None.
Proof.
  destruct cyclic_blocks as (H1 & H2 & H3 & H4). destruct cyclic_entries as (Da & Ea & Db & Eb).
  exact (mount_diverges_on_directory_cycle 4 0 cyclic_disk tt (sb_bytes cyclic_sb) cyclic_sb 2 3 (dir_node A_ 3) (dir_node B_ 2) (dir_entry A_ 3) (dir_entry B_ 2)
    H1 H2 eq_refl eq_refl ltac:(discriminate) ltac:(discriminate) ltac:(discriminate)
    H3 eq_refl (list_elem_of_here _ _) Da Ea H4 eq_refl (list_elem_of_here _ _) Db Eb 1000%nat).
Defined.
