(* ===== verification/PageHash.v ===== *)
(** * PageHash.v: the hash table of the page cache ([buffer/page_cache/hash.rs])

    Open addressing over a fixed array, with tombstones; the probe loops make at
    most one turn per entry.  On a table that has an empty entry left the
    operations refine a finite map; on one that has none, a key that is not stored
    is never inserted, tombstones or not. *)

From stdpp Require Import gmap.
From S2P Require Import Prelude Bytes.
Open Scope Z_scope.

Definition FNV_OFFSET : Z := 0xcbf29ce484222325.
Definition FNV_PRIME : Z := 0x100000001b3.
Definition fnv_step (h b : Z) : Z := u64 (Z.lxor h b * FNV_PRIME).
Definition fnv_hash (key : Z) : Z := foldl fnv_step FNV_OFFSET (le_bytes 8 key).

Definition make_inode_key (drive_id inode block : Z) : Z :=
  Z.lor (Z.lor (Z.shiftl drive_id 56) (Z.shiftl inode 32)) block.

Definition HT_EMPTY : Z := 2 ^ 64 - 1.
Definition HT_TOMBSTONE : Z := 2 ^ 64 - 2.

Record HashEntry := mkEntry { he_key : Z; he_value : nat }.
Definition EMPTY_HASH_ENTRY : HashEntry := mkEntry HT_EMPTY 0.
#[global] Instance entry_inhabited : Inhabited HashEntry := populate EMPTY_HASH_ENTRY.

Record HashTable := mkHash { ht_entries : list HashEntry; ht_len : nat }.

Definition ht_new (n : nat) : HashTable := mkHash (replicate n EMPTY_HASH_ENTRY) 0.

Section table.
(** The size of the array. *)
Variable N : nat.

Definition ht_start (key : Z) : nat := Z.to_nat (fnv_hash key `mod` Z.of_nat N).
Definition ht_next (idx : nat) : nat := ((idx + 1) `mod` N)%nat.
Definition key_at (h : HashTable) (idx : nat) : Z := he_key (ht_entries h !!! idx).

Fixpoint insert_loop (n : nat) (h : HashTable) (key : Z) (value idx : nat) (tomb : option nat) : bool * HashTable :=
  match n with
  | O => (false, h)
  | S n =>
      let k := key_at h idx in
      if k =? HT_EMPTY then
        (true, mkHash (<[default idx tomb := mkEntry key value]> (ht_entries h))
                 (match tomb with None => ht_len h + 1 | Some _ => ht_len h end)%nat)
      else if (k =? HT_TOMBSTONE) && bool_decide (tomb = None) then insert_loop n h key value (ht_next idx) (Some idx)
      else if k =? key then (true, mkHash (<[idx := mkEntry k value]> (ht_entries h)) (ht_len h))
      else insert_loop n h key value (ht_next idx) tomb
  end.

Definition ht_insert (h : HashTable) (key : Z) (value : nat) : bool * HashTable :=
  if (N * 7 <=? ht_len h * 2)%nat then (false, h) else insert_loop N h key value (ht_start key) None.

Fixpoint get_loop (n : nat) (h : HashTable) (key : Z) (idx : nat) : option nat :=
  match n with
  | O => None
  | S n =>
      let k := key_at h idx in
      if k =? HT_EMPTY then None
      else if k =? HT_TOMBSTONE then get_loop n h key (ht_next idx)
      else if k =? key then Some (he_value (ht_entries h !!! idx))
      else get_loop n h key (ht_next idx)
  end.

Definition ht_get (h : HashTable) (key : Z) : option nat := get_loop N h key (ht_start key).

Fixpoint remove_loop (n : nat) (h : HashTable) (key : Z) (idx : nat) : bool * HashTable :=
  match n with
  | O => (false, h)
  | S n =>
      let k := key_at h idx in
      if k =? HT_EMPTY then (false, h)
      else if k =? HT_TOMBSTONE then remove_loop n h key (ht_next idx)
      else if k =? key then (true, mkHash (<[idx := mkEntry HT_TOMBSTONE 0]> (ht_entries h)) (ht_len h - 1))
      else remove_loop n h key (ht_next idx)
  end.

Definition ht_remove (h : HashTable) (key : Z) : bool * HashTable := remove_loop N h key (ht_start key).

(** ** The probe path *)

Fixpoint walk (idx n : nat) : list nat :=
  match n with O => [] | S n => idx :: walk (ht_next idx) n end.
Definition path (key : Z) : list nat := walk (ht_start key) N.

Lemma walk_lookup n s i : (0 < N)%nat -> (s < N)%nat -> (i < n)%nat -> walk s n !! i = Some ((s + i) `mod` N)%nat.
Proof.
  intros HN. revert s i. induction n as [|n IH]; intros s i Hs Hi; [lia|]. destruct i as [|i]; cbn [walk lookup list_lookup].
  - f_equal. rewrite Nat.add_0_r, Nat.mod_small; lia.
  - rewrite IH; [|unfold ht_next; apply Nat.mod_upper_bound; lia|lia]. f_equal. unfold ht_next.
    rewrite Nat.Div0.add_mod_idemp_l. f_equal. lia.
Qed.

Lemma ht_start_lt key : (0 < N)%nat -> (ht_start key < N)%nat.
Proof. intros HN. unfold ht_start. pose proof (Z.mod_pos_bound (fnv_hash key) (Z.of_nat N) ltac:(lia)). lia. Qed.

Lemma path_complete key p : (p < N)%nat -> p ∈ path key.
Proof.
  intros Hp. pose proof (ht_start_lt key ltac:(lia)) as Hs. set (s := ht_start key) in *.
  apply list_elem_of_lookup. destruct (decide (s <= p)%nat).
  - exists (p - s)%nat. unfold path. rewrite walk_lookup by lia. f_equal. fold s. rewrite <-(Nat.mod_small p N) at 2 by lia. f_equal. lia.
  - exists (p + N - s)%nat. unfold path. rewrite walk_lookup by lia. f_equal. fold s.
    replace (s + (p + N - s))%nat with (p + 1 * N)%nat by lia. rewrite Nat.Div0.mod_add. by apply Nat.mod_small.
Qed.

Lemma length_walk s n : length (walk s n) = n.
Proof. revert s. induction n as [|n IH]; intros s; cbn; [done|by rewrite IH]. Qed.

Lemma path_lt key : Forall (λ p, p < N)%nat (path key).
Proof.
  apply Forall_lookup. intros i p Hi. assert (i < N)%nat as Hlt by (apply lookup_lt_Some in Hi; unfold path in Hi; by rewrite length_walk in Hi).
  unfold path in Hi. rewrite walk_lookup in Hi; [|lia|apply ht_start_lt; lia|lia]. injection Hi as <-. apply Nat.mod_upper_bound. lia.
Qed.

Lemma path_nodup key : NoDup (path key).
Proof.
  unfold path. destruct (decide (0 < N)%nat) as [HN|]; [|assert (N = 0%nat) as -> by lia; apply NoDup_nil; done].
  pose proof (ht_start_lt key HN) as Hs. apply NoDup_alt. intros i j p Hi Hj.
  pose proof (lookup_lt_Some _ _ _ Hi) as Li. pose proof (lookup_lt_Some _ _ _ Hj) as Lj. rewrite length_walk in Li, Lj.
  rewrite walk_lookup in Hi, Hj by lia. assert ((ht_start key + i) mod N = (ht_start key + j) mod N)%nat as E by congruence.
  pose proof (Nat.div_mod_eq (ht_start key + i) N). pose proof (Nat.div_mod_eq (ht_start key + j) N).
  assert ((ht_start key + i) / N = (ht_start key + j) / N \/ (ht_start key + i) / N + 1 <= (ht_start key + j) / N \/ (ht_start key + j) / N + 1 <= (ht_start key + i) / N)%nat as [?|[?|?]] by lia; nia.
Qed.

(** ** The map a table holds *)

Definition ht_live (k : Z) : Prop := k ≠ HT_EMPTY /\ k ≠ HT_TOMBSTONE.
#[global] Instance ht_live_dec k : Decision (ht_live k) := _.

Definition passes (h : HashTable) (key : Z) (p : nat) : Prop := key_at h p ≠ HT_EMPTY /\ key_at h p ≠ key.

Definition used_entries (h : HashTable) : nat := length (filter (λ e, he_key e ≠ HT_EMPTY) (ht_entries h)).
Definition no_empty (h : HashTable) : Prop := Forall (λ e, he_key e ≠ HT_EMPTY) (ht_entries h).

(** A key is stored where its path first meets it, before any empty entry. *)
Record ht_rep (h : HashTable) (m : gmap Z nat) : Prop := {
  hr_size : length (ht_entries h) = N;
  hr_len : (ht_len h <= used_entries h)%nat;
  hr_path p e : ht_entries h !! p = Some e -> ht_live (he_key e) ->
    exists pre post, path (he_key e) = pre ++ p :: post /\ Forall (passes h (he_key e)) pre;
  hr_map k v : m !! k = Some v <-> ht_live k /\ exists p, ht_entries h !! p = Some (mkEntry k v);
}.

Lemma key_at_lookup h p e : ht_entries h !! p = Some e -> key_at h p = he_key e.
Proof. intros E. unfold key_at. by rewrite (list_lookup_total_correct _ _ _ E). Qed.

Lemma ht_new_rep : ht_rep (ht_new N) ∅.
Proof.
  constructor; cbn; [apply length_replicate|lia| |].
  - intros p e [-> _]%lookup_replicate [Hl _]. done.
  - intros k v. rewrite lookup_empty. split; [done|]. intros [[Hl _] [p [Hp _]%lookup_replicate]]. by injection Hp.
Qed.

Lemma used_new n : used_entries (ht_new n) = 0%nat.
Proof. unfold used_entries, ht_new. cbn [ht_entries]. rewrite filter_none; [done|]. intros e [-> _]%elem_of_replicate. by intros []. Qed.

Lemma used_le h : length (ht_entries h) = N -> (used_entries h <= N)%nat.
Proof. intros <-. apply length_filter. Qed.

(** ** Looking up *)

Lemma get_loop_skip h k pre p post s n : walk s n = pre ++ p :: post -> Forall (passes h k) pre ->
  exists n', get_loop n h k s = get_loop (S n') h k p /\ walk p (S n') = p :: post.
Proof.
  revert s n. induction pre as [|q pre IH]; intros s n Hw Hpre; destruct n as [|n]; try done; cbn [walk app] in Hw; injection Hw as -> Hw.
  - exists n. cbn [walk]. by rewrite Hw.
  - apply Forall_cons in Hpre as [[H1 H2] Hpre]. destruct (IH _ _ Hw Hpre) as (n' & E & Hn). exists n'. split; [|done]. rewrite <-E.
    cbn [get_loop]. destruct (Z.eqb_spec (key_at h q) HT_EMPTY); [done|]. destruct (Z.eqb_spec (key_at h q) HT_TOMBSTONE); [done|].
    destruct (Z.eqb_spec (key_at h q) k); done.
Qed.

Lemma get_loop_absent h k s n : Forall (λ p, key_at h p ≠ k) (walk s n) -> get_loop n h k s = None.
Proof.
  revert s. induction n as [|n IH]; intros s Hw; [done|]. cbn [walk] in Hw. apply Forall_cons in Hw as [Hk Hw]. cbn [get_loop].
  destruct (key_at h s =? HT_EMPTY); [done|]. destruct (key_at h s =? HT_TOMBSTONE); [by apply IH|].
  destruct (Z.eqb_spec (key_at h s) k); [done|by apply IH].
Qed.

Lemma absent_path h m k : ht_rep h m -> ht_live k -> m !! k = None -> Forall (λ p, key_at h p ≠ k) (path k).
Proof.
  intros Hr Hk Hm. eapply Forall_impl; [apply path_lt|]. intros p Hp E. cbn in Hp. rewrite <-(hr_size _ _ Hr) in Hp.
  apply lookup_lt_is_Some_2 in Hp as [[k' v] He]. rewrite (key_at_lookup _ _ _ He) in E. cbn in E. subst k'.
  assert (m !! k = Some v) by (apply (hr_map _ _ Hr); eauto). congruence.
Qed.

Lemma stored_path h m k v : ht_rep h m -> m !! k = Some v -> ht_live k /\ exists p pre post, ht_entries h !! p = Some (mkEntry k v) /\
  path k = pre ++ p :: post /\ Forall (passes h k) pre.
Proof.
  intros Hr Hm. apply (hr_map _ _ Hr) in Hm as [Hk [p Hp]]. split; [done|]. destruct (hr_path _ _ Hr p _ Hp Hk) as (pre & post & ? & ?). eauto 10.
Qed.

Lemma ht_get_rep h m k : ht_rep h m -> ht_live k -> ht_get h k = m !! k.
Proof.
  intros Hr Hk. destruct (m !! k) as [v|] eqn:Hm; [|by apply get_loop_absent, (absent_path h m)].
  destruct (stored_path h m k v Hr Hm) as (_ & p & pre & post & Hp & Hpath & Hpre). unfold ht_get.
  destruct (get_loop_skip h k pre p post _ _ Hpath Hpre) as (n & -> & _). cbn [get_loop]. rewrite (key_at_lookup _ _ _ Hp). cbn [he_key].
  destruct Hk. rewrite (list_lookup_total_correct _ _ _ Hp).
  destruct (Z.eqb_spec k HT_EMPTY); [done|]. destruct (Z.eqb_spec k HT_TOMBSTONE); [done|]. by rewrite Z.eqb_refl.
Qed.

(** ** Changing one entry *)

Definition put (t : nat) (e : HashEntry) (len : nat) (h : HashTable) : HashTable := mkHash (<[t := e]> (ht_entries h)) len.

Lemma key_at_put h t e len p : (t < length (ht_entries h))%nat -> key_at (put t e len h) p = if decide (p = t) then he_key e else key_at h p.
Proof.
  intros Ht. unfold key_at, put. cbn [ht_entries]. rewrite !list_lookup_total_alt. destruct (decide (p = t)) as [->|].
  - by rewrite list_lookup_insert_eq.
  - by rewrite list_lookup_insert_ne.
Qed.

Lemma passes_put h t e len k p : (t < length (ht_entries h))%nat -> he_key e ≠ HT_EMPTY -> he_key e ≠ k -> passes h k p -> passes (put t e len h) k p.
Proof. intros Ht He Hk [H1 H2]. unfold passes. rewrite key_at_put by done. by destruct (decide (p = t)). Qed.

Lemma used_put h t e e' len : ht_entries h !! t = Some e -> he_key e' ≠ HT_EMPTY ->
  used_entries (put t e' len h) = (used_entries h + (if decide (he_key e = HT_EMPTY) then 1 else 0))%nat.
Proof.
  intros Ht He'. unfold used_entries, put. cbn [ht_entries].
  pose proof (filter_insert_count (λ e, he_key e ≠ HT_EMPTY) (ht_entries h) t e' e Ht) as Hc. cbn beta in Hc.
  destruct (decide (he_key e = HT_EMPTY)) as [E|E], (decide (he_key e' ≠ HT_EMPTY)); try done; destruct (decide (he_key e ≠ HT_EMPTY)); try done; lia.
Qed.

(** Uniqueness of the place of a key. *)
Lemma ht_stored_unique h m p q e e' : ht_rep h m -> ht_entries h !! p = Some e -> ht_entries h !! q = Some e' -> he_key e = he_key e' ->
  ht_live (he_key e) -> p = q.
Proof.
  intros Hr Hp Hq Hk Hl. destruct (hr_path _ _ Hr p e Hp Hl) as (a & b & E1 & F1).
  destruct (hr_path _ _ Hr q e' Hq ltac:(by rewrite <-Hk)) as (a' & b' & E2 & F2). rewrite <-Hk in E2, F2. rewrite E1 in E2.
  pose proof (key_at_lookup _ _ _ Hp) as Kp. pose proof (key_at_lookup _ _ _ Hq) as Kq. clear E1. revert a' E2 F2. induction F1 as [|x a Hx F1 IH]; intros a' E2 F2.
  - destruct a' as [|y a']; [by injection E2|]. injection E2 as <- E2. apply Forall_cons in F2 as [[_ Hy] _]. congruence.
  - destruct a' as [|y a']; injection E2 as <- E2; [destruct Hx as [_ Hx]; congruence|]. apply Forall_cons in F2 as [_ F2]. eauto.
Qed.

Lemma bury_rep h m p k v : ht_rep h m -> ht_live k -> ht_entries h !! p = Some (mkEntry k v) ->
  ht_rep (put p (mkEntry HT_TOMBSTONE 0) (ht_len h - 1) h) (delete k m).
Proof.
  intros Hr Hk Hp. pose proof (lookup_lt_Some _ _ _ Hp) as Hlt. constructor.
  - cbn. rewrite length_insert. apply Hr.
  - rewrite (used_put _ _ _ _ _ Hp) by done. pose proof (hr_len _ _ Hr). cbn [put ht_len]. destruct (decide _); lia.
  - intros q e Hq Hl. cbn in Hq. destruct (decide (q = p)) as [->|Hne].
    { rewrite list_lookup_insert_eq in Hq by done. injection Hq as <-. by destruct Hl. }
    rewrite list_lookup_insert_ne in Hq by done. destruct (hr_path _ _ Hr q e Hq Hl) as (pre & post & E & Hpre). exists pre, post. split; [done|].
    eapply Forall_impl; [exact Hpre|]. intros x Hx. destruct Hl. by apply passes_put.
  - intros k' v'. cbn. destruct (decide (k' = k)) as [->|Hne].
    + rewrite lookup_delete_eq. split; [done|]. intros [_ [q Hq]]. destruct (decide (q = p)) as [->|Hne].
      { rewrite list_lookup_insert_eq in Hq by done. injection Hq as <- _. by destruct Hk. }
      rewrite list_lookup_insert_ne in Hq by done. by destruct (Hne (ht_stored_unique h m q p _ _ Hr Hq Hp eq_refl Hk)).
    + rewrite lookup_delete_ne, (hr_map _ _ Hr) by done. split; intros [Hl [q Hq]]; (split; [done|]); exists q.
      * rewrite list_lookup_insert_ne; [done|]. intros <-. congruence.
      * destruct (decide (q = p)) as [->|]; [|by rewrite list_lookup_insert_ne in Hq].
        rewrite list_lookup_insert_eq in Hq by done. injection Hq as <- _. by destruct Hl.
Qed.

Lemma remove_loop_skip h k pre p post s n : walk s n = pre ++ p :: post -> Forall (passes h k) pre ->
  exists n', remove_loop n h k s = remove_loop (S n') h k p.
Proof.
  revert s n. induction pre as [|q pre IH]; intros s n Hw Hpre; destruct n as [|n]; try done; cbn [walk app] in Hw; injection Hw as -> Hw.
  - by exists n.
  - apply Forall_cons in Hpre as [[H1 H2] Hpre]. destruct (IH _ _ Hw Hpre) as (n' & E). exists n'. rewrite <-E.
    cbn [remove_loop]. destruct (Z.eqb_spec (key_at h q) HT_EMPTY); [done|]. destruct (Z.eqb_spec (key_at h q) HT_TOMBSTONE); [done|].
    destruct (Z.eqb_spec (key_at h q) k); done.
Qed.

Lemma remove_loop_absent h k s n : Forall (λ p, key_at h p ≠ k) (walk s n) -> remove_loop n h k s = (false, h).
Proof.
  revert s. induction n as [|n IH]; intros s Hw; [done|]. cbn [walk] in Hw. apply Forall_cons in Hw as [Hk Hw]. cbn [remove_loop].
  destruct (key_at h s =? HT_EMPTY); [done|]. destruct (key_at h s =? HT_TOMBSTONE); [by apply IH|].
  destruct (Z.eqb_spec (key_at h s) k); [done|by apply IH].
Qed.

(** Removing refines deletion; the entry becomes a tombstone. *)
Lemma ht_remove_rep h m k : ht_rep h m -> ht_live k ->
  exists h', ht_remove h k = (bool_decide (is_Some (m !! k)), h') /\ ht_rep h' (delete k m) /\ used_entries h' = used_entries h.
Proof.
  intros Hr Hk. destruct (m !! k) as [v|] eqn:Hm.
  - destruct (stored_path h m k v Hr Hm) as (_ & p & pre & post & Hp & Hpath & Hpre). eexists.
    split; [|split; [by apply (bury_rep h m p k v)|rewrite (used_put _ _ _ _ _ Hp) by done; destruct Hk; cbn; rewrite decide_False by done; lia]].
    unfold ht_remove. destruct (remove_loop_skip h k pre p post _ _ Hpath Hpre) as (n & ->). cbn [remove_loop].
    rewrite (key_at_lookup _ _ _ Hp). cbn [he_key]. destruct Hk.
    destruct (Z.eqb_spec k HT_EMPTY); [done|]. destruct (Z.eqb_spec k HT_TOMBSTONE); [done|]. by rewrite Z.eqb_refl.
  - exists h. split; [|split; [by rewrite delete_id|done]]. unfold ht_remove. rewrite remove_loop_absent; [done|]. by apply (absent_path h m).
Qed.

(** ** Inserting *)

Lemma insert_loop_stored h k v pre p post s n tomb : ht_live k -> walk s n = pre ++ p :: post -> Forall (passes h k) pre -> key_at h p = k ->
  insert_loop n h k v s tomb = (true, put p (mkEntry k v) (ht_len h) h).
Proof.
  intros [Hk1 Hk2]. revert s n tomb. induction pre as [|q pre IH]; intros s n tomb Hw Hpre Hp; destruct n as [|n]; try done; cbn [walk app] in Hw; injection Hw as -> Hw;
    cbn [insert_loop].
  - rewrite Hp. destruct (Z.eqb_spec k HT_EMPTY); [done|]. destruct (Z.eqb_spec k HT_TOMBSTONE); [done|]. by rewrite Z.eqb_refl.
  - apply Forall_cons in Hpre as [[H1 H2] Hpre]. destruct (Z.eqb_spec (key_at h q) HT_EMPTY); [done|].
    destruct (Z.eqb_spec (key_at h q) k); [done|]. destruct (_ && _); by apply IH.
Qed.

(** A key that is not stored goes to the first tombstone before the first empty
    entry, or to that entry. *)
Lemma insert_loop_new h k v pre q post s n tomb : walk s n = pre ++ q :: post -> Forall (passes h k) pre -> key_at h q = HT_EMPTY ->
  exists t len, insert_loop n h k v s tomb = (true, put t (mkEntry k v) len h) /\
    ((tomb = Some t /\ len = ht_len h) \/
     (tomb = None /\ exists a b, pre ++ [q] = a ++ t :: b /\ ((key_at h t = HT_TOMBSTONE /\ len = ht_len h) \/ (key_at h t = HT_EMPTY /\ len = ht_len h + 1)%nat))).
Proof.
  revert s n tomb. induction pre as [|x pre IH]; intros s n tomb Hw Hpre Hq; destruct n as [|n]; try done; cbn [walk app] in Hw; injection Hw as -> Hw;
    cbn [insert_loop].
  - rewrite Hq, Z.eqb_refl. destruct tomb as [t|]; eexists _, _; (split; [reflexivity|]); [auto|]. right. split; [done|]. exists [], []. auto.
  - apply Forall_cons in Hpre as [[H1 H2] Hpre]. destruct (Z.eqb_spec (key_at h x) HT_EMPTY); [done|].
    destruct (Z.eqb_spec (key_at h x) k); [done|]. destruct (Z.eqb_spec (key_at h x) HT_TOMBSTONE) as [Ht|]; cbn [andb].
    + destruct tomb as [t|].
      * destruct (IH _ _ (Some t) Hw Hpre Hq) as (t' & len & E & Hc). exists t', len. split; [exact E|]. destruct Hc as [|[? _]]; [auto|done].
      * destruct (IH _ _ (Some x) Hw Hpre Hq) as (t' & len & E & Hc). exists t', len. split; [exact E|]. destruct Hc as [[[= <-] ->]|[? _]]; [|done].
        right. split; [done|]. exists [], (pre ++ [q]). auto.
    + destruct (IH _ _ tomb Hw Hpre Hq) as (t' & len & E & Hc). exists t', len. split; [exact E|].
      destruct Hc as [|[-> (a & b & E' & Hc)]]; [auto|]. right. split; [done|]. exists (x :: a), b. cbn. by rewrite E'.
Qed.

Lemma insert_loop_full h k v s n tomb : Forall (passes h k) (walk s n) -> insert_loop n h k v s tomb = (false, h).
Proof.
  revert s tomb. induction n as [|n IH]; intros s tomb Hw; [done|]. cbn [walk] in Hw. apply Forall_cons in Hw as [[H1 H2] Hw]. cbn [insert_loop].
  destruct (Z.eqb_spec (key_at h s) HT_EMPTY); [done|]. destruct (Z.eqb_spec (key_at h s) k); [done|]. destruct (_ && _); by apply IH.
Qed.

Lemma place_rep h m k v t e pre post len : ht_rep h m -> ht_live k -> m !! k = None -> path k = pre ++ t :: post -> Forall (passes h k) pre ->
  ht_entries h !! t = Some e -> ~ ht_live (he_key e) -> (len <= used_entries (put t (mkEntry k v) len h))%nat ->
  ht_rep (put t (mkEntry k v) len h) (<[k := v]> m).
Proof.
  intros Hr Hk Hm Hpath Hpre Ht He Hlen. pose proof (lookup_lt_Some _ _ _ Ht) as Hlt.
  assert (forall q e', ht_entries h !! q = Some e' -> he_key e' ≠ k) as Hno.
  { intros q [k' v'] Hq E. cbn in E. subst k'. assert (m !! k = Some v') by (apply (hr_map _ _ Hr); eauto). congruence. }
  constructor; [cbn; rewrite length_insert; apply Hr|done| |].
  - intros q e' Hq Hl. cbn in Hq. destruct (decide (q = t)) as [->|Hne].
    + rewrite list_lookup_insert_eq in Hq by done. injection Hq as <-. exists pre, post. split; [done|]. cbn [he_key].
      apply Forall_forall. intros x Hx. rewrite Forall_forall in Hpre. pose proof (Hpre x Hx) as [P1 P2].
      unfold passes. rewrite key_at_put by done. destruct (decide (x = t)) as [->|]; [|done]. exfalso.
      rewrite (key_at_lookup _ _ _ Ht) in P1, P2. apply list_elem_of_split in Hx as (a & b & ->).
      rewrite <-app_assoc in Hpath. pose proof (path_nodup k) as Hnd. rewrite Hpath in Hnd. apply NoDup_app in Hnd as (_ & _ & Hnd).
      cbn in Hnd. apply NoDup_cons in Hnd as [Hnd _]. apply Hnd. set_solver.
    + rewrite list_lookup_insert_ne in Hq by done. destruct (hr_path _ _ Hr q e' Hq Hl) as (a & b & E & Ha). exists a, b. split; [done|].
      eapply Forall_impl; [exact Ha|]. intros x Hx. destruct Hk. apply passes_put; try done. cbn. intros ->. by apply (Hno q e').
  - intros k' v'. cbn. destruct (decide (k' = k)) as [->|Hne].
    + rewrite lookup_insert_eq. split.
      * intros [= <-]. split; [done|]. exists t. by rewrite list_lookup_insert_eq.
      * intros [_ [q Hq]]. destruct (decide (q = t)) as [->|]; [rewrite list_lookup_insert_eq in Hq by done; congruence|].
        rewrite list_lookup_insert_ne in Hq by done. by destruct (Hno q _ Hq).
    + rewrite lookup_insert_ne, (hr_map _ _ Hr) by done. split; intros [Hl [q Hq]]; (split; [done|]); exists q.
      * rewrite list_lookup_insert_ne; [done|]. intros <-. rewrite Ht in Hq. injection Hq as ->. done.
      * destruct (decide (q = t)) as [->|]; [rewrite list_lookup_insert_eq in Hq by done; congruence|]. by rewrite list_lookup_insert_ne in Hq.
Qed.

Lemma revalue_rep h m p k v v' : ht_rep h m -> ht_live k -> ht_entries h !! p = Some (mkEntry k v') ->
  ht_rep (put p (mkEntry k v) (ht_len h) h) (<[k := v]> m).
Proof.
  intros Hr Hk Hp. pose proof (lookup_lt_Some _ _ _ Hp) as Hlt. pose proof (key_at_lookup _ _ _ Hp) as Hkp. cbn in Hkp.
  assert (forall q, key_at (put p (mkEntry k v) (ht_len h) h) q = key_at h q) as Hkey.
  { intros q. rewrite key_at_put by done. by destruct (decide (q = p)) as [->|]. }
  constructor; [cbn; rewrite length_insert; apply Hr| | |].
  - destruct Hk. rewrite (used_put _ _ _ _ _ Hp) by done. pose proof (hr_len _ _ Hr). cbn [put ht_len]. lia.
  - intros q e Hq Hl. cbn in Hq.
    assert (exists e', ht_entries h !! q = Some e' /\ he_key e' = he_key e) as (e' & He' & Ek).
    { destruct (decide (q = p)) as [->|]; [|rewrite list_lookup_insert_ne in Hq by done; eauto].
      rewrite list_lookup_insert_eq in Hq by done. injection Hq as <-. by eexists. }
    rewrite <-Ek in Hl |- *. destruct (hr_path _ _ Hr q e' He' Hl) as (a & b & E & Ha). exists a, b. split; [done|].
    eapply Forall_impl; [exact Ha|]. intros x. unfold passes. by rewrite Hkey.
  - intros k' v0. cbn. destruct (decide (k' = k)) as [->|Hne].
    + rewrite lookup_insert_eq. split.
      * intros [= <-]. split; [done|]. exists p. by rewrite list_lookup_insert_eq.
      * intros [_ [q Hq]]. destruct (decide (q = p)) as [->|Hne]; [rewrite list_lookup_insert_eq in Hq by done; congruence|].
        rewrite list_lookup_insert_ne in Hq by done. by destruct (Hne (ht_stored_unique h m q p _ _ Hr Hq Hp eq_refl Hk)).
    + rewrite lookup_insert_ne, (hr_map _ _ Hr) by done. split; intros [Hl [q Hq]]; (split; [done|]); exists q.
      * rewrite list_lookup_insert_ne; [done|]. intros <-. congruence.
      * destruct (decide (q = p)) as [->|]; [rewrite list_lookup_insert_eq in Hq by done; congruence|]. by rewrite list_lookup_insert_ne in Hq.
Qed.

Lemma ht_insert_loop h m k v : (0 < N)%nat -> ht_rep h m -> ht_insert h k v = insert_loop N h k v (ht_start k) None.
Proof.
  intros HN Hr. unfold ht_insert. pose proof (hr_len _ _ Hr). pose proof (used_le h (hr_size _ _ Hr)).
  destruct (Nat.leb_spec (N * 7) (ht_len h * 2)); [lia|done].
Qed.

(** The entries before the first empty one, where there is one. *)
Lemma first_empty h l : Forall (λ p, key_at h p ≠ HT_EMPTY) l \/
  exists pre q post, l = pre ++ q :: post /\ Forall (λ p, key_at h p ≠ HT_EMPTY) pre /\ key_at h q = HT_EMPTY.
Proof.
  induction l as [|x l [IH|(pre & q & post & -> & Hpre & Hq)]]; [by left| |]; destruct (decide (key_at h x = HT_EMPTY)).
  - right. exists [], x, l. by split_and!.
  - left. by constructor.
  - right. exists [], x, (pre ++ q :: post). by split_and!.
  - right. exists (x :: pre), q, post. split_and!; [done|by constructor|done].
Qed.

Lemma used_full h : length (ht_entries h) = N -> (used_entries h = N <-> no_empty h).
Proof.
  intros <-. unfold used_entries, no_empty. split.
  - induction (ht_entries h) as [|e l IH]; [by constructor|]. rewrite filter_cons. pose proof (length_filter (λ e, he_key e ≠ HT_EMPTY) l). destruct (decide _); cbn; intros E; [|lia].
    constructor; [done|]. apply IH. lia.
  - rewrite Forall_forall. intros Hf. by rewrite filter_all.
Qed.

Lemma path_no_empty h m k : ht_rep h m -> Forall (λ p, key_at h p ≠ HT_EMPTY) (path k) <-> used_entries h = N.
Proof.
  intros Hr. rewrite (used_full h (hr_size _ _ Hr)). unfold no_empty. rewrite !Forall_forall. split.
  - intros Hf e [p Hp]%list_elem_of_lookup. rewrite <-(key_at_lookup _ _ _ Hp). apply Hf, path_complete. rewrite <-(hr_size _ _ Hr). by eapply lookup_lt_Some.
  - intros Hf p Hp. pose proof (path_lt k) as Hlt. rewrite Forall_forall in Hlt. specialize (Hlt p Hp). rewrite <-(hr_size _ _ Hr) in Hlt.
    apply lookup_lt_is_Some_2 in Hlt as [e He]. rewrite (key_at_lookup _ _ _ He). apply Hf. apply list_elem_of_lookup. eauto.
Qed.

(** Inserting refines insertion into the map if the key is stored or an entry is
    empty. *)
Lemma ht_insert_rep h m k v : ht_rep h m -> ht_live k -> is_Some (m !! k) \/ (used_entries h < N)%nat ->
  exists h', ht_insert h k v = (true, h') /\ ht_rep h' (<[k := v]> m) /\
    (used_entries h' <= used_entries h + (if decide (is_Some (m !! k)) then 0 else 1))%nat.
Proof.
  intros Hr Hk Hroom. destruct (m !! k) as [v'|] eqn:Hm.
  - destruct (stored_path h m k v' Hr Hm) as (_ & p & pre & post & Hp & Hpath & Hpre).
    pose proof (lookup_lt_Some _ _ _ Hp) as Hlt. rewrite (hr_size _ _ Hr) in Hlt. eexists. split; [|split; [by eapply revalue_rep|]].
    + rewrite (ht_insert_loop h m) by (done || lia). eapply insert_loop_stored; [done|exact Hpath|done|]. by rewrite (key_at_lookup _ _ _ Hp).
    + destruct Hk. rewrite (used_put _ _ _ _ _ Hp) by done. cbn. rewrite decide_False by done. lia.
  - destruct Hroom as [[? [=]]|Hroom]. rewrite decide_False by (by intros []).
    pose proof (absent_path h m k Hr Hk Hm) as Habs. destruct (first_empty h (path k)) as [Hf|(pre & q & post & Hpath & Hpre & Hq)].
    { apply (path_no_empty h m k Hr) in Hf. lia. }
    assert (Forall (passes h k) pre) as Hpass.
    { rewrite Hpath in Habs. apply Forall_app in Habs as [Habs _]. rewrite Forall_forall in *. intros x Hx. split; auto. }
    destruct (insert_loop_new h k v pre q post _ _ None Hpath Hpass Hq) as (t & len & E & [[? _]|[_ (a & b & Eab & Ht)]]); [done|].
    assert (path k = a ++ t :: b ++ post /\ Forall (passes h k) a) as [Hpath' Hpa].
    { split; [change (q :: post) with ([q] ++ post) in Hpath; by rewrite Hpath, app_assoc, Eab, <-app_assoc|].
      destruct b as [|y b _] using rev_ind; [apply app_inj_2 in Eab as [-> _]; done|]. rewrite app_comm_cons, app_assoc in Eab.
      apply app_inj_2 in Eab as [-> _]; [|done]. by apply Forall_app in Hpass as [? _]. }
    assert (t < length (ht_entries h))%nat as Hlt.
    { rewrite (hr_size _ _ Hr). pose proof (path_lt k) as Hl. rewrite Hpath' in Hl. apply Forall_app in Hl as [_ Hl]. by apply Forall_cons in Hl as [? _]. }
    apply lookup_lt_is_Some_2 in Hlt as [e He]. rewrite (key_at_lookup _ _ _ He) in Ht. pose proof (hr_len _ _ Hr) as Hlen.
    destruct Hk as [Hk1 Hk2]. pose proof (used_put h t e (mkEntry k v) len He Hk1) as Hu.
    exists (put t (mkEntry k v) len h). split; [rewrite (ht_insert_loop h m) by (done || lia); exact E|].
    split; [|rewrite Hu; destruct (decide _); lia].
    apply (place_rep h m k v t e a (b ++ post)); try done; [destruct Ht as [[-> _]|[-> _]]; intros [? ?]; done|].
    rewrite Hu. destruct Ht as [[_ ->]|[Hte ->]]; [lia|]. rewrite decide_True by done. lia.
Qed.

Lemma size_le_used h m : ht_rep h m -> (size m <= used_entries h)%nat.
Proof.
  intros Hr. set (ks := he_key <$> filter (λ e, he_key e ≠ HT_EMPTY) (ht_entries h)).
  assert (dom m ⊆ list_to_set ks) as Hs.
  { intros k [v Hk]%elem_of_dom. apply (hr_map _ _ Hr) in Hk as [[Hl _] [p Hp]]. apply elem_of_list_to_set, list_elem_of_fmap.
    exists (mkEntry k v). split; [done|]. apply list_elem_of_filter. split; [done|]. apply list_elem_of_lookup. eauto. }
  apply subseteq_size in Hs. rewrite size_dom in Hs. etrans; [exact Hs|]. unfold used_entries.
  rewrite <-(length_fmap he_key). fold ks. clear. induction ks as [|k ks IH]; [done|]. cbn [list_to_set length].
  rewrite size_union_alt, size_singleton. pose proof (subseteq_size (list_to_set ks ∖ {[k]}) (list_to_set ks : gset Z) ltac:(set_solver)). lia.
Qed.

(** Without an empty entry a key that is not stored is not inserted. *)
Lemma ht_insert_full h m k v : (0 < N)%nat -> ht_rep h m -> ht_live k -> m !! k = None -> used_entries h = N -> ht_insert h k v = (false, h).
Proof.
  intros HN Hr Hk Hm Hu. rewrite (ht_insert_loop h m) by done. apply insert_loop_full. pose proof (absent_path h m k Hr Hk Hm) as Habs.
  apply (path_no_empty h m k Hr) in Hu. fold (path k). rewrite Forall_forall in *. intros x Hx. split; auto.
Qed.
End table.

#[global] Arguments ht_get : simpl never.
#[global] Arguments ht_insert : simpl never.
#[global] Arguments ht_remove : simpl never.
