(* ===== verification/PageCache.v ===== *)
(** * PageCache.v: the unified page cache ([buffer/page_cache])

    128 slots hold pages of 4096 bytes; a hash table finds the slot of a page by
    device and sector, and a doubly linked list through the slots orders them by
    use.  Changed pages are written back by [flush] or when they are evicted.

    Slot numbers are [nat]; reading a slot past the array, which the invariants
    exclude, gives the empty slot.  Sector addresses do not reach 2^64.  In a run
    the outer [None] is a walk along the list that does not end; [Err] is a failing
    device. *)

From stdpp Require Import gmap.
From S2P Require Import Prelude Bytes BNode NeoDisk NeoDir NeoFile PageHash.
Open Scope Z_scope.

Definition CACHE_SIZE : nat := 128.

Definition page_key (dev_tag lba : Z) : Z := Z.lxor (u64 (Z.shiftl dev_tag 48)) (Z.land lba 0x0000FFFFFFFFFFFF).

Record CacheSlot := mkSlot {
  sl_valid : bool; sl_dirty : bool; sl_pending : bool; sl_lba : Z; sl_tag : Z; sl_sectors : Z; sl_inode : Z; sl_since : Z;
  sl_data : list Z; sl_prev : option nat; sl_next : option nat
}.
Definition EMPTY_SLOT : CacheSlot := mkSlot false false false 0 0 0 0 0 (replicate BLOCK_SIZE 0) None None.
#[global] Instance slot_inhabited : Inhabited CacheSlot := populate EMPTY_SLOT.

Record ReadaheadState := mkReadahead { ra_last : Z; ra_count : Z; ra_window : Z; ra_dir : Z }.
Definition EMPTY_READAHEAD : ReadaheadState := mkReadahead (-1) 0 4 0.

(** The counters that only [stats] reports. *)
Record Counters := mkCounters { ct_counter : Z; ct_hits : Z; ct_misses : Z; ct_evictions : Z; ct_flushes : Z; ct_ra_hits : Z }.

Record PgCache := mkCache {
  ca_slots : list CacheSlot; ca_hash : HashTable; ca_head : option nat; ca_tail : option nat;
  ca_readahead : list ReadaheadState; ca_counters : Counters; ca_dirty : Z
}.

Definition pc_new : PgCache :=
  mkCache (replicate CACHE_SIZE EMPTY_SLOT) (ht_new CACHE_SIZE) None None (replicate 64 EMPTY_READAHEAD) (mkCounters 0 0 0 0 0 0) 0.

Definition slot (c : PgCache) (i : nat) : CacheSlot := ca_slots c !!! i.
Definition set_slots (l : list CacheSlot) (c : PgCache) : PgCache :=
  mkCache l (ca_hash c) (ca_head c) (ca_tail c) (ca_readahead c) (ca_counters c) (ca_dirty c).
Definition set_hash (h : HashTable) (c : PgCache) : PgCache :=
  mkCache (ca_slots c) h (ca_head c) (ca_tail c) (ca_readahead c) (ca_counters c) (ca_dirty c).
Definition set_head (o : option nat) (c : PgCache) : PgCache :=
  mkCache (ca_slots c) (ca_hash c) o (ca_tail c) (ca_readahead c) (ca_counters c) (ca_dirty c).
Definition set_tail (o : option nat) (c : PgCache) : PgCache :=
  mkCache (ca_slots c) (ca_hash c) (ca_head c) o (ca_readahead c) (ca_counters c) (ca_dirty c).
Definition set_readahead (l : list ReadaheadState) (c : PgCache) : PgCache :=
  mkCache (ca_slots c) (ca_hash c) (ca_head c) (ca_tail c) l (ca_counters c) (ca_dirty c).
Definition count (f : Counters -> Counters) (c : PgCache) : PgCache :=
  mkCache (ca_slots c) (ca_hash c) (ca_head c) (ca_tail c) (ca_readahead c) (f (ca_counters c)) (ca_dirty c).
Definition set_dirty_count (n : Z) (c : PgCache) : PgCache :=
  mkCache (ca_slots c) (ca_hash c) (ca_head c) (ca_tail c) (ca_readahead c) (ca_counters c) n.
Definition on_slot (i : nat) (f : CacheSlot -> CacheSlot) (c : PgCache) : PgCache := set_slots (alter f i (ca_slots c)) c.

Definition tick (n : Counters) := mkCounters (u64 (ct_counter n + 1)) (ct_hits n) (ct_misses n) (ct_evictions n) (ct_flushes n) (ct_ra_hits n).
Definition hit (n : Counters) := mkCounters (ct_counter n) (u64 (ct_hits n + 1)) (ct_misses n) (ct_evictions n) (ct_flushes n) (ct_ra_hits n).
Definition miss (n : Counters) := mkCounters (ct_counter n) (ct_hits n) (u64 (ct_misses n + 1)) (ct_evictions n) (ct_flushes n) (ct_ra_hits n).
Definition evicted (n : Counters) := mkCounters (ct_counter n) (ct_hits n) (ct_misses n) (u64 (ct_evictions n + 1)) (ct_flushes n) (ct_ra_hits n).
Definition flushed (n : Counters) := mkCounters (ct_counter n) (ct_hits n) (ct_misses n) (ct_evictions n) (u64 (ct_flushes n + 1)) (ct_ra_hits n).

Definition with_links (prev next : option nat) (s : CacheSlot) : CacheSlot :=
  mkSlot (sl_valid s) (sl_dirty s) (sl_pending s) (sl_lba s) (sl_tag s) (sl_sectors s) (sl_inode s) (sl_since s) (sl_data s) prev next.
Definition with_next (next : option nat) (s : CacheSlot) : CacheSlot := with_links (sl_prev s) next s.
Definition with_prev (prev : option nat) (s : CacheSlot) : CacheSlot := with_links prev (sl_next s) s.
Definition with_dirty (dirty : bool) (sectors since : Z) (s : CacheSlot) : CacheSlot :=
  mkSlot (sl_valid s) dirty (sl_pending s) (sl_lba s) (sl_tag s) sectors (sl_inode s) since (sl_data s) (sl_prev s) (sl_next s).
Definition with_data (data : list Z) (s : CacheSlot) : CacheSlot :=
  mkSlot (sl_valid s) (sl_dirty s) (sl_pending s) (sl_lba s) (sl_tag s) (sl_sectors s) (sl_inode s) (sl_since s) data (sl_prev s) (sl_next s).

(** ** The list of slots by use *)

Definition unlink_lru (id : nat) (c : PgCache) : PgCache :=
  let prev := sl_prev (slot c id) in
  let next := sl_next (slot c id) in
  let c := match prev with
           | Some p => on_slot p (with_next next) c
           | None => if bool_decide (ca_head c = Some id) then set_head next c else c
           end in
  let c := match next with
           | Some n => on_slot n (with_prev prev) c
           | None => if bool_decide (ca_tail c = Some id) then set_tail prev c else c
           end in
  on_slot id (with_links None None) c.

Definition move_to_head (id : nat) (c : PgCache) : PgCache :=
  if bool_decide (ca_head c = Some id) then c
  else
    let c := unlink_lru id c in
    let c := on_slot id (with_links None (ca_head c)) c in
    let c := match ca_head c with Some old => on_slot old (with_prev (Some id)) c | None => c end in
    let c := set_head (Some id) c in
    match ca_tail c with None => set_tail (Some id) c | Some _ => c end.

(** The first clean slot from [cur] backwards. *)
Fixpoint find_clean (fuel : nat) (c : PgCache) (cur : option nat) : option (option nat) :=
  match cur with
  | None => Some None
  | Some id =>
      match fuel with
      | O => None
      | S fuel => if negb (sl_dirty (slot c id)) then Some (Some id) else find_clean fuel c (sl_prev (slot c id))
      end
  end.

(** ** Read-ahead statistics *)

Definition update_state (block : Z) (st : ReadaheadState) : ReadaheadState :=
  if ra_last st <? 0 then mkReadahead block 1 (ra_window st) 0
  else
    let diff := block - ra_last st in
    let again dir :=
      let n := u32 (ra_count st + 1) in
      mkReadahead block n (if ra_window st <=? n then Z.min (u32 (ra_window st * 2)) 32 else ra_window st) dir in
    if (diff =? 1) && ((ra_dir st =? 1) || (ra_dir st =? 0)) then again 1
    else if (diff =? -1) && ((ra_dir st =? -1) || (ra_dir st =? 0)) then again (-1)
    else if negb (diff =? 0) then mkReadahead block 1 4 (Z.sgn diff)
    else mkReadahead block (ra_count st) (ra_window st) (ra_dir st).

(** Every file shares the first entry. *)
Definition update_readahead (block : Z) (c : PgCache) : PgCache := set_readahead (alter (update_state block) 0%nat (ca_readahead c)) c.

Section cache.
Context {D : Type} `{BlockDevice D}.
Abbreviation St := (PgCache * D)%type.

(** ** Runs *)

Definition P (A : Type) : Type := St -> option (result () A * St).
#[global] Instance P_ret : MRet P := λ A a s, Some (Ok a, s).
#[global] Instance P_bind : MBind P := λ A B f m s,
  match m s with
  | None => None
  | Some (Err e, s) => Some (Err e, s)
  | Some (Ok a, s) => f a s
  end.
Definition fail {A} : P A := λ s, Some (Err (), s).
Definition getC : P PgCache := λ s, Some (Ok s.1, s).
Definition doC (f : PgCache -> PgCache) : P () := λ s, Some (Ok (), (f s.1, s.2)).
Definition doD {A} (f : D -> result () A * D) : P A := λ s, let '(r, d) := f s.2 in Some (r, (s.1, d)).

(** ** Writing back *)

(** The changed sectors of a page from sector [s] on, until one fails. *)
Fixpoint write_dirty (n s : nat) (lba dirty : Z) (data : list Z) (d : D) : bool * D :=
  match n with
  | O => (true, d)
  | S n =>
      if Z.testbit dirty (Z.of_nat s) then
        match write_sector d (lba + Z.of_nat s) (sub data (s * SECTOR_SIZE) SECTOR_SIZE) with
        | None => (false, d)
        | Some d => write_dirty n (s + 1) lba dirty data d
        end
      else write_dirty n (s + 1) lba dirty data d
  end.

(** The same, where failures are ignored. *)
Fixpoint write_dirty_all (n s : nat) (lba dirty : Z) (data : list Z) (d : D) : D :=
  match n with
  | O => d
  | S n =>
      if Z.testbit dirty (Z.of_nat s) then
        match write_sector d (lba + Z.of_nat s) (sub data (s * SECTOR_SIZE) SECTOR_SIZE) with
        | None => write_dirty_all n (s + 1) lba dirty data d
        | Some d => write_dirty_all n (s + 1) lba dirty data d
        end
      else write_dirty_all n (s + 1) lba dirty data d
  end.

(** ** Slots *)

Definition undirty (c : PgCache) : PgCache := set_dirty_count (sat_sub (ca_dirty c) 1) c.

(** Unlink the slot, forget its page and clear it. *)
Definition clear_slot (id : nat) (c : PgCache) : PgCache :=
  let key := page_key (sl_tag (slot c id)) (sl_lba (slot c id)) in
  let c := unlink_lru id c in
  on_slot id (λ _, EMPTY_SLOT) (set_hash (ht_remove CACHE_SIZE (ca_hash c) key).2 c).

Definition must_write (dev_tag : Z) (s : CacheSlot) : bool := sl_dirty s && negb (sl_pending s) && (sl_tag s =? dev_tag).

Definition evict_slot (id : nat) (dev_tag : Z) : P () := λ '(c, d),
  let s := slot c id in
  if negb (sl_valid s) then Some (Ok (), (c, d))
  else if must_write dev_tag s then Some (Ok (), (clear_slot id (undirty c), write_dirty_all 8 0 (sl_lba s) (sl_sectors s) (sl_data s) d))
  else Some (Ok (), (clear_slot id c, d)).

Definition evict_lru (dev_tag : Z) : P nat := λ '(c, d),
  match list_find (λ s, sl_valid s = false) (ca_slots c) with
  | Some (i, _) => Some (Ok i, (c, d))
  | None =>
      victim ← find_clean CACHE_SIZE c (ca_tail c);
      let id := match victim with Some id => id | None => default 0%nat (ca_tail c) end in
      let s := slot c id in
      let d := if must_write dev_tag s then write_dirty_all 8 0 (sl_lba s) (sl_sectors s) (sl_data s) d else d in
      let c := if sl_dirty s then undirty c else c in
      Some (Ok id, (clear_slot id (count evicted c), d))
  end.

Definition populate_slot (id : nat) (lba dev_tag inode_key : Z) : P () := λ '(c, d),
  match read_sectors d lba 8 with
  | None => Some (Err (), (c, d))
  | Some data =>
      let c := on_slot id (λ _, mkSlot true false false lba dev_tag 0 inode_key 0 data None None) c in
      let c := set_hash (ht_insert CACHE_SIZE (ca_hash c) (page_key dev_tag lba) id).2 c in
      Some (Ok (), (move_to_head id c, d))
  end.

(** The slot that has the page, if the table knows one. *)
Definition cached (c : PgCache) (dev_tag lba : Z) : option nat := ht_get CACHE_SIZE (ca_hash c) (page_key dev_tag lba).
Definition usable (c : PgCache) (dev_tag : Z) (id : nat) : bool := sl_valid (slot c id) && (sl_tag (slot c id) =? dev_tag).

Definition refill (lba dev_tag inode_key : Z) : P nat :=
  id ← evict_lru dev_tag; _ ← populate_slot id lba dev_tag inode_key; mret id.

(** [load_page] and [get_or_load_slot]. *)
Definition get_or_load_slot (lba dev_tag inode_key : Z) : P nat :=
  _ ← doC (count tick);
  c ← getC;
  match cached c dev_tag lba with
  | Some id =>
      if usable c dev_tag id then _ ← doC (move_to_head id ∘ count hit); mret id
      else _ ← evict_slot id dev_tag; _ ← doC (count miss); refill lba dev_tag inode_key
  | None => _ ← doC (count miss); refill lba dev_tag inode_key
  end.

(** ** Sectors *)

Definition page_of (lba : Z) : Z := Z.ldiff lba 7.
Definition offset_of (lba : Z) : nat := (Z.to_nat (Z.land lba 7) * SECTOR_SIZE)%nat.

(** Sectors change, and the page becomes dirty if it was not. *)
Definition mark (sectors : Z) (id : nat) (c : PgCache) : PgCache :=
  let s := slot c id in
  if sl_dirty s then on_slot id (with_dirty true sectors (sl_since s)) c
  else set_dirty_count (u16 (ca_dirty c + 1)) (on_slot id (with_dirty true sectors (ct_counter (ca_counters c))) c).

Definition get_sector (lba dev_tag : Z) : P (list Z) :=
  id ← get_or_load_slot (page_of lba) dev_tag 0;
  c ← getC;
  mret (sub (sl_data (slot c id)) (offset_of lba) SECTOR_SIZE).

(** [get_sector_mut], and what the caller does with the sector. *)
Definition change_sector (lba dev_tag : Z) (g : list Z -> list Z) : P () :=
  id ← get_or_load_slot (page_of lba) dev_tag 0;
  doC (λ c,
    let c := mark (Z.lor (sl_sectors (slot c id)) (Z.shiftl 1 (Z.land lba 7))) id c in
    let data := sl_data (slot c id) in
    on_slot id (with_data (overwrite data (offset_of lba) (g (sub data (offset_of lba) SECTOR_SIZE)))) c).

Definition mark_dirty_sector (lba dev_tag : Z) (c : PgCache) : PgCache :=
  match cached c dev_tag (page_of lba) with
  | Some id => if sl_valid (slot c id) then mark (Z.lor (sl_sectors (slot c id)) (Z.shiftl 1 (Z.land lba 7))) id c else c
  | None => c
  end.

(** ** Pages *)

Definition pc_read_page (drive_id inode block data_lba dev_tag : Z) : P (list Z) :=
  _ ← doC (count tick);
  c ← getC;
  let fresh := refill data_lba dev_tag (make_inode_key drive_id inode block) in
  id ← match cached c dev_tag data_lba with
       | Some id =>
           if usable c dev_tag id then _ ← doC (update_readahead block ∘ move_to_head id ∘ count hit); mret id
           else _ ← doC (count miss); _ ← evict_slot id dev_tag; fresh
       | None => _ ← doC (count miss); fresh
       end;
  _ ← doC (update_readahead block);
  c ← getC;
  mret (sl_data (slot c id)).

(** [get_page_mut], and what the caller does with the page. *)
Definition pc_change_page (drive_id inode block data_lba dev_tag : Z) (g : list Z -> list Z) : P () :=
  _ ← doC (count tick);
  c ← getC;
  let fresh := refill data_lba dev_tag (make_inode_key drive_id inode block) in
  id ← match cached c dev_tag data_lba with
       | Some id =>
           if usable c dev_tag id then _ ← doC (move_to_head id ∘ count hit); mret id
           else _ ← doC (count miss); _ ← evict_slot id dev_tag; fresh
       | None => _ ← doC (count miss); fresh
       end;
  doC (λ c,
    let c := mark 0xFF id (update_readahead block c) in
    on_slot id (with_data (g (sl_data (slot c id)))) c).

Definition peek (c : PgCache) (dev_tag lba : Z) : option (list Z) :=
  match cached c dev_tag lba with
  | Some id => if sl_valid (slot c id) then Some (sl_data (slot c id)) else None
  | None => None
  end.

Definition has_inode (key : Z) (s : CacheSlot) : Prop := sl_valid s = true /\ sl_inode s = key.
#[global] Instance has_inode_dec key s : Decision (has_inode key s) := _.

Definition peek_inode (c : PgCache) (drive_id inode block : Z) : option (list Z) :=
  sl_data ∘ snd <$> list_find (has_inode (make_inode_key drive_id inode block)) (ca_slots c).
Definition mark_dirty (drive_id inode block : Z) (c : PgCache) : PgCache :=
  match list_find (has_inode (make_inode_key drive_id inode block)) (ca_slots c) with
  | Some (id, _) => mark 0xFF id c
  | None => c
  end.

(** ** Flushing *)

Definition owned_by (dev_tag : Z) (s : CacheSlot) : bool := sl_tag s =? dev_tag.
(** The drive and the inode in a slot's key. *)
Definition of_inode (drive_id inode : Z) (s : CacheSlot) : bool :=
  negb (sl_inode s =? 0) && (u8 (Z.shiftr (sl_inode s) 56) =? drive_id)
  && (Z.land (u32 (Z.shiftr (sl_inode s) 32)) 0x00FFFFFF =? inode).

Definition written (id : nat) (c : PgCache) : PgCache :=
  count flushed (undirty (on_slot id (λ s, with_dirty false 0 (sl_since s) s) c)).

(** The slots [i .. i + n) that are dirty and selected, until a sector fails. *)
Fixpoint flush_loop (sel : CacheSlot -> bool) (n i : nat) : P () :=
  match n with
  | O => mret ()
  | S n => λ '(c, d),
      let s := slot c i in
      if sl_valid s && sl_dirty s && negb (sl_pending s) && sel s then
        let '(ok, d) := write_dirty 8 0 (sl_lba s) (sl_sectors s) (sl_data s) d in
        if ok then flush_loop sel n (i + 1) (written i c, d) else Some (Err (), (c, d))
      else flush_loop sel n (i + 1) (c, d)
  end.

Definition flush (dev_tag : Z) : P () := flush_loop (owned_by dev_tag) CACHE_SIZE 0.
Definition flush_inode (dev_tag drive_id inode : Z) : P () :=
  flush_loop (λ s, owned_by dev_tag s && of_inode drive_id inode s) CACHE_SIZE 0.

(** At most [max] pages; a page that cannot be written stays dirty. *)
Fixpoint batch_loop (dev_tag : Z) (max n i done : nat) : P nat :=
  match n with
  | O => mret done
  | S n => λ '(c, d),
      let s := slot c i in
      if (max <=? done)%nat then Some (Ok done, (c, d))
      else if sl_valid s && sl_dirty s && negb (sl_pending s) && owned_by dev_tag s then
        let '(ok, d) := write_dirty 8 0 (sl_lba s) (sl_sectors s) (sl_data s) d in
        if ok then batch_loop dev_tag max n (i + 1) (done + 1) (written i c, d)
        else batch_loop dev_tag max n (i + 1) done (c, d)
      else batch_loop dev_tag max n (i + 1) done (c, d)
  end.
Definition flush_batch (dev_tag : Z) (max : nat) : P nat := batch_loop dev_tag max CACHE_SIZE 0 0.

Definition needs_async_flush (c : PgCache) : bool := 12 <=? ca_dirty c.
End cache.

(** ** Invalidation *)

Definition drop_slot (i : nat) (c : PgCache) : PgCache :=
  clear_slot i (if sl_dirty (slot c i) then undirty c else c).

(** The slots [i .. i + n) that are valid and selected; a slot that was dropped is
    not valid any more. *)
Fixpoint drop_loop (sel : CacheSlot -> bool) (n i : nat) (c : PgCache) : PgCache :=
  match n with
  | O => c
  | S n => drop_loop sel n (i + 1) (if sl_valid (slot c i) && sel (slot c i) then drop_slot i c else c)
  end.

Definition invalidate_inode (drive_id inode : Z) (c : PgCache) : PgCache := drop_loop (of_inode drive_id inode) CACHE_SIZE 0 c.
Definition in_pages (start_lba end_lba : Z) (s : CacheSlot) : bool :=
  (Z.ldiff start_lba 7 <=? sl_lba s) && (sl_lba s <=? Z.ldiff (sat_sub end_lba 1) 7).
Definition pc_invalidate_range (start_lba end_lba : Z) (c : PgCache) : PgCache := drop_loop (in_pages start_lba end_lba) CACHE_SIZE 0 c.
Definition invalidate_device (dev_tag : Z) (c : PgCache) : PgCache := drop_loop (owned_by dev_tag) CACHE_SIZE 0 c.

(** ** Statistics *)

Record CacheStats := mkStats {
  st_counters : Counters; st_entries : nat; st_dirty : nat; st_pending : nat; st_table : nat; st_capacity : nat
}.
Definition entry_count (c : PgCache) : nat := ht_len (ca_hash c).
Definition stats (c : PgCache) : CacheStats :=
  let valid := filter (λ s, sl_valid s = true) (ca_slots c) in
  mkStats (ca_counters c) (length valid) (length (filter (λ s, sl_dirty s = true) valid))
    (length (filter (λ s, sl_pending s = true) valid)) (entry_count c) CACHE_SIZE.
Definition pending_write_count (c : PgCache) : nat := length (filter (λ s, sl_pending s = true) (ca_slots c)).
