(* ===== verification/PageLru.v ===== *)
(** * PageLru.v: the use order of the page cache

    The links of the slots represent a list of slot numbers, most recently used
    first; unlinking, moving to the front and the search for a clean slot are the
    operations on that list. *)

From stdpp Require Import gmap.
From S2P Require Import Prelude Bytes BNode NeoDisk NeoDir NeoFile PageHash PageCache.
Open Scope Z_scope.

(** A slot without its links. *)
Definition payload (s : CacheSlot) : CacheSlot := with_links None None s.

Lemma slot_on_slot i f c j : slot (on_slot i f c) j = if decide (j = i /\ (i < length (ca_slots c))%nat) then f (slot c i) else slot c j.
Proof.
  unfold slot, on_slot. cbn [set_slots ca_slots]. rewrite !list_lookup_total_alt. destruct (decide _) as [[-> Hi]|Hn].
  - rewrite list_lookup_alter_eq. by destruct (lookup_lt_is_Some_2 _ _ Hi) as [s ->].
  - destruct (decide (j = i)) as [->|Hne]; [|by rewrite list_lookup_alter_ne]. rewrite list_lookup_alter_eq.
    rewrite lookup_ge_None_2; [done|]. destruct (decide (length (ca_slots c) <= i)%nat); [done|]. exfalso. apply Hn. split; [done|lia].
Qed.

Lemma length_on_slot i f c : length (ca_slots (on_slot i f c)) = length (ca_slots c).
Proof. apply length_alter. Qed.

(** The slots in [ids] are linked in that order, and no others are linked. *)
Record lru_rep (c : PgCache) (ids : list nat) : Prop := {
  lr_nodup : NoDup ids;
  lr_range : Forall (λ i, i < length (ca_slots c))%nat ids;
  lr_head : ca_head c = head ids;
  lr_tail : ca_tail c = last ids;
  lr_links a id b : ids = a ++ id :: b -> sl_prev (slot c id) = last a /\ sl_next (slot c id) = head b;
  lr_free id : id ∉ ids -> sl_prev (slot c id) = None /\ sl_next (slot c id) = None;
}.

Lemma pc_new_lru : lru_rep pc_new [].
Proof.
  constructor; try done; [constructor|by intros [] ? ?|]. intros id _. unfold slot. cbn [pc_new ca_slots].
  rewrite list_lookup_total_alt. destruct (replicate CACHE_SIZE EMPTY_SLOT !! id) eqn:E; [|done]. by apply lookup_replicate in E as [-> _].
Qed.

(** Changes that keep the links. *)
Lemma lru_rep_same c c' ids : lru_rep c ids -> length (ca_slots c') = length (ca_slots c) -> ca_head c' = ca_head c -> ca_tail c' = ca_tail c ->
  (forall i, sl_prev (slot c' i) = sl_prev (slot c i) /\ sl_next (slot c' i) = sl_next (slot c i)) -> lru_rep c' ids.
Proof.
  intros [H1 H2 H3 H4 H5 H6] Hl Hh Ht Hs. constructor; try done; rewrite ?Hl, ?Hh, ?Ht; try done.
  - intros a id b E. destruct (Hs id) as [-> ->]. by apply H5.
  - intros id Hid. destruct (Hs id) as [-> ->]. by apply H6.
Qed.

Lemma unlink_frame id c : length (ca_slots (unlink_lru id c)) = length (ca_slots c) /\ ca_hash (unlink_lru id c) = ca_hash c /\
  ca_dirty (unlink_lru id c) = ca_dirty c /\ ca_counters (unlink_lru id c) = ca_counters c /\
  forall j, payload (slot (unlink_lru id c) j) = payload (slot c j).
Proof.
  unfold unlink_lru. set (p := sl_prev (slot c id)). set (n := sl_next (slot c id)). clearbody p n.
  assert (forall i f c0, (forall s, payload (f s) = payload s) -> (forall j, payload (slot c0 j) = payload (slot c j)) ->
    forall j, payload (slot (on_slot i f c0) j) = payload (slot c j)) as Hon.
  { intros i f c0 Hf Hc j. rewrite slot_on_slot. destruct (decide _) as [[-> _]|]; [by rewrite Hf|done]. }
  set (c1 := match p with Some p => on_slot p (with_next n) c | None => if bool_decide (ca_head c = Some id) then set_head n c else c end).
  assert (length (ca_slots c1) = length (ca_slots c) /\ ca_hash c1 = ca_hash c /\ ca_dirty c1 = ca_dirty c /\ ca_counters c1 = ca_counters c /\
    forall j, payload (slot c1 j) = payload (slot c j)) as (L1 & H1 & D1 & C1 & P1).
  { unfold c1. destruct p as [p|]; [|by destruct (bool_decide _)]. split; [apply length_on_slot|]. split_and!; try done. by apply Hon. }
  clearbody c1.
  set (c2 := match n with Some n => on_slot n (with_prev p) c1 | None => if bool_decide (ca_tail c1 = Some id) then set_tail p c1 else c1 end).
  assert (length (ca_slots c2) = length (ca_slots c) /\ ca_hash c2 = ca_hash c /\ ca_dirty c2 = ca_dirty c /\ ca_counters c2 = ca_counters c /\
    forall j, payload (slot c2 j) = payload (slot c j)) as (L2 & H2 & D2 & C2 & P2).
  { unfold c2. destruct n as [n|]; [|by destruct (bool_decide _)]. split; [by rewrite length_on_slot|]. split_and!; try done. by apply Hon. }
  clearbody c2. split; [by rewrite length_on_slot|]. split_and!; try done. by apply Hon.
Qed.

Lemma last_app_cons {A} (a : list A) x b : last (a ++ x :: b) = last (x :: b).
Proof. rewrite last_app. by destruct (last (x :: b)) eqn:E; [|apply last_None in E]. Qed.

Lemma head_app_cons {A} (a : list A) x b : head (a ++ x :: b) = head (a ++ [x]).
Proof. by destruct a. Qed.

(** The links after [unlink_lru]. *)
Lemma unlink_links c id : let p := sl_prev (slot c id) in let n := sl_next (slot c id) in let c' := unlink_lru id c in
  (id < length (ca_slots c))%nat -> (forall x, p = Some x \/ n = Some x -> (x < length (ca_slots c))%nat /\ x ≠ id) ->
  ca_head c' = (if decide (p = None /\ ca_head c = Some id) then n else ca_head c) /\
  ca_tail c' = (if decide (n = None /\ ca_tail c = Some id) then p else ca_tail c) /\
  (forall j, sl_prev (slot c' j) = if decide (j = id) then None else if decide (n = Some j) then p else sl_prev (slot c j)) /\
  (forall j, sl_next (slot c' j) = if decide (j = id) then None else if decide (p = Some j) then n else sl_next (slot c j)).
Proof.
  cbn zeta. unfold unlink_lru. set (p := sl_prev (slot c id)). set (n := sl_next (slot c id)). clearbody p n. intros Hid Hr.
  assert (forall x, p = Some x -> (x < length (ca_slots c))%nat /\ x ≠ id) as Hp by auto.
  assert (forall x, n = Some x -> (x < length (ca_slots c))%nat /\ x ≠ id) as Hn by auto. clear Hr.
  set (c1 := match p with Some p => on_slot p (with_next n) c | None => if bool_decide (ca_head c = Some id) then set_head n c else c end).
  assert (length (ca_slots c1) = length (ca_slots c) /\ ca_tail c1 = ca_tail c /\ ca_head c1 = (if decide (p = None /\ ca_head c = Some id) then n else ca_head c) /\
    (forall j, sl_prev (slot c1 j) = sl_prev (slot c j)) /\
    forall j, sl_next (slot c1 j) = if decide (p = Some j) then n else sl_next (slot c j)) as (L1 & T1 & H1 & P1 & N1).
  { unfold c1. destruct p as [p|].
    - destruct (Hp p eq_refl) as [Hlt _]. split; [apply length_on_slot|]. split; [done|]. split; [by rewrite decide_False by (by intros [])|].
      split; intros j; rewrite slot_on_slot; destruct (decide (j = p /\ _)) as [[-> _]|Hne]; try done; cbn.
      + by rewrite decide_True.
      + rewrite decide_False; [done|]. intros [= ->]. tauto.
    - case_bool_decide as E; [rewrite decide_True by done|rewrite decide_False by tauto]; split_and!; try done; intros j; by rewrite decide_False. }
  clearbody c1.
  set (c2 := match n with Some n => on_slot n (with_prev p) c1 | None => if bool_decide (ca_tail c1 = Some id) then set_tail p c1 else c1 end).
  assert (length (ca_slots c2) = length (ca_slots c) /\ ca_head c2 = ca_head c1 /\ ca_tail c2 = (if decide (n = None /\ ca_tail c = Some id) then p else ca_tail c) /\
    (forall j, sl_prev (slot c2 j) = if decide (n = Some j) then p else sl_prev (slot c j)) /\
    forall j, sl_next (slot c2 j) = sl_next (slot c1 j)) as (L2 & H2 & T2 & P2 & N2).
  { unfold c2. destruct n as [n|].
    - destruct (Hn n eq_refl) as [Hlt _]. split; [by rewrite length_on_slot|]. split; [done|]. split; [by rewrite decide_False by (by intros [])|].
      split; intros j; rewrite slot_on_slot; destruct (decide (j = n /\ _)) as [[-> _]|Hne]; try done; cbn.
      + by rewrite decide_True.
      + rewrite decide_False; [apply P1|]. intros [= ->]. rewrite L1 in Hne. tauto.
    - rewrite T1. case_bool_decide as E; [rewrite decide_True by done|rewrite decide_False by tauto]; split_and!; try done; intros j; by rewrite decide_False. }
  clearbody c2. split; [by rewrite <-H1|]. split; [done|].
  split; intros j; rewrite slot_on_slot; destruct (decide (j = id /\ _)) as [[-> _]|Hne]; cbn; try (by rewrite decide_True); rewrite decide_False by (rewrite L2 in Hne; tauto).
  - apply P2.
  - by rewrite N2, N1.
Qed.

Lemma filter_out_middle {A} `{EqDecision A} (a b : list A) x : NoDup (a ++ x :: b) -> filter (λ y, y ≠ x) (a ++ x :: b) = a ++ b.
Proof.
  intros (Ha & Hd & Hb)%NoDup_app. apply NoDup_cons in Hb as [Hx Hb]. rewrite filter_app, filter_cons, decide_False by tauto.
  rewrite !filter_all; [done| |]; intros y Hy ->; [done|]. apply (Hd x Hy). by left.
Qed.

(** Unlinking removes the slot from the list. *)
Lemma lru_unlink c ids id : lru_rep c ids -> (id < length (ca_slots c))%nat -> lru_rep (unlink_lru id c) (filter (λ y, y ≠ id) ids).
Proof.
  intros Hr Hid. destruct (unlink_frame id c) as (Hlen & _). pose proof (unlink_links c id) as Hl. cbn zeta in Hl. destruct (decide (id ∈ ids)) as [Hin|Hnin].
  - apply list_elem_of_split in Hin as (a & b & ->). pose proof (lr_nodup _ _ Hr) as Hnd. rewrite filter_out_middle by done.
    destruct (lr_links _ _ Hr a id b eq_refl) as [Hp Hn]. rewrite Hp, Hn in Hl. pose proof (lr_range _ _ Hr) as Hran.
    pose proof Hnd as (NDa & Hd & NDb)%NoDup_app. apply NoDup_cons in NDb as [Hb NDb].
    apply Forall_app in Hran as [Ra [_ Rb]%Forall_cons].
    assert (id ∉ a) as Ha by (intros Hx; apply (Hd id Hx); by left).
    destruct Hl as (Hh & Ht & Hprev & Hnext); [done| |].
    { intros x [Hx|Hx].
      - apply last_Some_elem_of in Hx. rewrite Forall_forall in Ra. split; [by apply Ra|]. by intros ->.
      - apply head_Some_elem_of in Hx. rewrite Forall_forall in Rb. split; [by apply Rb|]. by intros ->. }
    constructor.
    + apply NoDup_app. split_and!; [done| |done]. intros x Hx Hy. apply (Hd x Hx). by right.
    + rewrite Hlen. by apply Forall_app.
    + rewrite Hh, (lr_head _ _ Hr). destruct a as [|x a]; cbn; [by rewrite decide_True|]. rewrite decide_False; [done|]. intros [? [= ->]]. apply Ha. by left.
    + rewrite Ht, (lr_tail _ _ Hr), last_app_cons. destruct b as [|y b]; cbn [head]; [by rewrite app_nil_r, decide_True|].
      rewrite decide_False by (by intros []). by rewrite last_app_cons.
    + intros x j y E. assert (j ∈ a ++ b) as Hj by (rewrite E; set_solver). assert (j ≠ id) as Hne by (intros ->; set_solver).
      rewrite Hprev, Hnext, !(decide_False (P := j = id)) by done.
      apply app_eq_inv in E as [(k & -> & E)|(k & -> & E)].
      * destruct k as [|k0 k]; cbn in E.
        -- rewrite app_nil_r in *. subst b. destruct (lr_links _ _ Hr (x ++ [id]) j y) as [_ ->]; [by rewrite <-app_assoc|].
           cbn [head]. rewrite decide_True by done. split; [done|]. rewrite decide_False; [done|]. intros Hx%last_Some_elem_of. apply (Hd j Hx). set_solver.
        -- injection E as <- ->. destruct (lr_links _ _ Hr x j (k ++ id :: b)) as [-> ->]; [by rewrite <-app_assoc|].
           rewrite decide_False by (intros Hx%head_Some_elem_of; apply (Hd j); set_solver). split; [done|].
           rewrite last_app_cons. destruct k as [|z k]; [by rewrite decide_True|]. rewrite decide_False; [done|].
           rewrite last_cons_cons. intros Hx%last_Some_elem_of. apply NoDup_app in NDa as (_ & _ & NDa). apply NoDup_cons in NDa as [NDa _]. apply NDa, Hx.
      * subst b. destruct (lr_links _ _ Hr (a ++ id :: k) j y) as [-> ->]; [by rewrite <-app_assoc|].
        assert (last a ≠ Some j) by (intros Hx%last_Some_elem_of; apply (Hd j Hx); set_solver). rewrite (decide_False (P := last a = _)) by done. split; [|done].
        destruct k as [|z k]; cbn [head app].
        -- rewrite decide_True by done. by rewrite app_nil_r.
        -- rewrite decide_False; [by rewrite !last_app_cons|]. intros [= ->]. apply NoDup_cons in NDb as [NDb _]. apply NDb. set_solver.
    + intros j Hj. rewrite Hprev, Hnext. destruct (decide (j = id)); [done|].
      rewrite !decide_False by (intros Hx; [apply last_Some_elem_of in Hx || apply head_Some_elem_of in Hx]; set_solver).
      apply (lr_free _ _ Hr). set_solver.
  - rewrite filter_all by (intros x Hx ->; done). destruct (lr_free _ _ Hr id Hnin) as [Hp Hn]. rewrite Hp, Hn in Hl.
    destruct Hl as (Hh & Ht & Hprev & Hnext); [done|by intros x [|]|]. apply (lru_rep_same c); try done.
    + rewrite Hh, decide_False; [done|]. intros [_ Hx]. rewrite (lr_head _ _ Hr) in Hx. by apply head_Some_elem_of in Hx.
    + rewrite Ht, decide_False; [done|]. intros [_ Hx]. rewrite (lr_tail _ _ Hr) in Hx. by apply last_Some_elem_of in Hx.
    + intros i. rewrite Hprev, Hnext. destruct (decide (i = id)) as [->|]; [by rewrite Hp, Hn|]. by rewrite !decide_False.
Qed.

(** [move_to_head] after the slot was unlinked. *)
Definition push_front (id : nat) (c : PgCache) : PgCache :=
  let c := on_slot id (with_links None (ca_head c)) c in
  let c := match ca_head c with Some old => on_slot old (with_prev (Some id)) c | None => c end in
  let c := set_head (Some id) c in
  match ca_tail c with None => set_tail (Some id) c | Some _ => c end.

Lemma push_front_frame id c : length (ca_slots (push_front id c)) = length (ca_slots c) /\ ca_hash (push_front id c) = ca_hash c /\
  ca_dirty (push_front id c) = ca_dirty c /\ ca_counters (push_front id c) = ca_counters c /\
  forall j, payload (slot (push_front id c) j) = payload (slot c j).
Proof.
  unfold push_front. set (c1 := on_slot id (with_links None (ca_head c)) c).
  assert (length (ca_slots c1) = length (ca_slots c)) as L1 by apply length_on_slot.
  assert (forall j, payload (slot c1 j) = payload (slot c j)) as P1.
  { intros j. unfold c1. rewrite slot_on_slot. by destruct (decide _) as [[-> _]|]. }
  set (c2 := match ca_head c1 with Some old => on_slot old (with_prev (Some id)) c1 | None => c1 end).
  assert (length (ca_slots c2) = length (ca_slots c) /\ ca_hash c2 = ca_hash c /\ ca_dirty c2 = ca_dirty c /\ ca_counters c2 = ca_counters c /\
    forall j, payload (slot c2 j) = payload (slot c j)) as Hc2.
  { unfold c2. destruct (ca_head c1) as [old|]; [|done]. split; [by rewrite length_on_slot|]. split_and!; try done.
    intros j. rewrite slot_on_slot. destruct (decide _) as [[-> _]|]; apply P1. }
  clearbody c2. by destruct (ca_tail (set_head (Some id) c2)).
Qed.

Lemma lru_push_front c ids id : lru_rep c ids -> id ∉ ids -> (id < length (ca_slots c))%nat -> lru_rep (push_front id c) (id :: ids).
Proof.
  intros Hr Hnin Hid. destruct (push_front_frame id c) as (Hlen & _).
  assert (ca_head (push_front id c) = Some id) as Hh by (unfold push_front; by destruct (ca_tail _)).
  assert (ca_tail (push_front id c) = match ca_tail c with None => Some id | o => o end) as Ht.
  { unfold push_front. cbn [on_slot set_slots ca_head]. destruct (ca_head c); cbn [set_head on_slot set_slots ca_tail]; destruct (ca_tail c) eqn:E; done. }
  assert (forall j, slot (push_front id c) j = slot match ca_head c with Some old => on_slot old (with_prev (Some id)) (on_slot id (with_links None (ca_head c)) c)
    | None => on_slot id (with_links None (ca_head c)) c end j) as Hs.
  { intros j. unfold push_front. cbn [on_slot set_slots ca_head]. destruct (ca_head c); by destruct (ca_tail (set_head _ _)). }
  pose proof (lr_range _ _ Hr) as Hran. rewrite Forall_forall in Hran. pose proof (lr_nodup _ _ Hr) as Hnd.
  assert (forall j, sl_prev (slot (push_front id c) j) = if decide (j = id) then None else if decide (ca_head c = Some j) then Some id else sl_prev (slot c j)) as Hp.
  { intros j. rewrite Hs. destruct (ca_head c) as [old|] eqn:Eh.
    - assert (old ∈ ids) as Ho by (rewrite (lr_head _ _ Hr) in Eh; by apply head_Some_elem_of in Eh). pose proof (Hran old Ho).
      rewrite slot_on_slot, length_on_slot. destruct (decide (j = old /\ _)) as [[-> _]|Hne].
      + cbn. rewrite decide_False by (by intros ->). by rewrite decide_True.
      + rewrite slot_on_slot. destruct (decide (j = id /\ _)) as [[-> _]|Hne2]; [by rewrite decide_True|].
        rewrite decide_False by tauto. rewrite decide_False; [done|]. intros [= ->]. tauto.
    - rewrite slot_on_slot. destruct (decide (j = id /\ _)) as [[-> _]|Hne2]; [by rewrite decide_True|]. by rewrite decide_False by tauto. }
  assert (forall j, sl_next (slot (push_front id c) j) = if decide (j = id) then ca_head c else sl_next (slot c j)) as Hn.
  { intros j. rewrite Hs. destruct (ca_head c) as [old|] eqn:Eh; rewrite !slot_on_slot, ?length_on_slot.
    - destruct (decide (j = old /\ _)) as [[-> _]|]; cbn; destruct (decide (_ = id /\ _)) as [[-> _]|]; cbn; try (by rewrite decide_True); by rewrite decide_False by tauto.
    - destruct (decide (j = id /\ _)) as [[-> _]|]; cbn; [by rewrite decide_True|by rewrite decide_False by tauto]. }
  constructor.
  - by apply NoDup_cons.
  - rewrite Hlen. constructor; [done|]. by apply Forall_forall.
  - by rewrite Hh.
  - rewrite Ht, (lr_tail _ _ Hr), last_cons. by destruct (last ids).
  - intros a j b E. destruct a as [|x a]; injection E as <- E.
    + rewrite Hp, Hn, !decide_True by done. rewrite (lr_head _ _ Hr). by rewrite E.
    + destruct (lr_links _ _ Hr a j b E) as [Hpj Hnj]. rewrite Hp, Hn, (lr_head _ _ Hr), E. assert (j ≠ id) by (intros ->; apply Hnin; rewrite E; set_solver).
      rewrite !(decide_False (P := j = id)) by done. split; [|done]. destruct a as [|y a]; cbn [app head]; [by rewrite decide_True|].
      rewrite decide_False; [by rewrite last_cons_cons|]. intros [= ->]. rewrite E in Hnd. apply NoDup_cons in Hnd as [Hnd _]. set_solver.
  - intros j Hj. apply not_elem_of_cons in Hj as [Hne Hj]. rewrite Hp, Hn, !(decide_False (P := j = id)) by done. rewrite decide_False; [by apply (lr_free _ _ Hr)|].
    rewrite (lr_head _ _ Hr). intros Hx%head_Some_elem_of. done.
Qed.

Lemma move_to_head_eq id c : move_to_head id c = if bool_decide (ca_head c = Some id) then c else push_front id (unlink_lru id c).
Proof. reflexivity. Qed.

Lemma move_to_head_frame id c : length (ca_slots (move_to_head id c)) = length (ca_slots c) /\ ca_hash (move_to_head id c) = ca_hash c /\
  ca_dirty (move_to_head id c) = ca_dirty c /\ ca_counters (move_to_head id c) = ca_counters c /\
  forall j, payload (slot (move_to_head id c) j) = payload (slot c j).
Proof.
  rewrite move_to_head_eq. case_bool_decide; [done|].
  destruct (push_front_frame id (unlink_lru id c)) as (-> & -> & -> & -> & Hp). destruct (unlink_frame id c) as (-> & -> & -> & -> & Hu).
  split_and!; try done. intros j. by rewrite Hp.
Qed.

(** Moving to the head makes the slot the first of the list. *)
Lemma lru_move c ids id : lru_rep c ids -> (id < length (ca_slots c))%nat -> lru_rep (move_to_head id c) (id :: filter (λ y, y ≠ id) ids).
Proof.
  intros Hr Hid. rewrite move_to_head_eq. case_bool_decide as E.
  - rewrite (lr_head _ _ Hr) in E. destruct ids as [|x ids]; [done|]. injection E as ->. pose proof (lr_nodup _ _ Hr) as Hnd.
    pose proof (filter_out_middle [] ids id Hnd) as Ef. cbn [app] in Ef. by rewrite Ef.
  - apply lru_push_front; [by apply lru_unlink| |].
    + intros [? _]%list_elem_of_filter. done.
    + by destruct (unlink_frame id c) as (-> & _).
Qed.

(** The search ends, and finds the last clean slot of the list. *)
Lemma find_clean_spec c ids a b fuel : lru_rep c ids -> ids = a ++ b -> (length a <= fuel)%nat ->
  find_clean fuel c (last a) = Some (last (filter (λ i, sl_dirty (slot c i) = false) a)).
Proof.
  intros Hr. revert b fuel. induction a as [|x a IH] using rev_ind; intros b fuel Hids Hf; [by destruct fuel|].
  rewrite last_snoc, filter_app, filter_cons, filter_nil. rewrite length_app in Hf. cbn [length] in Hf. destruct fuel as [|fuel]; [lia|]. cbn [find_clean].
  destruct (sl_dirty (slot c x)) eqn:E; cbn [negb].
  - rewrite decide_False by done. rewrite app_nil_r. destruct (lr_links _ _ Hr a x b) as [-> _]; [by rewrite Hids, <-app_assoc|].
    apply (IH (x :: b)); [by rewrite Hids, <-app_assoc|lia].
  - rewrite decide_True by done. by rewrite last_snoc.
Qed.
