(* ===== verification/PageCacheOk.v ===== *)
(** * PageCacheOk.v: coherence of the page cache

    The pages a device has, as seen through the cache, are a store of pages: a page
    that is cached reads as its slot, every other as the device.  Reading, changing,
    flushing, evicting and invalidating are proved against that view for one device
    and pages that do not overlap, as long as the hash table has an empty entry
    left; with none left, a page that is loaded is not found again. *)

From stdpp Require Import gmap.
From S2P Require Import Prelude Bytes BNode NeoDisk NeoDir NeoFile PageHash PageCache PageLru.
Open Scope Z_scope.

(** ** Keys *)

Lemma page_key_low tag l : 0 <= l < 2 ^ 48 -> Z.land (page_key tag l) (2 ^ 48 - 1) = l.
Proof.
  intros Hl. unfold page_key. apply Z.bits_inj'. intros n Hn.
  replace (2 ^ 48 - 1) with (Z.ones 48) by reflexivity. change 0x0000FFFFFFFFFFFF with (Z.ones 48).
  rewrite Z.land_spec, Z.lxor_spec, Z.land_spec. unfold wrap. destruct (decide (n < 48)) as [Hlt|Hge].
  - rewrite Z.mod_pow2_bits_low, Z.shiftl_spec_low, Z.ones_spec_low by lia. by rewrite !andb_true_r, xorb_false_l.
  - rewrite Z.ones_spec_high by lia. rewrite !andb_false_r. symmetry. apply Z.bits_above_log2; [lia|].
    destruct (decide (l = 0)) as [->|]; [cbn; lia|]. apply Z.log2_lt_pow2; [lia|]. apply Z.lt_le_trans with (2 ^ 48); [lia|]. apply Z.pow_le_mono_r; lia.
Qed.

Lemma page_key_inj tag l l' : 0 <= l < 2 ^ 48 -> 0 <= l' < 2 ^ 48 -> page_key tag l = page_key tag l' -> l = l'.
Proof. intros Hl Hl' E. rewrite <-(page_key_low tag l), <-(page_key_low tag l') by done. by rewrite E. Qed.

Lemma page_key_live tag l : 0 <= l < 2 ^ 48 - 7 -> ht_live (page_key tag l).
Proof.
  intros Hl. split; intros E; pose proof (page_key_low tag l ltac:(lia)) as Ek; rewrite E in Ek; vm_compute in Ek; lia.
Qed.

(** ** Sectors of a page *)

Definition sector (data : list Z) (k : nat) : list Z := sub data (k * SECTOR_SIZE) SECTOR_SIZE.

Lemma length_sector data k : length data = BLOCK_SIZE -> (k < 8)%nat -> length (sector data k) = SECTOR_SIZE.
Proof. intros Hd Hk. unfold sector, sub. rewrite length_take, length_drop, Hd. unfold BLOCK_SIZE, SECTOR_SIZE. lia. Qed.

Section device.
Context {D : Type} `{BlockDeviceLaws D}.

Lemma read_sectors_data d l n k data : (forall j, (j < n)%nat -> read_sector d (l + Z.of_nat (k + j)) = Some (sector data (k + j))) ->
  length data = ((k + n) * SECTOR_SIZE)%nat -> read_sectors d (l + Z.of_nat k) n = Some (drop (k * SECTOR_SIZE) data).
Proof.
  revert k. induction n as [|n IH]; intros k Hr Hl; cbn [read_sectors].
  - rewrite drop_ge by lia. done.
  - pose proof (Hr 0%nat ltac:(lia)) as H0'. rewrite Nat.add_0_r in H0'. rewrite H0'. cbn [mbind option_bind].
    replace (l + Z.of_nat k + 1) with (l + Z.of_nat (k + 1)) by lia. rewrite (IH (k + 1)%nat).
    + cbn. f_equal. unfold sector, sub. rewrite <-(take_drop SECTOR_SIZE (drop (k * SECTOR_SIZE) data)) at 2. f_equal. rewrite drop_drop. f_equal. lia.
    + intros j Hj. replace (k + 1 + j)%nat with (k + S j)%nat by lia. apply Hr. lia.
    + lia.
Qed.

Lemma read_page_data d l data : (forall k, (k < 8)%nat -> read_sector d (l + Z.of_nat k) = Some (sector data k)) -> length data = BLOCK_SIZE ->
  read_sectors d l 8 = Some data.
Proof.
  intros Hr Hl. pose proof (read_sectors_data d l 8 0 data) as E. rewrite Z.add_0_r in E. rewrite E; [done| |done]. intros j Hj. by apply Hr.
Qed.

Lemma read_sectors_inv d cap l n data : dev_ok d cap -> read_sectors d l n = Some data -> length data = (n * SECTOR_SIZE)%nat /\
  forall k, (k < n)%nat -> read_sector d (l + Z.of_nat k) = Some (sector data k).
Proof.
  intros Hok. revert l data. induction n as [|n IH]; intros l data Hr; cbn [read_sectors] in Hr; [injection Hr as <-; split; [done|lia]|].
  destruct (read_sector d l) as [s|] eqn:Es; [|done]. cbn in Hr. destruct (read_sectors d (l + 1) n) as [rest|] eqn:Er; [|done]. injection Hr as <-.
  pose proof (dev_read_len _ _ _ _ Hok Es) as Ls. destruct (IH _ _ Er) as [Lr Hrest]. split; [rewrite length_app; lia|]. intros k Hk. unfold sector, sub.
  destruct k as [|k].
  - rewrite Z.add_0_r, Es. f_equal. cbn [Nat.mul]. rewrite drop_0, <-Ls. by rewrite take_app_length.
  - replace (l + Z.of_nat (S k)) with (l + 1 + Z.of_nat k) by lia. rewrite Hrest by lia. f_equal. unfold sector, sub. f_equal.
    rewrite drop_app_ge by lia. f_equal. lia.
Qed.

Lemma read_sectors_same d d' l n : (forall k, (k < n)%nat -> read_sector d' (l + Z.of_nat k) = read_sector d (l + Z.of_nat k)) ->
  read_sectors d' l n = read_sectors d l n.
Proof.
  intros Hr. apply read_sectors_ext. intros x Hx. replace x with (l + Z.of_nat (Z.to_nat (x - l))) by lia. apply Hr. lia.
Qed.

(** Writing the changed sectors of a page back on a working device. *)
Lemma write_dirty_spec n s lba dirty data d cap : dev_ok d cap -> 0 <= lba -> lba + Z.of_nat (s + n) <= cap -> (s + n <= 8)%nat -> length data = BLOCK_SIZE ->
  exists d', write_dirty n s lba dirty data d = (true, d') /\ write_dirty_all n s lba dirty data d = d' /\ dev_ok d' cap /\
    (forall l, (forall k, (s <= k < s + n)%nat -> Z.testbit dirty (Z.of_nat k) = true -> l ≠ lba + Z.of_nat k) -> read_sector d' l = read_sector d l) /\
    (forall k, (s <= k < s + n)%nat -> Z.testbit dirty (Z.of_nat k) = true -> read_sector d' (lba + Z.of_nat k) = Some (sector data k)).
Proof.
  revert s d. induction n as [|n IH]; intros s d Hok Hl Hcap Hs Hd; cbn [write_dirty write_dirty_all].
  { exists d. split_and!; try done. intros k Hk. lia. }
  destruct (Z.testbit dirty (Z.of_nat s)) eqn:Eb.
  - fold (sector data s). destruct (dev_write d cap (lba + Z.of_nat s) (sector data s) Hok) as (d1 & -> & Hok1 & Hr1 & Hf1); [lia|apply length_sector; [done|lia]|].
    destruct (IH (s + 1)%nat d1) as (d' & E1 & E2 & Hok' & Hfr & Hrd); [done|lia..|done|]. exists d'. split; [done|]. split; [done|]. split; [done|]. split.
    + intros l Hne. rewrite Hfr by (intros k Hk; apply Hne; lia). apply Hf1. apply Hne; [lia|done].
    + intros k Hk Hb. destruct (decide (k = s)) as [->|]; [|apply Hrd; [lia|done]]. rewrite Hfr by (intros k Hk' _; lia). done.
  - destruct (IH (s + 1)%nat d) as (d' & E1 & E2 & Hok' & Hfr & Hrd); [done|lia..|done|]. exists d'. split; [done|]. split; [done|]. split; [done|]. split.
    + intros l Hne. apply Hfr. intros k Hk. apply Hne. lia.
    + intros k Hk Hb. destruct (decide (k = s)) as [->|]; [congruence|]. apply Hrd; [lia|done].
Qed.
End device.

(** ** The view of a device through the cache *)

Section view.
Context {D : Type} `{BlockDeviceLaws D}.
(** The device's tag and size, and the residue of its page addresses. *)
Context (tag r cap : Z) (Hcap : cap <= 2 ^ 48).

Definition page_ok (l : Z) : Prop := 0 <= l /\ l + 8 <= cap /\ l `mod` 8 = r.

Record slot_ok (d : D) (s : CacheSlot) : Prop := {
  so_tag : sl_tag s = tag;
  so_page : page_ok (sl_lba s);
  so_pending : sl_pending s = false;
  so_len : length (sl_data s) = BLOCK_SIZE;
  so_clean : sl_dirty s = false -> sl_sectors s = 0;
  so_dev k : (k < 8)%nat -> Z.testbit (sl_sectors s) (Z.of_nat k) = false -> read_sector d (sl_lba s + Z.of_nat k) = Some (sector (sl_data s) k);
}.

(** The cache [c] over the device [d] shows the pages [f]; [m] is what the table
    holds. *)
Record cache_rep (c : PgCache) (d : D) (f : Z -> list Z) (m : gmap Z nat) : Prop := {
  cr_len : length (ca_slots c) = CACHE_SIZE;
  cr_lru : exists ids, lru_rep c ids /\ forall i, i ∈ ids <-> (i < CACHE_SIZE)%nat /\ sl_valid (slot c i) = true;
  cr_hash : ht_rep CACHE_SIZE (ca_hash c) m;
  cr_map k i : m !! k = Some i <-> (i < CACHE_SIZE)%nat /\ sl_valid (slot c i) = true /\ k = page_key tag (sl_lba (slot c i));
  cr_slot i : sl_valid (slot c i) = true -> slot_ok d (slot c i);
  cr_dev : dev_ok d cap;
  cr_readable l : 0 <= l < cap -> is_Some (read_sector d l);
  cr_cached i : sl_valid (slot c i) = true -> f (sl_lba (slot c i)) = sl_data (slot c i);
  cr_uncached l : page_ok l -> m !! page_key tag l = None -> read_sectors d l 8 = Some (f l);
}.

Lemma slot_past c i : length (ca_slots c) = CACHE_SIZE -> sl_valid (slot c i) = true -> (i < CACHE_SIZE)%nat.
Proof.
  intros Hl Hv. unfold slot in Hv. rewrite list_lookup_total_alt in Hv. destruct (ca_slots c !! i) eqn:E; [|done]. rewrite <-Hl. by eapply lookup_lt_Some.
Qed.

Lemma page_ok_48 l : page_ok l -> 0 <= l < 2 ^ 48 - 7.
Proof. intros (? & ? & _). lia. Qed.

Lemma key_inj l l' : page_ok l -> page_ok l' -> page_key tag l = page_key tag l' -> l = l'.
Proof. intros Hl%page_ok_48 Hl'%page_ok_48. apply page_key_inj; lia. Qed.

Lemma key_live l : page_ok l -> ht_live (page_key tag l).
Proof. intros Hl%page_ok_48. by apply page_key_live. Qed.

(** Pages do not overlap. *)
Lemma pages_disjoint l l' k k' : page_ok l -> page_ok l' -> l ≠ l' -> (k < 8)%nat -> (k' < 8)%nat -> l + Z.of_nat k ≠ l' + Z.of_nat k'.
Proof.
  intros (_ & _ & Hl) (_ & _ & Hl') Hne Hk Hk'. pose proof (Z.div_mod l 8 ltac:(lia)). pose proof (Z.div_mod l' 8 ltac:(lia)). lia.
Qed.

(** What changes neither the pages nor the table. *)
Lemma payload_fields s s' : payload s' = payload s -> sl_valid s' = sl_valid s /\ sl_dirty s' = sl_dirty s /\ sl_pending s' = sl_pending s /\ sl_lba s' = sl_lba s /\
  sl_tag s' = sl_tag s /\ sl_sectors s' = sl_sectors s /\ sl_data s' = sl_data s.
Proof. by intros [= -> -> -> -> -> -> _ _ ->]. Qed.

Lemma slot_ok_payload d s s' : payload s' = payload s -> slot_ok d s -> slot_ok d s'.
Proof.
  intros (Ev & Ed & Ep & El & Et & Es & Eda)%payload_fields [H1 H2 H3 H4 H5 H6]. by constructor; rewrite ?Ed, ?Ep, ?El, ?Et, ?Es, ?Eda.
Qed.

Lemma cache_rep_payload c c' d f m ids : cache_rep c d f m -> length (ca_slots c') = length (ca_slots c) -> ca_hash c' = ca_hash c ->
  (forall i, payload (slot c' i) = payload (slot c i)) -> lru_rep c' ids -> (forall i, i ∈ ids <-> (i < CACHE_SIZE)%nat /\ sl_valid (slot c i) = true) ->
  cache_rep c' d f m.
Proof.
  intros Hc Hl Hh Hp Hlru Hids. destruct Hc. constructor; try done; rewrite ?Hl, ?Hh; try done.
  - exists ids. split; [done|]. intros i. rewrite Hids. by destruct (payload_fields _ _ (Hp i)) as (-> & _).
  - intros k i. destruct (payload_fields _ _ (Hp i)) as (-> & _ & _ & -> & _). done.
  - intros i Hv. destruct (payload_fields _ _ (Hp i)) as (Ev & _). rewrite Ev in Hv. eapply slot_ok_payload; [apply Hp|by apply cr_slot0].
  - intros i Hv. destruct (payload_fields _ _ (Hp i)) as (Ev & _ & _ & El & _ & _ & Ed). rewrite Ev in Hv. rewrite El, Ed. by apply cr_cached0.
Qed.

(** Counters do not matter. *)
Lemma cache_rep_same c c' d f m : cache_rep c d f m -> ca_slots c' = ca_slots c -> ca_hash c' = ca_hash c -> ca_head c' = ca_head c -> ca_tail c' = ca_tail c ->
  cache_rep c' d f m.
Proof.
  intros Hc Hs Hh Hd Ht. destruct (cr_lru _ _ _ _ Hc) as (ids & Hl & Hi). assert (forall i, slot c' i = slot c i) as Hsl by (intros i; unfold slot; by rewrite Hs).
  apply (cache_rep_payload c c' d f m ids); try done; [by rewrite Hs|intros i; by rewrite Hsl|].
  apply (lru_rep_same c); try done; [by rewrite Hs|]. intros i. by rewrite Hsl.
Qed.

Lemma cache_rep_move c d f m id : cache_rep c d f m -> sl_valid (slot c id) = true -> cache_rep (move_to_head id c) d f m.
Proof.
  intros Hc Hv. destruct (cr_lru _ _ _ _ Hc) as (ids & Hl & Hi). pose proof (slot_past _ _ (cr_len _ _ _ _ Hc) Hv) as Hlt.
  destruct (move_to_head_frame id c) as (Hlen & Hh & _ & _ & Hp). eapply cache_rep_payload; [done|done|done|done| |].
  - apply lru_move; [exact Hl|]. by rewrite (cr_len _ _ _ _ Hc).
  - intros i. rewrite elem_of_cons, list_elem_of_filter, Hi. destruct (decide (i = id)) as [->|]; naive_solver.
Qed.

Lemma cached_rep c d f m l : cache_rep c d f m -> page_ok l -> cached c tag l = m !! page_key tag l.
Proof. intros Hc Hl. unfold cached. apply ht_get_rep; [apply Hc|by apply key_live]. Qed.

Lemma cached_slot c d f m l id : cache_rep c d f m -> page_ok l -> m !! page_key tag l = Some id ->
  (id < CACHE_SIZE)%nat /\ sl_valid (slot c id) = true /\ sl_lba (slot c id) = l /\ sl_data (slot c id) = f l /\ usable c tag id = true.
Proof.
  intros Hc Hl Hm. apply (cr_map _ _ _ _ Hc) in Hm as (Hlt & Hv & Hk). pose proof (cr_slot _ _ _ _ Hc id Hv) as Hs.
  apply key_inj in Hk; [|done|apply Hs]. split_and!; try done.
  - rewrite Hk. symmetry. by apply (cr_cached _ _ _ _ Hc).
  - unfold usable. rewrite Hv, (so_tag _ _ Hs). by rewrite Z.eqb_refl.
Qed.

Lemma f_len c d f m l : cache_rep c d f m -> page_ok l -> length (f l) = BLOCK_SIZE.
Proof.
  intros Hc Hl. destruct (m !! page_key tag l) as [id|] eqn:Hm.
  - destruct (cached_slot _ _ _ _ _ _ Hc Hl Hm) as (_ & Hv & _ & <- & _). apply (cr_slot _ _ _ _ Hc id Hv).
  - pose proof (cr_uncached _ _ _ _ Hc l Hl Hm) as Hr. by apply (read_sectors_inv d cap) in Hr as [-> _]; [|apply Hc].
Qed.

(** ** Clearing a slot *)

Lemma clear_slot_facts c ids id : lru_rep c ids -> (id < length (ca_slots c))%nat ->
  length (ca_slots (clear_slot id c)) = length (ca_slots c) /\
  ca_hash (clear_slot id c) = (ht_remove CACHE_SIZE (ca_hash c) (page_key (sl_tag (slot c id)) (sl_lba (slot c id)))).2 /\
  slot (clear_slot id c) id = EMPTY_SLOT /\ (forall j, j ≠ id -> payload (slot (clear_slot id c) j) = payload (slot c j)) /\
  lru_rep (clear_slot id c) (filter (λ y, y ≠ id) ids).
Proof.
  intros Hl Hid. destruct (unlink_frame id c) as (Hlen & Hh & _ & _ & Hp). pose proof (lru_unlink c ids id Hl Hid) as Hl'. unfold clear_slot.
  set (key := page_key _ _). set (c1 := unlink_lru id c) in *. set (c2 := set_hash _ c1).
  assert (forall j, slot (on_slot id (λ _, EMPTY_SLOT) c2) j = if decide (j = id) then EMPTY_SLOT else slot c1 j) as Hs.
  { intros j. rewrite slot_on_slot. change (ca_slots c2) with (ca_slots c1). rewrite Hlen. destruct (decide (j = id)) as [->|]; [by rewrite decide_True|]. by rewrite decide_False by tauto. }
  split_and!.
  - by rewrite length_on_slot.
  - change (ca_hash (on_slot id (λ _, EMPTY_SLOT) c2)) with (ht_remove CACHE_SIZE (ca_hash c1) key).2. by rewrite Hh.
  - by rewrite Hs, decide_True.
  - intros j Hj. rewrite Hs, decide_False by done. apply Hp.
  - apply (lru_rep_same c1); try done; [by rewrite length_on_slot|]. intros j. rewrite Hs. destruct (decide (j = id)) as [->|]; [|done].
    destruct (lr_free _ _ Hl' id) as [-> ->]; [|done]. intros [? _]%list_elem_of_filter. done.
Qed.

Definition upd (f : Z -> list Z) (l : Z) (data : list Z) : Z -> list Z := λ x, if decide (x = l) then data else f x.

Lemma cache_rep_ext c d f f' m : cache_rep c d f m -> (forall l, page_ok l -> f' l = f l) -> cache_rep c d f' m.
Proof.
  intros [] Hf. constructor; try done.
  - intros i Hv. rewrite Hf by (by apply cr_slot0). by apply cr_cached0.
  - intros l Hl Hm. rewrite Hf by done. by apply cr_uncached0.
Qed.

(** The page of a cleared slot is what the device has. *)
Lemma cache_rep_drop c d f m id data : cache_rep c d f m -> sl_valid (slot c id) = true -> read_sectors d (sl_lba (slot c id)) 8 = Some data ->
  cache_rep (clear_slot id c) d (upd f (sl_lba (slot c id)) data) (delete (page_key tag (sl_lba (slot c id))) m) /\ sl_valid (slot (clear_slot id c) id) = false /\
  used_entries (ca_hash (clear_slot id c)) = used_entries (ca_hash c).
Proof.
  intros Hc Hv Hdev. destruct (cr_lru _ _ _ _ Hc) as (ids & Hl & Hi). pose proof (slot_past _ _ (cr_len _ _ _ _ Hc) Hv) as Hlt.
  pose proof (cr_slot _ _ _ _ Hc id Hv) as Hso. destruct (clear_slot_facts c ids id Hl) as (Hlen & Hh & Hs & Hp & Hl'); [by rewrite (cr_len _ _ _ _ Hc)|].
  rewrite (so_tag _ _ Hso) in Hh. set (l := sl_lba (slot c id)) in *. pose proof (so_page _ _ Hso) as Hpl. fold l in Hpl.
  destruct (ht_remove_rep CACHE_SIZE (ca_hash c) m (page_key tag l) (cr_hash _ _ _ _ Hc) (key_live l Hpl)) as (h' & Er & Hr & Hu).
  rewrite Er in Hh. cbn [snd] in Hh. split; [|split; [by rewrite Hs|by rewrite Hh]].
  assert (forall i, sl_valid (slot (clear_slot id c) i) = true -> i ≠ id /\ sl_valid (slot c i) = true /\ payload (slot (clear_slot id c) i) = payload (slot c i)) as Hval.
  { intros i Hvi. assert (i ≠ id) as Hne by (intros ->; by rewrite Hs in Hvi). split; [done|]. split; [|by apply Hp].
    by destruct (payload_fields _ _ (Hp i Hne)) as (<- & _). }
  assert (forall i, sl_valid (slot c i) = true -> i ≠ id -> sl_lba (slot c i) ≠ l) as Hdiff.
  { intros i Hvi Hne Ek. apply Hne. assert (m !! page_key tag l = Some i) as X by (apply (cr_map _ _ _ _ Hc); rewrite Ek; split_and!; [by apply (slot_past c); [apply Hc|]|done|done]).
    assert (m !! page_key tag l = Some id) as Y by (by apply (cr_map _ _ _ _ Hc)). congruence. }
  constructor; rewrite ?Hh; try done; try apply Hc.
  - rewrite Hlen. apply Hc.
  - exists (filter (λ y, y ≠ id) ids). split; [done|]. intros i. rewrite list_elem_of_filter, Hi. split.
    + intros (Hne & Hlt' & Hvi). split; [done|]. by destruct (payload_fields _ _ (Hp i Hne)) as (-> & _).
    + intros (Hlt' & Hvi). by destruct (Hval i Hvi) as (? & ? & _).
  - intros k i. rewrite lookup_delete_Some, (cr_map _ _ _ _ Hc). split.
    + intros (Hne & Hi' & Hvi & ->). assert (i ≠ id) as Hne' by (by intros ->). destruct (payload_fields _ _ (Hp i Hne')) as (-> & _ & _ & -> & _). done.
    + intros (Hi' & Hvi & ->). destruct (Hval i Hvi) as (Hne & Hvi' & Epi). destruct (payload_fields _ _ Epi) as (_ & _ & _ & -> & _). split; [|done].
      intros Ek%key_inj; [by destruct (Hdiff i Hvi' Hne)|done|by apply (cr_slot _ _ _ _ Hc)].
  - intros i Hvi. destruct (Hval i Hvi) as (_ & Hvi' & Epi). eapply slot_ok_payload; [exact Epi|]. by apply (cr_slot _ _ _ _ Hc).
  - intros i Hvi. destruct (Hval i Hvi) as (Hne & Hvi' & Epi). destruct (payload_fields _ _ Epi) as (_ & _ & _ & -> & _ & _ & ->). unfold upd. rewrite decide_False by (by apply Hdiff). by apply (cr_cached _ _ _ _ Hc).
  - intros l' Hl0 Hm. unfold upd. destruct (decide (l' = l)) as [->|Hne]; [done|].
    apply (cr_uncached _ _ _ _ Hc); [done|]. rewrite lookup_delete_ne in Hm; [done|]. intros E%key_inj; [by apply Hne|done|done].
Qed.

Lemma cache_rep_clear c d f m id : cache_rep c d f m -> sl_valid (slot c id) = true ->
  (forall k, (k < 8)%nat -> read_sector d (sl_lba (slot c id) + Z.of_nat k) = Some (sector (sl_data (slot c id)) k)) ->
  cache_rep (clear_slot id c) d f (delete (page_key tag (sl_lba (slot c id))) m) /\ sl_valid (slot (clear_slot id c) id) = false /\
  used_entries (ca_hash (clear_slot id c)) = used_entries (ca_hash c).
Proof.
  intros Hc Hv Hdev. destruct (cache_rep_drop c d f m id (sl_data (slot c id)) Hc Hv) as (Hcl & Hrest).
  - apply read_page_data; [done|]. by apply (cr_slot _ _ _ _ Hc).
  - split; [|done]. eapply cache_rep_ext; [exact Hcl|]. intros l _. unfold upd. destruct (decide _) as [->|]; [|done]. by apply (cr_cached _ _ _ _ Hc).
Qed.

(** Writing a slot back keeps the view, and then its page is on the device. *)
Lemma cache_rep_write_back c d f m id : cache_rep c d f m -> sl_valid (slot c id) = true -> exists d',
  write_dirty 8 0 (sl_lba (slot c id)) (sl_sectors (slot c id)) (sl_data (slot c id)) d = (true, d') /\
  write_dirty_all 8 0 (sl_lba (slot c id)) (sl_sectors (slot c id)) (sl_data (slot c id)) d = d' /\ cache_rep c d' f m /\
  (forall k, (k < 8)%nat -> read_sector d' (sl_lba (slot c id) + Z.of_nat k) = Some (sector (sl_data (slot c id)) k)) /\
  (forall l, (forall k, (k < 8)%nat -> l ≠ sl_lba (slot c id) + Z.of_nat k) -> read_sector d' l = read_sector d l).
Proof.
  intros Hc Hv. pose proof (cr_slot _ _ _ _ Hc id Hv) as Hs. pose proof (so_page _ _ Hs) as Hpl. set (s := slot c id) in *.
  destruct (write_dirty_spec 8 0 (sl_lba s) (sl_sectors s) (sl_data s) d cap) as (d' & E1 & E2 & Hok & Hfr & Hrd);
    [apply Hc|destruct Hpl; lia|destruct Hpl; lia|lia|apply Hs|].
  assert (forall k, (k < 8)%nat -> read_sector d' (sl_lba s + Z.of_nat k) = Some (sector (sl_data s) k)) as Hall.
  { intros k Hk. destruct (Z.testbit (sl_sectors s) (Z.of_nat k)) eqn:Eb; [apply Hrd; [lia|done]|].
    rewrite Hfr; [by apply Hs|]. intros k' Hk' Hb' E. assert (k = k') as -> by lia. congruence. }
  assert (forall l, (forall k, (k < 8)%nat -> l ≠ sl_lba s + Z.of_nat k) -> read_sector d' l = read_sector d l) as Hother.
  { intros l Hl. apply Hfr. intros k Hk _. apply Hl. lia. }
  exists d'. split; [done|]. split; [done|]. split; [|done]. constructor; try done; try apply Hc.
  - intros i Hvi. pose proof (cr_slot _ _ _ _ Hc i Hvi) as Hi. destruct (decide (i = id)) as [->|Hne].
    { constructor; try apply Hs. intros k Hk _. by apply Hall. }
    assert (sl_lba (slot c i) ≠ sl_lba s) as Hll.
    { intros E. apply Hne. assert (m !! page_key tag (sl_lba s) = Some i) as X1. { apply (cr_map _ _ _ _ Hc). rewrite E. split_and!; try done. by apply (slot_past c); [apply Hc|]. }
      assert (m !! page_key tag (sl_lba s) = Some id) as X2. { apply (cr_map _ _ _ _ Hc). split_and!; try done. by apply (slot_past c); [apply Hc|]. } congruence. }
    constructor; try apply Hi. intros k Hk Hb. rewrite Hother; [by apply Hi|]. intros k' Hk'. apply pages_disjoint; try done. apply Hi.
  - intros l Hl. destruct (decide (sl_lba s <= l < sl_lba s + 8)) as [Hin|Hout].
    + replace l with (sl_lba s + Z.of_nat (Z.to_nat (l - sl_lba s))) by lia. rewrite Hall by lia. by eexists.
    + rewrite Hother; [by apply (cr_readable _ _ _ _ Hc)|]. intros k Hk. lia.
  - intros l Hl Hm. rewrite <-(cr_uncached _ _ _ _ Hc l Hl Hm). apply read_sectors_same. intros k Hk. apply Hother. intros k' Hk'.
    apply pages_disjoint; try done. intros ->. assert (m !! page_key tag (sl_lba s) = Some id) as X2; [|congruence].
    apply (cr_map _ _ _ _ Hc). split_and!; try done. by apply (slot_past c); [apply Hc|].
Qed.

(** ** Eviction *)

(** The page to give up: the least recently used clean one, or the least recently
    used one. *)
Definition victim_of (c : PgCache) (ids : list nat) : option nat :=
  match last (filter (λ i, sl_dirty (slot c i) = false) ids) with Some id => Some id | None => last ids end.

Lemma lru_members_length c ids : length (ca_slots c) = CACHE_SIZE -> lru_rep c ids -> (length ids <= CACHE_SIZE)%nat.
Proof.
  intros Hl Hr. rewrite <-(length_seq CACHE_SIZE 0). apply submseteq_length, NoDup_submseteq; [apply Hr|].
  intros i Hi. apply elem_of_seq. pose proof (lr_range _ _ Hr) as Hran. rewrite Forall_forall in Hran. specialize (Hran i Hi). rewrite Hl in Hran. lia.
Qed.

Lemma slots_full c : length (ca_slots c) = CACHE_SIZE -> list_find (λ s, sl_valid s = false) (ca_slots c) = None ->
  forall i, (i < CACHE_SIZE)%nat -> sl_valid (slot c i) = true.
Proof.
  intros Hl Hn i Hi. apply list_find_None in Hn. rewrite <-Hl in Hi. apply lookup_lt_is_Some_2 in Hi as [s Hs]. unfold slot.
  rewrite (list_lookup_total_correct _ _ _ Hs). rewrite Forall_lookup in Hn. apply not_false_iff_true. by eapply Hn.
Qed.

Lemma slot_free c i s : list_find (λ s, sl_valid s = false) (ca_slots c) = Some (i, s) -> (i < length (ca_slots c))%nat /\ sl_valid (slot c i) = false.
Proof.
  intros (Hs & Hv & _)%list_find_Some. split; [by eapply lookup_lt_Some|]. unfold slot. by rewrite (list_lookup_total_correct _ _ _ Hs).
Qed.

Lemma evict_lru_spec c d f m : cache_rep c d f m -> exists id c' d' m', evict_lru tag (c, d) = Some (Ok id, (c', d')) /\
  cache_rep c' d' f m' /\ m' ⊆ m /\ (id < CACHE_SIZE)%nat /\ sl_valid (slot c' id) = false /\ used_entries (ca_hash c') = used_entries (ca_hash c) /\
  ((c', d', m') = (c, d, m) \/ (forall i, (i < CACHE_SIZE)%nat -> sl_valid (slot c i) = true) /\ exists ids, lru_rep c ids /\ victim_of c ids = Some id /\ m' = delete (page_key tag (sl_lba (slot c id))) m).
Proof.
  intros Hc. unfold evict_lru. destruct (list_find _ (ca_slots c)) as [[i s]|] eqn:Ef.
  { apply slot_free in Ef as [Hi Hv]. rewrite (cr_len _ _ _ _ Hc) in Hi. exists i, c, d, m. split_and!; try done. by left. }
  pose proof (slots_full c (cr_len _ _ _ _ Hc) Ef) as Hfull. destruct (cr_lru _ _ _ _ Hc) as (ids & Hl & Hi).
  rewrite (lr_tail _ _ Hl), (find_clean_spec c ids ids []); [|done|by rewrite app_nil_r|apply (lru_members_length c ids); [apply Hc|done]].
  cbn [mbind option_bind].
  assert (exists id, victim_of c ids = Some id /\ match last (filter (λ i, sl_dirty (slot c i) = false) ids) with Some id => id | None => default 0%nat (last ids) end = id /\ (id < CACHE_SIZE)%nat) as (id & Hvic & -> & Hid).
  { unfold victim_of. destruct (last (filter _ ids)) as [id|] eqn:El.
    - exists id. apply last_Some_elem_of, list_elem_of_filter in El as [_ El]. apply Hi in El as [? _]. done.
    - destruct (last ids) as [id|] eqn:El2; [exists id; apply last_Some_elem_of, Hi in El2 as [? _]; done|]. apply last_None in El2 as ->.
      assert (0%nat ∈ @nil nat) as Hbad by (apply Hi; split; [unfold CACHE_SIZE; lia|apply Hfull; unfold CACHE_SIZE; lia]). by apply not_elem_of_nil in Hbad. }
  pose proof (Hfull id Hid) as Hv. pose proof (cr_slot _ _ _ _ Hc id Hv) as Hso.
  set (c1 := count evicted (if sl_dirty (slot c id) then undirty c else c)).
  assert (ca_slots c1 = ca_slots c /\ ca_hash c1 = ca_hash c /\ ca_head c1 = ca_head c /\ ca_tail c1 = ca_tail c) as (Es & Eh & Eh' & Et) by (unfold c1; by destruct (sl_dirty _)).
  assert (forall i, slot c1 i = slot c i) as Hsl by (intros i; unfold slot; by rewrite Es).
  assert (exists d', (if must_write tag (slot c id) then write_dirty_all 8 0 (sl_lba (slot c id)) (sl_sectors (slot c id)) (sl_data (slot c id)) d else d) = d' /\
    cache_rep c d' f m /\ forall k, (k < 8)%nat -> read_sector d' (sl_lba (slot c id) + Z.of_nat k) = Some (sector (sl_data (slot c id)) k)) as (d' & -> & Hc' & Hdev).
  { unfold must_write. rewrite (so_pending _ _ Hso), (so_tag _ _ Hso), Z.eqb_refl. destruct (sl_dirty (slot c id)) eqn:Ed; cbn [andb negb].
    - destruct (cache_rep_write_back c d f m id Hc Hv) as (d' & _ & E & Hc' & Hd' & _). eauto.
    - exists d. split_and!; try done. intros k Hk. apply Hso; [done|]. rewrite (so_clean _ _ Hso Ed). apply Z.bits_0. }
  pose proof (cache_rep_same c c1 d' f m Hc' Es Eh Eh' Et) as Hc1.
  destruct (cache_rep_clear c1 d' f m id Hc1) as (Hcl & Hinv & Hu); [by rewrite Hsl|by rewrite Hsl|]. rewrite Hsl in Hcl.
  exists id, (clear_slot id c1), d', (delete (page_key tag (sl_lba (slot c id))) m). split_and!; try done; [apply delete_subseteq|by rewrite Hu, Eh|].
  right. split; [done|]. exists ids. by split_and!.
Qed.

(** ** Loading a page *)

Lemma populate_spec c d f m id l ik : cache_rep c d f m -> (id < CACHE_SIZE)%nat -> sl_valid (slot c id) = false -> page_ok l ->
  m !! page_key tag l = None -> (used_entries (ca_hash c) < CACHE_SIZE)%nat ->
  exists c', populate_slot id l tag ik (c, d) = Some (Ok (), (c', d)) /\ cache_rep c' d f (<[page_key tag l := id]> m) /\
    (used_entries (ca_hash c') <= used_entries (ca_hash c) + 1)%nat.
Proof.
  intros Hc Hid Hinv Hl Hm Hu. destruct (cr_lru _ _ _ _ Hc) as (ids & Hlru & Hi). pose proof (cr_uncached _ _ _ _ Hc l Hl Hm) as Hr.
  unfold populate_slot. rewrite Hr. set (s := mkSlot true false false l tag 0 ik 0 (f l) None None). set (c1 := on_slot id (λ _, s) c).
  destruct (ht_insert_rep CACHE_SIZE (ca_hash c) m (page_key tag l) id (cr_hash _ _ _ _ Hc) (key_live l Hl) (or_intror Hu)) as (h' & Eh & Hh & Hu').
  rewrite decide_False in Hu' by (rewrite Hm; by intros []). change (ca_hash c1) with (ca_hash c). rewrite Eh. cbn [snd]. set (c2 := set_hash h' c1).
  assert (forall j, slot c2 j = if decide (j = id) then s else slot c j) as Hs2.
  { intros j. change (slot c2 j) with (slot c1 j). unfold c1. rewrite slot_on_slot, (cr_len _ _ _ _ Hc).
    destruct (decide (j = id)) as [->|]; [by rewrite decide_True|by rewrite decide_False by tauto]. }
  assert (id ∉ ids) as Hnin by (rewrite Hi; intros [_ ?]; congruence).
  assert (length (ca_slots c2) = CACHE_SIZE) as Hlen2 by (cbn; rewrite length_alter; apply Hc).
  assert (lru_rep c2 ids) as Hlru2.
  { apply (lru_rep_same c); try done; [rewrite Hlen2; symmetry; apply Hc|]. intros j. rewrite Hs2. destruct (decide (j = id)) as [->|]; [|done].
    destruct (lr_free _ _ Hlru id Hnin) as [-> ->]. done. }
  pose proof (lru_move c2 ids id Hlru2 ltac:(by rewrite Hlen2)) as Hlru3. rewrite filter_all in Hlru3 by (intros x Hx ->; done).
  destruct (move_to_head_frame id c2) as (Hlen & Hh3 & _ & _ & Hp). exists (move_to_head id c2). split; [done|]. split; [|by rewrite Hh3].
  assert (forall j, payload (slot (move_to_head id c2) j) = if decide (j = id) then payload s else payload (slot c j)) as Hpay.
  { intros j. rewrite Hp, Hs2. by destruct (decide (j = id)). }
  assert (forall j, j ≠ id -> payload (slot (move_to_head id c2) j) = payload (slot c j)) as Hpne by (intros j Hj; by rewrite Hpay, decide_False).
  assert (payload (slot (move_to_head id c2) id) = payload s) as Hpid by (by rewrite Hpay, decide_True).
  assert (slot_ok d s) as Hsok.
  { apply (read_sectors_inv d cap) in Hr as [Hlf Hrd]; [|apply Hc]. constructor; try done. intros k Hk _. by apply Hrd. }
  constructor; try apply Hc.
  - by rewrite Hlen.
  - exists (id :: ids). split; [done|]. intros i. rewrite elem_of_cons, Hi. destruct (decide (i = id)) as [->|Hne].
    + destruct (payload_fields _ _ Hpid) as (-> & _). cbn. naive_solver.
    + destruct (payload_fields _ _ (Hpne i Hne)) as (-> & _). naive_solver.
  - rewrite Hh3. done.
  - intros k i. destruct (decide (i = id)) as [->|Hne].
    + destruct (payload_fields _ _ Hpid) as (-> & _ & _ & -> & _). cbn. rewrite lookup_insert_Some. split; [|naive_solver].
      intros [[-> _]|[_ Hk]]; [done|]. apply (cr_map _ _ _ _ Hc) in Hk as (_ & ? & _). congruence.
    + destruct (payload_fields _ _ (Hpne i Hne)) as (-> & _ & _ & -> & _). rewrite lookup_insert_Some, (cr_map _ _ _ _ Hc). split; [naive_solver|].
      intros (Hlt & Hv & ->). right. split; [|done]. intros E. assert (m !! page_key tag l = Some i) as Hx by (apply (cr_map _ _ _ _ Hc); rewrite E; done). congruence.
  - intros i Hv. destruct (decide (i = id)) as [->|Hne]; [eapply slot_ok_payload; [exact Hpid|exact Hsok]|].
    eapply slot_ok_payload; [by apply Hpne|]. apply (cr_slot _ _ _ _ Hc). by destruct (payload_fields _ _ (Hpne i Hne)) as (<- & _).
  - intros i Hv. destruct (decide (i = id)) as [->|Hne]; [destruct (payload_fields _ _ Hpid) as (_ & _ & _ & -> & _ & _ & ->); done|].
    destruct (payload_fields _ _ (Hpne i Hne)) as (Ev & _ & _ & -> & _ & _ & ->). apply (cr_cached _ _ _ _ Hc). by rewrite <-Ev.
  - intros l' Hl' Hm'. apply (cr_uncached _ _ _ _ Hc); [done|]. by apply lookup_insert_None in Hm' as [? _].
Qed.

(** A page that is not cached is loaded into a free slot, or in place of another. *)
Lemma refill_spec c d f m l ik : cache_rep c d f m -> page_ok l -> m !! page_key tag l = None -> (used_entries (ca_hash c) < CACHE_SIZE)%nat ->
  exists id c' d' m', refill l tag ik (c, d) = Some (Ok id, (c', d')) /\ cache_rep c' d' f m' /\ m' !! page_key tag l = Some id /\
    (used_entries (ca_hash c') <= used_entries (ca_hash c) + 1)%nat /\ (size m < CACHE_SIZE -> m' = <[page_key tag l := id]> m)%nat.
Proof.
  intros Hc Hl Hm Hu. destruct (evict_lru_spec c d f m Hc) as (id & c1 & d1 & m1 & E & Hc1 & Hsub & Hid & Hinv & Hu1 & Hcase).
  assert (m1 !! page_key tag l = None) as Hm1 by (by eapply lookup_weaken_None).
  destruct (populate_spec c1 d1 f m1 id l ik Hc1 Hid Hinv Hl Hm1 ltac:(lia)) as (c2 & E2 & Hc2 & Hu2).
  exists id, c2, d1, (<[page_key tag l := id]> m1). split; [unfold refill, mbind, P_bind; rewrite E, E2; done|].
  split; [done|]. split; [apply lookup_insert_eq|]. split; [lia|]. intros Hsz. destruct Hcase as [[= -> -> ->]|[Hfull _]]; [done|]. exfalso.
  assert (forall n, (n <= CACHE_SIZE)%nat -> (n <= size m)%nat) as Hcount; [|specialize (Hcount CACHE_SIZE); lia].
  intros n Hn. set (ks := map (λ i, page_key tag (sl_lba (slot c i))) (seq 0 n)).
  assert (NoDup ks) as Hnd.
  { apply NoDup_fmap_2_strong; [|apply NoDup_seq]. intros i j Hi%elem_of_seq Hj%elem_of_seq Ek.
    assert (m !! page_key tag (sl_lba (slot c i)) = Some i) as X by (apply (cr_map _ _ _ _ Hc); split_and!; [lia|apply Hfull; lia|done]).
    assert (m !! page_key tag (sl_lba (slot c j)) = Some j) as Y by (apply (cr_map _ _ _ _ Hc); split_and!; [lia|apply Hfull; lia|done]). rewrite Ek in X. congruence. }
  assert (list_to_set ks ⊆ dom m) as Hs.
  { intros k (i & -> & Hi%elem_of_seq)%elem_of_list_to_set%list_elem_of_fmap. apply elem_of_dom. exists i. apply (cr_map _ _ _ _ Hc). split_and!; [lia|apply Hfull; lia|done]. }
  apply subseteq_size in Hs. rewrite size_list_to_set, size_dom in Hs by done. unfold ks in Hs. by rewrite length_map, length_seq in Hs.
Qed.

(** ** Reading and changing pages *)

(** A slot is replaced by another of the same page. *)
Lemma cache_rep_set c c' d f m id s : cache_rep c d f m -> sl_valid (slot c id) = true ->
  (forall j, slot c' j = if decide (j = id) then s else slot c j) ->
  length (ca_slots c') = length (ca_slots c) -> ca_hash c' = ca_hash c -> ca_head c' = ca_head c -> ca_tail c' = ca_tail c ->
  sl_lba s = sl_lba (slot c id) -> sl_valid s = true -> sl_prev s = sl_prev (slot c id) -> sl_next s = sl_next (slot c id) -> slot_ok d s ->
  cache_rep c' d (upd f (sl_lba (slot c id)) (sl_data s)) m.
Proof.
  intros Hc Hv Hs Hlen Hh Hhd Htl El Ev Ep En Hso. pose proof (slot_past _ _ (cr_len _ _ _ _ Hc) Hv) as Hid. set (l := sl_lba (slot c id)) in *.
  assert (forall j, sl_valid (slot c' j) = sl_valid (slot c j) /\ sl_lba (slot c' j) = sl_lba (slot c j) /\ sl_prev (slot c' j) = sl_prev (slot c j) /\ sl_next (slot c' j) = sl_next (slot c j)) as Hsame.
  { intros j. rewrite Hs. destruct (decide (j = id)) as [->|]; [|done]. split_and!; [by rewrite Ev|exact El|done|done]. }
  assert (m !! page_key tag l = Some id) as Y by (by apply (cr_map _ _ _ _ Hc)).
  destruct (cr_lru _ _ _ _ Hc) as (ids & Hl & Hi). constructor; try apply Hc; try done.
  - rewrite Hlen. apply Hc.
  - exists ids. split; [|intros i; rewrite Hi; by destruct (Hsame i) as (-> & _)]. apply (lru_rep_same c); try done. intros i. by destruct (Hsame i) as (_ & _ & -> & ->).
  - rewrite Hh. apply Hc.
  - intros k i. destruct (Hsame i) as (-> & -> & _). apply Hc.
  - intros i Hvi. rewrite Hs in Hvi |- *. destruct (decide (i = id)) as [->|]; [done|by apply Hc].
  - intros i Hvi. destruct (Hsame i) as (Evi & Eli & _). rewrite Eli, Hs. rewrite Evi in Hvi. unfold upd. destruct (decide (i = id)) as [->|Hne]; [by rewrite decide_True|].
    rewrite decide_False; [by apply Hc|]. intros E. apply Hne.
    assert (m !! page_key tag l = Some i) as X by (apply (cr_map _ _ _ _ Hc); rewrite E; split_and!; [by apply (slot_past c); [apply Hc|]|done|done]). congruence.
  - intros l' Hl' Hm. unfold upd. rewrite decide_False; [by apply Hc|]. intros ->. congruence.
Qed.

Lemma mark_slot c id sectors : (id < length (ca_slots c))%nat -> exists since,
  (forall j, slot (mark sectors id c) j = if decide (j = id) then with_dirty true sectors since (slot c id) else slot c j) /\
  length (ca_slots (mark sectors id c)) = length (ca_slots c) /\ ca_hash (mark sectors id c) = ca_hash c /\ ca_head (mark sectors id c) = ca_head c /\ ca_tail (mark sectors id c) = ca_tail c.
Proof.
  intros Hid. unfold mark. destruct (sl_dirty (slot c id)); eexists; (split; [|split; [apply length_alter|done]]); intros j;
    [|change (slot (set_dirty_count ?n ?x) ?j) with (slot x j)]; rewrite slot_on_slot;
    (destruct (decide (j = id)) as [->|]; [by rewrite decide_True|by rewrite decide_False by tauto]).
Qed.

(** The sectors [sectors] of a page are changed, at least those where the data differ. *)
Lemma cache_rep_change c d f m id sectors data : cache_rep c d f m -> sl_valid (slot c id) = true -> length data = BLOCK_SIZE ->
  (forall k, (k < 8)%nat -> Z.testbit sectors (Z.of_nat k) = false ->
     Z.testbit (sl_sectors (slot c id)) (Z.of_nat k) = false /\ sector data k = sector (sl_data (slot c id)) k) ->
  cache_rep (on_slot id (with_data data) (mark sectors id c)) d (upd f (sl_lba (slot c id)) data) m.
Proof.
  intros Hc Hv Hlen Hsec. pose proof (slot_past _ _ (cr_len _ _ _ _ Hc) Hv) as Hid. pose proof (cr_slot _ _ _ _ Hc id Hv) as Hso. rewrite <-(cr_len _ _ _ _ Hc) in Hid.
  destruct (mark_slot c id sectors Hid) as (since & Hs & Hl & Hh & Hhd & Htl).
  apply (cache_rep_set c _ d f m id (with_data data (with_dirty true sectors since (slot c id)))); try done.
  - intros j. rewrite slot_on_slot, Hl, !Hs, (decide_True (P := id = id)) by done. destruct (decide (j = id)) as [->|]; [by rewrite decide_True|by rewrite decide_False by tauto].
  - by rewrite length_on_slot.
  - constructor; try apply Hso; try done. cbn [with_data with_dirty sl_sectors sl_lba sl_data]. intros k Hk Hb. destruct (Hsec k Hk Hb) as [Hb' ->]. by apply Hso.
Qed.

(** A page that is on the device is marked clean. *)
Lemma cache_rep_written c d f m id : cache_rep c d f m -> sl_valid (slot c id) = true ->
  (forall k, (k < 8)%nat -> read_sector d (sl_lba (slot c id) + Z.of_nat k) = Some (sector (sl_data (slot c id)) k)) -> cache_rep (written id c) d f m.
Proof.
  intros Hc Hv Hdev. pose proof (slot_past _ _ (cr_len _ _ _ _ Hc) Hv) as Hid. pose proof (cr_slot _ _ _ _ Hc id Hv) as Hso.
  apply (cache_rep_ext _ _ (upd f (sl_lba (slot c id)) (sl_data (slot c id)))).
  - apply (cache_rep_set c _ d f m id (with_dirty false 0 (sl_since (slot c id)) (slot c id))); try done.
    + intros j. change (slot (written id c) j) with (slot (on_slot id (λ s, with_dirty false 0 (sl_since s) s) c) j). rewrite slot_on_slot, (cr_len _ _ _ _ Hc).
      destruct (decide (j = id)) as [->|]; [by rewrite decide_True|by rewrite decide_False by tauto].
    + apply length_alter.
    + constructor; try apply Hso; [done|]. intros k Hk _. by apply Hdev.
  - intros l _. unfold upd. destruct (decide _) as [->|]; [|done]. by apply (cr_cached _ _ _ _ Hc).
Qed.

Definition room (c : PgCache) (m : gmap Z nat) (l : Z) : Prop := is_Some (m !! page_key tag l) \/ (used_entries (ca_hash c) < CACHE_SIZE)%nat.

(** What an access does to the table. *)
Record access (c c' : PgCache) (m m' : gmap Z nat) (l : Z) : Prop := {
  ac_used : (used_entries (ca_hash c') <= used_entries (ca_hash c) + (if decide (is_Some (m !! page_key tag l)) then 0 else 1))%nat;
  ac_hit : is_Some (m !! page_key tag l) -> m' = m;
  ac_miss : m !! page_key tag l = None -> (size m < CACHE_SIZE)%nat -> exists id, m' = <[page_key tag l := id]> m;
}.

Lemma access_same c c' c1 c1' m m' l : access c c' m m' l -> ca_hash c1 = ca_hash c -> ca_hash c1' = ca_hash c' -> access c1 c1' m m' l.
Proof. intros [] E E'. constructor; try done. by rewrite E, E'. Qed.

(** Hits and misses of [read_page] and [get_page_mut]. *)
Lemma find_page_spec c d f m l ik (on_hit : PgCache -> PgCache) : cache_rep c d f m -> page_ok l -> room c m l ->
  (forall x, ca_slots (on_hit x) = ca_slots x /\ ca_hash (on_hit x) = ca_hash x /\ ca_head (on_hit x) = ca_head x /\ ca_tail (on_hit x) = ca_tail x) ->
  exists id c' d' m', (match cached c tag l with
       | Some id => if usable c tag id then _ ← doC (on_hit ∘ move_to_head id ∘ count hit); mret id
           else _ ← doC (count miss); _ ← evict_slot id tag; refill l tag ik
       | None => _ ← doC (count miss); refill l tag ik
       end : P (D:=D) nat) (c, d) = Some (Ok id, (c', d')) /\ cache_rep c' d' f m' /\ m' !! page_key tag l = Some id /\ access c c' m m' l.
Proof.
  intros Hc Hl Hroom Hhit. rewrite (cached_rep c d f m l Hc Hl). destruct (m !! page_key tag l) as [id|] eqn:Hm.
  - destruct (cached_slot c d f m l id Hc Hl Hm) as (Hid & Hv & _ & _ & ->). destruct (Hhit (move_to_head id (count hit c))) as (E1 & E2 & E3 & E4).
    exists id, (on_hit (move_to_head id (count hit c))), d, m. split; [done|].
    assert (cache_rep (move_to_head id (count hit c)) d f m) as Hc' by (apply cache_rep_move; [by apply (cache_rep_same c)|done]).
    split; [by apply (cache_rep_same (move_to_head id (count hit c)))|]. split; [done|]. destruct (move_to_head_frame id (count hit c)) as (_ & Eh & _).
    constructor; [rewrite E2, Eh; change (ca_hash (count hit c)) with (ca_hash c); lia|done|by rewrite Hm].
  - destruct Hroom as [[? ?]|Hu]; [congruence|].
    destruct (refill_spec (count miss c) d f m l ik) as (id & c' & d' & m' & E & Hc' & Hm' & Hu' & Hsz); [by apply (cache_rep_same c)|done|done|done|].
    exists id, c', d', m'. split; [exact E|]. split; [done|]. split; [done|]. constructor.
    + rewrite Hm, decide_False by (by intros []). exact Hu'.
    + rewrite Hm. by intros [].
    + intros _ Hlt. exists id. by apply Hsz.
Qed.

Lemma readahead_same block c d f m : cache_rep c d f m -> cache_rep (update_readahead block c) d f m.
Proof. intros Hc. by apply (cache_rep_same c). Qed.

Lemma read_page_spec c d f m drive ino block l : cache_rep c d f m -> page_ok l -> room c m l ->
  exists c' d' m', pc_read_page drive ino block l tag (c, d) = Some (Ok (f l), (c', d')) /\ cache_rep c' d' f m' /\ access c c' m m' l.
Proof.
  intros Hc Hl Hroom. destruct (find_page_spec (count tick c) d f m l (make_inode_key drive ino block) (update_readahead block)) as (id & c' & d' & m' & E & Hc' & Hm' & Hac);
    [by apply (cache_rep_same c)|done|done|done|].
  exists (update_readahead block c'), d', m'. split; [|split; [by apply readahead_same|by apply (access_same (count tick c) c')]].
  unfold pc_read_page, mbind at 1 2, P_bind at 1 2. cbn [doC getC fst snd]. unfold mbind at 1, P_bind at 1. rewrite E.
  destruct (cached_slot c' d' f m' l id Hc' Hl Hm') as (_ & _ & _ & Hd & _). unfold mbind, P_bind, doC, getC. cbn [fst snd].
  change (slot (update_readahead block c') id) with (slot c' id). by rewrite Hd.
Qed.

Lemma change_page_spec c d f m drive ino block l g : cache_rep c d f m -> page_ok l -> room c m l -> length (g (f l)) = BLOCK_SIZE ->
  exists c' d' m', pc_change_page drive ino block l tag g (c, d) = Some (Ok (), (c', d')) /\ cache_rep c' d' (upd f l (g (f l))) m' /\ access c c' m m' l.
Proof.
  intros Hc Hl Hroom Hg. destruct (find_page_spec (count tick c) d f m l (make_inode_key drive ino block) (λ x, x)) as (id & c' & d' & m' & E & Hc' & Hm' & Hac);
    [by apply (cache_rep_same c)|done|done|done|].
  destruct (cached_slot c' d' f m' l id Hc' Hl Hm') as (_ & Hv & Hlba & Hd & _). set (c2 := update_readahead block c').
  assert (cache_rep c2 d' f m') as Hc2 by by apply readahead_same.
  assert (slot (mark 0xFF id c2) id = with_dirty true 0xFF (sl_since (slot (mark 0xFF id c2) id)) (slot c2 id)) as Hmark.
  { unfold mark. destruct (sl_dirty (slot c2 id)); [|change (slot (set_dirty_count ?n ?x) ?j) with (slot x j)]; rewrite slot_on_slot; rewrite decide_True; try done;
      (split; [done|]; rewrite (cr_len _ _ _ _ Hc2); by apply (slot_past c2); [apply Hc2|]). }
  exists (on_slot id (with_data (g (f l))) (mark 0xFF id c2)), d', m'. split; [|split].
  - unfold pc_change_page, mbind at 1 2, P_bind at 1 2. cbn [doC getC fst snd]. unfold mbind at 1, P_bind at 1. unfold compose in E |- *. cbv beta in E |- *. rewrite E. unfold doC. cbn [fst snd].
    fold c2. rewrite Hmark. cbn [with_dirty sl_data]. change (slot c2 id) with (slot c' id). by rewrite Hd.
  - pose proof (cache_rep_change c2 d' f m' id 0xFF (g (f l)) Hc2) as Hch. change (sl_lba (slot c2 id)) with (sl_lba (slot c' id)) in Hch. rewrite Hlba in Hch.
    apply Hch; try done. intros k Hk Hb. exfalso. clear -Hk Hb. do 8 (destruct k as [|k]; [done|]). lia.
  - assert (ca_hash (on_slot id (with_data (g (f l))) (mark 0xFF id c2)) = ca_hash c') as Eh by (unfold mark; by destruct (sl_dirty _)).
    by apply (access_same (count tick c) c').
Qed.

(** ** Flushing *)

Lemma flush_loop_spec n i c d f m : (i + n = CACHE_SIZE)%nat -> cache_rep c d f m -> (forall j, (j < i)%nat -> sl_valid (slot c j) = true -> sl_dirty (slot c j) = false) ->
  exists c' d', flush_loop (owned_by tag) n i (c, d) = Some (Ok (), (c', d')) /\ cache_rep c' d' f m /\ ca_hash c' = ca_hash c /\
    forall j, sl_valid (slot c' j) = true -> sl_dirty (slot c' j) = false.
Proof.
  revert i c d. induction n as [|n IH]; intros i c d Hi Hc Hclean; cbn [flush_loop].
  { exists c, d. split_and!; try done. intros j Hv. apply Hclean; [|done]. pose proof (slot_past _ _ (cr_len _ _ _ _ Hc) Hv). lia. }
  destruct (sl_valid (slot c i) && sl_dirty (slot c i) && negb (sl_pending (slot c i)) && owned_by tag (slot c i)) eqn:Eb.
  - apply andb_true_iff in Eb as [[[Hv Hd]%andb_true_iff _]%andb_true_iff _].
    destruct (cache_rep_write_back c d f m i Hc Hv) as (d' & -> & _ & Hc' & Hdev & _).
    destruct (IH (i + 1)%nat (written i c) d') as (c2 & d2 & E & Hc2 & Hh & Hcl); [lia|by apply cache_rep_written| |exists c2, d2; by split_and!].
    intros j Hj Hvj. change (slot (written i c) j) with (slot (on_slot i (λ s, with_dirty false 0 (sl_since s) s) c) j) in Hvj |- *.
    rewrite slot_on_slot in Hvj |- *. destruct (decide _) as [[-> _]|Hne]; [done|]. apply Hclean; [|done].
    destruct (decide (j = i)) as [->|]; [|lia]. exfalso. apply Hne. split; [done|]. rewrite (cr_len _ _ _ _ Hc). lia.
  - destruct (IH (i + 1)%nat c d) as (c2 & d2 & E & Hc2 & Hh & Hcl); [lia|done| |exists c2, d2; by split_and!].
    intros j Hj Hvj. destruct (decide (j = i)) as [->|]; [|apply Hclean; [lia|done]]. pose proof (cr_slot _ _ _ _ Hc i Hvj) as Hs.
    unfold owned_by in Eb. rewrite Hvj, (so_pending _ _ Hs), (so_tag _ _ Hs), Z.eqb_refl in Eb. by destruct (sl_dirty (slot c i)).
Qed.

(** After a flush the device has every page. *)
Lemma flush_spec c d f m : cache_rep c d f m -> exists c' d', flush tag (c, d) = Some (Ok (), (c', d')) /\ cache_rep c' d' f m /\ ca_hash c' = ca_hash c /\
  forall l, page_ok l -> read_sectors d' l 8 = Some (f l).
Proof.
  intros Hc. destruct (flush_loop_spec CACHE_SIZE 0 c d f m eq_refl Hc) as (c' & d' & E & Hc' & Hh & Hcl); [lia|]. exists c', d'. split_and!; try done.
  intros l Hl. destruct (m !! page_key tag l) as [id|] eqn:Hm; [|by apply (cr_uncached _ _ _ _ Hc')].
  destruct (cached_slot c' d' f m l id Hc' Hl Hm) as (_ & Hv & Hlba & Hd & _). pose proof (cr_slot _ _ _ _ Hc' id Hv) as Hs.
  rewrite <-Hd, <-Hlba. apply read_page_data; [|apply Hs]. intros k Hk. apply Hs; [done|]. rewrite (so_clean _ _ Hs (Hcl id Hv)). apply Z.bits_0.
Qed.

(** ** Invalidation *)

(** Pages of the selected addresses are what the device has. *)
Definition dropped (d : D) (sel : Z -> bool) (f : Z -> list Z) : Z -> list Z := λ l, if sel l then default (f l) (read_sectors d l 8) else f l.

Lemma drop_loop_spec (sel : Z -> bool) n i c d f m : (i + n = CACHE_SIZE)%nat -> cache_rep c d f m ->
  (forall j, (j < i)%nat -> sl_valid (slot c j) = true -> sel (sl_lba (slot c j)) = false) ->
  exists f' m', cache_rep (drop_loop (λ s, sel (sl_lba s)) n i c) d f' m' /\ (forall l, page_ok l -> f' l = dropped d sel f l) /\
    (forall l, page_ok l -> sel l = true -> m' !! page_key tag l = None) /\ used_entries (ca_hash (drop_loop (λ s, sel (sl_lba s)) n i c)) = used_entries (ca_hash c).
Proof.
  revert i c f m. induction n as [|n IH]; intros i c f m Hi Hc Hdone; cbn [drop_loop].
  { exists f, m. split; [done|].
    assert (forall l, page_ok l -> sel l = true -> m !! page_key tag l = None) as Hnone.
    { intros l Hl Hs. destruct (m !! page_key tag l) as [id|] eqn:Hm; [|done]. destruct (cached_slot c d f m l id Hc Hl Hm) as (Hid & Hv & Hlba & _).
      rewrite <-Hlba in Hs. rewrite (Hdone id ltac:(lia) Hv) in Hs. done. }
    split; [|done]. intros l Hl. unfold dropped. destruct (sel l) eqn:Es; [|done]. by rewrite (cr_uncached _ _ _ _ Hc l Hl (Hnone l Hl Es)). }
  destruct (sl_valid (slot c i) && sel (sl_lba (slot c i))) eqn:Eb.
  - apply andb_true_iff in Eb as [Hv Hs]. pose proof (cr_slot _ _ _ _ Hc i Hv) as Hso. set (l0 := sl_lba (slot c i)) in *.
    assert (exists data, read_sectors d l0 8 = Some data) as [data Hdata].
    { assert (forall n l, (forall k, (k < n)%nat -> is_Some (read_sector d (l + Z.of_nat k))) -> is_Some (read_sectors d l n)) as Hrd.
      { clear. induction n as [|n IH]; intros l Hr; [by eexists|]. cbn [read_sectors]. destruct (Hr 0%nat ltac:(lia)) as [s Es]. rewrite Z.add_0_r in Es. rewrite Es. cbn.
        destruct (IH (l + 1)) as [rest ->]; [|by eexists]. intros k Hk. replace (l + 1 + Z.of_nat k) with (l + Z.of_nat (S k)) by lia. apply Hr. lia. }
      apply Hrd. intros k Hk. apply (cr_readable _ _ _ _ Hc). destruct (so_page _ _ Hso) as (? & ? & _). fold l0 in H1, H2. lia. }
    set (c1 := if sl_dirty (slot c i) then undirty c else c). assert (forall j, slot c1 j = slot c j) as Hsl by (intros j; unfold c1; by destruct (sl_dirty _)).
    assert (cache_rep c1 d f m) as Hc1 by (apply (cache_rep_same c); unfold c1; by destruct (sl_dirty _)).
    destruct (cache_rep_drop c1 d f m i data Hc1) as (Hcl & Hinv & Hu); [by rewrite Hsl|by rewrite Hsl|]. rewrite Hsl in Hcl. fold l0 in Hcl.
    destruct (IH (i + 1)%nat (drop_slot i c) (upd f l0 data) (delete (page_key tag l0) m)) as (f' & m' & Hc' & Hf' & Hm' & Hu'); [lia|exact Hcl| |].
    + intros j Hj Hvj. destruct (decide (j = i)) as [->|Hne]; [change (slot (drop_slot i c) i) with (slot (clear_slot i c1) i) in Hvj; congruence|].
      destruct (cr_lru _ _ _ _ Hc1) as (ids & Hl & _). destruct (clear_slot_facts c1 ids i Hl) as (_ & _ & _ & Hp & _); [rewrite (cr_len _ _ _ _ Hc1); lia|].
      destruct (payload_fields _ _ (Hp j Hne)) as (Ev & _ & _ & El & _). change (slot (drop_slot i c) j) with (slot (clear_slot i c1) j) in *. rewrite Ev, Hsl in Hvj.
      rewrite El, Hsl. apply Hdone; [lia|done].
    + exists f', m'. split; [exact Hc'|]. split; [|split; [done|]].
      * intros l Hl. rewrite Hf' by done. unfold dropped, upd. destruct (decide (l = l0)) as [->|]; [|done]. by rewrite Hs, Hdata.
      * rewrite Hu'. unfold drop_slot. fold c1. rewrite Hu. unfold c1. by destruct (sl_dirty _).
  - destruct (IH (i + 1)%nat c f m) as (f' & m' & Hrest); [lia|done| |by exists f', m'].
    intros j Hj Hvj. destruct (decide (j = i)) as [->|]; [|apply Hdone; [lia|done]]. by rewrite Hvj in Eb.
Qed.

Definition in_range (start_lba end_lba l : Z) : bool := (Z.ldiff start_lba 7 <=? l) && (l <=? Z.ldiff (sat_sub end_lba 1) 7).

Lemma invalidate_spec a b c d f m : cache_rep c d f m -> exists f' m', cache_rep (pc_invalidate_range a b c) d f' m' /\
  (forall l, page_ok l -> f' l = dropped d (in_range a b) f l) /\ (forall l, page_ok l -> in_range a b l = true -> m' !! page_key tag l = None) /\
  used_entries (ca_hash (pc_invalidate_range a b c)) = used_entries (ca_hash c).
Proof. intros Hc. apply (drop_loop_spec (in_range a b) CACHE_SIZE 0 c d f m); [done|done|lia]. Qed.

(** Invalidating the eight sectors of a page drops that page only. *)
Lemma in_range_page l x : page_ok l -> page_ok x -> in_range l (l + 8) x = true <-> x = l.
Proof.
  intros (Hl & _ & Hlr) (Hx & _ & Hxr). unfold in_range, sat_sub. rewrite andb_true_iff, !Z.leb_le.
  assert (forall y, Z.ldiff y 7 = y - y `mod` 8) as E.
  { intros y. change 7 with (Z.ones 3). rewrite Z.ldiff_ones_r, Z.shiftl_mul_pow2, Z.shiftr_div_pow2 by lia. change (2 ^ 3) with 8. pose proof (Z.div_mod y 8 ltac:(lia)). lia. }
  rewrite !E, Hlr. pose proof (Z.mod_pos_bound l 8 ltac:(lia)). pose proof (Z.mod_pos_bound (Z.max 0 (l + 8 - 1)) 8 ltac:(lia)).
  pose proof (Z.div_mod l 8 ltac:(lia)). pose proof (Z.div_mod x 8 ltac:(lia)). pose proof (Z.div_mod (Z.max 0 (l + 8 - 1)) 8 ltac:(lia)). lia.
Qed.

(** A page written to the device and invalidated. *)
Lemma direct_write_spec c d f m l buf : cache_rep c d f m -> page_ok l -> length buf = BLOCK_SIZE ->
  exists d' m', write_sectors d l 8 buf = (true, d') /\ cache_rep (pc_invalidate_range l (l + 8) c) d' (upd f l buf) m'.
Proof.
  intros Hc Hl Hlen. destruct (invalidate_spec l (l + 8) c d f m Hc) as (f1 & m1 & Hc1 & Hf1 & Hm1 & _).
  set (c' := pc_invalidate_range l (l + 8) c) in *. clearbody c'. pose proof Hl as (Hl0 & Hl8 & _).
  destruct (write_sectors_spec d cap l 8 buf (cr_dev _ _ _ _ Hc)) as (d' & E & Hok & Hrd & Hother); [lia|lia|done|]. exists d', m1. split; [done|].
  assert (m1 !! page_key tag l = None) as Hml by (apply Hm1; [done|by apply in_range_page]).
  assert (forall l', page_ok l' -> l' ≠ l -> forall k, (k < 8)%nat -> read_sector d' (l' + Z.of_nat k) = read_sector d (l' + Z.of_nat k)) as Hsame.
  { intros l' Hl' Hne k Hk. apply Hother. intros Hin. apply (pages_disjoint l' l k (Z.to_nat (l' + Z.of_nat k - l))); try done; lia. }
  assert (forall x, page_ok x -> x ≠ l -> f1 x = f x) as Hff.
  { intros x Hx Hne. rewrite Hf1 by done. unfold dropped. destruct (in_range l (l + 8) x) eqn:Er; [|done]. apply in_range_page in Er; done. }
  assert (forall i, sl_valid (slot c' i) = true -> sl_lba (slot c' i) ≠ l) as Hlba.
  { intros i Hv E'. assert (m1 !! page_key tag l = Some i) as X; [|congruence]. apply (cr_map _ _ _ _ Hc1). rewrite <-E'. split_and!; try done. by apply (slot_past c'); [apply Hc1|]. }
  constructor; try apply Hc1; try done.
  - intros i Hv. pose proof (cr_slot _ _ _ _ Hc1 i Hv) as Hs. constructor; try apply Hs. intros k Hk Hb. rewrite Hsame; [by apply Hs|apply Hs|by apply Hlba|done].
  - intros x Hx. destruct (decide (l <= x < l + 8)) as [Hin|Hout]; [|rewrite Hother by lia; by apply (cr_readable _ _ _ _ Hc1)].
    apply (read_sectors_inv d' cap) in Hrd as [_ Hrd]; [|done]. replace x with (l + Z.of_nat (Z.to_nat (x - l))) by lia. rewrite Hrd by lia. by eexists.
  - intros i Hv. unfold upd. rewrite decide_False by (by apply Hlba). rewrite <-Hff; [by apply (cr_cached _ _ _ _ Hc1)|by apply (cr_slot _ _ _ _ Hc1)|by apply Hlba].
  - intros l' Hl' Hm'. unfold upd. destruct (decide (l' = l)) as [->|Hne]; [done|]. rewrite (read_sectors_same d d') by (by apply Hsame).
    rewrite <-Hff by done. by apply (cr_uncached _ _ _ _ Hc1).
Qed.
End view.
