(* ===== verification/PageCacheRuns.v ===== *)
(** * PageCacheRuns.v: sequences of accesses to the page cache

    Sequences that touch at most 128 pages see a plain store of pages, so the cache
    provides what file reading and writing rely on; once 128 pages have been loaded,
    a page that is changed reads as it was before. *)

From stdpp Require Import gmap.
From S2P Require Import Prelude Bytes BNode FreeList NeoDisk NeoDir NeoFile PageHash PageCache PageLru PageCacheOk.
Open Scope Z_scope.

Section runs.
Context {D : Type} `{BlockDeviceLaws D}.
Context (tag r cap : Z) (Hcap : cap <= 2 ^ 48).

(** A working device, all of whose sectors are readable. *)
Definition device_ready (d : D) : Prop := dev_ok d cap /\ forall l, 0 <= l < cap -> is_Some (read_sector d l).
(** Its pages. *)
Definition device_page (d : D) (l : Z) : list Z := default [] (read_sectors d l 8).

Lemma read_sectors_ready d l n : device_ready d -> 0 <= l -> l + Z.of_nat n <= cap -> is_Some (read_sectors d l n).
Proof.
  intros [_ Hr]. revert l. induction n as [|n IH]; intros l Hl Hn; [by eexists|]. cbn [read_sectors]. destruct (Hr l ltac:(lia)) as [s ->]. cbn.
  destruct (IH (l + 1) ltac:(lia) ltac:(lia)) as [rest ->]. by eexists.
Qed.

Lemma pc_new_rep d : device_ready d -> cache_rep tag r cap pc_new d (device_page d) ∅.
Proof.
  intros Hd. assert (forall i, slot pc_new i = EMPTY_SLOT) as Hs.
  { intros i. unfold slot. rewrite list_lookup_total_alt. destruct (ca_slots pc_new !! i) eqn:E; [|done]. by apply lookup_replicate in E as [-> _]. }
  constructor; try apply Hd; try (intros i; rewrite Hs; done).
  - apply length_replicate.
  - exists []. split; [apply pc_new_lru|]. intros i. rewrite Hs. split; [by intros ?%not_elem_of_nil|by intros [_ ?]].
  - apply ht_new_rep.
  - intros k i. rewrite Hs, lookup_empty. split; [done|by intros (_ & ? & _)].
  - intros l (? & ? & _) _. unfold device_page. by destruct (read_sectors_ready d l 8 Hd) as [p ->]; [lia..|].
Qed.

(** ** A store of pages for a working set *)

Context (W : list Z) (HW : (length W <= CACHE_SIZE)%nat) (HWok : Forall (page_ok r cap) W).

Definition work_keys : gset Z := list_to_set (page_key tag <$> W).
(** The view, with no more entries used than pages loaded, all of the working set. *)
Definition work_view (s : PgCache * D) (f : Z -> list Z) : Prop := exists m,
  cache_rep tag r cap s.1 s.2 f m /\ (used_entries (ca_hash s.1) <= size m)%nat /\ dom m ⊆ work_keys.

Lemma work_room s f m l : cache_rep tag r cap s.1 s.2 f m -> (used_entries (ca_hash s.1) <= size m)%nat -> dom m ⊆ work_keys -> l ∈ W ->
  m !! page_key tag l = None -> (size m < CACHE_SIZE)%nat.
Proof.
  intros Hc Hu Hd Hl Hm. assert (size m < size work_keys)%nat as Hlt.
  { rewrite <-size_dom. apply subset_size. split; [done|]. intros Hsub. apply not_elem_of_dom in Hm. apply Hm, Hsub.
    apply elem_of_list_to_set, list_elem_of_fmap. eauto. }
  eapply Nat.lt_le_trans; [exact Hlt|]. etrans; [|exact HW]. unfold work_keys. rewrite <-(length_fmap (page_key tag) W).
  generalize (page_key tag <$> W). intros ks. clear. induction ks as [|k ks IH]; [done|]. cbn [list_to_set length].
  rewrite size_union_alt, size_singleton. pose proof (subseteq_size (list_to_set ks ∖ {[k]}) (list_to_set ks : gset Z) ltac:(set_solver)). lia.
Qed.

Lemma work_access c c' d d' f f' m m' l : cache_rep tag r cap c d f m -> (used_entries (ca_hash c) <= size m)%nat -> dom m ⊆ work_keys -> l ∈ W ->
  access tag c c' m m' l -> cache_rep tag r cap c' d' f' m' -> work_view (c', d') f'.
Proof.
  intros Hc Hu Hd Hl [A1 A2 A3] Hc'. exists m'. split; [done|]. destruct (m !! page_key tag l) as [id|] eqn:Hm.
  - rewrite A2 by done. rewrite decide_True in A1 by done. split; [cbn [fst]; lia|done].
  - rewrite decide_False in A1 by (by intros []). destruct (A3 eq_refl) as [id ->]; [by apply (work_room (c, d) f m l)|]. cbn [fst].
    rewrite map_size_insert_None by done. split; [lia|]. rewrite dom_insert. apply union_subseteq. split; [|done].
    apply singleton_subseteq_l, elem_of_list_to_set, list_elem_of_fmap. eauto.
Qed.

Lemma work_has_room s f m l : cache_rep tag r cap s.1 s.2 f m -> (used_entries (ca_hash s.1) <= size m)%nat -> dom m ⊆ work_keys -> l ∈ W -> room tag s.1 m l.
Proof.
  intros Hc Hu Hd Hl. unfold room. destruct (m !! page_key tag l) as [id|] eqn:Hm; [left; by eexists|right].
  pose proof (work_room s f m l Hc Hu Hd Hl Hm). lia.
Qed.

Lemma work_page l : l ∈ W -> page_ok r cap l.
Proof. intros Hl. rewrite Forall_forall in HWok. by apply HWok. Qed.

Lemma work_read s f drive ino block l : work_view s f -> l ∈ W ->
  exists s', pc_read_page drive ino block l tag s = Some (Ok (f l), s') /\ work_view s' f.
Proof.
  intros (m & Hc & Hu & Hd) Hl. destruct s as [c d]. cbn [fst snd] in *.
  destruct (read_page_spec tag r cap Hcap c d f m drive ino block l Hc (work_page l Hl)) as (c' & d' & m' & E & Hc' & Hac); [by apply (work_has_room (c, d) f)|].
  exists (c', d'). split; [done|]. by apply (work_access c c' d d' f f m m' l).
Qed.

Lemma work_change s f drive ino block l g : work_view s f -> l ∈ W -> length (g (f l)) = BLOCK_SIZE ->
  exists s', pc_change_page drive ino block l tag g s = Some (Ok (), s') /\ work_view s' (upd f l (g (f l))).
Proof.
  intros (m & Hc & Hu & Hd) Hl Hg. destruct s as [c d]. cbn [fst snd] in *.
  destruct (change_page_spec tag r cap Hcap c d f m drive ino block l g Hc (work_page l Hl)) as (c' & d' & m' & E & Hc' & Hac); [by apply (work_has_room (c, d) f)|done|].
  exists (c', d'). split; [done|]. by apply (work_access c c' d d' f (upd f l (g (f l))) m m' l).
Qed.

Lemma work_flush s f : work_view s f -> exists s', flush tag s = Some (Ok (), s') /\ work_view s' f /\ forall l, page_ok r cap l -> read_sectors s'.2 l 8 = Some (f l).
Proof.
  intros (m & Hc & Hu & Hd). destruct s as [c d]. destruct (flush_spec tag r cap Hcap c d f m Hc) as (c' & d' & E & Hc' & Hh & Hall).
  exists (c', d'). split; [done|]. split; [|done]. exists m. cbn [fst snd] in *. by rewrite Hh.
Qed.

Lemma work_new d : device_ready d -> work_view (pc_new, d) (device_page d).
Proof. intros Hd. exists ∅. split; [by apply pc_new_rep|]. split; [|rewrite dom_empty; apply empty_subseteq].
  change (used_entries (ht_new CACHE_SIZE) <= size (∅ : gmap Z nat))%nat. rewrite used_new. lia.
Qed.
End runs.

(** ** With the table full *)

Section full.
Context {D : Type} `{BlockDeviceLaws D}.
Context (tag r cap : Z) (Hcap : cap <= 2 ^ 48).

(** A page was changed that the table could not take: the slot [id] has it, and
    [c0] is the cache without that slot. *)
Record forgotten (c0 c : PgCache) (d : D) (f : Z -> list Z) (m : gmap Z nat) (l : Z) (id : nat) : Prop := {
  fg_rep : cache_rep tag r cap c0 d f m;
  fg_len : length (ca_slots c) = CACHE_SIZE;
  fg_hash : ca_hash c = ca_hash c0;
  fg_new : m !! page_key tag l = None;
  fg_id : (id < CACHE_SIZE)%nat;
  fg_lru : exists ids, lru_rep c (id :: ids) /\ forall i, i ∈ ids <-> (i < CACHE_SIZE)%nat /\ sl_valid (slot c0 i) = true;
  fg_dirty : sl_dirty (slot c id) = true;
  fg_same j : j ≠ id -> payload (slot c j) = payload (slot c0 j);
}.

Lemma forgotten_same c0 c c' d f m l id : forgotten c0 c d f m l id -> ca_slots c' = ca_slots c -> ca_hash c' = ca_hash c -> ca_head c' = ca_head c -> ca_tail c' = ca_tail c ->
  forgotten c0 c' d f m l id.
Proof.
  intros [] Hs Hh Hd Ht. assert (forall i, slot c' i = slot c i) as Hsl by (intros i; unfold slot; by rewrite Hs).
  constructor; try done; rewrite ?Hs, ?Hh, ?Hsl; try done.
  - destruct fg_lru0 as (ids & Hl & Hi). exists ids. split; [|done]. apply (lru_rep_same c); try done; [by rewrite Hs|]. intros i. by rewrite Hsl.
  - intros j Hj. rewrite Hsl. by apply fg_same0.
Qed.

(** Loading gives the page the device has, whether the table takes it or not. *)
Lemma populate_data c (d : D) id l ik data : (id < length (ca_slots c))%nat -> read_sectors d l 8 = Some data ->
  exists c', populate_slot id l tag ik (c, d) = Some (Ok (), (c', d)) /\ sl_data (slot c' id) = data.
Proof.
  intros Hid Hr. unfold populate_slot. rewrite Hr. eexists. split; [reflexivity|].
  match goal with |- context [move_to_head id ?x] => destruct (move_to_head_frame id x) as (_ & _ & _ & _ & Hp); destruct (payload_fields _ _ (Hp id)) as (_ & _ & _ & _ & _ & _ & ->) end.
  change (slot (set_hash ?h ?x) id) with (slot x id). rewrite slot_on_slot, decide_True by done. done.
Qed.

Lemma forgotten_evict c0 c d f m l id : forgotten c0 c d f m l id -> page_ok r cap l ->
  exists id' c' d', evict_lru tag (c, d) = Some (Ok id', (c', d')) /\ (id' < length (ca_slots c'))%nat /\ read_sectors d' l 8 = read_sectors d l 8.
Proof.
  intros Hf Hl. unfold evict_lru. destruct (list_find _ (ca_slots c)) as [[i s]|] eqn:Ef.
  { apply slot_free in Ef as [Hi _]. by exists i, c, d. }
  pose proof (slots_full c (fg_len _ _ _ _ _ _ _ Hf) Ef) as Hfull. destruct (fg_lru _ _ _ _ _ _ _ Hf) as (ids & Hlru & Hi).
  rewrite (lr_tail _ _ Hlru), (find_clean_spec c (id :: ids) (id :: ids) []); [|done|by rewrite app_nil_r|apply (lru_members_length c (id :: ids)); [apply Hf|done]].
  cbn [mbind option_bind]. rewrite filter_cons, decide_False by (rewrite (fg_dirty _ _ _ _ _ _ _ Hf); done).
  pose proof (lr_nodup _ _ Hlru) as [Hnin _]%NoDup_cons.
  assert (exists v, match last (filter (λ i, sl_dirty (slot c i) = false) ids) with Some v => v | None => default 0%nat (last (id :: ids)) end = v /\ v ∈ ids) as (v & -> & Hv).
  { destruct (last (filter _ ids)) as [v|] eqn:El; [exists v; split; [done|]; apply last_Some_elem_of, list_elem_of_filter in El as [_ ?]; done|].
    destruct ids as [|x ids'].
    - exfalso. assert (exists j, (j < CACHE_SIZE)%nat /\ j ≠ id) as (j & Hj & Hne) by (destruct (decide (id = 0%nat)) as [->|]; [exists 1%nat|exists 0%nat]; unfold CACHE_SIZE; lia).
      assert (j ∈ @nil nat) as Hbad; [|by apply not_elem_of_nil in Hbad]. apply Hi. split; [done|].
      destruct (payload_fields _ _ (fg_same _ _ _ _ _ _ _ Hf j Hne)) as (<- & _). by apply Hfull.
    - rewrite last_cons_cons. destruct (last (x :: ids')) as [v|] eqn:El2; [|by apply last_None in El2]. exists v. split; [done|]. by apply last_Some_elem_of in El2. }
  assert (v ≠ id) as Hne by (by intros ->). pose proof Hv as [Hvlt Hvv]%Hi.
  destruct (payload_fields _ _ (fg_same _ _ _ _ _ _ _ Hf v Hne)) as (_ & Ed & Ep & El & Et & Es & Eda).
  pose proof (cr_slot _ _ _ _ _ _ _ (fg_rep _ _ _ _ _ _ _ Hf) v Hvv) as Hso.
  eexists _, _, _. split; [reflexivity|]. split.
  - rewrite <-(fg_len _ _ _ _ _ _ _ Hf) in Hvlt. set (c1 := count evicted (if sl_dirty (slot c v) then undirty c else c)).
    assert (ca_slots c1 = ca_slots c) as Ec1 by (unfold c1; by destruct (sl_dirty _)). unfold clear_slot. rewrite length_on_slot. cbn [set_hash ca_slots].
    destruct (unlink_frame v c1) as (-> & _). by rewrite Ec1.
  - destruct (must_write tag (slot c v)); [|done]. rewrite El, Es, Eda.
    destruct (cache_rep_write_back tag r cap c0 d f m v (fg_rep _ _ _ _ _ _ _ Hf) Hvv) as (d' & _ & -> & _ & _ & Hother).
    apply read_sectors_same. intros k Hk. apply Hother. intros k' Hk'. eapply pages_disjoint; try done; [apply Hso|]. intros ->.
    pose proof (fg_new _ _ _ _ _ _ _ Hf) as Hn. assert (m !! page_key tag (sl_lba (slot c0 v)) = Some v) as X; [|congruence].
    apply (cr_map _ _ _ _ _ _ _ (fg_rep _ _ _ _ _ _ _ Hf)). done.
Qed.

(** A page that is loaded without an entry for it. *)
Lemma populate_full c d f m id l ik : cache_rep tag r cap c d f m -> (id < CACHE_SIZE)%nat -> sl_valid (slot c id) = false -> page_ok r cap l ->
  m !! page_key tag l = None -> used_entries (ca_hash c) = CACHE_SIZE ->
  exists c' ids, populate_slot id l tag ik (c, d) = Some (Ok (), (c', d)) /\ length (ca_slots c') = CACHE_SIZE /\ ca_hash c' = ca_hash c /\ lru_rep c' (id :: ids) /\
    (forall i, i ∈ ids <-> (i < CACHE_SIZE)%nat /\ sl_valid (slot c i) = true) /\ forall j, j ≠ id -> payload (slot c' j) = payload (slot c j).
Proof.
  intros Hc Hid Hinv Hl Hm Hu. destruct (cr_lru _ _ _ _ _ _ _ Hc) as (ids & Hlru & Hi). pose proof (cr_uncached _ _ _ _ _ _ _ Hc l Hl Hm) as Hr.
  unfold populate_slot. rewrite Hr. set (s := mkSlot _ _ _ _ _ _ _ _ _ _ _). set (c1 := on_slot id (λ _, s) c). change (ca_hash c1) with (ca_hash c).
  rewrite (ht_insert_full CACHE_SIZE (ca_hash c) m) by (done || apply Hc || (by apply (key_live tag r cap)) || (unfold CACHE_SIZE; lia)). cbn [snd].
  set (c2 := set_hash (ca_hash c) c1). assert (length (ca_slots c2) = CACHE_SIZE) as Hlen2 by (cbn; rewrite length_alter; apply Hc).
  assert (forall j, slot c2 j = if decide (j = id) then s else slot c j) as Hs2.
  { intros j. change (slot c2 j) with (slot c1 j). unfold c1. rewrite slot_on_slot, (cr_len _ _ _ _ _ _ _ Hc).
    destruct (decide (j = id)) as [->|]; [by rewrite decide_True|by rewrite decide_False by tauto]. }
  assert (id ∉ ids) as Hnin by (rewrite Hi; intros [_ ?]; congruence).
  assert (lru_rep c2 ids) as Hlru2.
  { apply (lru_rep_same c); try done; [rewrite Hlen2; symmetry; apply Hc|]. intros j. rewrite Hs2. destruct (decide (j = id)) as [->|]; [|done].
    destruct (lr_free _ _ Hlru id Hnin) as [-> ->]. done. }
  pose proof (lru_move c2 ids id Hlru2 ltac:(by rewrite Hlen2)) as Hlru3. rewrite filter_all in Hlru3 by (intros x Hx ->; done).
  destruct (move_to_head_frame id c2) as (Hlen & Hh3 & _ & _ & Hp). exists (move_to_head id c2), ids. split_and!; try done; [by rewrite Hlen|].
  intros j Hj. by rewrite Hp, Hs2, decide_False.
Qed.

Lemma change_full c d f m drive ino block l g : cache_rep tag r cap c d f m -> page_ok r cap l -> m !! page_key tag l = None -> used_entries (ca_hash c) = CACHE_SIZE ->
  exists c0 c' d' m' id, pc_change_page drive ino block l tag g (c, d) = Some (Ok (), (c', d')) /\ forgotten c0 c' d' f m' l id.
Proof.
  intros Hc Hl Hm Hu. set (ct := count miss (count tick c)). assert (cache_rep tag r cap ct d f m) as Hct by (by apply (cache_rep_same tag r cap c)).
  destruct (evict_lru_spec tag r cap Hcap ct d f m Hct) as (id & c0 & d0 & m0 & E & Hc0 & Hsub & Hid & Hinv & Hu0 & _).
  assert (m0 !! page_key tag l = None) as Hm0 by (by eapply lookup_weaken_None).
  destruct (populate_full c0 d0 f m0 id l (make_inode_key drive ino block) Hc0 Hid Hinv Hl Hm0) as (c1 & ids & E1 & Hlen1 & Hh1 & Hlru1 & Hi & Hp1); [by rewrite Hu0|].
  set (c2 := update_readahead block c1). destruct (mark_slot c2 id 0xFF) as (since & Hs3 & Hlen3 & Hh3 & Hhd3 & Htl3); [by change (ca_slots c2) with (ca_slots c1); rewrite Hlen1|].
  set (c3 := mark 0xFF id c2) in *. exists c0, (on_slot id (with_data (g (sl_data (slot c3 id)))) c3), d0, m0, id. split.
  - unfold pc_change_page, mbind at 1 2, P_bind at 1 2. cbn [doC getC fst snd]. rewrite (cached_rep tag r cap Hcap (count tick c) d f m l) by (done || by apply (cache_rep_same tag r cap c)).
    rewrite Hm. unfold mbind at 1, P_bind at 1, mbind at 1, P_bind at 1. cbn [doC fst snd]. fold ct. unfold refill, mbind, P_bind. by rewrite E, E1.
  - assert (forall j, slot (on_slot id (with_data (g (sl_data (slot c3 id)))) c3) j = if decide (j = id) then with_data (g (sl_data (slot c3 id))) (slot c3 id) else slot c1 j) as Hs4.
    { intros j. rewrite slot_on_slot, Hlen3. change (ca_slots c2) with (ca_slots c1). rewrite Hlen1. destruct (decide (j = id)) as [->|]; [by rewrite decide_True|].
      rewrite decide_False by tauto. by rewrite Hs3, decide_False. }
    assert (slot c3 id = with_dirty true 0xFF since (slot c1 id)) as Hs3id by (by rewrite Hs3, decide_True).
    constructor; try done.
    + rewrite length_on_slot, Hlen3. done.
    + change (ca_hash (on_slot ?i ?x ?y)) with (ca_hash y). by rewrite Hh3.
    + exists ids. split; [|done]. apply (lru_rep_same c1); try done; [by rewrite length_on_slot, Hlen3|]. intros j. rewrite Hs4, Hs3id. by destruct (decide (j = id)) as [->|].
    + by rewrite Hs4, decide_True, Hs3id.
    + intros j Hj. rewrite Hs4, decide_False by done. by apply Hp1.
Qed.

Lemma forgotten_read c0 c d f m drive ino block l id : forgotten c0 c d f m l id -> page_ok r cap l ->
  exists s', pc_read_page drive ino block l tag (c, d) = Some (Ok (f l), s').
Proof.
  intros Hf Hl. set (ct := count miss (count tick c)). assert (forgotten c0 ct d f m l id) as Hft by (by apply (forgotten_same c0 c)).
  destruct (forgotten_evict c0 ct d f m l id Hft Hl) as (id' & c1 & d1 & E & Hid & Hr).
  rewrite (cr_uncached _ _ _ _ _ _ _ (fg_rep _ _ _ _ _ _ _ Hf) l Hl (fg_new _ _ _ _ _ _ _ Hf)) in Hr.
  destruct (populate_data c1 d1 id' l (make_inode_key drive ino block) (f l) Hid Hr) as (c2 & E2 & Hdata).
  exists (update_readahead block c2, d1). unfold pc_read_page, mbind at 1 2, P_bind at 1 2. cbn [doC getC fst snd].
  assert (cached (count tick c) tag l = None) as ->.
  { unfold cached. change (ca_hash (count tick c)) with (ca_hash c). rewrite (fg_hash _ _ _ _ _ _ _ Hf).
    rewrite (ht_get_rep CACHE_SIZE _ m); [apply Hf|apply (fg_rep _ _ _ _ _ _ _ Hf)|by apply (key_live tag r cap)]. }
  unfold mbind at 1, P_bind at 1, mbind at 1, P_bind at 1. cbn [doC fst snd]. fold ct. unfold refill, mbind, P_bind. rewrite E, E2. unfold mret, P_ret, doC, getC. cbn [fst snd].
  change (slot (update_readahead block c2) id') with (slot c2 id'). by rewrite Hdata.
Qed.
End full.

(** ** Sequences of accesses *)

Inductive cache_op := RdPage (block l : Z) | WrPage (block l : Z) (g : list Z -> list Z) | Sync.

Section sequences.
Context {D : Type} `{BlockDeviceLaws D}.

(** The pages read, and the state at the end; [None] if an access fails. *)
Fixpoint run_cache (tag : Z) (ops : list cache_op) (s : PgCache * D) : option (list (list Z) * (PgCache * D)) :=
  match ops with
  | [] => Some ([], s)
  | RdPage block l :: ops =>
      match pc_read_page 0 0 block l tag s with
      | Some (Ok p, s) => '(ps, s) ← run_cache tag ops s; Some (p :: ps, s)
      | _ => None
      end
  | WrPage block l g :: ops => match pc_change_page 0 0 block l tag g s with Some (Ok _, s) => run_cache tag ops s | _ => None end
  | Sync :: ops => match flush tag s with Some (Ok _, s) => run_cache tag ops s | _ => None end
  end.

(** The same on a plain store of pages. *)
Fixpoint run_store (ops : list cache_op) (f : Z -> list Z) : list (list Z) * (Z -> list Z) :=
  match ops with
  | [] => ([], f)
  | RdPage _ l :: ops => let '(ps, f') := run_store ops f in (f l :: ps, f')
  | WrPage _ l g :: ops => run_store ops (upd f l (g (f l)))
  | Sync :: ops => run_store ops f
  end.

Definition op_in (W : list Z) (o : cache_op) : Prop :=
  match o with
  | RdPage _ l => l ∈ W
  | WrPage _ l g => l ∈ W /\ forall p, length p = BLOCK_SIZE -> length (g p) = BLOCK_SIZE
  | Sync => True
  end.

Lemma run_cache_work tag r cap W ops s f : cap <= 2 ^ 48 -> (length W <= CACHE_SIZE)%nat -> Forall (page_ok r cap) W -> Forall (op_in W) ops ->
  work_view tag r cap W s f -> exists s', run_cache tag ops s = Some ((run_store ops f).1, s') /\ work_view tag r cap W s' (run_store ops f).2.
Proof.
  intros Hcap HW HWok Hops. revert s f. induction Hops as [|o ops Ho Hops IH]; intros s f Hv; [by exists s|]. destruct o as [block l|block l g|]; cbn [run_cache run_store].
  - destruct (work_read tag r cap Hcap W HW HWok s f 0 0 block l Hv Ho) as (s1 & -> & Hv1). destruct (IH s1 f Hv1) as (s2 & -> & Hv2).
    exists s2. by destruct (run_store ops f).
  - destruct Ho as [Ho Hg]. destruct (work_change tag r cap Hcap W HW HWok s f 0 0 block l g Hv Ho) as (s1 & -> & Hv1); [|by apply IH].
    apply Hg. destruct Hv as (m & Hc & _). apply (f_len tag r cap Hcap _ _ _ _ _ Hc). by apply (work_page r cap W).
  - destruct (work_flush tag r cap Hcap W s f Hv) as (s1 & -> & Hv1 & _). by apply IH.
Qed.

(** C22. The page cache is coherent on working sets of up to 128 pages of one device,
    at addresses that agree modulo 8 and lie below 2^48 sectors.  From an
    empty cache on, every sequence of page reads, changes and flushes on such a set
    succeeds and reads what a plain store of pages would, whatever was cached when;
    and after a final flush the device holds every page as the store has it. *)
Theorem page_cache_coherent tag r cap W ops (d : D) :
  cap <= 2 ^ 48 -> (length W <= CACHE_SIZE)%nat -> Forall (page_ok r cap) W -> Forall (op_in W) ops -> device_ready cap d ->
  exists s s', run_cache tag ops (pc_new, d) = Some ((run_store ops (device_page d)).1, s) /\
    flush tag s = Some (Ok (), s') /\ forall l, page_ok r cap l -> read_sectors s'.2 l 8 = Some ((run_store ops (device_page d)).2 l).
Proof.
  intros Hcap HW HWok Hops Hd. destruct (run_cache_work tag r cap W ops (pc_new, d) (device_page d)) as (s & E & Hv); try done; [by apply work_new|].
  destruct (work_flush tag r cap Hcap W s _ Hv) as (s' & E' & _ & Hall). by exists s, s'.
Qed.

(** C23. When every slot is in use, eviction gives up the least recently used clean
    page, or the least recently used one if none is clean, in which case it is
    written to the device first.  Either way every page still reads as before.  This
    is for a cache whose pages are all of one device, at addresses that agree modulo 8
    below 2^48 sectors, that can be written, and all found by the hash table, which is
    so as long as no more than 128 different pages were loaded. *)
Theorem eviction_correct tag r cap c (d : D) f m : cap <= 2 ^ 48 -> cache_rep tag r cap c d f m -> (forall i, (i < CACHE_SIZE)%nat -> sl_valid (slot c i) = true) ->
  exists ids id c' d', lru_rep c ids /\ victim_of c ids = Some id /\ evict_lru tag (c, d) = Some (Ok id, (c', d')) /\ sl_valid (slot c' id) = false /\
    cache_rep tag r cap c' d' f (delete (page_key tag (sl_lba (slot c id))) m).
Proof.
  intros Hcap Hc Hfull. destruct (evict_lru_spec tag r cap Hcap c d f m Hc) as (id & c' & d' & m' & E & Hc' & _ & Hid & Hinv & _ & Hcase).
  destruct Hcase as [[= -> -> ->]|(_ & ids & Hl & Hv & ->)]; [rewrite (Hfull id Hid) in Hinv; done|]. exists ids, id, c', d'. by split_and!.
Qed.

(** A block written straight to the device and invalidated in the cache, as
    B-tree nodes are, reads as written from then on; no other page changes, in
    particular no other changed page is lost. *)
Theorem direct_write_visible tag r cap c (d : D) f m l buf : cap <= 2 ^ 48 -> cache_rep tag r cap c d f m -> page_ok r cap l -> length buf = BLOCK_SIZE ->
  exists d' m', write_sectors d l 8 buf = (true, d') /\ cache_rep tag r cap (pc_invalidate_range l (l + 8) c) d' (upd f l buf) m'.
Proof. intros Hcap Hc Hl Hb. by apply direct_write_spec with (m := m). Qed.

Definition read_all (W : list Z) : list cache_op := map (RdPage 0) W.

(** Reading distinct pages fills the table. *)
Lemma read_all_used tag r cap W s f m : cap <= 2 ^ 48 -> (length W + size m <= CACHE_SIZE)%nat -> NoDup W -> Forall (page_ok r cap) W ->
  cache_rep tag r cap s.1 s.2 f m -> used_entries (ca_hash s.1) = size m -> Forall (λ l, m !! page_key tag l = None) W ->
  exists ps s' m', run_cache tag (read_all W) s = Some (ps, s') /\ cache_rep tag r cap s'.1 s'.2 f m' /\ used_entries (ca_hash s'.1) = size m' /\ size m' = (length W + size m)%nat /\
    forall l, page_ok r cap l -> l ∉ W -> m !! page_key tag l = None -> m' !! page_key tag l = None.
Proof.
  intros Hcap. revert s m. induction W as [|l W IH]; intros s m HW Hnd Hok Hc Hu Hnew; cbn [read_all map run_cache length] in *.
  { exists [], s, m. by split_and!. }
  apply NoDup_cons in Hnd as [Hl Hnd]. apply Forall_cons in Hok as [Hlok Hok], Hnew as [Hml Hnew]. destruct s as [c d]. cbn [fst snd] in *.
  destruct (read_page_spec tag r cap Hcap c d f m 0 0 0 l Hc Hlok) as (c1 & d1 & m1 & E & Hc1 & [A1 _ A3]); [right; lia|]. rewrite E.
  destruct (A3 Hml ltac:(lia)) as [id ->]. rewrite Hml, decide_False in A1 by (by intros []).
  pose proof (size_le_used CACHE_SIZE _ _ (cr_hash _ _ _ _ _ _ _ Hc1)) as Hsz. rewrite map_size_insert_None in Hsz by done.
  destruct (IH (c1, d1) (<[page_key tag l := id]> m)) as (ps & s' & m' & E' & Hc' & Hu' & Hsz' & Hkeep); try done; rewrite ?map_size_insert_None by done; cbn [fst]; try lia.
  - rewrite Forall_forall in *. intros x Hx. rewrite lookup_insert_ne; [by apply Hnew|]. intros Ek. apply (key_inj tag r cap Hcap) in Ek; [by subst|done|by apply Hok].
  - exists (f l :: ps), s', m'. rewrite map_size_insert_None in Hsz' by done. split; [unfold read_all in E'; by rewrite E'|]. split_and!; try done; [lia|].
    intros x Hx Hxl Hmx. apply not_elem_of_cons in Hxl as [Hne Hxl]. apply Hkeep; [done|done|]. rewrite lookup_insert_ne; [done|].
    intros Ek. apply (key_inj tag r cap Hcap) in Ek; [by subst|done|done].
Qed.

(** The hash table has as many entries as the cache has slots, and does not
    reuse a tombstone unless it also finds an empty entry.  Once 128 different
    pages have been read, any other page can be changed, but reading it right
    afterwards gives its old content: the changed copy is not found again. *)
Theorem cache_forgets_pages tag r cap W l g (d : D) :
  cap <= 2 ^ 48 -> length W = CACHE_SIZE -> NoDup W -> Forall (page_ok r cap) W -> page_ok r cap l -> l ∉ W -> device_ready cap d ->
  exists ps s1 s2 s3, run_cache tag (read_all W) (pc_new, d) = Some (ps, s1) /\ pc_change_page 0 0 0 l tag g s1 = Some (Ok (), s2) /\
    pc_read_page 0 0 0 l tag s2 = Some (Ok (device_page d l), s3).
Proof.
  intros Hcap HW Hnd Hok Hl Hnin Hd. pose proof (pc_new_rep tag r cap d Hd) as Hnew.
  destruct (read_all_used tag r cap W (pc_new, d) (device_page d) ∅) as (ps & [c1 d1] & m1 & E & Hc1 & Hu1 & Hsz & Hkeep); try done.
  { by rewrite map_size_empty, HW. }
  { apply Forall_forall. intros x _. apply lookup_empty. }
  cbn [fst snd] in *. rewrite map_size_empty, HW in Hsz.
  destruct (change_full tag r cap Hcap c1 d1 (device_page d) m1 0 0 0 l g Hc1 Hl) as (c0 & c2 & d2 & m2 & id & E2 & Hf);
    [by apply Hkeep; [..|apply lookup_empty]|by rewrite Hu1, Hsz, Nat.add_0_r|].
  destruct (forgotten_read tag r cap Hcap c0 c2 d2 _ m2 0 0 0 l id Hf Hl) as (s3 & E3). exists ps, (c1, d1), (c2, d2), s3. by split_and!.
Qed.
End sequences.

(** ** The interface of file reading and writing *)

Section interface.
Context {D : Type} `{BlockDeviceLaws D}.
(** The block number of a page matters only to the inode key and to read-ahead. *)
Context (tag r cap : Z) (Hcap : cap <= 2 ^ 48) (block : Z -> Z).

Definition pages_through_cache : PageCache (PgCache * D) := {|
  read_page s l := match pc_read_page 0 0 (block l) l tag s with Some (Ok p, s) => (Some p, s) | Some (Err _, s) => (None, s) | None => (None, s) end;
  change_page s l g := match pc_change_page 0 0 (block l) l tag g s with Some (Ok _, s) => (true, s) | Some (Err _, s) => (false, s) | None => (false, s) end
|}.

(** On a working set of up to 128 pages the cache keeps the laws that file reading
    and writing are proved against. *)
Definition pages_through_cache_laws (W : list Z) (HW : (length W <= CACHE_SIZE)%nat) (HWok : Forall (page_ok r cap) W) :
  @PageCacheLaws (PgCache * D) pages_through_cache.
Proof.
  refine (@Build_PageCacheLaws _ pages_through_cache (λ l, l ∈ W) (work_view tag r cap W) _ _ _).
  - intros s f l (m & Hc & _) Hl. apply (f_len tag r cap Hcap _ _ _ _ _ Hc). by apply (work_page r cap W).
  - intros s f l Hv Hl. cbn. destruct (work_read tag r cap Hcap W HW HWok s f 0 0 (block l) l Hv Hl) as (s' & -> & Hv'). by exists s'.
  - intros s f l g Hv Hl Hg. cbn. destruct (work_change tag r cap Hcap W HW HWok s f 0 0 (block l) l g Hv Hl Hg) as (s' & -> & Hv').
    exists s', (upd f l (g (f l))). split; [done|]. split; [done|]. unfold upd. split; [by rewrite decide_True|]. intros l' _ Hne. by rewrite decide_False.
Defined.

(** C18. Writing a whole file and reading it through the kernel's page cache: writing
    more than 16 bytes from the start over a file that is not longer puts them on the
    blocks just allocated; the new entry has their number as its size and, up to 64 KiB,
    their checksum, and reading the file back through the new entry gives exactly these
    bytes.  The cache is in any state in which it has loaded only pages of a set of at
    most 128 pages of one device, at addresses that agree modulo 8 and below 2^48
    sectors, and the pages of the new blocks are in that set: with more pages the
    cache loses changes. *)
Theorem cached_file_roundtrip W (s : PgCache * D) f entry data fl fl' base now start :
  (length W <= CACHE_SIZE)%nat -> Forall (page_ok r cap) W -> work_view tag r cap W s f ->
  16 < Z.of_nat (length data) < 2 ^ 40 -> 0 <= de_size entry <= Z.of_nat (length data) ->
  alloc_blocks fl (blocks_of (Z.of_nat (length data))) = (Some start, fl') -> 0 <= base -> 0 < start ->
  (forall b, 0 <= b < blocks_of (Z.of_nat (length data)) -> (base + start * 8 + b * 8) ∈ W) ->
  exists e s' s'', @file_write _ pages_through_cache entry 0 data fl s base now = Some (Some e, fl', s') /\
    de_size e = Z.of_nat (length data) /\ de_extent_lba e = start /\ de_extent_count e = blocks_of (Z.of_nat (length data)) /\
    (Z.of_nat (length data) <= 65536 -> de_checksum e = crc32 data) /\
    @file_read _ pages_through_cache (at_sector e (base + start * 8)) 0 (replicate (length data) 0) s' = Some (Some (length data), data, s'').
Proof using Hcap.
  intros HW HWok Hv Hn Hes Ha Hb Hs Hpages. pose proof (blocks_of_spec (Z.of_nat (length data)) ltac:(lia)) as HB.
  assert (forall b, 0 <= b < blocks_of (Z.of_nat (length data)) -> u64 (base + start * 8 + b * 8) = base + start * 8 + b * 8 /\ base + start * 8 + b * 8 + 8 <= 2 ^ 64) as Hsmall.
  { intros b Hbb. rewrite Forall_forall in HWok. destruct (HWok _ (Hpages b Hbb)) as (? & ? & ?). split; [apply wrap_small; lia|lia]. }
  apply (@file_write_read_roundtrip _ pages_through_cache (pages_through_cache_laws W HW HWok) entry data fl fl' s f); try done.
  - destruct (Hsmall (blocks_of (Z.of_nat (length data)) - 1)) as [_ ?]; lia.
  - intros b Hbb. cbn. rewrite (proj1 (Hsmall b Hbb)). by apply Hpages.
Qed.
End interface.

#[export] Instance cache_ops : PageCacheOps PgCache := {| invalidate_range c a b := pc_invalidate_range a b c |}.

(** ** A device of zeros *)

Record FunDisk := mkDisk { disk : Z -> list Z }.
#[export] Instance fun_disk : BlockDevice FunDisk :=
  {| read_sector d l := Some (disk d l); write_sector d l s := Some (mkDisk (λ x, if x =? l then s else disk d x)) |}.
#[export] Program Instance fun_disk_laws : BlockDeviceLaws FunDisk := {| dev_ok d _ := forall l, length (disk d l) = SECTOR_SIZE |}.
Next Obligation. intros d cap l s Hd [= <-]. apply Hd. Qed.
Next Obligation.
  intros d cap l s Hd Hl Hs. eexists. split; [reflexivity|]. split; [|split; cbn].
  - intros x. cbn. by destruct (x =? l).
  - by rewrite Z.eqb_refl.
  - intros l' Hne. by destruct (Z.eqb_spec l' l).
Qed.

Definition zeros : FunDisk := mkDisk (λ _, replicate SECTOR_SIZE 0).
Definition some_pages (n : nat) : list Z := map (λ i, Z.of_nat i * 8) (seq 0 n).
Definition ones (_ : list Z) : list Z := replicate BLOCK_SIZE 1.

Lemma zeros_ready cap : device_ready cap zeros.
Proof. split; [done|]. intros l _. by eexists. Qed.

Lemma some_pages_ok n cap : 8 * Z.of_nat n <= cap -> Forall (page_ok 0 cap) (some_pages n).
Proof.
  intros Hn. apply Forall_fmap, Forall_forall. intros i Hi%elem_of_seq. unfold page_ok. cbn. rewrite Z.mod_mul by lia. lia.
Qed.

Lemma page_cache_coherent_witness : exists s, run_cache 0 [WrPage 0 8 ones; RdPage 0 8; Sync; RdPage 0 16] (pc_new, zeros) = Some ([replicate BLOCK_SIZE 1; device_page zeros 16], s).
Proof.
  destruct (page_cache_coherent 0 0 80 (some_pages 10) [WrPage 0 8 ones; RdPage 0 8; Sync; RdPage 0 16] zeros) as (s & _ & E & _); [lia|cbn; unfold CACHE_SIZE; lia|by apply some_pages_ok| |apply zeros_ready|by exists s].
  assert (8 ∈ some_pages 10 /\ 16 ∈ some_pages 10) as [H8 H16] by (split; apply (bool_decide_unpack _); vm_compute; exact I).
  repeat constructor; try done.
Defined.

(** Ten thousand bytes on three of these pages. *)
Definition empty_file : DirEntryV2 := mkDirEntry [70] 0x97 0 0 0 0 0 (replicate INLINE_MAX 0) 0 0.
Definition long_text : list Z := replicate (Z.to_nat 10000) 5.
Lemma cached_file_roundtrip_witness : exists e s' s'', @file_write _ (pages_through_cache 0 (λ _, 0)) empty_file 0 long_text (mkFree [mkRegion 2 5] false) (pc_new, zeros) 0 0 = Some (Some e, mkFree [mkRegion 5 2] true, s') /\
  @file_read _ (pages_through_cache 0 (λ _, 0)) (at_sector e 16) 0 (replicate (length long_text) 0) s' = Some (Some (length long_text), long_text, s'').
Proof.
  assert (Z.of_nat (length long_text) = 10000) as El by (unfold long_text; rewrite length_replicate; lia).
  assert (16 ∈ some_pages 10 /\ 24 ∈ some_pages 10 /\ 32 ∈ some_pages 10) as (H2 & H3 & H4) by (split_and!; apply (bool_decide_unpack _); vm_compute; exact I).
  destruct (cached_file_roundtrip 0 0 80 ltac:(lia) (λ _, 0) (some_pages 10) (pc_new, zeros) (device_page zeros) empty_file long_text (mkFree [mkRegion 2 5] false) (mkFree [mkRegion 5 2] true) 0 0 2) as (e & s' & s'' & Hw & _ & _ & _ & _ & Hrd).
  - cbn. unfold CACHE_SIZE. lia.
  - by apply some_pages_ok.
  - apply work_new; first [apply zeros_ready | by apply some_pages_ok | by vm_compute; lia].
  - rewrite El. lia.
  - rewrite El. cbn. lia.
  - rewrite El. reflexivity.
  - lia.
  - lia.
  - rewrite El. change (blocks_of 10000) with 3. intros b Hb. assert (b = 0 \/ b = 1 \/ b = 2) as [-> | [-> | ->]] by lia; assumption.
  - exists e, s', s''. split; [exact Hw|exact Hrd].
Defined.

Lemma cache_forgets_pages_witness : exists ps s1 s2 s3, run_cache 0 (read_all (some_pages 128)) (pc_new, zeros) = Some (ps, s1) /\
  pc_change_page 0 0 0 1024 0 ones s1 = Some (Ok (), s2) /\ pc_read_page 0 0 0 1024 0 s2 = Some (Ok (device_page zeros 1024), s3).
Proof.
  apply (cache_forgets_pages 0 0 2048 (some_pages 128) 1024 ones zeros); [lia|reflexivity| |by apply some_pages_ok|unfold page_ok; split_and!; (lia || reflexivity)| |apply zeros_ready].
  - apply (bool_decide_unpack _). vm_compute. exact I.
  - apply (bool_decide_unpack _). vm_compute. exact I.
Defined.

Lemma direct_write_visible_witness : exists d' m', write_sectors zeros 8 8 (ones []) = (true, d') /\
  cache_rep 0 0 80 (pc_invalidate_range 8 (8 + 8) pc_new) d' (upd (device_page zeros) 8 (ones [])) m'.
Proof.
  apply (direct_write_visible 0 0 80 pc_new zeros (device_page zeros) ∅ 8 (ones [])); [lia|apply pc_new_rep, zeros_ready| |apply length_replicate].
  unfold page_ok. split_and!; (lia || reflexivity).
Defined.

(** A table with 128 pages uses every slot. *)
Lemma full_valid {D} `{BlockDeviceLaws D} tag r cap c (d : D) f m : cache_rep tag r cap c d f m -> size m = CACHE_SIZE ->
  forall i, (i < CACHE_SIZE)%nat -> sl_valid (slot c i) = true.
Proof.
  intros Hc Hsz i Hi. set (vs := (map_to_list m).*2).
  assert (forall j, j ∈ vs -> (j < CACHE_SIZE)%nat /\ sl_valid (slot c j) = true) as Hvs.
  { intros j ([k j'] & -> & Hkj%elem_of_map_to_list)%list_elem_of_fmap. by apply (cr_map _ _ _ _ _ _ _ Hc) in Hkj as (? & ? & _). }
  assert (vs ≡ₚ seq 0 CACHE_SIZE) as Hp; [|apply Hvs; rewrite Hp; apply elem_of_seq; lia].
  apply submseteq_length_Permutation; [|rewrite length_seq; unfold vs; rewrite length_fmap, length_map_to_list; lia].
  apply NoDup_submseteq; [|intros j Hj; apply elem_of_seq; apply Hvs in Hj; lia].
  apply NoDup_fmap_2_strong; [|apply NoDup_map_to_list]. intros [k j] [k' j'] Hk%elem_of_map_to_list Hk'%elem_of_map_to_list E. cbn in E. subst j'.
  apply (cr_map _ _ _ _ _ _ _ Hc) in Hk as (_ & _ & ->), Hk' as (_ & _ & ->). done.
Qed.

Lemma eviction_correct_witness : exists c (d : FunDisk) f m, cache_rep 0 0 2048 c d f m /\ exists ids id c' d', lru_rep c ids /\ victim_of c ids = Some id /\
  evict_lru 0 (c, d) = Some (Ok id, (c', d')) /\ sl_valid (slot c' id) = false /\ cache_rep 0 0 2048 c' d' f (delete (page_key 0 (sl_lba (slot c id))) m).
Proof.
  destruct (read_all_used 0 0 2048 (some_pages 128) (pc_new, zeros) (device_page zeros) ∅) as (ps & [c d] & m & _ & Hc & _ & Hsz & _).
  - lia.
  - by vm_compute.
  - apply (bool_decide_unpack _). vm_compute. exact I.
  - by apply some_pages_ok.
  - apply pc_new_rep, zeros_ready.
  - reflexivity.
  - apply Forall_forall. intros x _. apply lookup_empty.
  - exists c, d, (device_page zeros), m. split; [exact Hc|].
    apply (eviction_correct 0 0 2048 c d (device_page zeros) m); [lia|exact Hc|]. eapply full_valid; [exact Hc|]. by rewrite Hsz.
Defined.
