(* ===== verification/Vfs.v ===== *)
(** * Vfs.v: drives, mounts and paths ([fs/vfs/mod.rs])

    Drive letters name file systems; a drive can also be mounted on a directory of
    another drive.  A path is resolved component by component with a stack for
    [..], crossing mounts on the way.  The file systems are an interface, the trait
    [FileSystem]; [S] is the type of their states, [NeoFs] among them.

    The outer [None] is a panic: in an operation of a file system, a drive number
    of 26 and above, or an access outside of one of the fixed arrays in which the
    components and the stack of the walk are kept. *)

From stdpp Require Import gmap.
From S2P Require Import Prelude Str Bytes NeoDir NeoFs.
Open Scope Z_scope.

(** An operation on a file system. *)
Definition FsOp (S A : Type) : Type := S -> option (result VfsError A * S).

(** The trait [FileSystem]: reads give the count and the buffer. *)
Class FileSystem (S : Type) := {
  op_read : Z -> Z -> list Z -> FsOp S (nat * list Z);
  op_write : Z -> Z -> list Z -> FsOp S nat;
  op_lookup : Z -> str -> FsOp S VfsNode;
  op_readdir : Z -> nat -> FsOp S (option (str * VfsNode));
  op_mkdir : Z -> str -> FsOp S VfsNode;
  op_create : Z -> str -> FsOp S VfsNode;
  op_stat : Z -> FsOp S VfsNode;
  op_remove_file : Z -> str -> FsOp S ();
  op_remove_dir : Z -> str -> FsOp S ();
  op_rename : Z -> str -> str -> FsOp S ();
  op_volume_label : FsOp S str;
  op_set_volume_label : str -> FsOp S ();
  op_snapshot_create : FsOp S Z;
  op_snapshot_restore : Z -> FsOp S ();
  op_snapshot_list : list Z -> FsOp S (nat * list Z);
  op_snapshot_delete : Z -> FsOp S ();
  op_snapshot_extract : Z -> str -> str -> FsOp S Z;
  op_snapshot_purge : FsOp S ();
}.

Definition DRIVES : nat := 26.
Definition MAX_SUBDIR_MOUNTS : nat := 8.
Definition MAX_PATH_COMPONENTS : nat := 32.
Definition STACK_SIZE : nat := MAX_PATH_COMPONENTS + 2.

Record Mount := mkMount { parent_drive : nat; parent_inode : Z; mounted_drive : nat }.

Record Vfs (S : Type) := mkVfs { drives : list (option S); mounts : list (option Mount); mount_count : nat }.
Arguments mkVfs {S}. Arguments drives {S}. Arguments mounts {S}. Arguments mount_count {S}.

(** ** Paths *)

(** [path.split(['\\', '/'])]. *)
Definition split_path (path : str) : list str := split 92 (map (λ b, if b =? 47 then 92 else b) path).

(** [arr[n] = x]: a write outside of the array panics. *)
Definition array_put {A} (arr : list A) (n : nat) (x : A) : option (list A) :=
  if (n <? length arr)%nat then Some (<[n := x]> arr) else None.

(** The array of components and how many of them there are. *)
Fixpoint split_loop (l : list str) (arr : list str) (n : nat) : option (result VfsError (list str * nat)) :=
  match l with
  | [] => Some (Ok (arr, n))
  | c :: l =>
      if (MAX_PATH_COMPONENTS <=? n)%nat then Some (Err InvalidPath)
      else arr ← array_put arr n c; split_loop l arr (n + 1)
  end.
Definition split_components (path : str) : option (result VfsError (list str * nat)) :=
  split_loop (split_path path) (replicate MAX_PATH_COMPONENTS []) 0.

Definition split_drive (path : str) : result VfsError (Z * str) :=
  match path with c :: 58 :: rest => Ok (c, rest) | _ => Err InvalidPath end.

Definition drive_index (letter : Z) : option nat :=
  let l := if (97 <=? letter) && (letter <=? 122) then letter - 32 else letter in
  if (65 <=? l) && (l <=? 90) then Some (Z.to_nat (l - 65)) else None.

(** The last separator, of either kind. *)
Definition rfind_sep (rest : str) : option nat :=
  (λ i, (length rest - 1 - i)%nat) <$> find_byte 92 (map (λ b, if b =? 47 then 92 else b) (reverse rest)).

Definition split_parent_leaf (rest : str) : str * str :=
  match rfind_sep rest with
  | Some i => (take i rest, drop (i + 1) rest)
  | None => ([], rest)
  end.

Definition last_piece (name : str) : str := match last (split_path name) with Some p => p | None => name end.

Section vfs.
Context {S : Type} `{FileSystem S}.

Definition V (A : Type) : Type := Vfs S -> option (result VfsError A * Vfs S).
#[global] Instance V_ret : MRet V := λ A a v, Some (Ok a, v).
#[global] Instance V_bind : MBind V := λ A B f m v,
  match m v with
  | None => None
  | Some (Err e, v) => Some (Err e, v)
  | Some (Ok a, v) => f a v
  end.
Definition vthrow {A} (e : VfsError) : V A := λ v, Some (Err e, v).
Definition vlift {A} (r : result VfsError A) : V A := λ v, Some (r, v).
Definition vrun {A} (o : option (result VfsError A)) : V A := λ v, r ← o; Some (r, v).
Definition vindex {A} (o : option A) : V A := λ v, a ← o; Some (Ok a, v).
Definition vsome {A} (e : VfsError) (o : option A) : V A := match o with Some a => mret a | None => vthrow e end.
Definition vget : V (Vfs S) := λ v, Some (Ok v, v).
Definition vmodify (f : Vfs S -> Vfs S) : V () := λ v, Some (Ok (), f v).

Definition set_drive (i : nat) (o : option S) (v : Vfs S) : Vfs S := mkVfs (<[i := o]> (drives v)) (mounts v) (mount_count v).

(** [self.drives[i].as_mut().ok_or(NotFound)?] and the call. *)
Definition on_drive {A} (i : nat) (c : FsOp S A) : V A := λ v,
  match drives v !! i with
  | None => None
  | Some None => Some (Err NotFound, v)
  | Some (Some s) => '(r, s') ← c s; Some (r, set_drive i (Some s') v)
  end.

(** ** Mounts *)

Fixpoint find_in (l : list (option Mount)) (d : nat) (i : Z) : option nat :=
  match l with
  | [] => None
  | Some m :: l => if (parent_drive m =? d)%nat && (parent_inode m =? i) then Some (mounted_drive m) else find_in l d i
  | None :: l => find_in l d i
  end.
Definition find_mount (v : Vfs S) (d : nat) (i : Z) : option nat := find_in (take (mount_count v) (mounts v)) d i.

Definition vfs_new : Vfs S := mkVfs (replicate DRIVES None) (replicate MAX_SUBDIR_MOUNTS None) 0.

Definition vfs_mount (letter : Z) (s : S) : V () :=
  idx ← vsome InvalidPath (drive_index letter);
  vmodify (set_drive idx (Some s)).

(** Keep the mounts that do not involve the drive, in order. *)
Definition involves (idx : nat) (m : Mount) : bool := (mounted_drive m =? idx)%nat || (parent_drive m =? idx)%nat.
Fixpoint compact (idx i n kept : nat) (l : list (option Mount)) : nat * list (option Mount) :=
  match n with
  | O => (kept, l)
  | Datatypes.S n =>
      match l !! i with
      | Some (Some m) => if involves idx m then compact idx (i + 1) n kept l
                         else compact idx (i + 1) n (kept + 1) (<[kept := Some m]> l)
      | _ => compact idx (i + 1) n kept l
      end
  end.

Definition vfs_unmount (letter : Z) : V () :=
  idx ← vsome InvalidPath (drive_index letter);
  vmodify (λ v, let '(kept, l) := compact idx 0 (mount_count v) 0 (mounts v) in mkVfs (<[idx := None]> (drives v)) l kept).

(** ** Resolution *)

Definition is_dot (c : str) : bool := bool_decide (c = []) || bool_decide (c = [46]).
Definition is_dotdot (c : str) : bool := bool_decide (c = [46; 46]).

(** The components that are left, the current place, and the array [stack] of
    which the first [depth] entries are in use. *)
Fixpoint walk_loop (comps : list str) (d : nat) (i : Z) (stack : list (nat * Z)) (depth : nat) : V (nat * Z) :=
  match comps with
  | [] => mret (d, i)
  | c :: comps =>
      if is_dot c then walk_loop comps d i stack depth
      else if is_dotdot c then
        if (1 <? depth)%nat then
          let depth := (depth - 1)%nat in
          '(d', i') ← vindex (stack !! (depth - 1)%nat);
          walk_loop comps d' i' stack depth
        else walk_loop comps d i stack depth
      else
        node ← on_drive d (op_lookup i c);
        let i := vn_inode node in
        if (length stack <=? depth)%nat then vthrow InvalidPath
        else
          stack ← vindex (array_put stack depth (d, i));
          let depth := (depth + 1)%nat in
          v ← vget;
          match find_mount v d i with
          | Some mounted =>
              if (length stack <=? depth)%nat then vthrow InvalidPath
              else
                stack ← vindex (array_put stack depth (mounted, 0));
                walk_loop comps mounted 0 stack (depth + 1)%nat
          | None => walk_loop comps d i stack depth
          end
  end.

Definition walk_components (d : nat) (i : Z) (comps : list str) : V (nat * Z) :=
  v ← vget;
  let d := match find_mount v d i with Some mounted => mounted | None => d end in
  stack ← vindex (array_put (replicate STACK_SIZE (0%nat, 0)) 0 (d, i));
  walk_loop comps d i stack 1.

(** [&components[..n]]; a slice past the end of the array panics. *)
Definition path_components (rest : str) : V (list str) :=
  '(arr, n) ← vrun (split_components rest);
  vindex (if (n <=? length arr)%nat then Some (take n arr) else None).

(** The common start of the operations on paths. *)
Definition walk_path (letter : Z) (rest : str) : V (nat * Z) :=
  d ← vsome InvalidPath (drive_index letter);
  comps ← path_components rest;
  walk_components d 0 comps.

Definition resolve_path (path : str) : V (nat * VfsNode) :=
  '(letter, rest) ← vlift (split_drive path);
  '(d, i) ← walk_path letter rest;
  node ← on_drive d (op_stat i);
  mret (d, node).

Definition vfs_read (d : nat) (i offset : Z) (buf : list Z) : V (nat * list Z) := on_drive d (op_read i offset buf).
Definition vfs_stat (d : nat) (i : Z) : V VfsNode := on_drive d (op_stat i).
Definition vfs_write (d : nat) (i offset : Z) (buf : list Z) : V nat := on_drive d (op_write i offset buf).
Definition vfs_readdir (d : nat) (i : Z) (index : nat) : V (option (str * VfsNode)) := on_drive d (op_readdir i index).

Definition vfs_volume_label (letter : Z) : V str :=
  d ← vsome InvalidPath (drive_index letter); on_drive d op_volume_label.
Definition vfs_set_volume_label (letter : Z) (label : str) : V () :=
  d ← vsome InvalidPath (drive_index letter); on_drive d (op_set_volume_label label).

(** ** Mounting on a directory *)

Definition mount_at_path (path : str) (mounted_drive : Z) : V () :=
  '(letter, rest) ← vlift (split_drive path);
  d ← vsome InvalidPath (drive_index letter);
  mounted_idx ← vsome InvalidPath (drive_index mounted_drive);
  comps ← path_components rest;
  '(rd, ri) ← walk_components d 0 comps;
  node ← on_drive rd (op_stat ri);
  if Z.land (vn_mode node) MODE_DIR =? 0 then vthrow NotADirectory
  else
    v ← vget;
    match drives v !! mounted_idx with
    | Some (Some _) =>
        match find_mount v rd ri with
        | Some _ => vthrow AlreadyMounted
        | None =>
            if (MAX_SUBDIR_MOUNTS <=? mount_count v)%nat then vthrow MountTableFull
            else vmodify (λ v, mkVfs (drives v) (<[mount_count v := Some (mkMount rd ri mounted_idx)]> (mounts v)) (mount_count v + 1))
        end
    | _ => vthrow NotFound
    end.

(** Clear the entry and move the later ones up. *)
Fixpoint shift_down (j n : nat) (l : list (option Mount)) : list (option Mount) :=
  match n with
  | O => l
  | Datatypes.S n => shift_down (j + 1) n (match l !! j with Some m => <[(j - 1)%nat := m]> l | None => l end)
  end.

Fixpoint mount_index (l : list (option Mount)) (i : nat) (d : nat) (ino : Z) : option nat :=
  match l with
  | [] => None
  | Some m :: l => if (parent_drive m =? d)%nat && (parent_inode m =? ino) then Some i else mount_index l (i + 1) d ino
  | None :: l => mount_index l (i + 1) d ino
  end.

Definition remove_mount (i : nat) (v : Vfs S) : Vfs S :=
  mkVfs (drives v) (shift_down (i + 1) (mount_count v - (i + 1)) (<[i := None]> (mounts v))) (mount_count v - 1).

Definition unmount_path (path : str) : V () :=
  '(letter, rest) ← vlift (split_drive path);
  '(rd, ri) ← walk_path letter rest;
  v ← vget;
  match mount_index (take (mount_count v) (mounts v)) 0 rd ri with
  | Some i => vmodify (remove_mount i)
  | None => vthrow NotMounted
  end.

(** ** Operations on paths *)

(** Resolve the parent, then call the file system with the leaf. *)
Definition at_parent {A} (path : str) (c : Z -> str -> FsOp S A) : V A :=
  '(letter, rest) ← vlift (split_drive path);
  let '(parent_path, leaf) := split_parent_leaf rest in
  '(d, i) ← walk_path letter parent_path;
  on_drive d (c i leaf).

Definition vfs_mkdir (path : str) : V VfsNode := at_parent path op_mkdir.
Definition vfs_create (path : str) : V VfsNode := at_parent path op_create.
Definition vfs_remove_file (path : str) : V () := at_parent path op_remove_file.
Definition vfs_remove_dir (path : str) : V () := at_parent path op_remove_dir.
Definition vfs_rename (path new_name : str) : V () := at_parent path (λ i leaf, op_rename i leaf (last_piece new_name)).

Definition vfs_snapshot_create (d : nat) : V Z := on_drive d op_snapshot_create.
Definition vfs_snapshot_restore (d : nat) (id : Z) : V () := on_drive d (op_snapshot_restore id).
Definition vfs_snapshot_list (d : nat) (buf : list Z) : V (nat * list Z) := on_drive d (op_snapshot_list buf).
Definition vfs_snapshot_delete (d : nat) (id : Z) : V () := on_drive d (op_snapshot_delete id).
Definition vfs_snapshot_extract (d : nat) (id : Z) (src dst : str) : V Z := on_drive d (op_snapshot_extract id src dst).
Definition vfs_snapshot_purge (d : nat) : V () := on_drive d op_snapshot_purge.

(** ** The tables *)

(** The mounts in effect. *)
Definition active (v : Vfs S) : list Mount := omap id (take (mount_count v) (mounts v)).

Record vfs_ok (v : Vfs S) : Prop := {
  vo_drives : length (drives v) = DRIVES;
  vo_mounts : length (mounts v) = MAX_SUBDIR_MOUNTS;
  vo_count : (mount_count v <= MAX_SUBDIR_MOUNTS)%nat;
  vo_some : Forall is_Some (take (mount_count v) (mounts v));
  vo_range : Forall (λ m, parent_drive m < DRIVES /\ mounted_drive m < DRIVES)%nat (active v);
}.

Lemma vfs_new_ok : vfs_ok vfs_new.
Proof. by constructor; cbn; (lia || constructor). Qed.

Lemma drive_index_range letter d : drive_index letter = Some d -> (d < DRIVES)%nat.
Proof. unfold drive_index, DRIVES. intros E. repeat case_match; simplify_eq; lia. Qed.

(** The mounts in effect are a prefix of the table. *)
Lemma some_prefix (l : list (option Mount)) : Forall is_Some l -> l = map Some (omap id l).
Proof. induction 1 as [|o l [m ->] _ IH]; [done|]. cbn. by f_equal. Qed.

Lemma omap_map_Some (l : list Mount) : omap id (map Some l) = l.
Proof. induction l as [|m l IH]; [done|]. cbn. by f_equal. Qed.

Lemma active_prefix v : vfs_ok v -> take (mount_count v) (mounts v) = map Some (active v) /\ length (active v) = mount_count v.
Proof.
  intros [_ Hm Hc Hs _]. pose proof (some_prefix _ Hs) as E. fold (active v) in E. split; [done|].
  apply (f_equal length) in E. rewrite length_take, length_map in E. lia.
Qed.

(** A table whose first entries are [l]. *)
Lemma table_ok ds (ms : list (option Mount)) l :
  length ds = DRIVES -> length ms = MAX_SUBDIR_MOUNTS -> (length l <= MAX_SUBDIR_MOUNTS)%nat -> take (length l) ms = map Some l ->
  Forall (λ m, parent_drive m < DRIVES /\ mounted_drive m < DRIVES)%nat l ->
  vfs_ok (mkVfs ds ms (length l)) /\ active (mkVfs ds ms (length l)) = l.
Proof.
  intros Hd Hm Hl Ht Hr. assert (active (mkVfs ds ms (length l)) = l) as Ha.
  { unfold active. cbn [mounts mount_count]. by rewrite Ht, omap_map_Some. }
  split; [|done]. constructor; cbn [drives mounts mount_count]; try done; [|by rewrite Ha]. rewrite Ht. apply Forall_fmap, Forall_true. by eexists.
Qed.

Definition mount_key (d : nat) (i : Z) (m : Mount) : bool := (parent_drive m =? d)%nat && (parent_inode m =? i).

Lemma mount_key_true d i m : mount_key d i m = true <-> parent_drive m = d /\ parent_inode m = i.
Proof. unfold mount_key. by rewrite andb_true_iff, Nat.eqb_eq, Z.eqb_eq. Qed.

Lemma find_in_active l d i : find_in (map Some l) d i = mounted_drive ∘ snd <$> list_find (λ m, mount_key d i m = true) l.
Proof.
  induction l as [|m l IH]; [done|]. cbn [map find_in list_find]. fold (mount_key d i m). rewrite IH.
  destruct (mount_key d i m); case_decide; try done. by destruct (list_find _ l) as [[]|].
Qed.

Lemma mount_index_active l k d i : mount_index (map Some l) k d i = (λ x, (k + x.1)%nat) <$> list_find (λ m, mount_key d i m = true) l.
Proof.
  revert k. induction l as [|m l IH]; intros k; [done|]. cbn [map mount_index list_find]. fold (mount_key d i m). rewrite IH.
  destruct (mount_key d i m); case_decide; try done; [cbn; f_equal; lia|]. destruct (list_find _ l) as [[]|]; cbn; [f_equal; lia|done].
Qed.

(** ** Changes to the mount table *)

(** [front] is in place, [junk] is free and [back] is still to be visited. *)
Lemma compact_spec idx back front junk rest :
  exists junk', compact idx (length front + length junk) (length back) (length front) (map Some front ++ junk ++ map Some back ++ rest) =
    (length (front ++ filter (λ m, involves idx m = false) back), map Some (front ++ filter (λ m, involves idx m = false) back) ++ junk' ++ rest).
Proof.
  revert front junk. induction back as [|m back IH]; intros front junk; cbn [length compact map].
  { exists junk. by rewrite filter_nil, app_nil_r. }
  assert ((map Some front ++ junk ++ (Some m :: map Some back) ++ rest) !! (length front + length junk)%nat = Some (Some m)) as ->.
  { rewrite app_assoc, lookup_app_r by (rewrite length_app, length_map; lia). rewrite length_app, length_map, Nat.sub_diag. done. }
  rewrite filter_cons. destruct (involves idx m) eqn:E; case_decide; try done.
  - destruct (IH front (junk ++ [Some m])) as [junk' E']. exists junk'. rewrite <-E', length_app, <-!app_assoc. cbn [length app].
    by rewrite Nat.add_assoc.
  - assert (exists junk1, <[length front := Some m]> (map Some front ++ junk ++ (Some m :: map Some back) ++ rest) =
      map Some (front ++ [m]) ++ junk1 ++ map Some back ++ rest /\ length junk1 = length junk) as (junk1 & -> & Hj).
    { rewrite insert_app_r_alt by (rewrite length_map; lia). rewrite length_map, Nat.sub_diag, map_app.
      destruct junk as [|o junk]; [exists []; by rewrite <-app_assoc|]. exists (junk ++ [Some m]).
      rewrite <-!app_assoc, length_app. cbn. split; [done|lia]. }
    destruct (IH (front ++ [m]) junk1) as [junk' E']. rewrite length_app, Hj in E'. cbn [length] in E'. exists junk'.
    replace (length front + length junk + 1)%nat with (length front + 1 + length junk)%nat by lia. rewrite E', <-app_assoc. done.
Qed.

Lemma length_compact idx i n kept (l : list (option Mount)) : length (compact idx i n kept l).2 = length l.
Proof.
  revert i kept l. induction n as [|n IH]; intros i kept l; [done|]. cbn [compact].
  destruct (l !! i) as [[m|]|]; [destruct (involves idx m)|..]; rewrite IH; [done|apply length_insert|done..].
Qed.

(** Unmounting a drive drops the mounts that involve it. *)
Lemma unmount_active v idx : vfs_ok v ->
  let '(kept, l) := compact idx 0 (mount_count v) 0 (mounts v) in
  let v' := mkVfs (<[idx := None]> (drives v)) l kept in
  vfs_ok v' /\ active v' = filter (λ m, involves idx m = false) (active v).
Proof.
  intros Hv. destruct (active_prefix v Hv) as [Hp Hl]. pose proof (take_drop (mount_count v) (mounts v)) as Hm. rewrite Hp in Hm.
  destruct (compact_spec idx (active v) [] [] (drop (mount_count v) (mounts v))) as [junk E]. cbn [length app map Nat.add] in E.
  rewrite Hm, Hl in E. rewrite E. set (kept := filter _ (active v)) in *.
  assert (length kept <= length (active v))%nat as Hk by apply length_filter.
  assert (length (map Some kept ++ junk ++ drop (mount_count v) (mounts v)) = MAX_SUBDIR_MOUNTS) as Hlen.
  { pose proof (f_equal (λ x, length x.2) E) as El. cbn [snd] in El. rewrite <-El. rewrite length_compact. apply Hv. }
  pose proof (vo_count _ Hv). apply table_ok; [rewrite length_insert; apply Hv|done|lia| |].
  - rewrite <-(length_map Some kept). apply take_app_length.
  - apply Forall_forall. intros m [_ Hm']%list_elem_of_filter. pose proof (vo_range _ Hv) as Hr. rewrite Forall_forall in Hr. by apply Hr.
Qed.

Lemma shift_down_spec back pre (x : option Mount) rest :
  exists y, shift_down (length pre + 1) (length back) (pre ++ x :: back ++ rest) = pre ++ back ++ y :: rest.
Proof.
  revert pre x. induction back as [|b back IH]; intros pre x; cbn [length shift_down]; [by exists x|].
  assert ((pre ++ x :: (b :: back) ++ rest) !! (length pre + 1)%nat = Some b) as ->.
  { rewrite lookup_app_r by lia. by replace (length pre + 1 - length pre)%nat with 1%nat by lia. }
  replace (length pre + 1 - 1)%nat with (length pre + 0)%nat by lia. rewrite insert_app_r. cbn [insert list_insert app].
  destruct (IH (pre ++ [b]) b) as [y E]. rewrite length_app, <-!app_assoc in E. cbn [length app] in E. exists y. by rewrite E.
Qed.

(** Removing the entry at [i] removes that mount. *)
Lemma remove_active v i : vfs_ok v -> (i < mount_count v)%nat ->
  vfs_ok (remove_mount i v) /\ active (remove_mount i v) = delete i (active v).
Proof.
  intros Hv Hi. destruct (active_prefix v Hv) as [Hp Hl]. pose proof (take_drop (mount_count v) (mounts v)) as Hm. rewrite Hp in Hm.
  destruct (lookup_lt_is_Some_2 (active v) i) as [m Hmi]; [lia|]. pose proof (take_drop_middle _ _ _ Hmi) as Hs.
  set (a := take i (active v)) in *. set (b := drop (Datatypes.S i) (active v)) in *.
  assert (length a = i) as La by (unfold a; rewrite length_take; lia).
  assert (length b = mount_count v - (i + 1))%nat as Lb by (unfold b; rewrite length_drop; lia).
  destruct (shift_down_spec (map Some b) (map Some a) None (drop (mount_count v) (mounts v))) as [y E].
  rewrite !length_map, La, Lb in E. unfold remove_mount.
  assert (<[i := None]> (mounts v) = map Some a ++ None :: map Some b ++ drop (mount_count v) (mounts v)) as ->.
  { rewrite <-Hm at 1. rewrite <-Hs at 1. rewrite map_app, <-app_assoc, insert_app_r_alt by (rewrite length_map; lia). rewrite length_map, La, Nat.sub_diag. done. }
  rewrite E, delete_take_drop. fold a b.
  replace (mount_count v - 1)%nat with (length (a ++ b)) by (rewrite length_app; lia). pose proof (vo_count _ Hv).
  apply table_ok; [apply Hv| |rewrite length_app; lia| |].
  - rewrite !length_app. cbn [length]. rewrite !length_map, length_drop, (vo_mounts _ Hv), La, Lb. lia.
  - rewrite app_assoc, <-map_app, <-(length_map Some (a ++ b)). apply take_app_length.
  - pose proof (vo_range _ Hv) as Hr. rewrite <-Hs in Hr. apply Forall_app in Hr as [Ha [_ Hb]%Forall_cons]. by apply Forall_app.
Qed.

(** Mounting appends. *)
Lemma append_active v m : vfs_ok v -> (mount_count v < MAX_SUBDIR_MOUNTS)%nat -> (parent_drive m < DRIVES)%nat -> (mounted_drive m < DRIVES)%nat ->
  let v' := mkVfs (drives v) (<[mount_count v := Some m]> (mounts v)) (mount_count v + 1) in
  vfs_ok v' /\ active v' = active v ++ [m].
Proof.
  intros Hv Hc Hp Hd. destruct (active_prefix v Hv) as [Hpre Hl]. cbn zeta.
  replace (mount_count v + 1)%nat with (length (active v ++ [m])) by (rewrite length_app; cbn; lia).
  apply table_ok; [apply Hv|rewrite length_insert; apply Hv|rewrite length_app; cbn; lia| |].
  - rewrite length_app, Hl, map_app, <-Hpre. cbn [length]. rewrite Nat.add_1_r.
    rewrite (take_S_r _ _ (Some m)) by (apply list_lookup_insert_eq; rewrite (vo_mounts _ Hv); lia). by rewrite take_insert_ge by lia.
  - apply Forall_app. split; [apply Hv|]. apply Forall_singleton. done.
Qed.

(** ** Safety *)

(** No operation of a file system panics. *)
Definition fs_op_total {A} (c : FsOp S A) : Prop := forall s, is_Some (c s).
Record fs_total : Prop := {
  ft_lookup i n : fs_op_total (op_lookup i n); ft_stat i : fs_op_total (op_stat i);
  ft_mkdir i n : fs_op_total (op_mkdir i n); ft_create i n : fs_op_total (op_create i n);
  ft_remove_file i n : fs_op_total (op_remove_file i n); ft_remove_dir i n : fs_op_total (op_remove_dir i n);
  ft_rename i n n' : fs_op_total (op_rename i n n');
}.

(** [c] does not panic, keeps the tables well formed, and its results satisfy [Q]. *)
Definition safe {A} (c : V A) (Q : A -> Prop) : Prop := forall v, vfs_ok v ->
  exists r v', c v = Some (r, v') /\ vfs_ok v' /\ forall a, r = Ok a -> Q a.

Lemma safe_bind {A B} (c : V A) (f : A -> V B) Q R : safe c Q -> (forall a, Q a -> safe (f a) R) -> safe (c ≫= f) R.
Proof.
  intros Hc Hf v Hv. destruct (Hc v Hv) as (r & v1 & E & Hv1 & HQ). unfold mbind, V_bind. rewrite E. destruct r as [a|e].
  - by apply Hf; [apply HQ|].
  - exists (Err e), v1. by split_and!.
Qed.

Lemma safe_ret {A} (a : A) (Q : A -> Prop) : Q a -> safe (mret a) Q.
Proof. intros HQ v Hv. exists (Ok a), v. split_and!; try done. by intros ? [= <-]. Qed.

Lemma safe_throw {A} e (Q : A -> Prop) : safe (vthrow e) Q.
Proof. intros v Hv. exists (Err e), v. by split_and!. Qed.

Lemma safe_lift {A} (r : result VfsError A) : safe (vlift r) (λ a, r = Ok a).
Proof. intros v Hv. exists r, v. by split_and!. Qed.

Lemma safe_some {A} e (o : option A) : safe (vsome e o) (λ a, o = Some a).
Proof. destruct o; [by apply safe_ret|apply safe_throw]. Qed.

Lemma set_drive_ok v i o : vfs_ok v -> vfs_ok (set_drive i o v).
Proof. intros [H1' H2' H3' H4' H5']. constructor; try done. cbn. by rewrite length_insert. Qed.

Lemma safe_on_drive {A} d (c : FsOp S A) : (d < DRIVES)%nat -> fs_op_total c -> safe (on_drive d c) (λ _, True).
Proof.
  intros Hd Hc v Hv. unfold on_drive. destruct (lookup_lt_is_Some_2 (drives v) d) as [o ->]; [by rewrite (vo_drives _ Hv)|].
  destruct o as [s|]; [|exists (Err NotFound), v; by split_and!]. destruct (Hc s) as [[r s'] ->]. exists r, (set_drive d (Some s') v).
  split_and!; [done|by apply set_drive_ok|done].
Qed.

Lemma find_mount_range v d i m : vfs_ok v -> find_mount v d i = Some m -> (m < DRIVES)%nat.
Proof.
  intros Hv. unfold find_mount. rewrite (proj1 (active_prefix v Hv)), find_in_active.
  intros ([k mt] & Hm & ->)%fmap_Some. apply list_find_Some in Hm as (Hk & _). pose proof (vo_range _ Hv) as Hr.
  by apply (Forall_lookup_1 _ _ _ _ Hr Hk).
Qed.

(** ** The arrays of the walk *)

(** The components of a path, as long as there are at most 32. *)
Definition components (path : str) : result VfsError (list str) :=
  let l := split_path path in
  if (MAX_PATH_COMPONENTS <? length l)%nat then Err InvalidPath else Ok l.

Lemma split_loop_spec l dn : (length dn <= MAX_PATH_COMPONENTS)%nat ->
  split_loop l (dn ++ replicate (MAX_PATH_COMPONENTS - length dn) []) (length dn) =
  Some (if (MAX_PATH_COMPONENTS <? length dn + length l)%nat then Err InvalidPath
        else Ok (dn ++ l ++ replicate (MAX_PATH_COMPONENTS - (length dn + length l)) [], length dn + length l)%nat).
Proof.
  revert dn. induction l as [|c l IH]; intros dn Hl; cbn [split_loop length].
  { rewrite Nat.add_0_r. by destruct (Nat.ltb_spec MAX_PATH_COMPONENTS (length dn)); [lia|]. }
  destruct (Nat.leb_spec MAX_PATH_COMPONENTS (length dn)) as [Hge|Hlt].
  { by destruct (Nat.ltb_spec MAX_PATH_COMPONENTS (length dn + Datatypes.S (length l))); [|lia]. }
  unfold array_put. rewrite length_app, length_replicate. destruct (Nat.ltb_spec (length dn) (length dn + (MAX_PATH_COMPONENTS - length dn))); [|lia].
  cbn [mbind option_bind]. destruct (MAX_PATH_COMPONENTS - length dn)%nat as [|r] eqn:Hr; [lia|]. cbn [replicate].
  replace (<[length dn := c]> (dn ++ [] :: replicate r [])) with (dn ++ c :: replicate r []) by (rewrite insert_app_r_alt, Nat.sub_diag by reflexivity; reflexivity). specialize (IH (dn ++ [c])). rewrite length_app in IH. cbn [length] in IH.
  replace (MAX_PATH_COMPONENTS - (length dn + 1))%nat with r in IH by lia. rewrite <-!app_assoc in IH.
  replace (length dn + Datatypes.S (length l))%nat with (length dn + 1 + length l)%nat by lia. apply IH. lia.
Qed.

Lemma path_components_spec rest v : path_components rest v = Some (components rest, v).
Proof.
  pose proof (split_loop_spec (split_path rest) [] ltac:(cbn; lia)) as Hs. cbn [app length] in Hs. rewrite Nat.sub_0_r in Hs. cbn [Nat.add] in Hs.
  unfold path_components, components, mbind, V_bind, vrun, split_components. rewrite Hs. cbn [mbind option_bind].
  destruct (Nat.ltb_spec MAX_PATH_COMPONENTS (length (split_path rest))); [done|]. unfold vindex. rewrite length_app.
  rewrite (proj2 (Nat.leb_le _ _)) by lia.
  cbn [mbind option_bind]. by rewrite take_app_length.
Qed.

(** The walk with a stack that has the current place first. *)
Fixpoint walk_stack (comps : list str) (d : nat) (i : Z) (stack : list (nat * Z)) : V (nat * Z) :=
  match comps with
  | [] => mret (d, i)
  | c :: comps =>
      if is_dot c then walk_stack comps d i stack
      else if is_dotdot c then
        match stack with
        | _ :: (d', i') :: _ => walk_stack comps d' i' (tail stack)
        | _ => walk_stack comps d i stack
        end
      else
        node ← on_drive d (op_lookup i c);
        let i := vn_inode node in
        if (STACK_SIZE <=? length stack)%nat then vthrow InvalidPath
        else
          let stack := (d, i) :: stack in
          v ← vget;
          match find_mount v d i with
          | Some mounted =>
              if (STACK_SIZE <=? length stack)%nat then vthrow InvalidPath
              else walk_stack comps mounted 0 ((mounted, 0) :: stack)
          | None => walk_stack comps d i stack
          end
  end.

(** The array holds the stack from its bottom. *)
Definition stack_rep (arr : list (nat * Z)) (depth : nat) (stack : list (nat * Z)) : Prop :=
  length arr = STACK_SIZE /\ take depth arr = reverse stack /\ depth = length stack.

Lemma stack_rep_push arr depth stack x : stack_rep arr depth stack -> (depth < STACK_SIZE)%nat ->
  exists arr', array_put arr depth x = Some arr' /\ stack_rep arr' (depth + 1) (x :: stack).
Proof.
  intros (Hl & Ht & Hd) Hlt. exists (<[depth := x]> arr). unfold array_put. rewrite Hl. destruct (Nat.ltb_spec depth STACK_SIZE); [|lia]. split; [done|].
  split_and!; [by rewrite length_insert| |cbn [length]; lia].
  rewrite Nat.add_1_r. erewrite take_S_r by (apply list_lookup_insert_eq; lia). by rewrite take_insert_ge, Ht, reverse_cons by lia.
Qed.

Lemma stack_rep_pop arr depth x y stack : stack_rep arr depth (x :: y :: stack) ->
  arr !! (depth - 1 - 1)%nat = Some y /\ stack_rep arr (depth - 1) (y :: stack).
Proof.
  intros (Hl & Ht & ->). cbn [length] in *. replace (Datatypes.S (Datatypes.S (length stack)) - 1)%nat with (Datatypes.S (length stack)) by lia.
  assert (take (Datatypes.S (length stack)) arr = reverse (y :: stack)) as Ht'.
  { apply (f_equal (take (Datatypes.S (length stack)))) in Ht. rewrite take_take, reverse_cons in Ht. replace (Datatypes.S (length stack) `min` Datatypes.S (Datatypes.S (length stack)))%nat with (Datatypes.S (length stack)) in Ht by lia.
    rewrite Ht. apply take_app_length'. by rewrite length_reverse. }
  split; [|by split_and!]. rewrite Nat.sub_1_r. cbn [Nat.pred].
  rewrite <-(lookup_take_lt arr (Datatypes.S (length stack))) by lia. rewrite Ht', reverse_cons, lookup_app_r; rewrite length_reverse; [by rewrite Nat.sub_diag|lia].
Qed.

(** No access of the walk is outside of its array: it does what the walk with a
    stack does. *)
Lemma walk_loop_stack comps d i arr depth stack v : stack_rep arr depth stack -> stack ≠ [] ->
  walk_loop comps d i arr depth v = walk_stack comps d i stack v.
Proof.
  revert d i arr depth stack v. induction comps as [|c comps IH]; intros d i arr depth stack v Hr Hne; cbn [walk_loop walk_stack]; [done|].
  pose proof Hr as (Hl & _ & Hd). destruct (is_dot c); [by apply IH|]. destruct (is_dotdot c).
  { destruct stack as [|x [|[d' i'] stack]]; [done|by rewrite Hd; cbn; apply IH; [rewrite Hd in Hr|]|].
    destruct (stack_rep_pop _ _ _ _ _ Hr) as [Hy Hp]. rewrite (proj2 (Nat.ltb_lt 1 depth)) by (rewrite Hd; cbn; lia).
    unfold mbind, V_bind, vindex. rewrite Hy. cbn. by apply IH. }
  unfold mbind, V_bind. destruct (on_drive d (op_lookup i c) v) as [[[n|e] v1]|]; [|done..]. rewrite Hl, <-Hd.
  destruct (Nat.leb_spec STACK_SIZE depth) as [|Hlt]; [done|]. destruct (stack_rep_push arr depth stack (d, vn_inode n) Hr Hlt) as (arr' & Hput & Hr').
  pose proof Hr' as (Hl' & _ & _). unfold mbind, V_bind, vindex, vget. rewrite Hput. cbn [mbind option_bind length]. rewrite Hl', <-Hd, Nat.add_1_r in *.
  destruct (find_mount v1 d (vn_inode n)) as [m|]; [|by apply IH]. destruct (Nat.leb_spec STACK_SIZE (Datatypes.S depth)) as [|Hlt2]; [done|].
  destruct (stack_rep_push arr' (Datatypes.S depth) _ (m, 0) Hr' Hlt2) as (arr2 & Hput2 & Hr2). rewrite Hput2. cbn [mbind option_bind]. by apply IH.
Qed.

Lemma walk_components_stack d i comps v :
  walk_components d i comps v = let d := match find_mount v d i with Some mounted => mounted | None => d end in walk_stack comps d i [(d, i)] v.
Proof.
  unfold walk_components. unfold mbind, V_bind, vget, vindex. destruct (find_mount v d i) as [m|]; cbn [mbind option_bind array_put length replicate STACK_SIZE]; by apply walk_loop_stack.
Qed.

Lemma safe_walk_stack : fs_total -> forall comps d i stack, (d < DRIVES)%nat -> Forall (λ x, x.1 < DRIVES)%nat stack ->
  safe (walk_stack comps d i stack) (λ x, x.1 < DRIVES)%nat.
Proof.
  intros Hft comps. induction comps as [|c comps IH]; intros d i stack Hd Hst; cbn [walk_stack]; [by apply safe_ret|].
  destruct (is_dot c); [by apply IH|]. destruct (is_dotdot c).
  { destruct stack as [|x [|[d' i'] st]]; [by apply IH..|]. apply Forall_cons in Hst as [_ Hst]. apply IH; [|done].
    by apply Forall_cons in Hst as [? _]. }
  eapply safe_bind; [apply safe_on_drive; [done|apply Hft]|]. intros n _. destruct (STACK_SIZE <=? length stack)%nat; [apply safe_throw|].
  intros v Hv. unfold mbind, V_bind, vget. destruct (find_mount v d (vn_inode n)) as [m|] eqn:E; [|apply IH; auto].
  pose proof (find_mount_range v d _ m Hv E). destruct (STACK_SIZE <=? _)%nat; [by apply safe_throw|]. apply IH; auto.
Qed.

Lemma safe_walk_components : fs_total -> forall d i comps, (d < DRIVES)%nat -> safe (walk_components d i comps) (λ x, x.1 < DRIVES)%nat.
Proof.
  intros Hft d i comps Hd v Hv. rewrite walk_components_stack.
  destruct (find_mount v d i) as [m|] eqn:E; [pose proof (find_mount_range v d i m Hv E)|]; apply safe_walk_stack; auto.
Qed.

Lemma safe_path_components rest : safe (path_components rest) (λ _, True).
Proof. intros v Hv. rewrite path_components_spec. by exists (components rest), v. Qed.

Lemma safe_walk_path : fs_total -> forall letter rest, safe (walk_path letter rest) (λ x, x.1 < DRIVES)%nat.
Proof.
  intros Hft letter rest. eapply safe_bind; [apply safe_some|]. intros d Hd. eapply safe_bind; [apply safe_path_components|]. intros comps _.
  apply safe_walk_components; [done|exact (drive_index_range letter d Hd)].
Qed.

Lemma safe_at_parent {A} (c : Z -> str -> FsOp S A) path : fs_total -> (forall i n, fs_op_total (c i n)) -> safe (at_parent path c) (λ _, True).
Proof.
  intros Hft Hc. eapply safe_bind; [apply safe_lift|]. intros [letter rest] _. destruct (split_parent_leaf rest) as [pp leaf].
  eapply safe_bind; [by apply safe_walk_path|]. intros [d i] Hd. by apply safe_on_drive.
Qed.

Lemma safe_mount_at_path path letter : fs_total -> safe (mount_at_path path letter) (λ _, True).
Proof.
  intros Hft. eapply safe_bind; [apply safe_lift|]. intros [l rest] _. eapply safe_bind; [apply safe_some|]. intros d Hd.
  eapply safe_bind; [apply safe_some|]. intros md Hmd. eapply safe_bind; [apply safe_path_components|]. intros comps _.
  eapply safe_bind; [apply safe_walk_components; [done|exact (drive_index_range _ _ Hd)]|]. intros [rd ri] Hrd.
  eapply safe_bind; [apply safe_on_drive; [done|apply Hft]|]. intros node _. destruct (Z.land _ _ =? 0); [apply safe_throw|].
  intros v Hv. unfold mbind, V_bind, vget. destruct (drives v !! md) as [[s|]|]; [|by apply safe_throw..].
  destruct (find_mount v rd ri); [by apply safe_throw|]. destruct (Nat.leb_spec MAX_SUBDIR_MOUNTS (mount_count v)) as [|Hlt]; [by apply safe_throw|].
  destruct (append_active v (mkMount rd ri md) Hv Hlt Hrd (drive_index_range _ _ Hmd)) as [Hv' _].
  eexists _, _. split; [reflexivity|]. by split.
Qed.

Lemma mount_index_range v d i k : vfs_ok v -> mount_index (take (mount_count v) (mounts v)) 0 d i = Some k ->
  exists m, active v !! k = Some m /\ mount_key d i m = true /\ (k < mount_count v)%nat.
Proof.
  intros Hv. destruct (active_prefix v Hv) as [-> Hl]. rewrite mount_index_active. intros ([k' m] & Hm & ->)%fmap_Some.
  apply list_find_Some in Hm as (Hk & Hkey & _). exists m. split_and!; [done|done|]. rewrite <-Hl. by eapply lookup_lt_Some.
Qed.

Lemma safe_unmount_path path : fs_total -> safe (unmount_path path) (λ _, True).
Proof.
  intros Hft. eapply safe_bind; [apply safe_lift|]. intros [l rest] _. eapply safe_bind; [by apply safe_walk_path|]. intros [d i] Hd v Hv.
  unfold mbind, V_bind, vget. destruct (mount_index _ _ _ _) as [k|] eqn:E; [|by apply safe_throw].
  destruct (mount_index_range v d i k Hv E) as (m & _ & _ & Hk). exists (Ok ()), (remove_mount k v). split_and!; [done|by apply remove_active|done].
Qed.

(** C29. Every operation on a path, and mounting and unmounting, keeps the drive
    and mount tables well formed and does not panic, if the file systems' own
    operations do not: for no path, however long or full of [..] and of mounts, is
    an access outside of the drive table, the array of 32 components or the array of
    34 places of the walk, each of which would be a panic. *)
Theorem vfs_paths_safe : fs_total -> forall path name letter s,
  safe (resolve_path path) (λ x, x.1 < DRIVES)%nat /\ safe (vfs_mkdir path) (λ _, True) /\ safe (vfs_create path) (λ _, True) /\
  safe (vfs_remove_file path) (λ _, True) /\ safe (vfs_remove_dir path) (λ _, True) /\ safe (vfs_rename path name) (λ _, True) /\
  safe (mount_at_path path letter) (λ _, True) /\ safe (unmount_path path) (λ _, True) /\
  safe (vfs_mount letter s) (λ _, True) /\ safe (vfs_unmount letter) (λ _, True).
Proof.
  intros Hft path name letter s. split.
  { eapply safe_bind; [apply safe_lift|]. intros [l rest] _. eapply safe_bind; [by apply safe_walk_path|]. intros [d i] Hd.
    eapply safe_bind; [apply safe_on_drive; [done|apply Hft]|]. intros n _. by apply safe_ret. }
  do 5 (split; [apply safe_at_parent; [done|intros; apply Hft]|]). split; [by apply safe_mount_at_path|]. split; [by apply safe_unmount_path|].
  split; (eapply safe_bind; [apply safe_some|]); intros d Hd v Hv.
  - eexists _, _. split; [reflexivity|]. split; [by apply set_drive_ok|done].
  - eexists _, _. split; [reflexivity|]. split; [|done]. pose proof (unmount_active v d Hv) as Hu. by destruct (compact _ _ _ _ _), Hu.
Qed.

(** ** Refinement of the mount table *)

(** [c] does not touch the mount table. *)
Definition same_mounts (v v' : Vfs S) : Prop :=
  mounts v' = mounts v /\ mount_count v' = mount_count v /\ length (drives v') = length (drives v).
Definition keeps {A} (c : V A) : Prop := forall v r v', c v = Some (r, v') -> same_mounts v v'.

Lemma same_mounts_ok v v' : same_mounts v v' -> vfs_ok v -> vfs_ok v' /\ active v' = active v /\ forall d i, find_mount v' d i = find_mount v d i.
Proof.
  intros (Hm & Hc & Hd) [H1' H2' H3' H4' H5']. unfold active, find_mount in *. rewrite Hm, Hc. split; [|done].
  constructor; unfold active; rewrite ?Hm, ?Hc, ?Hd; done.
Qed.

Lemma keeps_bind {A B} (c : V A) (f : A -> V B) : keeps c -> (forall a, keeps (f a)) -> keeps (c ≫= f).
Proof.
  intros Hc Hf v r v'. unfold mbind, V_bind. destruct (c v) as [[[a|e] v1]|] eqn:E; [|intros [= <- <-]; by eapply Hc|done].
  intros Hr. destruct (Hc _ _ _ E) as (M1 & C1 & D1). destruct (Hf _ _ _ _ Hr) as (M2 & C2 & D2). split_and!; congruence.
Qed.

Lemma keeps_same {A} (r : Vfs S -> result VfsError A) : keeps (λ v, Some (r v, v)).
Proof. by intros v r' v' [= <- <-]. Qed.

Lemma keeps_on_drive {A} d (c : FsOp S A) : keeps (on_drive d c).
Proof.
  intros v r v'. unfold on_drive. destruct (drives v !! d) as [[s|]|]; [|by intros [= <- <-]|done].
  destruct (c s) as [[r' s']|]; [|done]. intros [= <- <-]. split_and!; [done|done|]. cbn. by rewrite length_insert.
Qed.

Lemma keeps_walk_stack comps d i stack : keeps (walk_stack comps d i stack).
Proof.
  revert d i stack. induction comps as [|c comps IH]; intros d i stack; cbn [walk_stack]; [apply (keeps_same (λ _, Ok (d, i)))|].
  destruct (is_dot c); [apply IH|]. destruct (is_dotdot c); [destruct stack as [|? [|[] ?]]; apply IH|].
  apply keeps_bind; [apply keeps_on_drive|]. intros n. destruct (_ <=? _)%nat; [apply (keeps_same (λ _, Err InvalidPath))|].
  apply keeps_bind; [apply (keeps_same Ok)|]. intros v. destruct (find_mount v d (vn_inode n)); [|apply IH].
  destruct (_ <=? _)%nat; [apply (keeps_same (λ _, Err InvalidPath))|apply IH].
Qed.

Lemma keeps_walk_components d i comps : keeps (walk_components d i comps).
Proof. intros v r v'. rewrite walk_components_stack. apply keeps_walk_stack. Qed.

Lemma keeps_walk_path letter rest : keeps (walk_path letter rest).
Proof.
  apply keeps_bind; [destruct (drive_index letter); [apply (keeps_same (λ _, Ok n))|apply (keeps_same (λ _, Err InvalidPath))]|]. intros d.
  apply keeps_bind; [intros v r v'; rewrite path_components_spec; apply (keeps_same (λ _, components rest))|]. intros. apply keeps_walk_components.
Qed.

(** Taking a run of a sequence apart. *)
Lemma bind_Ok {A B} (c : V A) (f : A -> V B) v b v' : (c ≫= f) v = Some (Ok b, v') -> exists a v1, c v = Some (Ok a, v1) /\ f a v1 = Some (Ok b, v').
Proof. unfold mbind, V_bind. destruct (c v) as [[[a|e] v1]|]; try done. eauto. Qed.

Lemma some_Ok {A} e (o : option A) v a v' : vsome e o v = Some (Ok a, v') -> o = Some a /\ v' = v.
Proof. destruct o; [|done]. by intros [= <- <-]. Qed.

Lemma lift_Ok {A} (r : result VfsError A) v a v' : vlift r v = Some (Ok a, v') -> r = Ok a /\ v' = v.
Proof. by intros [= <- <-]. Qed.

Lemma components_Ok rest v a v' : path_components rest v = Some (Ok a, v') -> components rest = Ok a /\ v' = v.
Proof. rewrite path_components_spec. by intros [= <- <-]. Qed.

Lemma no_mount v d i : vfs_ok v -> find_mount v d i = None -> Forall (λ m, mount_key d i m = false) (active v).
Proof.
  intros Hv. unfold find_mount. rewrite (proj1 (active_prefix v Hv)), find_in_active. intros E%fmap_None.
  apply list_find_None in E. eapply Forall_impl; [exact E|]. intros m Hm. apply not_true_iff_false, Hm.
Qed.

Lemma find_append v v' m d i : vfs_ok v -> vfs_ok v' -> active v' = active v ++ [m] ->
  Forall (λ x, mount_key (parent_drive m) (parent_inode m) x = false) (active v) ->
  find_mount v' d i = if mount_key d i m then Some (mounted_drive m) else find_mount v d i.
Proof.
  intros Hv Hv' Ha Hn. unfold find_mount. rewrite (proj1 (active_prefix v Hv)), (proj1 (active_prefix v' Hv')), !find_in_active, Ha.
  clear Ha. induction Hn as [|x l Hx Hl IH]; cbn [app list_find].
  - destruct (mount_key d i m); case_decide; done.
  - destruct (mount_key d i x) eqn:E; case_decide; try done.
    + destruct (mount_key d i m) eqn:E2; [|done]. apply mount_key_true in E as [<- <-], E2 as [E3 E4].
      assert (mount_key (parent_drive m) (parent_inode m) x = true) as E5 by (by apply mount_key_true). congruence.
    + destruct (list_find _ (l ++ [m])) as [[]|], (list_find _ l) as [[]|]; exact IH.
Qed.

Lemma mount_at_path_Ok path letter v v' : vfs_ok v -> mount_at_path path letter v = Some (Ok (), v') ->
  exists m, vfs_ok v' /\ active v' = active v ++ [m] /\ drive_index letter = Some (mounted_drive m) /\
    Forall (λ x, mount_key (parent_drive m) (parent_inode m) x = false) (active v).
Proof.
  intros Hv Hrun. apply bind_Ok in Hrun as ([l rest] & v0 & [_ ->]%lift_Ok & Hrun).
  apply bind_Ok in Hrun as (d & v1 & [Hd ->]%some_Ok & Hrun). apply bind_Ok in Hrun as (md & v1 & [Hmd ->]%some_Ok & Hrun).
  apply bind_Ok in Hrun as (comps & v1 & [_ ->]%components_Ok & Hrun). apply bind_Ok in Hrun as ([rd ri] & v1 & Hw & Hrun).
  apply keeps_walk_components in Hw as Hk1. apply bind_Ok in Hrun as (node & v2 & Hst & Hrun). apply keeps_on_drive in Hst as Hk2.
  destruct (same_mounts_ok _ _ Hk1 Hv) as (Hv1 & Ha1 & _). destruct (same_mounts_ok _ _ Hk2 Hv1) as (Hv2 & Ha2 & _).
  destruct (Z.land _ _ =? 0); [done|]. apply bind_Ok in Hrun as (v3 & v4 & [= <- <-] & Hrun).
  destruct (drives v2 !! md) as [[s|]|]; try done. destruct (find_mount v2 rd ri) eqn:Ef; [done|].
  destruct (Nat.leb_spec MAX_SUBDIR_MOUNTS (mount_count v2)) as [|Hlt]; [done|]. injection Hrun as <-.
  pose proof (no_mount v2 rd ri Hv2 Ef) as Hno. rewrite Ha2, Ha1 in Hno.
  assert (rd < DRIVES)%nat as Hrd.
  { unfold on_drive in Hst. destruct (drives v1 !! rd) eqn:E; [|done]. apply lookup_lt_Some in E. by rewrite (vo_drives _ Hv1) in E. }
  destruct (append_active v2 (mkMount rd ri md) Hv2 Hlt Hrd (drive_index_range _ _ Hmd)) as [Hok Hact]. rewrite Ha2, Ha1 in Hact.
  exists (mkMount rd ri md). by split_and!.
Qed.

Lemma unmount_path_Ok path v v' : vfs_ok v -> unmount_path path v = Some (Ok (), v') ->
  exists k m, vfs_ok v' /\ active v !! k = Some m /\ active v' = delete k (active v).
Proof.
  intros Hv Hrun. apply bind_Ok in Hrun as ([l rest] & v0 & [_ ->]%lift_Ok & Hrun). apply bind_Ok in Hrun as ([d i] & v1 & Hw & Hrun).
  apply keeps_walk_path in Hw. destruct (same_mounts_ok _ _ Hw Hv) as (Hv1 & Ha1 & _). apply bind_Ok in Hrun as (v2 & v3 & [= <- <-] & Hrun).
  destruct (mount_index _ _ _ _) as [k|] eqn:E; [|done]. injection Hrun as <-. destruct (mount_index_range v1 d i k Hv1 E) as (m & Hm & _ & Hk).
  destruct (remove_active v1 k Hv1 Hk) as [Hok Hact]. exists k, m. rewrite Ha1 in *. by split_and!.
Qed.

(** The mount table refines a list of mounts.  Unmounting a drive clears it
    and drops exactly the mounts on it and of it, keeping the order; mounting on a
    directory that succeeds appends one mount, on a place that had none, and then
    that place leads to the drive and every other place where it led before;
    unmounting a directory that succeeds removes exactly one mount. *)
Theorem mount_table_refines_list v : vfs_ok v ->
  (forall letter idx, drive_index letter = Some idx -> exists v', vfs_unmount letter v = Some (Ok (), v') /\ vfs_ok v' /\
     drives v' = <[idx := None]> (drives v) /\ active v' = filter (λ m, involves idx m = false) (active v)) /\
  (forall path letter v', mount_at_path path letter v = Some (Ok (), v') -> exists m, vfs_ok v' /\ active v' = active v ++ [m] /\
     drive_index letter = Some (mounted_drive m) /\ find_mount v (parent_drive m) (parent_inode m) = None /\
     forall d i, find_mount v' d i = if mount_key d i m then Some (mounted_drive m) else find_mount v d i) /\
  (forall path v', unmount_path path v = Some (Ok (), v') -> exists k m, vfs_ok v' /\ active v !! k = Some m /\ active v' = delete k (active v)).
Proof.
  intros Hv. split; [|split].
  - intros letter idx Hi. pose proof (unmount_active v idx Hv) as Hu. unfold vfs_unmount. rewrite Hi. unfold vsome, mbind, V_bind, mret, V_ret, vmodify.
    destruct (compact _ _ _ _ _) as [kept l]. eexists. split; [reflexivity|]. destruct Hu. by split_and!.
  - intros path letter v' Hrun. destruct (mount_at_path_Ok path letter v v' Hv Hrun) as (m & Hv' & Ha & Hd & Hno). exists m.
    split_and!; try done; [|intros d i; by apply find_append].
    unfold find_mount. rewrite (proj1 (active_prefix v Hv)), find_in_active. apply fmap_None, list_find_None.
    eapply Forall_impl; [exact Hno|]. intros x Hx. by rewrite Hx.
  - intros path v' Hrun. by apply (unmount_path_Ok path).
Qed.

(** ** Unmounting by path *)

Definition is_name (c : str) : Prop := is_dot c = false /\ is_dotdot c = false.

(** A walk that ends with a name ends where no mount is, or on the root of a drive. *)
Lemma walk_ends comps c d i stack v d' i' v' : is_name c -> walk_stack (comps ++ [c]) d i stack v = Some (Ok (d', i'), v') ->
  i' = 0 \/ find_mount v' d' i' = None.
Proof.
  intros [Hc1 Hc2]. revert d i stack v. induction comps as [|x comps IH]; intros d i stack v; cbn [app walk_stack].
  - rewrite Hc1, Hc2. intros (n & v1 & _ & Hrun)%bind_Ok. destruct (_ <=? _)%nat; [done|]. apply bind_Ok in Hrun as (v2 & v3 & [= <- <-] & Hrun).
    destruct (find_mount v1 d (vn_inode n)) as [m|] eqn:E; [destruct (_ <=? _)%nat; [done|]|]; injection Hrun as <- <- <-; auto.
  - destruct (is_dot x); [apply IH|]. destruct (is_dotdot x); [destruct stack as [|? [|[] ?]]; apply IH|].
    intros (n & v1 & _ & Hrun)%bind_Ok. destruct (_ <=? _)%nat; [done|]. apply bind_Ok in Hrun as (v2 & v3 & [= <- <-] & Hrun).
    destruct (find_mount v1 d (vn_inode n)); [destruct (_ <=? _)%nat; [done|]|]; by eapply IH.
Qed.

(** [unmount_path] never unmounts a directory by its name: when the path ends
    with a name, the walk has already crossed the mount on it, and the table is
    searched for a mount on the root of the mounted drive.  Unless a drive is
    mounted on such a root, every path that ends with a name and resolves gives
    [NotMounted] and leaves the mounts as they are, a path that was just mounted on
    included. *)
Theorem unmount_named_path_fails path letter rest comps c v d i v' :
  vfs_ok v -> Forall (λ m, parent_inode m ≠ 0) (active v) ->
  split_drive path = Ok (letter, rest) -> split_path rest = comps ++ [c] -> is_name c ->
  walk_path letter rest v = Some (Ok (d, i), v') ->
  unmount_path path v = Some (Err NotMounted, v') /\ active v' = active v.
Proof.
  intros Hv H0 Hs Hp Hc Hw. apply keeps_walk_path in Hw as Hk. destruct (same_mounts_ok _ _ Hk Hv) as (Hv' & Ha & _). split; [|done].
  assert (Forall (λ m, mount_key d i m = false) (active v')) as Hno.
  { apply bind_Ok in Hw as (d0 & v0 & [_ ->]%some_Ok & Hw). apply bind_Ok in Hw as (cs & v0 & [Hcs ->]%components_Ok & Hw).
    unfold components in Hcs. rewrite Hp in Hcs. destruct (_ <? _)%nat; [done|]. injection Hcs as <-.
    rewrite walk_components_stack in Hw. destruct (walk_ends _ _ _ _ _ _ _ _ _ Hc Hw) as [->|]; [|by apply no_mount].
    rewrite Ha. eapply Forall_impl; [exact H0|]. intros m Hm. apply not_true_iff_false. intros [_ Hm0]%mount_key_true. by apply Hm. }
  unfold unmount_path. rewrite Hs. unfold mbind at 1, V_bind at 1, vlift. unfold mbind at 1, V_bind at 1. rewrite Hw.
  unfold mbind, V_bind, vget. rewrite (proj1 (active_prefix v' Hv')), mount_index_active.
  replace (list_find _ (active v')) with (@None (nat * Mount)); [done|].
  symmetry. apply list_find_None. eapply Forall_impl; [exact Hno|]. intros x Hx. by rewrite Hx.
Qed.
End vfs.

(** ** Resolution *)

(** What the inode numbers of a file system name: [obj] gives the object of a
    number, [child] the object under a name.  A lookup finds the child, or answers
    [NotFound] when there is none; numbers keep their meaning. *)
Class FsView (S O : Type) `{FileSystem S} := {
  obj : S -> Z -> option O;
  child : S -> O -> str -> option O;
  view_lookup s i c o : obj s i = Some o ->
    exists r s', op_lookup i c s = Some (r, s') /\
      (forall j x, obj s j = Some x -> obj s' j = Some x) /\ (forall x n, child s' x n = child s x n) /\
      match child s o c with Some o' => exists n, r = Ok n /\ obj s' (vn_inode n) = Some o' | None => r = Err NotFound end;
}.

(** The meaning of a path: [.] and empty components stay, [..] goes up and stays
    at the root. *)
Fixpoint resolve {O} (child : O -> str -> option O) (o : O) (up : list O) (comps : list str) : option O :=
  match comps with
  | [] => Some o
  | c :: comps =>
      if is_dot c then resolve child o up comps
      else if is_dotdot c then
        match up with
        | o' :: up => resolve child o' up comps
        | [] => resolve child o [] comps
        end
      else o' ← child o c; resolve child o' (o :: up) comps
  end.

Section resolution.
Context {S O : Type} `{FsView S O}.

Lemma resolve_ext (f g : O -> str -> option O) o up comps : (forall x n, f x n = g x n) -> resolve f o up comps = resolve g o up comps.
Proof.
  intros Hfg. revert o up. induction comps as [|c comps IH]; intros o up; [done|]. cbn [resolve].
  destruct (is_dot c); [apply IH|]. destruct (is_dotdot c); [destruct up; apply IH|]. rewrite Hfg. destruct (g o c); [apply IH|done].
Qed.

Lemma find_mount_none (v : Vfs S) d i : mount_count v = 0%nat -> find_mount v d i = None.
Proof. intros Hc. unfold find_mount. by rewrite Hc. Qed.

Lemma walk_stack_resolves comps d i js (v : Vfs S) s o up :
  mount_count v = 0%nat -> drives v !! d = Some (Some s) -> obj s i = Some o -> Forall2 (λ j x, obj s j = Some x) js up ->
  (1 + length js + length comps < STACK_SIZE)%nat ->
  exists r s', walk_stack comps d i ((d, i) :: map (pair d) js) v = Some (r, set_drive d (Some s') v) /\
    match resolve (child s) o up comps with Some o' => exists i', r = Ok (d, i') /\ obj s' i' = Some o' | None => r = Err NotFound end.
Proof.
  intros Hc. revert i js v s o up Hc. induction comps as [|c comps IH]; intros i js v s o up Hc Hd Ho Hup Hlen; cbn [walk_stack resolve length] in *.
  { exists (Ok (d, i)), s. unfold set_drive. rewrite list_insert_id by done. destruct v. split; [done|]. by exists i. }
  destruct (is_dot c); [apply IH; (done || lia)|]. destruct (is_dotdot c).
  { destruct Hup as [|j x js up Hj Hup]; cbn [map length] in *.
    - apply (IH i [] v s o []); (done || (cbn [length]; lia) || constructor).
    - apply (IH j js v s x up); (done || lia). }
  destruct (view_lookup s i c o Ho) as (r & s1 & Hl & Hobj & Hch & Hr). unfold mbind at 1, V_bind at 1, on_drive. rewrite Hd.
  unfold mbind at 1, option_bind at 1. rewrite Hl. destruct (child s o c) as [o'|]; cbn [mbind option_bind].
  2:{ subst r. by exists (Err NotFound), s1. }
  destruct Hr as (n & -> & Hn). cbn [length]. rewrite length_map. destruct (Nat.leb_spec STACK_SIZE (Datatypes.S (length js))); [lia|].
  unfold mbind, V_bind, vget. rewrite find_mount_none by done.
  destruct (IH (vn_inode n) (i :: js) (set_drive d (Some s1) v) s1 o' (o :: up)) as (r & s' & Hrun & Hres); [done| |done| |cbn [length]; lia|].
  - cbn. apply list_lookup_insert_eq. by eapply lookup_lt_Some.
  - constructor; [by apply Hobj|]. eapply Forall2_impl; [exact Hup|]. auto.
  - exists r, s'. rewrite (resolve_ext (child s1) (child s)) in Hres by done. split; [|done]. cbn [map] in Hrun. unfold set_drive in *. cbn [drives mounts mount_count] in *.
    rewrite Hrun, list_insert_insert_eq. done.
Qed.

(** C28. Resolving a list of components on drives without mounts on directories
    finds the object it means: components are looked up from the root, [.] and empty
    ones stay, [..] goes back and stays at the root; where a component does not exist
    the answer is [NotFound], and only then.  No list of at most 32 components is
    refused as too deep, and no other drive is touched.  The file system is any one
    that keeps the law of the interface [FsView]: a lookup in an object finds its
    child, or answers [NotFound], and changes no name.  The law is shown of a tree
    in memory, and not of NeoFS. *)
Theorem path_resolution_correct d comps (v : Vfs S) s root :
  mount_count v = 0%nat -> drives v !! d = Some (Some s) -> obj s 0 = Some root -> (length comps <= MAX_PATH_COMPONENTS)%nat ->
  exists r s', walk_components d 0 comps v = Some (r, set_drive d (Some s') v) /\
    match resolve (child s) root [] comps with Some o => exists i, r = Ok (d, i) /\ obj s' i = Some o | None => r = Err NotFound end.
Proof.
  intros Hc Hd Ho Hlen. rewrite walk_components_stack, find_mount_none by done.
  apply (walk_stack_resolves comps d 0 [] v s root []); try done. unfold STACK_SIZE, MAX_PATH_COMPONENTS in *. cbn. lia.
Qed.
End resolution.

(** ** A tree in memory *)

(** A file system with the operations the trait requires, and the trait's answers
    for the optional ones.  An entry is a directory, a name and the inode. *)
Record Tree := mkTree { t_entries : list (Z * str * VfsNode) }.

Definition tree_find (t : Tree) (i : Z) (n : str) : option VfsNode :=
  (λ x, x.2.2) <$> list_find (λ e : Z * str * VfsNode, e.1 = (i, n)) (t_entries t).
Definition tree_stat (t : Tree) (i : Z) : option VfsNode :=
  if i =? 0 then Some (mkVfsNode 0 MODE_DIR 0)
  else (λ x, x.2.2) <$> list_find (λ e : Z * str * VfsNode, vn_inode e.2 = i) (t_entries t).
Definition tree_add (i : Z) (n : str) (mode : Z) : FsOp Tree VfsNode := λ t,
  let node := mkVfsNode (Z.of_nat (length (t_entries t)) + 1) mode 0 in Some (Ok node, mkTree (t_entries t ++ [((i, n), node)])).
Definition or_not_found {A} (o : option A) : result VfsError A := match o with Some a => Ok a | None => Err NotFound end.
Definition not_implemented {A} : FsOp Tree A := λ t, Some (Err NotImplemented, t).

#[export] Instance Tree_fs : FileSystem Tree := {|
  op_read _ _ _ := not_implemented; op_write _ _ _ := not_implemented;
  op_lookup i n t := Some (or_not_found (tree_find t i n), t);
  op_readdir _ _ := not_implemented;
  op_mkdir i n := tree_add i n MODE_DIR; op_create i n := tree_add i n 0;
  op_stat i t := Some (or_not_found (tree_stat t i), t);
  op_remove_file _ _ := not_implemented; op_remove_dir _ _ := not_implemented; op_rename _ _ _ := not_implemented;
  op_volume_label := not_implemented; op_set_volume_label _ t := Some (Err PermissionDenied, t);
  op_snapshot_create := not_implemented; op_snapshot_restore _ := not_implemented; op_snapshot_list _ := not_implemented;
  op_snapshot_delete _ := not_implemented; op_snapshot_extract _ _ _ := not_implemented; op_snapshot_purge := not_implemented |}.

#[export] Instance Tree_view : FsView Tree Z.
Proof.
  refine {| obj := λ _ i, Some i; child := λ t i n, vn_inode <$> tree_find t i n |}.
  intros t i c o [= <-]. eexists _, _. split; [reflexivity|]. split_and!; [done..|]. destruct (tree_find t i c); cbn; eauto.
Defined.

Lemma Tree_total : fs_total (S := Tree).
Proof. constructor; intros; by eexists. Qed.

(** Drive [A:] with [DIR\SUB], and an empty drive [B:]. *)
Definition A_tree : Tree := mkTree [((0, bytes_of "DIR"), mkVfsNode 1 MODE_DIR 0); ((1, bytes_of "SUB"), mkVfsNode 2 MODE_DIR 0)].
Definition two_drives : Vfs Tree := mkVfs (Some A_tree :: Some (mkTree []) :: replicate 24 None) (replicate MAX_SUBDIR_MOUNTS None) 0.
(** [B:] is mounted on [A:\DIR]. *)
Definition mounted_drives : Vfs Tree :=
  match mount_at_path (bytes_of "A:\DIR") 66 two_drives with Some (_, v) => v | None => two_drives end.

Lemma mounted_ok : vfs_ok mounted_drives.
Proof. constructor; vm_compute; repeat constructor; by eexists. Qed.
Lemma two_drives_ok : vfs_ok two_drives.
Proof. constructor; vm_compute; repeat constructor; by eexists. Qed.

Lemma vfs_paths_safe_witness : exists r v', resolve_path (bytes_of "A:\DIR\..\SUB") mounted_drives = Some (r, v') /\ vfs_ok v'.
Proof.
  destruct (vfs_paths_safe Tree_total (bytes_of "A:\DIR\..\SUB") [] 65 A_tree) as [Hs _].
  destruct (Hs mounted_drives mounted_ok) as (r & v' & E & Hv & _). by exists r, v'.
Defined.

Lemma mount_table_refines_list_witness :
  active mounted_drives = [mkMount 0 1 1] /\ exists m, active mounted_drives = active two_drives ++ [m] /\
    find_mount mounted_drives (parent_drive m) (parent_inode m) = Some (mounted_drive m).
Proof.
  split; [done|]. destruct (mount_table_refines_list two_drives two_drives_ok) as (_ & Hm & _).
  destruct (Hm (bytes_of "A:\DIR") 66 mounted_drives) as (m & _ & Ha & _ & _ & Hf); [reflexivity|].
  exists m. split; [done|]. rewrite Hf, (proj2 (mount_key_true _ _ m)); done.
Defined.

Lemma unmount_named_path_fails_witness : mount_at_path (bytes_of "A:\DIR") 66 two_drives = Some (Ok (), mounted_drives) /\
  unmount_path (bytes_of "A:\DIR") mounted_drives = Some (Err NotMounted, mounted_drives) /\ active mounted_drives = [mkMount 0 1 1].
Proof.
  split; [reflexivity|].
  apply (unmount_named_path_fails (bytes_of "A:\DIR") 65 (bytes_of "\DIR") [[]] (bytes_of "DIR") mounted_drives 1 0 mounted_drives); try reflexivity.
  - exact mounted_ok.
  - vm_compute. by repeat constructor.
  - split; reflexivity.
Defined.

Definition up_and_down : list str := [bytes_of "DIR"; bytes_of "SUB"; bytes_of ".."; bytes_of "SUB"].
Lemma path_resolution_correct_witness : resolve (child A_tree) 0 [] up_and_down = Some 2 /\
  exists s', walk_components 0 0 up_and_down two_drives = Some (Ok (0%nat, 2), set_drive 0 (Some s') two_drives).
Proof.
  split; [reflexivity|].
  destruct (path_resolution_correct 0 up_and_down two_drives A_tree 0) as (r & s' & E & i & -> & [= ->]);
    [reflexivity|reflexivity|reflexivity|unfold MAX_PATH_COMPONENTS; cbn [up_and_down length]; lia|]. by exists s'.
Defined.

(** [..] in the root of a mounted drive leads to the directory it is mounted on, not
    to that directory's parent: [A:\DIR\..] is [DIR] of drive [A:]. *)
Example dotdot_of_mounted_root : fst <$> walk_path 65 (bytes_of "\DIR\..") mounted_drives = Some (Ok (0%nat, 1)).
Proof. reflexivity. Qed.
