(* ===== verification/Hive.v ===== *)
(** * Hive.v: the registry ([cm/hive/], [cm/manager.rs], [cm/api.rs])

    A hive is a table of cells: keys, values and security descriptors, named by
    their index and linked into lists through index fields.  The first subkey and
    the first value of a key are in the key, the next one in the sibling.  Up to
    eight hives are mounted; a key is named outside by the position of its hive
    and its cell.

    Index fields are [u32] words kept as [Z].  A walk along a list has a number of
    turns as fuel; the outer [None] is the end of the fuel.  Writing a hive to its
    file is an argument of the functions that do it.  Left out are the sector
    access of [flush_to_io] and [load_from_io], the cell cache and the searches by
    encoded cell, which nothing calls, and what loading and unloading do to the
    object namespace. *)

From S2P Require Import Prelude Str Bytes.
Open Scope Z_scope.

Definition NULL_CELL : Z := 0xFFFFFFFF.
Definition MAX_CELLS : nat := 2048.
Definition MAX_HIVES : nat := 8.
Definition REG_SZ : Z := 1.
Definition REG_DWORD : Z := 2.

Record KeyCell := mkKey {
  key_name : str; parent_cell : Z; subkeys_head : Z; subkeys_sibling : Z; values_head : Z; sec_desc_cell : Z; last_write : Z;
}.
Definition key_new (name : str) (parent : Z) : KeyCell := mkKey name parent NULL_CELL NULL_CELL NULL_CELL NULL_CELL 0.
Definition with_head (i : Z) (k : KeyCell) : KeyCell := mkKey (key_name k) (parent_cell k) i (subkeys_sibling k) (values_head k) (sec_desc_cell k) (last_write k).
Definition with_sibling (i : Z) (k : KeyCell) : KeyCell := mkKey (key_name k) (parent_cell k) (subkeys_head k) i (values_head k) (sec_desc_cell k) (last_write k).
Definition with_values (i : Z) (k : KeyCell) : KeyCell := mkKey (key_name k) (parent_cell k) (subkeys_head k) (subkeys_sibling k) i (sec_desc_cell k) (last_write k).

Record ValueCell := mkValue { val_name : str; value_type : Z; val_data : list Z; val_next : Z }.
Definition value_new (name : str) (t : Z) (data : list Z) : ValueCell := mkValue name t data NULL_CELL.
Definition with_next (i : Z) (v : ValueCell) : ValueCell := mkValue (val_name v) (value_type v) (val_data v) i.

Definition as_str (v : ValueCell) : option str :=
  if value_type v =? REG_SZ then
    let data := if bool_decide (last (val_data v) = Some 0) then take (length (val_data v) - 1) (val_data v) else val_data v in
    if utf8_valid data then Some data else None
  else None.
Definition as_dword (v : ValueCell) : option Z :=
  if (value_type v =? REG_DWORD) && (4 <=? length (val_data v))%nat then get_le 4 (val_data v) 0 else None.

Record SecurityCell := mkSec { sd_data : list Z; sec_next : Z }.

Inductive Cell := CFree | CKey (k : KeyCell) | CValue (v : ValueCell) | CSecurity (s : SecurityCell).
#[global] Instance key_eq_dec : EqDecision KeyCell.
Proof. solve_decision. Defined.
#[global] Instance value_eq_dec : EqDecision ValueCell.
Proof. solve_decision. Defined.
#[global] Instance security_eq_dec : EqDecision SecurityCell.
Proof. solve_decision. Defined.
#[global] Instance cell_eq_dec : EqDecision Cell.
Proof. solve_decision. Defined.

Record Hive := mkHive { hive_name : str; cells : list (option Cell); next_alloc_hint : Z; cell_count : nat; is_dirty : bool }.
Definition mark_clean (h : Hive) : Hive := mkHive (hive_name h) (cells h) (next_alloc_hint h) (cell_count h) false.
Definition with_name (name : str) (h : Hive) : Hive := mkHive name (cells h) (next_alloc_hint h) (cell_count h) (is_dirty h).

Definition hive_new (name : str) : Hive :=
  mkHive name (<[0%nat := Some (CKey (key_new name NULL_CELL))]> (replicate MAX_CELLS None)) 1 1 false.

(** ** Cells *)

Definition cell_at (cs : list (option Cell)) (i : Z) : option Cell := mjoin (cs !! Z.to_nat i).
Definition slot (h : Hive) (i : Z) : option Cell := cell_at (cells h) i.
(** A change through [slot_mut], which marks the hive whenever the index is in
    range. *)
Definition on_slot (i : Z) (f : Cell -> Cell) (h : Hive) : Hive :=
  if (length (cells h) <=? Z.to_nat i)%nat then h
  else mkHive (hive_name h) (alter (fmap f) (Z.to_nat i) (cells h)) (next_alloc_hint h) (cell_count h) true.
Definition on_key (f : KeyCell -> KeyCell) (c : Cell) : Cell := match c with CKey k => CKey (f k) | c => c end.
Definition on_value (f : ValueCell -> ValueCell) (c : Cell) : Cell := match c with CValue v => CValue (f v) | c => c end.

(** [alloc_cell]: the first empty entry from the hint on, round the table, or a
    new one at its end. *)
Definition alloc_cell (c : Cell) (h : Hive) : Z * Hive :=
  let len := length (cells h) in
  match list_find (λ i, cells h !! i = Some None) ((λ offset, (Z.to_nat (next_alloc_hint h) + offset) `mod` len)%nat <$> seq 0 len) with
  | Some (_, i) => (Z.of_nat i, mkHive (hive_name h) (<[i := Some c]> (cells h)) (u32 (Z.of_nat i + 1) `mod` u32 (Z.of_nat len)) (S (cell_count h)) true)
  | None => (u32 (Z.of_nat len), mkHive (hive_name h) (cells h ++ [Some c]) (u32 (Z.of_nat len + 1)) (S (cell_count h)) true)
  end.

Definition free_cell (i : Z) (h : Hive) : Hive :=
  match slot h i with
  | Some _ => mkHive (hive_name h) (<[Z.to_nat i := None]> (cells h)) (next_alloc_hint h) (cell_count h - 1) true
  | None => h
  end.

(** ** Keys *)

Definition subkeys_of (h : Hive) (parent : Z) : option Z := match slot h parent with Some (CKey k) => Some (subkeys_head k) | _ => None end.

Fixpoint find_key_loop (n : nat) (h : Hive) (curr : Z) (name : str) : option (option Z) :=
  if curr =? NULL_CELL then Some None
  else
    match n with
    | O => None
    | S n =>
        match slot h curr with
        | Some (CKey k) => if eq_ignore_case (key_name k) name then Some (Some curr) else find_key_loop n h (subkeys_sibling k) name
        | _ => Some None
        end
    end.
Definition find_key (n : nat) (h : Hive) (parent : Z) (name : str) : option (option Z) :=
  match subkeys_of h parent with Some head => find_key_loop n h head name | None => Some None end.

Definition create_key (n : nat) (h : Hive) (parent : Z) (name : str) : option (option Z * Hive) :=
  match slot h parent with
  | Some (CKey pk) =>
      found ← find_key n h parent name;
      match found with
      | Some _ => Some (None, h)
      | None =>
          let '(new, h) := alloc_cell (CKey (with_sibling (subkeys_head pk) (key_new name parent))) h in
          Some (Some new, on_slot parent (on_key (with_head new)) h)
      end
  | _ => Some (None, h)
  end.

Fixpoint open_parts (n : nat) (h : Hive) (curr : Z) (parts : list str) : option (option Z) :=
  match parts with
  | [] => Some (Some curr)
  | p :: parts => found ← find_key n h curr p; match found with Some i => open_parts n h i parts | None => Some None end
  end.
(** The separator is the backslash. *)
Definition open_key_by_path (n : nat) (h : Hive) (start : Z) (path : str) : option (option Z) :=
  open_parts n h start (filter (λ p, p ≠ []) (split 92 path)).

Fixpoint enum_key_loop (n : nat) (h : Hive) (curr : Z) (i index : Z) : option (option str) :=
  if curr =? NULL_CELL then Some None
  else
    match n with
    | O => None
    | S n =>
        match slot h curr with
        | Some (CKey k) => if i =? index then Some (Some (key_name k)) else enum_key_loop n h (subkeys_sibling k) (i + 1) index
        | _ => Some None
        end
    end.
Definition enum_key (n : nat) (h : Hive) (parent index : Z) : option (option str) :=
  match subkeys_of h parent with Some head => enum_key_loop n h head 0 index | None => Some None end.

Fixpoint key_count_loop (n : nat) (h : Hive) (curr : Z) (acc : Z) : option Z :=
  if curr =? NULL_CELL then Some acc
  else
    match n with
    | O => None
    | S n => match slot h curr with Some (CKey k) => key_count_loop n h (subkeys_sibling k) (acc + 1) | _ => Some (acc + 1) end
    end.
Definition key_count (n : nat) (h : Hive) (parent : Z) : option Z :=
  match subkeys_of h parent with Some head => key_count_loop n h head 0 | None => Some 0 end.

(** [delete_key]: the subkeys of a key are pushed in list order. *)
Fixpoint push_subkeys (n : nat) (h : Hive) (sk : Z) (stack : list (Z * bool)) : option (list (Z * bool)) :=
  if sk =? NULL_CELL then Some stack
  else
    match n with
    | O => None
    | S n => push_subkeys n h (match slot h sk with Some (CKey k) => subkeys_sibling k | _ => NULL_CELL end) ((sk, false) :: stack)
    end.

Fixpoint free_values (n : nat) (cv : Z) (h : Hive) : option Hive :=
  if cv =? NULL_CELL then Some h
  else
    match n with
    | O => None
    | S n => free_values n (match slot h cv with Some (CValue v) => val_next v | _ => NULL_CELL end) (free_cell cv h)
    end.

(** The search for the key before [curr] in the list, which then skips it. *)
Fixpoint unlink_after (n : nat) (prev curr sibling : Z) (h : Hive) : option Hive :=
  if prev =? NULL_CELL then Some h
  else
    match n with
    | O => None
    | S n =>
        let nxt := match slot h prev with Some (CKey p) => subkeys_sibling p | _ => NULL_CELL end in
        if nxt =? curr then Some (on_slot prev (on_key (with_sibling sibling)) h) else unlink_after n nxt curr sibling h
    end.
Definition unlink_key (n : nat) (parent curr sibling : Z) (h : Hive) : option Hive :=
  if parent =? NULL_CELL then Some h
  else
    match slot h parent with
    | Some (CKey pk) =>
        if subkeys_head pk =? curr then Some (on_slot parent (on_key (with_head sibling)) h)
        else unlink_after n (subkeys_head pk) curr sibling (on_slot parent id h)
    | _ => Some (on_slot parent id h)
    end.

(** One turn of the loop for the entry [(curr, visited)]. *)
Definition delete_turn (n : nat) (curr : Z) (visited : bool) (stack : list (Z * bool)) (h : Hive) : option (list (Z * bool) * Hive) :=
  match slot h curr with
  | Some (CKey k) =>
      if visited then
        h ← free_values n (values_head k) h;
        h ← unlink_key n (parent_cell k) curr (subkeys_sibling k) h;
        Some (stack, free_cell curr h)
      else stack ← push_subkeys n h (subkeys_head k) ((curr, true) :: stack); Some (stack, h)
  | _ => Some (stack, free_cell curr h)
  end.
Fixpoint delete_loop (m n : nat) (stack : list (Z * bool)) (h : Hive) : option Hive :=
  match stack with
  | [] => Some h
  | (curr, visited) :: stack =>
      match m with
      | O => None
      | S m => '(stack, h) ← delete_turn n curr visited stack h; delete_loop m n stack h
      end
  end.
Definition delete_key (m n : nat) (i : Z) (h : Hive) : option Hive :=
  if i =? 0 then Some h else match slot h i with None => Some h | Some _ => delete_loop m n [(i, false)] h end.

(** ** Values *)

Definition values_of (h : Hive) (key : Z) : option Z := match slot h key with Some (CKey k) => Some (values_head k) | _ => None end.

Fixpoint find_value_loop (n : nat) (h : Hive) (curr : Z) (name : str) : option (option Z) :=
  if curr =? NULL_CELL then Some None
  else
    match n with
    | O => None
    | S n =>
        match slot h curr with
        | Some (CValue v) => if eq_ignore_case (val_name v) name then Some (Some curr) else find_value_loop n h (val_next v) name
        | _ => Some None
        end
    end.
Definition find_value (n : nat) (h : Hive) (key : Z) (name : str) : option (option Z) :=
  match values_of h key with Some head => find_value_loop n h head name | None => Some None end.

(** The cell of a new value is allocated before it is known whether [key] is a
    key. *)
Definition set_value (n : nat) (h : Hive) (key : Z) (name : str) (t : Z) (data : list Z) : option Hive :=
  found ← find_value n h key name;
  match found with
  | Some i => Some (on_slot i (on_value (λ v, mkValue (val_name v) t data (val_next v))) h)
  | None =>
      let v := match values_of h key with Some head => with_next head (value_new name t data) | None => value_new name t data end in
      let '(i, h) := alloc_cell (CValue v) h in
      Some (on_slot key (on_key (with_values i)) h)
  end.

Definition query_value (n : nat) (h : Hive) (key : Z) (name : str) : option (option ValueCell) :=
  found ← find_value n h key name;
  Some (i ← found; match slot h i with Some (CValue v) => Some v | _ => None end).

Fixpoint delete_value_loop (n : nat) (key prev curr : Z) (name : str) (h : Hive) : option (bool * Hive) :=
  if curr =? NULL_CELL then Some (false, h)
  else
    match n with
    | O => None
    | S n =>
        match slot h curr with
        | Some (CValue v) =>
            if eq_ignore_case (val_name v) name then
              let h := if prev =? NULL_CELL then on_slot key (on_key (with_values (val_next v))) h else on_slot prev (on_value (with_next (val_next v))) h in
              Some (true, free_cell curr h)
            else delete_value_loop n key curr (val_next v) name h
        | _ => Some (false, h)
        end
    end.
Definition delete_value (n : nat) (h : Hive) (key : Z) (name : str) : option (bool * Hive) :=
  match values_of h key with Some head => delete_value_loop n key NULL_CELL head name h | None => Some (false, h) end.

Fixpoint enum_value_loop (n : nat) (h : Hive) (curr : Z) (i index : Z) : option (option str) :=
  if curr =? NULL_CELL then Some None
  else
    match n with
    | O => None
    | S n =>
        match slot h curr with
        | Some (CValue v) => if i =? index then Some (Some (val_name v)) else enum_value_loop n h (val_next v) (i + 1) index
        | _ => Some None
        end
    end.
Definition enum_value (n : nat) (h : Hive) (key index : Z) : option (option str) :=
  match values_of h key with Some head => enum_value_loop n h head 0 index | None => Some None end.

Fixpoint value_count_loop (n : nat) (h : Hive) (curr : Z) (acc : Z) : option Z :=
  if curr =? NULL_CELL then Some acc
  else
    match n with
    | O => None
    | S n => match slot h curr with Some (CValue v) => value_count_loop n h (val_next v) (acc + 1) | _ => Some (acc + 1) end
    end.
Definition value_count (n : nat) (h : Hive) (key : Z) : option Z :=
  match values_of h key with Some head => value_count_loop n h head 0 | None => Some 0 end.

(** ** Mounted hives *)

Record HiveMount := mkMount { hm_name : str; mount_path : str; hm_hive : Hive; hm_ob : Z }.
Abbreviation CmManager := (list HiveMount).
Definition with_hive (h : Hive) (m : HiveMount) : HiveMount := mkMount (hm_name m) (mount_path m) h (hm_ob m).

Definition cm_mount (m : HiveMount) (cm : CmManager) : option nat * CmManager :=
  if (MAX_HIVES <=? length cm)%nat then (None, cm) else (Some (length cm), cm ++ [m]).
Definition cm_unmount (path : str) (cm : CmManager) : bool * CmManager :=
  match list_find (λ m : HiveMount, mount_path m = path) cm with Some (i, _) => (true, delete i cm) | None => (false, cm) end.
Definition find_hive_by_path (path : str) (cm : CmManager) : option HiveMount := snd <$> list_find (λ m : HiveMount, mount_path m = path) cm.

Definition encode_cell (hive_idx cell_idx : Z) : Z := Z.lor (u64 (Z.shiftl hive_idx 24)) cell_idx.
Definition decode_cell (native_id : Z) : Z * Z := (u32 (Z.shiftr native_id 24), Z.land native_id 0x00FFFFFF).

(** The hive a key id names, with the cell. *)
Definition cm_at (id : Z) (cm : CmManager) : option (nat * HiveMount * Z) :=
  let '(hi, ci) := decode_cell id in m ← cm !! Z.to_nat hi; Some (Z.to_nat hi, m, ci).
Definition cm_put (i : nat) (h : Hive) (cm : CmManager) : CmManager := alter (with_hive h) i cm.

Definition cm_open_key (n : nat) (id : Z) (path : str) (cm : CmManager) : option (result () Z) :=
  match cm_at id cm with
  | None => Some (Err ())
  | Some (i, m, c) => found ← open_key_by_path n (hm_hive m) c path; Some (match found with Some x => Ok (encode_cell (Z.of_nat i) x) | None => Err () end)
  end.
Definition cm_create_key (n : nat) (id : Z) (name : str) (cm : CmManager) : option (result () Z * CmManager) :=
  match cm_at id cm with
  | None => Some (Err (), cm)
  | Some (i, m, c) =>
      '(new, h) ← create_key n (hm_hive m) c name;
      Some (match new with Some x => Ok (encode_cell (Z.of_nat i) x) | None => Err () end, cm_put i h cm)
  end.
Definition cm_delete_key (m n : nat) (id : Z) (cm : CmManager) : option (result () () * CmManager) :=
  match cm_at id cm with
  | None => Some (Err (), cm)
  | Some (i, hm, c) => h ← delete_key m n c (hm_hive hm); Some (Ok (), cm_put i h cm)
  end.
Definition cm_set_value (n : nat) (id : Z) (name : str) (t : Z) (data : list Z) (cm : CmManager) : option (result () () * CmManager) :=
  match cm_at id cm with
  | None => Some (Err (), cm)
  | Some (i, m, c) => h ← set_value n (hm_hive m) c name t data; Some (Ok (), cm_put i h cm)
  end.
Definition cm_delete_value (n : nat) (id : Z) (name : str) (cm : CmManager) : option (result () () * CmManager) :=
  match cm_at id cm with
  | None => Some (Err (), cm)
  | Some (i, m, c) => match delete_value n (hm_hive m) c name with Some (b, h) => Some (if b then Ok () else Err (), cm_put i h cm) | None => None end
  end.
Definition cm_query_value (n : nat) (id : Z) (name : str) (cm : CmManager) : option (result () ValueCell) :=
  match cm_at id cm with
  | None => Some (Err ())
  | Some (_, m, c) => found ← query_value n (hm_hive m) c name; Some (match found with Some v => Ok v | None => Err () end)
  end.
Definition cm_enum_key (n : nat) (id index : Z) (cm : CmManager) : option (result () str) :=
  match cm_at id cm with
  | None => Some (Err ())
  | Some (_, m, c) => found ← enum_key n (hm_hive m) c index; Some (match found with Some x => Ok x | None => Err () end)
  end.
Definition cm_enum_value (n : nat) (id index : Z) (cm : CmManager) : option (result () str) :=
  match cm_at id cm with
  | None => Some (Err ())
  | Some (_, m, c) => found ← enum_value n (hm_hive m) c index; Some (match found with Some x => Ok x | None => Err () end)
  end.

Section files.
(** Writing a hive to its file, and whether that works. *)
Context (write_file : Hive -> bool).

Definition flush_hive_to_vfs (h : Hive) : bool := if is_dirty h then write_file h else true.

Definition cm_flush_key (id : Z) (cm : CmManager) : result () () * CmManager :=
  match cm_at id cm with
  | None => (Err (), cm)
  | Some (i, m, _) =>
      if negb (is_dirty (hm_hive m)) then (Ok (), cm)
      else if flush_hive_to_vfs (hm_hive m) then (Ok (), cm_put i (mark_clean (hm_hive m)) cm)
      else (Err (), cm)
  end.

(** [cm_flush_all_hives]: the hives to write are numbered after the others have
    been filtered out. *)
Definition clean_at (i : nat) (cm : CmManager) : CmManager := alter (λ m, with_hive (mark_clean (hm_hive m)) m) i cm.
Definition cm_flush_all_hives (cm : CmManager) : CmManager :=
  let snapshots := imap (λ i (m : HiveMount), (i, hm_hive m)) (filter (λ m : HiveMount, is_dirty (hm_hive m) = true) cm) in
  foldl (λ cm '(i, h), if flush_hive_to_vfs h then clean_at i cm else cm) cm snapshots.

(** [cm_unload_hive] on the manager. *)
Definition cm_unload_hive (path : str) (cm : CmManager) : result () () * CmManager :=
  match find_hive_by_path path cm with
  | Some m =>
      if is_dirty (hm_hive m) && negb (flush_hive_to_vfs (hm_hive m)) then (Err (), cm)
      else (Ok (), (cm_unmount path cm).2)
  | None => (Err (), cm)
  end.

(** [cm_load_hive]: [file] is the hive read from the file, [ob] the id of the
    object made for it. *)
Definition cm_load_hive (file : option Hive) (ob : option Z) (name path : str) (cm : CmManager) : result () () * CmManager :=
  match find_hive_by_path path cm with
  | Some _ => (Err (), cm)
  | None =>
      let h := match file with Some h => with_name name h | None => hive_new name end in
      match ob with Some o => (Ok (), (cm_mount (mkMount name path h o) cm).2) | None => (Err (), cm) end
  end.
End files.
