(* ===== verification/HiveFile.v ===== *)
(** * HiveFile.v: the file format of a hive ([cm/hive/serialize.rs])

    A header of 16 bytes (magic, version, number of cells, checksum) and the cells
    in index order.  The checksum is the wrapping sum of every number and byte
    written behind the header.  The reader checks every length against the end of
    the data; bytes behind the last cell are not looked at, since a hive is written
    over its old file. *)

From S2P Require Import Prelude Str Bytes Hive.
Open Scope Z_scope.

(** [checksum.wrapping_add(..)], one after the other. *)
Definition sum_words (sum : Z) (ws : list Z) : Z := foldl (λ s w, u32 (s + w)) sum ws.

(** ** Writing *)

Definition HIVE_MAGIC : list Z := bytes_of "NEOH".

(** The occupied cells with their indices. *)
Fixpoint entries_from (i : nat) (cs : list (option Cell)) : list (Z * Cell) :=
  match cs with
  | [] => []
  | Some CFree :: cs | None :: cs => entries_from (S i) cs
  | Some c :: cs => (Z.of_nat i, c) :: entries_from (S i) cs
  end.

(** What is written for a cell, and the numbers that go into the checksum. *)
Definition name_bytes (s : str) : list Z := le_bytes 2 (u16 (Z.of_nat (length s))) ++ s.
Definition name_words (s : str) : list Z := u16 (Z.of_nat (length s)) :: s.
Definition blob_bytes (s : list Z) : list Z := le_bytes 4 (u32 (Z.of_nat (length s))) ++ s.
Definition blob_words (s : list Z) : list Z := u32 (Z.of_nat (length s)) :: s.
Definition key_bytes (k : KeyCell) : list Z :=
  name_bytes (key_name k) ++ le_bytes 4 (parent_cell k) ++ le_bytes 4 (subkeys_head k) ++ le_bytes 4 (subkeys_sibling k) ++ le_bytes 4 (values_head k) ++
  le_bytes 4 (sec_desc_cell k) ++ le_bytes 8 (last_write k).
Definition key_words (k : KeyCell) : list Z :=
  name_words (key_name k) ++ [parent_cell k] ++ [subkeys_head k] ++ [subkeys_sibling k] ++ [values_head k] ++ [sec_desc_cell k] ++
  [u32 (last_write k); u32 (Z.shiftr (last_write k) 32)].
Definition value_bytes (v : ValueCell) : list Z := name_bytes (val_name v) ++ le_bytes 4 (value_type v) ++ blob_bytes (val_data v) ++ le_bytes 4 (val_next v).
Definition value_words (v : ValueCell) : list Z := name_words (val_name v) ++ [value_type v] ++ blob_words (val_data v) ++ [val_next v].
Definition security_bytes (s : SecurityCell) : list Z := blob_bytes (sd_data s) ++ le_bytes 4 (sec_next s).
Definition security_words (s : SecurityCell) : list Z := blob_words (sd_data s) ++ [sec_next s].
Definition cell_bytes (i : Z) (c : Cell) : list Z :=
  le_bytes 4 i ++ match c with CKey k => 1 :: key_bytes k | CValue v => 2 :: value_bytes v | CSecurity s => 3 :: security_bytes s | CFree => [] end.
Definition cell_words (i : Z) (c : Cell) : list Z :=
  i :: match c with CKey k => 1 :: key_words k | CValue v => 2 :: value_words v | CSecurity s => 3 :: security_words s | CFree => [] end.

Definition put_cell (acc : list Z * Z) (e : Z * Cell) : list Z * Z := (acc.1 ++ cell_bytes e.1 e.2, sum_words acc.2 (cell_words e.1 e.2)).
Definition serialize (h : Hive) : list Z :=
  let entries := entries_from 0 (cells h) in
  let header := HIVE_MAGIC ++ le_bytes 4 1 ++ le_bytes 4 (u32 (Z.of_nat (length entries))) ++ le_bytes 4 0 in
  let '(buf, checksum) := foldl put_cell (header, 0) entries in
  take 12 buf ++ le_bytes 4 checksum ++ drop 16 buf.

(** ** Reading *)

(** The reader: the data, the position and the checksum so far. *)
Definition R (A : Type) : Type := list Z -> nat * Z -> outcome () (A * (nat * Z)).
#[global] Instance R_ret : MRet R := λ A a _ s, Val (a, s).
#[global] Instance R_bind : MBind R := λ A B f r data s, '(a, s) ← r data s; f a data s.

(** [if pos + n > data.len() { return Err(()) }]. *)
Definition need (n : nat) : R () := λ data s, _ ← guard_not (length data <? s.1 + n)%nat (); Val ((), s).
Definition add (w : Z) : R () := λ _ s, Val ((), (s.1, u32 (s.2 + w))).
Definition fail {A} : R A := λ _ _, Fail ().
(** A number of [n] bytes, or [n] bytes. *)
Definition take_le (n : nat) : R Z := λ data s, v ← must (get_le n data s.1); Val (v, ((s.1 + n)%nat, s.2)).
Definition take_slice (n : nat) : R (list Z) := λ data s, v ← must (slice data s.1 n); Val (v, ((s.1 + n)%nat, s.2)).
Fixpoint add_all (ws : list Z) : R () := match ws with [] => mret () | w :: ws => _ ← add w; add_all ws end.

Definition read_u32 : R Z := _ ← need 4; v ← take_le 4; _ ← add v; mret v.
Definition read_name : R str :=
  _ ← need 2; n ← take_le 2; _ ← add n; _ ← need (Z.to_nat n); s ← take_slice (Z.to_nat n);
  if utf8_valid s then _ ← add_all s; mret s else fail.
Definition read_blob : R (list Z) := n ← read_u32; _ ← need (Z.to_nat n); s ← take_slice (Z.to_nat n); _ ← add_all s; mret s.

Definition read_key : R Cell :=
  name ← read_name; parent ← read_u32; head ← read_u32; sibling ← read_u32; values ← read_u32; sec ← read_u32;
  _ ← need 8; lw ← take_le 8; _ ← add (u32 lw); _ ← add (u32 (Z.shiftr lw 32));
  mret (CKey (mkKey name parent head sibling values sec lw)).
Definition read_value : R Cell := name ← read_name; t ← read_u32; data ← read_blob; next ← read_u32; mret (CValue (mkValue name t data next)).
Definition read_security : R Cell := data ← read_blob; next ← read_u32; mret (CSecurity (mkSec data next)).

Definition read_cell : R (Z * Cell) :=
  _ ← need 5; i ← take_le 4; _ ← add i; t ← take_le 1; _ ← add t;
  c ← (if t =? 1 then read_key else if t =? 2 then read_value else if t =? 3 then read_security else fail);
  mret (i, c).

Fixpoint read_cells (n : nat) (cs : list (option Cell)) (count : nat) : R (list (option Cell) * nat) :=
  match n with
  | O => mret (cs, count)
  | S n => '(i, c) ← read_cell; if (length cs <=? Z.to_nat i)%nat then fail else read_cells n (<[Z.to_nat i := Some c]> cs) (S count)
  end.

Definition deserialize (data : list Z) : outcome () Hive :=
  _ ← guard_not (length data <? 16)%nat ();
  magic ← must (slice data 0 4);
  _ ← guard_not (negb (bool_decide (magic = HIVE_MAGIC))) ();
  version ← must (get_le 4 data 4);
  _ ← guard_not (negb (version =? 1)) ();
  entry_count ← must (get_le 4 data 8);
  stored ← must (get_le 4 data 12);
  '(cs, count, (_, computed)) ← read_cells (Z.to_nat entry_count) (replicate MAX_CELLS None) 0 data (16%nat, 0);
  _ ← guard_not (negb (computed =? stored)) ();
  match cs !! 0%nat with
  | Some (Some _) => Val (mkHive [] cs 1 count false)
  | _ => Val (mkHive [] (<[0%nat := Some (CKey (key_new [] NULL_CELL))]> cs) 1 (S count) false)
  end.

(** ** Reading back what was written *)

(** [r] consumes the bytes [b], gives [a] and adds the numbers [ws]. *)
Definition reads {A} (r : R A) (b : list Z) (a : A) (ws : list Z) : Prop :=
  forall pre post sum, r (pre ++ b ++ post) (length pre, sum) = Val (a, (length (pre ++ b), sum_words sum ws)).

Lemma reads_bind {A B} (r : R A) (f : A -> R B) b1 a1 w1 b2 a2 w2 : reads r b1 a1 w1 -> reads (f a1) b2 a2 w2 -> reads (r ≫= f) (b1 ++ b2) a2 (w1 ++ w2).
Proof.
  intros H1 H2 pre post sum. unfold mbind, R_bind. rewrite <- app_assoc, H1. cbn [mbind outcome_bind]. rewrite (app_assoc pre b1), H2, <- !app_assoc. do 3 f_equal. unfold sum_words. by rewrite foldl_app.
Qed.
Lemma reads_ret {A} (a : A) : reads (mret a) [] a [].
Proof. intros pre post sum. by rewrite !app_nil_r. Qed.
Lemma reads_add w : reads (add w) [] () [w].
Proof. intros pre post sum. by rewrite !app_nil_r. Qed.
Lemma reads_add_all ws : reads (add_all ws) [] () ws.
Proof. induction ws as [|w ws IH]; [apply reads_ret|]. apply (reads_bind _ _ [] () [w] [] () ws); [apply reads_add|done]. Qed.
Lemma reads_le n z : 0 <= z < 256 ^ Z.of_nat n -> reads (take_le n) (le_bytes n z) z [].
Proof. intros Hz pre post sum. unfold take_le. cbn [fst snd]. rewrite get_le_app by done. outcome_step. by rewrite length_app, length_le_bytes. Qed.
Lemma reads_slice s : reads (take_slice (length s)) s s [].
Proof. intros pre post sum. unfold take_slice. cbn [fst snd]. rewrite slice_app by done. outcome_step. by rewrite length_app. Qed.
Lemma reads_need {A} n (f : () -> R A) b a ws : (n <= length b)%nat -> reads (f ()) b a ws -> reads (need n ≫= f) b a ws.
Proof.
  intros Hn Hf pre post sum. unfold mbind, R_bind, need. cbn [fst]. rewrite (proj2 (Nat.ltb_ge _ _)) by (rewrite !length_app; lia). outcome_step. apply Hf.
Qed.
Lemma reads_eq {A} (r : R A) b a ws b' ws' : reads r b a ws -> b = b' -> ws = ws' -> reads r b' a ws'.
Proof. by intros H <- <-. Qed.

(** The next step of a reader is one of the known ones. *)
Ltac reads_next H := eapply reads_bind; [exact H|].

Definition word32 (z : Z) : Prop := 0 <= z < 2 ^ 32.
Definition text_ok (s : str) : Prop := utf8_valid s = true /\ Z.of_nat (length s) < 65536.
Definition blob_ok (s : list Z) : Prop := Z.of_nat (length s) < 2 ^ 32.
Definition cell_ok (c : Cell) : Prop :=
  match c with
  | CKey k => text_ok (key_name k) /\ word32 (parent_cell k) /\ word32 (subkeys_head k) /\ word32 (subkeys_sibling k) /\ word32 (values_head k) /\ word32 (sec_desc_cell k) /\
      0 <= last_write k < 2 ^ 64
  | CValue v => text_ok (val_name v) /\ word32 (value_type v) /\ blob_ok (val_data v) /\ word32 (val_next v)
  | CSecurity s => blob_ok (sd_data s) /\ word32 (sec_next s)
  | CFree => False
  end.

Lemma reads_u32 z : word32 z -> reads read_u32 (le_bytes 4 z) z [z].
Proof.
  intros Hz. unfold read_u32. apply reads_need; [by rewrite length_le_bytes|]. eapply reads_eq; [reads_next (reads_le 4 z Hz); reads_next (reads_add z); apply reads_ret| |]; [by rewrite !app_nil_r|done].
Qed.

Lemma reads_name s : text_ok s -> reads read_name (name_bytes s) s (name_words s).
Proof.
  intros [Hu Hl]. unfold read_name, name_bytes, name_words. rewrite wrap_small by lia. apply reads_need; [rewrite length_app, length_le_bytes; lia|].
  eapply reads_eq; [reads_next (reads_le 2 (Z.of_nat (length s)) ltac:(change (256 ^ Z.of_nat 2) with 65536; lia)); reads_next (reads_add (Z.of_nat (length s)))|..].
  - rewrite Nat2Z.id. apply (reads_need _ _ (s ++ [] ++ [])); [rewrite length_app; lia|]. reads_next (reads_slice s). rewrite Hu. reads_next (reads_add_all s). apply reads_ret.
  - by rewrite !app_nil_r.
  - cbn. by rewrite !app_nil_r.
Qed.

Lemma reads_blob s : blob_ok s -> reads read_blob (blob_bytes s) s (blob_words s).
Proof.
  intros Hl. unfold blob_ok in Hl. unfold read_blob, blob_bytes, blob_words. rewrite wrap_small by lia. eapply reads_eq; [reads_next (reads_u32 (Z.of_nat (length s)) ltac:(unfold word32; lia))|..].
  - rewrite Nat2Z.id. apply (reads_need _ _ (s ++ [] ++ [])); [rewrite length_app; lia|]. reads_next (reads_slice s). reads_next (reads_add_all s). apply reads_ret.
  - by rewrite !app_nil_r.
  - cbn. by rewrite !app_nil_r.
Qed.

Lemma reads_key k : cell_ok (CKey k) -> reads read_key (key_bytes k) (CKey k) (key_words k).
Proof.
  destruct k as [name par hd sb vs sec lw]. intros (Hn & H1 & H2 & H3 & H4 & H5 & H6). cbn in Hn, H1, H2, H3, H4, H5, H6. unfold read_key, key_bytes, key_words. cbn [key_name parent_cell subkeys_head subkeys_sibling values_head sec_desc_cell last_write].
  reads_next (reads_name _ Hn). reads_next (reads_u32 _ H1). reads_next (reads_u32 _ H2). reads_next (reads_u32 _ H3). reads_next (reads_u32 _ H4). reads_next (reads_u32 _ H5).
  apply reads_need; [by rewrite length_le_bytes|]. eapply reads_eq; [reads_next (reads_le 8 lw H6); reads_next (reads_add (u32 lw)); reads_next (reads_add (u32 (Z.shiftr lw 32))); apply reads_ret|by rewrite !app_nil_r|done].
Qed.
Lemma reads_value v : cell_ok (CValue v) -> reads read_value (value_bytes v) (CValue v) (value_words v).
Proof.
  destruct v as [name t data nx]. intros (Hn & H1 & H2 & H3). cbn in Hn, H1, H2, H3. unfold read_value, value_bytes, value_words. cbn [val_name value_type val_data val_next].
  reads_next (reads_name _ Hn). reads_next (reads_u32 _ H1). reads_next (reads_blob _ H2). eapply reads_eq; [reads_next (reads_u32 _ H3); apply reads_ret|by rewrite app_nil_r|done].
Qed.
Lemma reads_security s : cell_ok (CSecurity s) -> reads read_security (security_bytes s) (CSecurity s) (security_words s).
Proof.
  destruct s as [data nx]. intros (H1 & H2). cbn in H1, H2. unfold read_security, security_bytes, security_words. cbn [sd_data sec_next].
  reads_next (reads_blob _ H1). eapply reads_eq; [reads_next (reads_u32 _ H2); apply reads_ret|by rewrite app_nil_r|done].
Qed.

(** The type byte and what follows it. *)
Lemma reads_typed t (i : Z) (c : Cell) (F : Z -> R Cell) b ws : 0 <= t < 256 -> reads (F t) b c ws -> reads (t ← take_le 1; _ ← add t; c ← F t; mret (i, c)) (t :: b) (i, c) (t :: ws).
Proof.
  intros Ht Hr. eapply (reads_bind _ _ [t] t [] b _ (t :: ws)).
  - eapply reads_eq; [apply (reads_le 1 t); lia|change (le_bytes 1 t) with [t `mod` 256]; by rewrite Z.mod_small|done].
  - eapply (reads_bind _ _ [] () [t]); [apply reads_add|]. eapply reads_eq; [eapply reads_bind; [exact Hr|apply reads_ret]|by rewrite app_nil_r|by rewrite app_nil_r].
Qed.

Lemma reads_cell i c : word32 i -> cell_ok c -> reads read_cell (cell_bytes i c) (i, c) (cell_words i c).
Proof.
  intros Hi Hc. unfold read_cell. apply reads_need; [unfold cell_bytes; rewrite length_app, length_le_bytes; destruct c; [done|cbn; lia..]|].
  unfold cell_bytes, cell_words. eapply (reads_bind _ _ (le_bytes 4 i) i []); [exact (reads_le 4 i Hi)|]. eapply (reads_bind _ _ [] () [i]); [apply reads_add|].
  destruct c as [|k|v|s]; [done|..]; (apply (reads_typed _ i _ (λ t, if t =? 1 then read_key else if t =? 2 then read_value else if t =? 3 then read_security else fail)); [lia|]); [by apply reads_key|by apply reads_value|by apply reads_security].
Qed.

(** ** The file *)

Definition entries_bytes (es : list (Z * Cell)) : list Z := es ≫= λ e, cell_bytes e.1 e.2.
Definition entries_words (es : list (Z * Cell)) : list Z := es ≫= λ e, cell_words e.1 e.2.
Definition insert_entries (es : list (Z * Cell)) (cs : list (option Cell)) : list (option Cell) := foldl (λ cs e, <[Z.to_nat e.1 := Some e.2]> cs) cs es.

Lemma put_cells es buf sum : foldl put_cell (buf, sum) es = (buf ++ entries_bytes es, sum_words sum (entries_words es)).
Proof.
  revert buf sum. induction es as [|e es IH]; intros buf sum; [by rewrite app_nil_r|]. cbn [foldl]. unfold put_cell at 2. cbn [fst snd]. rewrite IH. unfold entries_bytes, entries_words. cbn. rewrite app_assoc. f_equal.
  unfold sum_words. by rewrite foldl_app.
Qed.

Definition entry_ok (e : Z * Cell) : Prop := word32 e.1 /\ cell_ok e.2.

Lemma reads_cells es cs n : Forall entry_ok es -> Forall (λ e, (Z.to_nat e.1 < length cs)%nat) es ->
  reads (read_cells (length es) cs n) (entries_bytes es) (insert_entries es cs, (n + length es)%nat) (entries_words es).
Proof.
  revert cs n. induction es as [|[i c] es IH]; intros cs n Hok Hlt; [rewrite Nat.add_0_r; apply reads_ret|]. apply Forall_cons in Hok as [[Hi Hc] Hok], Hlt as [Hl Hlt]. cbn [fst snd] in *.
  cbn [read_cells length]. eapply reads_bind; [by apply reads_cell|]. cbn beta iota. rewrite (proj2 (Nat.leb_gt _ _)) by done. replace (n + S (length es))%nat with (S n + length es)%nat by lia.
  apply IH; [done|]. by rewrite length_insert.
Qed.

(** A cell past the table is refused. *)
Lemma reads_cells_past es cs n pre post sum : Forall entry_ok es -> Exists (λ e, (length cs <= Z.to_nat e.1)%nat) es ->
  read_cells (length es) cs n (pre ++ entries_bytes es ++ post) (length pre, sum) = Fail ().
Proof.
  revert cs n pre sum. induction es as [|[i c] es IH]; intros cs n pre sum Hok Hex; [by apply Exists_nil in Hex|]. apply Forall_cons in Hok as [[Hi Hc] Hok]. cbn [fst snd] in *. cbn [read_cells length].
  unfold mbind at 1, R_bind at 1. change (entries_bytes ((i, c) :: es)) with (cell_bytes i c ++ entries_bytes es). rewrite <- app_assoc, (reads_cell i c Hi Hc). cbn [mbind outcome_bind].
  destruct (length cs <=? Z.to_nat i)%nat eqn:E; [done|]. apply Nat.leb_gt in E. rewrite app_assoc. apply IH; [done|]. rewrite length_insert. apply Exists_cons in Hex as [Hex|?]; [cbn in Hex; lia|done].
Qed.

Definition cells_ok (cs : list (option Cell)) : Prop := Forall (λ o, match o with Some c => cell_ok c | None => True end) cs.

Lemma entries_from_ok i cs : cells_ok cs -> Z.of_nat (i + length cs) <= 2 ^ 32 ->
  Forall entry_ok (entries_from i cs) /\ Forall (λ e, (Z.to_nat e.1 < i + length cs)%nat) (entries_from i cs).
Proof.
  revert i. induction cs as [|o cs IH]; intros i Hok Hl; [done|]. apply Forall_cons in Hok as [Ho Hok]. cbn [length] in Hl. destruct (IH (S i) Hok ltac:(lia)) as [H1 H2].
  replace (S i + length cs)%nat with (i + S (length cs))%nat in H2 by lia. destruct o as [[|k|v|s]|]; cbn [entries_from length]; [done|..|done]; (split; constructor; try done; [split; [unfold word32; cbn [fst]; lia|done]|cbn [fst]; lia]).
Qed.

Lemma entries_length i cs : (length (entries_from i cs) <= length cs)%nat.
Proof. revert i. induction cs as [|o cs IH]; intros i; [done|]. specialize (IH (S i)). destruct o as [[|k|v|s]|]; cbn [entries_from length]; lia. Qed.

Lemma insert_entries_from pre cs : cells_ok cs -> insert_entries (entries_from (length pre) cs) (pre ++ replicate (length cs) None) = pre ++ cs.
Proof.
  revert pre. induction cs as [|o cs IH]; intros pre Hok; [done|]. apply Forall_cons in Hok as [Ho Hok]. cbn [length replicate].
  assert (forall x, pre ++ x :: replicate (length cs) None = (pre ++ [x]) ++ replicate (length cs) None) as Hx by (intros; by rewrite <- app_assoc).
  assert (insert_entries (entries_from (S (length pre)) cs) ((pre ++ [o]) ++ replicate (length cs) None) = pre ++ o :: cs) as IH'.
  { specialize (IH (pre ++ [o]) Hok). rewrite length_app, Nat.add_1_r in IH. by rewrite IH, <- app_assoc. }
  destruct o as [[|k|v|s]|]; cbn [entries_from]; [done|..|by rewrite Hx, IH']; (unfold insert_entries in *; cbn [foldl fst snd]; rewrite Nat2Z.id, insert_app_r_alt, Nat.sub_diag by done; change (<[0%nat := ?y]> (None :: ?l)) with (y :: l); rewrite Hx; exact IH').
Qed.

Lemma entries_past i cs j c : cells_ok cs -> cs !! j = Some (Some c) -> Exists (λ e, (i + j <= Z.to_nat e.1)%nat) (entries_from i cs).
Proof.
  revert i j. induction cs as [|o cs IH]; intros i j Hok Hj; [done|]. apply Forall_cons in Hok as [Ho Hok]. destruct j as [|j].
  - injection Hj as ->. destruct c; [done|..]; cbn [entries_from]; left; cbn [fst]; lia.
  - specialize (IH (S i) j Hok Hj). replace (S i + j)%nat with (i + S j)%nat in IH by lia. destruct o as [[|k|v|s]|]; cbn [entries_from]; try done; by right.
Qed.

Lemma sum_words_bound sum ws : 0 <= sum < 2 ^ 32 -> 0 <= sum_words sum ws < 2 ^ 32.
Proof. revert sum. induction ws as [|w ws IH]; intros sum Hs; [done|]. apply IH. apply wrap_bound. lia. Qed.

Definition checksum (h : Hive) : Z := sum_words 0 (entries_words (entries_from 0 (cells h))).

Lemma serialize_eq h : serialize h = HIVE_MAGIC ++ le_bytes 4 1 ++ le_bytes 4 (u32 (Z.of_nat (length (entries_from 0 (cells h))))) ++ le_bytes 4 (checksum h) ++ entries_bytes (entries_from 0 (cells h)).
Proof. unfold serialize. rewrite put_cells. fold (checksum h). by rewrite <- !app_assoc. Qed.

Definition hive_header (h : Hive) : list Z := HIVE_MAGIC ++ le_bytes 4 1 ++ le_bytes 4 (u32 (Z.of_nat (length (entries_from 0 (cells h))))) ++ le_bytes 4 (checksum h).
Lemma serialize_split h junk : serialize h ++ junk = hive_header h ++ entries_bytes (entries_from 0 (cells h)) ++ junk.
Proof. rewrite serialize_eq. unfold hive_header. by rewrite <- !app_assoc. Qed.

(** Reading a hive file, up to its cells. *)
Lemma deserialize_cells h junk : Z.of_nat (length (entries_from 0 (cells h))) < 2 ^ 32 ->
  deserialize (serialize h ++ junk) =
    ('(cs, count, (_, computed)) ← read_cells (length (entries_from 0 (cells h))) (replicate MAX_CELLS None) 0 (serialize h ++ junk) (16%nat, 0);
     _ ← guard_not (negb (computed =? checksum h)) ();
     match cs !! 0%nat with
     | Some (Some _) => Val (mkHive [] cs 1 count false)
     | _ => Val (mkHive [] (<[0%nat := Some (CKey (key_new [] NULL_CELL))]> cs) 1 (S count) false)
     end).
Proof.
  intros Hn. set (es := entries_from 0 (cells h)) in *. assert (0 <= checksum h < 2 ^ 32) as Hsum by (apply sum_words_bound; lia). unfold deserialize.
  set (data := serialize h ++ junk). set (body := entries_bytes es ++ junk).
  assert (data = HIVE_MAGIC ++ le_bytes 4 1 ++ le_bytes 4 (Z.of_nat (length es)) ++ le_bytes 4 (checksum h) ++ body) as Ed by (unfold data, body; rewrite serialize_eq; fold es; rewrite wrap_small by lia; by rewrite <- !app_assoc).
  assert ((length data <? 16)%nat = false) as -> by (rewrite Ed; apply Nat.ltb_ge; rewrite !length_app, !length_le_bytes; cbn; lia). outcome_step.
  assert (slice data 0 4 = Some HIVE_MAGIC) as -> by (rewrite Ed; apply (slice_app [] HIVE_MAGIC); done). outcome_step. rewrite bool_decide_true by done. cbn [negb]. outcome_step.
  assert (get_le 4 data 4 = Some 1) as -> by (rewrite Ed; apply (get_le_app 4 HIVE_MAGIC 1); lia). outcome_step. change (1 =? 1) with true. cbn [negb]. outcome_step.
  assert (get_le 4 data 8 = Some (Z.of_nat (length es))) as ->.
  { rewrite Ed, (app_assoc HIVE_MAGIC). apply (get_le_app 4 (HIVE_MAGIC ++ le_bytes 4 1)). change (256 ^ Z.of_nat 4) with (2 ^ 32). lia. }
  outcome_step. assert (get_le 4 data 12 = Some (checksum h)) as ->.
  { rewrite Ed, (app_assoc HIVE_MAGIC), (app_assoc (HIVE_MAGIC ++ _)). change 12%nat with (length ((HIVE_MAGIC ++ le_bytes 4 1) ++ le_bytes 4 (Z.of_nat (length es)))). apply get_le_app. change (256 ^ Z.of_nat 4) with (2 ^ 32). lia. }
  outcome_step. by rewrite Nat2Z.id.
Qed.

(** C14. A hive is read back from its file: for every hive of at most 2048 cells
    with a root, whose names are UTF-8 of less than 2^16 bytes and whose fields
    fit their width, reading what [serialize] writes, followed by whatever the old
    and longer file left behind, gives the same cells with all their fields at the
    same indices, and their number; the checksum agrees and nothing is rejected. *)
Theorem hive_file_roundtrip h junk root : cells_ok (cells h) -> length (cells h) = MAX_CELLS -> cells h !! 0%nat = Some (Some root) ->
  deserialize (serialize h ++ junk) = Val (mkHive [] (cells h) 1 (length (entries_from 0 (cells h))) false).
Proof.
  intros Hok Hlen Hroot. destruct (entries_from_ok 0 (cells h) Hok ltac:(rewrite Hlen; done)) as [He Hlt]. cbn [Nat.add] in Hlt. rewrite Hlen in Hlt.
  assert (Z.of_nat (length (entries_from 0 (cells h))) < 2 ^ 32) as Hn. { clear -Hlen. pose proof (entries_length 0 (cells h)). rewrite Hlen in *. unfold MAX_CELLS in *. lia. }
  rewrite deserialize_cells, serialize_split by done. set (es := entries_from 0 (cells h)) in *.
  pose proof (reads_cells es (replicate MAX_CELLS None) 0 He ltac:(by rewrite length_replicate) (hive_header h) junk 0) as Hr. change (length (hive_header h)) with 16%nat in Hr. rewrite Hr. outcome_step.
  assert (insert_entries es (replicate MAX_CELLS None) = cells h) as -> by (rewrite <- Hlen; apply (insert_entries_from [] (cells h) Hok)).
  change (sum_words 0 (entries_words es)) with (checksum h). rewrite Z.eqb_refl. cbn [negb]. outcome_step. by rewrite Hroot.
Qed.

(** A hive that has grown past 2048 cells cannot be loaded again: [alloc_cell]
    extends the table without limit and [serialize] writes every cell, but
    [deserialize] rejects the file as soon as a cell has an index of 2048 or more,
    so that [cm_load_hive] mounts an empty hive in its place. *)
Theorem large_hive_unreadable h junk i c : cells_ok (cells h) -> Z.of_nat (length (cells h)) < 2 ^ 32 -> (MAX_CELLS <= i)%nat -> cells h !! i = Some (Some c) ->
  deserialize (serialize h ++ junk) = Fail ().
Proof.
  intros Hok Hlen Hi Hc. destruct (entries_from_ok 0 (cells h) Hok ltac:(lia)) as [He _]. pose proof (entries_length 0 (cells h)) as Hl. rewrite deserialize_cells, serialize_split by lia. set (es := entries_from 0 (cells h)) in *.
  pose proof (reads_cells_past es (replicate MAX_CELLS None) 0 (hive_header h) junk 0 He) as Hr. change (length (hive_header h)) with 16%nat in Hr. rewrite Hr; [done|].
  rewrite length_replicate. eapply Exists_impl; [by apply (entries_past 0 (cells h) i c)|]. cbn. lia.
Qed.

#[local] Instance cell_ok_dec c : Decision (cell_ok c).
Proof. destruct c; cbn; unfold text_ok, word32, blob_ok; apply _. Defined.
#[local] Instance cells_ok_dec cs : Decision (cells_ok cs).
Proof. apply Forall_dec. intros [c|]; apply _. Defined.

(** A hive with a key and a value in it. *)
Definition sample_hive : Hive :=
  match create_key 8 (hive_new (bytes_of "SYSTEM")) 0 (bytes_of "Control") with
  | Some (Some i, h) => default h (set_value 8 h i (bytes_of "Language") REG_SZ (bytes_of "en-US"))
  | _ => hive_new []
  end.
Definition grown_hive : Hive := mkHive [] (cells sample_hive ++ [Some (CKey (key_new (bytes_of "More") 0))]) 1 4 true.

Lemma hive_file_roundtrip_witness : deserialize (serialize sample_hive ++ [7; 7]) = Val (mkHive [] (cells sample_hive) 1 3 false).
Proof.
  assert (cells_ok (cells sample_hive)) as Hok by (apply (bool_decide_unpack _); vm_compute; reflexivity).
  assert (exists root, cells sample_hive !! 0%nat = Some (Some root)) as [root Hr] by (eexists; vm_compute; reflexivity).
  assert (length (cells sample_hive) = MAX_CELLS) as Hl by (vm_compute; reflexivity). rewrite (hive_file_roundtrip sample_hive [7; 7] root Hok Hl Hr). vm_compute. reflexivity.
Defined.

Lemma large_hive_unreadable_witness : deserialize (serialize grown_hive ++ []) = Fail ().
Proof.
  assert (cells_ok (cells grown_hive)) as Hok by (apply (bool_decide_unpack _); vm_compute; reflexivity).
  apply (large_hive_unreadable grown_hive [] 2048 (CKey (key_new (bytes_of "More") 0)) Hok); vm_compute; reflexivity || (intros; lia) || auto.
Defined.
