(* ===== verification/HiveOk.v ===== *)
(** * HiveOk.v: a hive holds a tree of keys

    The specification is a finite map from the ids of keys to nodes: a name, the
    parent, the subkeys in order, the values in order.  [rep h A] says that the
    cells of [h] hold exactly [A]: the lists of [A] are linked through the index
    fields, and there is no other cell.  Every operation of [Hive.v] is shown to
    do on the cells what it is specified to do on [A], with as much fuel as there
    are cells. *)

From stdpp Require Import gmap.
From S2P Require Import Prelude Str Bytes Hive.
Open Scope Z_scope.

(** ** Cells after a change *)

Lemma slot_lt h i c : slot h i = Some c -> (Z.to_nat i < length (cells h))%nat.
Proof. unfold slot, cell_at. destruct (cells h !! Z.to_nat i) eqn:E; [|done]. intros _. by eapply lookup_lt_Some. Qed.

Lemma slot_on_cell i f h j : 0 <= i -> 0 <= j -> slot (on_slot i f h) j = if decide (j = i) then f <$> slot h i else slot h j.
Proof.
  intros Hi Hj. unfold slot, cell_at, on_slot. case_decide as Hd; [subst j|]; destruct (Nat.leb_spec (length (cells h)) (Z.to_nat i)) as [Hl|Hl]; try done; cbn [cells].
  - by rewrite lookup_ge_None_2.
  - rewrite list_lookup_alter_eq. by destruct (cells h !! Z.to_nat i) as [[c|]|].
  - rewrite list_lookup_alter_ne by lia. done.
Qed.
Lemma slot_free_cell i h j : 0 <= i -> 0 <= j -> slot (free_cell i h) j = if decide (j = i) then None else slot h j.
Proof.
  intros Hi Hj. unfold free_cell. destruct (slot h i) eqn:E; [|case_decide; by subst]. pose proof (slot_lt _ _ _ E) as Hl. unfold slot, cell_at. cbn [cells]. case_decide as Hd.
  - subst j. by rewrite list_lookup_insert_eq by done.
  - by rewrite list_lookup_insert_ne by lia.
Qed.
Lemma length_on_cell i f h : length (cells (on_slot i f h)) = length (cells h).
Proof. unfold on_slot. case_match; [done|]. cbn [cells]. apply length_alter. Qed.
Lemma length_free i h : length (cells (free_cell i h)) = length (cells h).
Proof. unfold free_cell. case_match; [|done]. cbn [cells]. apply length_insert. Qed.

(** A cell is allocated at an index that was free. *)
Lemma alloc_cell_spec c h i h' : alloc_cell c h = (i, h') -> Z.of_nat (length (cells h)) < NULL_CELL ->
  0 <= i < NULL_CELL /\ slot h i = None /\ Z.of_nat (length (cells h')) <= NULL_CELL /\ (length (cells h') <= S (length (cells h)))%nat /\
  (forall j, 0 <= j -> slot h' j = if decide (j = i) then Some c else slot h j).
Proof.
  intros Ha Hl. unfold alloc_cell in Ha. destruct (list_find _ _) as [[o x]|] eqn:Ef; injection Ha as <- <-.
  - apply list_find_Some in Ef as (_ & Hx & _). pose proof (lookup_lt_Some _ _ _ Hx). split_and!; try lia.
    + unfold slot, cell_at. by rewrite Nat2Z.id, Hx.
    + cbn [cells]. rewrite length_insert. lia.
    + cbn [cells]. rewrite length_insert. lia.
    + intros j Hj. unfold slot, cell_at. cbn [cells]. case_decide as Hd; [subst j; rewrite Nat2Z.id, list_lookup_insert_eq by (by eapply lookup_lt_Some); done|by rewrite list_lookup_insert_ne by lia].
  - unfold NULL_CELL in *. rewrite wrap_small by lia. cbn [cells]. rewrite length_app. cbn [length]. split_and!; try lia.
    + unfold slot, cell_at. by rewrite Nat2Z.id, lookup_ge_None_2 by lia.
    + intros j Hj. unfold slot, cell_at. cbn [cells]. case_decide as Hd; [subst j; by rewrite Nat2Z.id, list_lookup_middle by done|].
      destruct (decide (Z.to_nat j < length (cells h))%nat); [by rewrite lookup_app_l by lia|]. rewrite (lookup_ge_None_2 (cells h)) by lia. rewrite lookup_ge_None_2; [done|]. rewrite length_app. cbn [length]. lia.
Qed.

(** ** The tree *)

Record aval := mkAval { av_id : Z; av_name : str; av_type : Z; av_data : list Z }.
Record anode := mkNode { an_name : str; an_parent : Z; an_subs : list Z; an_vals : list aval }.
Abbreviation tree := (gmap Z anode).
Definition with_subs (l : list Z) (nd : anode) : anode := mkNode (an_name nd) (an_parent nd) l (an_vals nd).
Definition with_vals (l : list aval) (nd : anode) : anode := mkNode (an_name nd) (an_parent nd) (an_subs nd) l.

(** [A] without the keys in [D]. *)
Definition drop_subs (D : gset Z) (nd : anode) : anode := with_subs (filter (λ s, s ∉ D) (an_subs nd)) nd.
Definition prune (D : gset Z) (A : tree) : tree := drop_subs D <$> filter (λ kn : Z * anode, kn.1 ∉ D) A.

Inductive below (A : tree) (i : Z) : Z -> Prop :=
  | below_refl : below A i i
  | below_up j nd : A !! j = Some nd -> below A i (an_parent nd) -> below A i j.

Record tree_ok (A : tree) : Prop := {
  t_root : exists nd, A !! 0 = Some nd /\ an_parent nd = NULL_CELL;
  t_bound i nd : A !! i = Some nd -> 0 <= i < NULL_CELL;
  t_subs i nd s : A !! i = Some nd -> s ∈ an_subs nd <-> exists ns, A !! s = Some ns /\ an_parent ns = i;
  t_nodup i nd : A !! i = Some nd -> NoDup (an_subs nd);
  t_parent i nd : A !! i = Some nd -> i ≠ 0 -> exists np, A !! an_parent nd = Some np;
  t_rank : exists rank : Z -> nat, forall i nd np, A !! i = Some nd -> A !! an_parent nd = Some np -> (rank (an_parent nd) < rank i)%nat;
  t_vnodup i nd : A !! i = Some nd -> NoDup (av_id <$> an_vals nd);
  t_vrange i nd v : A !! i = Some nd -> v ∈ an_vals nd -> 0 <= av_id v;
  t_vown i j nd nj v w : A !! i = Some nd -> A !! j = Some nj -> v ∈ an_vals nd -> w ∈ an_vals nj -> av_id v = av_id w -> i = j;
  t_names i s t ns nt : A !! s = Some ns -> A !! t = Some nt -> an_parent ns = i -> an_parent nt = i -> eq_ignore_case (an_name ns) (an_name nt) = true -> s = t;
  t_vnames i nd v w : A !! i = Some nd -> v ∈ an_vals nd -> w ∈ an_vals nd -> eq_ignore_case (av_name v) (av_name w) = true -> v = w;
}.

Lemma t_range A i nd : tree_ok A -> A !! i = Some nd -> 0 <= i.
Proof. intros HA Hi. by apply (t_bound A HA) in Hi as [? _]. Qed.

(** ** Lists in the cells *)

Definition hd_id (l : list Z) : Z := default NULL_CELL (head l).
Definition next_key (h : Hive) (s : Z) : option Z := match slot h s with Some (CKey k) => Some (subkeys_sibling k) | _ => None end.
Definition next_value (h : Hive) (s : Z) : option Z := match slot h s with Some (CValue v) => Some (val_next v) | _ => None end.

Fixpoint links (next : Z -> option Z) (l : list Z) : Prop :=
  match l with
  | [] => True
  | s :: l => next s = Some (hd_id l) /\ links next l
  end.

Lemma links_ext f g l : (forall s, s ∈ l -> f s = g s) -> links f l -> links g l.
Proof. induction l as [|s l IH]; [done|]. intros He [Hs Hl]. split; [rewrite <- He by left; done|]. apply IH; [|done]. intros t Ht. apply He. by right. Qed.
Lemma links_app f pre l : links f (pre ++ l) -> links f l.
Proof. induction pre as [|s pre IH]; [done|]. intros [_ H]. auto. Qed.
Lemma links_elem f l s : links f l -> s ∈ l -> exists x, f s = Some x.
Proof. induction l as [|t l IH]; intros Hl Hs; [by apply elem_of_nil in Hs|]. destruct Hl as [Ht Hl]. apply elem_of_cons in Hs as [->|Hs]; eauto. Qed.
(** Skipping the element after [q]. *)
Lemma links_skip f g pre q s post : links f (pre ++ q :: s :: post) -> g q = Some (hd_id post) -> (forall x, x ∈ pre ++ post -> f x = g x) -> links g (pre ++ q :: post).
Proof.
  intros Hl Hq Hg. induction pre as [|x pre IH]; cbn [app] in *.
  - destruct Hl as (_ & _ & Hl). split; [done|]. by eapply links_ext.
  - destruct Hl as [Hl1 Hl2]. split; [|apply IH; [done|]; intros y Hy; apply Hg; by right]. rewrite <- Hg by left. rewrite Hl1. by destruct pre.
Qed.

Record keys_rep (h : Hive) (A : tree) : Prop := {
  r_tree : tree_ok A;
  r_len : Z.of_nat (length (cells h)) <= NULL_CELL;
  r_key i nd : A !! i = Some nd ->
    exists k, slot h i = Some (CKey k) /\ key_name k = an_name nd /\ parent_cell k = an_parent nd /\
      subkeys_head k = hd_id (an_subs nd) /\ values_head k = hd_id (av_id <$> an_vals nd);
  r_subs i nd : A !! i = Some nd -> links (next_key h) (an_subs nd);
}.

Record rep (h : Hive) (A : tree) : Prop := {
  r_keys : keys_rep h A;
  r_vals i nd : A !! i = Some nd -> links (next_value h) (av_id <$> an_vals nd);
  r_val i nd v : A !! i = Some nd -> v ∈ an_vals nd ->
    exists c, slot h (av_id v) = Some (CValue c) /\ val_name c = av_name v /\ value_type c = av_type v /\ val_data c = av_data v;
  r_exact j c : 0 <= j -> slot h j = Some c -> (exists nd, A !! j = Some nd) \/ (exists i nd v, A !! i = Some nd /\ v ∈ an_vals nd /\ av_id v = j);
}.

(** ** Looking up *)

Lemma same_name_sym a b : eq_ignore_case a b = eq_ignore_case b a.
Proof. unfold eq_ignore_case. apply bool_decide_ext. done. Qed.

Definition named (A : tree) (name : str) (s : Z) : bool := match A !! s with Some ns => eq_ignore_case (an_name ns) name | None => false end.
Definition a_find (A : tree) (p : Z) (name : str) : option Z := nd ← A !! p; snd <$> list_find (λ s, named A name s = true) (an_subs nd).
Fixpoint a_open (A : tree) (i : Z) (parts : list str) : option Z := match parts with [] => Some i | p :: parts => s ← a_find A i p; a_open A s parts end.
Definition a_enum (A : tree) (p index : Z) : option str := nd ← A !! p; s ← an_subs nd !! Z.to_nat index; an_name <$> A !! s.
Definition a_count (A : tree) (p : Z) : Z := match A !! p with Some nd => Z.of_nat (length (an_subs nd)) | None => 0 end.
Definition a_value (A : tree) (k : Z) (name : str) : option aval := nd ← A !! k; snd <$> list_find (λ v : aval, eq_ignore_case (av_name v) name = true) (an_vals nd).
Definition a_enum_value (A : tree) (k index : Z) : option str := nd ← A !! k; av_name <$> an_vals nd !! Z.to_nat index.
Definition a_value_count (A : tree) (k : Z) : Z := match A !! k with Some nd => Z.of_nat (length (an_vals nd)) | None => 0 end.

Lemma ids_bound h l : NoDup l -> (forall s, s ∈ l -> 0 <= s /\ exists c, slot h s = Some c) -> (length l <= length (cells h))%nat.
Proof.
  intros Hn Hs. rewrite <- (length_fmap Z.to_nat l), <- (length_seq (length (cells h)) 0). apply submseteq_length, NoDup_submseteq.
  - apply NoDup_fmap_2_strong; [|done]. intros x y Hx Hy. apply Hs in Hx, Hy. lia.
  - intros x Hx. apply list_elem_of_fmap in Hx as (s & -> & Hx). apply Hs in Hx as [_ [c Hc]]. apply slot_lt in Hc. apply elem_of_seq. lia.
Qed.

Section reading.
Context (h : Hive) (A : tree).

Section keys.
Context (Hk : keys_rep h A).

Lemma slot_not_null s c : 0 <= s -> slot h s = Some c -> (s =? NULL_CELL) = false.
Proof using Hk. intros Hs Hc. apply slot_lt in Hc. pose proof (r_len h A Hk). apply Z.eqb_neq. lia. Qed.

Lemma sub_in i nd s : A !! i = Some nd -> s ∈ an_subs nd -> exists ns, A !! s = Some ns /\ an_parent ns = i.
Proof using Hk. intros Hi Hs. by apply (t_subs A (r_tree h A Hk) i nd s Hi) in Hs. Qed.

Lemma subs_length i nd : A !! i = Some nd -> (length (an_subs nd) <= length (cells h))%nat.
Proof using Hk.
  intros Hi. apply ids_bound; [by eapply (t_nodup A (r_tree h A Hk))|]. intros s Hs. destruct (sub_in _ _ _ Hi Hs) as (ns & Hns & _).
  split; [by eapply (t_range A _ _ (r_tree h A Hk))|]. destruct (r_key h A Hk s ns Hns) as (k & Hk' & _). eauto.
Qed.

(** The node of a subkey in a list, as the loops read it. *)
Lemma sub_cell i nd pre s l : A !! i = Some nd -> an_subs nd = pre ++ s :: l ->
  exists ns k, A !! s = Some ns /\ slot h s = Some (CKey k) /\ key_name k = an_name ns /\ subkeys_sibling k = hd_id l /\ (s =? NULL_CELL) = false.
Proof using Hk.
  intros Hi Hl. destruct (sub_in i nd s Hi) as (ns & Hs & _); [rewrite Hl; set_solver|]. destruct (r_key h A Hk s ns Hs) as (k & Hc & Hname & _). exists ns, k.
  pose proof (r_subs h A Hk i nd Hi) as Hlinks. rewrite Hl in Hlinks. apply links_app in Hlinks as [Hn _]. unfold next_key in Hn. rewrite Hc in Hn. injection Hn as Hn.
  split_and!; [done..|]. eapply slot_not_null; [|done]. by eapply (t_range A _ _ (r_tree h A Hk)).
Qed.

Lemma find_key_loop_ok i nd pre l n name : A !! i = Some nd -> an_subs nd = pre ++ l -> (length l <= n)%nat ->
  find_key_loop n h (hd_id l) name = Some (snd <$> list_find (λ s, named A name s = true) l).
Proof using Hk.
  intros Hi. revert pre n. induction l as [|s l IH]; intros pre n Hl Hn; [by destruct n|]. destruct n as [|n]; [cbn in Hn; lia|].
  destruct (sub_cell i nd pre s l Hi Hl) as (ns & k & Hs & Hc & Hname & Hsib & Hnull). cbn [find_key_loop]. change (hd_id (s :: l)) with s. rewrite Hnull, Hc, Hname.
  assert (named A name s = eq_ignore_case (an_name ns) name) as Hnm by (unfold named; by rewrite Hs).
  cbn [list_find]. destruct (eq_ignore_case (an_name ns) name); [by rewrite decide_True by done|]. rewrite decide_False by congruence.
  rewrite Hsib, (IH (pre ++ [s])); [|by rewrite <- app_assoc|cbn in Hn; lia]. by destruct (list_find _ l) as [[]|].
Qed.

Lemma enum_key_loop_ok i nd pre l n j index : A !! i = Some nd -> an_subs nd = pre ++ l -> (length l <= n)%nat -> j <= index ->
  enum_key_loop n h (hd_id l) j index = Some (s ← l !! Z.to_nat (index - j); an_name <$> A !! s).
Proof using Hk.
  intros Hi. revert pre n j. induction l as [|s l IH]; intros pre n j Hl Hn Hj; [by destruct n|]. destruct n as [|n]; [cbn in Hn; lia|].
  destruct (sub_cell i nd pre s l Hi Hl) as (ns & k & Hs & Hc & Hname & Hsib & Hnull). cbn [enum_key_loop]. change (hd_id (s :: l)) with s. rewrite Hnull, Hc, Hname.
  destruct (Z.eqb_spec j index) as [->|Hne]; [rewrite Z.sub_diag; change (Z.to_nat 0) with O; cbn [lookup list_lookup mbind option_bind]; by rewrite Hs|]. rewrite Hsib, (IH (pre ++ [s])); [|by rewrite <- app_assoc|cbn in Hn; lia|lia].
  by replace (Z.to_nat (index - j)) with (S (Z.to_nat (index - (j + 1)))) by lia.
Qed.

Lemma key_count_loop_ok i nd pre l n acc : A !! i = Some nd -> an_subs nd = pre ++ l -> (length l <= n)%nat -> key_count_loop n h (hd_id l) acc = Some (acc + Z.of_nat (length l)).
Proof using Hk.
  intros Hi. revert pre n acc. induction l as [|s l IH]; intros pre n acc Hl Hn; [destruct n; cbn; f_equal; lia|]. destruct n as [|n]; [cbn in Hn; lia|].
  destruct (sub_cell i nd pre s l Hi Hl) as (ns & k & Hs & Hc & Hname & Hsib & Hnull). cbn [key_count_loop]. change (hd_id (s :: l)) with s. rewrite Hnull, Hc.
  rewrite Hsib, (IH (pre ++ [s])); [|by rewrite <- app_assoc|cbn in Hn; lia]. f_equal. cbn [length]. lia.
Qed.
End keys.

Context (Hr : rep h A).
#[local] Abbreviation Ht := (r_tree h A (r_keys h A Hr)).

(** A key cell is a key of the tree. *)
Lemma key_in p k : 0 <= p -> slot h p = Some (CKey k) -> exists nd, A !! p = Some nd.
Proof using Hr.
  intros Hp Hs. destruct (r_exact h A Hr p _ Hp Hs) as [H|(i & nd & v & Hi & Hv & <-)]; [done|]. destruct (r_val h A Hr i nd v Hi Hv) as (c & Hc & _). by simplify_eq.
Qed.
Lemma not_key p : 0 <= p -> A !! p = None -> forall k, slot h p ≠ Some (CKey k).
Proof using Hr. intros Hp Hn k Hs. destruct (key_in p k Hp Hs) as [nd Hnd]. by rewrite Hn in Hnd. Qed.
Lemma subkeys_of_ok p : 0 <= p -> subkeys_of h p = (λ nd, hd_id (an_subs nd)) <$> A !! p.
Proof using Hr.
  intros Hp. unfold subkeys_of. destruct (A !! p) as [nd|] eqn:E.
  - destruct (r_key h A (r_keys h A Hr) p nd E) as (k & Hs & _ & _ & Hh & _). rewrite Hs. cbn. by rewrite Hh.
  - pose proof (not_key p Hp E) as Hn. destruct (slot h p) as [[]|]; try done. by destruct (Hn k).
Qed.
Lemma values_of_ok p : 0 <= p -> values_of h p = (λ nd, hd_id (av_id <$> an_vals nd)) <$> A !! p.
Proof using Hr.
  intros Hp. unfold values_of. destruct (A !! p) as [nd|] eqn:E.
  - destruct (r_key h A (r_keys h A Hr) p nd E) as (k & Hs & _ & _ & _ & Hh). rewrite Hs. cbn. by rewrite Hh.
  - pose proof (not_key p Hp E) as Hn. destruct (slot h p) as [[]|]; try done. by destruct (Hn k).
Qed.

Lemma find_key_ok n p name : 0 <= p -> (length (cells h) <= n)%nat -> find_key n h p name = Some (a_find A p name).
Proof using Hr.
  intros Hp Hn. unfold find_key, a_find. rewrite subkeys_of_ok by done. destruct (A !! p) as [nd|] eqn:E; [|done]. cbn.
  pose proof (subs_length (r_keys h A Hr) p nd E). by rewrite (find_key_loop_ok (r_keys h A Hr) p nd [] (an_subs nd)) by (done || lia).
Qed.
Lemma enum_key_ok n p index : 0 <= p -> 0 <= index -> (length (cells h) <= n)%nat -> enum_key n h p index = Some (a_enum A p index).
Proof using Hr.
  intros Hp Hx Hn. unfold enum_key, a_enum. rewrite subkeys_of_ok by done. destruct (A !! p) as [nd|] eqn:E; [|done]. cbn.
  pose proof (subs_length (r_keys h A Hr) p nd E). rewrite (enum_key_loop_ok (r_keys h A Hr) p nd [] (an_subs nd)) by (done || lia). by rewrite Z.sub_0_r.
Qed.
Lemma key_count_ok n p : 0 <= p -> (length (cells h) <= n)%nat -> key_count n h p = Some (a_count A p).
Proof using Hr.
  intros Hp Hn. unfold key_count, a_count. rewrite subkeys_of_ok by done. destruct (A !! p) as [nd|] eqn:E; [|done]. cbn.
  pose proof (subs_length (r_keys h A Hr) p nd E). by rewrite (key_count_loop_ok (r_keys h A Hr) p nd [] (an_subs nd)) by (done || lia).
Qed.

Lemma a_find_in p name s : a_find A p name = Some s -> exists ns, A !! s = Some ns /\ an_parent ns = p.
Proof using Hr.
  unfold a_find. destruct (A !! p) as [nd|] eqn:E; [cbn|done]. intros Hf. destruct (list_find _ _) as [[x y]|] eqn:Ef; [|done]. injection Hf as ->. apply list_find_Some in Ef as (Hx & _).
  apply list_elem_of_lookup_2 in Hx. by eapply sub_in; [apply Hr|..].
Qed.
Lemma open_parts_ok n parts i : 0 <= i -> (length (cells h) <= n)%nat -> open_parts n h i parts = Some (a_open A i parts).
Proof using Hr.
  intros Hi Hn. revert i Hi. induction parts as [|p parts IH]; intros i Hi; [done|]. cbn [open_parts a_open]. rewrite find_key_ok by done. cbn.
  destruct (a_find A i p) as [s|] eqn:Ef; [|done]. destruct (a_find_in _ _ _ Ef) as (ns & Hs & _). apply IH. by eapply (t_range A _ _ Ht).
Qed.

(** The same for the values of a key. *)
Lemma value_cell i nd pre v l : A !! i = Some nd -> an_vals nd = pre ++ v :: l ->
  slot h (av_id v) = Some (CValue (mkValue (av_name v) (av_type v) (av_data v) (hd_id (av_id <$> l)))) /\ (av_id v =? NULL_CELL) = false.
Proof using Hr.
  intros Hi Hl. assert (v ∈ an_vals nd) as Hv by (rewrite Hl; set_solver). destruct (r_val h A Hr i nd v Hi Hv) as (c & Hc & H1 & H2 & H3).
  pose proof (r_vals h A Hr i nd Hi) as Hlinks. rewrite Hl, fmap_app in Hlinks. apply links_app in Hlinks as [Hn _]. unfold next_value in Hn. rewrite Hc in Hn. injection Hn as Hn.
  split; [destruct c; cbn in *; by subst|]. eapply slot_not_null; [by apply Hr| |done]. by eapply (t_vrange A Ht).
Qed.
Lemma vals_length i nd : A !! i = Some nd -> (length (an_vals nd) <= length (cells h))%nat.
Proof using Hr.
  intros Hi. rewrite <- (length_fmap av_id). apply ids_bound; [by eapply (t_vnodup A Ht)|]. intros s Hs. apply list_elem_of_fmap in Hs as (v & -> & Hv).
  split; [by eapply (t_vrange A Ht)|]. destruct (r_val h A Hr i nd v Hi Hv) as (c & Hc & _). eauto.
Qed.

Lemma find_value_loop_ok i nd pre l n name : A !! i = Some nd -> an_vals nd = pre ++ l -> (length l <= n)%nat ->
  find_value_loop n h (hd_id (av_id <$> l)) name = Some (av_id <$> (snd <$> list_find (λ v : aval, eq_ignore_case (av_name v) name = true) l)).
Proof using Hr.
  intros Hi. revert pre n. induction l as [|v l IH]; intros pre n Hl Hn; [by destruct n|]. destruct n as [|n]; [cbn in Hn; lia|].
  destruct (value_cell i nd pre v l Hi Hl) as [Hc Hnull]. cbn [find_value_loop]. change (hd_id (av_id <$> v :: l)) with (av_id v). rewrite Hnull, Hc. cbn [val_name val_next list_find].
  destruct (eq_ignore_case (av_name v) name); [by rewrite decide_True by done|]. rewrite decide_False by done. rewrite (IH (pre ++ [v])); [|by rewrite <- app_assoc|cbn in Hn; lia]. by destruct (list_find _ l) as [[]|].
Qed.
Lemma enum_value_loop_ok i nd pre l n j index : A !! i = Some nd -> an_vals nd = pre ++ l -> (length l <= n)%nat -> j <= index ->
  enum_value_loop n h (hd_id (av_id <$> l)) j index = Some (av_name <$> l !! Z.to_nat (index - j)).
Proof using Hr.
  intros Hi. revert pre n j. induction l as [|v l IH]; intros pre n j Hl Hn Hj; [by destruct n|]. destruct n as [|n]; [cbn in Hn; lia|].
  destruct (value_cell i nd pre v l Hi Hl) as [Hc Hnull]. cbn [enum_value_loop]. change (hd_id (av_id <$> v :: l)) with (av_id v). rewrite Hnull, Hc. cbn [val_name val_next].
  destruct (Z.eqb_spec j index) as [->|Hne]; [by rewrite Z.sub_diag|]. rewrite (IH (pre ++ [v])); [|by rewrite <- app_assoc|cbn in Hn; lia|lia].
  by replace (Z.to_nat (index - j)) with (S (Z.to_nat (index - (j + 1)))) by lia.
Qed.
Lemma value_count_loop_ok i nd pre l n acc : A !! i = Some nd -> an_vals nd = pre ++ l -> (length l <= n)%nat -> value_count_loop n h (hd_id (av_id <$> l)) acc = Some (acc + Z.of_nat (length l)).
Proof using Hr.
  intros Hi. revert pre n acc. induction l as [|v l IH]; intros pre n acc Hl Hn; [destruct n; cbn; f_equal; lia|]. destruct n as [|n]; [cbn in Hn; lia|].
  destruct (value_cell i nd pre v l Hi Hl) as [Hc Hnull]. cbn [value_count_loop]. change (hd_id (av_id <$> v :: l)) with (av_id v). rewrite Hnull, Hc. cbn [val_next].
  rewrite (IH (pre ++ [v])); [|by rewrite <- app_assoc|cbn in Hn; lia]. f_equal. cbn [length]. lia.
Qed.

Lemma find_value_ok n k name : 0 <= k -> (length (cells h) <= n)%nat -> find_value n h k name = Some (av_id <$> a_value A k name).
Proof using Hr.
  intros Hp Hn. unfold find_value, a_value. rewrite values_of_ok by done. destruct (A !! k) as [nd|] eqn:E; [|done]. cbn [fmap option_fmap option_map mbind option_bind].
  pose proof (vals_length k nd E). by rewrite (find_value_loop_ok k nd [] (an_vals nd)) by (done || lia).
Qed.
Lemma enum_value_ok n k index : 0 <= k -> 0 <= index -> (length (cells h) <= n)%nat -> enum_value n h k index = Some (a_enum_value A k index).
Proof using Hr.
  intros Hp Hx Hn. unfold enum_value, a_enum_value. rewrite values_of_ok by done. destruct (A !! k) as [nd|] eqn:E; [|done]. cbn [fmap option_fmap option_map mbind option_bind].
  pose proof (vals_length k nd E). rewrite (enum_value_loop_ok k nd [] (an_vals nd)) by (done || lia). by rewrite Z.sub_0_r.
Qed.
Lemma value_count_ok n k : 0 <= k -> (length (cells h) <= n)%nat -> value_count n h k = Some (a_value_count A k).
Proof using Hr.
  intros Hp Hn. unfold value_count, a_value_count. rewrite values_of_ok by done. destruct (A !! k) as [nd|] eqn:E; [|done]. cbn [fmap option_fmap option_map mbind option_bind].
  pose proof (vals_length k nd E). by rewrite (value_count_loop_ok k nd [] (an_vals nd)) by (done || lia).
Qed.

Lemma a_value_in k name v : a_value A k name = Some v -> exists nd, A !! k = Some nd /\ v ∈ an_vals nd /\ eq_ignore_case (av_name v) name = true.
Proof using Hr.
  unfold a_value. destruct (A !! k) as [nd|] eqn:E; [cbn|done]. intros Hf. destruct (list_find _ _) as [[x y]|] eqn:Ef; [|done]. injection Hf as ->. apply list_find_Some in Ef as (Hx & He & _).
  apply list_elem_of_lookup_2 in Hx. eauto.
Qed.
Lemma query_value_ok n k name : 0 <= k -> (length (cells h) <= n)%nat ->
  exists found, query_value n h k name = Some found /\ (λ c, (val_name c, value_type c, val_data c)) <$> found = (λ v, (av_name v, av_type v, av_data v)) <$> a_value A k name.
Proof using Hr.
  intros Hp Hn. unfold query_value. rewrite find_value_ok by done. cbn [mbind option_bind]. eexists. split; [done|]. destruct (a_value A k name) as [v|] eqn:E; [|done].
  destruct (a_value_in _ _ _ E) as (nd & Hk & Hv & _). destruct (r_val h A Hr k nd v Hk Hv) as (c & Hc & H1 & H2 & H3). cbn. rewrite Hc. cbn. by rewrite H1, H2, H3.
Qed.
End reading.

(** ** Creating a key *)

Definition a_create (p : Z) (nd : anode) (name : str) (new : Z) (A : tree) : tree := <[p := with_subs (new :: an_subs nd) nd]> (<[new := mkNode name p [] []]> A).

Record fresh_id (A : tree) (i : Z) : Prop := {
  f_range : 0 <= i < NULL_CELL;
  f_key : A !! i = None;
  f_val k nd v : A !! k = Some nd -> v ∈ an_vals nd -> av_id v ≠ i;
}.
Lemma rep_fresh h A i : rep h A -> 0 <= i < NULL_CELL -> slot h i = None -> fresh_id A i.
Proof.
  intros Hr Hi Hs. split; [done|..].
  - destruct (A !! i) as [nd|] eqn:E; [|done]. destruct (r_key h A (r_keys h A Hr) i nd E) as (k & Hk & _). congruence.
  - intros k nd v Hk Hv <-. destruct (r_val h A Hr k nd v Hk Hv) as (c & Hc & _). congruence.
Qed.

Section create.
Context (A : tree) (p : Z) (nd : anode) (name : str) (new : Z) (HA : tree_ok A) (Hp : A !! p = Some nd) (Hf : fresh_id A new).
#[local] Abbreviation A' := (a_create p nd name new A).

Lemma create_ne : new ≠ p.
Proof using Hf Hp. intros ->. pose proof (f_key _ _ Hf). congruence. Qed.
Lemma create_new : A' !! new = Some (mkNode name p [] []).
Proof using Hf Hp. unfold a_create. by rewrite lookup_insert_ne, lookup_insert_eq by (symmetry; apply create_ne). Qed.
Definition kept (j : Z) (nj x : anode) : Prop :=
  an_name x = an_name nj /\ an_parent x = an_parent nj /\ an_vals x = an_vals nj /\ an_subs x = if decide (j = p) then new :: an_subs nj else an_subs nj.
Lemma create_old j nj : A !! j = Some nj -> exists x, A' !! j = Some x /\ kept j nj x.
Proof using Hf Hp.
  intros Hj. destruct (decide (j = p)) as [->|Hd].
  { exists (with_subs (new :: an_subs nd) nd). unfold a_create, kept. rewrite lookup_insert_eq, decide_True by done. by simplify_eq. }
  exists nj. unfold a_create, kept. rewrite decide_False by done. assert (new ≠ j) by (intros <-; pose proof (f_key _ _ Hf); congruence).
  by rewrite !lookup_insert_ne by done.
Qed.
Lemma create_node_inv j x : A' !! j = Some x -> j = new /\ x = mkNode name p [] [] \/ exists nj, j ≠ new /\ A !! j = Some nj /\ kept j nj x.
Proof using Hf Hp.
  intros Hj. destruct (decide (j = new)) as [->|Hn]; [rewrite create_new in Hj; left; by simplify_eq|]. right. destruct (A !! j) as [nj|] eqn:E.
  - destruct (create_old j nj E) as (y & Hy & Hkept). exists nj. by simplify_eq.
  - unfold a_create in Hj. rewrite !lookup_insert_ne in Hj by congruence. congruence.
Qed.

(** Every node but the new one comes from [A]. *)
Ltac created :=
  repeat match goal with
  | H : a_create p nd name new A !! _ = Some _ |- _ => apply create_node_inv in H as [[-> ->]|(? & ? & ? & (? & ? & ? & ?))]
  end; cbn [an_name an_parent an_subs an_vals] in *.

Lemma tree_ok_create : a_find A p name = None -> tree_ok A'.
Proof using HA Hf Hp.
  intros Hnone. pose proof create_ne as Hne. pose proof (f_key _ _ Hf) as Hnk. pose proof (f_range _ _ Hf) as Hrg.
  assert (forall j nj, A !! j = Some nj -> an_parent nj ≠ new) as Hnp.
  { intros j nj Hj Hpar. destruct (decide (j = 0)) as [->|Hj0]; [|destruct (t_parent A HA j nj Hj Hj0) as [np Hx]; congruence].
    destruct (t_root A HA) as (n0 & H0 & Hz). assert (nj = n0) as -> by congruence. lia. }
  assert (forall s ns, A !! s = Some ns -> an_parent ns = p -> eq_ignore_case (an_name ns) name = false) as Hnew.
  { intros s ns Hs Hps. destruct (eq_ignore_case (an_name ns) name) eqn:E; [|done]. exfalso. unfold a_find in Hnone. rewrite Hp in Hnone. cbn in Hnone. apply fmap_None in Hnone.
    eapply (proj1 (list_find_None _ _)) in Hnone. eapply Forall_forall in Hnone; [|apply (t_subs A HA p nd s Hp); eauto]. cbn in Hnone. unfold named in Hnone. by rewrite Hs, E in Hnone. }
  split.
  - destruct (t_root A HA) as (n0 & H0 & Hz). destruct (create_old _ _ H0) as (x & Hx & (_ & Hq & _)). exists x. split; congruence.
  - intros i x Hi. created; [done|]. by eapply (t_bound A HA).
  - intros i x s Hi. created.
    + split; [set_solver|]. intros (ns & Hs & Hps). created; [done|]. exfalso. eapply Hnp; [done|]. congruence.
    + rename x0 into nj. rewrite H4. pose proof (t_subs A HA i nj s ltac:(done)) as Hsub. split.
      * intros Hs. assert (s = new /\ i = p \/ s ∈ an_subs nj) as [[-> ->]|Hs'] by (case_decide; [apply elem_of_cons in Hs as [->|?]; auto|auto]).
        -- exists (mkNode name p [] []). split; [apply create_new|done].
        -- apply Hsub in Hs' as (ns & Hs' & <-). destruct (create_old s ns Hs') as (y & Hy & (_ & Hq & _)). eauto.
      * intros (ns & Hs & Hps). created; [rewrite decide_True by done; left|]. assert (s ∈ an_subs nj) by (apply Hsub; eexists; split; [done|congruence]). destruct (decide (i = p)); [by right|done].
  - intros i x Hi. created; [constructor|]. rewrite H4. pose proof (t_nodup A HA i x0 ltac:(done)). case_decide; [|done]. apply NoDup_cons. split; [|done].
    intros Hin. apply (t_subs A HA i x0 new ltac:(done)) in Hin as (ns & Hs & _). congruence.
  - intros i x Hi Hi0. created.
    + destruct (create_old p nd Hp) as (y & Hy & _). eauto.
    + destruct (t_parent A HA i x0 ltac:(done) Hi0) as [np Hnp']. destruct (create_old _ np Hnp') as (y & Hy & _). rewrite H2. eauto.
  - destruct (t_rank A HA) as [rank Hrank]. exists (λ j, if decide (j = new) then S (rank p) else rank j). intros i x np Hi Hpar.
    apply create_node_inv in Hi as [[-> ->]|(nj & Hi & Hj & (_ & Hq & _))]; cbn [an_parent]; [rewrite (decide_True (P := new = new)), decide_False by done; lia|].
    rewrite Hq in *. pose proof (Hnp i nj Hj). rewrite !decide_False by done. apply create_node_inv in Hpar as [[? _]|(nq & _ & Hpar & _)]; [done|]. by eapply Hrank.
  - intros i x Hi. created; [constructor|]. rewrite H3. by eapply (t_vnodup A HA).
  - intros i x v Hi Hv. created; [by apply elem_of_nil in Hv|]. rewrite H3 in Hv. by eapply (t_vrange A HA).
  - intros i j x y v w Hi Hj Hv Hw. created; try (by apply elem_of_nil in Hv); try (by apply elem_of_nil in Hw).
    intros Hid. eapply (t_vown A HA i j _ _ v w); [done|done|congruence..].
  - intros i s t ns nt Hs Ht Hps Hpt Hnm. created; try done.
    + exfalso. rewrite H1 in Hnm. erewrite Hnew in Hnm; [done|done|congruence].
    + exfalso. rewrite same_name_sym, H1 in Hnm. erewrite Hnew in Hnm; [done|done|congruence].
    + eapply (t_names A HA i); [done|done|congruence..].
  - intros i x v w Hi Hv Hw. created; [by apply elem_of_nil in Hv|]. rewrite H3 in Hv, Hw. by eapply (t_vnames A HA).
Qed.

Lemma rep_create h h' : rep h A -> a_find A p name = None -> Z.of_nat (length (cells h')) <= NULL_CELL ->
  (forall j, 0 <= j -> slot h' j =
     if decide (j = p) then on_key (with_head new) <$> slot h j
     else if decide (j = new) then Some (CKey (with_sibling (hd_id (an_subs nd)) (key_new name p))) else slot h j) ->
  rep h' A'.
Proof using HA Hf Hp.
  intros Hr Hnone Hlen Hslot. pose proof create_ne as Hne. pose proof (f_range _ _ Hf) as Hrg.
  assert (forall j k, 0 <= j -> j ≠ new -> slot h j = Some (CKey k) -> slot h' j = Some (CKey (if decide (j = p) then with_head new k else k))) as Hkey by (intros j k H0 Hn Hs; rewrite Hslot, Hs, (decide_False (P := j = new)) by done; by case_decide).
  assert (forall j v, 0 <= j -> j ≠ new -> slot h j = Some (CValue v) -> slot h' j = Some (CValue v)) as Hval by (intros j k H0 Hn Hs; rewrite Hslot, Hs, (decide_False (P := j = new)) by done; by case_decide).
  assert (slot h' new = Some (CKey (with_sibling (hd_id (an_subs nd)) (key_new name p)))) as Hnew by (by rewrite Hslot, decide_False, decide_True by (done || lia)).
  assert (forall i nj, A !! i = Some nj -> links (next_key h') (an_subs nj)) as Hold.
  { intros i nj Hi. eapply links_ext; [|by eapply (r_subs h A (r_keys h A Hr))]. intros s Hs. apply (sub_in h A (r_keys h A Hr) i nj s Hi) in Hs as (ns & Hs & _).
    destruct (r_key h A (r_keys h A Hr) s ns Hs) as (k & Hk & _). unfold next_key. rewrite Hk, (Hkey s k); [by case_decide|by eapply (t_range A)| |done]. intros ->. pose proof (f_key _ _ Hf). congruence. }
  split; [split|..].
  - by apply tree_ok_create.
  - done.
  - intros i x Hi. apply create_node_inv in Hi as [[-> ->]|(nj & Hn & Hi & (H1 & H2 & H3 & H4))].
    + eexists. split; [exact Hnew|done].
    + destruct (r_key h A (r_keys h A Hr) i nj Hi) as (k & Hk & G1 & G2 & G3 & G4). eexists. split; [apply Hkey; [by eapply (t_range A)|done|exact Hk]|]. rewrite H1, H2, H3, H4. by case_decide.
  - intros i x Hi. apply create_node_inv in Hi as [[-> ->]|(nj & Hn & Hi & (_ & _ & _ & ->))]; [done|]. case_decide as Hd; [|by eapply Hold]. subst i. simplify_eq. split; [|by eapply Hold].
    unfold next_key. by rewrite Hnew.
  - intros i x Hi. apply create_node_inv in Hi as [[-> ->]|(nj & Hn & Hi & (_ & _ & -> & _))]; [done|]. eapply links_ext; [|by eapply (r_vals h A Hr)]. intros s Hs. apply list_elem_of_fmap in Hs as (v & -> & Hv).
    destruct (r_val h A Hr i nj v Hi Hv) as (c & Hc & _). unfold next_value. rewrite Hc, (Hval _ c); [done|by eapply (t_vrange A HA)| |done]. by eapply (f_val _ _ Hf).
  - intros i x v Hi Hv. apply create_node_inv in Hi as [[-> ->]|(nj & Hn & Hi & (_ & _ & Hvs & _))]; [by apply elem_of_nil in Hv|]. rewrite Hvs in Hv.
    destruct (r_val h A Hr i nj v Hi Hv) as (c & Hc & Hrest). exists c. split; [|done]. apply Hval; [by eapply (t_vrange A HA)|by eapply (f_val _ _ Hf)|done].
  - intros j c Hj Hs. destruct (decide (j = new)) as [->|Hjn]; [left; eexists; apply create_new|]. assert (exists c', slot h j = Some c') as [c' Hc'] by (rewrite Hslot in Hs by done; case_decide; [by destruct (slot h j); eauto|rewrite decide_False in Hs by done; eauto]).
    destruct (r_exact h A Hr j c' Hj Hc') as [[nj Hnj]|(i & nj & v & Hi & Hv & Hid)].
    + left. destruct (create_old j nj Hnj) as (x & Hx & _). eauto.
    + right. destruct (create_old i nj Hi) as (x & Hx & (_ & _ & Hvs & _)). exists i, x, v. by rewrite Hvs.
Qed.
End create.

(** What [create_key] does on the tree. *)
Lemma create_key_ok n h A p name : rep h A -> 0 <= p -> (length (cells h) <= n)%nat -> Z.of_nat (length (cells h)) < NULL_CELL ->
  exists r h', create_key n h p name = Some (r, h') /\ (length (cells h') <= S (length (cells h)))%nat /\
    match A !! p, a_find A p name with
    | Some nd, None => exists new, r = Some new /\ fresh_id A new /\ rep h' (a_create p nd name new A)
    | _, _ => r = None /\ h' = h
    end.
Proof.
  intros Hr Hp Hn Hl. unfold create_key. destruct (A !! p) as [nd|] eqn:E.
  - destruct (r_key h A (r_keys h A Hr) p nd E) as (k & Hk & _ & _ & Hh & _). rewrite Hk, (find_key_ok h A Hr) by done. cbn. destruct (a_find A p name) eqn:Ef; [exists None, h; auto with lia|].
    destruct (alloc_cell _ h) as [new h1] eqn:Ea. destruct (alloc_cell_spec _ _ _ _ Ea Hl) as (Hnew & Hfree & Hl1 & Hl2 & Hs). rewrite Hh in Hs. pose proof (rep_fresh h A new Hr Hnew Hfree) as Hf.
    assert (new ≠ p) as Hne by (by eapply create_ne).
    eexists _, _. split; [done|]. rewrite length_on_cell. split; [done|]. exists new. split; [done|]. split; [done|]. eapply rep_create; try done; [apply Hr|by rewrite length_on_cell|].
    intros j Hj. rewrite slot_on_cell, !Hs by lia. rewrite (decide_False (P := p = new)) by done. case_decide as Hd; [by subst|done].
  - exists None, h. split; [|auto with lia]. pose proof (not_key h A Hr p Hp E) as Hk. destruct (slot h p) as [[]|]; try done. by destruct (Hk k).
Qed.

(** ** Changing the values of a key *)

Section values.
Context (A : tree) (k : Z) (nd : anode) (l : list aval) (HA : tree_ok A) (Hk : A !! k = Some nd).
#[local] Abbreviation A' := (<[k := with_vals l nd]> A).

Lemma vals_inv j x : A' !! j = Some x -> exists nj, A !! j = Some nj /\ an_name x = an_name nj /\ an_parent x = an_parent nj /\ an_subs x = an_subs nj /\ an_vals x = if decide (j = k) then l else an_vals nj.
Proof using Hk. intros Hj. apply lookup_insert_Some in Hj as [[<- <-]|[Hn Hj]]; [exists nd; by rewrite decide_True|]. exists x. by rewrite decide_False by done. Qed.
Lemma vals_old j nj : A !! j = Some nj -> exists x, A' !! j = Some x /\ an_name x = an_name nj /\ an_parent x = an_parent nj /\ an_subs x = an_subs nj /\ an_vals x = if decide (j = k) then l else an_vals nj.
Proof using Hk.
  intros Hj. destruct (decide (j = k)) as [->|Hn]; [exists (with_vals l nd); rewrite lookup_insert_eq; by simplify_eq|]. exists nj. by rewrite lookup_insert_ne by done.
Qed.

Context (Hnd : NoDup (av_id <$> l)) (Hrange : forall v, v ∈ l -> 0 <= av_id v)
  (Hother : forall v j nj w, v ∈ l -> A !! j = Some nj -> w ∈ an_vals nj -> av_id v = av_id w -> j = k)
  (Hnames : forall v w, v ∈ l -> w ∈ l -> eq_ignore_case (av_name v) (av_name w) = true -> v = w).

Lemma tree_ok_vals : tree_ok A'.
Proof using HA Hk Hnd Hrange Hother Hnames.
  split.
  - destruct (t_root A HA) as (n0 & H0 & Hz). destruct (vals_old 0 n0 H0) as (x & Hx & _ & Hq & _). exists x. split; congruence.
  - intros i x Hi. apply vals_inv in Hi as (nj & Hi & _). by eapply (t_bound A HA).
  - intros i x s Hi. apply vals_inv in Hi as (nj & Hi & _ & _ & -> & _). rewrite (t_subs A HA i nj s Hi). split.
    + intros (ns & Hs & <-). destruct (vals_old s ns Hs) as (y & Hy & _ & Hq & _). eauto.
    + intros (y & Hy & <-). apply vals_inv in Hy as (ns & Hs & _ & -> & _). eauto.
  - intros i x Hi. apply vals_inv in Hi as (nj & Hi & _ & _ & -> & _). by eapply (t_nodup A HA).
  - intros i x Hi Hi0. apply vals_inv in Hi as (nj & Hi & _ & -> & _). destruct (t_parent A HA i nj Hi Hi0) as [np Hnp]. destruct (vals_old _ np Hnp) as (y & Hy & _). eauto.
  - destruct (t_rank A HA) as [rank Hrank]. exists rank. intros i x y Hi Hy. apply vals_inv in Hi as (nj & Hi & _ & Hq & _). rewrite Hq in *. apply vals_inv in Hy as (ny & Hy & _). by eapply Hrank.
  - intros i x Hi. apply vals_inv in Hi as (nj & Hi & _ & _ & _ & ->). case_decide; [done|by eapply (t_vnodup A HA)].
  - intros i x v Hi. apply vals_inv in Hi as (nj & Hi & _ & _ & _ & ->). case_decide; [apply Hrange|by eapply (t_vrange A HA)].
  - intros i j x y v w Hi Hj. apply vals_inv in Hi as (ni & Hi & _ & _ & _ & ->). apply vals_inv in Hj as (nj & Hj & _ & _ & _ & ->). intros Hv Hw Hid.
    destruct (decide (i = k)), (decide (j = k)); subst; [done|symmetry; by eapply (Hother v)|by eapply (Hother w)|by eapply (t_vown A HA)].
  - intros i s t x y Hs Ht. apply vals_inv in Hs as (ns & Hs & -> & -> & _). apply vals_inv in Ht as (nt & Ht & -> & -> & _). by eapply (t_names A HA).
  - intros i x v w Hi. apply vals_inv in Hi as (nj & Hi & _ & _ & _ & ->). case_decide; [apply Hnames|by eapply (t_vnames A HA)].
Qed.

(** The cells that hold the new values. *)
Record vals_changed (h h' : Hive) : Prop := {
  vc_len : Z.of_nat (length (cells h')) <= NULL_CELL;
  vc_keys j c : 0 <= j -> slot h j = Some (CKey c) -> slot h' j = Some (CKey (if decide (j = k) then with_values (hd_id (av_id <$> l)) c else c));
  vc_kept j c : 0 <= j -> slot h j = Some (CValue c) -> j ∉ (av_id <$> an_vals nd) -> slot h' j = Some (CValue c);
  vc_links : links (next_value h') (av_id <$> l);
  vc_vals v : v ∈ l -> exists c, slot h' (av_id v) = Some (CValue c) /\ val_name c = av_name v /\ value_type c = av_type v /\ val_data c = av_data v;
  vc_exact j c : 0 <= j -> slot h' j = Some c -> (j ∈ (av_id <$> l)) \/ (j ∉ (av_id <$> an_vals nd)) /\ (exists c', slot h j = Some c');
}.

Lemma rep_values h h' : rep h A -> vals_changed h h' -> rep h' A'.
Proof using HA Hk Hnd Hrange Hother Hnames.
  intros Hr Hc.
  assert (forall j nj v, j ≠ k -> A !! j = Some nj -> v ∈ an_vals nj -> slot h' (av_id v) = slot h (av_id v)) as Hsame.
  { intros j nj v Hj Hnj Hv. destruct (r_val h A Hr j nj v Hnj Hv) as (c & Hs & _). rewrite Hs. apply (vc_kept h h' Hc); [by eapply (t_vrange A HA)|done|].
    intros Hin. apply list_elem_of_fmap in Hin as (w & Hid & Hw). apply Hj. by eapply (t_vown A HA _ _ _ _ v w). }
  split; [split|..].
  - apply tree_ok_vals.
  - apply Hc.
  - intros i x Hi. apply vals_inv in Hi as (nj & Hi & -> & -> & -> & ->). destruct (r_key h A (r_keys h A Hr) i nj Hi) as (c & Hs & H1 & H2 & H3 & H4).
    eexists. split; [apply (vc_keys h h' Hc); [by eapply (t_range A)|exact Hs]|]. by case_decide.
  - intros i x Hi. apply vals_inv in Hi as (nj & Hi & _ & _ & -> & _). eapply links_ext; [|by eapply (r_subs h A (r_keys h A Hr))]. intros s Hs.
    apply (sub_in h A (r_keys h A Hr) i nj s Hi) in Hs as (ns & Hs & _). destruct (r_key h A (r_keys h A Hr) s ns Hs) as (c & Hcell & _). unfold next_key.
    rewrite Hcell, (vc_keys h h' Hc s c); [by case_decide|by eapply (t_range A)|done].
  - intros i x Hi. apply vals_inv in Hi as (nj & Hi & _ & _ & _ & ->). case_decide as Hd; [apply Hc|]. eapply links_ext; [|by eapply (r_vals h A Hr)]. intros s Hs.
    apply list_elem_of_fmap in Hs as (v & -> & Hv). unfold next_value. by rewrite (Hsame i nj v).
  - intros i x v Hi Hv. apply vals_inv in Hi as (nj & Hi & _ & _ & _ & Hvs). rewrite Hvs in Hv. case_decide as Hd; [by apply (vc_vals h h' Hc)|]. rewrite (Hsame i nj v) by done. by eapply (r_val h A Hr).
  - intros j c Hj Hs. destruct (vals_old k nd Hk) as (xk & Hxk & _ & _ & _ & Hvk). rewrite decide_True in Hvk by done. destruct (vc_exact h h' Hc j c Hj Hs) as [Hin|[Hout [c' Hc']]].
    + right. apply list_elem_of_fmap in Hin as (v & -> & Hv). exists k, xk, v. by rewrite Hvk.
    + destruct (r_exact h A Hr j c' Hj Hc') as [[nj Hnj]|(i & nj & v & Hi & Hv & <-)].
      * left. destruct (vals_old j nj Hnj) as (x & Hx & _). eauto.
      * right. destruct (vals_old i nj Hi) as (x & Hx & _ & _ & _ & Hvs). exists i, x, v. split_and!; [done| |done]. rewrite Hvs, decide_False; [done|].
        intros ->. simplify_eq. apply Hout. by apply list_elem_of_fmap_2.
Qed.
End values.

Definition a_set_at (v' : aval) (l : list aval) : list aval := (λ w, if av_id w =? av_id v' then v' else w) <$> l.
Lemma set_at_ids v' l : av_id <$> a_set_at v' l = av_id <$> l.
Proof. unfold a_set_at. rewrite <- list_fmap_compose. apply list_fmap_ext. intros i w _. cbn. by destruct (Z.eqb_spec (av_id w) (av_id v')). Qed.
Lemma set_at_elem v' l w : w ∈ a_set_at v' l -> (w = v' /\ exists u, u ∈ l /\ av_id u = av_id v') \/ (w ∈ l /\ av_id w ≠ av_id v').
Proof. intros Hw. apply list_elem_of_fmap in Hw as (u & -> & Hu). destruct (Z.eqb_spec (av_id u) (av_id v')); [left; eauto|by right]. Qed.

Lemma ids_unique l v w : NoDup (av_id <$> l) -> v ∈ l -> w ∈ l -> av_id v = av_id w -> v = w.
Proof.
  intros Hn Hv Hw Hid. apply list_elem_of_lookup_1 in Hv as [i Hi]. apply list_elem_of_lookup_1 in Hw as [j Hj].
  assert (i = j) as ->; [|congruence]. eapply NoDup_lookup; [exact Hn|rewrite list_lookup_fmap, Hi; done|rewrite list_lookup_fmap, Hj; cbn; congruence].
Qed.

Lemma filter_ids l1 v l2 : NoDup (av_id <$> l1 ++ v :: l2) -> filter (λ w, av_id w ≠ av_id v) (l1 ++ v :: l2) = l1 ++ l2.
Proof.
  rewrite fmap_app. cbn. intros Hn. apply NoDup_app in Hn as (_ & H1 & H2). apply NoDup_cons in H2 as [H2 _]. rewrite filter_app, filter_cons_False by (intros Hx; by apply Hx).
  rewrite !filter_all; [done|..]; intros w Hw Hid; apply (list_elem_of_fmap_2 av_id) in Hw; rewrite Hid in Hw; set_solver.
Qed.

Lemma with_values_id c : with_values (values_head c) c = c.
Proof. by destruct c. Qed.

Section set_values.
Context (h : Hive) (A : tree) (k : Z) (nd : anode) (Hr : rep h A) (Hk : A !! k = Some nd).
#[local] Abbreviation HA := (r_tree h A (r_keys h A Hr)).

Lemma key_head c : slot h k = Some (CKey c) -> values_head c = hd_id (av_id <$> an_vals nd).
Proof using Hr Hk. intros Hc. destruct (r_key h A (r_keys h A Hr) k nd Hk) as (c' & Hc' & _ & _ & _ & Hh). congruence. Qed.

(** A cell of a value is not a cell of a key. *)
Lemma value_not_key v c : v ∈ an_vals nd -> slot h (av_id v) ≠ Some (CKey c).
Proof using Hr Hk. intros Hv Hc. destruct (r_val h A Hr k nd v Hk Hv) as (c' & Hc' & _). congruence. Qed.

Lemma rep_overwrite v t data : v ∈ an_vals nd ->
  rep (on_slot (av_id v) (on_value (λ c, mkValue (val_name c) t data (val_next c))) h) (<[k := with_vals (a_set_at (mkAval (av_id v) (av_name v) t data) (an_vals nd)) nd]> A).
Proof using Hr Hk.
  intros Hv. set (v' := mkAval _ _ t data). set (l := a_set_at v' (an_vals nd)). pose proof (t_vrange A HA k nd v Hk Hv) as Hv0.
  assert (forall j, 0 <= j -> slot (on_slot (av_id v) (on_value (λ c, mkValue (val_name c) t data (val_next c))) h) j = if decide (j = av_id v) then on_value (λ c, mkValue (val_name c) t data (val_next c)) <$> slot h (av_id v) else slot h j) as Hs by (intros j Hj; by apply slot_on_cell).
  pose proof (t_vnodup A HA k nd Hk) as Hnd. pose proof (set_at_ids v' (an_vals nd)) as Hids. fold l in Hids.
  eapply rep_values; [exact HA|done|by rewrite Hids|..|exact Hr|split].
  - intros w Hw. apply set_at_elem in Hw as [[-> _]|[Hw _]]; [done|by eapply (t_vrange A HA)].
  - intros w j nj u Hw Hj Hu Hid. apply set_at_elem in Hw as [[-> _]|[Hw _]]; eapply (t_vown A HA); eauto.
  - intros a b Ha Hb Hname. apply set_at_elem in Ha as [[-> _]|[Ha Hna]], Hb as [[-> _]|[Hb Hnb]]; try done.
    + destruct Hnb. by pose proof (t_vnames A HA k nd v b Hk Hv Hb Hname) as <-.
    + destruct Hna. by pose proof (t_vnames A HA k nd a v Hk Ha Hv Hname) as ->.
    + by eapply (t_vnames A HA).
  - rewrite length_on_cell. apply Hr.
  - intros j c Hj Hc. rewrite Hs by done. rewrite decide_False by (intros ->; by apply (value_not_key v c Hv)). rewrite Hc. case_decide; [subst j|done]. rewrite Hids, <- (key_head c Hc). by rewrite with_values_id.
  - intros j c Hj Hc Hout. rewrite Hs by done. rewrite decide_False; [done|]. intros ->. apply Hout. by apply list_elem_of_fmap_2.
  - rewrite Hids. eapply links_ext; [|by eapply (r_vals h A Hr)]. intros s Hin. apply list_elem_of_fmap in Hin as (w & -> & Hw). unfold next_value. rewrite Hs by (by eapply (t_vrange A HA)).
    case_decide as Hd; [|done]. rewrite Hd. destruct (r_val h A Hr k nd v Hk Hv) as (c & Hc & _). by rewrite Hc.
  - intros w Hw. apply set_at_elem in Hw as [[-> _]|[Hw Hn]].
    + destruct (r_val h A Hr k nd v Hk Hv) as (c & Hc & H1 & _). rewrite Hs, decide_True, Hc by done. eexists. split; [done|]. split; [exact H1|done].
    + rewrite Hs by (by eapply (t_vrange A HA)). rewrite decide_False by done. by eapply (r_val h A Hr).
  - intros j c Hj Hc. rewrite Hids. destruct (decide (j ∈ (av_id <$> an_vals nd))); [by left|]. right. split; [done|]. rewrite Hs in Hc by done. case_decide; [subst|eauto]. by destruct (slot h (av_id v)); eauto.
Qed.

Lemma rep_add_value new name t data h' : fresh_id A new -> a_value A k name = None -> Z.of_nat (length (cells h')) <= NULL_CELL ->
  (forall j, 0 <= j -> slot h' j =
     if decide (j = k) then on_key (with_values new) <$> slot h j
     else if decide (j = new) then Some (CValue (mkValue name t data (hd_id (av_id <$> an_vals nd)))) else slot h j) ->
  rep h' (<[k := with_vals (mkAval new name t data :: an_vals nd) nd]> A).
Proof using Hr Hk.
  intros Hf Hnone Hlen Hs. set (v' := mkAval new name t data). pose proof (f_range _ _ Hf) as Hrg.
  assert (new ≠ k) as Hne by (intros ->; pose proof (f_key _ _ Hf); congruence).
  assert (forall w, w ∈ an_vals nd -> eq_ignore_case (av_name w) name = false) as Hnew.
  { intros w Hw. destruct (eq_ignore_case (av_name w) name) eqn:E; [|done]. unfold a_value in Hnone. rewrite Hk in Hnone. cbn in Hnone. apply fmap_None, list_find_None in Hnone. by eapply Forall_forall in Hnone. }
  assert (slot h' new = Some (CValue (mkValue name t data (hd_id (av_id <$> an_vals nd))))) as Hsnew by (by rewrite Hs, decide_False, decide_True by (done || lia)).
  assert (forall j c, 0 <= j -> slot h j = Some (CValue c) -> slot h' j = Some (CValue c)) as Hvs.
  { intros j c Hj Hc. rewrite Hs, Hc by done. case_decide; [done|]. rewrite decide_False; [done|]. intros ->. destruct (r_exact h A Hr new _ Hj Hc) as [[nj Hnj]|(i & nj & v & Hi & Hv & Hid)]; [pose proof (f_key _ _ Hf); congruence|by apply (f_val _ _ Hf i nj v)]. }
  eapply rep_values; [exact HA|done|..|exact Hr|split].
  - cbn. apply NoDup_cons. split; [|by eapply (t_vnodup A HA)]. intros Hin. apply list_elem_of_fmap in Hin as (w & Hid & Hw). by apply (f_val _ _ Hf k nd w).
  - intros w Hw. apply elem_of_cons in Hw as [->|Hw]; [cbn; lia|by eapply (t_vrange A HA)].
  - intros w j nj u Hw Hj Hu Hid. apply elem_of_cons in Hw as [->|Hw]; [by destruct (f_val _ _ Hf j nj u)|by eapply (t_vown A HA _ _ _ _ u w)].
  - intros a b Ha Hb Hname. apply elem_of_cons in Ha as [->|Ha], Hb as [->|Hb]; try done; [rewrite same_name_sym in Hname; cbn in Hname; by rewrite Hnew in Hname|cbn in Hname; by rewrite Hnew in Hname|by eapply (t_vnames A HA)].
  - done.
  - intros j c Hj Hc. rewrite Hs, Hc by done. case_decide; [done|]. rewrite decide_False; [done|]. intros ->. destruct (key_in h A Hr new c Hj Hc) as [nj Hnj]. pose proof (f_key _ _ Hf). congruence.
  - auto.
  - split; [unfold next_value; cbn; by rewrite Hsnew|]. change (links (next_value h') (av_id <$> an_vals nd)). eapply links_ext; [|by eapply (r_vals h A Hr)]. intros s Hin. apply list_elem_of_fmap in Hin as (w & -> & Hw).
    destruct (r_val h A Hr k nd w Hk Hw) as (c & Hc & _). unfold next_value. rewrite Hc, (Hvs _ c); [done|by eapply (t_vrange A HA)|done].
  - intros w Hw. apply elem_of_cons in Hw as [->|Hw]; [eexists; split; [exact Hsnew|done]|]. destruct (r_val h A Hr k nd w Hk Hw) as (c & Hc & Hrest). exists c. split; [|done]. apply Hvs; [by eapply (t_vrange A HA)|done].
  - intros j c Hj Hc. cbn. destruct (decide (j = new)) as [->|Hn]; [left; left|]. destruct (decide (j ∈ (av_id <$> an_vals nd))); [left; by right|right]. split; [done|]. rewrite Hs in Hc by done.
    case_decide; [|rewrite decide_False in Hc by done; eauto]. by destruct (slot h j); eauto.
Qed.

Lemma set_value_ok n name t data : (length (cells h) <= n)%nat -> Z.of_nat (length (cells h)) < NULL_CELL ->
  exists h', set_value n h k name t data = Some h' /\ (length (cells h') <= S (length (cells h)))%nat /\
    match a_value A k name with
    | Some v => rep h' (<[k := with_vals (a_set_at (mkAval (av_id v) (av_name v) t data) (an_vals nd)) nd]> A)
    | None => exists new, fresh_id A new /\ rep h' (<[k := with_vals (mkAval new name t data :: an_vals nd) nd]> A)
    end.
Proof using Hr Hk.
  intros Hn Hl. pose proof (t_range A k nd HA Hk) as Hk0. unfold set_value. rewrite (find_value_ok h A Hr) by done. cbn [mbind option_bind]. destruct (a_value A k name) as [v|] eqn:Ev; cbn [fmap option_fmap option_map].
  - eexists. split; [done|]. rewrite length_on_cell. split; [lia|]. apply rep_overwrite. apply (a_value_in h A Hr) in Ev as (nd' & Hk' & Hv & _). congruence.
  - rewrite (values_of_ok h A Hr), Hk by done. cbn [fmap option_fmap option_map]. destruct (alloc_cell _ h) as [new h1] eqn:Ea. destruct (alloc_cell_spec _ _ _ _ Ea Hl) as (Hnew & Hfree & Hl1 & Hl2 & Hs).
    pose proof (rep_fresh h A new Hr Hnew Hfree) as Hf. assert (k ≠ new) as Hne by (intros <-; pose proof (f_key _ _ Hf); congruence).
    eexists. split; [done|]. rewrite length_on_cell. split; [done|]. exists new. split; [done|]. apply rep_add_value; [done|done|by rewrite length_on_cell|].
    intros j Hj. rewrite slot_on_cell, !Hs by lia. rewrite (decide_False (P := k = new)) by done. case_decide; [by subst|done].
Qed.

(** The cells after the value [v] is unlinked, with [l1] before and [l2] after it. *)
Definition unlinked (l1 : list aval) (v : aval) (l2 : list aval) : Hive :=
  free_cell (av_id v) (match last l1 with
                       | None => on_slot k (on_key (with_values (hd_id (av_id <$> l2)))) h
                       | Some q => on_slot (av_id q) (on_value (with_next (hd_id (av_id <$> l2)))) h
                       end).

Lemma delete_value_loop_ok n pre l name : an_vals nd = pre ++ l -> (length l <= n)%nat ->
  delete_value_loop n k (default NULL_CELL (av_id <$> last pre)) (hd_id (av_id <$> l)) name h =
    Some (match list_find (λ v : aval, eq_ignore_case (av_name v) name = true) l with
          | None => (false, h)
          | Some (i, v) => (true, unlinked (pre ++ take i l) v (drop (S i) l))
          end).
Proof using Hr Hk.
  revert pre n. induction l as [|v l IH]; intros pre n Hl Hn; [by destruct n|]. destruct n as [|n]; [cbn in Hn; lia|].
  destruct (value_cell h A Hr k nd pre v l Hk Hl) as [Hc Hnull]. cbn [delete_value_loop]. change (hd_id (av_id <$> v :: l)) with (av_id v). rewrite Hnull, Hc. cbn [val_name val_next list_find].
  destruct (eq_ignore_case (av_name v) name).
  - rewrite decide_True by done. cbn [take drop]. rewrite app_nil_r. unfold unlinked. destruct (last pre) as [q|] eqn:El; [change (default NULL_CELL (av_id <$> Some q)) with (av_id q)|done].
    apply last_Some in El as [pre' ->]. rewrite <- app_assoc in Hl. destruct (value_cell h A Hr k nd pre' q _ Hk Hl) as [_ ->]. done.
  - rewrite decide_False by done. replace (av_id v) with (default NULL_CELL (av_id <$> last (pre ++ [v]))) by (by rewrite last_snoc). rewrite IH; [|by rewrite <- app_assoc|cbn in Hn; lia].
    destruct (list_find _ l) as [[i w]|]; [|done]. cbn. by rewrite <- app_assoc.
Qed.

Lemma rep_unlinked l1 v l2 : an_vals nd = l1 ++ v :: l2 -> rep (unlinked l1 v l2) (<[k := with_vals (l1 ++ l2) nd]> A).
Proof using Hr Hk.
  intros Hl. pose proof (t_vnodup A HA k nd Hk) as Hnd. rewrite Hl, fmap_app in Hnd. cbn in Hnd. pose proof (t_range A k nd HA Hk) as Hk0.
  assert (forall w, w ∈ l1 ++ l2 -> w ∈ an_vals nd) as Hsub by (intros w Hw; rewrite Hl; set_solver).
  assert (v ∈ an_vals nd) as Hv by (rewrite Hl; set_solver). pose proof (t_vrange A HA k nd v Hk Hv) as Hv0.
  assert (forall q, last l1 = Some q -> q ∈ an_vals nd /\ 0 <= av_id q) as Hq by (intros q El; apply last_Some in El as [pre ->]; assert (q ∈ an_vals nd) by (rewrite Hl; set_solver); split; [done|by eapply (t_vrange A HA)]).
  assert (forall j, 0 <= j -> slot (unlinked l1 v l2) j = if decide (j = av_id v) then None else
            match last l1 with
            | None => if decide (j = k) then on_key (with_values (hd_id (av_id <$> l2))) <$> slot h k else slot h j
            | Some q => if decide (j = av_id q) then on_value (with_next (hd_id (av_id <$> l2))) <$> slot h (av_id q) else slot h j
            end) as Hs.
  { intros j Hj. unfold unlinked. rewrite slot_free_cell by done. case_decide; [done|]. destruct (last l1) as [q|] eqn:El; by rewrite slot_on_cell by (done || by apply Hq). }
  assert (av_id v ∉ (av_id <$> l1 ++ l2)) as Hvn by (rewrite fmap_app; apply NoDup_app in Hnd as (_ & H1 & H2); apply NoDup_cons in H2 as [H2 _]; set_solver).
  assert (forall w, w ∈ l1 ++ l2 -> av_id w ≠ av_id v) as Hwn by (intros w Hw Hid; apply Hvn; rewrite <- Hid; by apply list_elem_of_fmap_2).
  assert (forall j c, 0 <= j -> j ≠ av_id v -> slot h j = Some (CValue c) -> exists nx, slot (unlinked l1 v l2) j = Some (CValue (with_next nx c))) as Hvals.
  { intros j c Hj Hn Hc. exists (match last l1 with Some q => if decide (j = av_id q) then hd_id (av_id <$> l2) else val_next c | None => val_next c end).
    assert (with_next (val_next c) c = c) as Hid by (by destruct c). rewrite Hs, decide_False by done. destruct (last l1) as [q|]; case_decide; subst; rewrite ?Hc; cbn; by rewrite ?Hid. }
  eapply rep_values; [exact HA|done|..|exact Hr|split].
  - rewrite fmap_app. apply NoDup_app in Hnd as (H1 & H2 & H3). apply NoDup_cons in H3 as [_ H3]. apply NoDup_app. set_solver.
  - intros w Hw. eapply (t_vrange A HA); [done|by apply Hsub].
  - intros w j nj u Hw Hj Hu Hid. eapply (t_vown A HA _ _ _ _ u w); [done|exact Hk|done|by apply Hsub|done].
  - intros a b Ha Hb. eapply (t_vnames A HA); [done|by apply Hsub..].
  - unfold unlinked. rewrite length_free. destruct (last l1); rewrite length_on_cell; apply Hr.
  - intros j c Hj Hc. rewrite Hs, decide_False by (done || (intros ->; by apply (value_not_key v c Hv))). destruct (last l1) as [q|] eqn:El.
    + rewrite decide_False, Hc by (intros ->; by apply (value_not_key q c (proj1 (Hq q eq_refl)))). case_decide as Hd; [subst j|done]. apply last_Some in El as [pre ->].
      assert (hd_id (av_id <$> (pre ++ [q]) ++ l2) = values_head c) as -> by (rewrite (key_head c Hc), Hl; by destruct pre). by rewrite with_values_id.
    + apply last_None in El as ->. case_decide as Hd; [subst j|done]. by rewrite Hc.
  - intros j c Hj Hc Hout. assert (forall w, w ∈ an_vals nd -> j ≠ av_id w) as Hjn by (intros w Hw ->; apply Hout; by apply list_elem_of_fmap_2).
    rewrite Hs, decide_False by (done || by apply Hjn). destruct (last l1) as [q|] eqn:El; [rewrite decide_False by (apply Hjn; by apply Hq); done|]. case_decide; [subst j|done].
    destruct (r_key h A (r_keys h A Hr) k nd Hk) as (c' & Hc' & _). congruence.
  - assert (forall x, x ∈ (av_id <$> l1 ++ l2) -> (forall q, last l1 = Some q -> x ≠ av_id q) -> next_value h x = next_value (unlinked l1 v l2) x) as Hnx.
    { intros x Hx Hxq. apply list_elem_of_fmap in Hx as (w & -> & Hw). unfold next_value. rewrite Hs, decide_False by (by apply Hwn || by eapply (t_vrange A HA); eauto).
      destruct (last l1) as [q|]; [rewrite decide_False by (by apply Hxq); done|]. rewrite decide_False; [done|]. intros Hid. destruct (r_key h A (r_keys h A Hr) k nd Hk) as (c & Hc & _). rewrite <- Hid in Hc. by eapply value_not_key; [apply Hsub, Hw|]. }
    pose proof (r_vals h A Hr k nd Hk) as Hlk. rewrite Hl, fmap_app in Hlk. destruct (last l1) as [q|] eqn:El.
    + apply last_Some in El as [pre ->]. rewrite !fmap_app, <- !app_assoc in Hlk. rewrite !fmap_app, <- !app_assoc in Hnd. rewrite !fmap_app, <- !app_assoc. cbn in Hnd, Hlk. destruct (Hq q eq_refl) as [Hqin Hq0]. eapply links_skip; [exact Hlk|..].
      * unfold next_value. rewrite Hs, decide_False, decide_True by (done || (apply Hwn; set_solver)). destruct (r_val h A Hr k nd q Hk Hqin) as (c & Hc & _). by rewrite Hc.
      * intros x Hx. apply Hnx; [rewrite !fmap_app; set_solver|]. intros ? [= <-] ->. apply NoDup_app in Hnd as (_ & H1 & H2). apply NoDup_cons in H2 as [H2 _]. set_solver.
    + apply last_None in El as ->. destruct Hlk as [_ Hlk]. eapply links_ext; [|exact Hlk]. intros s Hin. by apply Hnx.
  - intros w Hw. destruct (r_val h A Hr k nd w Hk (Hsub w Hw)) as (c & Hc & Hrest). destruct (Hvals (av_id w) c) as [nx Hnx]; [by eapply (t_vrange A HA); eauto|by apply Hwn|done|]. eexists. split; [exact Hnx|done].
  - intros j c Hj Hc. rewrite Hs in Hc by done. destruct (decide (j = av_id v)) as [|Hjv]; [done|]. destruct (decide (j ∈ (av_id <$> l1 ++ l2))); [by left|right]. split.
    + rewrite Hl, fmap_app. rewrite fmap_app in *. cbn. set_solver.
    + destruct (last l1); case_decide; subst; eauto; destruct (slot h _); eauto; done.
Qed.

Lemma delete_value_ok n name : (length (cells h) <= n)%nat ->
  exists b h', delete_value n h k name = Some (b, h') /\ length (cells h') = length (cells h) /\
    match a_value A k name with
    | Some v => b = true /\ rep h' (<[k := with_vals (filter (λ w, av_id w ≠ av_id v) (an_vals nd)) nd]> A)
    | None => b = false /\ h' = h
    end.
Proof using Hr Hk.
  intros Hn. pose proof (t_range A k nd HA Hk) as Hk0. unfold delete_value. rewrite (values_of_ok h A Hr), Hk by done. cbn [fmap option_fmap option_map].
  pose proof (vals_length h A Hr k nd Hk). pose proof (delete_value_loop_ok n [] (an_vals nd) name eq_refl ltac:(lia)) as Hd. cbn [last fmap option_fmap option_map default app] in Hd. rewrite Hd. clear Hd.
  unfold a_value. rewrite Hk. cbn [mbind option_bind]. destruct (list_find _ _) as [[i v]|] eqn:Ef; [|exists false, h; done]. eexists _, _. split; [done|]. cbn [fmap option_fmap option_map snd].
  apply list_find_Some in Ef as (Hi & _). assert (an_vals nd = take i (an_vals nd) ++ v :: drop (S i) (an_vals nd)) as Hsplit by (symmetry; by apply take_drop_middle).
  split; [unfold unlinked; rewrite length_free; by destruct (last _); rewrite length_on_cell|]. split; [done|].
  pose proof (t_vnodup A HA k nd Hk) as Hnd. rewrite Hsplit in Hnd. apply filter_ids in Hnd. rewrite <- Hsplit in Hnd. rewrite Hnd. by apply rep_unlinked.
Qed.
End set_values.
