(* ===== verification/HiveDelete.v ===== *)
(** * HiveDelete.v: deleting a key removes its subtree

    [delete_key] walks the subtree with a stack, each key pushed once to visit its
    subkeys and once to be freed after them.  Shown here: started on any key but
    the root it ends, within two turns for each key it removes, and leaves the
    tree without the key and all below it, with every cell of theirs free. *)

From stdpp Require Import gmap.
From S2P Require Import Prelude Str Bytes Hive HiveOk.
Open Scope Z_scope.

(** ** A tree without some keys *)

Lemma prune_lookup D A j : prune D A !! j = if decide (j ∈ D) then None else drop_subs D <$> A !! j.
Proof.
  unfold prune. rewrite lookup_fmap, map_lookup_filter. destruct (A !! j) as [nd|]; cbn; [|by case_decide]. case_decide; case_guard; try done.
Qed.
Lemma prune_inv D A j x : prune D A !! j = Some x -> (j ∉ D) /\ exists nd, A !! j = Some nd /\ x = drop_subs D nd.
Proof. rewrite prune_lookup. case_decide; [done|]. intros Hx. apply fmap_Some in Hx as (nd & Hnd & ->). eauto. Qed.
Lemma prune_keep D A j nd : j ∉ D -> A !! j = Some nd -> prune D A !! j = Some (drop_subs D nd).
Proof. intros Hj Hnd. by rewrite prune_lookup, decide_False, Hnd by done. Qed.
Lemma filter_union (D E : gset Z) (l : list Z) : filter (λ s, s ∉ E) (filter (λ s, s ∉ D) l) = filter (λ s, s ∉ D ∪ E) l.
Proof. rewrite list_filter_filter. apply list_filter_iff. set_solver. Qed.
Lemma prune_prune D E A : prune E (prune D A) = prune (D ∪ E) A.
Proof.
  apply map_eq. intros j. rewrite !prune_lookup. destruct (A !! j) as [nd|]; cbn; [|by repeat case_decide]. repeat case_decide; try set_solver; cbn; try done. f_equal.
  unfold drop_subs, with_subs. cbn. f_equal. apply filter_union.
Qed.
Lemma prune_empty A : prune ∅ A = A.
Proof.
  apply map_eq. intros j. rewrite prune_lookup, decide_False by set_solver. destruct (A !! j) as [[nm p l vs]|]; cbn; [|done]. unfold drop_subs, with_subs. cbn. by rewrite filter_all by set_solver.
Qed.

Lemma tree_ok_prune D A : tree_ok A -> 0 ∉ D -> (forall c nc, A !! c = Some nc -> an_parent nc ∈ D -> c ∈ D) -> tree_ok (prune D A).
Proof.
  intros HA H0 Hcl. split.
  - destruct (t_root A HA) as (nd & Hnd & Hp). exists (drop_subs D nd). split; [by apply prune_keep|done].
  - intros i x Hi. apply prune_inv in Hi as (_ & nd & Hi & _). by eapply (t_bound A HA).
  - intros i x s Hi. apply prune_inv in Hi as (Hni & nd & Hi & ->). cbn. rewrite list_elem_of_filter, (t_subs A HA i nd s Hi). split.
    + intros [Hs (ns & Hns & <-)]. exists (drop_subs D ns). split; [by apply prune_keep|done].
    + intros (y & Hy & <-). apply prune_inv in Hy as (Hs & ns & Hns & ->). eauto.
  - intros i x Hi. apply prune_inv in Hi as (_ & nd & Hi & ->). cbn. apply NoDup_filter. by eapply (t_nodup A HA).
  - intros i x Hi Hi0. apply prune_inv in Hi as (Hni & nd & Hi & ->). cbn. destruct (t_parent A HA i nd Hi Hi0) as [np Hnp]. exists (drop_subs D np). apply prune_keep; [|done]. intros Hp. apply Hni. by eapply Hcl.
  - destruct (t_rank A HA) as [rank Hrank]. exists rank. intros i x y Hi Hy. apply prune_inv in Hi as (_ & nd & Hi & ->). cbn in *. apply prune_inv in Hy as (_ & ny & Hy & _). by eapply Hrank.
  - intros i x Hi. apply prune_inv in Hi as (_ & nd & Hi & ->). exact (t_vnodup A HA i nd Hi).
  - intros i x v Hi. apply prune_inv in Hi as (_ & nd & Hi & ->). exact (t_vrange A HA i nd v Hi).
  - intros i j x y v w Hi Hj. apply prune_inv in Hi as (_ & nd & Hi & ->), Hj as (_ & nj & Hj & ->). exact (t_vown A HA i j nd nj v w Hi Hj).
  - intros i s t x y Hs Ht. apply prune_inv in Hs as (_ & ns & Hs & ->), Ht as (_ & nt & Ht & ->). exact (t_names A HA i s t ns nt Hs Ht).
  - intros i x v w Hi. apply prune_inv in Hi as (_ & nd & Hi & ->). exact (t_vnames A HA i nd v w Hi).
Qed.

(** ** The loops *)

Lemma free_values_ok n l h : NoDup l -> (forall s, s ∈ l -> 0 <= s < NULL_CELL) -> links (next_value h) l -> (length l <= n)%nat ->
  exists h', free_values n (hd_id l) h = Some h' /\ length (cells h') = length (cells h) /\ forall j, 0 <= j -> slot h' j = if decide (j ∈ l) then None else slot h j.
Proof.
  revert n h. induction l as [|s l IH]; intros n h Hnd Hs Hl Hn.
  - exists h. split; [by destruct n|]. split; [done|]. intros j Hj. rewrite decide_False by set_solver. done.
  - destruct n as [|n]; [cbn in Hn; lia|]. apply NoDup_cons in Hnd as [Hin Hnd]. destruct Hl as [Hl1 Hl2]. pose proof (Hs s ltac:(left)) as Hs0.
    assert (match slot h s with Some (CValue v) => val_next v | _ => NULL_CELL end = hd_id l) as Hnx by (unfold next_value in Hl1; destruct (slot h s) as [[]|]; by simplify_eq).
    destruct (IH n (free_cell s h)) as (h' & Hf & Hlen & Hsl); [done|set_solver| |cbn in Hn; lia|].
    { eapply links_ext; [|exact Hl2]. intros t Ht. unfold next_value. rewrite slot_free_cell, decide_False; [done|by intros ->|lia|]. apply Hs. by right. }
    exists h'. cbn [free_values]. change (hd_id (s :: l)) with s. rewrite (proj2 (Z.eqb_neq s NULL_CELL)), Hnx by lia. split; [done|]. split; [by rewrite Hlen, length_free|].
    intros j Hj. rewrite Hsl, slot_free_cell by lia. repeat case_decide; set_solver.
Qed.

Lemma push_subkeys_ok h A i nd pre l n stack : keys_rep h A -> A !! i = Some nd -> an_subs nd = pre ++ l -> (length l <= n)%nat ->
  push_subkeys n h (hd_id l) stack = Some (((λ s, (s, false)) <$> reverse l) ++ stack).
Proof.
  intros Hk Hi. revert pre n stack. induction l as [|s l IH]; intros pre n stack Hl Hn; [by destruct n|]. destruct n as [|n]; [cbn in Hn; lia|].
  destruct (sub_cell h A Hk i nd pre s l Hi Hl) as (ns & k & Hs & Hc & Hname & Hsib & Hnull). cbn [push_subkeys]. change (hd_id (s :: l)) with s. rewrite Hnull, Hc, Hsib.
  rewrite (IH (pre ++ [s])); [|by rewrite <- app_assoc|cbn in Hn; lia]. by rewrite reverse_cons, fmap_app, <- app_assoc.
Qed.

Lemma unlink_after_ok h A p np pre q i post n pre' : keys_rep h A -> A !! p = Some np -> an_subs np = pre' ++ pre ++ q :: i :: post -> (length (pre ++ [q]) <= n)%nat ->
  unlink_after n (hd_id (pre ++ q :: i :: post)) i (hd_id post) h = Some (on_slot q (on_key (with_sibling (hd_id post))) h).
Proof.
  intros Hk Hp. revert n pre'. induction pre as [|s pre IH]; intros n pre' Hl Hn; (destruct n as [|n]; [cbn in Hn; lia|]); cbn [unlink_after app].
  - destruct (sub_cell h A Hk p np pre' q (i :: post) Hp Hl) as (ns & k & Hs & Hc & _ & Hsib & Hnull). change (hd_id (q :: i :: post)) with q. by rewrite Hnull, Hc, Hsib, Z.eqb_refl.
  - destruct (sub_cell h A Hk p np pre' s (pre ++ q :: i :: post) Hp Hl) as (ns & k & Hs & Hc & _ & Hsib & Hnull). change (hd_id (s :: pre ++ q :: i :: post)) with s. rewrite Hnull, Hc, Hsib.
    assert (NoDup (an_subs np)) as Hnd by (by eapply (t_nodup A (r_tree h A Hk))). rewrite Hl in Hnd. apply NoDup_app in Hnd as (_ & _ & Hnd). cbn in Hnd. apply NoDup_cons in Hnd as [_ Hnd].
    assert (hd_id (pre ++ q :: i :: post) ≠ i) as Hne.
    { intros He. apply NoDup_app in Hnd as (_ & H1 & H2). destruct pre as [|x pre]; cbn in He; [subst q; apply NoDup_cons in H2 as [H2 _]; set_solver|subst x; set_solver]. }
    rewrite (proj2 (Z.eqb_neq _ _) Hne). apply (IH n (pre' ++ [s])); [by rewrite <- app_assoc|cbn in Hn; lia].
Qed.

(** ** Freeing a key without subkeys *)

Lemma keys_rep_ext h h' A : keys_rep h A -> length (cells h') = length (cells h) -> (forall j nj, A !! j = Some nj -> slot h' j = slot h j) -> keys_rep h' A.
Proof.
  intros Hk Hlen Hs. split; [apply Hk|rewrite Hlen; apply Hk|..].
  - intros i nd Hi. rewrite (Hs i nd Hi). by apply Hk.
  - intros i nd Hi. eapply links_ext; [|by eapply (r_subs h A Hk)]. intros s Hin. destruct (sub_in h A Hk i nd s Hi Hin) as (ns & Hns & _). unfold next_key. by rewrite (Hs s ns Hns).
Qed.

Lemma filter_one (i : Z) pre post : NoDup (pre ++ i :: post) -> filter (λ s, s ∉ ({[i]} : gset Z)) (pre ++ i :: post) = pre ++ post.
Proof.
  intros Hn. apply NoDup_app in Hn as (_ & H1 & H2). apply NoDup_cons in H2 as [H2 _]. rewrite filter_app, filter_cons_False by set_solver. by rewrite !filter_all by set_solver.
Qed.
Lemma filter_not_in (i : Z) (l : list Z) : i ∉ l -> filter (λ s, s ∉ ({[i]} : gset Z)) l = l.
Proof. intros Hi. apply filter_all. set_solver. Qed.

(** What unlinking does to the cells: the keys are relinked, the rest is kept. *)
Record relinked (h h' : Hive) (A : tree) (i : Z) : Prop := {
  u_len : length (cells h') = length (cells h);
  u_other j : 0 <= j -> A !! j = None -> slot h' j = slot h j;
  u_key j nj : A !! j = Some nj -> exists k, slot h' j = Some (CKey k) /\ key_name k = an_name nj /\ parent_cell k = an_parent nj /\
    subkeys_head k = hd_id (filter (λ s, s ∉ ({[i]} : gset Z)) (an_subs nj)) /\ values_head k = hd_id (av_id <$> an_vals nj);
  u_links j nj : A !! j = Some nj -> links (next_key h') (filter (λ s, s ∉ ({[i]} : gset Z)) (an_subs nj));
}.

Section unlink.
Context (h : Hive) (A : tree) (i : Z) (nd np : anode) (pre post : list Z) (Hk : keys_rep h A).
Context (Hi : A !! i = Some nd) (Hp : A !! an_parent nd = Some np) (Hl : an_subs np = pre ++ i :: post).
#[local] Abbreviation HA := (r_tree h A Hk).

Lemma other_subs j nj : A !! j = Some nj -> j ≠ an_parent nd -> filter (λ s, s ∉ ({[i]} : gset Z)) (an_subs nj) = an_subs nj.
Proof using Hk Hi. intros Hj Hne. apply filter_not_in. intros Hin. destruct (sub_in h A Hk j nj i Hj Hin) as (ns & Hns & Hpar). congruence. Qed.
Lemma parent_subs : filter (λ s, s ∉ ({[i]} : gset Z)) (an_subs np) = pre ++ post.
Proof using Hk Hp Hl. pose proof (t_nodup A HA _ np Hp) as Hn. rewrite Hl in *. by apply filter_one. Qed.

Lemma relinked_head : pre = [] -> relinked h (on_slot (an_parent nd) (on_key (with_head (hd_id post))) h) A i.
Proof using Hk Hi Hp Hl.
  intros Hpre. pose proof (t_range A _ np HA Hp) as Hp0. pose proof parent_subs as Hps. rewrite Hpre in Hps. cbn in Hps. set (h' := on_slot _ _ h).
  assert (forall j, 0 <= j -> slot h' j = if decide (j = an_parent nd) then on_key (with_head (hd_id post)) <$> slot h (an_parent nd) else slot h j) as Hs by (intros j Hj; by apply slot_on_cell).
  assert (forall s ns, A !! s = Some ns -> next_key h s = next_key h' s) as Hnx.
  { intros s ns Hns. unfold next_key. rewrite Hs by (by eapply (t_range A _ _ HA)). case_decide; [subst s|done]. by destruct (slot h (an_parent nd)) as [[]|]. }
  split.
  - apply length_on_cell.
  - intros j Hj Hn. rewrite Hs, decide_False by congruence. done.
  - intros j nj Hj. destruct (r_key h A Hk j nj Hj) as (k & Hc & H1 & H2 & H3 & H4). rewrite Hs by (by eapply (t_range A _ _ HA)). case_decide as Hd; [|rewrite (other_subs j nj) by done; eauto 10].
    subst j. rewrite Hc. eexists. split; [done|]. assert (nj = np) as -> by congruence. by rewrite Hps.
  - intros j nj Hj. assert (links (next_key h') (an_subs nj)) as Hlk by (eapply links_ext; [|by eapply (r_subs h A Hk)]; intros s Hin; destruct (sub_in h A Hk j nj s Hj Hin) as (ns & Hns & _); by eapply Hnx).
    destruct (decide (j = an_parent nd)) as [->|]; [|by rewrite (other_subs j nj)]. assert (nj = np) as -> by congruence. rewrite Hps. rewrite Hl, Hpre in Hlk. by apply Hlk.
Qed.

Lemma relinked_after pre' q : pre = pre' ++ [q] -> relinked h (on_slot q (on_key (with_sibling (hd_id post))) (on_slot (an_parent nd) id h)) A i.
Proof using Hk Hi Hp Hl.
  intros Hpre. pose proof (t_range A _ np HA Hp) as Hp0. pose proof parent_subs as Hps. pose proof (t_nodup A HA _ np Hp) as Hnd. rewrite Hl, Hpre, <- app_assoc in Hnd. cbn in Hnd. set (h' := on_slot q _ _).
  destruct (sub_in h A Hk _ np q Hp) as (nq & Hq & Hqp); [rewrite Hl, Hpre; set_solver|]. pose proof (t_range A _ nq HA Hq) as Hq0.
  assert (forall j, 0 <= j -> slot h' j = if decide (j = q) then on_key (with_sibling (hd_id post)) <$> slot h q else slot h j) as Hs.
  { assert (forall j, 0 <= j -> slot (on_slot (an_parent nd) id h) j = slot h j) as Hid by (intros j Hj; rewrite slot_on_cell by done; case_decide; [subst; by rewrite option_fmap_id|done]).
    intros j Hj. unfold h'. rewrite slot_on_cell by done. by rewrite !Hid by done. }
  assert (forall s, 0 <= s -> s ≠ q -> next_key h s = next_key h' s) as Hnx by (intros s Hs0 Hsq; unfold next_key; by rewrite Hs, decide_False by done).
  split.
  - unfold h'. by rewrite !length_on_cell.
  - intros j Hj Hn. rewrite Hs, decide_False by congruence. done.
  - intros j nj Hj. destruct (r_key h A Hk j nj Hj) as (k & Hc & H1 & H2 & H3 & H4). assert (hd_id (filter (λ s, s ∉ ({[i]} : gset Z)) (an_subs nj)) = hd_id (an_subs nj)) as Hhd.
    { destruct (decide (j = an_parent nd)) as [->|]; [|by rewrite (other_subs j nj)]. assert (nj = np) as -> by congruence. rewrite Hps, Hl, Hpre. by destruct pre'. }
    rewrite Hhd, Hs by (by eapply (t_range A _ _ HA)). case_decide as Hd; [|eauto 10]. subst j. rewrite Hc. eexists. split; [done|]. done.
  - intros j nj Hj. pose proof (r_subs h A Hk j nj Hj) as Hlk. destruct (decide (j = an_parent nd)) as [->|Hne].
    + assert (nj = np) as -> by congruence. rewrite Hps, Hpre, <- app_assoc. rewrite Hl, Hpre, <- app_assoc in Hlk. eapply links_skip; [exact Hlk|..].
      * unfold next_key. rewrite Hs, decide_True by done. destruct (r_key h A Hk q nq Hq) as (k & Hc & _). by rewrite Hc.
      * intros x Hx. destruct (sub_in h A Hk _ np x Hp) as (nx & Hx' & _); [rewrite Hl, Hpre; set_solver|]. apply Hnx; [by eapply (t_range A _ _ HA)|]. intros ->.
        apply NoDup_app in Hnd as (_ & G1 & G2). apply NoDup_cons in G2 as [G2 _]. set_solver.
    + rewrite (other_subs j nj) by done. eapply links_ext; [|exact Hlk]. intros s Hin. destruct (sub_in h A Hk j nj s Hj Hin) as (ns & Hns & Hpar). apply Hnx; [by eapply (t_range A _ _ HA)|]. intros ->. congruence.
Qed.

End unlink.

Lemma unlink_key_ok h A i nd np pre post n : keys_rep h A -> A !! i = Some nd -> A !! an_parent nd = Some np -> an_subs np = pre ++ i :: post -> (length (cells h) <= n)%nat -> exists h', unlink_key n (an_parent nd) i (hd_id post) h = Some h' /\ relinked h h' A i.
Proof.
  intros Hk Hi Hp Hl Hn. pose proof (r_tree h A Hk) as HA. destruct (t_bound A HA _ np Hp) as [_ Hpn]. unfold unlink_key. rewrite (proj2 (Z.eqb_neq _ _)) by lia. destruct (r_key h A Hk _ np Hp) as (k & Hc & _ & _ & Hh & _). rewrite Hc, Hh, Hl.
  destruct pre as [|x pre0]; [change (hd_id ([] ++ i :: post)) with i; rewrite Z.eqb_refl; eexists; split; [done|by eapply relinked_head]|].
  assert (hd_id ((x :: pre0) ++ i :: post) ≠ i) as Hne by (pose proof (t_nodup A HA _ np Hp) as Hnd; rewrite Hl in Hnd; cbn; cbn in Hnd; intros ->; apply NoDup_cons in Hnd as [Hnd _]; set_solver).
  rewrite (proj2 (Z.eqb_neq _ _) Hne). destruct (exists_last (l := x :: pre0)) as (pre' & q & Eq); [done|]. rewrite Eq, <- app_assoc. cbn [app].
  eexists. split; [eapply (unlink_after_ok _ A (an_parent nd) np pre' q i post n [])|].
  - eapply keys_rep_ext; [exact Hk|apply length_on_cell|]. intros j nj Hj. rewrite slot_on_cell; [case_decide; [subst; by rewrite option_fmap_id|done]|by eapply (t_range A _ _ HA)..].
  - done.
  - rewrite Hl, Eq, <- app_assoc. done.
  - pose proof (subs_length h A Hk _ np Hp) as Hs. rewrite Hl, Eq, !length_app in Hs. rewrite length_app. cbn in *. lia.
  - by eapply relinked_after.
Qed.

Section leaf.
Context (h : Hive) (A : tree) (i : Z) (nd : anode) (Hr : rep h A) (Hi : A !! i = Some nd) (Hleaf : an_subs nd = []).
#[local] Abbreviation Hk := (r_keys h A Hr).
#[local] Abbreviation HA := (r_tree h A (r_keys h A Hr)).

Lemma value_no_key j nj v : A !! j = Some nj -> v ∈ an_vals nj -> A !! av_id v = None.
Proof using Hr.
  intros Hj Hv. destruct (A !! av_id v) as [x|] eqn:E; [|done]. destruct (r_key h A Hk _ x E) as (k & Hc & _). destruct (r_val h A Hr j nj v Hj Hv) as (c & Hc' & _). congruence.
Qed.

Lemma rep_leaf h1 h2 : 0 ∉ ({[i]} : gset Z) -> (forall j, 0 <= j -> slot h1 j = if decide (j ∈ (av_id <$> an_vals nd)) then None else slot h j) -> length (cells h1) = length (cells h) ->
  relinked h1 h2 A i -> rep (free_cell i h2) (prune {[i]} A).
Proof using Hr Hi Hleaf.
  intros H0 Hs1 Hl1 Hu. pose proof (t_range A i nd HA Hi) as Hi0. pose proof (slot_free_cell i h2) as Hs3.
  assert (forall j nj v, j ≠ i -> A !! j = Some nj -> v ∈ an_vals nj -> slot (free_cell i h2) (av_id v) = slot h (av_id v)) as Hval.
  { intros j nj v Hj Hnj Hv. pose proof (t_vrange A HA j nj v Hnj Hv) as Hv0. pose proof (value_no_key j nj v Hnj Hv) as Hnk. rewrite Hs3 by done. rewrite decide_False by congruence.
    rewrite (u_other h1 h2 A i Hu) by done. rewrite Hs1, decide_False; [done| |done]. intros Hin. apply list_elem_of_fmap in Hin as (w & Hid & Hw). apply Hj. by eapply (t_vown A HA _ _ _ _ v w). }
  split; [split|..].
  - apply tree_ok_prune; [exact HA|done|]. intros c nc Hc Hin. apply elem_of_singleton in Hin. assert (c ∈ an_subs nd) as Hsub by (apply (t_subs A HA i nd c Hi); eauto). rewrite Hleaf in Hsub. by apply elem_of_nil in Hsub.
  - rewrite length_free, (u_len h1 h2 A i Hu), Hl1. apply Hk.
  - intros j x Hj. apply prune_inv in Hj as (Hni & nj & Hj & ->). destruct (u_key h1 h2 A i Hu j nj Hj) as (k & Hc & Hrest). exists k. split; [|exact Hrest]. rewrite Hs3, decide_False by (set_solver || by eapply (t_range A _ _ HA)). done.
  - intros j x Hj. apply prune_inv in Hj as (Hni & nj & Hj & ->). eapply links_ext; [|exact (u_links h1 h2 A i Hu j nj Hj)]. intros s Hin. apply list_elem_of_filter in Hin as [Hsi Hin].
    destruct (sub_in h A Hk j nj s Hj Hin) as (ns & Hns & _). unfold next_key. rewrite Hs3, decide_False by (set_solver || by eapply (t_range A _ _ HA)). done.
  - intros j x Hj. apply prune_inv in Hj as (Hni & nj & Hj & ->). eapply links_ext; [|exact (r_vals h A Hr j nj Hj)]. intros s Hin. apply list_elem_of_fmap in Hin as (v & -> & Hv). unfold next_value. rewrite (Hval j nj v) by set_solver. done.
  - intros j x v Hj Hv. apply prune_inv in Hj as (Hni & nj & Hj & ->). rewrite (Hval j nj v) by set_solver. exact (r_val h A Hr j nj v Hj Hv).
  - intros j c Hj Hc. rewrite Hs3 in Hc by done. case_decide as Hji; [done|]. destruct (A !! j) as [nj|] eqn:Ej; [left; eexists; apply prune_keep; [set_solver|done]|]. rewrite (u_other h1 h2 A i Hu), Hs1 in Hc by done. case_decide as Hin; [done|].
    destruct (r_exact h A Hr j c Hj Hc) as [[x Hx]|(o & no & v & Ho & Hv & <-)]; [congruence|]. right. exists o, (drop_subs {[i]} no), v. split_and!; [|done|done]. apply prune_keep; [|done]. intros Ho'. apply elem_of_singleton in Ho' as ->.
    assert (no = nd) as -> by congruence. apply Hin. by apply list_elem_of_fmap_2.
Qed.

Lemma delete_leaf n : i ≠ 0 -> (length (cells h) <= n)%nat ->
  exists h', (forall stack, delete_turn n i true stack h = Some (stack, h')) /\ length (cells h') = length (cells h) /\ rep h' (prune {[i]} A).
Proof using Hr Hi Hleaf.
  intros Hi0 Hn. destruct (r_key h A Hk i nd Hi) as (k & Hc & _ & Hpar & _ & Hvh). destruct (t_parent A HA i nd Hi Hi0) as [np Hp].
  assert (i ∈ an_subs np) as Hin by (apply (t_subs A HA _ np i Hp); eauto). apply list_elem_of_split in Hin as (pre & post & Hl).
  destruct (sub_cell h A Hk _ np pre i post Hp Hl) as (_ & k' & _ & Hc' & _ & Hsib & _). assert (k' = k) as -> by congruence.
  destruct (free_values_ok n (av_id <$> an_vals nd) h) as (h1 & Hfree & Hl1 & Hs1).
  - by eapply (t_vnodup A HA).
  - intros s Hin. apply list_elem_of_fmap in Hin as (v & -> & Hv). pose proof (t_vrange A HA i nd v Hi Hv). destruct (r_val h A Hr i nd v Hi Hv) as (c & Hcv & _). apply slot_lt in Hcv. pose proof (r_len h A Hk). lia.
  - by eapply (r_vals h A Hr).
  - rewrite length_fmap. pose proof (vals_length h A Hr i nd Hi). lia.
  - assert (keys_rep h1 A) as Hk1.
    { eapply keys_rep_ext; [exact Hk|done|]. intros j nj Hj. rewrite Hs1 by (by eapply (t_range A _ _ HA)). rewrite decide_False; [done|]. intros Hin. apply list_elem_of_fmap in Hin as (v & -> & Hv). pose proof (value_no_key i nd v Hi Hv). congruence. }
    destruct (unlink_key_ok h1 A i nd np pre post n Hk1 Hi Hp Hl ltac:(lia)) as (h2 & Hun & Hu). exists (free_cell i h2).
    split; [intros stack; unfold delete_turn; rewrite Hc, Hvh, Hpar, Hsib, Hfree; cbn [mbind option_bind]; by rewrite Hun|]. split; [by rewrite length_free, (u_len h1 h2 A i Hu)|].
    eapply rep_leaf; [set_solver|done..].
Qed.
End leaf.

(** ** The whole subtree *)

Definition ranked (rank : Z -> nat) (A : tree) : Prop := forall i nd np, A !! i = Some nd -> A !! an_parent nd = Some np -> (rank (an_parent nd) < rank i)%nat.

Lemma ranked_prune rank D A : ranked rank A -> ranked rank (prune D A).
Proof. intros Hrk i x y Hi Hy. apply prune_inv in Hi as (_ & nd & Hi & ->). apply prune_inv in Hy as (_ & np & Hp & _). exact (Hrk i nd np Hi Hp). Qed.
Lemma below_prune D A i j : below (prune D A) i j -> below A i j.
Proof. induction 1 as [|j x Hj _ IH]; [constructor|]. apply prune_inv in Hj as (_ & nd & Hj & ->). exact (below_up A i j nd Hj IH). Qed.
Lemma below_trans A i j l : below A i j -> below A j l -> below A i l.
Proof. intros Hij. induction 1; [done|by eapply below_up]. Qed.
Lemma below_rank rank A i j nd : ranked rank A -> A !! i = Some nd -> below A i j -> (exists nj, A !! j = Some nj) /\ (rank i <= rank j)%nat.
Proof. intros Hrk Hi. induction 1 as [|j nj Hj _ [[np Hp] IH]]; [eauto|]. split; [eauto|]. pose proof (Hrk j nj np Hj Hp). lia. Qed.

(** The keys in [D] are below [i], with all their subkeys. *)
Record under (A : tree) (i : Z) (D : gset Z) : Prop := {
  d_below j : j ∈ D -> below A i j /\ exists nd, A !! j = Some nd;
  d_closed c nc : A !! c = Some nc -> an_parent nc ∈ D -> c ∈ D;
}.

Lemma under_union A i s ns D E : under A i D -> under (prune D A) s E -> A !! s = Some ns -> an_parent ns = i -> under A i (D ∪ E) /\ D ## E.
Proof.
  intros HD HE Hs Hp. split.
  - split.
    + intros j Hj. apply elem_of_union in Hj as [Hj|Hj]; [by apply (d_below A i D HD)|]. apply (d_below _ s E HE) in Hj as [Hb [x Hx]]. apply below_prune in Hb. apply prune_inv in Hx as (_ & nj & Hj & _). split; [|eauto].
      eapply below_trans; [|exact Hb]. eapply below_up; [exact Hs|]. rewrite Hp. constructor.
    + intros c nc Hc Hin. destruct (decide (c ∈ D)); [set_solver|]. apply elem_of_union in Hin as [Hin|Hin]; [by apply (d_closed A i D HD c nc) in Hin|]. apply elem_of_union_r. eapply (d_closed _ s E HE); [by apply prune_keep|done].
  - intros j Hd He. apply (d_below _ s E HE) in He as [_ [x Hx]]. by apply prune_inv in Hx as [? _].
Qed.

Section subtree.
Context (rank : Z -> nat) (n : nat).

(** What deleting the key [s] is to achieve. *)
Definition deletes (A : tree) (s : Z) : Prop := forall h, rep h A -> (length (cells h) <= n)%nat ->
  exists D h', s ∈ D /\ under A s D /\ length (cells h') = length (cells h) /\ rep h' (prune D A) /\
    forall m stack, delete_loop (2 * size D + m) n ((s, false) :: stack) h = delete_loop m n stack h'.

Lemma delete_subs A i nd (l : list Z) : ranked rank A -> A !! i = Some nd ->
  (forall D s x, prune D A !! s = Some x -> an_parent x = i -> deletes (prune D A) s) ->
  forall D h, rep h (prune D A) -> (length (cells h) <= n)%nat -> under A i D -> i ∉ D -> filter (λ s, s ∉ D) (an_subs nd) = l ->
  exists D' h', D ⊆ D' /\ under A i D' /\ (i ∉ D') /\ filter (λ s, s ∉ D') (an_subs nd) = [] /\ length (cells h') = length (cells h) /\ rep h' (prune D' A) /\
    forall m stack, delete_loop (2 * (size D' - size D) + m) n (((λ s, (s, false)) <$> reverse l) ++ stack) h = delete_loop m n stack h'.
Proof.
  intros Hrk Hi Hdel. induction l as [|s l IH] using rev_ind; intros D h Hr Hn Hu HiD Hl.
  { exists D, h. rewrite Nat.sub_diag. done. }
  pose proof (prune_keep D A i nd HiD Hi) as Hpi. pose proof (r_keys h _ Hr) as Hk. destruct (sub_in h _ Hk i _ s Hpi) as (x & Hs & Hpar); [cbn; rewrite Hl; set_solver|].
  pose proof (t_nodup _ (r_tree h _ Hk) i _ Hpi) as Hnd. cbn in Hnd. rewrite Hl in Hnd. pose proof Hs as Hs'. apply prune_inv in Hs' as (HsD & ns & Hns & ->). cbn in Hpar.
  destruct (Hdel D s _ Hs Hpar h Hr Hn) as (E & h1 & HsE & HuE & Hl1 & Hr1 & Hloop). rewrite prune_prune in Hr1. destruct (under_union A i s ns D E Hu HuE Hns Hpar) as [Hu1 Hdisj].
  assert (rank i < rank s)%nat as Hris by (rewrite <- Hpar; eapply Hrk; [done|by rewrite Hpar]).
  assert (forall y, y ∈ E -> rank s <= rank y)%nat as HE by (intros y Hy; apply (d_below _ s E HuE) in Hy as [Hb _]; by eapply below_rank; [by apply ranked_prune| |]).
  destruct (IH (D ∪ E) h1 Hr1 ltac:(lia) Hu1) as (D' & h2 & Hsub & Hu2 & HiD' & Hnil & Hl2 & Hr2 & Hloop2).
  - apply not_elem_of_union. split; [done|]. intros HiE. apply HE in HiE. lia.
  - rewrite <- filter_union, Hl, filter_app, (filter_none _ [s]), app_nil_r by set_solver. apply filter_all. intros y Hy HyE.
    apply (d_below _ s E HuE) in HyE as [Hb _]. destruct (sub_in h _ Hk i _ y Hpi) as (x & Hx & Hxp); [cbn; rewrite Hl; set_solver|]. inversion Hb as [|? x' Hx' Hb']; [subst y; apply NoDup_app in Hnd as (_ & Hnd & _); set_solver|].
    assert (x' = x) as -> by congruence. rewrite Hxp in Hb'. destruct (below_rank rank _ s i _ (ranked_prune rank D A Hrk) Hs Hb'). lia.
  - exists D', h2. split_and!; try done; [set_solver|lia|]. intros m stack. rewrite reverse_app, fmap_app. cbn [reverse fmap app].
    assert (size (D ∪ E) = size D + size E)%nat as Hsz by (by apply size_union). assert (size (D ∪ E) <= size D')%nat by (by apply subseteq_size).
    replace (2 * (size D' - size D) + m)%nat with (2 * size E + (2 * (size D' - size (D ∪ E)) + m))%nat by lia. etransitivity; [apply Hloop|]. apply Hloop2.
Qed.

Lemma delete_below R d : forall A i nd, ranked rank A -> (forall j nj, A !! j = Some nj -> (rank j <= R)%nat) -> A !! i = Some nd -> i ≠ 0 -> (R - rank i < d)%nat -> deletes A i.
Proof.
  induction d as [|d IH]; intros A i nd Hrk HR Hi Hi0 Hd h Hr Hn; [lia|]. pose proof (r_keys h A Hr) as Hk. pose proof (r_tree h A Hk) as HA.
  destruct (delete_subs A i nd (an_subs nd) Hrk Hi) with (D := ∅ : gset Z) (h := h) as (D & h1 & _ & Hu & HiD & Hnil & Hl1 & Hr1 & Hloop).
  - intros D s x Hs Hpar. apply prune_inv in Hs as (HsD & ns & Hs & ->). cbn in Hpar.
    assert (rank i < rank s)%nat by (rewrite <- Hpar; eapply Hrk; [done|by rewrite Hpar]). pose proof (HR s ns Hs).
    eapply (IH _ s _ (ranked_prune rank D A Hrk)); [|by apply prune_keep| |lia].
    + intros j x Hj. apply prune_inv in Hj as (_ & nj & Hj & _). by eapply HR.
    + intros ->. destruct (t_root A HA) as (n0 & Hn0 & Hnull). destruct (t_bound A HA i nd Hi). assert (ns = n0) as -> by congruence. lia.
  - by rewrite prune_empty.
  - done.
  - split; set_solver.
  - set_solver.
  - apply filter_all. set_solver.
  - destruct (delete_leaf h1 _ i _ Hr1 (prune_keep D A i nd HiD Hi) Hnil n Hi0 ltac:(lia)) as (h2 & Hturn & Hl2 & Hr2). rewrite prune_prune in Hr2.
    exists (D ∪ {[i]}), h2. split_and!; [set_solver| |lia|done|].
    + split.
      * intros j Hj. apply elem_of_union in Hj as [Hj|Hj]; [by apply (d_below A i D Hu)|]. apply elem_of_singleton in Hj as ->. split; [constructor|eauto].
      * intros c nc Hc Hin. apply elem_of_union in Hin as [Hin|Hin]; [apply elem_of_union_l; by eapply (d_closed A i D Hu)|]. apply elem_of_singleton in Hin. destruct (decide (c ∈ D)); [set_solver|].
        assert (c ∈ filter (λ s, s ∉ D) (an_subs nd)) as Hcs by (apply list_elem_of_filter; split; [done|]; apply (t_subs A HA i nd c Hi); eauto). rewrite Hnil in Hcs. by apply elem_of_nil in Hcs.
    + intros m stack. rewrite size_union, size_singleton by set_solver. replace (2 * (size D + 1) + m)%nat with (S (2 * (size D - size (∅ : gset Z)) + S m)) by (rewrite size_empty; lia).
      destruct (r_key h A Hk i nd Hi) as (k & Hc & _ & _ & Hh & _). cbn [delete_loop]. unfold delete_turn at 1. rewrite Hc, Hh, (push_subkeys_ok h A i nd [] (an_subs nd)) by (done || (pose proof (subs_length h A Hk i nd Hi); lia)). cbn [mbind option_bind].
      rewrite Hloop. cbn [delete_loop]. by rewrite Hturn.
Qed.
End subtree.

Lemma rank_bound (rank : Z -> nat) (A : tree) : exists R, forall j nj, A !! j = Some nj -> (rank j <= R)%nat.
Proof.
  induction A as [|i x A _ [R IH]] using map_ind; [by exists O|]. exists (R + rank i)%nat. intros j nj Hj. apply lookup_insert_Some in Hj as [[-> _]|[_ Hj]]; [lia|]. pose proof (IH j nj Hj). lia.
Qed.

(** [delete_key] on a key removes the key and all below it, and nothing else. *)
Lemma delete_key_ok m n h A i nd : rep h A -> A !! i = Some nd -> i ≠ 0 -> (length (cells h) <= n)%nat -> (2 * length (cells h) <= m)%nat ->
  exists D h', delete_key m n i h = Some h' /\ length (cells h') = length (cells h) /\ (forall j, j ∈ D <-> below A i j) /\ rep h' (prune D A).
Proof.
  intros Hr Hi Hi0 Hn Hm. pose proof (r_keys h A Hr) as Hk. pose proof (r_tree h A Hk) as HA. destruct (t_rank A HA) as [rank Hrk]. destruct (rank_bound rank A) as [R HR].
  destruct (delete_below rank n R (S (R - rank i)) A i nd Hrk HR Hi Hi0 ltac:(lia) h Hr Hn) as (D & h' & HiD & Hu & Hl & Hr' & Hloop). exists D, h'.
  assert (size D <= length (cells h))%nat as Hsz.
  { apply (ids_bound h (elements D) (NoDup_elements D)). intros s Hs. apply elem_of_elements, (d_below A i D Hu) in Hs as [_ [ns Hns]]. split; [by eapply (t_range A _ _ HA)|]. destruct (r_key h A Hk s ns Hns) as (k & Hc & _). eauto. }
  split_and!; [|done| |done].
  - unfold delete_key. rewrite (proj2 (Z.eqb_neq i 0)) by done. destruct (r_key h A Hk i nd Hi) as (k & -> & _). replace m with (2 * size D + (m - 2 * size D))%nat by lia. rewrite Hloop. by destruct (m - 2 * size D)%nat.
  - intros j. split; [intros Hj; by apply (d_below A i D Hu)|]. induction 1 as [|j nj Hj _ IH]; [done|]. by eapply (d_closed A i D Hu).
Qed.
