(* ===== verification/HiveTree.v ===== *)
(** * HiveTree.v: the registry as trees of keys

    Requests to one hive, with what they are specified to do on the tree, and the
    requests of [cm/api.rs] to the mounted hives, which name a key by the position
    of its hive and its cell. *)

From stdpp Require Import gmap.
From S2P Require Import Prelude Str Bytes Hive HiveOk HiveDelete.
Open Scope Z_scope.

(** ** One hive *)

Inductive hreq :=
  | QFind (p : Z) (name : str) | QOpen (start : Z) (path : str) | QCreate (p : Z) (name : str) | QEnum (p index : Z) | QCount (p : Z) | QDelete (i : Z)
  | QSet (k : Z) (name : str) (t : Z) (data : list Z) | QQuery (k : Z) (name : str) | QUnset (k : Z) (name : str) | QEnumValue (k index : Z) | QValueCount (k : Z).
Inductive hans := AKey (o : option Z) | AName (o : option str) | ANum (z : Z) | AVal (o : option (str * Z * list Z)) | ADone (b : bool).

Definition shown (c : ValueCell) : str * Z * list Z := (val_name c, value_type c, val_data c).

Definition exec (m n : nat) (r : hreq) (h : Hive) : option (hans * Hive) :=
  match r with
  | QFind p name => o ← find_key n h p name; Some (AKey o, h)
  | QOpen start path => o ← open_key_by_path n h start path; Some (AKey o, h)
  | QCreate p name => '(o, h) ← create_key n h p name; Some (AKey o, h)
  | QEnum p index => o ← enum_key n h p index; Some (AName o, h)
  | QCount p => z ← key_count n h p; Some (ANum z, h)
  | QDelete i => h ← delete_key m n i h; Some (ADone true, h)
  | QSet k name t data => h ← set_value n h k name t data; Some (ADone true, h)
  | QQuery k name => o ← query_value n h k name; Some (AVal (shown <$> o), h)
  | QUnset k name => match delete_value n h k name with Some (b, h) => Some (ADone b, h) | None => None end
  | QEnumValue k index => o ← enum_value n h k index; Some (AName o, h)
  | QValueCount k => z ← value_count n h k; Some (ANum z, h)
  end.

(** The ids in a request are words; a value is set on a key, and what is deleted is
    not a value. *)
Definition safe (r : hreq) (h : Hive) : bool :=
  match r with
  | QFind i _ | QOpen i _ | QCreate i _ | QCount i | QQuery i _ | QUnset i _ | QValueCount i => 0 <=? i
  | QEnum i index | QEnumValue i index => (0 <=? i) && (0 <=? index)
  | QSet i _ _ _ => (0 <=? i) && match slot h i with Some (CKey _) => true | _ => false end
  | QDelete i => (0 <=? i) && match slot h i with Some (CKey _) | None => true | _ => false end
  end.

Inductive spec (A : tree) : hreq -> hans -> tree -> Prop :=
  | spec_find p name : spec A (QFind p name) (AKey (a_find A p name)) A
  | spec_open i path : spec A (QOpen i path) (AKey (a_open A i (filter (λ p, p ≠ []) (split 92 path)))) A
  | spec_create p nd name new : A !! p = Some nd -> a_find A p name = None -> fresh_id A new -> spec A (QCreate p name) (AKey (Some new)) (a_create p nd name new A)
  | spec_create_fails p name : A !! p = None \/ (exists i, a_find A p name = Some i) -> spec A (QCreate p name) (AKey None) A
  | spec_enum p index : spec A (QEnum p index) (AName (a_enum A p index)) A
  | spec_count p : spec A (QCount p) (ANum (a_count A p)) A
  | spec_delete i nd D : A !! i = Some nd -> i ≠ 0 -> (forall j, j ∈ D <-> below A i j) -> spec A (QDelete i) (ADone true) (prune D A)
  | spec_delete_nothing i : i = 0 \/ A !! i = None -> spec A (QDelete i) (ADone true) A
  | spec_overwrite k nd name t data v : A !! k = Some nd -> a_value A k name = Some v ->
      spec A (QSet k name t data) (ADone true) (<[k := with_vals (a_set_at (mkAval (av_id v) (av_name v) t data) (an_vals nd)) nd]> A)
  | spec_add k nd name t data new : A !! k = Some nd -> a_value A k name = None -> fresh_id A new ->
      spec A (QSet k name t data) (ADone true) (<[k := with_vals (mkAval new name t data :: an_vals nd) nd]> A)
  | spec_query k name : spec A (QQuery k name) (AVal ((λ v, (av_name v, av_type v, av_data v)) <$> a_value A k name)) A
  | spec_unset k nd name v : A !! k = Some nd -> a_value A k name = Some v ->
      spec A (QUnset k name) (ADone true) (<[k := with_vals (filter (λ w, av_id w ≠ av_id v) (an_vals nd)) nd]> A)
  | spec_unset_fails k name : a_value A k name = None -> spec A (QUnset k name) (ADone false) A
  | spec_enum_value k index : spec A (QEnumValue k index) (AName (a_enum_value A k index)) A
  | spec_value_count k : spec A (QValueCount k) (ANum (a_value_count A k)) A.

#[local] Hint Constructors spec : neodos.

Section step.
Context (m n : nat) (h : Hive) (A : tree) (Hr : rep h A) (Hn : (length (cells h) <= n)%nat) (Hm : (2 * length (cells h) <= m)%nat) (Hl : Z.of_nat (length (cells h)) < NULL_CELL).

(** A request is answered as specified. *)
Definition answered (r : hreq) : Prop := exists a h' A', exec m n r h = Some (a, h') /\ spec A r a A' /\ rep h' A' /\ (length (cells h') <= S (length (cells h)))%nat.

Lemma answered_same r a : exec m n r h = Some (a, h) -> spec A r a A -> answered r.
Proof using Hr. intros He Hs. exists a, h, A. auto with lia. Qed.

Lemma create_answered p name : 0 <= p -> answered (QCreate p name).
Proof using Hr Hn Hm Hl.
  intros Hp. destruct (create_key_ok n h A p name Hr Hp Hn Hl) as (o & h' & He & Hlen & Hcase). unfold answered. cbn [exec]. rewrite He. cbn.
  destruct (A !! p) as [nd|] eqn:Ep; [destruct (a_find A p name) eqn:Ef|].
  - destruct Hcase as [-> ->]. eexists _, _, A. split; [done|]. split; [constructor; eauto|auto with lia].
  - destruct Hcase as (new & -> & Hf & Hr'). eexists _, _, _. split; [done|]. split; [by eapply spec_create|done].
  - destruct Hcase as [-> ->]. eexists _, _, A. split; [done|]. split; [constructor; eauto|auto with lia].
Qed.

Lemma delete_answered i : safe (QDelete i) h = true -> answered (QDelete i).
Proof using Hr Hn Hm Hl.
  cbn. intros Hs. apply andb_prop in Hs as [Hi Hs]. apply Z.leb_le in Hi. destruct (decide (i = 0)) as [->|Hi0]; [eapply answered_same; [done|by apply spec_delete_nothing; left]|].
  destruct (A !! i) as [nd|] eqn:Ei.
  - destruct (delete_key_ok m n h A i nd Hr Ei Hi0 Hn Hm) as (D & h' & He & Hlen & HD & Hr'). exists (ADone true), h', (prune D A). cbn [exec]. rewrite He. split; [done|]. split; [by eapply spec_delete|auto with lia].
  - eapply answered_same; [|by apply spec_delete_nothing; right]. cbn [exec]. unfold delete_key. rewrite (proj2 (Z.eqb_neq i 0)) by done. pose proof (not_key h A Hr i Hi Ei) as Hk. destruct (slot h i) as [[]|]; try done. by destruct (Hk k).
Qed.

Lemma set_answered k name t data : safe (QSet k name t data) h = true -> answered (QSet k name t data).
Proof using Hr Hn Hm Hl.
  cbn. intros Hs. apply andb_prop in Hs as [Hk Hs]. apply Z.leb_le in Hk. destruct (slot h k) as [[|c| |]|] eqn:Ec; try done. destruct (key_in h A Hr k c Hk Ec) as [nd Hnd].
  destruct (set_value_ok h A k nd Hr Hnd n name t data Hn Hl) as (h' & He & Hlen & Hcase). unfold answered. cbn [exec]. rewrite He. cbn. destruct (a_value A k name) as [v|] eqn:Ev.
  - eexists _, _, _. split; [done|]. split; [by eapply spec_overwrite|done].
  - destruct Hcase as (new & Hf & Hr'). eexists _, _, _. split; [done|]. split; [by eapply spec_add|done].
Qed.

Lemma unset_answered k name : 0 <= k -> answered (QUnset k name).
Proof using Hr Hn Hm Hl.
  intros Hk. destruct (A !! k) as [nd|] eqn:Ek.
  - destruct (delete_value_ok h A k nd Hr Ek n name Hn) as (b & h' & He & Hlen & Hcase). unfold answered. cbn [exec]. rewrite He. destruct (a_value A k name) as [v|] eqn:Ev; destruct Hcase as [-> Hcase].
    + eexists _, _, _. split; [done|]. split; [by eapply spec_unset|auto with lia].
    + subst h'. eexists _, _, A. split; [done|]. split; [by constructor|auto with lia].
  - eapply answered_same; [|apply spec_unset_fails; unfold a_value; by rewrite Ek]. cbn [exec]. unfold delete_value. by rewrite (values_of_ok h A Hr), Ek by done.
Qed.

Lemma hive_step r : safe r h = true -> answered r.
Proof using Hr Hn Hm Hl.
  intros Hs. destruct r; try (by apply create_answered, Z.leb_le); try (by apply delete_answered); try (by apply set_answered); try (by apply unset_answered, Z.leb_le);
    cbn in Hs; repeat (apply andb_prop in Hs as [Hs ?]); reflect_bool.
  - eapply answered_same; [|constructor]. cbn [exec]. by rewrite (find_key_ok h A Hr).
  - eapply answered_same; [|constructor]. cbn [exec]. unfold open_key_by_path. by rewrite (open_parts_ok h A Hr).
  - eapply answered_same; [|constructor]. cbn [exec]. by rewrite (enum_key_ok h A Hr).
  - eapply answered_same; [|constructor]. cbn [exec]. by rewrite (key_count_ok h A Hr).
  - destruct (query_value_ok h A Hr n k name) as (o & He & Ho); [done|done|]. eapply answered_same; [|constructor]. cbn [exec]. rewrite He. cbn. unfold shown. by rewrite Ho.
  - eapply answered_same; [|constructor]. cbn [exec]. by rewrite (enum_value_ok h A Hr).
  - eapply answered_same; [|constructor]. cbn [exec]. by rewrite (value_count_ok h A Hr).
Qed.
End step.

(** ** Runs *)

Definition tree_new (name : str) : tree := {[0 := mkNode name NULL_CELL [] []]}.

Lemma rep_new name : rep (hive_new name) (tree_new name).
Proof.
  assert (forall i nd, tree_new name !! i = Some nd -> i = 0 /\ nd = mkNode name NULL_CELL [] []) as Hinv by (intros i nd Hi; unfold tree_new in Hi; apply lookup_singleton_Some in Hi as [<- <-]; done).
  assert (tree_ok (tree_new name)) as HA.
  { split.
    - exists (mkNode name NULL_CELL [] []). unfold tree_new; by rewrite lookup_singleton_eq.
    - intros i nd Hi. apply Hinv in Hi as [-> _]. done.
    - intros i nd s Hi. apply Hinv in Hi as [-> ->]. cbn. split; [set_solver|]. intros (ns & Hs & Hp). by apply Hinv in Hs as [_ ->].
    - intros i nd Hi. apply Hinv in Hi as [_ ->]. constructor.
    - intros i nd Hi Hi0. by apply Hinv in Hi as [-> _].
    - exists (λ _, O). intros i nd np Hi Hp. apply Hinv in Hi as [_ ->]. by apply Hinv in Hp as [? _].
    - intros i nd Hi. apply Hinv in Hi as [_ ->]. constructor.
    - intros i nd v Hi Hv. apply Hinv in Hi as [_ ->]. by apply elem_of_nil in Hv.
    - intros i j nd nj v w Hi Hj. apply Hinv in Hi as [-> _], Hj as [-> _]. done.
    - intros i s t ns nt Hs Ht. apply Hinv in Hs as [-> _], Ht as [-> _]. done.
    - intros i nd v w Hi Hv. apply Hinv in Hi as [_ ->]. by apply elem_of_nil in Hv. }
  split; [split; [done|done|..]|..].
  - intros i nd Hi. apply Hinv in Hi as [-> ->]. by exists (key_new name NULL_CELL).
  - intros i nd Hi. by apply Hinv in Hi as [_ ->].
  - intros i nd Hi. by apply Hinv in Hi as [_ ->].
  - intros i nd v Hi Hv. apply Hinv in Hi as [_ ->]. by apply elem_of_nil in Hv.
  - intros j c Hj Hs. left. destruct (decide (j = 0)) as [->|Hn]; [exists (mkNode name NULL_CELL [] []); unfold tree_new; by rewrite lookup_singleton_eq|]. exfalso.
    unfold slot, cell_at, hive_new in Hs. cbn [cells] in Hs. rewrite list_lookup_insert_ne in Hs by lia. destruct (replicate MAX_CELLS None !! Z.to_nat j) as [o|] eqn:Eo; [|done]. by apply lookup_replicate in Eo as [-> _].
Qed.

Fixpoint run (m n : nat) (rs : list hreq) (h : Hive) : option (list hans * Hive) :=
  match rs with
  | [] => Some ([], h)
  | r :: rs =>
      match exec m n r h with
      | Some (a, h) => match run m n rs h with Some (as', h) => Some (a :: as', h) | None => None end
      | None => None
      end
  end.
Fixpoint all_safe (m n : nat) (rs : list hreq) (h : Hive) : bool :=
  match rs with
  | [] => true
  | r :: rs => safe r h && match exec m n r h with Some (_, h) => all_safe m n rs h | None => true end
  end.
Inductive specs : tree -> list hreq -> list hans -> tree -> Prop :=
  | specs_nil A : specs A [] [] A
  | specs_cons A r a A1 rs as' A2 : spec A r a A1 -> specs A1 rs as' A2 -> specs A (r :: rs) (a :: as') A2.

Lemma run_ok m n rs : forall h A, rep h A -> (length (cells h) + length rs <= n)%nat -> (2 * n <= m)%nat -> Z.of_nat n < NULL_CELL -> all_safe m n rs h = true ->
  exists as' h' A', run m n rs h = Some (as', h') /\ specs A rs as' A' /\ rep h' A'.
Proof.
  induction rs as [|r rs IH]; intros h A Hr Hn Hm Hl Hs; [exists [], h, A; split_and!; [done|constructor|done]|]. cbn in Hs, Hn. apply andb_prop in Hs as [Hs1 Hs2].
  destruct (hive_step m n h A Hr ltac:(lia) ltac:(lia) ltac:(lia) r Hs1) as (a & h1 & A1 & He & Hsp & Hr1 & Hl1). rewrite He in Hs2.
  destruct (IH h1 A1 Hr1 ltac:(lia) Hm Hl Hs2) as (as' & h2 & A2 & Hrun & Hsps & Hr2). exists (a :: as'), h2, A2. cbn [run]. rewrite He, Hrun. split_and!; [done|by econstructor|done].
Qed.

(** C12. A hive is a tree of named keys with named values, at every length of run for
    which the cells stay below 2^32 - 1: from a new hive, every sequence of requests to find, open, create, enumerate,
    count and delete keys and to set, query, delete, enumerate and count values is
    served to its end, with walks of at most 2048 turns and one more for each
    request, and every answer and the cells at the end are those of the
    specification on trees: names are matched without case and are unique below a
    key, a new key or value comes first, deleting a key removes its whole subtree
    and nothing else, and no cell is in use but those of the tree.  The requests
    set values on keys only and do not name a value as a key to delete. *)
Theorem hive_refines_tree m n name rs : (2048 + length rs <= n)%nat -> (2 * n <= m)%nat -> Z.of_nat n < NULL_CELL -> all_safe m n rs (hive_new name) = true ->
  exists as' h A, run m n rs (hive_new name) = Some (as', h) /\ specs (tree_new name) rs as' A /\ rep h A.
Proof. intros Hn Hm Hl Hs. apply run_ok; [apply rep_new|by change (length (cells (hive_new name))) with 2048%nat|done..]. Qed.

Definition sample_requests : list hreq :=
  [QCreate 0 (bytes_of "Control"); QCreate 1 (bytes_of "TimeZone"); QCreate 0 (bytes_of "CONTROL"); QSet 2 (bytes_of "Bias") REG_DWORD [60; 0; 0; 0];
   QSet 2 (bytes_of "BIAS") REG_DWORD [0; 0; 0; 0]; QQuery 2 (bytes_of "bias"); QOpen 0 (bytes_of "control\timezone"); QDelete 1; QCount 0].

Lemma hive_refines_tree_witness : exists h A,
  run 4400 2200 sample_requests (hive_new (bytes_of "SYSTEM")) =
    Some ([AKey (Some 1); AKey (Some 2); AKey None; ADone true; ADone true; AVal (Some (bytes_of "Bias", REG_DWORD, [0; 0; 0; 0])); AKey (Some 2); ADone true; ANum 0], h) /\ rep h A.
Proof.
  destruct (hive_refines_tree 4400 2200 (bytes_of "SYSTEM") sample_requests) as (as' & h & A & Hrun & _ & Hr).
  - change (length sample_requests) with 9%nat. lia.
  - lia.
  - done.
  - vm_compute. reflexivity.
  - exists h, A. split; [|exact Hr]. rewrite Hrun. f_equal. f_equal.
    assert (fst <$> run 4400 2200 sample_requests (hive_new (bytes_of "SYSTEM")) = Some as') as Ha by (by rewrite Hrun). vm_compute in Ha. by injection Ha as <-.
Defined.

(** ** The mounted hives *)

(** An id of a key is decoded to the hive and the cell it was made from. *)
Lemma decode_encode hi c : 0 <= hi < 2 ^ 32 -> 0 <= c < 2 ^ 24 -> decode_cell (encode_cell hi c) = (hi, c).
Proof.
  intros Hh Hc. unfold decode_cell, encode_cell. rewrite (wrap_small 64) by (rewrite Z.shiftl_mul_pow2 by lia; lia). rewrite lor_shiftl by lia. rewrite Z.shiftr_div_pow2 by lia. f_equal.
  - rewrite Z.div_add_l, Z.div_small, Z.add_0_r by lia. by apply wrap_small.
  - change 0x00FFFFFF with (Z.ones 24). rewrite Z.land_ones by lia. rewrite Z.add_comm, Z.mod_add, Z.mod_small by lia. done.
Qed.

Inductive creq :=
  | COpen (id : Z) (path : str) | CCreate (id : Z) (name : str) | CDelete (id : Z) | CEnum (id index : Z)
  | CSet (id : Z) (name : str) (t : Z) (data : list Z) | CQuery (id : Z) (name : str) | CUnset (id : Z) (name : str) | CEnumValue (id index : Z).
Inductive cans := CId (id : Z) | CText (s : str) | CData (d : str * Z * list Z) | CDone.

Definition answer {A} (f : A -> cans) (r : result () A) : result () cans := match r with Ok x => Ok (f x) | Err e => Err e end.
Definition cm_exec (m n : nat) (r : creq) (cm : CmManager) : option (result () cans * CmManager) :=
  match r with
  | COpen id path => x ← cm_open_key n id path cm; Some (answer CId x, cm)
  | CCreate id name => '(x, cm) ← cm_create_key n id name cm; Some (answer CId x, cm)
  | CDelete id => '(x, cm) ← cm_delete_key m n id cm; Some (answer (λ _, CDone) x, cm)
  | CEnum id index => x ← cm_enum_key n id index cm; Some (answer CText x, cm)
  | CSet id name t data => '(x, cm) ← cm_set_value n id name t data cm; Some (answer (λ _, CDone) x, cm)
  | CQuery id name => x ← cm_query_value n id name cm; Some (answer (λ c, CData (shown c)) x, cm)
  | CUnset id name => '(x, cm) ← cm_delete_value n id name cm; Some (answer (λ _, CDone) x, cm)
  | CEnumValue id index => x ← cm_enum_value n id index cm; Some (answer CText x, cm)
  end.

(** The request to the hive, and the reply made of its answer. *)
Definition id_of (r : creq) : Z := match r with COpen id _ | CCreate id _ | CDelete id | CEnum id _ | CSet id _ _ _ | CQuery id _ | CUnset id _ | CEnumValue id _ => id end.
Definition to_hive (c : Z) (r : creq) : hreq :=
  match r with
  | COpen _ path => QOpen c path | CCreate _ name => QCreate c name | CDelete _ => QDelete c | CEnum _ index => QEnum c index
  | CSet _ name t data => QSet c name t data | CQuery _ name => QQuery c name | CUnset _ name => QUnset c name | CEnumValue _ index => QEnumValue c index
  end.
Definition reply (hi : Z) (a : hans) : result () cans :=
  match a with
  | AKey (Some x) => Ok (CId (encode_cell hi x)) | AName (Some s) => Ok (CText s) | AVal (Some d) => Ok (CData d) | ADone true => Ok CDone
  | _ => Err ()
  end.

Lemma cm_put_insert i m h (cm : CmManager) : cm !! i = Some m -> cm_put i h cm = <[i := with_hive h m]> cm.
Proof.
  intros Hi. unfold cm_put. apply list_eq. intros j. destruct (decide (j = i)) as [->|Hn]; [|by rewrite list_lookup_alter_ne, list_lookup_insert_ne by done].
  rewrite list_lookup_alter_eq, list_lookup_insert_eq, Hi; [done|by eapply lookup_lt_Some].
Qed.
Lemma cm_put_same i m (cm : CmManager) : cm !! i = Some m -> cm_put i (hm_hive m) cm = cm.
Proof. intros Hi. rewrite (cm_put_insert i m) by done. apply list_insert_id. rewrite Hi. by destruct m. Qed.

Lemma cm_exec_hive m n r cm i mt c : cm_at (id_of r) cm = Some (i, mt, c) -> cm !! i = Some mt ->
  cm_exec m n r cm = match exec m n (to_hive c r) (hm_hive mt) with Some (a, h) => Some (reply (Z.of_nat i) a, cm_put i h cm) | None => None end.
Proof.
  intros Hat Hi. pose proof (cm_put_same i mt cm Hi) as Hsame. destruct r; cbn [id_of] in Hat; cbn [cm_exec exec to_hive];
    unfold cm_open_key, cm_create_key, cm_delete_key, cm_enum_key, cm_set_value, cm_query_value, cm_delete_value, cm_enum_value; rewrite Hat.
  - destruct (open_key_by_path n (hm_hive mt) c path) as [[x|]|]; cbn; by rewrite ?Hsame.
  - destruct (create_key n (hm_hive mt) c name) as [[[x|] h]|]; done.
  - by destruct (delete_key m n c (hm_hive mt)).
  - destruct (enum_key n (hm_hive mt) c index) as [[x|]|]; cbn; by rewrite ?Hsame.
  - by destruct (set_value n (hm_hive mt) c name t data).
  - destruct (query_value n (hm_hive mt) c name) as [[x|]|]; cbn; by rewrite ?Hsame.
  - by destruct (delete_value n (hm_hive mt) c name) as [[[] h]|].
  - destruct (enum_value n (hm_hive mt) c index) as [[x|]|]; cbn; by rewrite ?Hsame.
Qed.
Lemma cm_exec_none m n r cm : cm_at (id_of r) cm = None -> cm_exec m n r cm = Some (Err (), cm).
Proof.
  intros Hat. destruct r; cbn [id_of] in Hat; cbn [cm_exec];
    unfold cm_open_key, cm_create_key, cm_delete_key, cm_enum_key, cm_set_value, cm_query_value, cm_delete_value, cm_enum_value; by rewrite Hat.
Qed.

(** Every mounted hive holds its tree, in at most [n] cells. *)
Definition mounted (n : nat) (cm : CmManager) (As : list tree) : Prop := Forall2 (λ (m : HiveMount) A, rep (hm_hive m) A /\ (length (cells (hm_hive m)) <= n)%nat) cm As.
Definition csafe (r : creq) (cm : CmManager) : bool := match cm_at (id_of r) cm with Some (_, mt, c) => safe (to_hive c r) (hm_hive mt) | None => true end.

(** What a request does to the trees. *)
Inductive cspec (As : list tree) (r : creq) : result () cans -> list tree -> Prop :=
  | cspec_none : As !! Z.to_nat (decode_cell (id_of r)).1 = None -> cspec As r (Err ()) As
  | cspec_some A a A' : As !! Z.to_nat (decode_cell (id_of r)).1 = Some A -> spec A (to_hive (decode_cell (id_of r)).2 r) a A' ->
      (forall x, a = AKey (Some x) -> decode_cell (encode_cell (decode_cell (id_of r)).1 x) = ((decode_cell (id_of r)).1, x)) ->
      cspec As r (reply (decode_cell (id_of r)).1 a) (<[Z.to_nat (decode_cell (id_of r)).1 := A']> As).

Lemma a_open_in h A parts : rep h A -> forall i x, a_open A i parts = Some x -> x = i \/ exists nd, A !! x = Some nd.
Proof.
  intros Hr. induction parts as [|p parts IH]; intros i x Hx; [cbn in Hx; left; congruence|]. cbn in Hx. destruct (a_find A i p) as [s|] eqn:Ef; [cbn in Hx|done].
  right. destruct (IH s x Hx) as [->|]; [|done]. destruct (a_find_in h A Hr i p s Ef) as (ns & Hs & _). eauto.
Qed.
(** A key that is an answer is the one the request was about or a key of the tree. *)
Lemma answer_key h h' A A' c r x : rep h A -> rep h' A' -> spec A (to_hive c r) (AKey (Some x)) A' -> 0 <= c -> 0 <= x /\ (x = c \/ x < Z.of_nat (length (cells h'))).
Proof.
  intros Hr Hr' Hs Hc. assert (x = c \/ exists nd, A' !! x = Some nd) as [->|[nd Hx]]; [|lia|].
  - destruct r; inversion Hs; subst; [by eapply a_open_in|]. right. eexists. by eapply create_new.
  - destruct (r_key h' A' (r_keys h' A' Hr') x nd Hx) as (k & Hk & _). apply slot_lt in Hk. pose proof (t_range A' x nd (r_tree h' A' (r_keys h' A' Hr')) Hx). lia.
Qed.
Lemma decode_range id : 0 <= id -> 0 <= (decode_cell id).1 < 2 ^ 32 /\ 0 <= (decode_cell id).2 < 2 ^ 24.
Proof. intros Hid. unfold decode_cell. cbn [fst snd]. split; [by apply wrap_bound|]. change 0x00FFFFFF with (Z.ones 24). rewrite Z.land_ones by lia. by apply Z.mod_pos_bound. Qed.

(** C13. The registry functions refine the trees: with every mounted hive holding a
    tree in fewer than 2^24 cells, a request of the registry interface is answered
    with an error exactly when its id names no mounted hive or the hive's answer is
    a failure; otherwise the id is decoded to the hive and the cell it was made
    from, the tree of that hive alone is changed as specified, every other hive and
    all mount points stay as they are, and an id that is returned decodes to the
    key it stands for.  The request sets a value on a key only, and what it deletes is
    not the cell of a value; the code does not test either, and an id kept after its
    key was deleted can name such a cell. *)
Theorem registry_refines_trees m n k r cm As : mounted k cm As -> (k <= n)%nat -> (2 * n <= m)%nat -> Z.of_nat k < 2 ^ 24 -> 0 <= id_of r -> csafe r cm = true ->
  exists a cm' As', cm_exec m n r cm = Some (a, cm') /\ cspec As r a As' /\ mounted (S k) cm' As' /\ mount_path <$> cm' = mount_path <$> cm.
Proof.
  intros Hm Hk Hf Hk24 Hid Hs. destruct (decode_range _ Hid) as [Hhi Hci]. unfold csafe, cm_at in Hs. destruct (decode_cell (id_of r)) as [hi ci] eqn:Ed. cbn [fst snd] in *.
  assert (mounted (S k) cm As) as HmS by (eapply Forall2_impl; [exact Hm|]; cbn; intros ? ? [? ?]; auto with lia).
  destruct (cm !! Z.to_nat hi) as [mt|] eqn:Ei.
  - cbn in Hs. destruct (Forall2_lookup_l _ _ _ _ _ Hm Ei) as (A & HA & Hr & Hlen).
    assert (cm_at (id_of r) cm = Some (Z.to_nat hi, mt, ci)) as Hat by (unfold cm_at; by rewrite Ed, Ei).
    destruct (hive_step m n (hm_hive mt) A Hr ltac:(lia) ltac:(lia) ltac:(unfold NULL_CELL; lia) _ Hs) as (a & h' & A' & He & Hsp & Hr' & Hl').
    rewrite (cm_exec_hive m n r cm _ mt ci Hat Ei), He, Z2Nat.id by lia. eexists _, _, (<[Z.to_nat hi := A']> As). split; [done|].
    pose proof (cspec_some As r A a A') as Hc. rewrite Ed in Hc. cbn [fst snd] in Hc. split_and!.
    + apply Hc; [done|done|]. intros x ->. destruct (answer_key _ _ _ _ _ _ _ Hr Hr' Hsp ltac:(lia)). apply decode_encode; [done|lia].
    + rewrite (cm_put_insert _ mt) by done. apply Forall2_insert; [exact HmS|]. cbn. auto with lia.
    + rewrite (cm_put_insert _ mt) by done. rewrite list_fmap_insert. apply list_insert_id. by rewrite list_lookup_fmap, Ei.
  - exists (Err ()), cm, As. rewrite cm_exec_none by (unfold cm_at; by rewrite Ed, Ei). split; [done|]. split_and!; [|done|done]. apply cspec_none. rewrite Ed. cbn. apply lookup_ge_None. apply lookup_ge_None in Ei. by rewrite <- (Forall2_length _ _ _ Hm).
Qed.

Definition sample_registry : CmManager := [mkMount (bytes_of "SYSTEM") (bytes_of "\Registry\Machine\System") (hive_new (bytes_of "SYSTEM")) 1; mkMount (bytes_of "USER") (bytes_of "\Registry\User") (hive_new (bytes_of "USER")) 2].

Lemma registry_refines_trees_witness : exists cm As', fst <$> cm_exec 4400 2200 (CCreate (encode_cell 1 0) (bytes_of "Software")) sample_registry = Some (Ok (CId (2 ^ 24 + 1))) /\ mounted 2049 cm As'.
Proof.
  destruct (registry_refines_trees 4400 2200 2048 (CCreate (encode_cell 1 0) (bytes_of "Software")) sample_registry [tree_new (bytes_of "SYSTEM"); tree_new (bytes_of "USER")]) as (a & cm & As' & He & _ & Hm & _).
  - assert (forall name, rep (hive_new name) (tree_new name) /\ (length (cells (hive_new name)) <= 2048)%nat) as Hnew by (intros name; split; [apply rep_new|done]).
    apply Forall2_cons. split; [apply Hnew|]. apply Forall2_cons. split; [apply Hnew|]. constructor.
  - lia.
  - lia.
  - done.
  - vm_compute. done.
  - vm_compute. done.
  - exists cm, As'. split; [|exact Hm]. vm_compute. reflexivity.
Defined.
