(* ===== verification/HiveBoot.v ===== *)
(** * HiveBoot.v: what the kernel writes into the registry at boot, and its files

    The defaults of [cm/init.rs] over the registry functions, and what the writing
    and the unloading of several hives do to their state. *)

From stdpp Require Import gmap.
From S2P Require Import Prelude Str Bytes Hive HiveOk HiveDelete HiveTree.
Open Scope Z_scope.

(** ** The defaults *)




Definition CONTROL : str := bytes_of "CurrentControlSet\Control".



(** [ensure_key_path], which makes the keys on the way. *)
Fixpoint ensure_parts (n : nat) (h : Hive) (curr : Z) (parts : list str) : option (option Z * Hive) :=
  match parts with
  | [] => Some (Some curr, h)
  | p :: parts =>
      found ← find_key n h curr p;
      match found with
      | Some i => ensure_parts n h i parts
      | None => '(new, h) ← create_key n h curr p; match new with Some i => ensure_parts n h i parts | None => Some (None, h) end
      end
  end.
Definition ensure_key_path (n : nat) (h : Hive) (start : Z) (path : str) : option (option Z * Hive) := ensure_parts n h start (filter (λ p, p ≠ []) (split 92 path)).


(** ** Paths *)

(** Whoever was found is still found. *)
Record grows (A A' : tree) : Prop := {
  g_find j p s : a_find A j p = Some s -> a_find A' j p = Some s;
  g_key j nj : A !! j = Some nj -> exists x, A' !! j = Some x;
}.
Lemma grows_refl A : grows A A.
Proof. split; eauto. Qed.
Lemma grows_trans A B C : grows A B -> grows B C -> grows A C.
Proof. intros H1 H2. split; [intros j p s Hf; by apply H2, H1|]. intros j nj Hj. apply H1 in Hj as [x Hx]. by eapply (g_key B C H2). Qed.

Lemma a_find_named A j p s : a_find A j p = Some s -> named A p s = true.
Proof. unfold a_find. destruct (A !! j); [cbn|done]. destruct (list_find _ _) as [[x y]|] eqn:E; [|done]. intros [= ->]. by apply list_find_Some in E as (_ & ? & _). Qed.

Lemma create_grows h A p nd name new : rep h A -> A !! p = Some nd -> fresh_id A new -> a_find A p name = None -> grows A (a_create p nd name new A).
Proof.
  intros Hr Hp Hf Hnone. split; [|intros j nj Hj; destruct (create_old A p nd name new Hp Hf j nj Hj) as (x & Hx & _); eauto].
  intros j q s Hfind. pose proof (a_find_named _ _ _ _ Hfind) as Hs. unfold a_find in Hfind |- *. destruct (A !! j) as [nj|] eqn:Ej; [cbn in Hfind|done].
  destruct (create_old A p nd name new Hp Hf j nj Ej) as (x & Hx & (_ & _ & _ & Hsubs)). rewrite Hx. cbn. rewrite Hsubs.
  assert (list_find (λ t, named (a_create p nd name new A) q t = true) (an_subs nj) = list_find (λ t, named A q t = true) (an_subs nj)) as Hext.
  { assert (forall t, t ∈ an_subs nj -> named (a_create p nd name new A) q t = named A q t) as Hnm.
    { intros t Ht. destruct (sub_in h A (r_keys h A Hr) j nj t Ej Ht) as (nt & Hnt & _). destruct (create_old A p nd name new Hp Hf t nt Hnt) as (y & Hy & (Hname & _)). unfold named. by rewrite Hnt, Hy, Hname. }
    clear -Hnm. induction (an_subs nj) as [|t l IH]; [done|]. cbn [list_find]. rewrite IH by (intros u Hu; apply Hnm; by right). pose proof (Hnm t ltac:(left)) as Ht.
    destruct (named A q t) eqn:E1, (named (a_create p nd name new A) q t) eqn:E2; try done; repeat case_decide; done. }
  case_decide as Hd; [|by rewrite Hext]. subst j. cbn [list_find]. assert (named (a_create p nd name new A) q new = eq_ignore_case name q) as Hnew by (unfold named; by rewrite create_new).
  rewrite decide_False; [rewrite Hext; by destruct (list_find _ (an_subs nj)) as [[]|]|]. rewrite Hnew. intros Hq. assert (nj = nd) as -> by congruence. unfold a_find in Hnone. rewrite Hp in Hnone. cbn in Hnone. apply fmap_None, list_find_None in Hnone.
  destruct (list_find _ (an_subs nd)) as [[i y]|] eqn:El; [|done]. injection Hfind as ->. apply list_find_Some in El as (Hl & _). eapply Forall_lookup_1 in Hnone; [|exact Hl]. apply Hnone. unfold named in *.
  destruct (A !! s) as [ns|]; [|done]. unfold eq_ignore_case in *. apply bool_decide_eq_true in Hs, Hq. apply bool_decide_eq_true. congruence.
Qed.

Lemma ensure_parts_ok n parts : forall h A curr nd, rep h A -> A !! curr = Some nd -> (length (cells h) + length parts <= n)%nat -> Z.of_nat n < NULL_CELL ->
  exists i h' A', ensure_parts n h curr parts = Some (Some i, h') /\ rep h' A' /\ grows A A' /\ a_open A' curr parts = Some i /\ (length (cells h') <= length (cells h) + length parts)%nat.
Proof.
  induction parts as [|p parts IH]; intros h A curr nd Hr Hc Hn Hl; [exists curr, h, A; split_and!; [done|done|apply grows_refl|done|lia]|]. cbn [ensure_parts a_open length] in *. pose proof (t_range A curr nd (r_tree h A (r_keys h A Hr)) Hc) as Hc0.
  rewrite (find_key_ok h A Hr) by (done || lia). cbn [mbind option_bind]. destruct (a_find A curr p) as [s|] eqn:Ef.
  - destruct (a_find_in h A Hr curr p s Ef) as (ns & Hs & _). destruct (IH h A s ns Hr Hs ltac:(lia) Hl) as (i & h' & A' & He & Hr' & Hg & Ho & Hlen). exists i, h', A'. split_and!; [done|done|done| |lia].
    rewrite (g_find A A' Hg _ _ _ Ef). done.
  - destruct (create_key_ok n h A curr p Hr Hc0 ltac:(lia) ltac:(lia)) as (r & h1 & -> & Hl1 & Hcase). rewrite Hc, Ef in Hcase. destruct Hcase as (new & -> & Hf & Hr1). cbn [mbind option_bind].
    destruct (IH h1 _ new _ Hr1 (create_new A curr nd p new Hc Hf) ltac:(lia) Hl) as (i & h' & A' & He & Hr' & Hg & Ho & Hlen). exists i, h', A'. split_and!; [done|done|eapply grows_trans; [by eapply create_grows|done]| |lia].
    rewrite (g_find _ _ Hg curr p new); [done|]. unfold a_find. destruct (create_old A curr nd p new Hc Hf curr nd Hc) as (x & Hx & (_ & _ & _ & Hsubs)). rewrite Hx. cbn. rewrite Hsubs, decide_True by done. cbn [list_find].
    rewrite decide_True; [done|]. unfold named. rewrite create_new by done. apply eq_ignore_case_refl.
Qed.

(** [ensure_key_path] makes a path: for every key of a hive and every path, it
    ends with a key, and opening the path from the same key then gives that key; the
    keys that could be opened before can still be opened. *)
Theorem ensure_key_path_opens n h A start nd path : rep h A -> A !! start = Some nd -> (length (cells h) + length path < n)%nat -> Z.of_nat n < NULL_CELL ->
  exists i h' A', ensure_key_path n h start path = Some (Some i, h') /\ rep h' A' /\ grows A A' /\ open_key_by_path n h' start path = Some (Some i).
Proof.
  intros Hr Hs Hn Hl. unfold ensure_key_path, open_key_by_path. set (parts := filter _ _). assert (length parts <= S (length path))%nat as Hp.
  { etransitivity; [apply length_filter|]. apply length_split. }
  destruct (ensure_parts_ok n parts h A start nd Hr Hs ltac:(lia) Hl) as (i & h' & A' & He & Hr' & Hg & Ho & Hlen). exists i, h', A'. split_and!; [done..|].
  rewrite (open_parts_ok h' A' Hr'), Ho; [done|by eapply (t_range A _ _ (r_tree h A (r_keys h A Hr)))|lia].
Qed.

Lemma ensure_key_path_opens_witness : exists i h', ensure_key_path 2100 (hive_new []) 0 CONTROL = Some (Some i, h') /\ open_key_by_path 2100 h' 0 CONTROL = Some (Some i).
Proof.
  destruct (ensure_key_path_opens 2100 (hive_new []) (tree_new []) 0 (mkNode [] NULL_CELL [] []) CONTROL) as (i & h' & A' & He & _ & _ & Ho).
  - apply rep_new.
  - done.
  - change (length (cells (hive_new []))) with 2048%nat. change (length CONTROL) with 25%nat. lia.
  - done.
  - eauto.
Defined.

(** A key whose name contains the separator is on no path. *)
Lemma lowercase_separator b : to_ascii_lowercase b = 92 -> b = 92.
Proof. unfold to_ascii_lowercase, in_range. case_if; lia. Qed.
Lemma same_name_separator a b : eq_ignore_case a b = true -> 92 ∈ a -> 92 ∈ b.
Proof.
  intros He Ha. apply bool_decide_eq_true in He. assert (92 ∈ (to_ascii_lowercase <$> b)) as Hb by (rewrite <- He; apply list_elem_of_fmap; by exists 92).
  apply list_elem_of_fmap in Hb as (c & Hc & Hb). by rewrite <- (lowercase_separator c) by done.
Qed.
Lemma separator_key_unreachable n h A s ns start path : rep h A -> A !! s = Some ns -> 92 ∈ an_name ns -> (length (cells h) <= n)%nat -> 0 <= start -> start ≠ s ->
  open_key_by_path n h start path ≠ Some (Some s).
Proof.
  intros Hr Hs Hname Hn Hst Hne. unfold open_key_by_path. rewrite (open_parts_ok h A Hr) by done. intros [= Ho]. set (parts := filter _ _) in Ho.
  assert (Forall (λ p, 92 ∉ p) parts) as Hparts by (apply Forall_forall; intros p Hp; apply list_elem_of_filter in Hp as [_ Hp]; eapply Forall_forall in Hp; [exact Hp|apply split_pieces_clean]).
  clearbody parts. clear Hst. revert start Hne Ho. induction Hparts as [|p parts Hp Hparts IH]; intros start Hne Ho; [cbn in Ho; congruence|]. cbn in Ho. destruct (a_find A start p) as [t|] eqn:Ef; [cbn in Ho|done].
  eapply (IH t); [|done]. intros ->. apply a_find_named in Ef. unfold named in Ef. rewrite Hs in Ef. by apply Hp, (same_name_separator (an_name ns)).
Qed.

(** ** The first hive at boot *)







Section boot.
Context (n : nat) (rest : list HiveMount) (A0 : tree) (Hn : Z.of_nat n < 2 ^ 24).











End boot.





(** ** Several hives *)

(** [cm_flush_all_hives] numbers the hives after leaving out the clean ones and
    then marks the hive at that number: here the write of [a] fails and that of [b]
    succeeds, and it is [a] that is marked clean, so that its changes are not
    written at the next flush either. *)
Theorem flush_all_loses_hive write_file (c a b : HiveMount) : is_dirty (hm_hive c) = false -> is_dirty (hm_hive a) = true -> is_dirty (hm_hive b) = true ->
  write_file (hm_hive a) = false -> write_file (hm_hive b) = true ->
  cm_flush_all_hives write_file [c; a; b] = [c; with_hive (mark_clean (hm_hive a)) a; b].
Proof.
  intros Hc Ha Hb Hfa Hfb. unfold cm_flush_all_hives. rewrite filter_cons_False by congruence. rewrite !filter_cons_True by done. cbn [filter list_filter imap foldl].
  unfold flush_hive_to_vfs. cbn. by rewrite Ha, Hb, Hfa, Hfb.
Qed.

(** A hive that is unloaded leaves its place to the next one: an id of a key of a
    later hive then names a cell of the hive after it, or none. *)
Theorem unload_moves_ids write_file path (cm : CmManager) i m id : list_find (λ m : HiveMount, mount_path m = path) cm = Some (i, m) ->
  is_dirty (hm_hive m) = false -> (i < Z.to_nat (decode_cell id).1)%nat ->
  cm_at id (cm_unload_hive write_file path cm).2 = (m' ← cm !! S (Z.to_nat (decode_cell id).1); Some (Z.to_nat (decode_cell id).1, m', (decode_cell id).2)).
Proof.
  intros Hf Hd Hi. unfold cm_unload_hive, find_hive_by_path, cm_unmount. rewrite Hf. cbn [fmap option_fmap option_map snd]. rewrite Hd. cbn [andb snd]. unfold cm_at. destruct (decode_cell id) as [hi ci]. cbn [fst snd] in *.
  by rewrite list_lookup_delete_ge by lia.
Qed.
