(* ===== verification/Clock.v ===== *)
(** * Clock.v: date and time

    The clock driver ([drivers/rtc]), which keeps the date in the CMOS registers,
    the bytes in which it is passed between the driver and the kernel
    ([drivers/hw/rtc.rs]), the check of a date that is to be set
    ([validate_datetime]) and the local time ([cm/timezone.rs]).

    The CMOS is a register file: a register holds what was last written to it.  It
    does not tick between two accesses, which is what [wait_not_updating] waits for
    before a write.  Loops have a number of turns as fuel. *)

From S2P Require Import Prelude Str Bytes Hive HiveBoot.
Open Scope Z_scope.

Record DateTime := mkDT { second : Z; minute : Z; hour : Z; day : Z; month : Z; year : Z }.

(** ** The driver *)

Definition REG_SECONDS : Z := 0x00.
Definition REG_MINUTES : Z := 0x02.
Definition REG_HOURS : Z := 0x04.
Definition REG_DAY : Z := 0x07.
Definition REG_MONTH : Z := 0x08.
Definition REG_YEAR : Z := 0x09.
Definition REG_STATUS_B : Z := 0x0B.
Definition STATUS_B_BCD : Z := 0x04.
Definition STATUS_B_24H : Z := 0x02.

Definition bcd_to_bin (bcd : Z) : Z := u8 (u8 (Z.shiftr (Z.land bcd 0xF0) 4 * 10) + Z.land bcd 0x0F).
Definition bin_to_bcd (bin : Z) : Z := Z.lor (u8 (Z.shiftl (bin / 10) 4)) (bin `mod` 10).

Abbreviation cmos := (Z -> Z).
Definition read_cmos (reg : Z) (s : cmos) : Z := s reg.
Definition write_cmos (reg val : Z) (s : cmos) : cmos := λ r, if r =? reg then val else s r.

(** Six bytes of a word. *)
Definition pack_bytes (a b c d e f : Z) : Z :=
  Z.lor (Z.lor (Z.lor (Z.lor (Z.lor a (Z.shiftl b 8)) (Z.shiftl c 16)) (Z.shiftl d 24)) (Z.shiftl e 32)) (Z.shiftl f 40).
Definition byte_at (packed k : Z) : Z := u8 (Z.shiftr packed k).

Definition write_hour (enc : Z -> Z) (h24 : bool) (hour : Z) : Z :=
  if h24 then enc hour
  else
    let h := if hour `mod` 12 =? 0 then 12 else hour `mod` 12 in
    if 12 <=? hour then Z.lor (enc h) 0x80 else enc h.
Definition write_datetime (packed : Z) (s : cmos) : cmos :=
  let reg_b := read_cmos REG_STATUS_B s in
  let bcd := Z.land reg_b STATUS_B_BCD =? 0 in
  let h24 := negb (Z.land reg_b STATUS_B_24H =? 0) in
  let enc v := if bcd then bin_to_bcd v else v in
  let s := write_cmos REG_SECONDS (enc (u8 packed)) s in
  let s := write_cmos REG_MINUTES (enc (byte_at packed 8)) s in
  let s := write_cmos REG_HOURS (write_hour enc h24 (byte_at packed 16)) s in
  let s := write_cmos REG_DAY (enc (byte_at packed 24)) s in
  let s := write_cmos REG_MONTH (enc (byte_at packed 32)) s in
  write_cmos REG_YEAR (enc (byte_at packed 40)) s.

Definition read_datetime (s : cmos) : Z :=
  let dec v := if Z.land (read_cmos REG_STATUS_B s) STATUS_B_BCD =? 0 then bcd_to_bin v else v in
  pack_bytes (dec (read_cmos REG_SECONDS s)) (dec (read_cmos REG_MINUTES s)) (dec (read_cmos REG_HOURS s))
             (dec (read_cmos REG_DAY s)) (dec (read_cmos REG_MONTH s)) (dec (read_cmos REG_YEAR s)).

(** The flags of the driver, and its life: the result is what the function returns. *)
Record RtcDriver := mkRtc { initialized : bool; active : bool }.
Definition driver_init (d : RtcDriver) : Z * RtcDriver := if initialized d then (-1, d) else (0, mkRtc true (active d)).
Definition driver_activate (d : RtcDriver) : Z * RtcDriver := if initialized d then (0, mkRtc true true) else (-1, d).
Definition driver_fini (d : RtcDriver) : RtcDriver := mkRtc false false.
Definition driver_is_active (d : RtcDriver) : Z := if active d then 1 else 0.

Inductive rtc_event := RtcRead | RtcWrite (data0 : Z) | OtherEvent.
(** [driver_on_event]: the result, the registers and the data that is published. *)
Definition driver_on_event (d : RtcDriver) (ev : rtc_event) (s : cmos) : Z * cmos * option Z :=
  if negb (active d) then (-1, s, None)
  else
    match ev with
    | RtcWrite data0 => let s := write_datetime data0 s in (0, s, Some (read_datetime s))
    | RtcRead => (0, s, Some (read_datetime s))
    | OtherEvent => (1, s, None)
    end.

(** ** The kernel's side *)

Definition pack_datetime (dt : DateTime) : Z := pack_bytes (second dt) (minute dt) (hour dt) (day dt) (month dt) (year dt).
(** [rtc_data_handler], which stores the fields, and the reading of them. *)
Definition rtc_data_handler (packed : Z) : DateTime := mkDT (u8 packed) (byte_at packed 8) (byte_at packed 16) (byte_at packed 24) (byte_at packed 32) (byte_at packed 40).

Definition validate_datetime (dt : DateTime) : bool :=
  if (month dt <? 1) || (12 <? month dt) then false
  else if (day dt <? 1) || (31 <? day dt) then false
  else if (23 <? hour dt) || (59 <? minute dt) || (60 <? second dt) then false
  else
    let max_day :=
      if bool_decide (month dt ∈ [1; 3; 5; 7; 8; 10; 12]) then Some 31
      else if bool_decide (month dt ∈ [4; 6; 9; 11]) then Some 30
      else if month dt =? 2 then Some (if year dt `mod` 4 =? 0 then 29 else 28)
      else None in
    match max_day with Some m => day dt <=? m | None => false end.

(** ** Local time *)

Record TimeZone := mkTZ {
  utc_offset_minutes : Z; dst_offset_minutes : Z; dst_enabled : bool;
  dst_start_month : Z; dst_start_day : Z; dst_end_month : Z; dst_end_day : Z;
}.
Definition UTC : TimeZone := mkTZ 0 0 false 3 1 10 1.

Definition in_dst (tz : TimeZone) (month day : Z) : bool :=
  if negb (dst_enabled tz) then false
  else
    let cur := month * 100 + day in
    let start := dst_start_month tz * 100 + dst_start_day tz in
    let end' := dst_end_month tz * 100 + dst_end_day tz in
    if start <=? end' then (start <=? cur) && (cur <? end') else (start <=? cur) || (cur <? end').
Definition offset_for (tz : TimeZone) (month day : Z) : Z :=
  if in_dst tz month day then i32 (utc_offset_minutes tz + dst_offset_minutes tz) else utc_offset_minutes tz.

Definition days_in_month (year month : Z) : Z :=
  if bool_decide (month ∈ [1; 3; 5; 7; 8; 10; 12]) then 31
  else if bool_decide (month ∈ [4; 6; 9; 11]) then 30
  else if month =? 2 then (if year `mod` 4 =? 0 then 29 else 28)
  else 30.

(** The three loops of [add_minutes]. *)
Fixpoint whole_days_down (n : nat) (total day : Z) : option (Z * Z) :=
  if total <? 0 then match n with O => None | S n => whole_days_down n (total + 1440) (day - 1) end else Some (total, day).
Fixpoint whole_days_up (n : nat) (total day : Z) : option (Z * Z) :=
  if 1440 <=? total then match n with O => None | S n => whole_days_up n (total - 1440) (day + 1) end else Some (total, day).
Definition month_turn (day month year : Z) : option (Z * Z * Z) :=
  let dim := days_in_month (u8 year) (u8 month) in
  if day <? 1 then
    let '(month, year) := if month - 1 <? 1 then (12, if year =? 0 then 99 else year - 1) else (month - 1, year) in
    Some (day + days_in_month (u8 year) (u8 month), month, year)
  else if dim <? day then
    let '(month, year) := if 12 <? month + 1 then (1, if 99 <=? year then 0 else year + 1) else (month + 1, year) in
    Some (day - dim, month, year)
  else None.
Fixpoint months (n : nat) (day month year : Z) : option (Z * Z * Z) :=
  match month_turn day month year with
  | None => Some (day, month, year)
  | Some (day, month, year) => match n with O => None | S n => months n day month year end
  end.
Definition add_minutes (n : nat) (dt : DateTime) (delta : Z) : option DateTime :=
  '(total, d) ← whole_days_down n (i32 (hour dt * 60 + minute dt + delta)) (day dt);
  '(total, d) ← whole_days_up n total d;
  match months n d (month dt) (year dt) with
  | Some (d, m, y) => Some (mkDT (second dt) (u8 (total `mod` 60)) (u8 (total / 60)) (u8 d) (u8 m) (u8 y))
  | None => None
  end.
Definition to_local (n : nat) (tz : TimeZone) (utc : DateTime) : option DateTime := add_minutes n utc (offset_for tz (month utc) (day utc)).

(** [load]: [n] is the fuel of the walks in the registry. *)
Definition TZ_KEY : str := bytes_of "CurrentControlSet\Control\TimeZoneInformation".
Definition dword_of (n : nat) (key : Z) (name : str) (cm : CmManager) : option (option Z) :=
  v ← cm_query_value n key name cm;
  Some (match v with Ok v => if (length (val_data v) <? 4)%nat then None else i32 <$> get_le 4 (val_data v) 0 | Err _ => None end).
Definition clamp (lo hi z : Z) : Z := Z.max lo (Z.min hi z).
Definition load (n : nat) (cm : CmManager) : option TimeZone :=
  key ← cm_open_key n 0 TZ_KEY cm;
  match key with
  | Err _ => Some UTC
  | Ok key =>
      utc ← dword_of n key (bytes_of "UtcOffsetMinutes") cm;
      dst ← dword_of n key (bytes_of "DaylightOffsetMinutes") cm;
      enabled ← dword_of n key (bytes_of "DaylightEnabled") cm;
      sm ← dword_of n key (bytes_of "DaylightStartMonth") cm;
      sd ← dword_of n key (bytes_of "DaylightStartDay") cm;
      em ← dword_of n key (bytes_of "DaylightEndMonth") cm;
      ed ← dword_of n key (bytes_of "DaylightEndDay") cm;
      Some (mkTZ (default 0 utc) (default 0 dst) (default false ((λ v, negb (v =? 0)) <$> enabled)) (default 3 (clamp 1 12 <$> sm)) (default 1 (clamp 1 31 <$> sd))
                 (default 10 (clamp 1 12 <$> em)) (default 1 (clamp 1 31 <$> ed)))
  end.

(** ** Bytes and registers *)

Lemma lor_low a b n : 0 <= n -> 0 <= a < 2 ^ n -> Z.lor a (Z.shiftl b n) = a + b * 2 ^ n.
Proof. intros Hn Ha. rewrite Z.lor_comm, lor_shiftl by done. lia. Qed.
Lemma pack_bytes_sum a b c d e f : 0 <= a < 256 -> 0 <= b < 256 -> 0 <= c < 256 -> 0 <= d < 256 -> 0 <= e < 256 -> 0 <= f < 256 ->
  pack_bytes a b c d e f = a + b * 2 ^ 8 + c * 2 ^ 16 + d * 2 ^ 24 + e * 2 ^ 32 + f * 2 ^ 40.
Proof. intros. unfold pack_bytes. rewrite !lor_low by (rewrite ?lor_low; repeat rewrite lor_low; lia). done. Qed.
Lemma unpack_pack a b c d e f : 0 <= a < 256 -> 0 <= b < 256 -> 0 <= c < 256 -> 0 <= d < 256 -> 0 <= e < 256 -> 0 <= f < 256 ->
  rtc_data_handler (pack_bytes a b c d e f) = mkDT a b c d e f.
Proof.
  intros. rewrite pack_bytes_sum by done. unfold rtc_data_handler, byte_at, wrap. rewrite !Z.shiftr_div_pow2 by lia. f_equal; Z.to_euclidean_division_equations; lia.
Qed.

Definition byte (z : Z) : Prop := 0 <= z < 256.
Definition bytes_ok (dt : DateTime) : Prop := byte (second dt) /\ byte (minute dt) /\ byte (hour dt) /\ byte (day dt) /\ byte (month dt) /\ byte (year dt).

(** A check on every value of a range. *)
Lemma check_range (P : Z -> bool) n z : forallb P (Z.of_nat <$> seq 0 n) = true -> 0 <= z < Z.of_nat n -> P z = true.
Proof.
  intros Hall Hz. rewrite forallb_forall in Hall. apply Hall. apply list_elem_of_In, list_elem_of_fmap. exists (Z.to_nat z). rewrite Z2Nat.id by lia. split; [done|]. apply elem_of_seq. lia.
Qed.
Lemma bcd_roundtrip v : 0 <= v < 160 -> bcd_to_bin (bin_to_bcd v) = v.
Proof. intros Hv. apply Z.eqb_eq. apply (check_range (λ v, bcd_to_bin (bin_to_bcd v) =? v) 160); [by vm_compute|lia]. Qed.

(** The driver after [driver_init] and [driver_activate]. *)
Definition running : RtcDriver := (driver_activate (driver_init (mkRtc false false)).2).2.

Definition bcd_mode (s : cmos) : bool := Z.land (s REG_STATUS_B) STATUS_B_BCD =? 0.
Definition mode_24h (s : cmos) : bool := negb (Z.land (s REG_STATUS_B) STATUS_B_24H =? 0).
Definition enc (s : cmos) (v : Z) : Z := if bcd_mode s then bin_to_bcd v else v.
Definition dec (s : cmos) (v : Z) : Z := if bcd_mode s then bcd_to_bin v else v.

Lemma read_write p s : read_datetime (write_datetime p s) =
  let dt := rtc_data_handler p in
  pack_bytes (dec s (enc s (second dt))) (dec s (enc s (minute dt))) (dec s (write_hour (enc s) (mode_24h s) (hour dt)))
             (dec s (enc s (day dt))) (dec s (enc s (month dt))) (dec s (enc s (year dt))).
Proof. reflexivity. Qed.
Lemma dec_enc s v : 0 <= v < 160 -> dec s (enc s v) = v.
Proof. intros Hv. unfold dec, enc. destruct (bcd_mode s); [by apply bcd_roundtrip|done]. Qed.

Lemma validate_ranges dt : validate_datetime dt = true -> bytes_ok dt ->
  0 <= second dt <= 60 /\ 0 <= minute dt <= 59 /\ 0 <= hour dt <= 23 /\ 1 <= day dt <= 31 /\ 1 <= month dt <= 12.
Proof. unfold validate_datetime, bytes_ok, byte. intros Hv Hb. do 3 (destruct (_ || _) eqn:? in Hv; [done|]). clear Hv. lia. Qed.

(** Setting a date that passes the check, with the hour that comes back. *)
Lemma set_reads dt s : validate_datetime dt = true -> bytes_ok dt -> year dt < 160 ->
  let h := dec s (write_hour (enc s) (mode_24h s) (hour dt)) in byte h ->
  exists s' p, driver_on_event running (RtcWrite (pack_datetime dt)) s = (0, s', Some p) /\ driver_on_event running RtcRead s' = (0, s', Some p) /\
    rtc_data_handler p = mkDT (second dt) (minute dt) h (day dt) (month dt) (year dt).
Proof.
  intros Hv Hb Hy h Hh. pose proof (validate_ranges dt Hv Hb). destruct Hb as (B1 & B2 & B3 & B4 & B5 & B6). eexists _, _. split; [done|]. split; [done|]. rewrite read_write. unfold pack_datetime, byte in *.
  rewrite (unpack_pack (second dt) (minute dt) (hour dt) (day dt) (month dt) (year dt)) by done. cbn [second minute hour day month year]. rewrite !dec_enc by lia. fold h. rewrite unpack_pack by lia. done.
Qed.

(** C39. The clock keeps what it is set to: in 24-hour mode, coded or binary, a date
    that passes [validate_datetime], of a year below 160, is written to the
    registers so that the answer to the write, and every later reading, is the same
    date.  The registers are those of a clock that stands still between the calls. *)
Theorem clock_roundtrip dt s : validate_datetime dt = true -> bytes_ok dt -> year dt < 160 -> mode_24h s = true ->
  exists s' p, driver_on_event running (RtcWrite (pack_datetime dt)) s = (0, s', Some p) /\ driver_on_event running RtcRead s' = (0, s', Some p) /\ rtc_data_handler p = dt.
Proof.
  intros Hv Hb Hy H24. pose proof (validate_ranges dt Hv Hb). assert (dec s (write_hour (enc s) (mode_24h s) (hour dt)) = hour dt) as Hh by (rewrite H24; cbn; apply dec_enc; lia).
  destruct (set_reads dt s Hv Hb Hy) as (s' & p & H1 & H2 & H3); [rewrite Hh; unfold byte; lia|]. exists s', p. rewrite Hh in H3. split_and!; [done|done|]. rewrite H3. by destruct dt.
Qed.

Definition sample_date : DateTime := mkDT 30 59 23 29 2 24.
Lemma clock_roundtrip_witness : exists s' p, driver_on_event running (RtcWrite (pack_datetime sample_date)) (λ r, if r =? REG_STATUS_B then 2 else 0) = (0, s', Some p) /\ rtc_data_handler p = sample_date.
Proof.
  destruct (clock_roundtrip sample_date (λ r, if r =? REG_STATUS_B then 2 else 0)) as (s' & p & H1 & _ & H3); [done|unfold bytes_ok, byte, sample_date; cbn; lia|done|done|eauto].
Defined.

(** In 12-hour mode the hours from one to eleven come back; midnight comes back as
    twelve, and every hour from noon on with the flag for the afternoon read as part
    of the number, as 81 to 92 or as 129 to 140: [read_datetime] does not take the
    mode into account that [write_datetime] honours. *)
Theorem twelve_hour_clock_wrong dt s : validate_datetime dt = true -> bytes_ok dt -> year dt < 160 -> mode_24h s = false ->
  exists s' p, driver_on_event running (RtcWrite (pack_datetime dt)) s = (0, s', Some p) /\
    rtc_data_handler p = mkDT (second dt) (minute dt)
      (if hour dt =? 0 then 12 else if hour dt <? 12 then hour dt else (if bcd_mode s then 80 else 128) + (if hour dt =? 12 then 12 else hour dt - 12))
      (day dt) (month dt) (year dt).
Proof.
  intros Hv Hb Hy H24. pose proof (validate_ranges dt Hv Hb) as (_ & _ & Hh & _). set (h := if hour dt =? 0 then 12 else _).
  assert (dec s (write_hour (enc s) (mode_24h s) (hour dt)) = h) as He.
  { unfold h. rewrite H24. unfold dec, enc. apply Z.eqb_eq. destruct (bcd_mode s).
    - apply (check_range (λ x, bcd_to_bin (write_hour bin_to_bcd false x) =? (if x =? 0 then 12 else if x <? 12 then x else 80 + (if x =? 12 then 12 else x - 12))) 24); [by vm_compute|lia].
    - apply (check_range (λ x, write_hour (λ v, v) false x =? (if x =? 0 then 12 else if x <? 12 then x else 128 + (if x =? 12 then 12 else x - 12))) 24); [by vm_compute|lia]. }
  destruct (set_reads dt s Hv Hb Hy) as (s' & p & H1 & _ & H3).
  - rewrite He. unfold h, byte. repeat case_if; lia.
  - exists s', p. rewrite He in H3. done.
Qed.

(** [validate_datetime] lets every year pass, of which those from 160 on are stored
    as others. *)
Example year_not_checked : validate_datetime (mkDT 0 0 0 1 1 161) = true /\
  option_map rtc_data_handler (driver_on_event running (RtcWrite (pack_datetime (mkDT 0 0 0 1 1 161))) (λ _, 2)).2 = Some (mkDT 0 0 0 1 1 1).
Proof. split; vm_compute; reflexivity. Qed.

(** ** The calendar *)

(** Days from the first of January 2000 to the first of a month. *)
Definition days_before (y m : Z) : Z := 365 * y + (y + 3) / 4 + foldr Z.add 0 ((λ k, days_in_month y (Z.of_nat k)) <$> seq 1 (Z.to_nat (m - 1))).
Definition ordinal (d m y : Z) : Z := days_before y m + d - 1.
Definition minutes_of (dt : DateTime) : Z := ordinal (day dt) (month dt) (year dt) * 1440 + hour dt * 60 + minute dt.
(** The hundred years the clock goes round. *)
Definition CENTURY_DAYS : Z := 36525.

Definition month_ok (m y : Z) : Prop := 1 <= m <= 12 /\ 0 <= y < 100.
Definition date_ok (dt : DateTime) : Prop := month_ok (month dt) (year dt) /\ 1 <= day dt <= days_in_month (year dt) (month dt) /\ 0 <= hour dt < 24 /\ 0 <= minute dt < 60.

Lemma dim_range y m : 28 <= days_in_month y m <= 31.
Proof. unfold days_in_month. repeat case_if; lia. Qed.

Lemma sum_snoc l x : foldr Z.add 0 (l ++ [x]) = foldr Z.add 0 l + x.
Proof. induction l as [|y l IH]; cbn; [lia|]. rewrite IH. lia. Qed.
Lemma next_month y m : 1 <= m -> days_before y (m + 1) = days_before y m + days_in_month y m.
Proof.
  intros Hm. unfold days_before. replace (Z.to_nat (m + 1 - 1)) with (S (Z.to_nat (m - 1))) by lia. rewrite seq_S, fmap_app. cbn [fmap list_fmap]. rewrite sum_snoc.
  replace (Z.of_nat (1 + Z.to_nat (m - 1))) with m by lia. lia.
Qed.
Lemma next_year y : 0 <= y -> days_before (y + 1) 1 = days_before y 12 + days_in_month y 12.
Proof.
  intros Hy. assert (days_before y 12 = 365 * y + (y + 3) / 4 + (31 + ((if y `mod` 4 =? 0 then 29 else 28) + 275))) as -> by reflexivity.
  change (days_in_month y 12) with 31. change (days_before (y + 1) 1) with (365 * (y + 1) + (y + 1 + 3) / 4 + 0). destruct (Z.eqb_spec (y `mod` 4) 0); Z.to_euclidean_division_equations; lia.
Qed.

(** One turn of the last loop keeps the day it is about, in the cycle of the clock,
    and comes nearer to a day of the month. *)
Definition measure (d : Z) : Z := if d <? 1 then 32 - d else d.
Lemma month_turn_ok d m y : month_ok m y ->
  match month_turn d m y with
  | None => 1 <= d <= days_in_month y m
  | Some (d', m', y') => month_ok m' y' /\ measure d' < measure d /\ (CENTURY_DAYS | ordinal d' m' y' - ordinal d m y)
  end.
Proof.
  intros [Hm Hy]. unfold month_turn, measure, ordinal, CENTURY_DAYS. rewrite !(wrap_small 8) by lia. pose proof (dim_range y m) as Hd. destruct (Z.ltb_spec d 1) as [H1|H1].
  - destruct (Z.ltb_spec (m - 1) 1) as [Hm1|Hm1].
    + assert (m = 1) as -> by lia. set (y' := if y =? 0 then 99 else y - 1). assert (0 <= y' < 100 /\ (y' = y - 1 \/ y = 0 /\ y' = 99)) as [Hy' Hc] by (unfold y'; destruct (Z.eqb_spec y 0); lia).
      rewrite !wrap_small by lia. pose proof (next_year y' ltac:(lia)) as Hn. change (days_in_month y' 12) with 31 in *. split; [by split|]. split; [repeat case_if; lia|].
      destruct Hc as [->|[-> ->]]; [exists 0; replace (y - 1 + 1) with y in Hn by lia; lia|exists 1]. change (days_before (99 + 1) 1) with 36525 in Hn. change (days_before 0 1) with 0. lia.
    + rewrite !wrap_small by lia. pose proof (dim_range y (m - 1)). pose proof (next_month y (m - 1) ltac:(lia)) as Hn. replace (m - 1 + 1) with m in Hn by lia. split; [split; lia|]. split; [repeat case_if; lia|]. exists 0. lia.
  - destruct (Z.ltb_spec (days_in_month y m) d) as [H2|H2]; [|lia]. destruct (Z.ltb_spec 12 (m + 1)) as [Hm1|Hm1].
    + assert (m = 12) as -> by lia. pose proof (next_year y ltac:(lia)) as Hn. destruct (Z.leb_spec 99 y) as [Hy9|Hy9]; (split; [split; lia|]); (split; [repeat case_if; lia|]).
      * assert (y = 99) as -> by lia. exists (-1). change (days_before (99 + 1) 1) with 36525 in Hn. change (days_before 0 1) with 0. lia.
      * exists 0. lia.
    + pose proof (next_month y m ltac:(lia)) as Hn. split; [split; lia|]. split; [repeat case_if; lia|]. exists 0. lia.
Qed.
Lemma measure_pos d : 1 <= measure d.
Proof. unfold measure. case_if; lia. Qed.
Lemma months_ok n : forall d m y, month_ok m y -> measure d <= Z.of_nat n ->
  exists d' m' y', months n d m y = Some (d', m', y') /\ month_ok m' y' /\ 1 <= d' <= days_in_month y' m' /\ (CENTURY_DAYS | ordinal d' m' y' - ordinal d m y).
Proof.
  induction n as [|n IH]; intros d m y Hok Hd; pose proof (month_turn_ok d m y Hok) as Ht; cbn [months]; destruct (month_turn d m y) as [[[d1 m1] y1]|].
  - pose proof (measure_pos d). lia.
  - exists d, m, y. do 3 (split; [done|]). exists 0. lia.
  - destruct Ht as (Hok1 & Hlt & Hdiv). destruct (IH d1 m1 y1 Hok1 ltac:(lia)) as (d' & m' & y' & He & Hok' & Hd' & Hdiv'). exists d', m', y'. do 3 (split; [done|]).
    replace (ordinal d' m' y' - ordinal d m y) with ((ordinal d' m' y' - ordinal d1 m1 y1) + (ordinal d1 m1 y1 - ordinal d m y)) by lia. by apply Z.divide_add_r.
  - exists d, m, y. do 3 (split; [done|]). exists 0. lia.
Qed.

Lemma days_down_ok n : forall total d, - total <= 1440 * Z.of_nat n -> exists total' d', whole_days_down n total d = Some (total', d') /\ 0 <= total' /\ total' + 1440 * d' = total + 1440 * d /\ total' <= Z.max total 1439.
Proof.
  induction n as [|n IH]; intros total d Hn; cbn [whole_days_down]; destruct (Z.ltb_spec total 0); try lia; try (eexists _, _; split_and!; [done|lia..]).
  destruct (IH (total + 1440) (d - 1) ltac:(lia)) as (t & d' & He & H1 & H2 & H3). exists t, d'. split_and!; [done|lia..].
Qed.
Lemma days_up_ok n : forall total d, 0 <= total < 1440 * (Z.of_nat n + 1) -> exists total' d', whole_days_up n total d = Some (total', d') /\ 0 <= total' < 1440 /\ total' + 1440 * d' = total + 1440 * d.
Proof.
  induction n as [|n IH]; intros total d Hn; cbn [whole_days_up]; destruct (Z.leb_spec 1440 total); try lia; try (eexists _, _; split_and!; [done|lia..]).
  destruct (IH (total - 1440) (d + 1) ltac:(lia)) as (t & d' & He & H1 & H2). exists t, d'. split_and!; [done|lia..].
Qed.

(** C38. Local time is exact: for every date of the clock's century and every time
    zone whose offset fits the 32-bit sum, the three loops end, after no more turns
    than the days of the offset and two months, and give a date of the calendar that
    is later by exactly the offset of the zone, summer time included, in the cycle
    of one hundred years; the seconds are kept. *)
Theorem local_time_exact n tz utc : let off := offset_for tz (month utc) (day utc) in
  date_ok utc -> - 2 ^ 31 <= hour utc * 60 + minute utc + off < 2 ^ 31 -> Z.abs off / 1440 + 66 <= Z.of_nat n ->
  exists r, to_local n tz utc = Some r /\ date_ok r /\ second r = second utc /\ minutes_of r `mod` (CENTURY_DAYS * 1440) = (minutes_of utc + off) `mod` (CENTURY_DAYS * 1440).
Proof.
  intros off (Hmy & Hd & Hh & Hm) Hrange Hn. pose proof (dim_range (year utc) (month utc)). assert (Z.abs off < 1440 * (Z.of_nat n - 65)) as Hoff by (pose proof (Z.mod_pos_bound (Z.abs off) 1440 ltac:(lia)); pose proof (Z.div_mod (Z.abs off) 1440 ltac:(lia)); nia).
  unfold to_local, add_minutes. fold off. assert (swrap 32 (hour utc * 60 + minute utc + off) = hour utc * 60 + minute utc + off) as -> by (unfold swrap, wrap; cbn [Z.sub Z.pow Z.pow_pos]; case_if; Z.to_euclidean_division_equations; lia).
  destruct (days_down_ok n (hour utc * 60 + minute utc + off) (day utc)) as (t1 & d1 & -> & H1 & H2 & H3); [lia|]. cbn [mbind option_bind].
  destruct (days_up_ok n t1 d1) as (t2 & d2 & -> & H4 & H5); [lia|]. cbn [mbind option_bind].
  destruct (months_ok n d2 (month utc) (year utc) Hmy) as (d & m & y & -> & Hmy' & Hd' & Hdiv); [unfold measure; case_if; lia|].
  destruct Hmy' as [Hm' Hy']. pose proof (dim_range y m). eexists. split; [done|]. assert (0 <= t2 `mod` 60 < 60) by (by apply Z.mod_pos_bound). assert (0 <= t2 / 60 < 24) by (split; [apply Z.div_pos; lia|apply Z.div_lt_upper_bound; lia]).
  unfold date_ok, minutes_of. cbn [second minute hour day month year]. rewrite !wrap_small by lia. split_and!; try done; try lia.
  destruct Hdiv as [q Hq]. pose proof (Z.div_mod t2 60 ltac:(lia)). unfold ordinal in *.
  replace ((days_before y m + d - 1) * 1440 + t2 / 60 * 60 + t2 `mod` 60) with ((days_before (year utc) (month utc) + day utc - 1) * 1440 + hour utc * 60 + minute utc + off + q * (CENTURY_DAYS * 1440)) by (unfold CENTURY_DAYS in *; lia).
  by rewrite Z.mod_add.
Qed.

Definition summer : TimeZone := mkTZ 60 60 true 3 30 10 26.
Lemma local_time_exact_witness : exists r, to_local 100 summer (mkDT 5 30 23 31 12 99) = Some r /\ date_ok r /\ to_local 100 summer (mkDT 5 30 22 30 6 24) = Some (mkDT 5 30 0 1 7 24).
Proof.
  destruct (local_time_exact 100 summer (mkDT 5 30 23 31 12 99)) as (r & Hr & Hok & _).
  - unfold date_ok, month_ok. vm_compute. intuition congruence.
  - vm_compute. split; congruence.
  - vm_compute. congruence.
  - exists r. split_and!; [exact Hr|exact Hok|vm_compute; reflexivity].
Defined.

(** The zone that is loaded has a month and a day in its fields, whatever the
    registry holds. *)
Lemma load_bounds n cm tz : load n cm = Some tz -> 1 <= dst_start_month tz <= 12 /\ 1 <= dst_end_month tz <= 12 /\ 1 <= dst_start_day tz <= 31 /\ 1 <= dst_end_day tz <= 31.
Proof.
  unfold load. destruct (cm_open_key n 0 TZ_KEY cm) as [[key|]|]; cbn [mbind option_bind]; [|intros [= <-]; cbn; lia|done].
  repeat (destruct (dword_of n key _ cm) as [?|]; cbn [mbind option_bind]; try done). intros [= <-]. unfold clamp. cbn. repeat match goal with o : option Z |- _ => destruct o; cbn end; lia.
Qed.
