(* ===== verification/RunQueue.v ===== *)
(** * RunQueue.v: the run queue of a processor ([arch/x64/cpu_local.rs])

    A run queue has four rings of 64 thread ids, one for each priority, a bitmap
    of the rings that are not empty and a total count.  The read and write
    positions of a ring are 16-bit counters that run freely; a position is taken
    modulo 64.  The lock around a queue makes every method one step. *)

From S2P Require Import Prelude.
Open Scope Z_scope.

Definition RUNQUEUE_PRIO_CAP : nat := 64.
Definition PRIORITY_NORMAL : Z := 2.

Record PrioritySubQueue := mkSub { sq_entries : list Z; sq_head : Z; sq_tail : Z; sq_count : nat }.

Definition sub_new : PrioritySubQueue := mkSub (replicate RUNQUEUE_PRIO_CAP 0) 0 0 0.

(** The place in [entries] that a counter stands for. *)
Definition ring_pos (i : Z) : nat := Z.to_nat (i `mod` 64).
Definition ring_next (idx : nat) : nat := ((idx + 1) `mod` RUNQUEUE_PRIO_CAP)%nat.

Definition sub_push (tid : Z) (q : PrioritySubQueue) : bool * PrioritySubQueue :=
  if (RUNQUEUE_PRIO_CAP <=? sq_count q)%nat then (false, q)
  else (true, mkSub (<[ring_pos (sq_tail q) := tid]> (sq_entries q)) (sq_head q) (u16 (sq_tail q + 1)) (S (sq_count q))).

Definition sub_peek (q : PrioritySubQueue) : option Z :=
  if (sq_count q =? 0)%nat then None else Some (sq_entries q !!! ring_pos (sq_head q)).

Definition sub_pop (q : PrioritySubQueue) : option (Z * PrioritySubQueue) :=
  if (sq_count q =? 0)%nat then None
  else Some (sq_entries q !!! ring_pos (sq_head q), mkSub (sq_entries q) (u16 (sq_head q + 1)) (sq_tail q) (sq_count q - 1)).

(** The ids in the ring in order, as the loops of [remove] and [entries_vec]
    collect them. *)
Fixpoint ring_list (es : list Z) (idx n : nat) : list Z :=
  match n with O => [] | S n => (es !!! idx) :: ring_list es (ring_next idx) n end.
Definition sub_list (q : PrioritySubQueue) : list Z := ring_list (sq_entries q) (ring_pos (sq_head q)) (sq_count q).

Fixpoint sub_scan (es : list Z) (tid : Z) (idx n : nat) : bool :=
  match n with O => false | S n => if (es !!! idx) =? tid then true else sub_scan es tid (ring_next idx) n end.
Definition sub_contains (tid : Z) (q : PrioritySubQueue) : bool :=
  if (sq_count q =? 0)%nat then false else sub_scan (sq_entries q) tid (ring_pos (sq_head q)) (sq_count q).

(** [position], shifting the rest down, and copying back to the front. *)
Definition sub_remove (tid : Z) (q : PrioritySubQueue) : bool * PrioritySubQueue :=
  if (sq_count q =? 0)%nat then (false, q)
  else
    let buf := sub_list q in
    match list_find (λ t, t = tid) buf with
    | Some (p, _) =>
        let buf' := delete p buf in
        (true, mkSub (buf' ++ drop (length buf') (sq_entries q)) 0 (Z.of_nat (sq_count q - 1)) (sq_count q - 1))
    | None => (false, q)
    end.

Record CpuRunQueue := mkRq { rq_bitmap : Z; rq_count : nat; rq_queues : list PrioritySubQueue }.

Definition rq_new : CpuRunQueue := mkRq 0 0 (replicate 4 sub_new).

#[global] Instance sub_inhabited : Inhabited PrioritySubQueue := populate sub_new.

Definition rq_push_priority (tid prio : Z) (rq : CpuRunQueue) : bool * CpuRunQueue :=
  let p := Z.to_nat (Z.min prio 3) in
  let '(ok, q) := sub_push tid (rq_queues rq !!! p) in
  if ok then (true, mkRq (Z.lor (rq_bitmap rq) (Z.shiftl 1 (Z.of_nat p))) (S (rq_count rq)) (<[p := q]> (rq_queues rq)))
  else (false, rq).

Definition rq_push (tid : Z) (rq : CpuRunQueue) : bool * CpuRunQueue := rq_push_priority tid PRIORITY_NORMAL rq.

(** [u8::trailing_zeros]. *)
Fixpoint trailing_zeros_loop (n : nat) (i bm : Z) : Z :=
  match n with O => i | S n => if Z.testbit bm i then i else trailing_zeros_loop n (i + 1) bm end.
Definition trailing_zeros8 (bm : Z) : Z := trailing_zeros_loop 8 0 bm.

(** Clear the bit of ring [p] if it is empty now. *)
Definition clear_if_empty (p : nat) (q : PrioritySubQueue) (bm : Z) : Z :=
  if (sq_count q =? 0)%nat then Z.land bm (u8 (Z.lnot (Z.shiftl 1 (Z.of_nat p)))) else bm.

Definition rq_pop (rq : CpuRunQueue) : option (Z * CpuRunQueue) :=
  if (rq_count rq =? 0)%nat || (rq_bitmap rq =? 0) then None
  else
    let p := trailing_zeros8 (rq_bitmap rq) in
    if 4 <=? p then None
    else
      let p := Z.to_nat p in
      '(tid, q) ← sub_pop (rq_queues rq !!! p);
      Some (tid, mkRq (clear_if_empty p q (rq_bitmap rq)) (rq_count rq - 1) (<[p := q]> (rq_queues rq))).

Definition rq_peek_highest (rq : CpuRunQueue) : option Z :=
  if (rq_count rq =? 0)%nat || (rq_bitmap rq =? 0) then None
  else let p := trailing_zeros8 (rq_bitmap rq) in if p <? 4 then sub_peek (rq_queues rq !!! Z.to_nat p) else None.

Definition rq_is_empty (rq : CpuRunQueue) : bool := (rq_count rq =? 0)%nat.

Definition rq_clear (rq : CpuRunQueue) : CpuRunQueue := mkRq 0 0 (map (λ q, mkSub (sq_entries q) 0 0 0) (rq_queues rq)).

Definition rq_contains (tid : Z) (rq : CpuRunQueue) : bool :=
  if (rq_count rq =? 0)%nat then false else existsb (sub_contains tid) (rq_queues rq).

Fixpoint rq_remove_from (tid : Z) (p : nat) (qs : list PrioritySubQueue) : option (nat * PrioritySubQueue) :=
  match qs with
  | [] => None
  | q :: qs => match sub_remove tid q with (true, q') => Some (p, q') | (false, _) => rq_remove_from tid (S p) qs end
  end.
Definition rq_remove (tid : Z) (rq : CpuRunQueue) : bool * CpuRunQueue :=
  if (rq_count rq =? 0)%nat then (false, rq)
  else
    match rq_remove_from tid 0 (rq_queues rq) with
    | Some (p, q) => (true, mkRq (clear_if_empty p q (rq_bitmap rq)) (rq_count rq - 1) (<[p := q]> (rq_queues rq)))
    | None => (false, rq)
    end.

Definition rq_entries_vec (rq : CpuRunQueue) : list Z := concat (map sub_list (rq_queues rq)).

(** ** The rings as lists *)

(** The ids in a ring; 64 divides 2^16, so the counters may wrap. *)
Record sub_rep (q : PrioritySubQueue) (l : list Z) : Prop := {
  sr_size : length (sq_entries q) = RUNQUEUE_PRIO_CAP;
  sr_count : sq_count q = length l;
  sr_cap : (length l <= RUNQUEUE_PRIO_CAP)%nat;
  sr_head : 0 <= sq_head q < 2 ^ 16;
  sr_tail : sq_tail q = u16 (sq_head q + Z.of_nat (length l));
  sr_at : forall i, (i < length l)%nat -> sq_entries q !!! ring_pos (sq_head q + Z.of_nat i) = l !!! i;
}.

Lemma ring_pos_wrap i : ring_pos (u16 i) = ring_pos i.
Proof. unfold ring_pos, wrap. rewrite Z.mod_mod_divide; [done|by exists 1024]. Qed.
Lemma ring_pos_lt i : (ring_pos i < 64)%nat.
Proof. unfold ring_pos. pose proof (Z.mod_pos_bound i 64). lia. Qed.
Lemma ring_pos_next i : ring_next (ring_pos i) = ring_pos (i + 1).
Proof.
  unfold ring_next, ring_pos, RUNQUEUE_PRIO_CAP. pose proof (Z.mod_pos_bound i 64 ltac:(lia)). apply Nat2Z.inj.
  rewrite Nat2Z.inj_mod, Nat2Z.inj_add, !Z2Nat.id by (try apply Z.mod_pos_bound; lia). by rewrite Zplus_mod_idemp_l.
Qed.
Lemma ring_pos_inj h i j : 0 <= i < 64 -> 0 <= j < 64 -> ring_pos (h + i) = ring_pos (h + j) -> i = j.
Proof.
  unfold ring_pos. intros Hi Hj E. apply Z2Nat.inj in E; [|apply Z.mod_pos_bound; lia..].
  pose proof (Z.div_mod (h + i) 64 ltac:(lia)). pose proof (Z.div_mod (h + j) 64 ltac:(lia)). nia.
Qed.

Lemma ring_pos_small n : (n < 64)%nat -> ring_pos (Z.of_nat n) = n.
Proof. intros. unfold ring_pos. rewrite Z.mod_small by lia. lia. Qed.

Lemma sub_rep_new : sub_rep sub_new [].
Proof. constructor; try done; [cbn; lia|]. cbn. lia. Qed.

Lemma sub_rep_reset q l : sub_rep q l -> sub_rep (mkSub (sq_entries q) 0 0 0) [].
Proof. intros []. constructor; cbn; try done; lia. Qed.

Lemma ring_list_at es h n : ring_list es (ring_pos h) n = (λ i, es !!! ring_pos (h + Z.of_nat i)) <$> seq 0 n.
Proof.
  revert h. induction n as [|n IH]; intros h; [done|]. cbn [ring_list seq fmap list_fmap]. rewrite Z.add_0_r. f_equal.
  rewrite ring_pos_next, IH, <- fmap_S_seq, <- list_fmap_compose. apply list_fmap_ext. intros i x _. unfold compose. do 2 f_equal. lia.
Qed.

Lemma sub_list_rep q l : sub_rep q l -> sub_list q = l.
Proof.
  intros []. unfold sub_list. rewrite ring_list_at, sr_count0. apply list_eq_same_length with (length l); rewrite ?length_fmap, ?length_seq; try done.
  intros i x y Hi Hx Hy. rewrite list_lookup_fmap, lookup_seq_lt in Hx by done. cbn in Hx. injection Hx as <-.
  rewrite sr_at0 by done. by rewrite (list_lookup_total_correct _ _ _ Hy).
Qed.

Lemma sub_scan_list es tid idx n : sub_scan es tid idx n = bool_decide (tid ∈ ring_list es idx n).
Proof.
  revert idx. induction n as [|n IH]; intros idx; cbn [sub_scan ring_list]; [done|]. rewrite IH.
  destruct (Z.eqb_spec (es !!! idx) tid) as [->|Hne]; symmetry; [apply bool_decide_eq_true; by left|].
  apply bool_decide_ext. rewrite elem_of_cons. naive_solver.
Qed.

Lemma sub_contains_rep tid q l : sub_rep q l -> sub_contains tid q = bool_decide (tid ∈ l).
Proof.
  intros Hq. unfold sub_contains. rewrite sub_scan_list. change (ring_list _ _ _) with (sub_list q). rewrite (sub_list_rep q l Hq).
  destruct Hq as [_ -> _ _ _ _]. by destruct l.
Qed.

Lemma sub_push_rep tid q l : sub_rep q l ->
  if decide (length l < RUNQUEUE_PRIO_CAP)%nat then exists q', sub_push tid q = (true, q') /\ sub_rep q' (l ++ [tid]) else sub_push tid q = (false, q).
Proof.
  intros Hq. unfold sub_push. rewrite (sr_count _ _ Hq). case_decide as Hl; [|by rewrite (proj2 (Nat.leb_le _ _)) by lia].
  rewrite (proj2 (Nat.leb_gt _ _)) by lia. eexists. split; [done|]. destruct Hq. constructor; unfold RUNQUEUE_PRIO_CAP in *; cbn [sq_entries sq_count sq_head sq_tail].
  - by rewrite length_insert.
  - rewrite length_app; cbn [length]; lia.
  - rewrite length_app; cbn [length]; lia.
  - done.
  - rewrite sr_tail0, wrap_add_l, length_app by lia. f_equal; cbn; lia.
  - intros i Hi. rewrite length_app in Hi; cbn [length] in Hi. rewrite sr_tail0, ring_pos_wrap. destruct (decide (i = length l)) as [->|Hne].
    + rewrite list_lookup_total_insert_eq by (pose proof (ring_pos_lt (sq_head q + Z.of_nat (length l))); lia). by rewrite lookup_total_app_r, Nat.sub_diag by lia.
    + rewrite list_lookup_total_insert_ne; [rewrite sr_at0, lookup_total_app_l by lia; done|]. intros E. apply ring_pos_inj in E; lia.
Qed.

Lemma sub_pop_rep q l : sub_rep q l ->
  match l with [] => sub_pop q = None | t :: l' => exists q', sub_pop q = Some (t, q') /\ sub_rep q' l' end.
Proof.
  intros Hq. unfold sub_pop. rewrite (sr_count _ _ Hq). destruct l as [|t l]; [done|]. cbn [Nat.eqb length]. eexists. split.
  - do 2 f_equal. pose proof (sr_at _ _ Hq 0 ltac:(cbn; lia)) as E. by rewrite Z.add_0_r in E.
  - destruct Hq. cbn [length] in *. constructor; cbn [sq_entries sq_count sq_head sq_tail]; [done|lia|lia|apply wrap_bound; lia|..].
    + rewrite sr_tail0, wrap_add_l by lia. f_equal. lia.
    + intros i Hi. pose proof (sr_at0 (S i) ltac:(lia)) as E. change ((t :: l) !!! S i) with (l !!! i) in E. rewrite <- E. f_equal. unfold ring_pos.
      rewrite <- (Zplus_mod_idemp_l (u16 _)). unfold wrap. rewrite Z.mod_mod_divide by (by exists 1024).
      rewrite Zplus_mod_idemp_l. do 2 f_equal. lia.
Qed.

Lemma sub_peek_rep q l : sub_rep q l -> sub_peek q = head l.
Proof.
  intros Hq. unfold sub_peek. rewrite (sr_count _ _ Hq). destruct l as [|t l]; [done|]. cbn [Nat.eqb length head]. f_equal.
  pose proof (sr_at _ _ Hq 0 ltac:(cbn; lia)) as E. by rewrite Z.add_0_r in E.
Qed.

(** Removing the first occurrence. *)
Definition remove_first (tid : Z) (l : list Z) : list Z := match list_find (λ t, t = tid) l with Some (p, _) => delete p l | None => l end.

Lemma sub_remove_rep tid q l : sub_rep q l -> exists q', sub_remove tid q = (bool_decide (tid ∈ l), q') /\ sub_rep q' (remove_first tid l).
Proof.
  intros Hq. unfold sub_remove, remove_first. rewrite (sub_list_rep q l Hq), (sr_count _ _ Hq).
  destruct (list_find (λ t, t = tid) l) as [[p y]|] eqn:Ef.
  - apply list_find_Some in Ef as (Hp & -> & _). assert (p < length l)%nat by by apply lookup_lt_Some in Hp.
    rewrite (proj2 (Nat.eqb_neq _ _)) by lia. rewrite bool_decide_true by by eapply list_elem_of_lookup_2. eexists. split; [done|].
    pose proof (length_delete l p) as Hd. rewrite Hp in Hd. specialize (Hd ltac:(eauto)).
    destruct Hq. constructor; unfold RUNQUEUE_PRIO_CAP in *; cbn [sq_entries sq_count sq_head sq_tail].
    + rewrite length_app, length_drop. lia.
    + lia.
    + lia.
    + lia.
    + rewrite wrap_small; lia.
    + intros i Hi. rewrite Z.add_0_l, ring_pos_small by lia. by rewrite lookup_total_app_l.
  - apply list_find_None in Ef. rewrite Forall_forall in Ef. rewrite bool_decide_false by (intros Hin; by apply (Ef tid Hin)).
    exists q. by destruct (length l =? 0)%nat.
Qed.

(** ** The queue as four lists *)

Record rq_rep (rq : CpuRunQueue) (ls : list (list Z)) : Prop := {
  rr_rings : Forall2 sub_rep (rq_queues rq) ls;
  rr_four : length ls = 4%nat;
  rr_count : rq_count rq = length (concat ls);
  rr_bits : forall i, 0 <= i -> Z.testbit (rq_bitmap rq) i = bool_decide (i < 4 /\ ls !!! Z.to_nat i ≠ []);
}.

(** The first ring that is not empty. *)
Definition highest (ls : list (list Z)) : option (nat * list Z) := list_find (λ l, l ≠ []) ls.

Lemma rq_rep_new : rq_rep rq_new (replicate 4 []).
Proof.
  constructor; try done; [repeat constructor; apply sub_rep_new|]. intros i Hi. rewrite Z.testbit_0_l. symmetry. apply bool_decide_eq_false.
  intros [H4 Hne]. apply Hne. rewrite lookup_total_replicate_2 by lia. done.
Qed.

Lemma rr_ring rq ls p : rq_rep rq ls -> (p < 4)%nat -> sub_rep (rq_queues rq !!! p) (ls !!! p).
Proof.
  intros Hr Hp. pose proof (Forall2_length _ _ _ (rr_rings _ _ Hr)) as Hl. rewrite (rr_four _ _ Hr) in Hl.
  destruct (lookup_lt_is_Some_2 (rq_queues rq) p ltac:(lia)) as [q Hq]. destruct (lookup_lt_is_Some_2 ls p ltac:(rewrite (rr_four _ _ Hr); lia)) as [l Hls].
  rewrite (list_lookup_total_correct _ _ _ Hq), (list_lookup_total_correct _ _ _ Hls). by eapply Forall2_lookup_lr; [apply (rr_rings _ _ Hr)|..].
Qed.

Lemma length_concat_insert (ls : list (list Z)) p l : (p < length ls)%nat ->
  (length (concat (<[p := l]> ls)) + length (ls !!! p) = length (concat ls) + length l)%nat.
Proof.
  revert p. induction ls as [|x ls IH]; intros [|p] Hp; cbn [length] in Hp; [lia|lia|change (<[0%nat := l]> (x :: ls)) with (l :: ls); rewrite !concat_cons, !length_app; change ((x :: ls) !!! 0%nat) with x; lia|].
  change (<[S p := l]> (x :: ls)) with (x :: <[p := l]> ls). rewrite !concat_cons, !length_app. specialize (IH p ltac:(lia)). change ((x :: ls) !!! S p) with (ls !!! p). lia.
Qed.

(** Replacing one ring: the bitmap has to follow. *)
Lemma rq_rep_insert rq ls p q l bm n : rq_rep rq ls -> (p < 4)%nat -> sub_rep q l -> (n + length (ls !!! p) = length (concat ls) + length l)%nat ->
  (forall i, 0 <= i -> Z.testbit bm i = if decide (i = Z.of_nat p) then bool_decide (l ≠ []) else Z.testbit (rq_bitmap rq) i) ->
  rq_rep (mkRq bm n (<[p := q]> (rq_queues rq))) (<[p := l]> ls).
Proof.
  intros [] Hp Hq Hn Hbm. constructor; cbn [rq_queues rq_count rq_bitmap].
  - by apply Forall2_insert.
  - by rewrite length_insert.
  - pose proof (length_concat_insert ls p l ltac:(lia)). lia.
  - intros i Hi. rewrite Hbm by done. case_decide as E; [subst i|].
    + rewrite Nat2Z.id, list_lookup_total_insert_eq by lia. apply bool_decide_ext. split; [|by intros []]. intros; split; [lia|done].
    + rewrite rr_bits0, list_lookup_total_insert_ne by lia. done.
Qed.

Lemma testbit_one p i : 0 <= i -> Z.testbit (Z.shiftl 1 (Z.of_nat p)) i = bool_decide (i = Z.of_nat p).
Proof.
  intros Hi. rewrite Z.shiftl_1_l. case_bool_decide as E; [subst; by apply Z.pow2_bits_true; lia|]. apply Z.pow2_bits_false. lia.
Qed.

Lemma set_bits p bm i : 0 <= i -> Z.testbit (Z.lor bm (Z.shiftl 1 (Z.of_nat p))) i = if decide (i = Z.of_nat p) then true else Z.testbit bm i.
Proof. intros Hi. rewrite Z.lor_spec, testbit_one by done. case_decide; [rewrite bool_decide_true by done; apply orb_true_r|rewrite bool_decide_false by done; apply orb_false_r]. Qed.

Lemma clear_bits p q l bm i : (p < 4)%nat -> sub_rep q l -> 0 <= i -> (8 <= i -> Z.testbit bm i = false) -> Z.testbit bm (Z.of_nat p) = true ->
  Z.testbit (clear_if_empty p q bm) i = if decide (i = Z.of_nat p) then bool_decide (l ≠ []) else Z.testbit bm i.
Proof.
  intros Hp Hq Hi Hhi Hbit. unfold clear_if_empty. rewrite (sr_count _ _ Hq). destruct l as [|t l]; cbn [length Nat.eqb].
  - rewrite Z.land_spec. unfold wrap. destruct (decide (8 <= i)) as [H8|H8].
    + rewrite Hhi, decide_False by lia. done.
    + rewrite Z.mod_pow2_bits_low, Z.lnot_spec, testbit_one by lia.
      case_decide as E; [rewrite (bool_decide_true (_ = _)) by done|rewrite (bool_decide_false (_ = _)) by done]; cbn [negb];
        [rewrite andb_false_r; symmetry; apply bool_decide_eq_false; intros Hn; by apply Hn|apply andb_true_r].
  - case_decide as E; [|done]. subst i. by rewrite Hbit, bool_decide_true.
Qed.

Lemma rr_high rq ls i : rq_rep rq ls -> 4 <= i -> Z.testbit (rq_bitmap rq) i = false.
Proof. intros Hr Hi. rewrite (rr_bits _ _ Hr) by lia. apply bool_decide_eq_false. lia. Qed.

Lemma trailing_zeros_at n i j bm : i <= j < i + Z.of_nat n -> Z.testbit bm j = true -> (forall k, i <= k < j -> Z.testbit bm k = false) -> trailing_zeros_loop n i bm = j.
Proof.
  revert i. induction n as [|n IH]; intros i Hj Hbit Hlow; [lia|]. cbn [trailing_zeros_loop]. destruct (decide (i = j)) as [->|Hne]; [by rewrite Hbit|].
  rewrite Hlow by lia. apply IH; [lia|done|]. intros k Hk. apply Hlow. lia.
Qed.

Lemma rq_highest rq ls : rq_rep rq ls ->
  match highest ls with
  | Some (p, l) => (p < 4)%nat /\ l = ls !!! p /\ l ≠ [] /\ rq_bitmap rq ≠ 0 /\ rq_count rq ≠ 0%nat /\ trailing_zeros8 (rq_bitmap rq) = Z.of_nat p
  | None => rq_bitmap rq = 0 /\ concat ls = []
  end.
Proof.
  intros Hr. unfold highest. destruct (list_find _ ls) as [[p l]|] eqn:Ef.
  - apply list_find_Some in Ef as (Hp & Hne & Hlow). pose proof (lookup_lt_Some _ _ _ Hp) as Hlt. rewrite (rr_four _ _ Hr) in Hlt.
    pose proof (list_lookup_total_correct _ _ _ Hp) as El.
    assert (Z.testbit (rq_bitmap rq) (Z.of_nat p) = true) as Hbit. { rewrite (rr_bits _ _ Hr), Nat2Z.id, El by lia. apply bool_decide_eq_true. split; [lia|done]. }
    split_and!; try done; [by intros E; rewrite E, Z.testbit_0_l in Hbit| |].
    + rewrite (rr_count _ _ Hr). pose proof (length_concat_insert ls p [] ltac:(rewrite (rr_four _ _ Hr); lia)) as Hc. rewrite El in Hc. destruct l; [done|]. cbn [length] in Hc. lia.
    + apply trailing_zeros_at; [lia|done|]. intros k Hk. rewrite (rr_bits _ _ Hr) by lia. apply bool_decide_eq_false. intros [_ Hk0].
      destruct (lookup_lt_is_Some_2 ls (Z.to_nat k) ltac:(rewrite (rr_four _ _ Hr); lia)) as [x Hx].
      rewrite (list_lookup_total_correct _ _ _ Hx) in Hk0. apply (Hlow _ _ Hx); [lia|done].
  - apply list_find_None in Ef. assert (forall l, l ∈ ls -> l = []) as Hall.
    { intros l Hl. rewrite Forall_forall in Ef. specialize (Ef l Hl). by destruct l; [|destruct Ef]. }
    split.
    + apply Z.bits_inj'. intros i Hi. rewrite Z.testbit_0_l, (rr_bits _ _ Hr) by done. apply bool_decide_eq_false. intros [H4 Hne]. apply Hne, Hall.
      apply list_elem_of_lookup_total_2. rewrite (rr_four _ _ Hr). lia.
    + clear Hr Ef. induction ls as [|x ls IH]; [done|]. rewrite concat_cons, (Hall x) by by left. apply IH. intros l Hl. apply Hall. by right.
Qed.

(** What the operations do to the four lists. *)
Definition ls_push (tid prio : Z) (ls : list (list Z)) : bool * list (list Z) :=
  let p := Z.to_nat (Z.min prio 3) in
  if decide (length (ls !!! p) < RUNQUEUE_PRIO_CAP)%nat then (true, <[p := (ls !!! p) ++ [tid]]> ls) else (false, ls).
Definition ls_pop (ls : list (list Z)) : option (Z * list (list Z)) :=
  match highest ls with Some (p, t :: l) => Some (t, <[p := l]> ls) | _ => None end.
Definition ls_remove (tid : Z) (ls : list (list Z)) : list (list Z) :=
  match list_find (λ l, tid ∈ l) ls with Some (p, l) => <[p := remove_first tid l]> ls | None => ls end.

Lemma rq_push_rep tid prio rq ls : rq_rep rq ls -> 0 <= prio -> exists rq', rq_push_priority tid prio rq = ((ls_push tid prio ls).1, rq') /\ rq_rep rq' (ls_push tid prio ls).2.
Proof.
  intros Hr Hprio. unfold rq_push_priority, ls_push. set (p := Z.to_nat (Z.min prio 3)). assert (p < 4)%nat as Hp by lia.
  pose proof (sub_push_rep tid _ _ (rr_ring _ _ p Hr Hp)) as Hpush. case_decide as Hl; [|rewrite Hpush; by exists rq].
  destruct Hpush as (q' & -> & Hq'). eexists. split; [done|]. apply rq_rep_insert; try done.
  - rewrite (rr_count _ _ Hr), length_app. cbn [length]. lia.
  - intros i Hi. rewrite set_bits by done. case_decide; [|done]. symmetry. apply bool_decide_eq_true. by destruct (ls !!! p).
Qed.

Lemma rr_bit rq ls p : rq_rep rq ls -> (p < 4)%nat -> ls !!! p ≠ [] -> Z.testbit (rq_bitmap rq) (Z.of_nat p) = true.
Proof. intros Hr Hp Hne. rewrite (rr_bits _ _ Hr), Nat2Z.id by lia. apply bool_decide_eq_true. split; [lia|done]. Qed.

(** Taking an id out of ring [p]. *)
Lemma rq_rep_shrink rq ls p q l : rq_rep rq ls -> (p < 4)%nat -> sub_rep q l -> length (ls !!! p) = S (length l) ->
  rq_rep (mkRq (clear_if_empty p q (rq_bitmap rq)) (rq_count rq - 1) (<[p := q]> (rq_queues rq))) (<[p := l]> ls).
Proof.
  intros Hr Hp Hq Hl. assert (ls !!! p ≠ []) as Hne by (intros E; by rewrite E in Hl).
  pose proof (length_concat_insert ls p l ltac:(rewrite (rr_four _ _ Hr); lia)). apply rq_rep_insert; try done.
  - rewrite (rr_count _ _ Hr). lia.
  - intros i Hi. apply clear_bits; try done; [|by apply (rr_bit rq ls)]. intros H8. apply (rr_high rq ls); [done|lia].
Qed.

Lemma rq_pop_rep rq ls : rq_rep rq ls ->
  match ls_pop ls with Some (t, ls') => exists rq', rq_pop rq = Some (t, rq') /\ rq_rep rq' ls' | None => rq_pop rq = None end.
Proof.
  intros Hr. unfold rq_pop, ls_pop. pose proof (rq_highest rq ls Hr) as Hh. destruct (highest ls) as [[p l]|]; [|destruct Hh as [-> _]; by rewrite orb_true_r].
  destruct Hh as (Hp & El & Hne & Hb & Hc & ->). destruct l as [|t l]; [done|]. rewrite (proj2 (Nat.eqb_neq _ _)), (proj2 (Z.eqb_neq _ _)) by done. cbn [orb].
  rewrite (proj2 (Z.leb_gt _ _)), Nat2Z.id by lia. pose proof (sub_pop_rep _ _ (rr_ring _ _ p Hr Hp)) as Hpop. rewrite <- El in Hpop.
  destruct Hpop as (q' & -> & Hq'). cbn [mbind option_bind]. eexists. split; [done|]. apply rq_rep_shrink; try done. by rewrite <- El.
Qed.

Lemma rq_peek_rep rq ls : rq_rep rq ls -> rq_peek_highest rq = fst <$> ls_pop ls.
Proof.
  intros Hr. unfold rq_peek_highest, ls_pop. pose proof (rq_highest rq ls Hr) as Hh. destruct (highest ls) as [[p l]|]; [|destruct Hh as [-> _]; by rewrite orb_true_r].
  destruct Hh as (Hp & El & Hne & Hb & Hc & ->). rewrite (proj2 (Nat.eqb_neq _ _)), (proj2 (Z.eqb_neq _ _)) by done. cbn [orb].
  rewrite (proj2 (Z.ltb_lt _ _)), Nat2Z.id, (sub_peek_rep _ _ (rr_ring _ _ p Hr Hp)), <- El by lia. by destruct l.
Qed.

Lemma rq_contains_rep tid rq ls : rq_rep rq ls -> rq_contains tid rq = bool_decide (tid ∈ concat ls).
Proof.
  intros Hr. unfold rq_contains. rewrite (rr_count _ _ Hr). assert (existsb (sub_contains tid) (rq_queues rq) = bool_decide (tid ∈ concat ls)) as ->.
  { pose proof (rr_rings _ _ Hr) as HF. clear Hr. induction HF as [|q l qs ls Hq HF IH]; [done|]. cbn [existsb concat]. rewrite IH, (sub_contains_rep _ _ _ Hq).
    symmetry. rewrite <- bool_decide_or. apply bool_decide_ext. apply elem_of_app. }
  by destruct (concat ls).
Qed.

Lemma rq_remove_from_rep tid k qs ls : Forall2 sub_rep qs ls ->
  match list_find (λ l, tid ∈ l) ls with
  | Some (p, l) => exists q, rq_remove_from tid k qs = Some ((k + p)%nat, q) /\ sub_rep q (remove_first tid l)
  | None => rq_remove_from tid k qs = None
  end.
Proof.
  intros HF. revert k. induction HF as [|q l qs ls Hq HF IH]; intros k; [done|]. cbn [rq_remove_from list_find].
  destruct (sub_remove_rep tid q l Hq) as (q' & -> & Hq'). case_decide as Hin.
  - rewrite bool_decide_true by done. exists q'. by rewrite Nat.add_0_r.
  - rewrite bool_decide_false by done. specialize (IH (S k)). destruct (list_find _ ls) as [[p l']|]; cbn [fmap option_fmap option_map prod_map]; [|done].
    destruct IH as (q1 & E & Hq1). exists q1. by rewrite E, Nat.add_succ_comm.
Qed.

Lemma remove_first_length tid l : tid ∈ l -> length l = S (length (remove_first tid l)).
Proof.
  intros Hin. unfold remove_first. destruct (list_find _ l) as [[p y]|] eqn:Ef.
  - apply list_find_Some in Ef as (Hp & _). pose proof (lookup_lt_Some _ _ _ Hp). rewrite length_delete by eauto. lia.
  - apply list_find_None in Ef. rewrite Forall_forall in Ef. by destruct (Ef tid Hin).
Qed.

Lemma rq_remove_rep tid rq ls : rq_rep rq ls -> exists rq', rq_remove tid rq = (bool_decide (tid ∈ concat ls), rq') /\ rq_rep rq' (ls_remove tid ls).
Proof.
  intros Hr. unfold rq_remove, ls_remove. pose proof (rq_remove_from_rep tid 0 _ _ (rr_rings _ _ Hr)) as Hf.
  destruct (list_find _ ls) as [[p l]|] eqn:Ef.
  - destruct Hf as (q & -> & Hq). apply list_find_Some in Ef as (Hp & Hin & _). pose proof (lookup_lt_Some _ _ _ Hp) as Hlt. rewrite (rr_four _ _ Hr) in Hlt.
    assert (tid ∈ concat ls) as Hc by (apply list_elem_of_In, in_concat; exists l; split; apply list_elem_of_In; [by eapply list_elem_of_lookup_2|done]).
    rewrite bool_decide_true by done. rewrite (rr_count _ _ Hr). assert (length (concat ls) ≠ 0%nat) by (by destruct (concat ls); [inversion Hc|]).
    rewrite (proj2 (Nat.eqb_neq _ _)) by done. eexists. split; [done|]. rewrite <- (rr_count _ _ Hr). apply rq_rep_shrink; try done.
    rewrite (list_lookup_total_correct _ _ _ Hp). by apply remove_first_length.
  - rewrite Hf, bool_decide_false; [exists rq; by destruct (rq_count rq =? 0)%nat|]. intros Hc. apply list_elem_of_In, in_concat in Hc as (l & Hl & Hin).
    apply list_find_None in Ef. rewrite Forall_forall in Ef. apply (Ef l); by apply list_elem_of_In.
Qed.

Lemma rq_clear_rep rq ls : rq_rep rq ls -> rq_rep (rq_clear rq) (replicate 4 []).
Proof.
  intros Hr. constructor; try done.
  - cbn [rq_queues rq_clear]. pose proof (rr_rings _ _ Hr) as HF. pose proof (rr_four _ _ Hr) as H4. destruct HF as [|q1 l1 ? ? H1 HF]; [done|].
    destruct HF as [|q2 l2 ? ? H2 HF]; [done|]. destruct HF as [|q3 l3 ? ? H3 HF]; [done|]. destruct HF as [|q4 l4 ? ? H5 HF]; [done|]. destruct HF; [|done].
    repeat constructor; by eapply sub_rep_reset.
  - apply (rr_bits _ _ rq_rep_new).
Qed.

(** ** Sequences of operations *)

Inductive rq_op := OPush (tid prio : Z) | OPop | ORemove (tid : Z) | OContains (tid : Z) | OPeek | OClear.
Definition op_ok (o : rq_op) : Prop := match o with OPush _ prio => 0 <= prio | _ => True end.

(** The results: the id an operation returns, or whether it succeeded. *)
Definition rq_step (o : rq_op) (rq : CpuRunQueue) : (option Z + bool) * CpuRunQueue :=
  match o with
  | OPush tid prio => let '(b, rq') := rq_push_priority tid prio rq in (inr b, rq')
  | OPop => match rq_pop rq with Some (t, rq') => (inl (Some t), rq') | None => (inl None, rq) end
  | ORemove tid => let '(b, rq') := rq_remove tid rq in (inr b, rq')
  | OContains tid => (inr (rq_contains tid rq), rq)
  | OPeek => (inl (rq_peek_highest rq), rq)
  | OClear => (inl None, rq_clear rq)
  end.
Definition ls_step (o : rq_op) (ls : list (list Z)) : (option Z + bool) * list (list Z) :=
  match o with
  | OPush tid prio => let '(b, ls') := ls_push tid prio ls in (inr b, ls')
  | OPop => match ls_pop ls with Some (t, ls') => (inl (Some t), ls') | None => (inl None, ls) end
  | ORemove tid => (inr (bool_decide (tid ∈ concat ls)), ls_remove tid ls)
  | OContains tid => (inr (bool_decide (tid ∈ concat ls)), ls)
  | OPeek => (inl (fst <$> ls_pop ls), ls)
  | OClear => (inl None, replicate 4 [])
  end.

Fixpoint run_ops {S} (step : rq_op -> S -> (option Z + bool) * S) (ops : list rq_op) (s : S) : list (option Z + bool) * S :=
  match ops with [] => ([], s) | o :: ops => let '(r, s1) := step o s in let '(rs, s2) := run_ops step ops s1 in (r :: rs, s2) end.

Lemma rq_step_rep o rq ls : rq_rep rq ls -> op_ok o -> (rq_step o rq).1 = (ls_step o ls).1 /\ rq_rep (rq_step o rq).2 (ls_step o ls).2.
Proof.
  intros Hr Ho. destruct o as [tid prio| |tid|tid| |]; cbn [rq_step ls_step].
  - destruct (rq_push_rep tid prio rq ls Hr Ho) as (rq' & -> & Hr'). by destruct (ls_push tid prio ls).
  - pose proof (rq_pop_rep rq ls Hr) as Hp. destruct (ls_pop ls) as [[t ls']|]; [destruct Hp as (rq' & -> & Hr'); done|by rewrite Hp].
  - destruct (rq_remove_rep tid rq ls Hr) as (rq' & -> & Hr'). done.
  - by rewrite (rq_contains_rep tid rq ls Hr).
  - by rewrite (rq_peek_rep rq ls Hr).
  - split; [done|]. by eapply rq_clear_rep.
Qed.

(** C24. The run queue of a processor is four first-in first-out lists of at most 64
    thread ids.  Over every sequence of insertions, removals and queries from the
    empty queue each operation returns what it returns on the lists (the pop the
    oldest id of the highest priority present), and the queue holds exactly the
    ids of the lists in that order, with count and bitmap right, also after the
    16-bit positions have wrapped around. *)
Theorem run_queue_refines_lists ops : Forall op_ok ops ->
  (run_ops rq_step ops rq_new).1 = (run_ops ls_step ops (replicate 4 [])).1 /\ rq_rep (run_ops rq_step ops rq_new).2 (run_ops ls_step ops (replicate 4 [])).2 /\
  rq_entries_vec (run_ops rq_step ops rq_new).2 = concat (run_ops ls_step ops (replicate 4 [])).2.
Proof.
  intros Hops. assert (forall rq ls, rq_rep rq ls -> (run_ops rq_step ops rq).1 = (run_ops ls_step ops ls).1 /\ rq_rep (run_ops rq_step ops rq).2 (run_ops ls_step ops ls).2) as Hrun.
  { induction Hops as [|o ops Ho Hops IH]; intros rq ls Hr; cbn [run_ops]; [done|]. destruct (rq_step_rep o rq ls Hr Ho) as [E1 E2].
    destruct (rq_step o rq) as [r rq1], (ls_step o ls) as [r' ls1]. cbn in E1, E2. subst r'. destruct (IH rq1 ls1 E2) as [E3 E4].
    destruct (run_ops rq_step ops rq1), (run_ops ls_step ops ls1). cbn in *. by subst. }
  destruct (Hrun _ _ rq_rep_new) as [E1 E2]. split_and!; [done|done|]. unfold rq_entries_vec. f_equal. generalize (rr_rings _ _ E2). generalize (run_ops ls_step ops (replicate 4 [])).2.
  generalize (rq_queues (run_ops rq_step ops rq_new).2). intros qs ls HF. clear -HF. induction HF as [|q l qs ls Hq _ IH]; [done|]. cbn [map]. by rewrite IH, (sub_list_rep q l Hq).
Qed.

Definition sample_ops : list rq_op := [OPush 7 2; OPush 5 0; OPush 9 2; OPop; ORemove 7; OPop; OPop].

Lemma run_queue_refines_lists_witness : Forall op_ok sample_ops /\ (run_ops rq_step sample_ops rq_new).1 = [inr true; inr true; inr true; inl (Some 5); inr true; inl (Some 9); inl None].
Proof.
  assert (Forall op_ok sample_ops) as H by (repeat apply Forall_cons_2; try apply Forall_nil_2; cbn; lia || exact I). split; [exact H|].
  destruct (run_queue_refines_lists sample_ops H) as [E _]. rewrite E. reflexivity.
Defined.
