(* ===== verification/Sched.v ===== *)
(** * Sched.v: the thread scheduler ([scheduler/], [arch/x64/cpu_local.rs])

    Threads live in a table of slots; a processor block (KPRCB) holds the thread a
    processor runs and its run queue.  Thread ids are handed out once, so the
    pointer to a thread's allocation is its id.  The scheduler lock makes every
    method one step, taken by the processor [this]; [cs_at] is the memory word
    read as the code segment of a saved frame.  The indexes from id to slot are
    maps (IdIndex.v shows that the hash index is one).  A thread has the fields
    the scheduler reads or writes; registers, names, APC queues and the thread's
    object are not among them, and of a process only its id and user slot are.
    Left out are output (traces, inter-processor interrupts, statistics), the test
    mode of the scheduler, what the release of a process does to other components,
    and the watchdog, timer objects, event bus and deferred calls that the timer
    interrupt drives besides the scheduler. *)

From stdpp Require Import gmap.
From S2P Require Import Prelude RunQueue.
Open Scope Z_scope.

Definition MAX_CPUS : nat := 16.
Definition PRIORITY_HIGH : Z := 0.
Definition PRIORITY_COUNT : Z := 4.
Definition BOOT_TID : Z := 0.
Definition IDLE_TIME_SLICE : Z := 10.
Definition AGING_INTERVAL_TICKS : Z := 500.
Definition MAX_STARVATION_TICKS : Z := 5000.
Definition TIME_SLICES : list Z := [400; 200; 100; 50].
(** [TIME_SLICES[(priority).min(PRIORITY_COUNT - 1)]]. *)
Definition time_slice (prio : Z) : Z := TIME_SLICES !!! Z.to_nat (Z.min prio (PRIORITY_COUNT - 1)).
Definition CPU_TIME_UNSET : Z := 2 ^ 64 - 1.

Inductive ThreadState := Ready | Running | Blocked (waiting_for : Z) | Suspended | Terminated.
#[global] Instance state_eq_dec : EqDecision ThreadState.
Proof. solve_decision. Defined.
Definition is_ready (st : ThreadState) : bool := bool_decide (st = Ready).
Definition is_blocked (st : ThreadState) : bool := match st with Blocked _ => true | _ => false end.

Record Acct := mkAcct { ac_ticks : Z; ac_time : Z; ac_base : Z }.

Record Kthread := mkThread {
  k_tid : Z; k_pid : Z; k_idle : bool; k_kernel : bool; k_ks_top : Z; k_ks_size : Z;
  k_state : ThreadState; k_waiting : option Z; k_prio : Z; k_base : Z; k_slice : Z; k_starved : Z;
  k_cpu : nat; k_rsp : Z; k_yield : bool; k_acct : Acct;
}.

Definition with_state (st : ThreadState) (k : Kthread) : Kthread :=
  mkThread (k_tid k) (k_pid k) (k_idle k) (k_kernel k) (k_ks_top k) (k_ks_size k) st (k_waiting k) (k_prio k) (k_base k) (k_slice k) (k_starved k) (k_cpu k) (k_rsp k) (k_yield k) (k_acct k).
Definition with_waiting (w : option Z) (k : Kthread) : Kthread :=
  mkThread (k_tid k) (k_pid k) (k_idle k) (k_kernel k) (k_ks_top k) (k_ks_size k) (k_state k) w (k_prio k) (k_base k) (k_slice k) (k_starved k) (k_cpu k) (k_rsp k) (k_yield k) (k_acct k).
Definition with_prio (p b : Z) (k : Kthread) : Kthread :=
  mkThread (k_tid k) (k_pid k) (k_idle k) (k_kernel k) (k_ks_top k) (k_ks_size k) (k_state k) (k_waiting k) p b (k_slice k) (k_starved k) (k_cpu k) (k_rsp k) (k_yield k) (k_acct k).
Definition with_slice (n : Z) (k : Kthread) : Kthread :=
  mkThread (k_tid k) (k_pid k) (k_idle k) (k_kernel k) (k_ks_top k) (k_ks_size k) (k_state k) (k_waiting k) (k_prio k) (k_base k) n (k_starved k) (k_cpu k) (k_rsp k) (k_yield k) (k_acct k).
Definition with_starved (n : Z) (k : Kthread) : Kthread :=
  mkThread (k_tid k) (k_pid k) (k_idle k) (k_kernel k) (k_ks_top k) (k_ks_size k) (k_state k) (k_waiting k) (k_prio k) (k_base k) (k_slice k) n (k_cpu k) (k_rsp k) (k_yield k) (k_acct k).
Definition with_cpu (c : nat) (k : Kthread) : Kthread :=
  mkThread (k_tid k) (k_pid k) (k_idle k) (k_kernel k) (k_ks_top k) (k_ks_size k) (k_state k) (k_waiting k) (k_prio k) (k_base k) (k_slice k) (k_starved k) c (k_rsp k) (k_yield k) (k_acct k).
Definition with_rsp (r : Z) (k : Kthread) : Kthread :=
  mkThread (k_tid k) (k_pid k) (k_idle k) (k_kernel k) (k_ks_top k) (k_ks_size k) (k_state k) (k_waiting k) (k_prio k) (k_base k) (k_slice k) (k_starved k) (k_cpu k) r (k_yield k) (k_acct k).
Definition with_yield (b : bool) (k : Kthread) : Kthread :=
  mkThread (k_tid k) (k_pid k) (k_idle k) (k_kernel k) (k_ks_top k) (k_ks_size k) (k_state k) (k_waiting k) (k_prio k) (k_base k) (k_slice k) (k_starved k) (k_cpu k) (k_rsp k) b (k_acct k).
Definition with_acct (a : Acct) (k : Kthread) : Kthread :=
  mkThread (k_tid k) (k_pid k) (k_idle k) (k_kernel k) (k_ks_top k) (k_ks_size k) (k_state k) (k_waiting k) (k_prio k) (k_base k) (k_slice k) (k_starved k) (k_cpu k) (k_rsp k) (k_yield k) a.
(** [time_slice_remaining = TIME_SLICES[..]]. *)
Definition fresh_slice (k : Kthread) : Kthread := with_slice (time_slice (k_prio k)) k.

(** The fields of a process the scheduler reads. *)
Record Eprocess := mkProc { ep_pid : Z; ep_user_slot : option Z }.

Record Kprcb := mkPrcb { pr_current : option Z; pr_pid : Z; pr_idle : bool; pr_need : bool; pr_rq : CpuRunQueue; pr_ticks : Z; pr_switches : Z }.
Definition set_rq (rq : CpuRunQueue) (p : Kprcb) : Kprcb := mkPrcb (pr_current p) (pr_pid p) (pr_idle p) (pr_need p) rq (pr_ticks p) (pr_switches p).
Definition set_need (b : bool) (p : Kprcb) : Kprcb := mkPrcb (pr_current p) (pr_pid p) (pr_idle p) b (pr_rq p) (pr_ticks p) (pr_switches p).
Definition inc_ticks (p : Kprcb) : Kprcb := mkPrcb (pr_current p) (pr_pid p) (pr_idle p) (pr_need p) (pr_rq p) (u64 (pr_ticks p + 1)) (pr_switches p).
(** [this_cpu_set_current_thread], [.._pid] and [.._inc_context_switch_count]. *)
Definition switched_to (t pid : Z) (p : Kprcb) : Kprcb := mkPrcb (Some t) pid (pr_idle p) (pr_need p) (pr_rq p) (pr_ticks p) (u64 (pr_switches p + 1)).

(** The scheduler with the processor blocks and the globals it works on. *)
Record Sched := mkSched {
  s_threads : list (option Kthread); s_index : gmap Z nat; s_procs : list (option Eprocess); s_pindex : gmap Z nat;
  s_current : Z; s_next_tid : Z; s_ticks : Z; s_count : Z;
  s_cpus : list (option Kprcb); s_handoff : list bool; s_resched : bool; s_ap_active : bool; s_zombies : list Z; s_overflow : Z;
}.

Definition set_threads (l : list (option Kthread)) (s : Sched) : Sched :=
  mkSched l (s_index s) (s_procs s) (s_pindex s) (s_current s) (s_next_tid s) (s_ticks s) (s_count s) (s_cpus s) (s_handoff s) (s_resched s) (s_ap_active s) (s_zombies s) (s_overflow s).
Definition set_index (m : gmap Z nat) (s : Sched) : Sched :=
  mkSched (s_threads s) m (s_procs s) (s_pindex s) (s_current s) (s_next_tid s) (s_ticks s) (s_count s) (s_cpus s) (s_handoff s) (s_resched s) (s_ap_active s) (s_zombies s) (s_overflow s).
Definition set_procs (l : list (option Eprocess)) (m : gmap Z nat) (s : Sched) : Sched :=
  mkSched (s_threads s) (s_index s) l m (s_current s) (s_next_tid s) (s_ticks s) (s_count s) (s_cpus s) (s_handoff s) (s_resched s) (s_ap_active s) (s_zombies s) (s_overflow s).
Definition set_current (t : Z) (s : Sched) : Sched :=
  mkSched (s_threads s) (s_index s) (s_procs s) (s_pindex s) t (s_next_tid s) (s_ticks s) (s_count s) (s_cpus s) (s_handoff s) (s_resched s) (s_ap_active s) (s_zombies s) (s_overflow s).
Definition count_tick (s : Sched) : Sched :=
  mkSched (s_threads s) (s_index s) (s_procs s) (s_pindex s) (s_current s) (s_next_tid s) (u64 (s_ticks s + 1)) (s_count s) (s_cpus s) (s_handoff s) (s_resched s) (s_ap_active s) (s_zombies s) (s_overflow s).
Definition count_call (s : Sched) : Sched :=
  mkSched (s_threads s) (s_index s) (s_procs s) (s_pindex s) (s_current s) (s_next_tid s) (s_ticks s) (u64 (s_count s + 1)) (s_cpus s) (s_handoff s) (s_resched s) (s_ap_active s) (s_zombies s) (s_overflow s).
Definition set_cpus (l : list (option Kprcb)) (s : Sched) : Sched :=
  mkSched (s_threads s) (s_index s) (s_procs s) (s_pindex s) (s_current s) (s_next_tid s) (s_ticks s) (s_count s) l (s_handoff s) (s_resched s) (s_ap_active s) (s_zombies s) (s_overflow s).
Definition set_handoff (l : list bool) (s : Sched) : Sched :=
  mkSched (s_threads s) (s_index s) (s_procs s) (s_pindex s) (s_current s) (s_next_tid s) (s_ticks s) (s_count s) (s_cpus s) l (s_resched s) (s_ap_active s) (s_zombies s) (s_overflow s).
Definition set_resched (s : Sched) : Sched :=
  mkSched (s_threads s) (s_index s) (s_procs s) (s_pindex s) (s_current s) (s_next_tid s) (s_ticks s) (s_count s) (s_cpus s) (s_handoff s) true (s_ap_active s) (s_zombies s) (s_overflow s).
Definition set_zombies (l : list Z) (s : Sched) : Sched :=
  mkSched (s_threads s) (s_index s) (s_procs s) (s_pindex s) (s_current s) (s_next_tid s) (s_ticks s) (s_count s) (s_cpus s) (s_handoff s) (s_resched s) (s_ap_active s) l (s_overflow s).
Definition count_overflow (s : Sched) : Sched :=
  mkSched (s_threads s) (s_index s) (s_procs s) (s_pindex s) (s_current s) (s_next_tid s) (s_ticks s) (s_count s) (s_cpus s) (s_handoff s) (s_resched s) (s_ap_active s) (s_zombies s) (u64 (s_overflow s + 1)).

(** ** Threads and processes by id *)

Definition has_tid (t : Z) (o : option Kthread) : Prop := k_tid <$> o = Some t.
#[global] Instance has_tid_dec t o : Decision (has_tid t o) := decide (k_tid <$> o = Some t).
Definition has_pid (p : Z) (o : option Eprocess) : Prop := ep_pid <$> o = Some p.
#[global] Instance has_pid_dec p o : Decision (has_pid p o) := decide (ep_pid <$> o = Some p).

(** [find_kthread_ptr]: the linear search. *)
Definition slot_linear (s : Sched) (t : Z) : option nat := fst <$> list_find (has_tid t) (s_threads s).

(** The slot by the index when it is right, by the linear search otherwise. *)
Definition find_slot (s : Sched) (t : Z) : option nat :=
  match s_index s !! t with
  | Some i => if decide (has_tid t (mjoin (s_threads s !! i))) then Some i else slot_linear s t
  | None => slot_linear s t
  end.
Definition find_kthread (s : Sched) (t : Z) : option Kthread := i ← find_slot s t; mjoin (s_threads s !! i).

Definition find_eprocess (s : Sched) (pid : Z) : option Eprocess :=
  let linear := o ← snd <$> list_find (has_pid pid) (s_procs s); o in
  match s_pindex s !! pid with
  | Some i => if decide (has_pid pid (mjoin (s_procs s !! i))) then mjoin (s_procs s !! i) else linear
  | None => linear
  end.

Definition at_slot (i : nat) (f : Kthread -> Kthread) (s : Sched) : Sched := set_threads (alter (fmap f) i (s_threads s)) s.
(** A change through [find_kthread_mut]. *)
Definition update (t : Z) (f : Kthread -> Kthread) (s : Sched) : Sched := match find_slot s t with Some i => at_slot i f s | None => s end.

Definition put_kthread (slot : nat) (k : Kthread) (s : Sched) : Sched := set_index (<[k_tid k := slot]> (s_index s)) (set_threads (<[slot := Some k]> (s_threads s)) s).
Definition clear_kthread_slot (slot : nat) (s : Sched) : Sched :=
  match mjoin (s_threads s !! slot) with
  | Some k => set_index (delete (k_tid k) (s_index s)) (set_threads (<[slot := None]> (s_threads s)) s)
  | None => s
  end.
Definition clear_eprocess_slot (slot : nat) (s : Sched) : Sched :=
  match mjoin (s_procs s !! slot) with
  | Some ep => set_procs (<[slot := None]> (s_procs s)) (delete (ep_pid ep) (s_pindex s)) s
  | None => s
  end.

(** The loops over all threads that may change the thread and the run queues. *)
Definition for_threads (f : nat -> Kthread -> Sched -> Sched) (s : Sched) : Sched :=
  foldl (λ s i, match mjoin (s_threads s !! i) with Some k => f i k s | None => s end) s (seq 0 (length (s_threads s))).

Definition thread_list (s : Sched) : list Kthread := omap id (s_threads s).
Definition thread_tids_for_pid (s : Sched) (pid : Z) : list Z := k_tid <$> filter (λ k, k_pid k = pid) (thread_list s).
Definition has_non_idle_threads (s : Sched) : bool :=
  existsb (λ k, negb (k_idle k) && negb (bool_decide (k_state k = Terminated)) && negb (bool_decide (k_state k = Suspended))) (thread_list s).

Definition is_kernel_thread (s : Sched) (k : Kthread) : bool :=
  if k_kernel k || (k_pid k =? 0) || k_idle k then true
  else match find_eprocess s (k_pid k) with Some ep => bool_decide (ep_user_slot ep = None) | None => true end.

(** ** Processor blocks and run queues *)

Definition prcb (s : Sched) (c : nat) : option Kprcb := mjoin (s_cpus s !! c).
Definition on_cpu (c : nat) (f : Kprcb -> Kprcb) (s : Sched) : Sched := set_cpus (alter (fmap f) c (s_cpus s)) s.

(** On a processor without a block the queue is a dummy that is dropped. *)
Definition enqueue_to_cpu_run_queue (k : Kthread) (s : Sched) : Sched :=
  if (k_tid k =? BOOT_TID) || k_idle k then s
  else if (MAX_CPUS <=? k_cpu k)%nat then s
  else
    match prcb s (k_cpu k) with
    | None => s
    | Some p =>
        if rq_contains (k_tid k) (pr_rq p) then s
        else
          let '(pushed, rq) := rq_push_priority (k_tid k) (k_prio k) (pr_rq p) in
          if pushed then on_cpu (k_cpu k) (set_rq rq) s else count_overflow s
    end.

(** [make_thread_ready] on the thread [k] in slot [i]. *)
Definition make_thread_ready (i : nat) (k : Kthread) (s : Sched) : Sched :=
  if is_ready (k_state k) then s
  else
    let k' := with_starved 0 (fresh_slice (with_yield false (with_state Ready k))) in
    enqueue_to_cpu_run_queue k' (at_slot i (λ _, k') s).

Definition remove_from_run_queue (k : Kthread) (s : Sched) : Sched :=
  if (MAX_CPUS <=? k_cpu k)%nat then s else on_cpu (k_cpu k) (λ p, set_rq (rq_remove (k_tid k) (pr_rq p)).2 p) s.

(** ** Priorities and aging *)

Definition set_process_priority (pid priority : Z) (s : Sched) : bool * Sched :=
  if PRIORITY_COUNT <=? priority then (false, s)
  else
    (existsb (λ k, k_pid k =? pid) (thread_list s),
     for_threads (λ i k s,
       if k_pid k =? pid then
         let k' := with_starved 0 (fresh_slice (with_prio priority priority k)) in
         let s := at_slot i (λ _, k') s in
         if is_ready (k_state k) && negb (k_prio k =? priority) then enqueue_to_cpu_run_queue k' (remove_from_run_queue k' s) else s
       else s) s).

Definition age_thread (i : nat) (k : Kthread) (s : Sched) : Sched :=
  if negb (k_idle k) && is_ready (k_state k) then
    let k1 := with_starved (sat_add 64 (k_starved k) AGING_INTERVAL_TICKS) k in
    if (MAX_STARVATION_TICKS <=? k_starved k1) && (PRIORITY_HIGH <? k_prio k1) then
      let s := remove_from_run_queue k1 s in
      let k2 := with_starved 0 (with_prio (k_prio k1 - 1) (k_base k1) k1) in
      enqueue_to_cpu_run_queue k2 (at_slot i (λ _, k2) s)
    else at_slot i (λ _, k1) s
  else s.
Definition apply_aging (s : Sched) : Sched := for_threads age_thread s.

(** ** Waking *)

Definition wake_if (sel : Kthread -> bool) (s : Sched) : Sched :=
  for_threads (λ i k s, if sel k && is_blocked (k_state k) then let k1 := with_waiting None k in make_thread_ready i k1 (at_slot i (λ _, k1) s) else s) s.
Definition waits_for (magic : Z) (k : Kthread) : bool := bool_decide (k_waiting k = Some magic).
Definition wake_blocked_on_magic (magic : Z) (s : Sched) : Sched := wake_if (waits_for magic) s.
(** The two wait values of a process: the old one and [ChildExit]. *)
Definition wake_waiters (pid : Z) (s : Sched) : Sched :=
  wake_if (λ k, waits_for (Z.lor pid 0x80000000) k || waits_for (Z.lor (Z.shiftl 4 32) pid) k) s.

(** ** Release of terminated processes *)

Definition is_pid_running_on_any_cpu (s : Sched) (pid : Z) : bool :=
  if pid =? 0 then false else existsb (λ o, match o with Some p => pr_pid p =? pid | None => false end) (take MAX_CPUS (s_cpus s)).

Definition recycle_terminated (pid : Z) (s : Sched) : bool * Sched :=
  if pid =? 0 then (false, s)
  else
    match list_find (has_pid pid) (s_procs s) with
    | Some (i, _) =>
        let s := foldl (λ s t, match slot_linear s t with Some j => clear_kthread_slot j s | None => s end) s (thread_tids_for_pid s pid) in
        (true, clear_eprocess_slot i s)
    | None => (false, s)
    end.

(** [ZombieQueue]. *)
Definition zombie_enqueue (pid : Z) (l : list Z) : bool * list Z := if (pid =? 0) || bool_decide (pid ∈ l) then (false, l) else (true, l ++ [pid]).
Definition zombie_requeue (pid : Z) (l : list Z) : list Z := if (pid =? 0) || bool_decide (pid ∈ l) then l else l ++ [pid].
Definition find_reclaimable (exclude : Z) (running : Z -> bool) (l : list Z) : option nat := fst <$> list_find (λ p, p ≠ exclude /\ running p = false) l.
Definition take_at (pos : nat) (l : list Z) : option (Z * list Z) := pid ← l !! pos; Some (pid, delete pos l).

(** The loop of [reap_pending_zombies]; every turn takes an entry out. *)
Fixpoint reap_loop (n : nat) (exclude : Z) (s : Sched) : Sched :=
  match n with
  | O => s
  | S n =>
      match pos ← find_reclaimable exclude (is_pid_running_on_any_cpu s) (s_zombies s); take_at pos (s_zombies s) with
      | None => s
      | Some (pid, l) =>
          let s := set_zombies l s in
          if is_pid_running_on_any_cpu s pid then reap_loop n exclude (set_zombies (zombie_requeue pid l) s)
          else
            let '(done, s) := recycle_terminated pid s in
            if negb done && is_pid_running_on_any_cpu s pid then reap_loop n exclude (set_zombies (zombie_requeue pid l) s)
            else reap_loop n exclude s
      end
  end.
Definition reap_pending_zombies (exclude : Z) (s : Sched) : Sched := reap_loop (length (s_zombies s)) exclude s.

(** The first value a function gives on the elements of a list. *)
Fixpoint first_some {A B} (f : A -> option B) (l : list A) : option B :=
  match l with [] => None | x :: l => match f x with Some y => Some y | None => first_some f l end end.

(** [kthread_current_cpu]: the first processor that runs the thread. *)
Definition kthread_current_cpu (s : Sched) (t : Z) : option nat :=
  fst <$> list_find (λ o, (o : option Kprcb) ≫= pr_current = Some t) (take MAX_CPUS (s_cpus s)).
Definition candidate_owned_elsewhere (s : Sched) (t : Z) (cpu : nat) : bool :=
  match kthread_current_cpu s t with Some owner => negb (owner =? cpu)%nat | None => false end.

Definition read_active_bitmap (s : Sched) (c : nat) : Z :=
  if (MAX_CPUS <=? c)%nat then 0 else match prcb s c with Some p => rq_bitmap (pr_rq p) | None => 0 end.
Definition highest_ready_priority (s : Sched) : Z :=
  foldl (λ p c, let bm := read_active_bitmap s c in
                if negb (bm =? 0) && (trailing_zeros8 bm <? p) then trailing_zeros8 bm else p) PRIORITY_COUNT (seq 0 MAX_CPUS).

Definition kernel_thread_starved (s : Sched) (cpu : nat) : bool :=
  existsb (λ k, negb (k_idle k) && is_ready (k_state k) && (k_cpu k =? cpu)%nat && (MAX_STARVATION_TICKS <=? k_starved k) && is_kernel_thread s k) (thread_list s).

Definition idle_of (cpu : nat) (o : option Kthread) : Prop := match o with Some k => k_idle k = true /\ k_cpu k = cpu | None => False end.
#[global] Instance idle_of_dec cpu o : Decision (idle_of cpu o).
Proof. destruct o; apply _. Defined.
Definition find_idle_ptr (s : Sched) (cpu : nat) : option nat := fst <$> list_find (idle_of cpu) (s_threads s).

(** [save_live_rsp_checked]. *)
Definition rsp_in_kernel_stack (ks_top size rsp : Z) : bool :=
  if (ks_top =? 0) || (size =? 0) then true else (sat_sub ks_top size <=? rsp) && (rsp <? ks_top).
Definition save_live_rsp_checked (rsp : Z) (k : Kthread) : Kthread :=
  if (k_tid k =? BOOT_TID) || rsp_in_kernel_stack (k_ks_top k) (k_ks_size k) rsp then with_rsp rsp k else k.

(** The loop of [steal_and_migrate]: every turn takes an id from the victim. *)
Fixpoint steal_loop (n : nat) (victim thief stolen : nat) (s : Sched) : nat * Sched :=
  match n, prcb s victim, prcb s thief with
  | S n, Some pv, Some pt =>
      if (RUNQUEUE_PRIO_CAP * 4 <=? rq_count (pr_rq pt))%nat then (stolen, s)
      else
        match rq_peek_highest (pr_rq pv), rq_pop (pr_rq pv) with
        | Some t, Some (_, rqv) =>
            let popped := on_cpu victim (set_rq rqv) s in
            match find_kthread s t with
            | Some k =>
                if negb (t =? BOOT_TID) && is_ready (k_state k) then
                  if candidate_owned_elsewhere s t thief then (stolen, s)
                  else
                    let '(pushed, rqt) := rq_push_priority t (k_prio k) (pr_rq pt) in
                    if pushed then steal_loop n victim thief (S stolen) (on_cpu thief (set_rq rqt) (update t (with_cpu thief) popped))
                    else (stolen, on_cpu victim (set_rq (rq_push_priority t (k_prio k) rqv).2) popped)
                else steal_loop n victim thief stolen popped
            | None => steal_loop n victim thief stolen popped
            end
        | _, _ => (stolen, s)
        end
  | _, _, _ => (stolen, s)
  end.
Definition steal_and_migrate (victim thief : nat) (s : Sched) : nat * Sched :=
  if (MAX_CPUS <=? victim)%nat || (MAX_CPUS <=? thief)%nat then (0%nat, s)
  else match prcb s victim with Some pv => steal_loop (rq_count (pr_rq pv)) victim thief 0 s | None => (0%nat, s) end.

Section scheduling.
Context (cs_at : Z -> Z) (this : nat).

Definition frame_is_ring3 (k : Kthread) : bool := if k_rsp k <? 0x1000 then false else Z.land (cs_at (k_rsp k + 128)) 3 =? 3.

Definition try_dequeue_local (s : Sched) : option (Z * Sched) :=
  p ← prcb s this; '(t, rq) ← rq_pop (pr_rq p); Some (t, on_cpu this (set_rq rq) s).

Fixpoint steal_from (victims : list nat) (s : Sched) : option Z * Sched :=
  match victims with
  | [] => (None, s)
  | v :: victims =>
      if (v =? this)%nat then steal_from victims s
      else
        let '(stolen, s) := steal_and_migrate v this s in
        if (0 <? stolen)%nat then match try_dequeue_local s with Some (t, s) => (Some t, s) | None => (None, s) end
        else steal_from victims s
  end.
Definition try_work_steal (s : Sched) : option Z * Sched := steal_from (seq 0 MAX_CPUS) s.

(** The thread this processor runs, if it is one of this table. *)
Definition kprcb_thread (s : Sched) : option Z :=
  t ← (p ← prcb s this; pr_current p); match slot_linear s t with Some _ => Some t | None => None end.
Definition effective_tid (s : Sched) : Z := default (s_current s) (kprcb_thread s).
(** [current_tid_checked]; [None] is the bug check. *)
Definition current_tid_checked (s : Sched) : option Z :=
  match kprcb_thread s with Some t => Some t | None => if s_ap_active s then None else Some (s_current s) end.

(** [sync_per_cpu_current] when the block is this scheduler's. *)
Definition sync_per_cpu_current (k : Kthread) (s : Sched) : Sched :=
  on_cpu this (λ p, mkPrcb (Some (k_tid k)) (k_pid k) ((k_pid k =? 0) || k_idle k) (pr_need p) (pr_rq p) (pr_ticks p) (pr_switches p)) s.
Definition sync_if_global (k : Kthread) (s : Sched) : Sched := match kprcb_thread s with Some _ => sync_per_cpu_current k s | None => s end.

Definition tick_base (s : Sched) : Z := match prcb s this with Some p => pr_ticks p | None => CPU_TIME_UNSET end.
Definition mark_dispatch (base : Z) (k : Kthread) : Kthread := with_acct (mkAcct (ac_ticks (k_acct k)) (ac_time (k_acct k)) base) k.
Definition account_dispatch (base : Z) (k : Kthread) : Kthread :=
  let k := with_starved 0 k in
  let k := if k_prio k <? k_base k then with_prio (k_base k) (k_base k) k else k in
  if k_idle k || bool_decide (k_state k = Terminated) then mark_dispatch CPU_TIME_UNSET k else mark_dispatch base (fresh_slice k).

(** [account_tick] with the processor's counter. *)
Definition account_tick (s : Sched) (k : Kthread) : Kthread :=
  match prcb s this with
  | None => k
  | Some p =>
      let a := k_acct k in
      if ac_base a =? CPU_TIME_UNSET then mark_dispatch (pr_ticks p) k
      else
        let elapsed := sat_sub (pr_ticks p) (ac_base a) in
        if elapsed =? 0 then k else with_acct (mkAcct (ac_ticks a) (sat_add 64 (ac_time a) elapsed) (pr_ticks p)) k
  end.

Definition pid_of (s : Sched) (t : Z) : Z := default 0 (k_pid <$> find_kthread s t).

(** The commit of the candidate [k] in slot [i], on all paths. *)
Definition commit (i : nat) (k : Kthread) (s : Sched) : Sched :=
  let prev := effective_tid s in
  let s := sync_if_global k (set_current (k_tid k) s) in
  let s := at_slot i (λ k, account_dispatch (tick_base s) (with_state Running k)) s in
  reap_pending_zombies (pid_of s prev) s.

Definition dispatch_idle (s : Sched) : option (Z * Sched) :=
  i ← find_idle_ptr s this; k ← mjoin (s_threads s !! i);
  if bool_decide (k_state k = Terminated) then None
  else
    let s := remove_from_run_queue k s in
    let prev := effective_tid s in
    let s := sync_if_global k (set_current (k_tid k) s) in
    let s := at_slot i (λ k, with_slice IDLE_TIME_SLICE (with_state Running k)) s in
    Some (k_tid k, reap_pending_zombies (pid_of s prev) s).

(** A thread taken from a run queue: committed, or put back when it is ready. *)
Definition candidate_ok (require_ring3 : bool) (s : Sched) (k : Kthread) : bool :=
  is_ready (k_state k) && (negb require_ring3 || k_kernel k || frame_is_ring3 k) && negb (candidate_owned_elsewhere s (k_tid k) this)
  && (k_prio k <=? highest_ready_priority s).
Definition try_candidate (require_ring3 : bool) (t : Z) (s : Sched) : option Z * Sched :=
  match i ← slot_linear s t; k ← mjoin (s_threads s !! i); Some (i, k) with
  | Some (i, k) =>
      if candidate_ok require_ring3 s k then (Some t, commit i k s)
      else if is_ready (k_state k) then (None, enqueue_to_cpu_run_queue k s)
      else (None, s)
  | None => (None, s)
  end.

(** The global priority scan. *)
Definition scan_ok (require_ring3 : bool) (s : Sched) (prio t : Z) (o : option Kthread) : Prop :=
  match o with
  | Some k => k_tid k = t /\ k_state k = Ready /\ k_prio k = prio /\ negb require_ring3 || k_kernel k || frame_is_ring3 k = true /\ k_idle k = false
      /\ ~ (t = BOOT_TID /\ this ≠ 0%nat) /\ candidate_owned_elsewhere s t this = false
  | None => False
  end.
#[global] Instance scan_ok_dec r s p t o : Decision (scan_ok r s p t o).
Proof. destruct o; apply _. Defined.
Definition scan_pick (require_ring3 : bool) (s : Sched) : option nat :=
  let n := Z.max (s_next_tid s) 1 in
  let start := u32 (effective_tid s + 1) `mod` n in
  first_some (λ prio, first_some (λ off, fst <$> list_find (scan_ok require_ring3 s prio (u32 (start + off) `mod` n)) (s_threads s)) (seqZ 0 (s_next_tid s))) (seqZ 0 PRIORITY_COUNT).
Definition scan (require_ring3 : bool) (s : Sched) : option (Z * Sched) :=
  i ← scan_pick require_ring3 s; k ← mjoin (s_threads s !! i);
  let s := remove_from_run_queue k s in
  let k' := match kprcb_thread s with Some _ => with_cpu this k | None => k end in
  Some (k_tid k, commit i k' (at_slot i (λ _, k') s)).

Definition set_kernel_handoff (b : bool) (s : Sched) : Sched := set_handoff (<[this := b]> (s_handoff s)) s.

Definition schedule_with_handoff (require_ring3 allow_handoff : bool) (s : Sched) : option (Z * Sched) :=
  let s := count_call s in
  match (if require_ring3 && allow_handoff && kernel_thread_starved s this then dispatch_idle s else None) with
  | Some (t, s) => Some (t, set_kernel_handoff true s)
  | None =>
      let '(r, s) := match try_dequeue_local s with Some (t, s) => try_candidate require_ring3 t s | None => (None, s) end in
      match r with
      | Some t => Some (t, s)
      | None =>
          let '(r, s) := match try_work_steal s with (Some t, s) => try_candidate require_ring3 t s | (None, s) => (None, s) end in
          match r with
          | Some t => Some (t, s)
          | None => match scan require_ring3 s with Some r => Some r | None => dispatch_idle s end
          end
      end
  end.
Definition schedule (s : Sched) : option (Z * Sched) := schedule_with_handoff false false s.

(** ** The timer *)

(** The work on the running thread [k] in slot [i]; [preempt] is
    [preempt_disabled()] and [exposed] says that it may be published. *)
Definition tick_running (rsp : Z) (preempt exposed : bool) (i : nat) (k : Kthread) (s : Sched) : Sched :=
  let a := k_acct k in
  let k := with_acct (mkAcct (u64 (ac_ticks a + 1)) (ac_time a) (ac_base a)) k in
  let k := if k_idle k then k else account_tick s k in
  let k := if 0 <? k_slice k then with_slice (k_slice k - 1) k else k in
  if negb (k_slice k =? 0) then at_slot i (λ _, k) s
  else
    let k := with_yield false k in
    let k := match kprcb_thread s with Some _ => save_live_rsp_checked rsp k | None => with_rsp rsp k end in
    let k := with_cpu this k in
    if preempt || negb exposed then at_slot i (λ _, fresh_slice k) s
    else
      let k := with_state Ready k in
      let s := at_slot i (λ _, k) s in
      set_resched (if negb (k_tid k =? BOOT_TID) && negb (k_idle k) then enqueue_to_cpu_run_queue k s else s).

Definition on_timer_tick (rsp cs : Z) (preempt : bool) (s : Sched) : option Sched :=
  let s := count_tick s in
  let s := if s_ticks s `mod` AGING_INTERVAL_TICKS =? 0 then apply_aging s else s in
  let kernel := default true (is_kernel_thread s <$> find_kthread s (effective_tid s)) in
  t ← current_tid_checked s;
  match i ← find_slot s t; k ← mjoin (s_threads s !! i); Some (i, k) with
  | Some (i, k) => Some (if bool_decide (k_state k = Running) then tick_running rsp preempt ((Z.land cs 3 =? 3) || kernel) i k s else s)
  | None => Some s
  end.

(** Saving the interrupted context of thread [t] and publishing it. *)
Definition publish (gate : bool) (rsp t : Z) (s : Sched) : Sched :=
  match i ← find_slot s t; k ← mjoin (s_threads s !! i); Some (i, k) with
  | Some (i, k) =>
      let k := with_cpu this (with_yield false (save_live_rsp_checked rsp k)) in
      let s := at_slot i (λ _, k) s in
      if bool_decide (k_state k = Running) && (negb gate || frame_is_ring3 k) then make_thread_ready i k s else s
  | None => s
  end.

(** The switch to the thread that was selected; [None] is a panic. *)
Definition switch_to (next : Z) (k : Kthread) (s : Sched) : option (Z * Sched) :=
  if k_ks_top k =? 0 then None else Some (k_rsp k, on_cpu this (switched_to next (k_pid k)) s).
Definition restart (idle_slice : bool) (k : Kthread) : Kthread :=
  with_starved 0 (if idle_slice && k_idle k then with_slice IDLE_TIME_SLICE k else fresh_slice k).

Definition accept_non_ring3_dispatch (handoff : bool) (next : Kthread) : bool := handoff || (k_kernel next && negb (k_idle next)).

(** A candidate that cannot be entered from here: keep the current thread. *)
Definition revert_dispatch (next tid : Z) (s : Sched) : Sched :=
  let s := update next (with_state Ready) s in
  let s := match find_kthread s next with Some k => enqueue_to_cpu_run_queue k s | None => s end in
  let s := match find_kthread s tid with
           | Some k => sync_per_cpu_current k (update tid (with_state Running) (remove_from_run_queue k s))
           | None => s
           end in
  set_current tid s.

Definition preempt_user (rsp tid : Z) (s : Sched) : option (Z * Sched) :=
  '(next, s) ← schedule_with_handoff true true (publish true rsp tid s);
  k ← find_kthread s next;
  if k_rsp k =? 0 then (if k_idle k then Some (rsp, s) else None)
  else if negb (Z.land (cs_at (k_rsp k + 128)) 3 =? 3) then
    let handoff := s_handoff s !!! this in
    let s := set_kernel_handoff false s in
    if accept_non_ring3_dispatch handoff k then Some (k_rsp k, on_cpu this (switched_to next (k_pid k)) s)
    else Some (rsp, revert_dispatch next tid s)
  else if next =? tid then Some (rsp, update next (λ k, with_starved 0 (fresh_slice (with_state Running k))) s)
  else switch_to next k (update next (restart true) s).

Definition preempt_idle (rsp tid : Z) (s : Sched) : option (Z * Sched) :=
  '(next, s) ← schedule (update tid (save_live_rsp_checked rsp) s);
  k ← find_kthread s next; switch_to next k (update next (restart false) s).

Definition preempt_kernel (rsp tid : Z) (s : Sched) : option (Z * Sched) :=
  '(next, s) ← schedule (publish false rsp tid s);
  k ← find_kthread s next;
  if k_rsp k =? 0 then (if k_idle k then Some (rsp, s) else None)
  else if next =? tid then Some (rsp, update next (λ k, with_starved 0 (fresh_slice (with_state Running k))) s)
  else switch_to next k (update next (restart false) s).

(** No switch: an expired thread goes on running. *)
Definition no_preemption (rsp tid : Z) (has_non_idle : bool) (s : Sched) : Z * Sched :=
  match find_kthread s tid with
  | Some k =>
      if (0 <? tid) && negb (bool_decide (k_state k = Terminated)) then
        let s := if is_ready (k_state k) then update tid (with_state Running) (remove_from_run_queue k s) else s in
        (rsp, on_cpu this (set_need true) s)
      else (rsp, if (0 <? tid) || has_non_idle then on_cpu this (set_need true) s else s)
  | None => (rsp, if (0 <? tid) || has_non_idle then on_cpu this (set_need true) s else s)
  end.

Definition timer_handler_inner (rsp : Z) (preempt : bool) (s : Sched) : option (Z * Sched) :=
  let s := on_cpu this inc_ticks s in
  if negb (this =? 0)%nat && negb (s_ap_active s) then Some (rsp, s)
  else
    let cs := cs_at (rsp + 128) in
    let user := Z.land cs 3 =? 3 in
    s ← on_timer_tick rsp cs preempt s;
    tid ← current_tid_checked s;
    let has := has_non_idle_threads s in
    let cur := find_kthread s tid in
    let ready := bool_decide (k_state <$> cur = Some Ready) in
    let idle := default false (k_idle <$> cur) in
    let yield := default false (k_yield <$> cur) in
    if user && negb idle then
      if ready || yield then preempt_user rsp tid s
      else if negb (bool_decide (k_state <$> cur = Some Terminated)) && bool_decide (is_Some cur) then Some (rsp, on_cpu this (set_need true) s)
      else Some (no_preemption rsp tid has s)
    else if idle then
      if ready && has then preempt_idle rsp tid s else Some (no_preemption rsp tid has s)
    else if (user || default true (is_kernel_thread s <$> cur)) && (ready || yield) && has then preempt_kernel rsp tid s
    else Some (no_preemption rsp tid has s).
End scheduling.
