(* ===== verification/SchedOk.v ===== *)
(** * SchedOk.v: the invariant of the scheduler on one processor

    The run queue against the thread table: every ready thread is queued exactly
    once, in the ring of its priority.  The effect of aging, expiry and dispatch
    on table and queue. *)

From stdpp Require Import gmap.
From S2P Require Import Prelude RunQueue Sched.
Open Scope Z_scope.

(** ** The four lists *)

Lemma concat_insert_perm (ls : list (list Z)) p l l' x : ls !! p = Some l -> l' ≡ₚ x :: l -> concat (<[p := l']> ls) ≡ₚ x :: concat ls.
Proof.
  revert p. induction ls as [|y ls IH]; intros [|p] Hp Hl; [done|done| |].
  - injection Hp as ->. change (<[0%nat := l']> (l :: ls)) with (l' :: ls). rewrite !concat_cons, Hl. done.
  - change (<[S p := l']> (y :: ls)) with (y :: <[p := l']> ls). rewrite !concat_cons, (IH p); [|done|done]. symmetry. apply Permutation_middle.
Qed.

Lemma ring_insert (ls : list (list Z)) p q l : (p < length ls)%nat -> <[p := l]> ls !!! q = if decide (q = p) then l else ls !!! q.
Proof. intros Hp. case_decide; [subst; by apply list_lookup_total_insert_eq|by apply list_lookup_total_insert_ne]. Qed.

Lemma elem_of_ring (ls : list (list Z)) t : t ∈ concat ls <-> exists p, (p < length ls)%nat /\ t ∈ ls !!! p.
Proof.
  rewrite list_elem_of_In, in_concat. split.
  - intros (l & Hl & Ht). apply list_elem_of_In, list_elem_of_lookup in Hl as [p Hp]. exists p. split; [by eapply lookup_lt_Some|].
    rewrite (list_lookup_total_correct _ _ _ Hp). by apply list_elem_of_In.
  - intros (p & Hp & Ht). exists (ls !!! p). split; apply list_elem_of_In; [by apply list_elem_of_lookup_total_2|done].
Qed.

(** An id is in one ring only. *)
Lemma ring_unique (ls : list (list Z)) t p q : NoDup (concat ls) -> (p < length ls)%nat -> (q < length ls)%nat -> t ∈ ls !!! p -> t ∈ ls !!! q -> p = q.
Proof.
  revert p q. induction ls as [|l ls IH]; intros p q Hnd Hp Hq Htp Htq; cbn [length] in *; [lia|]. rewrite concat_cons in Hnd. apply NoDup_app in Hnd as (_ & Hdis & Hnd).
  destruct p as [|p], q as [|q]; [done| | |f_equal; apply IH; try done; lia].
  - exfalso. apply (Hdis t Htp), elem_of_ring. exists q. split; [lia|done].
  - exfalso. apply (Hdis t Htq), elem_of_ring. exists p. split; [lia|done].
Qed.

Section lists.
Context (ls : list (list Z)) (H4 : length ls = 4%nat) (Hnd : NoDup (concat ls)).

Lemma ring_lookup p : (p < 4)%nat -> ls !! p = Some (ls !!! p).
Proof. intros. apply list_lookup_lookup_total_lt. lia. Qed.

(** Pushing a new id. *)
Lemma ls_push_new t prio : 0 <= prio < 4 -> t ∉ concat ls -> (length (concat ls) < 64)%nat ->
  let ls' := <[Z.to_nat prio := (ls !!! Z.to_nat prio) ++ [t]]> ls in
  ls_push t prio ls = (true, ls') /\ NoDup (concat ls') /\ length ls' = 4%nat /\
  forall x p, (p < 4)%nat -> x ∈ ls' !!! p <-> x ∈ ls !!! p \/ (x = t /\ Z.of_nat p = prio).
Proof.
  intros Hprio Hnew Hlen ls'. unfold ls_push. rewrite (Z.min_l prio 3) by lia. split_and!.
  - rewrite decide_True; [done|]. pose proof (length_concat_insert ls (Z.to_nat prio) [] ltac:(lia)). cbn [length] in *. unfold RUNQUEUE_PRIO_CAP. lia.
  - unfold ls'. rewrite (concat_insert_perm ls _ (ls !!! Z.to_nat prio) _ t); [by apply NoDup_cons|apply ring_lookup; lia|]. by rewrite <- Permutation_cons_append.
  - unfold ls'. by rewrite length_insert.
  - intros x p Hp. unfold ls'. rewrite ring_insert by lia. case_decide as E; [subst p; rewrite elem_of_app, list_elem_of_singleton|]; [|split; [by left|]; intros [?|[_ ?]]; [done|lia]].
    split; intros [?|?]; [by left|right; split; [done|lia]|by left|right; naive_solver].
Qed.

(** Taking the oldest id of the highest priority. *)
Lemma ls_pop_first t ls' : ls_pop ls = Some (t, ls') ->
  exists p l, (p < 4)%nat /\ ls !!! p = t :: l /\ ls' = <[p := l]> ls /\ (forall q, (q < p)%nat -> ls !!! q = []) /\ NoDup (concat ls') /\ length ls' = 4%nat /\
    (t ∉ concat ls') /\ forall x q, (q < 4)%nat -> x ≠ t -> x ∈ ls' !!! q <-> x ∈ ls !!! q.
Proof.
  unfold ls_pop, highest. destruct (list_find _ ls) as [[p l0]|] eqn:Ef; [|done]. apply list_find_Some in Ef as (Hp & Hne & Hlow). destruct l0 as [|y l]; [done|].
  intros [= -> <-]. pose proof (lookup_lt_Some _ _ _ Hp) as Hlt. assert (concat ls ≡ₚ t :: concat (<[p := l]> ls)) as Hperm.
  { rewrite <- (concat_insert_perm (<[p := l]> ls) p l (t :: l) t); [by rewrite list_insert_insert_eq, list_insert_id by done|by apply list_lookup_insert_eq|done]. }
  assert (NoDup (t :: concat (<[p := l]> ls))) as Hnd' by by rewrite <- Hperm. apply NoDup_cons in Hnd' as [Hnin Hnd'].
  exists p, l. rewrite H4 in Hlt. split_and!; try done; [by apply list_lookup_total_correct| |by rewrite length_insert|].
  - intros q Hq. destruct (lookup_lt_is_Some_2 ls q ltac:(lia)) as [x Hx]. rewrite (list_lookup_total_correct _ _ _ Hx). pose proof (Hlow q x Hx Hq) as Hn. by destruct x; [|destruct Hn].
  - intros x q Hq Hx. rewrite ring_insert by lia. case_decide; [|done]. subst q. rewrite (list_lookup_total_correct _ _ _ Hp), elem_of_cons. naive_solver.
Qed.

Lemma remove_first_perm t l : t ∈ l -> l ≡ₚ t :: remove_first t l.
Proof.
  intros Hin. unfold remove_first. destruct (list_find _ l) as [[p y]|] eqn:Ef.
  - apply list_find_Some in Ef as (Hp & -> & _). by apply delete_Permutation.
  - apply list_find_None in Ef. rewrite Forall_forall in Ef. by destruct (Ef t Hin).
Qed.

(** Removing an id. *)
Lemma ls_remove_elem t : NoDup (concat (ls_remove t ls)) /\ length (ls_remove t ls) = 4%nat /\ (t ∉ concat (ls_remove t ls)) /\
  (forall x q, (q < 4)%nat -> x ≠ t -> x ∈ ls_remove t ls !!! q <-> x ∈ ls !!! q) /\ (forall q, (q < 4)%nat -> t ∉ ls !!! q -> ls_remove t ls !!! q = ls !!! q).
Proof.
  unfold ls_remove. destruct (list_find _ ls) as [[p l]|] eqn:Ef.
  - apply list_find_Some in Ef as (Hp & Hin & _). pose proof (lookup_lt_Some _ _ _ Hp) as Hlt. pose proof (remove_first_perm t l Hin) as Hperm.
    assert (concat ls ≡ₚ t :: concat (<[p := remove_first t l]> ls)) as Hc.
    { rewrite <- (concat_insert_perm (<[p := remove_first t l]> ls) p (remove_first t l) l t); [by rewrite list_insert_insert_eq, list_insert_id by done|by apply list_lookup_insert_eq|done]. }
    assert (NoDup (t :: concat (<[p := remove_first t l]> ls))) as Hnd' by by rewrite <- Hc. apply NoDup_cons in Hnd' as [Hnin Hnd'].
    split_and!; try done; [by rewrite length_insert|..].
    + intros x q Hq Hx. rewrite ring_insert by done. case_decide; [|done]. subst q. rewrite (list_lookup_total_correct _ _ _ Hp).
      pose proof (elem_of_Permutation_proper x _ _ Hperm) as Ep. rewrite elem_of_cons in Ep. naive_solver.
    + intros q Hq Hnq. rewrite ring_insert by done. case_decide; [|done]. subst q. by rewrite (list_lookup_total_correct _ _ _ Hp) in Hnq.
  - apply list_find_None in Ef. split_and!; try done. rewrite elem_of_ring. intros (p & Hp & Ht). rewrite Forall_forall in Ef.
    apply (Ef (ls !!! p)); [by apply list_elem_of_lookup_total_2|done].
Qed.
End lists.

(** ** One processor *)

(** The state with thread table [ths] and the only processor block [p]. *)
Definition one (p : Kprcb) : list (option Kprcb) := Some p :: replicate 15 None.
Definition st (s : Sched) (ths : list (option Kthread)) (p : Kprcb) : Sched := set_threads ths (set_cpus (one p) s).

Section one_cpu.
Context (cs_at : Z -> Z).

Definition runnable (k : Kthread) : Prop := k_state k = Ready /\ k_idle k = false /\ k_tid k ≠ BOOT_TID.
#[local] Instance runnable_dec k : Decision (runnable k) := _.

Definition user_frame (rsp : Z) : Prop := 0x1000 <= rsp /\ Z.land (cs_at (rsp + 128)) 3 = 3.

(** A thread that can be entered again: a stack, a saved frame, and one for user
    mode unless it is a kernel thread. *)
Record thread_ok (k : Kthread) : Prop := {
  ok_prio : 0 <= k_prio k <= k_base k; ok_base : k_base k <= 3; ok_cpu : k_cpu k = 0%nat; ok_yield : k_yield k = false; ok_starved : 0 <= k_starved k;
  ok_rsp : k_rsp k ≠ 0; ok_stack : k_ks_top k ≠ 0;
  ok_frame : k_idle k = false -> k_kernel k = true \/ user_frame (k_rsp k);
  ok_idle : k_idle k = true -> k_state k ≠ Terminated; ok_boot : k_idle k = true -> k_tid k ≠ BOOT_TID;
}.

Definition uniq (ths : list (option Kthread)) : Prop :=
  forall i j k k', ths !! i = Some (Some k) -> ths !! j = Some (Some k') -> k_tid k = k_tid k' -> i = j.

Record qinv (ths : list (option Kthread)) (ls : list (list Z)) : Prop := {
  q_uniq : uniq ths; q_slots : (length ths <= 64)%nat; q_four : length ls = 4%nat; q_nodup : NoDup (concat ls);
  q_in : forall t p, (p < 4)%nat -> t ∈ ls !!! p <-> exists i k, ths !! i = Some (Some k) /\ k_tid k = t /\ runnable k /\ k_prio k = Z.of_nat p;
  q_ok : forall i k, ths !! i = Some (Some k) -> thread_ok k;
  q_idle : exists i k, ths !! i = Some (Some k) /\ k_idle k = true;
}.

Lemma slot_linear_at s ths p i k : uniq ths -> ths !! i = Some (Some k) -> slot_linear (st s ths p) (k_tid k) = Some i.
Proof.
  intros Hu Hi. unfold slot_linear. change (s_threads (st s ths p)) with ths. destruct (list_find (has_tid (k_tid k)) ths) as [[j o]|] eqn:Ef.
  - apply list_find_Some in Ef as (Hj & Ho & _). destruct o as [k'|]; [|done]. cbn. f_equal. injection Ho as Ho. by apply (Hu j i k' k).
  - apply list_find_None in Ef. rewrite Forall_forall in Ef. destruct (Ef (Some k)); [by eapply list_elem_of_lookup_2|done].
Qed.

Lemma find_slot_at s ths p i k : uniq ths -> ths !! i = Some (Some k) -> find_slot (st s ths p) (k_tid k) = Some i.
Proof.
  intros Hu Hi. unfold find_slot. change (s_index (st s ths p)) with (s_index s). change (s_threads (st s ths p)) with ths.
  destruct (s_index s !! k_tid k) as [j|]; [|by apply slot_linear_at]. case_decide as Hj; [|by apply slot_linear_at].
  destruct (ths !! j) as [[k'|]|] eqn:E; try done. injection Hj as Hj. f_equal. by apply (Hu j i k' k).
Qed.

Lemma find_kthread_at s ths p i k : uniq ths -> ths !! i = Some (Some k) -> find_kthread (st s ths p) (k_tid k) = Some k.
Proof. intros Hu Hi. unfold find_kthread. rewrite (find_slot_at s ths p i k) by done. cbn [mbind option_bind]. change (s_threads (st s ths p)) with ths. by rewrite Hi. Qed.

Lemma at_slot_st s ths p i k f : ths !! i = Some (Some k) -> at_slot i f (st s ths p) = st s (<[i := Some (f k)]> ths) p.
Proof.
  intros Hi. unfold at_slot. change (set_threads (alter (fmap f) i ths) (st s ths p) = st s (<[i := Some (f k)]> ths) p).
  assert (alter (fmap f) i ths = <[i := Some (f k)]> ths) as ->; [|done]. apply list_eq. intros j. destruct (decide (i = j)) as [<-|Hne].
  - rewrite list_lookup_alter_eq, list_lookup_insert_eq, Hi by by eapply lookup_lt_Some. done.
  - by rewrite list_lookup_alter_ne, list_lookup_insert_ne.
Qed.

Lemma update_st s ths p i k f : uniq ths -> ths !! i = Some (Some k) -> update (k_tid k) f (st s ths p) = st s (<[i := Some (f k)]> ths) p.
Proof. intros Hu Hi. unfold update. rewrite (find_slot_at s ths p i k) by done. by apply at_slot_st. Qed.

Lemma on_cpu_st s ths p f : on_cpu 0 f (st s ths p) = st s ths (f p).
Proof. done. Qed.

Lemma prcb_st s ths p : prcb (st s ths p) 0 = Some p.
Proof. done. Qed.

Lemma kprcb_thread_st s ths p i k : uniq ths -> ths !! i = Some (Some k) -> pr_current p = Some (k_tid k) -> kprcb_thread 0 (st s ths p) = Some (k_tid k).
Proof. intros Hu Hi Hc. unfold kprcb_thread. rewrite prcb_st. cbn [mbind option_bind]. rewrite Hc. cbn [mbind option_bind]. by rewrite (slot_linear_at s ths p i k). Qed.

Lemma uniq_insert ths i k k' : uniq ths -> ths !! i = Some (Some k) -> k_tid k' = k_tid k -> uniq (<[i := Some k']> ths).
Proof.
  intros Hu Hi Ht a b x y Ha Hb E. pose proof (lookup_lt_Some _ _ _ Hi) as Hlt. destruct (decide (a = i)) as [->|Hna], (decide (b = i)) as [->|Hnb]; [done|..].
  - rewrite list_lookup_insert_eq in Ha by done. injection Ha as <-. rewrite list_lookup_insert_ne in Hb by done. apply (Hu i b k y); congruence.
  - rewrite list_lookup_insert_eq in Hb by done. injection Hb as <-. rewrite list_lookup_insert_ne in Ha by done. apply (Hu a i x k); congruence.
  - rewrite list_lookup_insert_ne in Ha, Hb by done. by apply (Hu a b x y).
Qed.

(** Changing one thread and the place of its id. *)
Lemma q_change ths ls i k k' ls' : qinv ths ls -> ths !! i = Some (Some k) -> k_tid k' = k_tid k -> k_idle k' = k_idle k -> thread_ok k' ->
  NoDup (concat ls') -> length ls' = 4%nat -> (forall t p, (p < 4)%nat -> t ≠ k_tid k -> t ∈ ls' !!! p <-> t ∈ ls !!! p) ->
  (forall p, (p < 4)%nat -> k_tid k ∈ ls' !!! p <-> runnable k' /\ k_prio k' = Z.of_nat p) -> qinv (<[i := Some k']> ths) ls'.
Proof.
  intros [Hu Hs _ _ Hin Hok Hid] Hi Ht Hidle Hk' Hnd H4 Hother Hself. pose proof (lookup_lt_Some _ _ _ Hi) as Hlt. constructor; try done.
  - by eapply uniq_insert.
  - by rewrite length_insert.
  - intros t p Hp. destruct (decide (t = k_tid k)) as [->|Hne].
    + rewrite Hself by done. split; [intros [Hr Hpr]; exists i, k'; by rewrite list_lookup_insert_eq|]. intros (j & x & Hj & Hx & Hr & Hpr).
      destruct (decide (i = j)) as [<-|Hij]; [rewrite list_lookup_insert_eq in Hj by done; by injection Hj as <-|].
      rewrite list_lookup_insert_ne in Hj by done. by destruct (Hij (Hu i j k x Hi Hj (eq_sym Hx))).
    + rewrite Hother, Hin by done. split; intros (j & x & Hj & Hx & Hr & Hpr); exists j, x; split_and!; try done.
      * rewrite list_lookup_insert_ne; [done|]. intros <-. rewrite Hi in Hj. injection Hj as ->. done.
      * rewrite list_lookup_insert_ne in Hj; [done|]. intros <-. rewrite list_lookup_insert_eq in Hj by done. injection Hj as <-. by rewrite Ht in Hx.
  - intros j x Hj. destruct (decide (i = j)) as [<-|Hij]; [rewrite list_lookup_insert_eq in Hj by done; by injection Hj as <-|]. rewrite list_lookup_insert_ne in Hj by done. by eapply Hok.
  - destruct Hid as (j & x & Hj & Hx). destruct (decide (i = j)) as [<-|Hij].
    + exists i, k'. rewrite list_lookup_insert_eq by done. split; [done|]. rewrite Hidle. rewrite Hi in Hj. by injection Hj as ->.
    + exists j, x. by rewrite list_lookup_insert_ne.
Qed.

(** Changing a thread without its place in the queue. *)
Lemma q_same ths ls i k k' : qinv ths ls -> ths !! i = Some (Some k) -> k_tid k' = k_tid k -> k_idle k' = k_idle k -> k_state k' = k_state k -> k_prio k' = k_prio k ->
  thread_ok k' -> qinv (<[i := Some k']> ths) ls.
Proof.
  intros Hq Hi Ht Hid Hst Hpr Hok. eapply q_change; try done; [by apply (q_nodup _ _ Hq)|by apply (q_four _ _ Hq)|]. intros p Hp. rewrite (q_in _ _ Hq) by done.
  unfold runnable. rewrite Ht, Hid, Hst, Hpr. split; [|intros [Hr Hp']; by exists i, k]. intros (j & x & Hj & Hx & Hr & Hp').
  pose proof (q_uniq _ _ Hq j i x k Hj Hi Hx) as ->. rewrite Hi in Hj. injection Hj as ->. done.
Qed.

(** There is room for every thread that is not queued yet. *)
Lemma q_room ths ls i k : qinv ths ls -> ths !! i = Some (Some k) -> k_tid k ∉ concat ls -> (length (concat ls) < 64)%nat.
Proof.
  intros Hq Hi Hn. assert (forall l : list (option Kthread), length (omap (fmap k_tid) l) <= length l)%nat as Hom.
  { intros l. induction l as [|[x|] l IH]; cbn in *; lia. }
  assert (length (k_tid k :: concat ls) <= length (omap (fmap k_tid) ths))%nat as Hlen.
  { apply submseteq_length, NoDup_submseteq; [apply NoDup_cons; split; [done|apply (q_nodup _ _ Hq)]|]. intros t Ht. apply list_elem_of_omap.
    apply elem_of_cons in Ht as [->|Ht]; [exists (Some k); split; [by eapply list_elem_of_lookup_2|done]|].
    apply elem_of_ring in Ht as (p & Hp & Ht). rewrite (q_four _ _ Hq) in Hp. apply (q_in _ _ Hq) in Ht as (j & x & Hj & <- & _); [|done].
    exists (Some x). split; [by eapply list_elem_of_lookup_2|done]. }
  cbn [length] in Hlen. pose proof (Hom ths). pose proof (q_slots _ _ Hq). lia.
Qed.

Lemma set_rq_id p : set_rq (pr_rq p) p = p.
Proof. by destruct p. Qed.

Lemma enqueue_st s ths p ls k : length ls = 4%nat -> NoDup (concat ls) -> rq_rep (pr_rq p) ls -> k_cpu k = 0%nat -> 0 <= k_prio k < 4 -> k_tid k ≠ BOOT_TID -> k_idle k = false ->
  k_tid k ∉ concat ls -> (length (concat ls) < 64)%nat ->
  let ls' := <[Z.to_nat (k_prio k) := (ls !!! Z.to_nat (k_prio k)) ++ [k_tid k]]> ls in
  exists rq', enqueue_to_cpu_run_queue k (st s ths p) = st s ths (set_rq rq' p) /\ rq_rep rq' ls'.
Proof.
  intros H4 Hnd Hr Hc Hprio Hb Hid Hnin Hlen ls'. unfold enqueue_to_cpu_run_queue. rewrite (proj2 (Z.eqb_neq _ _) Hb), Hid, Hc. cbn [orb Nat.leb MAX_CPUS]. rewrite prcb_st.
  rewrite (rq_contains_rep _ _ _ Hr), bool_decide_false by done. destruct (ls_push_new ls H4 Hnd (k_tid k) (k_prio k) Hprio Hnin Hlen) as (E & _).
  destruct (rq_push_rep (k_tid k) (k_prio k) _ _ Hr ltac:(lia)) as (rq' & -> & Hr'). rewrite E in Hr' |- *. cbn [fst snd] in *. exists rq'. split; [done|done].
Qed.

Lemma enqueue_skip s k : k_tid k = BOOT_TID \/ k_idle k = true -> enqueue_to_cpu_run_queue k s = s.
Proof. unfold enqueue_to_cpu_run_queue. intros [-> | ->]; [done|]. by rewrite orb_true_r. Qed.

Lemma remove_st s ths p ls k : rq_rep (pr_rq p) ls -> k_cpu k = 0%nat -> exists rq', remove_from_run_queue k (st s ths p) = st s ths (set_rq rq' p) /\ rq_rep rq' (ls_remove (k_tid k) ls).
Proof.
  intros Hr Hc. unfold remove_from_run_queue. rewrite Hc. cbn [Nat.leb MAX_CPUS]. destruct (rq_remove_rep (k_tid k) _ _ Hr) as (rq' & E & Hr').
  exists rq'. split; [|done]. rewrite on_cpu_st. by rewrite E.
Qed.

(** A runnable thread is queued under its priority, another one is not. *)
Lemma q_runnable ths ls i k p : qinv ths ls -> ths !! i = Some (Some k) -> (p < 4)%nat -> k_tid k ∈ ls !!! p <-> runnable k /\ k_prio k = Z.of_nat p.
Proof.
  intros Hq Hi Hp. rewrite (q_in _ _ Hq) by done. split; [|intros []; by exists i, k]. intros (j & x & Hj & Hx & Hr & Hpr).
  pose proof (q_uniq _ _ Hq j i x k Hj Hi Hx) as ->. rewrite Hi in Hj. by injection Hj as ->.
Qed.
Lemma q_not_queued ths ls i k : qinv ths ls -> ths !! i = Some (Some k) -> ~ runnable k -> k_tid k ∉ concat ls.
Proof. intros Hq Hi Hn Hin. apply elem_of_ring in Hin as (p & Hp & Hin). rewrite (q_four _ _ Hq) in Hp. by apply (q_runnable _ _ i k p Hq Hi Hp) in Hin as [Hr _]. Qed.

(** Appending a thread that becomes runnable. *)
Lemma q_append ths ls i k k' : qinv ths ls -> ths !! i = Some (Some k) -> k_tid k' = k_tid k -> k_idle k' = k_idle k -> thread_ok k' -> runnable k' -> k_tid k ∉ concat ls ->
  let ls' := <[Z.to_nat (k_prio k') := (ls !!! Z.to_nat (k_prio k')) ++ [k_tid k']]> ls in qinv (<[i := Some k']> ths) ls'.
Proof.
  intros Hq Hi Ht Hid Hok Hr Hn. pose proof (ok_prio _ Hok). pose proof (ok_base _ Hok). rewrite Ht.
  destruct (ls_push_new ls (q_four _ _ Hq) (q_nodup _ _ Hq) (k_tid k) (k_prio k') ltac:(lia) Hn (q_room _ _ _ _ Hq Hi Hn)) as (_ & Hnd' & H4' & Hel).
  eapply q_change; try done.
  - intros t p Hp Hne. rewrite Hel by done. naive_solver.
  - intros p Hp. rewrite Hel by done. split; [|intros [_ E]; right; split; [done|lia]]. intros [Hin|[_ E]]; [|split; [done|lia]].
    destruct Hn. apply elem_of_ring. exists p. rewrite (q_four _ _ Hq). by split.
Qed.

(** A thread outside the queue stays outside. *)
Lemma q_quiet ths ls i k k' : qinv ths ls -> ths !! i = Some (Some k) -> k_tid k' = k_tid k -> k_idle k' = k_idle k -> thread_ok k' -> k_tid k ∉ concat ls -> ~ runnable k' ->
  qinv (<[i := Some k']> ths) ls.
Proof.
  intros Hq Hi Ht Hid Hok Hn Hr. eapply q_change; try done; [apply (q_nodup _ _ Hq)|apply (q_four _ _ Hq)|]. intros p Hp.
  split; [|by intros []]. intros Hin. destruct Hn. apply elem_of_ring. exists p. by rewrite (q_four _ _ Hq).
Qed.

(** ** Aging *)

Definition aged (k : Kthread) : Kthread :=
  if negb (k_idle k) && is_ready (k_state k) then
    let k1 := with_starved (sat_add 64 (k_starved k) AGING_INTERVAL_TICKS) k in
    if (MAX_STARVATION_TICKS <=? k_starved k1) && (PRIORITY_HIGH <? k_prio k1) then with_starved 0 (with_prio (k_prio k1 - 1) (k_base k1) k1) else k1
  else k.

Lemma aged_same k : k_tid (aged k) = k_tid k /\ k_idle (aged k) = k_idle k /\ k_state (aged k) = k_state k /\ k_slice (aged k) = k_slice k.
Proof. unfold aged. destruct (negb _ && _); [|done]. cbv zeta. by destruct (_ && _). Qed.

Lemma aged_ok k : thread_ok k -> thread_ok (aged k).
Proof.
  intros []. assert (0 <= sat_add 64 (k_starved k) AGING_INTERVAL_TICKS) by (unfold sat_add, AGING_INTERVAL_TICKS; lia). unfold aged. destruct (negb _ && _); [|done]. cbv zeta.
  destruct (_ && _) eqn:E; constructor; try done. apply andb_true_iff in E as [_ E]. apply Z.ltb_lt in E. cbn in *. unfold PRIORITY_HIGH in E. lia.
Qed.

Lemma age_st s ths p ls i k : qinv ths ls -> rq_rep (pr_rq p) ls -> ths !! i = Some (Some k) ->
  exists rq' ls', age_thread i k (st s ths p) = st s (<[i := Some (aged k)]> ths) (set_rq rq' p) /\ qinv (<[i := Some (aged k)]> ths) ls' /\ rq_rep rq' ls' /\ (ls !!! 0%nat) `prefix_of` (ls' !!! 0%nat).
Proof.
  intros Hq Hr Hi. pose proof (q_ok _ _ Hq i k Hi) as Hok. pose proof (aged_ok k Hok) as Hok'. pose proof (aged_same k) as (At & Aid & Ast & _).
  assert (k_prio (aged k) = k_prio k -> age_thread i k (st s ths p) = st s (<[i := Some (aged k)]> ths) p ->
    exists rq' ls', age_thread i k (st s ths p) = st s (<[i := Some (aged k)]> ths) (set_rq rq' p) /\ qinv (<[i := Some (aged k)]> ths) ls' /\ rq_rep rq' ls' /\ (ls !!! 0%nat) `prefix_of` (ls' !!! 0%nat)) as Hsame.
  { intros Hp E. exists (pr_rq p), ls. rewrite set_rq_id. split_and!; try done. by eapply q_same. }
  unfold age_thread, aged in *. destruct (negb (k_idle k) && is_ready (k_state k)) eqn:Er; [|apply Hsame; [done|]; f_equal; by rewrite list_insert_id].
  cbv zeta in *. set (k1 := with_starved _ k) in *. destruct ((MAX_STARVATION_TICKS <=? _) && _) eqn:Eb; [|apply Hsame; [done|]; by rewrite (at_slot_st s ths p i k)].
  clear Hsame. set (k2 := with_starved 0 _) in *. apply andb_true_iff in Er as [Hid Hrd], Eb as [_ Hpr]. apply negb_true_iff in Hid. apply bool_decide_eq_true in Hrd. apply Z.ltb_lt in Hpr.
  unfold PRIORITY_HIGH in Hpr. change (k_prio k1) with (k_prio k) in Hpr. pose proof (ok_prio _ Hok). pose proof (ok_base _ Hok).
  destruct (remove_st s ths p ls k1 Hr (ok_cpu _ Hok)) as (rq1 & E1 & Hr1). change (k_tid k1) with (k_tid k) in Hr1.
  destruct (ls_remove_elem ls (q_four _ _ Hq) (q_nodup _ _ Hq) (k_tid k)) as (Hnd1 & H41 & Hn1 & Hel1 & Hring).
  rewrite E1, (at_slot_st s ths (set_rq rq1 p) i k) by done.
  assert (ls_remove (k_tid k) ls !!! 0%nat = ls !!! 0%nat) as Hz. { apply Hring; [lia|]. rewrite (q_runnable _ _ i k 0 Hq Hi) by lia. intros [_ E]. lia. }
  destruct (decide (k_tid k = BOOT_TID)) as [Hboot|Hboot].
  - rewrite (enqueue_skip _ k2) by (by left). exists rq1, (ls_remove (k_tid k) ls). split_and!; try done; [|by rewrite Hz]. eapply q_change; try done.
    intros q Hq4. split; [intros Hin; destruct Hn1; apply elem_of_ring; exists q; by rewrite H41|]. intros [(_ & _ & Hnb) _]. by destruct Hnb.
  - assert (length (concat (ls_remove (k_tid k) ls)) < 64)%nat as Hlen.
    { apply (q_room (<[i := Some (with_state Running k)]> ths) _ i (with_state Running k)); [|by apply list_lookup_insert_eq; eapply lookup_lt_Some|done].
      eapply q_change; try done; [by destruct Hok|]. intros q Hq4. split; [intros Hin; destruct Hn1; apply elem_of_ring; exists q; by rewrite H41|]. by intros [(? & _) _]. }
    destruct (enqueue_st s (<[i := Some k2]> ths) (set_rq rq1 p) (ls_remove (k_tid k) ls) k2 H41 Hnd1 Hr1) as (rq2 & E2 & Hr2); try done; [apply (ok_cpu _ Hok)|cbn; lia|].
    rewrite E2. change (k_tid k2) with (k_tid k) in Hr2. eexists rq2, _. split_and!; [done| |exact Hr2|].
    + destruct (ls_push_new _ H41 Hnd1 (k_tid k) (k_prio k2) ltac:(cbn; lia) Hn1 Hlen) as (_ & Hnd2 & H42 & Hel2). eapply q_change; try done.
      * intros t q Hq4 Hne. rewrite Hel2, Hel1 by done. naive_solver.
      * intros q Hq4. rewrite Hel2 by done. split; [|intros [_ E]; right; split; [done|lia]].
        intros [Hin|[_ E]]; [destruct Hn1; apply elem_of_ring; exists q; by rewrite H41|split; [done|lia]].
    + rewrite ring_insert by (rewrite H41; cbn; lia). case_decide as E0; [rewrite <- E0|]; rewrite ?Hz; [by apply prefix_app_r|done].
Qed.

(** ** Loops over the table *)

Section loop.
Context (f : nat -> Kthread -> Sched -> Sched) (g : Kthread -> Kthread).
Definition on_slot (o : option Kthread) : option Kthread := g <$> o.

(** The table when the first [m] slots have been changed. *)
Definition partly (m : nat) (ths : list (option Kthread)) : list (option Kthread) := (on_slot <$> take m ths) ++ drop m ths.

Lemma partly_lookup m ths : partly m ths !! m = ths !! m.
Proof.
  unfold partly. destruct (decide (m < length ths)%nat) as [Hm|Hm].
  - rewrite lookup_app_r, length_fmap, length_take, lookup_drop by (rewrite length_fmap, length_take; lia). f_equal. lia.
  - rewrite (lookup_ge_None_2 ths m), lookup_ge_None_2 by (rewrite ?length_app, ?length_fmap, ?length_take, ?length_drop; lia). done.
Qed.

Lemma partly_S m ths o : ths !! m = Some o -> partly (S m) ths = <[m := on_slot o]> (partly m ths).
Proof.
  intros Hm. pose proof (lookup_lt_Some _ _ _ Hm). unfold partly. rewrite (take_S_r _ _ _ Hm), fmap_app, <- app_assoc.
  rewrite (drop_S _ _ _ Hm), insert_app_r_alt by (rewrite length_fmap, length_take; lia). rewrite length_fmap, length_take. replace (m - (m `min` length ths))%nat with 0%nat by lia. done.
Qed.

(** A change of one thread that keeps the invariant and only appends to the
    first ring does so for the whole table. *)
Hypothesis step : forall s ths p ls i k, qinv ths ls -> rq_rep (pr_rq p) ls -> ths !! i = Some (Some k) ->
  exists rq' ls', f i k (st s ths p) = st s (<[i := Some (g k)]> ths) (set_rq rq' p) /\ qinv (<[i := Some (g k)]> ths) ls' /\ rq_rep rq' ls' /\ (ls !!! 0%nat) `prefix_of` (ls' !!! 0%nat).

Lemma for_threads_st s ths p ls : qinv ths ls -> rq_rep (pr_rq p) ls ->
  exists rq' ls', for_threads f (st s ths p) = st s (on_slot <$> ths) (set_rq rq' p) /\ qinv (on_slot <$> ths) ls' /\ rq_rep rq' ls' /\ (ls !!! 0%nat) `prefix_of` (ls' !!! 0%nat).
Proof.
  intros Hq Hr. unfold for_threads. change (s_threads (st s ths p)) with ths.
  assert (forall n m p ls, (m + n = length ths)%nat -> qinv (partly m ths) ls -> rq_rep (pr_rq p) ls -> exists rq' ls',
    foldl (λ s i, match mjoin (s_threads s !! i) with Some k => f i k s | None => s end) (st s (partly m ths) p) (seq m n) = st s (on_slot <$> ths) (set_rq rq' p) /\
    qinv (on_slot <$> ths) ls' /\ rq_rep rq' ls' /\ (ls !!! 0%nat) `prefix_of` (ls' !!! 0%nat)) as Hfold.
  { clear -step. intros n. induction n as [|n IH]; intros m p ls Hmn Hq Hr.
    - exists (pr_rq p), ls. assert (partly m ths = on_slot <$> ths) as E by (unfold partly; rewrite take_ge, drop_ge, app_nil_r by lia; done).
      rewrite E in Hq |- *. rewrite set_rq_id. by split_and!.
    - cbn [seq foldl]. change (s_threads (st s (partly m ths) p)) with (partly m ths). rewrite partly_lookup.
      destruct (lookup_lt_is_Some_2 ths m ltac:(lia)) as [o Ho]. rewrite Ho. pose proof (partly_S m ths o Ho) as ES. destruct o as [k|]; cbn [mjoin option_join].
      + destruct (step s _ p ls m k Hq Hr) as (rq1 & ls1 & -> & Hq1 & Hr1 & Hp1); [by rewrite partly_lookup|]. cbn [on_slot fmap option_fmap option_map] in ES. rewrite <- ES in Hq1 |- *.
        destruct (IH (S m) (set_rq rq1 p) ls1) as (rq2 & ls2 & -> & Hq2 & Hr2 & Hp2); try done; [lia|]. exists rq2, ls2. split_and!; try done. by etrans.
      + cbn [on_slot fmap option_fmap option_map] in ES. rewrite list_insert_id in ES by (by rewrite partly_lookup). rewrite <- ES in Hq |- *. apply IH; [lia|done|done]. }
  destruct (Hfold (length ths) 0%nat p ls) as (rq' & ls' & E); try done; [by exists rq', ls'].
Qed.
End loop.

Definition age_slot : option Kthread -> option Kthread := on_slot aged.

Lemma aging_st s ths p ls : qinv ths ls -> rq_rep (pr_rq p) ls ->
  exists rq' ls', apply_aging (st s ths p) = st s (age_slot <$> ths) (set_rq rq' p) /\ qinv (age_slot <$> ths) ls' /\ rq_rep rq' ls' /\ (ls !!! 0%nat) `prefix_of` (ls' !!! 0%nat).
Proof. apply (for_threads_st age_thread aged). intros. by apply age_st. Qed.

(** ** Waking *)

Definition woken (sel : Kthread -> bool) (k : Kthread) : Kthread :=
  if sel k && is_blocked (k_state k) then with_starved 0 (fresh_slice (with_yield false (with_state Ready (with_waiting None k)))) else k.

Lemma wake_st sel s ths p ls : qinv ths ls -> rq_rep (pr_rq p) ls ->
  exists rq' ls', wake_if sel (st s ths p) = st s (on_slot (woken sel) <$> ths) (set_rq rq' p) /\ qinv (on_slot (woken sel) <$> ths) ls' /\ rq_rep rq' ls' /\ (ls !!! 0%nat) `prefix_of` (ls' !!! 0%nat).
Proof.
  apply (for_threads_st _ (woken sel)). clear. intros s ths p ls i k Hq Hr Hi. pose proof (q_ok _ _ Hq i k Hi) as Hok. unfold woken. destruct (sel k && is_blocked (k_state k)) eqn:Eb.
  2: { exists (pr_rq p), ls. rewrite set_rq_id, list_insert_id by done. by split_and!. }
  apply andb_true_iff in Eb as [_ Eb]. destruct (k_state k) as [| |w| |] eqn:Est; try done. set (k1 := with_waiting None k). set (k2 := with_starved 0 _).
  assert (thread_ok k2) as Hok2 by (destruct Hok; by constructor). assert (~ runnable k) as Hnr by (unfold runnable; rewrite Est; by intros []). pose proof (q_not_queued _ _ _ _ Hq Hi Hnr) as Hnq.
  assert (make_thread_ready i k1 (at_slot i (λ _, k1) (st s ths p)) = enqueue_to_cpu_run_queue k2 (st s (<[i := Some k2]> ths) p)) as ->.
  { unfold make_thread_ready. change (k_state k1) with (k_state k). rewrite Est. cbn [is_ready bool_decide decide_rel]. rewrite (at_slot_st s ths p i k) by done.
    rewrite (at_slot_st s (<[i := Some k1]> ths) p i k1) by (by apply list_lookup_insert_eq; eapply lookup_lt_Some). by rewrite list_insert_insert_eq. }
  destruct (decide (k_tid k = BOOT_TID \/ k_idle k = true)) as [Hskip|Hrun].
  - rewrite enqueue_skip by done. exists (pr_rq p), ls. rewrite set_rq_id. split_and!; try done. apply (q_quiet _ _ i k); try done. intros (_ & H1 & H2). cbn in H1, H2. destruct Hskip; congruence.
  - pose proof (ok_prio _ Hok). pose proof (ok_base _ Hok). assert (k_idle k = false) as Hid by (destruct (k_idle k); [destruct Hrun; by right|done]). assert (k_tid k ≠ BOOT_TID) as Hb by (intros E; apply Hrun; by left).
    destruct (enqueue_st s (<[i := Some k2]> ths) p ls k2) as (rq2 & -> & Hrq2); try done; [apply (q_four _ _ Hq)|apply (q_nodup _ _ Hq)|apply (ok_cpu _ Hok)|cbn; lia|by apply (q_room _ _ _ _ Hq Hi)|].
    exists rq2. eexists. split_and!; [done| |exact Hrq2|].
    + by apply (q_append _ ls i k).
    + rewrite ring_insert by (rewrite (q_four _ _ Hq); cbn; lia). case_decide as E0; [rewrite <- E0; by apply prefix_app_r|done].
Qed.

(** ** The tick *)

(** The processor runs thread [k] of slot [c]. *)
Record running (ths : list (option Kthread)) (p : Kprcb) (ls : list (list Z)) (c : nat) (k : Kthread) : Prop := {
  run_q : qinv ths ls; run_rq : rq_rep (pr_rq p) ls; run_cur : pr_current p = Some (k_tid k); run_at : ths !! c = Some (Some k);
}.

Definition now_ages (s : Sched) : bool := s_ticks (count_tick s) `mod` AGING_INTERVAL_TICKS =? 0.
Definition ticked (s : Sched) (ths : list (option Kthread)) : list (option Kthread) := if now_ages s then age_slot <$> ths else ths.

Lemma aged_running k : k_state k = Running -> aged k = k.
Proof. intros E. unfold aged, is_ready. rewrite E. by rewrite andb_false_r. Qed.

Lemma ticked_at s ths c k : ths !! c = Some (Some k) -> k_state k = Running -> ticked s ths !! c = Some (Some k).
Proof. intros Hc Hk. unfold ticked. destruct (now_ages s); [|done]. rewrite list_lookup_fmap, Hc. cbn. by rewrite aged_running. Qed.

(** The counters of the running thread. *)
Definition counted (s : Sched) (k : Kthread) : Kthread :=
  let a := k_acct k in
  let k := with_acct (mkAcct (u64 (ac_ticks a + 1)) (ac_time a) (ac_base a)) k in
  if k_idle k then k else account_tick 0 s k.

Lemma counted_acct s k : exists a, counted s k = with_acct a k.
Proof.
  unfold counted. cbv zeta. destruct (k_idle _) eqn:E; [eexists; done|]. unfold account_tick. destruct (prcb s 0); [|eexists; done].
  destruct (_ =? CPU_TIME_UNSET); [eexists; done|]. destruct (_ =? 0); eexists; done.
Qed.

Lemma tick_running_counted rsp preempt exposed i k s : tick_running 0 rsp preempt exposed i k s =
  let k := counted s k in
  let k := if 0 <? k_slice k then with_slice (k_slice k - 1) k else k in
  if negb (k_slice k =? 0) then at_slot i (λ _, k) s
  else
    let k := with_yield false k in
    let k := match kprcb_thread 0 s with Some _ => save_live_rsp_checked rsp k | None => with_rsp rsp k end in
    let k := with_cpu 0 k in
    if preempt || negb exposed then at_slot i (λ _, fresh_slice k) s
    else
      let k := with_state Ready k in
      let s := at_slot i (λ _, k) s in
      set_resched (if negb (k_tid k =? BOOT_TID) && negb (k_idle k) then enqueue_to_cpu_run_queue k s else s).
Proof. done. Qed.

Lemma tick_aging s ths p ls c k : running ths p ls c k -> k_state k = Running ->
  exists rq ls', (if now_ages s then apply_aging (count_tick (st s ths p)) else count_tick (st s ths p)) = st (count_tick s) (ticked s ths) (set_rq rq p) /\
    running (ticked s ths) (set_rq rq p) ls' c k /\ (ls !!! 0%nat) `prefix_of` (ls' !!! 0%nat).
Proof.
  intros [Hq Hr Hc Hat] Hk. unfold ticked. pose proof (ticked_at s ths c k Hat Hk) as Hat'. unfold ticked in Hat'. change (count_tick (st s ths p)) with (st (count_tick s) ths p). destruct (now_ages s).
  - destruct (aging_st (count_tick s) ths p ls Hq Hr) as (rq & ls' & -> & Hq' & Hr' & Hp'). exists rq, ls'. split; [done|]. split; [|done]. by constructor.
  - exists (pr_rq p), ls. rewrite set_rq_id. split; [done|]. split; [|done]. by constructor.
Qed.

Lemma on_tick_run s ths p c k rsp cs : uniq ths -> ths !! c = Some (Some k) -> pr_current p = Some (k_tid k) -> k_state k = Running ->
  (let s := st s ths p in
   let kernel := default true (is_kernel_thread s <$> find_kthread s (effective_tid 0 s)) in
   t ← current_tid_checked 0 s;
   match i ← find_slot s t; k ← mjoin (s_threads s !! i); Some (i, k) with
   | Some (i, k) => Some (if bool_decide (k_state k = Running) then tick_running 0 rsp false ((Z.land cs 3 =? 3) || kernel) i k s else s)
   | None => Some s
   end) = Some (tick_running 0 rsp false ((Z.land cs 3 =? 3) || is_kernel_thread (st s ths p) k) c k (st s ths p)).
Proof.
  intros Hu Hc Hcur Hk. cbv zeta. unfold effective_tid, current_tid_checked. rewrite (kprcb_thread_st s ths p c k) by done. cbn [mbind option_bind].
  change (default _ (Some (k_tid k))) with (k_tid k). rewrite (find_kthread_at s ths p c k), (find_slot_at s ths p c k) by done. cbn [fmap option_fmap option_map mbind option_bind].
  change (default true (Some (is_kernel_thread (st s ths p) k))) with (is_kernel_thread (st s ths p) k).
  change (s_threads (st s ths p)) with ths. rewrite Hc. cbn [mjoin option_join mbind option_bind]. by rewrite bool_decide_true.
Qed.

Lemma with_acct_ok a k : thread_ok k -> thread_ok (with_acct a k).
Proof. intros []. by constructor. Qed.
Lemma with_slice_ok n k : thread_ok k -> thread_ok (with_slice n k).
Proof. intros []. by constructor. Qed.

(** A tick within the time slice. *)
Lemma tick_goes_on s ths p ls c k rsp cs : running ths p ls c k -> k_state k = Running -> 1 < k_slice k ->
  exists rq ls' k', on_timer_tick 0 rsp cs false (st s ths p) = Some (st (count_tick s) (<[c := Some k']> (ticked s ths)) (set_rq rq p)) /\
    running (<[c := Some k']> (ticked s ths)) (set_rq rq p) ls' c k' /\ k_state k' = Running /\ k_slice k' = k_slice k - 1 /\ k_idle k' = k_idle k /\ k_yield k' = false /\ k_tid k' = k_tid k /\
    (ls !!! 0%nat) `prefix_of` (ls' !!! 0%nat).
Proof.
  intros Hrun Hk Hsl. destruct (tick_aging s ths p ls c k Hrun Hk) as (rq & ls' & E & [Hq Hr Hc Hat] & Hpre). unfold on_timer_tick. fold (now_ages (st s ths p)).
  change (now_ages (st s ths p)) with (now_ages s). rewrite E, (on_tick_run _ _ _ c k) by (done || apply (q_uniq _ _ Hq)). clear E.
  rewrite tick_running_counted. destruct (counted_acct (st (count_tick s) (ticked s ths) (set_rq rq p)) k) as [a ->]. cbv zeta. change (k_slice (with_acct a k)) with (k_slice k). rewrite (proj2 (Z.ltb_lt _ _)) by lia.
  change (k_slice (with_slice (k_slice k - 1) (with_acct a k))) with (k_slice k - 1). rewrite (proj2 (Z.eqb_neq _ _)) by lia. cbn [negb].
  exists rq, ls', (with_slice (k_slice k - 1) (with_acct a k)). rewrite (at_slot_st _ _ _ c k) by done. pose proof (q_ok _ _ Hq c k Hat) as Hok. split_and!; try done; [|apply (ok_yield _ Hok)].
  constructor; try done; [|by apply list_lookup_insert_eq; eapply lookup_lt_Some]. eapply q_same; try done. by apply with_slice_ok, with_acct_ok.
Qed.

(** An interrupt that may switch: in user mode, or of a kernel thread. *)
Definition interrupt_ok (rsp : Z) (k : Kthread) : Prop := rsp ≠ 0 /\ (user_frame rsp \/ k_kernel k = true \/ k_idle k = true).

Lemma exposed_ok s rsp k : interrupt_ok rsp k -> (Z.land (cs_at (rsp + 128)) 3 =? 3) || is_kernel_thread s k = true.
Proof. intros [_ [[_ ->]|[Hk|Hk]]]; [done|..]; unfold is_kernel_thread; rewrite Hk; by rewrite ?orb_true_l, ?orb_true_r. Qed.

Lemma saved_ok rsp k : interrupt_ok rsp k -> thread_ok k -> thread_ok (save_live_rsp_checked rsp k).
Proof. intros [Hn Hf] Hok. unfold save_live_rsp_checked. destruct (_ || _); [|done]. destruct Hok. constructor; try done. cbn. intros Hid. destruct Hf as [Hf|[Hf|Hf]]; [by right|by left|congruence]. Qed.

Lemma saved_same rsp k : let k' := save_live_rsp_checked rsp k in
  k_tid k' = k_tid k /\ k_idle k' = k_idle k /\ k_kernel k' = k_kernel k /\ k_state k' = k_state k /\ k_prio k' = k_prio k /\ k_slice k' = k_slice k /\ k_yield k' = k_yield k /\ k_cpu k' = k_cpu k.
Proof. unfold save_live_rsp_checked. cbv zeta. by destruct (_ || _). Qed.

(** The tick at which the time slice ends: the thread is ready and queued. *)
Lemma tick_expires s ths p ls c k rsp : running ths p ls c k -> k_state k = Running -> k_slice k = 1 -> interrupt_ok rsp k ->
  exists rq ls' k', on_timer_tick 0 rsp (cs_at (rsp + 128)) false (st s ths p) = Some (st (set_resched (count_tick s)) (<[c := Some k']> (ticked s ths)) (set_rq rq p)) /\
    running (<[c := Some k']> (ticked s ths)) (set_rq rq p) ls' c k' /\ k_state k' = Ready /\ k_idle k' = k_idle k /\ k_kernel k' = k_kernel k /\ k_tid k' = k_tid k /\
    (ls !!! 0%nat) `prefix_of` (ls' !!! 0%nat).
Proof.
  intros Hrun Hk Hsl Hint. destruct (tick_aging s ths p ls c k Hrun Hk) as (rq & ls' & E & [Hq Hr Hc Hat] & Hpre). unfold on_timer_tick. fold (now_ages (st s ths p)).
  change (now_ages (st s ths p)) with (now_ages s). rewrite E, (on_tick_run _ _ _ c k) by (done || apply (q_uniq _ _ Hq)). clear E. rewrite exposed_ok by done.
  rewrite tick_running_counted. destruct (counted_acct (st (count_tick s) (ticked s ths) (set_rq rq p)) k) as [a ->]. cbv zeta. change (k_slice (with_acct a k)) with (k_slice k). rewrite Hsl.
  cbn [Z.ltb Z.compare]. change (k_slice (with_slice (1 - 1) (with_acct a k)) =? 0) with true. cbn [negb orb].
  rewrite (kprcb_thread_st _ _ _ c k) by (done || apply (q_uniq _ _ Hq)). set (k0 := with_yield false (with_slice (1 - 1) (with_acct a k))).
  pose proof (q_ok _ _ Hq c k Hat) as Hok. assert (thread_ok k0) as Hok0 by (destruct Hok; by constructor). pose proof (saved_ok rsp k0 Hint Hok0) as Hok1.
  pose proof (saved_same rsp k0) as (S1 & S2 & S3 & S4 & S5 & S6 & S7 & S8). set (k1 := save_live_rsp_checked rsp k0) in *. set (k2 := with_state Ready (with_cpu 0 k1)).
  assert (thread_ok k2) as Hok2 by (destruct Hok1; by constructor). rewrite (at_slot_st _ _ _ c k) by done.
  assert (~ runnable k) as Hnr by (unfold runnable; rewrite Hk; by intros []). pose proof (q_not_queued _ _ _ _ Hq Hat Hnr) as Hnq.
  change (k_tid k2) with (k_tid k1). change (k_idle k2) with (k_idle k1). change (k_tid k0) with (k_tid k) in S1. change (k_idle k0) with (k_idle k) in S2. rewrite S1, S2.
  assert (forall ls2 rq2, qinv (<[c := Some k2]> (ticked s ths)) ls2 -> rq_rep rq2 ls2 -> running (<[c := Some k2]> (ticked s ths)) (set_rq rq2 p) ls2 c k2) as Hrun2.
  { intros. constructor; try done; [cbn; by rewrite S1|by apply list_lookup_insert_eq; eapply lookup_lt_Some]. }
  destruct (negb (k_tid k =? BOOT_TID) && negb (k_idle k)) eqn:Eb.
  - apply andb_true_iff in Eb as [Eb1 Eb2]. apply negb_true_iff in Eb1, Eb2. apply Z.eqb_neq in Eb1. pose proof (ok_prio _ Hok). pose proof (ok_base _ Hok).
    assert (runnable k2) as Hr2 by (unfold runnable; cbn; by rewrite S1, S2). assert (k_prio k2 = k_prio k) as Hp2 by (cbn; by rewrite S5).
    destruct (enqueue_st (count_tick s) (<[c := Some k2]> (ticked s ths)) (set_rq rq p) ls' k2) as (rq2 & -> & Hrq2); try done;
      [apply (q_four _ _ Hq)|apply (q_nodup _ _ Hq)|rewrite Hp2; lia|cbn; by rewrite S1|cbn; by rewrite S2|cbn; by rewrite S1|by apply (q_room _ _ _ _ Hq Hat)|].
    exists rq2. eexists. exists k2. split; [done|]. split_and!; [apply Hrun2; [|exact Hrq2]|done|done|done|done|].
    + apply (q_append _ ls' c k); try done; cbn; by rewrite ?S1, ?S2.
    + etrans; [done|]. rewrite ring_insert by (rewrite (q_four _ _ Hq), Hp2; lia). case_decide as E0; [rewrite <- E0; by apply prefix_app_r|done].
  - exists rq, ls', k2. split; [done|]. split_and!; [apply Hrun2; [|done]|done|done|done|done|done]. apply (q_quiet _ _ c k); try done.
    intros (_ & H1 & H2). cbn in H1, H2. rewrite S2 in H1. rewrite S1 in H2. rewrite H1, (proj2 (Z.eqb_neq _ _) H2) in Eb. done.
Qed.

(** ** Dispatch *)

Lemma not_owned_st s ths p t : candidate_owned_elsewhere (st s ths p) t 0 = false.
Proof.
  unfold candidate_owned_elsewhere, kthread_current_cpu. change (take MAX_CPUS (s_cpus (st s ths p))) with (one p). unfold one. cbn [list_find]. case_decide; [done|].
  assert (list_find (λ o : option Kprcb, o ≫= pr_current = Some t) (replicate 15 None) = None) as ->; [|done].
  apply list_find_None, Forall_forall. intros o Ho. apply elem_of_replicate in Ho as [-> _]. done.
Qed.

Lemma highest_prio_st s ths p : highest_ready_priority (st s ths p) =
  let bm := rq_bitmap (pr_rq p) in if negb (bm =? 0) && (trailing_zeros8 bm <? 4) then trailing_zeros8 bm else 4.
Proof. reflexivity. Qed.

(** No ring left in the queue is above one whose predecessors are empty. *)
Lemma highest_prio_le s ths p ls q : rq_rep (pr_rq p) ls -> (q < 4)%nat -> (forall q', (q' < q)%nat -> ls !!! q' = []) -> Z.of_nat q <= highest_ready_priority (st s ths p).
Proof.
  intros Hr Hq Hlow. rewrite highest_prio_st. cbv zeta. pose proof (rq_highest _ _ Hr) as Hh. destruct (highest ls) as [[p0 l]|].
  - destruct Hh as (Hp0 & -> & Hne & Hb & _ & ->). rewrite (proj2 (Z.eqb_neq _ _) Hb). cbn [negb andb]. destruct (_ <? 4); [|lia].
    destruct (decide (p0 < q)%nat) as [Hlt|]; [|lia]. by destruct (Hne (Hlow p0 Hlt)).
  - destruct Hh as [-> _]. cbn. lia.
Qed.

Lemma reap_none exclude s : s_zombies s = [] -> reap_pending_zombies exclude s = s.
Proof. intros E. unfold reap_pending_zombies. by rewrite E. Qed.

(** What a commit makes of the processor block and of the thread. *)
Definition block_of (k : Kthread) (p : Kprcb) : Kprcb := mkPrcb (Some (k_tid k)) (k_pid k) ((k_pid k =? 0) || k_idle k) (pr_need p) (pr_rq p) (pr_ticks p) (pr_switches p).

Lemma commit_st s ths p c k i h : uniq ths -> ths !! c = Some (Some k) -> pr_current p = Some (k_tid k) -> ths !! i = Some (Some h) -> s_zombies s = [] ->
  commit 0 i h (st s ths p) = st (set_current (k_tid h) s) (<[i := Some (account_dispatch (pr_ticks p) (with_state Running h))]> ths) (block_of h p).
Proof.
  intros Hu Hc Hcur Hi Hz. unfold commit, sync_if_global. cbv zeta. change (set_current (k_tid h) (st s ths p)) with (st (set_current (k_tid h) s) ths p).
  rewrite (kprcb_thread_st _ _ _ c k) by done. unfold sync_per_cpu_current. rewrite on_cpu_st, (at_slot_st _ _ _ i h) by done. by apply reap_none.
Qed.

Lemma dispatched_same b h : let h' := account_dispatch b (with_state Running h) in k_idle h = false ->
  k_tid h' = k_tid h /\ k_idle h' = k_idle h /\ k_kernel h' = k_kernel h /\ k_state h' = Running /\ k_slice h' = time_slice (k_prio h') /\ k_rsp h' = k_rsp h /\ k_pid h' = k_pid h /\ k_ks_top h' = k_ks_top h /\ k_yield h' = k_yield h.
Proof. intros h' Hid. unfold h', account_dispatch. cbv zeta. change (k_idle (with_starved _ _)) with (k_idle h). cbn [with_state]. destruct (_ <? _); cbn; rewrite Hid; done. Qed.

Lemma dispatched_ok b h : thread_ok h -> thread_ok (account_dispatch b (with_state Running h)).
Proof.
  intros []. unfold account_dispatch. cbv zeta. destruct (_ <? _); destruct (_ || _); constructor; try done; cbn; lia.
Qed.

Lemma slice_range prio : 0 <= prio <= 3 -> 50 <= time_slice prio <= 400.
Proof. intros H. assert (prio = 0 \/ prio = 1 \/ prio = 2 \/ prio = 3) as [-> |[-> |[-> | ->]]] by lia; cbv; split; discriminate. Qed.

(** [i] was popped: the thread of the oldest id of the highest priority runs. *)
Lemma schedule_pops r a s ths p ls c k t ls' : running ths p ls c k -> ls_pop ls = Some (t, ls') -> s_zombies s = [] ->
  r && a && kernel_thread_starved (st (count_call s) ths p) 0 = false ->
  exists i h h' p', ths !! i = Some (Some h) /\ k_tid h = t /\ runnable h /\ h' = account_dispatch (pr_ticks p) (with_state Running h) /\
    schedule_with_handoff cs_at 0 r a (st s ths p) = Some (t, st (set_current t (count_call s)) (<[i := Some h']> ths) p') /\ running (<[i := Some h']> ths) p' ls' i h'.
Proof.
  intros [Hq Hr Hc Hat] Hpop Hz Hst. pose proof (q_uniq _ _ Hq) as Hu. unfold schedule_with_handoff. change (count_call (st s ths p)) with (st (count_call s) ths p). rewrite Hst.
  destruct (ls_pop_first ls (q_four _ _ Hq) (q_nodup _ _ Hq) t ls' Hpop) as (q & l & Hq4 & Hring & El' & Hlow & Hnd' & H4' & Hnin & Hel).
  pose proof (rq_pop_rep _ _ Hr) as Hrp. rewrite Hpop in Hrp. destruct Hrp as (rq' & Erq & Hr').
  assert (t ∈ ls !!! q) as Hin by (rewrite Hring; by left). apply (q_in _ _ Hq) in Hin as (i & h & Hi & <- & Hrun & Hprio); [|done].
  unfold try_dequeue_local. rewrite prcb_st. cbn [mbind option_bind]. rewrite Erq. cbn [mbind option_bind]. rewrite on_cpu_st.
  unfold try_candidate. rewrite (slot_linear_at _ _ _ i h) by done. cbn [mbind option_bind]. change (s_threads (st (count_call s) ths (set_rq rq' p))) with ths. rewrite Hi. cbn [mjoin option_join mbind option_bind].
  pose proof (q_ok _ _ Hq i h Hi) as Hok. destruct Hrun as (Hrd & Hid & Hb). pose proof (dispatched_same (pr_ticks p) h Hid) as (D1 & D2 & D3 & D4 & _).
  assert (candidate_ok cs_at 0 r (st (count_call s) ths (set_rq rq' p)) h = true) as ->.
  { unfold candidate_ok, is_ready. rewrite not_owned_st, bool_decide_true by done. cbn [andb negb]. apply andb_true_iff. split.
    - rewrite andb_true_r. destruct (ok_frame _ Hok Hid) as [->|[Hf1 Hf2]]; [by rewrite orb_true_r|]. unfold frame_is_ring3. rewrite (proj2 (Z.ltb_ge _ _)), Hf2 by lia. by rewrite orb_true_r.
    - apply Z.leb_le. rewrite Hprio. apply (highest_prio_le _ _ _ ls'); try done. intros q' Hq'. rewrite El', ring_insert by (rewrite (q_four _ _ Hq); lia). rewrite decide_False by lia. by apply Hlow. }
  rewrite (commit_st _ _ _ c k i h) by done. exists i, h. eexists. exists (block_of h (set_rq rq' p)). split_and!; try done. constructor; try done; [|by rewrite D1|by rewrite list_lookup_insert_eq by by eapply lookup_lt_Some].
  apply (q_change _ ls i h); try done; [by apply dispatched_ok|]. intros q' Hq'. unfold runnable. rewrite D4. split; [|by intros [[] _]]. intros Hin. destruct Hnin. apply elem_of_ring. exists q'. by rewrite H4'.
Qed.

Lemma ls_remove_none t ls : t ∉ concat ls -> ls_remove t ls = ls.
Proof.
  intros Hn. unfold ls_remove. destruct (list_find _ ls) as [[q l]|] eqn:Ef; [|done]. apply list_find_Some in Ef as (Hq & Hin & _). destruct Hn. apply elem_of_ring.
  exists q. split; [by eapply lookup_lt_Some|]. by rewrite (list_lookup_total_correct _ _ _ Hq).
Qed.

Definition idled (k : Kthread) : Kthread := with_slice IDLE_TIME_SLICE (with_state Running k).

(** The idle thread is always there to be dispatched. *)
Lemma idle_st s ths p ls c k : running ths p ls c k -> s_zombies s = [] ->
  exists i ki p', ths !! i = Some (Some ki) /\ k_idle ki = true /\ dispatch_idle 0 (st s ths p) = Some (k_tid ki, st (set_current (k_tid ki) s) (<[i := Some (idled ki)]> ths) p') /\
    running (<[i := Some (idled ki)]> ths) p' ls i (idled ki).
Proof.
  intros [Hq Hr Hc Hat] Hz. pose proof (q_uniq _ _ Hq) as Hu. unfold dispatch_idle, find_idle_ptr. change (s_threads (st s ths p)) with ths.
  destruct (list_find (idle_of 0) ths) as [[i o]|] eqn:Ef.
  2: { apply list_find_None in Ef. rewrite Forall_forall in Ef. destruct (q_idle _ _ Hq) as (j & x & Hj & Hx). destruct (Ef (Some x)); [by eapply list_elem_of_lookup_2|].
       split; [done|]. apply (ok_cpu _ (q_ok _ _ Hq j x Hj)). }
  apply list_find_Some in Ef as (Hi & Ho & _). destruct o as [ki|]; [|done]. destruct Ho as [Hid Hcpu]. pose proof (q_ok _ _ Hq i ki Hi) as Hok.
  cbn [fmap option_fmap option_map fst mbind option_bind]. rewrite Hi. cbn [mjoin option_join mbind option_bind]. rewrite bool_decide_false by by apply (ok_idle _ Hok).
  assert (forall x, k_idle x = true -> ~ runnable x) as Hnr by (intros x Hx (_ & E & _); congruence). pose proof (q_not_queued _ _ _ _ Hq Hi (Hnr _ Hid)) as Hnq.
  destruct (remove_st s ths p ls ki Hr Hcpu) as (rq1 & -> & Hr1). rewrite (ls_remove_none _ _ Hnq) in Hr1. unfold sync_if_global.
  change (set_current (k_tid ki) (st s ths (set_rq rq1 p))) with (st (set_current (k_tid ki) s) ths (set_rq rq1 p)). rewrite (kprcb_thread_st _ _ _ c k) by done.
  unfold sync_per_cpu_current. rewrite on_cpu_st. rewrite (at_slot_st _ _ _ i ki), reap_none by done. exists i, ki, (block_of ki (set_rq rq1 p)). split_and!; try done.
  constructor; try done; [|by rewrite list_lookup_insert_eq by by eapply lookup_lt_Some]. apply (q_quiet _ _ i ki); try done; [destruct Hok; by constructor|by apply Hnr].
Qed.

(** ** The timer interrupt *)

(** How long the current thread can still delay the first of the queue. *)
Definition weight (k : Kthread) : Z := k_slice k + (if k_idle k then 0 else 10).

Record good (S : Sched) (ths : list (option Kthread)) (ls : list (list Z)) (c : nat) (k : Kthread) : Prop := {
  g_state : exists s p, S = st s ths p /\ s_zombies s = [] /\ s_handoff s ≠ [] /\ running ths p ls c k;
  g_run : k_state k = Running; g_slice : 1 <= k_slice k <= (if k_idle k then 10 else 400);
}.

(** What one interrupt does to the first ring, seen from the threads in it. *)
Definition served (k : Kthread) (l0 : list Z) (k' : Kthread) (l0' : list Z) : Prop :=
  (l0 `prefix_of` l0' /\ weight k' < weight k) \/ (exists l, l0 = k_tid k' :: l /\ l `prefix_of` l0') \/ l0 = [].

Lemma weight_bound S ths ls c k : good S ths ls c k -> 1 <= weight k <= 410.
Proof. intros [_ _ Hs]. unfold weight. destruct (k_idle k); lia. Qed.

Lemma ls_pop_ring0 ls t ls' t0 l : ls_pop ls = Some (t, ls') -> ls !!! 0%nat = t0 :: l -> t = t0 /\ ls' !!! 0%nat = l.
Proof.
  destruct ls as [|r ls]; [done|]. intros Hp Hr. change ((r :: ls) !!! 0%nat) with r in Hr. subst r. unfold ls_pop, highest in Hp. cbn in Hp. by injection Hp as <- <-.
Qed.

Lemma ls_pop_some ls : concat ls ≠ [] -> exists t ls', ls_pop ls = Some (t, ls').
Proof.
  intros Hne. unfold ls_pop, highest. destruct (list_find _ ls) as [[p l]|] eqn:Ef.
  - apply list_find_Some in Ef as (_ & Hl & _). destruct l as [|t l]; [done|]. by eexists _, _.
  - destruct Hne. apply list_find_None in Ef. induction ls as [|l ls IH]; [done|]. apply Forall_cons in Ef as [Hl Ef]. destruct l; [by apply IH|by destruct Hl].
Qed.

(** The fields of the state that the switch leaves as they are. *)
Definition ext (s s' : Sched) : Prop := s_zombies s' = s_zombies s /\ s_ticks s' = s_ticks s /\ (s_handoff s ≠ [] -> s_handoff s' ≠ []).
#[local] Hint Unfold ext : core.

(** The same thread in the same state. *)
Definition same_id (k k' : Kthread) : Prop := k_tid k' = k_tid k /\ k_idle k' = k_idle k /\ k_state k' = k_state k.

(** The switch: to the first thread of the queue, or to the idle thread from
    another one. *)
Definition switched (s : Sched) (ths : list (option Kthread)) (ls : list (list Z)) (c : nat) (from_idle : bool) (R : option (Z * Sched)) : Prop :=
  exists r s' ths' p' ls' i k, R = Some (r, st s' ths' p') /\ ext s s' /\ running ths' p' ls' i k /\ k_state k = Running /\
    1 <= k_slice k <= (if k_idle k then 10 else 400) /\ (forall j, j ≠ i -> j ≠ c -> ths' !! j = ths !! j) /\
    (forall k, i ≠ c -> ths !! c = Some (Some k) -> exists k', ths' !! c = Some (Some k') /\ same_id k k') /\
    (exists k0, ths !! i = Some (Some k0) /\ k_tid k = k_tid k0 /\ k_idle k = k_idle k0) /\ k_tid k ≠ BOOT_TID /\
    ((ls_pop ls = Some (k_tid k, ls') /\ k_idle k = false) \/ (ls' = ls /\ k_idle k = true /\ from_idle = false)).

Lemma publish_st gate s ths p ls c k rsp : running ths p ls c k -> k_state k = Ready -> interrupt_ok rsp k ->
  exists k', publish cs_at 0 gate rsp (k_tid k) (st s ths p) = st s (<[c := Some k']> ths) p /\ running (<[c := Some k']> ths) p ls c k' /\ same_id k k'.
Proof.
  intros [Hq Hr Hc Hat] Hk Hint. pose proof (q_uniq _ _ Hq) as Hu. pose proof (q_ok _ _ Hq c k Hat) as Hok. unfold publish. rewrite (find_slot_at s ths p c k) by done. cbn [mbind option_bind].
  change (s_threads (st s ths p)) with ths. rewrite Hat. cbn [mjoin option_join mbind option_bind]. pose proof (saved_same rsp k) as (S1 & S2 & S3 & S4 & S5 & _). pose proof (saved_ok rsp k Hint Hok) as Hok1.
  set (k1 := save_live_rsp_checked rsp k) in *. exists (with_cpu 0 (with_yield false k1)). rewrite bool_decide_false by (cbn; rewrite S4, Hk; done). cbn [andb].
  rewrite (at_slot_st s ths p c k) by done. split_and!; try done. constructor; try done; [|cbn; by rewrite S1|by rewrite list_lookup_insert_eq by by eapply lookup_lt_Some].
  apply (q_same _ _ c k); try done. destruct Hok1. by constructor.
Qed.

(** Restarting the slice of the thread that was committed. *)
Lemma running_restart ths p ls i h f t : running ths p ls i h -> (forall k, k_tid (f k) = k_tid k /\ k_idle (f k) = k_idle k /\ k_prio (f k) = k_prio k) -> k_state (f h) = k_state h -> thread_ok (f h) ->
  running (<[i := Some (f h)]> ths) (switched_to (k_tid h) t p) ls i (f h) /\ running (<[i := Some (f h)]> ths) p ls i (f h).
Proof.
  intros [Hq Hr Hc Hat] Hf Hst Hok. destruct (Hf h) as (F1 & F2 & F3). pose proof (lookup_lt_Some _ _ _ Hat) as Hlt.
  split; (constructor; [by apply (q_same _ _ i h)|done|by rewrite F1|by rewrite list_lookup_insert_eq]).
Qed.

Lemma restart_ok b h : thread_ok h -> thread_ok (restart b h) /\ thread_ok (with_starved 0 (fresh_slice (with_state Running h))).
Proof. intros []. unfold restart. destruct (b && k_idle h); split; by constructor. Qed.

Lemma restart_same b k : k_tid (restart b k) = k_tid k /\ k_idle (restart b k) = k_idle k /\ k_prio (restart b k) = k_prio k.
Proof. unfold restart. by destruct (b && k_idle k). Qed.

(** Entering the thread that [schedule] popped. *)
Lemma enter_popped s s' ths p ls ls' c i h h' p' tid rsp b fi : ext s s' -> ths !! i = Some (Some h) -> runnable h ->
  h' = account_dispatch (pr_ticks p) (with_state Running h) -> running (<[i := Some h']> ths) p' ls' i h' -> ls_pop ls = Some (k_tid h, ls') ->
  switched s ths ls c fi (Some (k_rsp h', on_cpu 0 (switched_to (k_tid h) (k_pid h')) (st s' (<[i := Some h']> ths) p'))) /\
  switched s ths ls c fi (if k_tid h =? tid then Some (rsp, update (k_tid h) (λ k, with_starved 0 (fresh_slice (with_state Running k))) (st s' (<[i := Some h']> ths) p'))
                       else switch_to 0 (k_tid h) h' (update (k_tid h) (restart b) (st s' (<[i := Some h']> ths) p'))).
Proof.
  intros Hext Hi (Hrd & Hid & Hb) Eh Hrun Hpop. pose proof (lookup_lt_Some _ _ _ Hi) as Hlt. pose proof Hrun as [Hq' Hr' Hc' Hat']. pose proof (q_uniq _ _ Hq') as Hu'.
  pose proof (dispatched_same (pr_ticks p) h Hid) as D. rewrite <- Eh in D. destruct D as (D1 & D2 & D3 & D4 & D5 & D6 & D7 & D8 & D9). rewrite Hid in D2. rewrite <- D1 in Hpop. assert (exists k0, ths !! i = Some (Some k0) /\ k_tid h' = k_tid k0 /\ false = k_idle k0) as Hwho by (by exists h). assert (k_tid h' ≠ BOOT_TID) as Hnb by (by rewrite D1).
  pose proof (q_ok _ _ Hq' i h' Hat') as Hok'. pose proof (ok_prio _ Hok'). pose proof (ok_base _ Hok'). pose proof (slice_range (k_prio h') ltac:(lia)) as Hsr. destruct (restart_ok b h' Hok') as [Hrok1 Hrok2].
  assert (forall j x, j ≠ i -> j ≠ c -> <[i := x]> (<[i := Some h']> ths) !! j = ths !! j) as Hkeep by (intros; by rewrite !list_lookup_insert_ne).
  assert (forall x k, i ≠ c -> ths !! c = Some (Some k) -> exists k', <[i := x]> (<[i := Some h']> ths) !! c = Some (Some k') /\ same_id k k') as Hsame by (intros x k0 Hic Hk0; exists k0; by rewrite !list_lookup_insert_ne). split.
  - rewrite on_cpu_st. eexists _, s', _, _, ls', i, h'. split; [done|]. rewrite D2. split_and!; try done; [|by rewrite D5; lia|by rewrite D5; lia|intros; by rewrite list_lookup_insert_ne| |by left].
    2: { intros k0 Hic Hk0. exists k0. by rewrite list_lookup_insert_ne. }
    destruct Hrun. constructor; try done. cbn. by rewrite D1.
  - rewrite <- D1. destruct (k_tid h' =? tid).
    + rewrite (update_st _ _ _ i h') by done. destruct (running_restart _ _ _ i h' (λ k, with_starved 0 (fresh_slice (with_state Running k))) 0 Hrun) as [_ Hrun2]; try done.
      eexists _, s', _, _, ls', i, _. split; [done|]. split; [done|]. split; [exact Hrun2|]. change (k_idle (with_starved _ _)) with (k_idle h'). rewrite D2.
      change (k_slice (with_starved _ _)) with (time_slice (k_prio h')). split_and!; try done; [lia|lia|intros; by apply Hkeep|intros; by eapply Hsame|by left].
    + unfold switch_to. rewrite (proj2 (Z.eqb_neq _ _) (ok_stack _ Hok')), (update_st _ _ _ i h'), on_cpu_st by done.
      destruct (running_restart _ _ _ i h' (restart b) (k_pid h') Hrun (restart_same b)) as [Hrun2 _]; try done; [unfold restart; by destruct (b && k_idle h')|].
      eexists _, s', _, _, ls', i, _. split; [done|]. split; [done|]. split; [exact Hrun2|]. destruct (restart_same b h') as (R1 & R2 & R3). rewrite R1, R2, D2.
      assert (k_slice (restart b h') = time_slice (k_prio h')) as -> by (unfold restart; by rewrite D2, andb_false_r).
      split_and!; try done; [unfold restart; by destruct (b && k_idle h')|lia|lia|intros; by apply Hkeep|intros; by eapply Hsame|by left].
Qed.

Lemma switched_weaken s ths ls c k k1 b R : ths !! c = Some (Some k) -> same_id k k1 -> switched s (<[c := Some k1]> ths) ls c b R -> switched s ths ls c b R.
Proof.
  intros Hat (I1 & I2 & I3) (r & s' & ths' & p' & ls' & i & k' & ER & E & H1 & H2 & H3 & Hk & Hs & (k0 & Hk0 & Hw & Hw2) & H4 & H5). exists r, s', ths', p', ls', i, k'. split_and!; try done; [lia|lia|..].
  - intros j Hi Hc. rewrite Hk by done. by rewrite list_lookup_insert_ne.
  - intros kx Hic Hkx. rewrite Hat in Hkx. injection Hkx as <-. destruct (Hs k1 Hic) as (k2 & Hk2 & J1 & J2 & J3); [by rewrite list_lookup_insert_eq by by eapply lookup_lt_Some|].
    exists k2. unfold same_id. split_and!; congruence.
  - destruct (decide (i = c)) as [->|Hic]; [|exists k0; by rewrite list_lookup_insert_ne in Hk0]. exists k. rewrite list_lookup_insert_eq in Hk0 by by eapply lookup_lt_Some. injection Hk0 as <-. split_and!; congruence.
Qed.

(** [schedule] pops a thread, found under its id. *)
Lemma schedule_next r a s ths p ls c k : running ths p ls c k -> concat ls ≠ [] -> s_zombies s = [] -> r && a && kernel_thread_starved (st (count_call s) ths p) 0 = false ->
  exists i h h' p' s' ls', ths !! i = Some (Some h) /\ runnable h /\ h' = account_dispatch (pr_ticks p) (with_state Running h) /\ ext s s' /\ ls_pop ls = Some (k_tid h, ls') /\
    schedule_with_handoff cs_at 0 r a (st s ths p) = Some (k_tid h, st s' (<[i := Some h']> ths) p') /\ running (<[i := Some h']> ths) p' ls' i h' /\
    find_kthread (st s' (<[i := Some h']> ths) p') (k_tid h) = Some h' /\ k_rsp h' ≠ 0 /\ (k_kernel h' = true \/ user_frame (k_rsp h')) /\ k_idle h' = false.
Proof.
  intros Hrun Hne Hz Hst. destruct (ls_pop_some ls Hne) as (t & ls' & Hpop). destruct (schedule_pops r a s ths p ls c k t ls' Hrun Hpop Hz Hst) as (i & h & h' & p' & Hi & <- & Hr & Eh & E & Hrun').
  exists i, h, h', p', (set_current (k_tid h) (count_call s)), ls'. pose proof Hr as (_ & Hid & _). pose proof (dispatched_same (pr_ticks p) h Hid) as D. rewrite <- Eh in D. destruct D as (D1 & D2 & _). rewrite Hid in D2.
  pose proof Hrun' as [Hq' _ _ Hat']. pose proof (q_ok _ _ Hq' i h' Hat') as Hok'. split_and!; try done; [|apply (ok_rsp _ Hok')|by apply (ok_frame _ Hok')].
  rewrite <- D1. apply (find_kthread_at _ _ _ i); [apply (q_uniq _ _ Hq')|done].
Qed.

Lemma switch_kernel s ths p ls c k rsp : running ths p ls c k -> k_state k = Ready -> interrupt_ok rsp k -> s_zombies s = [] -> concat ls ≠ [] ->
  switched s ths ls c (k_idle k) (preempt_kernel cs_at 0 rsp (k_tid k) (st s ths p)).
Proof.
  intros Hrun Hk Hint Hz Hne. unfold preempt_kernel, schedule. destruct (publish_st false s ths p ls c k rsp Hrun Hk Hint) as (k1 & -> & Hrun1 & Hsame1).
  destruct (schedule_next false false s _ p ls c k1 Hrun1 Hne Hz eq_refl) as (i & h & h' & p' & s' & ls' & Hi & Hr & Eh & Hext & Hpop & -> & Hrun' & Ef & Hrsp & _).
  cbn [mbind option_bind]. rewrite Ef. cbn [mbind option_bind]. rewrite (proj2 (Z.eqb_neq _ _) Hrsp). apply (switched_weaken _ _ _ _ k k1); [by destruct Hrun|done|]. by eapply enter_popped.
Qed.

Lemma switch_idle s ths p ls c k rsp : running ths p ls c k -> k_state k = Ready -> k_idle k = true -> interrupt_ok rsp k -> s_zombies s = [] -> concat ls ≠ [] ->
  switched s ths ls c (k_idle k) (preempt_idle cs_at 0 rsp (k_tid k) (st s ths p)).
Proof.
  intros Hrun Hk Hid Hint Hz Hne. unfold preempt_idle, schedule. pose proof Hrun as [Hq Hrq Hc Hat]. pose proof (q_uniq _ _ Hq) as Hu. pose proof (lookup_lt_Some _ _ _ Hat) as Hlt.
  rewrite (update_st _ _ _ c k) by done. pose proof (saved_same rsp k) as (S1 & S2 & _ & S4 & S5 & _). set (k1 := save_live_rsp_checked rsp k) in *.
  assert (running (<[c := Some k1]> ths) p ls c k1) as Hrun1.
  { constructor; try done; [|by rewrite S1|by rewrite list_lookup_insert_eq]. apply (q_same _ _ c k); try done. apply saved_ok; [done|]. by apply (q_ok _ _ Hq c). }
  destruct (schedule_next false false s _ p ls c k1 Hrun1 Hne Hz eq_refl) as (i & h & h' & p' & s' & ls' & Hi & Hr & Eh & Hext & Hpop & -> & Hrun' & Ef & Hrsp & _).
  cbn [mbind option_bind]. rewrite Ef. cbn [mbind option_bind]. apply (switched_weaken _ _ _ _ k k1); [done|done|].
  destruct (enter_popped s s' (<[c := Some k1]> ths) p ls ls' c i h h' p' (k_tid h - 1) rsp false (k_idle k)) as [_ Hs]; try done. by rewrite (proj2 (Z.eqb_neq _ _)) in Hs by lia.
Qed.

Lemma switch_user s ths p ls c k rsp : running ths p ls c k -> k_state k = Ready -> k_idle k = false -> interrupt_ok rsp k -> s_zombies s = [] -> s_handoff s ≠ [] -> concat ls ≠ [] ->
  switched s ths ls c (k_idle k) (preempt_user cs_at 0 rsp (k_tid k) (st s ths p)).
Proof.
  intros Hrun Hk Hid Hint Hz Hh Hne. rewrite Hid. unfold preempt_user. destruct (publish_st true s ths p ls c k rsp Hrun Hk Hint) as (k1 & -> & Hrun1 & Hsame1). apply (switched_weaken _ _ _ _ k k1); [by destruct Hrun|done|]. destruct Hsame1 as (Ht1 & Hid1 & _).
  set (ths1 := <[c := Some k1]> ths) in *. destruct (kernel_thread_starved (st (count_call s) ths1 p) 0) eqn:Est.
  - destruct (idle_st (count_call s) ths1 p ls c k1 Hrun1 Hz) as (i & ki & p' & Hi & Hki & Ei & Hrun'). unfold schedule_with_handoff.
    change (count_call (st s ths1 p)) with (st (count_call s) ths1 p). rewrite Est. cbn [andb]. rewrite Ei. cbn [mbind option_bind].
    change (set_kernel_handoff 0 true (st ?a ?b ?d)) with (st (set_kernel_handoff 0 true a) b d). pose proof Hrun' as [Hq' _ _ Hat']. pose proof (q_uniq _ _ Hq') as Hu'. pose proof (q_ok _ _ Hq' _ _ Hat') as Hok'.
    change (k_tid ki) with (k_tid (idled ki)). rewrite (find_kthread_at _ _ _ i (idled ki)) by done. cbn [mbind option_bind]. rewrite (proj2 (Z.eqb_neq _ _) (ok_rsp _ Hok')).
    assert (forall sx f, ext s sx -> (forall k, k_tid (f k) = k_tid k /\ k_idle (f k) = k_idle k /\ k_prio (f k) = k_prio k) -> k_state (f (idled ki)) = Running -> k_slice (f (idled ki)) = 10 -> thread_ok (f (idled ki)) ->
      switched s ths1 ls c false (Some (k_rsp (idled ki), st sx (<[i := Some (f (idled ki))]> ths1) (switched_to (k_tid (idled ki)) (k_pid (idled ki)) p')))) as Hidle.
    { assert (k_tid ki ≠ BOOT_TID) as Hnb by (destruct Hrun1 as [Hq1 _ _ _]; by apply (ok_boot _ (q_ok _ _ Hq1 i ki Hi))). intros sx f Hext Hf Hst Hsl Hok. destruct (running_restart _ _ _ i (idled ki) f (k_pid (idled ki)) Hrun' Hf Hst Hok) as [Hrun2 _]. rewrite list_insert_insert_eq in Hrun2. destruct (Hf (idled ki)) as (F1 & F2 & _).
      assert (k_idle (f (idled ki)) = true) as Ei2 by (by rewrite F2). eexists _, sx, _, _, ls, i, _. split; [done|]. split; [done|]. split; [exact Hrun2|]. rewrite Ei2, Hsl.
      split_and!; try done; [intros; by rewrite list_lookup_insert_ne|intros k0 Hic Hk0; exists k0; by rewrite list_lookup_insert_ne|exists ki; by rewrite F1, Hki|by rewrite F1|by right]. }
    assert (forall b l, <[0%nat := b]> (l : list bool) ≠ [] <-> l ≠ []) as Hins by (intros b [|x l]; done).
    destruct (Z.land _ 3 =? 3); cbn [negb].
    + assert (k_tid (idled ki) ≠ k_tid k) as Htk. { intros E. destruct Hrun1 as [Hq1 _ _ Hat1]. rewrite <- Ht1 in E. pose proof (q_uniq _ _ Hq1 i c ki k1 Hi Hat1 E) as ->. rewrite Hat1 in Hi. injection Hi as ->. congruence. }
      rewrite (proj2 (Z.eqb_neq _ _) Htk). unfold switch_to. rewrite (proj2 (Z.eqb_neq _ _) (ok_stack _ Hok')), (update_st _ _ _ i (idled ki)), on_cpu_st, list_insert_insert_eq by done.
      apply Hidle; [split_and!; try done; intros; by apply Hins|apply restart_same|unfold restart; by destruct (true && _)| |by apply restart_ok].
      unfold restart. change (k_idle (idled ki)) with (k_idle ki). by rewrite Hki.
    + change (s_handoff (st ?a ?b ?d)) with (s_handoff a). assert (s_handoff (set_kernel_handoff 0 true (set_current (k_tid (idled ki)) (count_call s))) !!! 0%nat = true) as ->.
      { unfold set_kernel_handoff. cbn. by destruct (s_handoff s). }
      cbn [accept_non_ring3_dispatch orb]. change (set_kernel_handoff 0 false (st ?a ?b ?d)) with (st (set_kernel_handoff 0 false a) b d). rewrite on_cpu_st.
      apply (Hidle _ id); try done. split_and!; try done. intros. by apply Hins, Hins.
  - destruct (schedule_next true true s _ p ls c k1 Hrun1 Hne Hz Est) as (i & h & h' & p' & s' & ls' & Hi & Hr & Eh & Hext & Hpop & -> & Hrun' & Ef & Hrsp & Hfr & Hid').
    cbn [mbind option_bind]. rewrite Ef. cbn [mbind option_bind]. rewrite (proj2 (Z.eqb_neq _ _) Hrsp).
    destruct (enter_popped s s' ths1 p ls ls' c i h h' p' (k_tid k) rsp true false) as [Ha Hb]; try done. destruct (Z.land _ 3 =? 3) eqn:Ecs; cbn [negb]; [exact Hb|].
    assert (k_kernel h' = true) as Hkern by (destruct Hfr as [?|[_ E]]; [done|by rewrite E in Ecs]). unfold accept_non_ring3_dispatch. rewrite Hkern, Hid'. cbn [negb andb]. rewrite orb_true_r.
    change (set_kernel_handoff 0 false (st ?a ?b ?d)) with (st (set_kernel_handoff 0 false a) b d).
    destruct (enter_popped s (set_kernel_handoff 0 false s') ths1 p ls ls' c i h h' p' (k_tid k) rsp true false) as [Hc _]; try done.
    destruct Hext as (X1 & X2 & X3). split_and!; try done. intros Hs. specialize (X3 Hs). cbn. by destruct (s_handoff s').
Qed.

Lemma aged_runnable k : runnable (aged k) <-> runnable k.
Proof. unfold runnable. destruct (aged_same k) as (-> & -> & -> & _). done. Qed.

Lemma queue_nonempty ths ls j k : qinv ths ls -> ths !! j = Some (Some k) -> runnable k -> concat ls ≠ [] /\ k_tid k ∈ ls !!! Z.to_nat (k_prio k).
Proof.
  intros Hq Hj Hr. pose proof (q_ok _ _ Hq j k Hj) as Hok. pose proof (ok_prio _ Hok). pose proof (ok_base _ Hok).
  assert (k_tid k ∈ ls !!! Z.to_nat (k_prio k)) as Hin by (apply (q_runnable _ _ j k _ Hq Hj); [lia|split; [done|lia]]). split; [|done].
  intros E. assert (k_tid k ∈ concat ls) as Hc by (apply elem_of_ring; exists (Z.to_nat (k_prio k)); rewrite (q_four _ _ Hq); split; [lia|done]). rewrite E in Hc. by apply elem_of_nil in Hc.
Qed.

Lemma has_non_idle_st s ths p j k : ths !! j = Some (Some k) -> runnable k -> has_non_idle_threads (st s ths p) = true.
Proof.
  intros Hj (Hr & Hid & _). unfold has_non_idle_threads, thread_list. change (s_threads (st s ths p)) with ths. apply existsb_exists. exists k. rewrite Hid, Hr. split; [|done].
  apply list_elem_of_In, list_elem_of_omap. exists (Some k). split; [by eapply list_elem_of_lookup_2|done].
Qed.

Definition aged_if (b : bool) (k : Kthread) : Kthread := if b then aged k else k.
Lemma ticked_lookup s ths j k : ths !! j = Some (Some k) -> ticked s ths !! j = Some (Some (aged_if (now_ages s) k)).
Proof. intros Hj. unfold ticked, aged_if. destruct (now_ages s); [|done]. by rewrite list_lookup_fmap, Hj. Qed.
Lemma ticked_tid s ths j k : ticked s ths !! j = Some (Some k) -> exists k0, ths !! j = Some (Some k0) /\ k_tid k = k_tid k0 /\ k_idle k = k_idle k0.
Proof.
  unfold ticked. destruct (now_ages s); [|by exists k]. rewrite list_lookup_fmap. destruct (ths !! j) as [[k0|]|]; try done. intros [= <-]. exists k0. split; [done|]. destruct (aged_same k0) as (? & ? & _). done.
Qed.
Lemma aged_if_runnable b k : runnable (aged_if b k) <-> runnable k.
Proof. destruct b; [apply aged_runnable|done]. Qed.

(** No switch: only the block changes. *)
Lemma no_switch s ths p ls c k rsp has : running ths p ls c k -> k_state k = Running ->
  exists p', no_preemption 0 rsp (k_tid k) has (st s ths p) = (rsp, st s ths p') /\ running ths p' ls c k.
Proof.
  intros Hrun Hk. pose proof Hrun as [Hq Hr Hc Hat]. unfold no_preemption. rewrite (find_kthread_at s ths p c k) by (done || apply (q_uniq _ _ Hq)). rewrite Hk. change (is_ready Running) with false. cbv iota.
  assert (running ths (set_need true p) ls c k) as Hn by (by constructor). destruct (_ && _); [exists (set_need true p); by rewrite on_cpu_st|].
  destruct (_ || _); [exists (set_need true p); by rewrite on_cpu_st|by exists p].
Qed.

(** Who gives the processor to whom: the thread that leaves waits in its slot,
    the one that comes was in its slot, and the boot thread never comes back. *)
Definition handed (ths ths' : list (option Kthread)) (c : nat) (k : Kthread) (c' : nat) (k' : Kthread) : Prop :=
  (c' ≠ c -> exists kc, ths' !! c = Some (Some kc) /\ k_tid kc = k_tid k /\ k_idle kc = k_idle k /\ k_state kc = Ready) /\
  (exists k0, ths !! c' = Some (Some k0) /\ k_tid k' = k_tid k0 /\ k_idle k' = k_idle k0) /\ (k_tid k ≠ BOOT_TID -> k_tid k' ≠ BOOT_TID).

(** An interrupt that finds threads waiting. *)
Lemma timer_step S ths ls c k rsp : good S ths ls c k -> interrupt_ok rsp k -> (exists j kt, ths !! j = Some (Some kt) /\ runnable kt) ->
  exists r S' ths' ls' c' k', timer_handler_inner cs_at 0 rsp false S = Some (r, S') /\ good S' ths' ls' c' k' /\ s_ticks S' = u64 (s_ticks S + 1) /\
    (forall j kt, ths !! j = Some (Some kt) -> runnable kt -> j = c' \/ ths' !! j = Some (Some (aged_if (now_ages S) kt))) /\ served k (ls !!! 0%nat) k' (ls' !!! 0%nat) /\ handed ths ths' c k c' k'.
Proof.
  intros [(s & p & -> & Hz & Hh & Hrun) Hk Hsl] Hint (j0 & kt0 & Hj0 & Hr0). change (now_ages (st s ths p)) with (now_ages s). change (s_ticks (st s ths p)) with (s_ticks s).
  assert (running ths (inc_ticks p) ls c k) as Hrun0 by (destruct Hrun; by constructor). pose proof (run_at _ _ _ _ _ Hrun) as Hat.
  assert (forall j kt, ths !! j = Some (Some kt) -> runnable kt -> j ≠ c) as Hjc by (intros j kt Hj (E & _) ->; congruence).
  unfold timer_handler_inner. cbn [Nat.eqb negb andb]. rewrite on_cpu_st. destruct (decide (k_slice k = 1)) as [E1|E1].
  - destruct (tick_expires s ths (inc_ticks p) ls c k rsp Hrun0 Hk E1 Hint) as (rq & ls1 & k1 & -> & Hrun1 & Hst1 & Hid1 & Hkn1 & Ht1 & Hpre). cbn [mbind option_bind].
    set (s1 := set_resched (count_tick s)). set (ths1 := <[c := Some k1]> (ticked s ths)) in *. set (p1 := set_rq rq (inc_ticks p)) in *. pose proof Hrun1 as [Hq1 _ Hc1 Hat1]. pose proof (q_uniq _ _ Hq1) as Hu1.
    assert (forall j kt, ths !! j = Some (Some kt) -> runnable kt -> ths1 !! j = Some (Some (aged_if (now_ages s) kt))) as Hth1.
    { intros j kt Hj Hr. unfold ths1. rewrite list_lookup_insert_ne by (intros ->; by apply (Hjc _ _ Hj Hr)). by apply ticked_lookup. }
    pose proof (Hth1 _ _ Hj0 Hr0) as Hj1. pose proof (proj2 (aged_if_runnable (now_ages s) kt0) Hr0) as Hr1. destruct (queue_nonempty _ _ _ _ Hq1 Hj1 Hr1) as [Hne _].
    unfold current_tid_checked. rewrite (kprcb_thread_st _ _ _ c k1) by done. cbn [mbind option_bind]. rewrite (find_kthread_at _ _ _ c k1) by done.
    rewrite (has_non_idle_st _ _ _ _ _ Hj1 Hr1). cbn [fmap option_fmap option_map default from_option id]. rewrite Hst1. change (bool_decide (Some Ready = Some Ready)) with true. cbn [orb].
    assert (interrupt_ok rsp k1) as Hint1 by (unfold interrupt_ok in *; by rewrite Hid1, Hkn1).
    assert (forall R, switched s1 ths1 ls1 c (k_idle k1) R -> exists r S' ths' ls' c' k', R = Some (r, S') /\ good S' ths' ls' c' k' /\ s_ticks S' = u64 (s_ticks s + 1) /\
      (forall j kt, ths !! j = Some (Some kt) -> runnable kt -> j = c' \/ ths' !! j = Some (Some (aged_if (now_ages s) kt))) /\ served k (ls !!! 0%nat) k' (ls' !!! 0%nat) /\ handed ths ths' c k c' k') as Hsw.
    { intros R (r & s' & ths' & p' & ls' & i & k' & -> & (X1 & X2 & X3) & Hrun' & Hst' & Hsl' & Hkeep & Hgone & (k0 & Hk0 & Hw & Hw2) & Hnb & Hcase). exists r, (st s' ths' p'), ths', ls', i, k'. split; [done|].
      split; [constructor; [exists s', p'; split_and!; try done; [by rewrite X1|by apply X3]|done|done]|]. split; [done|]. split_and!.
      - intros j kt Hj Hr. destruct (decide (j = i)) as [->|Hji]; [by left|right]. rewrite Hkeep; [by apply Hth1|done|by apply (Hjc _ _ Hj Hr)].
      - unfold served. destruct Hcase as [[Hpop Hi']|(-> & Hi' & Hfi)].
        + destruct (ls !!! 0%nat) as [|t0 l] eqn:E0; [by right; right|]. right. left. destruct Hpre as [m Hm].
          destruct (ls_pop_ring0 ls1 (k_tid k') ls' t0 (l ++ m)) as [-> ->]; [done|by rewrite Hm|]. exists l. split; [done|by apply prefix_app_r].
        + left. split; [done|]. rewrite Hid1 in Hfi. unfold weight. rewrite Hi', Hfi in *. lia.
      - split_and!; [|destruct (decide (i = c)) as [->|Hic]|done].
        + intros Hic. destruct (Hgone k1 Hic Hat1) as (kc & Hkc & J1 & J2 & J3). exists kc. split_and!; congruence.
        + exists k. split; [done|]. rewrite Hat1 in Hk0. injection Hk0 as <-. split; congruence.
        + unfold ths1 in Hk0. rewrite list_lookup_insert_ne in Hk0 by done. destruct (ticked_tid s ths i k0 Hk0) as (k2 & Hk2 & E2 & E3). exists k2. split_and!; congruence. }
    apply Hsw. pose proof (switch_idle s1 ths1 p1 ls1 c k1 rsp Hrun1 Hst1) as Hi. pose proof (switch_user s1 ths1 p1 ls1 c k1 rsp Hrun1 Hst1) as Hus.
    pose proof (switch_kernel s1 ths1 p1 ls1 c k1 rsp Hrun1 Hst1 Hint1 Hz Hne) as Hke. destruct (k_idle k1) eqn:Eid; cbn [negb]; [rewrite andb_false_r; by apply Hi|]. rewrite andb_true_r.
    destruct (Z.land _ 3 =? 3) eqn:Eu; [by apply Hus|]. assert (is_kernel_thread (st s1 ths1 p1) k1 = true) as ->; [|exact Hke].
    pose proof (exposed_ok (st s1 ths1 p1) rsp k1 Hint1) as Hex. by rewrite Eu in Hex.
  - destruct (tick_goes_on s ths (inc_ticks p) ls c k rsp (cs_at (rsp + 128)) Hrun0 Hk ltac:(lia)) as (rq & ls1 & k1 & -> & Hrun1 & Hst1 & Hsl1 & Hid1 & Hy1 & Ht1 & Hpre). cbn [mbind option_bind].
    set (ths1 := <[c := Some k1]> (ticked s ths)) in *. set (p1 := set_rq rq (inc_ticks p)) in *. pose proof Hrun1 as [Hq1 _ Hc1 Hat1]. pose proof (q_uniq _ _ Hq1) as Hu1.
    unfold current_tid_checked. rewrite (kprcb_thread_st _ _ _ c k1) by done. cbn [mbind option_bind]. rewrite (find_kthread_at _ _ _ c k1) by done.
    cbn [fmap option_fmap option_map default from_option id]. rewrite Hst1, Hy1. change (bool_decide (Some Running = Some Ready)) with false. change (bool_decide (Some Running = Some Terminated)) with false.
    rewrite (bool_decide_true (is_Some (Some k1))) by done. cbn [orb negb andb]. rewrite andb_false_r. cbn [andb].
    assert (exists r p', (if (Z.land (cs_at (rsp + 128)) 3 =? 3) && negb (k_idle k1) then Some (rsp, on_cpu 0 (set_need true) (st (count_tick s) ths1 p1))
      else if k_idle k1 then Some (no_preemption 0 rsp (k_tid k1) (has_non_idle_threads (st (count_tick s) ths1 p1)) (st (count_tick s) ths1 p1))
      else Some (no_preemption 0 rsp (k_tid k1) (has_non_idle_threads (st (count_tick s) ths1 p1)) (st (count_tick s) ths1 p1))) = Some (r, st (count_tick s) ths1 p') /\ running ths1 p' ls1 c k1) as (r & p' & -> & Hrun2).
    { destruct (no_switch (count_tick s) ths1 p1 ls1 c k1 rsp (has_non_idle_threads (st (count_tick s) ths1 p1)) Hrun1 Hst1) as (p' & -> & Hrun2).
      destruct (_ && _); [exists rsp, (set_need true p1); split; [done|destruct Hrun1; by constructor]|]. exists rsp, p'. by destruct (k_idle k1). }
    exists r, (st (count_tick s) ths1 p'), ths1, ls1, c, k1. split; [done|]. split; [constructor; [by exists (count_tick s), p'|done|rewrite Hsl1, Hid1; destruct (k_idle k); lia]|]. split; [done|]. split_and!.
    + intros j kt Hj Hr. right. unfold ths1. rewrite list_lookup_insert_ne by (intros ->; by apply (Hjc _ _ Hj Hr)). by apply ticked_lookup.
    + left. split; [done|]. unfold weight. rewrite Hsl1, Hid1. lia.
    + split_and!; [done|by exists k; rewrite Hid1|by rewrite Ht1].
Qed.

End one_cpu.

(** The occupied slots of a concrete table, one by one. *)
Lemma slot_elem (ths : list (option Kthread)) i k : ths !! i = Some (Some k) -> (i, k) ∈ omap (λ '(i, o), (λ k, (i, k)) <$> o) (imap (λ i o, (i, o)) ths).
Proof. intros Hi. apply list_elem_of_omap. exists (i, Some k). split; [|done]. apply list_elem_of_lookup. exists i. by rewrite list_lookup_imap, Hi. Qed.

Ltac slots H := apply slot_elem in H; cbn in H; rewrite ?elem_of_cons, elem_of_nil in H; destruct_or! H; simplify_eq.
