(* ===== verification/SchedLive.v ===== *)
(** * SchedLive.v: who gets the processor

    Sequences of timer interrupts and wake-ups on one processor.  A ready thread
    of any priority is dispatched within a bounded number of interrupts; the boot
    thread, which no queue holds, is never dispatched again while two other
    threads stay ready. *)

From stdpp Require Import gmap.
From S2P Require Import Prelude RunQueue Sched SchedOk.
Open Scope Z_scope.

(** A timer interrupt that pushed its frame at [rsp], or a wake-up of the threads
    that wait for [magic]. *)
Inductive event := Tick (rsp : Z) | Wake (magic : Z).

Fixpoint tick_count (evs : list event) : Z := match evs with [] => 0 | Tick _ :: evs => 1 + tick_count evs | Wake _ :: evs => tick_count evs end.

Lemma tick_count_nonneg evs : 0 <= tick_count evs.
Proof. induction evs as [|[] evs IH]; cbn [tick_count]; lia. Qed.

Section events.
Context (cs_at : Z -> Z).

Definition step (e : event) (S : Sched) : option Sched :=
  match e with Tick rsp => snd <$> timer_handler_inner cs_at 0 rsp false S | Wake magic => Some (wake_blocked_on_magic magic S) end.
Fixpoint run (evs : list event) (S : Sched) : option Sched := match evs with [] => Some S | e :: evs => step e S ≫= run evs end.

(** The thread the processor executes. *)
Definition current (S : Sched) : option Kthread := t ← kprcb_thread 0 S; find_kthread S t.

(** Every interrupt of a thread that is neither a kernel nor an idle thread comes from
    user mode. *)
Fixpoint events_ok (evs : list event) (S : Sched) : Prop :=
  match evs with
  | [] => True
  | e :: evs => match e with Tick rsp => exists k, current S = Some k /\ interrupt_ok cs_at rsp k | Wake _ => True end /\
      match step e S with Some S' => events_ok evs S' | None => True end
  end.

Definition runs (S : Sched) (t : Z) : Prop := exists k, current S = Some k /\ k_tid k = t /\ k_state k = Running.

Lemma good_current S ths ls c k : good cs_at S ths ls c k -> current S = Some k.
Proof.
  intros [(s & p & -> & _ & _ & [Hq _ Hc Hat]) _ _]. unfold current. pose proof (q_uniq _ _ _ Hq). rewrite (kprcb_thread_st s ths p c k) by done. cbn [mbind option_bind].
  by apply (find_kthread_at s ths p c k).
Qed.

Lemma good_q S ths ls c k : good cs_at S ths ls c k -> qinv cs_at ths ls /\ ths !! c = Some (Some k) /\ (length (ls !!! 0%nat) <= 64)%nat.
Proof. intros [(s & p & -> & _ & _ & [Hq Hr Hc Hat]) _ _]. split_and!; try done. apply (sr_cap _ _ (rr_ring _ _ 0%nat Hr ltac:(lia))). Qed.

(** A wake-up leaves the current and the ready threads as they are. *)
Lemma wake_good m S ths ls c k : good cs_at S ths ls c k ->
  exists ths' ls', good cs_at (wake_blocked_on_magic m S) ths' ls' c k /\ s_ticks (wake_blocked_on_magic m S) = s_ticks S /\
    (forall j kt, ths !! j = Some (Some kt) -> runnable kt -> ths' !! j = Some (Some kt)) /\ (ls !!! 0%nat) `prefix_of` (ls' !!! 0%nat).
Proof.
  intros [(s & p & -> & Hz & Hh & [Hq Hr Hc Hat]) Hk Hs]. destruct (wake_st cs_at (waits_for m) s ths p ls Hq Hr) as (rq' & ls' & E & Hq' & Hr' & Hp).
  assert (forall j kt, ths !! j = Some (Some kt) -> is_blocked (k_state kt) = false -> (on_slot (woken (waits_for m)) <$> ths) !! j = Some (Some kt)) as Hkeep.
  { intros j kt Hj Hb. rewrite list_lookup_fmap, Hj. cbn. unfold woken. by rewrite Hb, andb_false_r. }
  unfold wake_blocked_on_magic. rewrite E. exists (on_slot (woken (waits_for m)) <$> ths), ls'. split_and!; try done.
  - constructor; [|done|done]. exists s, (set_rq rq' p). split_and!; try done. constructor; try done. apply Hkeep; [done|by rewrite Hk].
  - intros j kt Hj (Hrd & _). apply Hkeep; [done|by rewrite Hrd].
Qed.

(** ** How long a ready thread waits *)

(** Agings until the thread is of the highest priority. *)
Definition rounds (kt : Kthread) : Z :=
  if k_prio kt =? 0 then 0 else 10 * (k_prio kt - 1) + Z.max 1 ((MAX_STARVATION_TICKS - k_starved kt + 499) / AGING_INTERVAL_TICKS).

(** The place of [t] in a ring. *)
Definition place (t : Z) (l : list Z) : Z := from_option (λ '(i, _), Z.of_nat i) 0 (list_find (eq t) l).

(** Interrupts until the thread runs, at most: the agings, then for each thread
    before it in the ring a slice and the idle thread in between. *)
Definition patience (S : Sched) (ls : list (list Z)) (k kt : Kthread) : Z :=
  if k_prio kt =? 0 then 411 * place (k_tid kt) (ls !!! 0%nat) + weight k
  else (AGING_INTERVAL_TICKS * rounds kt - s_ticks S `mod` AGING_INTERVAL_TICKS) + 26303.

Lemma place_head t l : place t (t :: l) = 0.
Proof. unfold place. cbn. by rewrite decide_True. Qed.
Lemma place_cons t x l : t ∈ l -> t ≠ x -> place t (x :: l) = 1 + place t l.
Proof.
  intros Hin Hx. unfold place. cbn. rewrite decide_False by done. destruct (list_find (eq t) l) as [[i y]|] eqn:Ef; [cbn; lia|].
  apply list_find_None in Ef. rewrite Forall_forall in Ef. by destruct (Ef t Hin).
Qed.
Lemma place_prefix t l l' : t ∈ l -> l `prefix_of` l' -> place t l' = place t l.
Proof.
  intros Hin [m ->]. induction l as [|x l IH]; [by apply elem_of_nil in Hin|]. change ((x :: l) ++ m) with (x :: (l ++ m)). destruct (decide (t = x)) as [->|Hx]; [by rewrite !place_head|].
  apply elem_of_cons in Hin as [?|Hin]; [done|]. rewrite !place_cons, IH by (done || (apply elem_of_app; by left)). done.
Qed.
Lemma place_bound t l : 0 <= place t l /\ (t ∈ l -> place t l < Z.of_nat (length l)).
Proof.
  unfold place. destruct (list_find (eq t) l) as [[i y]|] eqn:Ef; cbn.
  - apply list_find_Some in Ef as (Hi & _). apply lookup_lt_Some in Hi. lia.
  - split; [lia|]. intros Hin. apply list_find_None in Ef. rewrite Forall_forall in Ef. by destruct (Ef t Hin).
Qed.

(** One aging round. *)
Lemma rounds_aged kt : runnable kt -> 0 <= k_starved kt -> 0 < k_prio kt <= 3 ->
  rounds (aged kt) = rounds kt - 1 /\ 1 <= rounds kt /\ (k_prio (aged kt) = 0 \/ 1 <= rounds (aged kt)) /\ 0 <= k_prio (aged kt).
Proof.
  intros (Hr & Hid & _) Hs Hp. unfold aged. rewrite Hid, Hr. change (negb false && is_ready Ready) with true. cbv iota zeta.
  change (k_prio (with_starved ?n ?k)) with (k_prio k). change (k_starved (with_starved ?n ?k)) with n. unfold PRIORITY_HIGH. rewrite (proj2 (Z.ltb_lt 0 (k_prio kt))) by lia. rewrite andb_true_r.
  unfold rounds, MAX_STARVATION_TICKS, AGING_INTERVAL_TICKS. rewrite (proj2 (Z.eqb_neq (k_prio kt) 0)) by lia. destruct (5000 <=? sat_add 64 (k_starved kt) 500) eqn:E.
  - change (k_prio (with_starved 0 (with_prio ?n ?m ?k))) with n. change (k_starved (with_starved 0 ?k)) with 0. apply Z.leb_le in E. assert (4500 <= k_starved kt) by (unfold sat_add in E; lia).
    assert ((5000 - k_starved kt + 499) / 500 < 2) by (apply Z.div_lt_upper_bound; lia). change ((5000 - 0 + 499) / 500) with 10. destruct (k_prio kt - 1 =? 0) eqn:E0; [apply Z.eqb_eq in E0|apply Z.eqb_neq in E0]; lia.
  - change (k_prio (with_starved ?n ?k)) with (k_prio k). change (k_starved (with_starved ?n ?k)) with n. rewrite (proj2 (Z.eqb_neq (k_prio kt) 0)) by lia. apply Z.leb_gt in E.
    assert (sat_add 64 (k_starved kt) 500 = k_starved kt + 500) as E2 by (unfold sat_add in *; lia). rewrite E2 in *. replace (5000 - (k_starved kt + 500) + 499) with (5000 - k_starved kt + 499 + (-1) * 500) by lia.
    rewrite Z.div_add by lia. assert (2 <= (5000 - k_starved kt + 499) / 500) by (apply Z.div_le_lower_bound; lia). lia.
Qed.

Lemma mod_succ n : (n + 1) `mod` 500 = if n `mod` 500 =? 499 then 0 else n `mod` 500 + 1.
Proof. destruct (_ =? 499) eqn:E; [apply Z.eqb_eq in E|apply Z.eqb_neq in E]; Z.to_euclidean_division_equations; lia. Qed.

Lemma patience_pos S ths ls c k j kt : good cs_at S ths ls c k -> ths !! j = Some (Some kt) -> runnable kt -> 1 <= patience S ls k kt <= (if k_prio kt =? 0 then 26303 else 41303).
Proof.
  intros Hg Hj Hr. destruct (good_q _ _ _ _ _ Hg) as (Hq & _ & Hlen). pose proof (q_ok _ _ _ Hq j kt Hj) as Hok. pose proof (weight_bound _ _ _ _ _ _ Hg).
  destruct (queue_nonempty _ _ _ _ _ Hq Hj Hr) as [_ Hin]. pose proof (ok_prio _ _ Hok). pose proof (ok_base _ _ Hok). pose proof (ok_starved _ _ Hok). unfold patience. destruct (k_prio kt =? 0) eqn:E0.
  - apply Z.eqb_eq in E0. rewrite E0 in Hin. destruct (place_bound (k_tid kt) (ls !!! 0%nat)) as [Hp Hp']. specialize (Hp' Hin). lia.
  - destruct (rounds_aged kt Hr ltac:(lia)) as (_ & Hge & _); [apply Z.eqb_neq in E0; lia|]. unfold AGING_INTERVAL_TICKS. pose proof (Z.mod_pos_bound (s_ticks S) 500 ltac:(lia)).
    assert (rounds kt <= 30); [|lia]. unfold rounds, MAX_STARVATION_TICKS, AGING_INTERVAL_TICKS. rewrite E0. assert ((5000 - k_starved kt + 499) / 500 < 11) by (apply Z.div_lt_upper_bound; lia). lia.
Qed.

(** In the first ring, an interrupt brings the thread closer to its turn. *)
Lemma ring_patience S S' ths ths' ls ls' c c' k k' j kt kt' : good cs_at S ths ls c k -> good cs_at S' ths' ls' c' k' -> ths !! j = Some (Some kt) -> runnable kt -> k_prio kt = 0 ->
  k_prio kt' = 0 -> k_tid kt' = k_tid kt -> served k (ls !!! 0%nat) k' (ls' !!! 0%nat) -> k_tid k' = k_tid kt \/ patience S' ls' k' kt' <= patience S ls k kt - 1.
Proof.
  intros Hg Hg' Hj Hr H0 H0' Ht Hs. destruct (good_q _ _ _ _ _ Hg) as (Hq & _ & _). destruct (queue_nonempty _ _ _ _ _ Hq Hj Hr) as [_ Hin]. rewrite H0 in Hin.
  pose proof (weight_bound _ _ _ _ _ _ Hg). pose proof (weight_bound _ _ _ _ _ _ Hg'). unfold patience. rewrite H0, H0', Ht. cbn [Z.eqb]. change (Z.to_nat 0) with 0%nat in Hin.
  destruct Hs as [[Hp Hw]|[(l & E & Hp)|E]]; [right; rewrite (place_prefix _ _ _ Hin Hp); lia| |rewrite E in Hin; by apply elem_of_nil in Hin].
  rewrite E in Hin |- *. destruct (decide (k_tid kt = k_tid k')) as [Ek|Ek]; [by left|right]. apply elem_of_cons in Hin as [?|Hin]; [done|]. rewrite (place_prefix _ _ _ Hin Hp), place_cons by done. lia.
Qed.

Lemma tick_patience S ths ls c k rsp j kt : good cs_at S ths ls c k -> ths !! j = Some (Some kt) -> runnable kt -> interrupt_ok cs_at rsp k -> 0 <= s_ticks S -> s_ticks S + 1 < 2 ^ 64 ->
  exists S' ths' ls' c' k', step (Tick rsp) S = Some S' /\ good cs_at S' ths' ls' c' k' /\ s_ticks S' = s_ticks S + 1 /\
    (k_tid k' = k_tid kt \/ exists kt', ths' !! j = Some (Some kt') /\ runnable kt' /\ k_tid kt' = k_tid kt /\ patience S' ls' k' kt' <= patience S ls k kt - 1).
Proof.
  intros Hg Hj Hr Hint H0 H64. destruct (timer_step cs_at S ths ls c k rsp Hg Hint ltac:(by exists j, kt)) as (r & S' & ths' & ls' & c' & k' & E & Hg' & Ht & Hkeep & Hserved & Hhand).
  rewrite wrap_small in Ht by lia. exists S', ths', ls', c', k'. cbn [step]. rewrite E. split; [done|]. split; [done|]. split; [done|].
  destruct (Hkeep j kt Hj Hr) as [->|Hj']; [left; destruct Hhand as (_ & (k0 & Hk0 & -> & _) & _); congruence|]. set (kt' := aged_if (now_ages S) kt) in *.
  pose proof (proj2 (aged_if_runnable (now_ages S) kt) Hr) as Hr'. fold kt' in Hr'. assert (k_tid kt' = k_tid kt) as Et by (unfold kt', aged_if; destruct (now_ages S); [apply aged_same|done]).
  destruct (good_q _ _ _ _ _ Hg) as (Hq & _ & _). pose proof (q_ok _ _ _ Hq j kt Hj) as Hok. pose proof (ok_prio _ _ Hok). pose proof (ok_base _ _ Hok). pose proof (ok_starved _ _ Hok).
  destruct (decide (k_prio kt = 0)) as [Hp0|Hp0].
  - assert (k_prio kt' = 0) as Hp0'. { pose proof (q_ok _ _ _ (proj1 (good_q _ _ _ _ _ Hg')) j kt' Hj') as Hok'. unfold kt', aged_if, aged, PRIORITY_HIGH. destruct (now_ages S); [|done]. destruct (_ && _); [|done]. cbv zeta.
      change (k_prio (with_starved ?n ?x)) with (k_prio x). rewrite Hp0. change (0 <? 0) with false. rewrite andb_false_r. done. }
    destruct (ring_patience S S' ths ths' ls ls' c c' k k' j kt kt') as [?|?]; try done; [by left|right; by exists kt'].
  - right. exists kt'. split_and!; try done. pose proof (patience_pos S' ths' ls' c' k' j kt' Hg' Hj' Hr') as Hb. destruct (rounds_aged kt Hr ltac:(lia) ltac:(lia)) as (Hra & Hge & Hcase & _).
    unfold patience in Hb |- *. rewrite (proj2 (Z.eqb_neq _ _) Hp0), Ht in *. unfold AGING_INTERVAL_TICKS in *. assert (now_ages S = ((s_ticks S + 1) mod 500 =? 0)) as En.
    { unfold now_ages, AGING_INTERVAL_TICKS. f_equal. f_equal. cbn. by rewrite wrap_small by lia. }
    unfold kt', aged_if in *. rewrite En, mod_succ in *. destruct (s_ticks S mod 500 =? 499) eqn:Em; [apply Z.eqb_eq in Em|apply Z.eqb_neq in Em].
    + change (0 =? 0) with true in *. cbv iota in *. rewrite Hra, Em in *. destruct (k_prio (aged kt) =? 0); lia.
    + pose proof (Z.mod_pos_bound (s_ticks S) 500 ltac:(lia)). rewrite (proj2 (Z.eqb_neq (s_ticks S mod 500 + 1) 0)) by lia. rewrite (proj2 (Z.eqb_neq _ _) Hp0). lia.
Qed.

Lemma wake_patience m S ths ls c k j kt : good cs_at S ths ls c k -> ths !! j = Some (Some kt) -> runnable kt ->
  exists ths' ls', good cs_at (wake_blocked_on_magic m S) ths' ls' c k /\ s_ticks (wake_blocked_on_magic m S) = s_ticks S /\ ths' !! j = Some (Some kt) /\
    patience (wake_blocked_on_magic m S) ls' k kt = patience S ls k kt.
Proof.
  intros Hg Hj Hr. destruct (wake_good m _ _ _ _ _ Hg) as (ths' & ls' & Hg' & Ht & Hkeep & Hp). exists ths', ls'. split_and!; try done; [by apply Hkeep|].
  destruct (good_q _ _ _ _ _ Hg) as (Hq & _ & _). destruct (queue_nonempty _ _ _ _ _ Hq Hj Hr) as [_ Hin]. unfold patience. rewrite Ht. destruct (k_prio kt =? 0) eqn:E; [|done].
  apply Z.eqb_eq in E. rewrite E in Hin. by rewrite (place_prefix _ _ _ Hin Hp).
Qed.

(** The thread waits its patience, at most. *)
Lemma waits_and_runs evs S ths ls c k j kt : good cs_at S ths ls c k -> ths !! j = Some (Some kt) -> runnable kt -> events_ok evs S ->
  0 <= s_ticks S -> s_ticks S + tick_count evs < 2 ^ 64 -> patience S ls k kt <= tick_count evs ->
  exists n S', (n <= length evs)%nat /\ run (take n evs) S = Some S' /\ runs S' (k_tid kt).
Proof.
  revert S ths ls c k kt. induction evs as [|e evs IH]; intros S ths ls c k kt Hg Hj Hr Hev H0 H64 Hp.
  - pose proof (patience_pos _ _ _ _ _ _ _ Hg Hj Hr). cbn [tick_count] in Hp. lia.
  - pose proof (tick_count_nonneg evs). destruct e as [rsp|m]; cbn [tick_count events_ok] in *.
    + destruct Hev as [(k0 & Hk0 & Hint) Hev]. rewrite (good_current _ _ _ _ _ Hg) in Hk0. injection Hk0 as <-.
      destruct (tick_patience S ths ls c k rsp j kt Hg Hj Hr Hint H0 ltac:(lia)) as (S' & ths' & ls' & c' & k' & E & Hg' & Ht & Hcase). rewrite E in Hev.
      destruct Hcase as [Ek|(kt' & Hj' & Hr' & Et & Hlt)].
      * exists 1%nat, S'. split_and!; [cbn; lia|cbn [take run]; by rewrite E|]. exists k'. rewrite (good_current _ _ _ _ _ Hg'). by destruct Hg'.
      * destruct (IH S' ths' ls' c' k' kt') as (n & S2 & Hn & E2 & Hruns); try done; [lia|lia|lia|]. exists (Datatypes.S n), S2. rewrite <- Et. split_and!; [cbn; lia| |done].
        cbn [take run]. by rewrite E.
    + destruct Hev as [_ Hev]. destruct (wake_patience m S ths ls c k j kt Hg Hj Hr) as (ths' & ls' & Hg' & Ht & Hj' & Epat).
      destruct (IH _ ths' ls' c k kt Hg' Hj' Hr Hev) as (n & S2 & Hn & E2 & Hruns); [lia|lia|lia|]. exists (Datatypes.S n), S2. split_and!; [cbn; lia|done|done].
Qed.

(** ** The boot thread *)

(** A thread that has, or waits for, the processor. *)
Definition active (ths : list (option Kthread)) (k : Kthread) (t : Z) : Prop :=
  (k_tid k = t /\ k_idle k = false /\ t ≠ BOOT_TID) \/ exists j kt, ths !! j = Some (Some kt) /\ k_tid kt = t /\ runnable kt.

Lemma active_wait ths k a b : a ≠ b -> active ths k a -> active ths k b -> exists j kt, ths !! j = Some (Some kt) /\ runnable kt.
Proof. intros Hab [(<- & _)|(j & kt & ? & ? & ?)] Hb; [|by exists j, kt]. destruct Hb as [(? & _)|(j & kt & ? & ? & ?)]; [done|by exists j, kt]. Qed.

Lemma active_step S ths ths' c k c' k' t : ths !! c = Some (Some k) -> (forall j kt, ths !! j = Some (Some kt) -> runnable kt -> j = c' \/ ths' !! j = Some (Some (aged_if (now_ages S) kt))) ->
  handed ths ths' c k c' k' -> active ths k t -> active ths' k' t.
Proof.
  intros Hat Hkeep (Hgone & (k0 & Hk0 & Ht0 & Hi0) & _) [(<- & Hid & Hb)|(j & kt & Hj & <- & Hr)].
  - destruct (decide (c' = c)) as [->|Hc]; [left; rewrite Hat in Hk0; injection Hk0 as <-; split_and!; congruence|]. destruct (Hgone Hc) as (kc & Hkc & E1 & E2 & E3).
    right. exists c, kc. unfold runnable. split_and!; congruence.
  - destruct (Hkeep j kt Hj Hr) as [->|Hj']; [left; rewrite Hj in Hk0; injection Hk0 as <-; destruct Hr as (_ & ? & ?); split_and!; congruence|].
    right. exists j, (aged_if (now_ages S) kt). split_and!; [done| |by apply aged_if_runnable]. unfold aged_if. destruct (now_ages S); [apply aged_same|done].
Qed.

Lemma active_kept ths ths' k t : (forall j kt, ths !! j = Some (Some kt) -> runnable kt -> ths' !! j = Some (Some kt)) -> active ths k t -> active ths' k t.
Proof. intros Hkeep [?|(j & kt & ? & ? & ?)]; [by left|]. right. exists j, kt. split_and!; [by apply Hkeep|done|done]. Qed.

Lemma never_boot evs S ths ls c k a b : good cs_at S ths ls c k -> k_tid k ≠ BOOT_TID -> a ≠ b -> active ths k a -> active ths k b -> events_ok evs S ->
  exists S' k', run evs S = Some S' /\ current S' = Some k' /\ k_tid k' ≠ BOOT_TID.
Proof.
  intros Hg Hk Hab. revert S ths ls c k Hg Hk. induction evs as [|e evs IH]; intros S ths ls c k Hg Hk Ha Hb Hev.
  - exists S, k. split_and!; [done|by eapply good_current|done].
  - destruct e as [rsp|m]; cbn [events_ok] in *.
    + destruct Hev as [(k0 & Hk0 & Hint) Hev]. rewrite (good_current _ _ _ _ _ Hg) in Hk0. injection Hk0 as <-. pose proof (good_q _ _ _ _ _ Hg) as (_ & Hat & _).
      destruct (timer_step cs_at S ths ls c k rsp Hg Hint (active_wait _ _ _ _ Hab Ha Hb)) as (r & S' & ths' & ls' & c' & k' & E & Hg' & _ & Hkeep & _ & Hhand).
      cbn [run step] in *. rewrite E in *. cbn in Hev. apply (IH S' ths' ls' c' k'); try done; [by apply Hhand|by eapply (active_step S)|by eapply (active_step S)].
    + destruct Hev as [_ Hev]. destruct (wake_good m _ _ _ _ _ Hg) as (ths' & ls' & Hg' & _ & Hkeep & _). apply (IH _ ths' ls' c k); try done; by eapply active_kept.
Qed.

End events.

(** ** The theorems *)

(** C4. On one processor with at most 64 threads, take a state of the scheduler's
    invariant: the rings hold the ready threads, no thread has asked to yield, none that
    ended waits to be reaped, and every thread but kernel threads was left in user mode.
    Take any ready thread but the idle and the boot thread.  Let timer interrupts arrive
    with preemption enabled, those of threads that are not kernel threads from user
    mode, and wake-ups of blocked threads between them in any order.  Then
    [timer_handler_inner] never stops at a bug check, and within [patience] interrupts,
    at most 41303, the processor executes the thread: at most 30 agings of 500 ticks
    bring it into the first ring, and each thread before it there holds the processor
    for at most 411 ticks.  A user thread that is interrupted inside the kernel keeps
    the processor with a fresh slice; such interrupts are not covered. *)
Theorem ready_thread_runs cs_at evs S ths ls c k j kt : good cs_at S ths ls c k -> ths !! j = Some (Some kt) -> runnable kt -> events_ok cs_at evs S ->
  0 <= s_ticks S -> s_ticks S + tick_count evs < 2 ^ 64 -> patience S ls k kt <= tick_count evs ->
  patience S ls k kt <= 41303 /\ exists n S', (n <= length evs)%nat /\ run cs_at (take n evs) S = Some S' /\ runs S' (k_tid kt).
Proof.
  intros Hg Hj Hr Hev H0 H64 Hp. pose proof (patience_pos cs_at S ths ls c k j kt Hg Hj Hr). split; [destruct (_ =? 0); lia|]. by eapply waits_and_runs.
Qed.

(** C25. The boot thread starves: it is never put into a run queue, and the scan
    that could find it is reached only when the queue offers nothing.  Under the
    conditions of the bound above (one processor, at most 64 threads, the scheduler's
    invariant with no pending yields and nothing to reap, interrupts of threads that are
    not kernel threads from user mode with preemption enabled): once it has lost the
    processor and two threads other than it and the idle thread are ready or running,
    no sequence of timer interrupts and wake-ups gives it the processor again, whatever
    its priority and however often it is aged; the interrupts themselves all return. *)
Theorem boot_thread_starves cs_at evs S ths ls c k a b : good cs_at S ths ls c k -> k_tid k ≠ BOOT_TID -> a ≠ b -> active ths k a -> active ths k b -> events_ok cs_at evs S ->
  exists S' k', run cs_at evs S = Some S' /\ current S' = Some k' /\ k_tid k' ≠ BOOT_TID.
Proof. by apply never_boot. Qed.

(** ** An example *)

(** Events whose interrupts all come from user mode. *)
Fixpoint user_events (cs_at : Z -> Z) (evs : list event) (S : Sched) : bool :=
  match evs with
  | [] => true
  | e :: evs => match e with Tick rsp => (0x1000 <=? rsp) && (Z.land (cs_at (rsp + 128)) 3 =? 3) && bool_decide (is_Some (current S)) | Wake _ => true end &&
      match step cs_at e S with Some S' => user_events cs_at evs S' | None => true end
  end.

Lemma user_events_ok cs_at evs S : user_events cs_at evs S = true -> events_ok cs_at evs S.
Proof.
  revert S. induction evs as [|e evs IH]; intros S; [done|]. cbn [user_events events_ok]. intros [He Hs]%andb_true_iff. split.
  - destruct e as [rsp|m]; [|done]. apply andb_true_iff in He as [[H1 H2]%andb_true_iff [k Hk]%bool_decide_eq_true]. apply Z.leb_le in H1. apply Z.eqb_eq in H2.
    exists k. split; [done|]. split; [lia|]. left. done.
  - destruct (step cs_at e S) as [S'|]; [by apply IH|done].
Qed.

(** The boot thread waits at the highest priority; thread 2 executes, thread 3
    waits and thread 4 is blocked. *)
Definition example_thread (t : Z) (idle kernel : bool) (state : ThreadState) (w : option Z) (prio slice : Z) : option Kthread :=
  Some (mkThread t t idle kernel 0x9000 0x4000 state w prio prio slice 0 0 0x5000 false (mkAcct 0 0 0)).
Definition example_threads : list (option Kthread) :=
  [example_thread 0 false true Ready None 0 400; example_thread 1 true true Ready None 3 10; example_thread 2 false false Running None 0 1;
   example_thread 3 false false Ready None 0 400; example_thread 4 false false (Blocked 9) (Some 9) 2 100].
Definition example_block : Kprcb := mkPrcb (Some 2) 2 false false (rq_push_priority 3 0 rq_new).2 0 0.
Definition example_state : Sched := st (mkSched [] ∅ [] ∅ 2 5 1000 0 [] (replicate 16 false) false false [] 0) example_threads example_block.
Definition example_rings : list (list Z) := [[3]; []; []; []].
Definition user_code (a : Z) : Z := 0x23.

Lemma example_good : good user_code example_state example_threads example_rings 2 (mkThread 2 2 false false 0x9000 0x4000 Running None 0 0 1 0 0 0x5000 false (mkAcct 0 0 0)).
Proof.
  constructor; [|done|cbn; lia]. eexists _, _. split; [done|]. split; [done|]. split; [done|]. constructor; try done.
  2: { destruct (rq_push_rep 3 0 rq_new _ rq_rep_new ltac:(lia)) as (rq' & E & Hr). unfold example_block. cbn [pr_rq]. rewrite E. exact Hr. }
  constructor; try done.
  - intros i j k k' Hi Hj E. slots Hi; slots Hj; done.
  - cbn. lia.
  - unfold example_rings. cbn. repeat constructor. by intros ?%elem_of_nil.
  - intros t p Hp. split.
    + intros Hin. destruct p as [|[|[|[|]]]]; cbn in Hin; try (by apply elem_of_nil in Hin). apply elem_of_cons in Hin as [->|Hin]; [|by apply elem_of_nil in Hin].
      exists 3%nat. eexists. split_and!; done.
    + intros (i & k & Hi & Ht & (Hr & Hid & Hb) & Hpr). slots Hi; cbn in *; try done. destruct p; [|lia]. by left.
  - intros i k Hi. slots Hi; constructor; cbn; try done; try lia; intros _; (by left) || (right; split; [lia|done]).
  - by exists 1%nat; eexists.
Qed.

Definition example_events : list event := Wake 9 :: replicate 11 (Tick 0x5000).

Lemma ready_thread_runs_witness : exists n S', (n <= 12)%nat /\ run user_code (take n example_events) example_state = Some S' /\ runs S' 3.
Proof.
  assert (events_ok user_code example_events example_state) as Hev by (apply user_events_ok; vm_compute; reflexivity).
  destruct (ready_thread_runs user_code example_events example_state example_threads example_rings 2 _ 3 (mkThread 3 3 false false 0x9000 0x4000 Ready None 0 0 400 0 0 0x5000 false (mkAcct 0 0 0)) example_good eq_refl
    ltac:(done) Hev ltac:(done) ltac:(done) ltac:(vm_compute; discriminate)) as [_ H]. exact H.
Defined.

Definition long_events : list event := replicate 1200 (Tick 0x5000).

Lemma boot_thread_starves_witness : exists S' k', run user_code long_events example_state = Some S' /\ current S' = Some k' /\ k_tid k' ≠ BOOT_TID.
Proof.
  assert (events_ok user_code long_events example_state) as Hev by (apply user_events_ok; vm_compute; reflexivity).
  apply (boot_thread_starves user_code long_events example_state example_threads example_rings 2 _ 2 3 example_good); [done|done|left; done| |exact Hev].
  right. exists 3%nat. eexists. split; [reflexivity|]. split; [reflexivity|]. done.
Defined.
