(* ===== verification/SchedSmp.v ===== *)
(** * SchedSmp.v: several processors

    Any interleaving of timer interrupts on the processors, wake-ups, priority
    changes and terminations: no thread is current on two processors, and the
    thread a processor executes is never released. *)

From stdpp Require Import gmap.
From S2P Require Import Prelude RunQueue Sched SchedOk.
Open Scope Z_scope.

(** ** What a run queue holds *)

Lemma concat_insert_elem (ls : list (list Z)) p l x : x ∈ concat (<[p := l]> ls) -> x ∈ l \/ x ∈ concat ls.
Proof.
  revert p. induction ls as [|y ls IH]; intros [|p] Hx; try by right.
  - change (<[0%nat := l]> (y :: ls)) with (l :: ls) in Hx. rewrite concat_cons, elem_of_app in Hx |- *. tauto.
  - change (<[S p := l]> (y :: ls)) with (y :: <[p := l]> ls) in Hx. rewrite concat_cons, elem_of_app in Hx |- *. destruct Hx as [?|Hx]; [tauto|]. destruct (IH p Hx); tauto.
Qed.

Lemma concat_ring (ls : list (list Z)) p l x : ls !! p = Some l -> x ∈ l -> x ∈ concat ls.
Proof. intros Hp Hx. apply elem_of_ring. exists p. split; [by eapply lookup_lt_Some|]. by rewrite (list_lookup_total_correct _ _ _ Hp). Qed.

Lemma ls_push_sub t prio ls x : x ∈ concat (ls_push t prio ls).2 -> x = t \/ x ∈ concat ls.
Proof.
  unfold ls_push. case_decide; cbn [snd]; [|by right]. intros [Hx|Hx]%concat_insert_elem; [|by right]. apply elem_of_app in Hx as [Hx|Hx].
  - right. destruct (ls !! Z.to_nat (Z.min prio 3)) as [l|] eqn:E; [rewrite (list_lookup_total_correct _ _ _ E) in Hx; by eapply concat_ring|].
    rewrite list_lookup_total_alt, E in Hx. by apply elem_of_nil in Hx.
  - left. apply elem_of_cons in Hx as [?|Hx]; [done|by apply elem_of_nil in Hx].
Qed.

Lemma ls_pop_sub t ls ls' : ls_pop ls = Some (t, ls') -> t ∈ concat ls /\ forall x, x ∈ concat ls' -> x ∈ concat ls.
Proof.
  unfold ls_pop, highest. destruct (list_find _ ls) as [[p [|y l]]|] eqn:Ef; try done. intros [= -> <-]. apply list_find_Some in Ef as (Hp & _ & _).
  split; [eapply concat_ring; [done|by left]|]. intros x [Hx|Hx]%concat_insert_elem; [|done]. eapply concat_ring; [done|by right].
Qed.

Lemma ls_remove_sub t ls x : x ∈ concat (ls_remove t ls) -> x ∈ concat ls.
Proof.
  unfold ls_remove. destruct (list_find _ ls) as [[p l]|] eqn:Ef; [|done]. apply list_find_Some in Ef as (Hp & _ & _). intros [Hx|Hx]%concat_insert_elem; [|done].
  eapply concat_ring; [done|]. unfold remove_first in Hx. destruct (list_find _ l) as [[q y]|]; [|done]. by eapply elem_of_submseteq; [|apply submseteq_delete].
Qed.

(** The ids in the queue satisfy [P]. *)
Definition holds (P : Z -> Prop) (rq : CpuRunQueue) : Prop := exists ls, rq_rep rq ls /\ forall t, t ∈ concat ls -> P t.

Lemma holds_mono (P Q : Z -> Prop) rq : (forall t, P t -> Q t) -> holds P rq -> holds Q rq.
Proof. intros HPQ (ls & Hr & H). exists ls. split; [done|]. auto. Qed.
Lemma holds_push P t prio rq : holds P rq -> P t -> 0 <= prio -> holds P (rq_push_priority t prio rq).2.
Proof.
  intros (ls & Hr & H) Ht Hp. destruct (rq_push_rep t prio rq ls Hr Hp) as (rq' & -> & Hr'). exists (ls_push t prio ls).2. split; [done|]. intros x [->|Hx]%ls_push_sub; auto.
Qed.
Lemma holds_pop P t rq rq' : holds P rq -> rq_pop rq = Some (t, rq') -> P t /\ holds P rq'.
Proof.
  intros (ls & Hr & H) Hp. pose proof (rq_pop_rep rq ls Hr) as Hpop. destruct (ls_pop ls) as [[x ls']|] eqn:E; [|congruence]. destruct Hpop as (rq1 & E1 & Hr1). rewrite E1 in Hp. injection Hp as -> ->.
  destruct (ls_pop_sub _ _ _ E) as [Hin Hsub]. split; [auto|]. exists ls'. split; [done|]. auto.
Qed.
Lemma holds_remove P t rq : holds P rq -> holds P (rq_remove t rq).2.
Proof. intros (ls & Hr & H). destruct (rq_remove_rep t rq ls Hr) as (rq' & -> & Hr'). exists (ls_remove t ls). split; [done|]. intros x Hx%ls_remove_sub. auto. Qed.

(** ** The invariant *)

(** The thread a processor executes. *)
Definition cur_of (cpus : list (option Kprcb)) (c : nat) : option Z := mjoin (cpus !! c) ≫= pr_current.
Definition cur (s : Sched) (c : nat) : option Z := cur_of (s_cpus s) c.

Definition not_idle (ths : list (option Kthread)) (t : Z) : Prop := forall i k, ths !! i = Some (Some k) -> k_tid k = t -> k_idle k = false.
(** An idle thread of this id is the one of processor [c]. *)
Definition mine (c : nat) (ths : list (option Kthread)) (t : Z) : Prop := forall i k, ths !! i = Some (Some k) -> k_tid k = t -> k_idle k = true -> k_cpu k = c.

Record enterable (k : Kthread) : Prop := {
  e_stack : k_ks_top k ≠ 0; e_rsp : k_rsp k ≠ 0; e_prio : 0 <= k_prio k; e_base : 0 <= k_base k;
  e_idle : k_idle k = true -> k_state k ≠ Terminated; e_idle_pid : k_idle k = true -> k_pid k = 0;
}.

Record inv (ths : list (option Kthread)) (cpus : list (option Kprcb)) : Prop := {
  m_len : (length cpus <= MAX_CPUS)%nat;
  m_uniq : uniq ths;
  m_ok : forall i k, ths !! i = Some (Some k) -> enterable k;
  m_one : forall c c' t, cur_of cpus c = Some t -> cur_of cpus c' = Some t -> c = c';
  m_mine : forall c t, cur_of cpus c = Some t -> mine c ths t;
  m_cur : forall c p t, cpus !! c = Some (Some p) -> pr_current p = Some t -> exists i k, ths !! i = Some (Some k) /\ k_tid k = t /\ k_pid k = pr_pid p;
  m_has : forall c, is_Some (cur_of cpus c) -> exists i k, ths !! i = Some (Some k) /\ k_idle k = true /\ k_cpu k = c;
  m_queue : forall c p, cpus !! c = Some (Some p) -> holds (not_idle ths) (pr_rq p);
}.
Definition smp (s : Sched) : Prop := inv (s_threads s) (s_cpus s).

(** What no step changes of a thread. *)
Definition keeps (k k' : Kthread) : Prop := k_tid k' = k_tid k /\ k_pid k' = k_pid k /\ k_idle k' = k_idle k /\ (k_idle k = true -> k_cpu k' = k_cpu k).
(** The threads of [ths'] are threads of [ths]. *)
Definition tab_le (ths ths' : list (option Kthread)) : Prop := forall i k', ths' !! i = Some (Some k') -> exists k, ths !! i = Some (Some k) /\ keeps k k'.

(** A step that switches no processor. *)
Record quiet (s s' : Sched) : Prop := { qt_smp : smp s'; qt_cur : forall c, cur s' c = cur s c; qt_tab : tab_le (s_threads s) (s_threads s') }.

#[local] Instance keeps_refl : Reflexive keeps.
Proof. by intros k. Qed.
#[local] Instance keeps_trans : Transitive keeps.
Proof. intros a b c (A1 & A2 & A3 & A4) (B1 & B2 & B3 & B4). unfold keeps. split_and!; try congruence. intros H. rewrite B4 by congruence. auto. Qed.
#[local] Instance tab_le_refl : Reflexive tab_le.
Proof. intros ths i k Hk. by exists k. Qed.
#[local] Instance tab_le_trans : Transitive tab_le.
Proof. intros a b c Hab Hbc i k Hk. destruct (Hbc i k Hk) as (k1 & H1 & K1). destruct (Hab i k1 H1) as (k2 & H2 & K2). exists k2. split; [done|by trans k1]. Qed.

Lemma quiet_refl s : smp s -> quiet s s.
Proof. done. Qed.
(** The other fields do not matter. *)
Lemma quiet_same s s' : smp s -> s_threads s' = s_threads s -> s_cpus s' = s_cpus s -> quiet s s'.
Proof. intros Hs E1 E2. unfold smp in *. split; [unfold smp; by rewrite E1, E2|intros c; unfold cur; by rewrite E2|by rewrite E1]. Qed.
Lemma quiet_trans s s1 s2 : quiet s s1 -> quiet s1 s2 -> quiet s s2.
Proof. intros [A1 A2 A3] [B1 B2 B3]. split; [done|intros c; by rewrite B2|by trans (s_threads s1)]. Qed.

Lemma not_idle_le ths ths' t : tab_le ths ths' -> not_idle ths t -> not_idle ths' t.
Proof. intros Hle Hn i k Hk Ht. destruct (Hle i k Hk) as (k0 & H0 & E1 & _ & E3 & _). rewrite E3. apply (Hn i k0 H0). congruence. Qed.
Lemma mine_le c ths ths' t : tab_le ths ths' -> mine c ths t -> mine c ths' t.
Proof. intros Hle Hn i k Hk Ht Hid. destruct (Hle i k Hk) as (k0 & H0 & E1 & _ & E3 & E4). rewrite E4 by congruence. apply (Hn i k0 H0); congruence. Qed.
Lemma not_idle_mine c ths t : not_idle ths t -> mine c ths t.
Proof. intros Hn i k Hk Ht Hid. rewrite (Hn i k Hk Ht) in Hid. done. Qed.
Lemma not_idle_at ths i k : uniq ths -> ths !! i = Some (Some k) -> k_idle k = false -> not_idle ths (k_tid k).
Proof. intros Hu Hi Hid j k' Hj E. pose proof (Hu j i k' k Hj Hi E) as ->. congruence. Qed.
Lemma uniq_le ths ths' : tab_le ths ths' -> uniq ths -> uniq ths'.
Proof. intros Hle Hu i j k k' Hi Hj E. destruct (Hle i k Hi) as (a & Ha & Ea & _), (Hle j k' Hj) as (b & Hb & Eb & _). apply (Hu i j a b Ha Hb). congruence. Qed.

(** Changing threads in their slots. *)
Lemma table_inv ths ths' cpus : inv ths cpus -> tab_le ths ths' -> (forall i k, ths' !! i = Some (Some k) -> enterable k) ->
  (forall i k, ths !! i = Some (Some k) -> k_idle k = true \/ (exists c, cur_of cpus c = Some (k_tid k)) -> exists k', ths' !! i = Some (Some k') /\ keeps k k') -> inv ths' cpus.
Proof.
  intros [H1 H2 H3 H4 H5 H6 H7 H8] Hle Hok Hback. constructor; try done.
  - by eapply uniq_le.
  - intros c t Hc. eapply mine_le; [done|]. by apply H5.
  - intros c p t Hp Ht. destruct (H6 c p t Hp Ht) as (i & k & Hk & E1 & E2). destruct (Hback i k Hk) as (k' & Hk' & K1 & K2 & _); [right; exists c; unfold cur_of; rewrite Hp; cbn; congruence|].
    exists i, k'. split_and!; congruence.
  - intros c Hc. destruct (H7 c Hc) as (i & k & Hk & E1 & E2). destruct (Hback i k Hk (or_introl E1)) as (k' & Hk' & K1 & K2 & K3 & K4). exists i, k'. split_and!; [done|congruence|]. by rewrite K4.
  - intros c p Hp. eapply holds_mono; [|by apply (H8 c p)]. intros t. by apply not_idle_le.
Qed.

(** Changing a processor block. *)
Lemma block_inv ths cpus c f : inv ths cpus -> (forall p, cpus !! c = Some (Some p) -> holds (not_idle ths) (pr_rq (f p)) /\ pr_current (f p) = pr_current p /\ pr_pid (f p) = pr_pid p) ->
  inv ths (alter (fmap f) c cpus) /\ forall c', cur_of (alter (fmap f) c cpus) c' = cur_of cpus c'.
Proof.
  intros Hi Hf. assert (forall c' p', alter (fmap f) c cpus !! c' = Some (Some p') -> exists p, cpus !! c' = Some (Some p) /\ holds (not_idle ths) (pr_rq p') /\ pr_current p' = pr_current p /\ pr_pid p' = pr_pid p) as Hb.
  { intros c' p' Hp'. destruct (decide (c' = c)) as [->|Hc]; [|rewrite list_lookup_alter_ne in Hp' by done; exists p'; split_and!; try done; by apply (m_queue _ _ Hi c')].
    rewrite list_lookup_alter_eq in Hp'. destruct (cpus !! c) as [[p|]|] eqn:E; try done. injection Hp' as <-. exists p. split; [done|]. by apply Hf. }
  assert (forall c', cur_of (alter (fmap f) c cpus) c' = cur_of cpus c') as Hc.
  { intros c'. unfold cur_of. destruct (decide (c' = c)) as [->|Hc]; [|by rewrite list_lookup_alter_ne]. rewrite list_lookup_alter_eq. destruct (cpus !! c) as [[p|]|] eqn:E; try done. cbn. by apply Hf. }
  split; [|done]. destruct Hi as [H1 H2 H3 H4 H5 H6 H7 H8]. constructor; try done.
  - by rewrite length_alter.
  - intros a b t. rewrite !Hc. by apply H4.
  - intros a t. rewrite Hc. by apply H5.
  - intros a p' t Hp' Ht. destruct (Hb a p' Hp') as (p & Hp & _ & E1 & E2). rewrite E2. apply (H6 a p t Hp). congruence.
  - intros a. rewrite Hc. by apply H7.
  - intros a p' Hp'. by destruct (Hb a p' Hp') as (p & _ & Hh & _).
Qed.

(** ** Steps that switch no processor *)

Lemma at_slot_quiet s i k f : smp s -> s_threads s !! i = Some (Some k) -> keeps k (f k) -> enterable (f k) -> quiet s (at_slot i f s).
Proof.
  intros Hs Hi Hk Hok. assert (forall j, alter (fmap f) i (s_threads s) !! j = if decide (j = i) then Some (Some (f k)) else s_threads s !! j) as Hl.
  { intros j. case_decide as E; [subst; by rewrite list_lookup_alter_eq, Hi|by rewrite list_lookup_alter_ne]. }
  assert (tab_le (s_threads s) (alter (fmap f) i (s_threads s))) as Hle.
  { intros j k'. rewrite Hl. case_decide as E; [|intros Hj; by exists k']. subst j. intros [= <-]. by exists k. }
  split; [|done|done]. apply (table_inv (s_threads s)); try done.
  - intros j k'. change (s_threads (at_slot i f s)) with (alter (fmap f) i (s_threads s)). rewrite Hl. case_decide; [by intros [= <-]|]. by apply (m_ok _ _ Hs).
  - intros j k' Hj _. change (s_threads (at_slot i f s)) with (alter (fmap f) i (s_threads s)). rewrite Hl. case_decide as E; [|by exists k']. subst j. exists (f k). split; [done|]. congruence.
Qed.

Lemma on_cpu_quiet s c f : smp s -> (forall p, s_cpus s !! c = Some (Some p) -> holds (not_idle (s_threads s)) (pr_rq (f p)) /\ pr_current (f p) = pr_current p /\ pr_pid (f p) = pr_pid p) -> quiet s (on_cpu c f s).
Proof. intros Hs Hf. destruct (block_inv _ _ _ _ Hs Hf) as [H1 H2]. by split. Qed.

Lemma prcb_lookup s c p : prcb s c = Some p <-> s_cpus s !! c = Some (Some p).
Proof. unfold prcb. destruct (s_cpus s !! c) as [[q|]|]; cbn; split; intros; congruence. Qed.

Lemma set_rq_quiet s c rq : smp s -> holds (not_idle (s_threads s)) rq -> quiet s (on_cpu c (set_rq rq) s).
Proof. intros Hs Hh. by apply on_cpu_quiet. Qed.

Lemma enqueue_quiet k s : smp s -> (k_idle k = false -> not_idle (s_threads s) (k_tid k)) -> 0 <= k_prio k -> quiet s (enqueue_to_cpu_run_queue k s).
Proof.
  intros Hs Hn Hp. unfold enqueue_to_cpu_run_queue. destruct (_ || _) eqn:E; [done|]. apply orb_false_iff in E as [_ Hid]. destruct (MAX_CPUS <=? k_cpu k)%nat; [done|].
  destruct (prcb s (k_cpu k)) as [p|] eqn:Ep; [|done]. apply prcb_lookup in Ep. destruct (rq_contains _ _); [done|].
  pose proof (holds_push (not_idle (s_threads s)) (k_tid k) (k_prio k) (pr_rq p) (m_queue _ _ Hs _ _ Ep) (Hn Hid) Hp) as Hh. destruct (rq_push_priority _ _ _) as [[] rq]; [by apply set_rq_quiet|done].
Qed.

Lemma remove_quiet k s : smp s -> quiet s (remove_from_run_queue k s).
Proof. intros Hs. unfold remove_from_run_queue. destruct (_ <=? _)%nat; [done|]. apply on_cpu_quiet; [done|]. intros p Hp. split; [|done]. by apply holds_remove, (m_queue _ _ Hs _ _ Hp). Qed.

Lemma at_slot_lookup i f s k : s_threads s !! i = Some (Some k) -> s_threads (at_slot i f s) !! i = Some (Some (f k)).
Proof. intros Hi. change (s_threads (at_slot i f s)) with (alter (fmap f) i (s_threads s)). by rewrite list_lookup_alter_eq, Hi. Qed.

(** A thread of the table is put into its slot again and queued. *)
Lemma requeue_quiet s i k k' : smp s -> s_threads s !! i = Some (Some k) -> keeps k k' -> enterable k' -> quiet s (enqueue_to_cpu_run_queue k' (at_slot i (λ _, k') s)).
Proof.
  intros Hs Hi Hk Hok. pose proof (at_slot_quiet s i k (λ _, k') Hs Hi Hk Hok) as H1. eapply quiet_trans; [exact H1|]. apply enqueue_quiet; [apply H1| |apply Hok].
  intros Hid. apply (not_idle_at _ i); [apply (m_uniq _ _ (qt_smp _ _ H1))|by apply (at_slot_lookup i (λ _, k') s k)|done].
Qed.

Lemma ready_ok k : enterable k -> enterable (with_starved 0 (fresh_slice (with_yield false (with_state Ready k)))).
Proof. intros []. by constructor. Qed.

Lemma make_ready_quiet i k s : smp s -> s_threads s !! i = Some (Some k) -> quiet s (make_thread_ready i k s).
Proof. intros Hs Hi. unfold make_thread_ready. destruct (is_ready _); [done|]. eapply requeue_quiet; try done. apply ready_ok, (m_ok _ _ Hs i k Hi). Qed.

Lemma for_threads_quiet f s : (forall i k s, smp s -> s_threads s !! i = Some (Some k) -> quiet s (f i k s)) -> smp s -> quiet s (for_threads f s).
Proof.
  intros Hf. unfold for_threads. generalize (seq 0 (length (s_threads s))) as l. intros l. revert s. induction l as [|i l IH]; intros s Hs; [done|]. cbn [foldl].
  assert (quiet s (match mjoin (s_threads s !! i) with Some k => f i k s | None => s end)) as H1.
  { destruct (s_threads s !! i) as [[k|]|] eqn:E; try done. by apply Hf. }
  eapply quiet_trans; [exact H1|]. apply IH, H1.
Qed.

Lemma age_quiet s : smp s -> quiet s (apply_aging s).
Proof.
  apply for_threads_quiet. clear. intros i k s Hs Hi. unfold age_thread. destruct (_ && _); [|done]. cbv zeta. pose proof (m_ok _ _ Hs i k Hi) as Hok. set (k1 := with_starved _ k).
  assert (enterable k1) as Hok1 by (destruct Hok; by constructor). destruct (_ && _) eqn:E; [|by eapply at_slot_quiet]. apply andb_true_iff in E as [_ E]. apply Z.ltb_lt in E. unfold PRIORITY_HIGH in E.
  pose proof (remove_quiet k1 s Hs) as H1. eapply quiet_trans; [exact H1|]. apply (requeue_quiet _ i k); [apply H1| |done|].
  - unfold remove_from_run_queue. by destruct (_ <=? _)%nat.
  - destruct Hok1. constructor; try done. change (0 <= k_prio k1 - 1). lia.
Qed.

Lemma wake_quiet sel s : smp s -> quiet s (wake_if sel s).
Proof.
  apply for_threads_quiet. clear. intros i k s Hs Hi. destruct (_ && _); [|done]. cbv zeta. assert (quiet s (at_slot i (λ _, with_waiting None k) s)) as H1.
  { apply (at_slot_quiet s i k); try done. destruct (m_ok _ _ Hs i k Hi). by constructor. }
  eapply quiet_trans; [exact H1|]. apply make_ready_quiet; [apply H1|by apply (at_slot_lookup i (λ _, with_waiting None k) s k)].
Qed.

Lemma priority_quiet pid prio s : 0 <= prio -> smp s -> quiet s (set_process_priority pid prio s).2.
Proof.
  intros Hp Hs. unfold set_process_priority. destruct (_ <=? _); [done|]. cbn [snd]. apply for_threads_quiet; [|done]. clear Hs s. intros i k s Hs Hi. destruct (k_pid k =? pid); [|done]. cbv zeta.
  set (k' := with_starved 0 _). assert (enterable k') as Hok by (destruct (m_ok _ _ Hs i k Hi); by constructor). pose proof (at_slot_quiet s i k (λ _, k') Hs Hi ltac:(done) Hok) as H1. destruct (_ && _); [|done].
  eapply quiet_trans; [exact H1|]. pose proof (remove_quiet k' _ (qt_smp _ _ H1)) as H2. eapply quiet_trans; [exact H2|]. apply enqueue_quiet; [apply H2| |apply Hok].
  intros Hid. eapply not_idle_le; [apply H2|]. apply (not_idle_at _ i); [apply (m_uniq _ _ (qt_smp _ _ H1))|by apply (at_slot_lookup i (λ _, k') s k)|done].
Qed.

(** ** Finding threads *)

Lemma slot_linear_some s t i : slot_linear s t = Some i -> exists k, s_threads s !! i = Some (Some k) /\ k_tid k = t.
Proof.
  unfold slot_linear. destruct (list_find _ _) as [[j o]|] eqn:E; [|done]. intros [= ->]. apply list_find_Some in E as (Hi & Ho & _). destruct o as [k|]; [|done]. injection Ho as Ho. by exists k.
Qed.
Lemma find_slot_some s t i : find_slot s t = Some i -> exists k, s_threads s !! i = Some (Some k) /\ k_tid k = t.
Proof.
  unfold find_slot. destruct (s_index s !! t) as [j|]; [|apply slot_linear_some]. case_decide as Hj; [|apply slot_linear_some]. intros [= ->].
  destruct (s_threads s !! i) as [[k|]|] eqn:E; try done. injection Hj as Hj. by exists k.
Qed.
Lemma slot_linear_has s i k : s_threads s !! i = Some (Some k) -> is_Some (slot_linear s (k_tid k)).
Proof.
  intros Hi. unfold slot_linear. destruct (list_find _ _) as [[j o]|] eqn:E; [done|]. apply list_find_None in E. rewrite Forall_forall in E. destruct (E (Some k)); [by eapply list_elem_of_lookup_2|done].
Qed.
Lemma find_kthread_has s i k : uniq (s_threads s) -> s_threads s !! i = Some (Some k) -> find_slot s (k_tid k) = Some i /\ find_kthread s (k_tid k) = Some k.
Proof.
  intros Hu Hi. assert (is_Some (find_slot s (k_tid k))) as [j Hj].
  { unfold find_slot. pose proof (slot_linear_has s i k Hi). destruct (s_index s !! k_tid k); [|done]. by case_decide. }
  destruct (find_slot_some _ _ _ Hj) as (k' & Hk' & E). pose proof (Hu j i k' k Hk' Hi E) as ->. split; [done|]. unfold find_kthread. rewrite Hj. cbn [mbind option_bind]. by rewrite Hi.
Qed.
Lemma find_kthread_some s t k : find_kthread s t = Some k -> exists i, find_slot s t = Some i /\ s_threads s !! i = Some (Some k) /\ k_tid k = t.
Proof.
  unfold find_kthread. destruct (find_slot s t) as [i|] eqn:E; [|done]. cbn [mbind option_bind]. destruct (find_slot_some _ _ _ E) as (k' & Hk' & Et). rewrite Hk'. intros [= ->]. by exists i.
Qed.

Lemma update_quiet t f s : smp s -> (forall i k, s_threads s !! i = Some (Some k) -> k_tid k = t -> keeps k (f k) /\ enterable (f k)) -> quiet s (update t f s).
Proof. intros Hs Hf. unfold update. destruct (find_slot s t) as [i|] eqn:E; [|done]. destruct (find_slot_some _ _ _ E) as (k & Hk & Ht). destruct (Hf i k Hk Ht). by eapply at_slot_quiet. Qed.

(** ** Release *)

Lemma cur_lookup s c t : cur s c = Some t <-> exists p, s_cpus s !! c = Some (Some p) /\ pr_current p = Some t.
Proof. unfold cur, cur_of. destruct (s_cpus s !! c) as [[p|]|]; cbn; [|naive_solver|naive_solver]. split; [intros; by exists p|]. by intros (? & [= <-] & ?). Qed.

Lemma clear_quiet j s : smp s -> (forall k, s_threads s !! j = Some (Some k) -> k_idle k = false /\ forall c, cur s c ≠ Some (k_tid k)) -> quiet s (clear_kthread_slot j s).
Proof.
  intros Hs Hj. unfold clear_kthread_slot. destruct (s_threads s !! j) as [[k|]|] eqn:E; cbn [mjoin option_join]; try done. destruct (Hj k eq_refl) as [Hid Hc].
  set (s' := set_index _ _). change (s_threads s') with (<[j := None]> (s_threads s)). assert (tab_le (s_threads s) (<[j := None]> (s_threads s))) as Hle.
  { intros i k' Hk'. destruct (decide (i = j)) as [->|Hi]; [|rewrite list_lookup_insert_ne in Hk' by done; by exists k']. rewrite list_lookup_insert_eq in Hk' by by eapply lookup_lt_Some. done. }
  split; [|done|done]. apply (table_inv (s_threads s)); try done.
  - intros i k' Hk'. change (s_threads s') with (<[j := None]> (s_threads s)) in Hk'. destruct (decide (i = j)) as [->|Hi]; [|rewrite list_lookup_insert_ne in Hk' by done; by eapply (m_ok _ _ Hs)].
    rewrite list_lookup_insert_eq in Hk' by by eapply lookup_lt_Some. done.
  - intros i k' Hk' Hcase. exists k'. split; [|done]. change (s_threads s') with (<[j := None]> (s_threads s)). rewrite list_lookup_insert_ne; [done|]. intros ->. rewrite E in Hk'. injection Hk' as ->.
    destruct Hcase as [?|[c ?]]; [congruence|]. by destruct (Hc c).
Qed.

Lemma tids_for_pid s pid t : t ∈ thread_tids_for_pid s pid -> exists i k, s_threads s !! i = Some (Some k) /\ k_tid k = t /\ k_pid k = pid.
Proof.
  unfold thread_tids_for_pid, thread_list. intros (k & -> & Hk)%list_elem_of_fmap. apply list_elem_of_filter in Hk as [Hp (o & Ho & E)%list_elem_of_omap].
  apply list_elem_of_lookup in Ho as [i Hi]. exists i, k. split_and!; try done. by destruct o; [cbn in E; congruence|].
Qed.

(** Threads of a process that no processor executes are not current. *)
Lemma pid_not_current s pid i k : smp s -> pid ≠ 0 -> is_pid_running_on_any_cpu s pid = false -> s_threads s !! i = Some (Some k) -> k_pid k = pid ->
  k_idle k = false /\ forall c, cur s c ≠ Some (k_tid k).
Proof.
  intros Hs H0 Hrun Hi Hp. split; [destruct (k_idle k) eqn:E; [|done]; pose proof (e_idle_pid _ (m_ok _ _ Hs i k Hi) E); congruence|].
  intros c (p & Hc & Ht)%cur_lookup. destruct (m_cur _ _ Hs c p _ Hc Ht) as (j & k' & Hj & E1 & E2). pose proof (m_uniq _ _ Hs j i k' k Hj Hi E1) as ->. rewrite Hi in Hj. injection Hj as <-.
  unfold is_pid_running_on_any_cpu in Hrun. rewrite (proj2 (Z.eqb_neq _ _) H0) in Hrun. rewrite take_ge in Hrun by apply (m_len _ _ Hs).
  rewrite <- not_true_iff_false, existsb_exists in Hrun. destruct Hrun. exists (Some p). split; [by eapply list_elem_of_In, list_elem_of_lookup_2|]. apply Z.eqb_eq. congruence.
Qed.

Lemma recycle_quiet pid s : smp s -> is_pid_running_on_any_cpu s pid = false -> quiet s (recycle_terminated pid s).2.
Proof.
  intros Hs Hrun. unfold recycle_terminated. destruct (pid =? 0) eqn:E0; [done|]. apply Z.eqb_neq in E0. destruct (list_find _ _) as [[i o]|]; [|done]. cbn [snd].
  assert (forall l s', quiet s s' -> (forall t, t ∈ l -> t ∈ thread_tids_for_pid s pid) -> quiet s (foldl (λ s t, match slot_linear s t with Some j => clear_kthread_slot j s | None => s end) s' l)) as Hl.
  { induction l as [|t l IH]; intros s' Hq Hin; [done|]. cbn [foldl]. apply IH; [|intros x Hx; apply Hin; by right]. destruct (slot_linear s' t) as [j|] eqn:Ej; [|done]. eapply quiet_trans; [exact Hq|].
    destruct (slot_linear_some _ _ _ Ej) as (k & Hk & Ht). apply clear_quiet; [apply Hq|]. intros k' Hk'. rewrite Hk in Hk'. injection Hk' as <-.
    destruct (tids_for_pid s pid t) as (a & ka & Ha & Ea & Pa); [apply Hin; by left|]. destruct (pid_not_current s pid a ka Hs E0 Hrun Ha Pa) as [Hid Hc].
    destruct (qt_tab _ _ Hq j k Hk) as (kb & Hb & B1 & _ & B3 & _). pose proof (m_uniq _ _ Hs j a kb ka Hb Ha ltac:(congruence)) as ->. rewrite Ha in Hb. injection Hb as <-.
    split; [congruence|]. intros c. rewrite (qt_cur _ _ Hq), B1. apply Hc. }
  pose proof (Hl (thread_tids_for_pid s pid) s (quiet_refl s Hs) ltac:(done)) as H1. eapply quiet_trans; [exact H1|]. unfold clear_eprocess_slot. destruct (mjoin _); (apply quiet_same; [apply H1|done|done]).
Qed.

Lemma reap_quiet exclude s : smp s -> quiet s (reap_pending_zombies exclude s).
Proof.
  unfold reap_pending_zombies. generalize (length (s_zombies s)) as n. intros n. revert s. induction n as [|n IH]; intros s Hs; [done|]. cbn [reap_loop].
  destruct (find_reclaimable _ _ _ ≫= _) as [[pid l]|]; [|done]. cbv zeta. destruct (is_pid_running_on_any_cpu _ pid) eqn:Er.
  - apply (quiet_trans s (set_zombies (zombie_requeue pid l) (set_zombies l s))); [done|]. by apply IH.
  - pose proof (recycle_quiet pid (set_zombies l s) Hs Er) as H1. destruct (recycle_terminated pid (set_zombies l s)) as [d s1]. cbn [snd] in H1. assert (quiet s s1) as H2 by (destruct H1; by split). destruct (negb d && _).
    + apply (quiet_trans s s1); [exact H2|]. apply (quiet_trans s1 (set_zombies (zombie_requeue pid l) s1)); [apply quiet_same; [apply H1|done|done]|]. apply IH, H1.
    + apply (quiet_trans s s1); [exact H2|]. apply IH, H1.
Qed.

(** ** Stealing *)

Lemma holds_peek P t rq : holds P rq -> rq_peek_highest rq = Some t -> P t.
Proof.
  intros (ls & Hr & H) Hp. rewrite (rq_peek_rep rq ls Hr) in Hp. destruct (ls_pop ls) as [[x ls']|] eqn:E; [|done]. injection Hp as ->. apply H. by destruct (ls_pop_sub _ _ _ E).
Qed.

Lemma steal_loop_quiet n victim thief stolen s : smp s -> quiet s (steal_loop n victim thief stolen s).2.
Proof.
  revert stolen s. induction n as [|n IH]; intros stolen s Hs; [done|]. cbn [steal_loop]. destruct (prcb s victim) as [pv|] eqn:Ev; [|done]. destruct (prcb s thief) as [pt|] eqn:Et; [|done].
  apply prcb_lookup in Ev, Et. pose proof (m_queue _ _ Hs _ _ Ev) as Hv. pose proof (m_queue _ _ Hs _ _ Et) as Ht. destruct (_ <=? _)%nat; [done|]. destruct (rq_peek_highest _) as [t|] eqn:Epk; [|done].
  destruct (rq_pop _) as [[x rqv]|] eqn:Epop; [|done]. pose proof (holds_peek _ _ _ Hv Epk) as Hn. destruct (holds_pop _ _ _ _ Hv Epop) as [_ Hv']. pose proof (set_rq_quiet s victim rqv Hs Hv') as H1. cbv zeta.
  assert (forall st, quiet s (steal_loop n victim thief st (on_cpu victim (set_rq rqv) s)).2) as Hgo by (intros st; eapply quiet_trans; [exact H1|apply IH, H1]).
  destruct (find_kthread s t) as [k|] eqn:Ek; [|apply Hgo]. destruct (find_kthread_some _ _ _ Ek) as (i & _ & Hi & Hk). pose proof (e_prio _ (m_ok _ _ Hs i k Hi)) as Hp.
  destruct (_ && _); [|apply Hgo]. destruct (candidate_owned_elsewhere _ _ _); [done|]. pose proof (holds_push _ t (k_prio k) (pr_rq pt) Ht Hn Hp) as Hpush. destruct (rq_push_priority t (k_prio k) (pr_rq pt)) as [[] rqt]; cbn [snd] in Hpush.
  - assert (quiet s (update t (with_cpu thief) (on_cpu victim (set_rq rqv) s))) as H2.
    { eapply quiet_trans; [exact H1|]. apply update_quiet; [apply H1|]. intros j kj Hj Hjt. pose proof (Hn j kj Hj Hjt) as Hid. split; [split_and!; try done; congruence|].
      destruct (m_ok _ _ Hs j kj Hj). by constructor. }
    eapply quiet_trans; [exact H2|]. eapply quiet_trans; [|apply IH]; apply set_rq_quiet; try apply H2; (eapply holds_mono; [|exact Hpush]; intros y; apply not_idle_le, H2).
  - eapply quiet_trans; [exact H1|]. apply set_rq_quiet; [apply H1|]. by apply holds_push.
Qed.

Lemma steal_quiet victim thief s : smp s -> quiet s (steal_and_migrate victim thief s).2.
Proof. intros Hs. unfold steal_and_migrate. destruct (_ || _); [done|]. destruct (prcb s victim); [by apply steal_loop_quiet|done]. Qed.

Section processor.
Context (cs_at : Z -> Z) (this : nat).

Lemma dequeue_quiet s t s' : smp s -> try_dequeue_local this s = Some (t, s') -> quiet s s' /\ not_idle (s_threads s') t.
Proof.
  intros Hs. unfold try_dequeue_local. destruct (prcb s this) as [p|] eqn:Ep; [|done]. cbn [mbind option_bind]. apply prcb_lookup in Ep. destruct (rq_pop (pr_rq p)) as [[x rq]|] eqn:E; [|done].
  cbn [mbind option_bind]. intros [= -> <-]. destruct (holds_pop _ _ _ _ (m_queue _ _ Hs _ _ Ep) E) as [Hn Hh]. split; [by apply set_rq_quiet|done].
Qed.

Lemma try_steal_quiet s : smp s -> quiet s (try_work_steal this s).2 /\ forall t, (try_work_steal this s).1 = Some t -> not_idle (s_threads (try_work_steal this s).2) t.
Proof.
  unfold try_work_steal. generalize (seq 0 MAX_CPUS) as l. intros l. revert s. induction l as [|v l IH]; intros s Hs; [done|]. cbn [steal_from]. destruct (v =? this)%nat; [by apply IH|].
  pose proof (steal_quiet v this s Hs) as H1. destruct (steal_and_migrate v this s) as [n s1]. cbn [snd] in H1. destruct (0 <? n)%nat.
  - destruct (try_dequeue_local this s1) as [[t s2]|] eqn:E; [|by split]. destruct (dequeue_quiet s1 t s2 (qt_smp _ _ H1) E) as [H2 Hn]. cbn [fst snd]. split; [by eapply quiet_trans|]. by intros x [= <-].
  - destruct (IH s1 (qt_smp _ _ H1)) as [H2 Hn]. split; [by eapply quiet_trans|done].
Qed.

(** ** Dispatch *)

(** The processor has switched to [t]; the others go on. *)
Record dispatched (s : Sched) (t : Z) (s' : Sched) : Prop := {
  d_smp : smp s'; d_cur : cur s' this = Some t; d_other : forall c, c ≠ this -> cur s' c = cur s c; d_tab : tab_le (s_threads s) (s_threads s');
}.

Lemma quiet_dispatched s s1 t s2 : quiet s s1 -> dispatched s1 t s2 -> dispatched s t s2.
Proof. intros [A1 A2 A3] [B1 B2 B3 B4]. split; try done; [|by trans (s_threads s1)]. intros c Hc. rewrite B3 by done. apply A2. Qed.
Lemma dispatched_quiet s t s1 s2 : dispatched s t s1 -> quiet s1 s2 -> dispatched s t s2.
Proof. intros [A1 A2 A3 A4] [B1 B2 B3]. split; try done; [by rewrite B2| |by trans (s_threads s1)]. intros c Hc. rewrite B2. by apply A3. Qed.
Lemma dispatched_again s t s1 t' s2 : dispatched s t s1 -> dispatched s1 t' s2 -> dispatched s t' s2.
Proof. intros [A1 A2 A3 A4] [B1 B2 B3 B4]. split; try done; [|by trans (s_threads s1)]. intros c Hc. rewrite B3 by done. by apply A3. Qed.

(** Making a thread that no other processor executes the current one. *)
Lemma switch_block s i k f : smp s -> is_Some (cur s this) -> s_threads s !! i = Some (Some k) -> mine this (s_threads s) (k_tid k) -> (forall c, c ≠ this -> cur s c ≠ Some (k_tid k)) ->
  (forall p, pr_current (f p) = Some (k_tid k) /\ pr_pid (f p) = k_pid k /\ pr_rq (f p) = pr_rq p) -> dispatched s (k_tid k) (on_cpu this f s).
Proof.
  intros Hs [t Ht] Hi Hmine Hfree Hf. pose proof Ht as (p & Hp & _)%cur_lookup. set (cpus' := alter (fmap f) this (s_cpus s)).
  assert (cur_of cpus' this = Some (k_tid k)) as Hthis by (unfold cur_of, cpus'; rewrite list_lookup_alter_eq, Hp; cbn; apply Hf).
  assert (forall c, c ≠ this -> cpus' !! c = s_cpus s !! c) as Hother by (intros c Hc; by apply list_lookup_alter_ne).
  assert (forall c, c ≠ this -> cur_of cpus' c = cur s c) as Hcur by (intros c Hc; unfold cur, cur_of; by rewrite Hother).
  destruct Hs as [H1 H2 H3 H4 H5 H6 H7 H8]. split; [|done|done|done]. change (inv (s_threads s) cpus'). constructor; try done.
  - unfold cpus'. by rewrite length_alter.
  - intros c c' x Hc Hc'. destruct (decide (c = this)) as [->|Hn], (decide (c' = this)) as [->|Hn']; [done| | |].
    + rewrite Hcur in Hc' by done. destruct (Hfree c' Hn'). congruence.
    + rewrite Hcur in Hc by done. destruct (Hfree c Hn). congruence.
    + rewrite Hcur in Hc, Hc' by done. by apply (H4 c c' x).
  - intros c x Hc. destruct (decide (c = this)) as [->|Hn]; [rewrite Hthis in Hc; by injection Hc as <-|]. rewrite Hcur in Hc by done. by apply H5.
  - intros c q x Hq Hx. destruct (decide (c = this)) as [->|Hn]; [|rewrite Hother in Hq by done; by eapply H6]. unfold cpus' in Hq. rewrite list_lookup_alter_eq, Hp in Hq. injection Hq as <-.
    destruct (Hf p) as (F1 & F2 & _). exists i, k. split_and!; congruence.
  - intros c Hc. destruct (decide (c = this)) as [->|Hn]; [apply H7; by exists t|]. rewrite Hcur in Hc by done. by apply H7.
  - intros c q Hq. destruct (decide (c = this)) as [->|Hn]; [|rewrite Hother in Hq by done; by apply (H8 c)]. unfold cpus' in Hq. rewrite list_lookup_alter_eq, Hp in Hq. injection Hq as <-.
    destruct (Hf p) as (_ & _ & ->). by apply (H8 this).
Qed.

Lemma kprcb_this s t : smp s -> cur s this = Some t -> kprcb_thread this s = Some t.
Proof.
  intros Hs (p & Hp & Ht)%cur_lookup. unfold kprcb_thread. rewrite (proj2 (prcb_lookup s this p) Hp). cbn [mbind option_bind]. rewrite Ht. cbn [mbind option_bind].
  destruct (m_cur _ _ Hs this p t Hp Ht) as (i & k & Hi & <- & _). by destruct (slot_linear_has s i k Hi) as [j ->].
Qed.

Lemma sync_ok s i k : smp s -> is_Some (cur s this) -> s_threads s !! i = Some (Some k) -> mine this (s_threads s) (k_tid k) -> (forall c, c ≠ this -> cur s c ≠ Some (k_tid k)) ->
  dispatched s (k_tid k) (sync_if_global this k (set_current (k_tid k) s)).
Proof.
  intros Hs [t Ht] Hi Hm Hf. unfold sync_if_global. rewrite (kprcb_this (set_current (k_tid k) s) t Hs Ht). unfold sync_per_cpu_current.
  destruct (switch_block (set_current (k_tid k) s) i k (λ p, mkPrcb (Some (k_tid k)) (k_pid k) ((k_pid k =? 0) || k_idle k) (pr_need p) (pr_rq p) (pr_ticks p) (pr_switches p))) as [A1 A2 A3 A4]; done.
Qed.

Lemma sync_threads s k : s_threads (sync_if_global this k (set_current (k_tid k) s)) = s_threads s.
Proof. unfold sync_if_global. by destruct (kprcb_thread this _). Qed.

Lemma account_ok b k : enterable k -> keeps k (account_dispatch b (with_state Running k)) /\ enterable (account_dispatch b (with_state Running k)).
Proof. intros []. unfold account_dispatch. cbv zeta. destruct (_ <? _); destruct (_ || _); (split; [done|by constructor]). Qed.

Lemma commit_ok i k s : smp s -> is_Some (cur s this) -> s_threads s !! i = Some (Some k) -> mine this (s_threads s) (k_tid k) -> (forall c, c ≠ this -> cur s c ≠ Some (k_tid k)) ->
  dispatched s (k_tid k) (commit this i k s).
Proof.
  intros Hs Hc Hi Hm Hf. unfold commit. cbv zeta. pose proof (sync_ok s i k Hs Hc Hi Hm Hf) as H1. set (s1 := sync_if_global _ _ _) in *.
  destruct (account_ok (tick_base this s1) k (m_ok _ _ Hs i k Hi)) as [Hk Hok]. assert (quiet s1 (at_slot i (λ k, account_dispatch (tick_base this s1) (with_state Running k)) s1)) as H2.
  { apply (at_slot_quiet _ i k); [apply H1|by unfold s1; rewrite sync_threads|done|done]. }
  eapply dispatched_quiet; [by eapply dispatched_quiet|]. apply reap_quiet, H2.
Qed.

Lemma not_owned s t c : smp s -> candidate_owned_elsewhere s t this = false -> c ≠ this -> cur s c ≠ Some t.
Proof.
  intros Hs Ho Hc Ht. pose proof Ht as (p & Hp & Hpt)%cur_lookup. unfold candidate_owned_elsewhere, kthread_current_cpu in Ho. rewrite take_ge in Ho by apply (m_len _ _ Hs).
  destruct (list_find _ (s_cpus s)) as [[c' o]|] eqn:E.
  - apply list_find_Some in E as (Hc' & Ho' & _). assert (cur s c' = Some t) as Ht' by (unfold cur, cur_of; rewrite Hc'; by destruct o). pose proof (m_one _ _ Hs c c' t Ht Ht') as <-.
    cbn in Ho. by rewrite (proj2 (Nat.eqb_neq _ _) Hc) in Ho.
  - apply list_find_None in E. rewrite Forall_forall in E. apply (E (Some p)); [by eapply list_elem_of_lookup_2|done].
Qed.

(** A thread from a queue is committed, or nothing is switched. *)
Lemma candidate_step r t s : smp s -> is_Some (cur s this) -> not_idle (s_threads s) t ->
  match try_candidate cs_at this r t s with (Some t', s') => dispatched s t' s' | (None, s') => quiet s s' end.
Proof.
  intros Hs Hc Hn. unfold try_candidate. destruct (slot_linear s t) as [i|] eqn:E; [|done]. destruct (slot_linear_some _ _ _ E) as (k & Hi & <-). cbn [mbind option_bind]. rewrite Hi. cbn [mjoin option_join mbind option_bind].
  destruct (candidate_ok cs_at this r s k) eqn:Eok.
  - unfold candidate_ok in Eok. apply andb_true_iff in Eok as [[_ Ho]%andb_true_iff _]. apply negb_true_iff in Ho. apply commit_ok; try done; [by apply not_idle_mine|]. intros c Hne. by apply not_owned.
  - destruct (is_ready (k_state k)); [|done]. apply enqueue_quiet; [done|done|apply (m_ok _ _ Hs i k Hi)].
Qed.

Lemma first_some_some {A B} (f : A -> option B) l y : first_some f l = Some y -> exists x, f x = Some y.
Proof. induction l as [|x l IH]; [done|]. cbn. destruct (f x) eqn:E; [intros [= ->]; by exists x|done]. Qed.

Lemma scan_step r s : smp s -> is_Some (cur s this) -> match scan cs_at this r s with Some (t, s') => dispatched s t s' | None => True end.
Proof.
  intros Hs Hc. unfold scan. destruct (scan_pick cs_at this r s) as [i|] eqn:E; [|done]. cbn [mbind option_bind]. unfold scan_pick in E. apply first_some_some in E as [prio E]. apply first_some_some in E as [off E].
  destruct (list_find _ _) as [[j o]|] eqn:Ef; [|done]. injection E as ->. apply list_find_Some in Ef as (Hi & Hok & _). rewrite Hi. destruct o as [k|]; [|done]. cbn [mjoin option_join mbind option_bind].
  cbn [scan_ok] in Hok. destruct Hok as (<- & _ & _ & _ & Hid & _ & Ho). pose proof (remove_quiet k s Hs) as H1. set (s1 := remove_from_run_queue k s) in *.
  assert (s_threads s1 = s_threads s) as E1 by (unfold s1, remove_from_run_queue; by destruct (_ <=? _)%nat). set (k' := match kprcb_thread this s1 with Some _ => with_cpu this k | None => k end).
  assert (keeps k k' /\ k_tid k' = k_tid k) as [Hk Ht] by (unfold k'; destruct (kprcb_thread this s1); split; done || (split_and!; try done; congruence)).
  assert (enterable k') as Hok' by (destruct (m_ok _ _ Hs i k Hi); unfold k'; destruct (kprcb_thread this s1); by constructor).
  pose proof (at_slot_quiet s1 i k (λ _, k') (qt_smp _ _ H1) ltac:(by rewrite E1) Hk Hok') as H2. pose proof (quiet_trans _ _ _ H1 H2) as H3. set (s2 := at_slot i (λ _, k') s1) in *.
  eapply quiet_dispatched; [exact H3|]. rewrite <- Ht. apply commit_ok.
  - apply H2.
  - by rewrite (qt_cur _ _ H3).
  - apply (at_slot_lookup i (λ _, k') s1 k). by rewrite E1.
  - apply not_idle_mine. eapply not_idle_le; [apply H3|]. rewrite Ht. by apply (not_idle_at _ i); [apply (m_uniq _ _ Hs)|..].
  - intros c Hne. rewrite (qt_cur _ _ H3), Ht. by apply not_owned.
Qed.

Lemma idle_step s : smp s -> is_Some (cur s this) -> exists t s', dispatch_idle this s = Some (t, s') /\ dispatched s t s'.
Proof.
  intros Hs Hc. destruct (m_has _ _ Hs this Hc) as (j & kj & Hj & Hidj & Hcj). unfold dispatch_idle, find_idle_ptr.
  destruct (list_find (idle_of this) (s_threads s)) as [[i o]|] eqn:E; [|apply list_find_None in E; rewrite Forall_forall in E; destruct (E (Some kj)); [by eapply list_elem_of_lookup_2|done]].
  apply list_find_Some in E as (Hi & Ho & _). destruct o as [k|]; [|done]. destruct Ho as [Hid Hcpu]. cbn [fmap option_fmap option_map fst mbind option_bind]. rewrite Hi. cbn [mjoin option_join mbind option_bind].
  pose proof (m_ok _ _ Hs i k Hi) as Hok. rewrite bool_decide_false by (by apply (e_idle _ Hok)). eexists _, _. split; [done|]. pose proof (remove_quiet k s Hs) as H1. set (s1 := remove_from_run_queue k s) in *.
  assert (s_threads s1 = s_threads s) as E1 by (unfold s1, remove_from_run_queue; by destruct (_ <=? _)%nat). eapply quiet_dispatched; [exact H1|]. assert (dispatched s1 (k_tid k) (sync_if_global this k (set_current (k_tid k) s1))) as H2.
  { assert (mine this (s_threads s) (k_tid k)) as Hmine by (intros a ka Ha Ea _; pose proof (m_uniq _ _ Hs a i ka k Ha Hi Ea) as ->; congruence). apply (sync_ok s1 i k); [apply H1|by rewrite (qt_cur _ _ H1)|by rewrite E1|by rewrite E1|].
    intros c Hne. rewrite (qt_cur _ _ H1). intros Hct. destruct Hne. rewrite <- Hcpu. symmetry. by apply (m_mine _ _ Hs c (k_tid k) Hct i k). }
  set (s2 := sync_if_global _ _ _) in *. assert (quiet s2 (at_slot i (λ k, with_slice IDLE_TIME_SLICE (with_state Running k)) s2)) as H3.
  { apply (at_slot_quiet _ i k); [apply H2|unfold s2; by rewrite sync_threads, E1|done|destruct Hok; by constructor]. }
  eapply dispatched_quiet; [by eapply dispatched_quiet|]. apply reap_quiet, H3.
Qed.

(** The selection always finds a thread, and one that only this processor
    executes. *)
Lemma schedule_step r a s : smp s -> is_Some (cur s this) -> exists t s', schedule_with_handoff cs_at this r a s = Some (t, s') /\ dispatched s t s'.
Proof.
  intros Hs Hc. unfold schedule_with_handoff. set (s0 := count_call s). assert (quiet s s0) as H0 by (by apply quiet_same). assert (is_Some (cur s0 this)) as Hc0 by done. cbv zeta.
  destruct (r && a && _).
  { destruct (idle_step s0 Hs Hc0) as (t & s' & -> & H1). eexists _, _. split; [done|]. eapply quiet_dispatched; [exact H0|]. eapply dispatched_quiet; [exact H1|]. apply quiet_same; [apply H1|done|done]. }
  assert (match (match try_dequeue_local this s0 with Some (t, s) => try_candidate cs_at this r t s | None => (None, s0) end) with (Some t, s') => dispatched s t s' | (None, s') => quiet s s' end) as H1.
  { destruct (try_dequeue_local this s0) as [[t s1]|] eqn:E; [|done]. destruct (dequeue_quiet s0 t s1 Hs E) as [Hq Hn]. pose proof (candidate_step r t s1 (qt_smp _ _ Hq) ltac:(by rewrite (qt_cur _ _ Hq)) Hn) as H1.
    pose proof (quiet_trans _ _ _ H0 Hq). destruct (try_candidate cs_at this r t s1) as [[t'|] s']; [by eapply quiet_dispatched|by eapply quiet_trans]. }
  destruct (match try_dequeue_local this s0 with Some (t, s) => try_candidate cs_at this r t s | None => (None, s0) end) as [[t|] s1]; [by exists t, s1|].
  assert (match (match try_work_steal this s1 with (Some t, s) => try_candidate cs_at this r t s | (None, s) => (None, s) end) with (Some t, s') => dispatched s t s' | (None, s') => quiet s s' end) as H2.
  { destruct (try_steal_quiet s1 (qt_smp _ _ H1)) as [Hq Hn]. destruct (try_work_steal this s1) as [[t|] s2]; cbn [fst snd] in *; [|by eapply quiet_trans]. pose proof (quiet_trans _ _ _ H1 Hq) as H12.
    pose proof (candidate_step r t s2 (qt_smp _ _ Hq) ltac:(by rewrite (qt_cur _ _ H12)) (Hn t eq_refl)) as H2. destruct (try_candidate cs_at this r t s2) as [[t'|] s']; [by eapply quiet_dispatched|by eapply quiet_trans]. }
  destruct (match try_work_steal this s1 with (Some t, s) => try_candidate cs_at this r t s | (None, s) => (None, s) end) as [[t|] s2]; [by exists t, s2|].
  assert (is_Some (cur s2 this)) as Hc2 by (by rewrite (qt_cur _ _ H2)). pose proof (scan_step r s2 (qt_smp _ _ H2) Hc2) as H3. destruct (scan cs_at this r s2) as [[t s3]|]; [exists t, s3; split; [done|by eapply quiet_dispatched]|].
  destruct (idle_step s2 (qt_smp _ _ H2) Hc2) as (t & s3 & -> & H4). exists t, s3. split; [done|by eapply quiet_dispatched].
Qed.

(** ** The timer interrupt *)

(** The current thread belongs to this processor. *)
Lemma own_keeps s i k : smp s -> cur s this = Some (k_tid k) -> s_threads s !! i = Some (Some k) -> keeps k (with_cpu this k).
Proof. intros Hs Hc Hi. split_and!; try done. intros Hid. symmetry. by apply (m_mine _ _ Hs this _ Hc i k). Qed.

Lemma live_rsp_ok rsp k : rsp ≠ 0 -> enterable k -> keeps k (save_live_rsp_checked rsp k) /\ enterable (save_live_rsp_checked rsp k).
Proof. intros Hr []. unfold save_live_rsp_checked. destruct (_ || _); (split; [done|by constructor]). Qed.

Lemma account_tick_ok s k : enterable k -> keeps k (account_tick this s k) /\ enterable (account_tick this s k).
Proof. intros []. unfold account_tick. destruct (prcb s this); [|by split]. cbv zeta. destruct (_ =? CPU_TIME_UNSET); [by split|]. destruct (_ =? 0); (split; [done|by constructor]). Qed.

Lemma tick_running_quiet rsp b e i k s : smp s -> cur s this = Some (k_tid k) -> s_threads s !! i = Some (Some k) -> k_state k = Running -> rsp ≠ 0 -> quiet s (tick_running this rsp b e i k s).
Proof.
  intros Hs Hc Hi Hst Hr. unfold tick_running. cbv zeta. pose proof (m_ok _ _ Hs i k Hi) as Hok. set (k1 := with_acct _ k). assert (keeps k k1 /\ enterable k1) as [K1 O1] by (split; [done|destruct Hok; by constructor]).
  set (k2 := if k_idle k1 then k1 else account_tick this s k1). assert (keeps k k2 /\ enterable k2) as [K2 O2] by (unfold k2; destruct (k_idle k1); [done|]; destruct (account_tick_ok s k1 O1); split; [by trans k1|done]).
  set (k3 := if 0 <? k_slice k2 then with_slice (k_slice k2 - 1) k2 else k2). assert (keeps k k3 /\ enterable k3) as [K3 O3] by (unfold k3; destruct (0 <? _); (split; [done|destruct O2; by constructor])).
  destruct (negb _); [by apply (at_slot_quiet _ i k)|]. set (k4 := with_yield false k3). set (k5 := match kprcb_thread this s with Some _ => save_live_rsp_checked rsp k4 | None => with_rsp rsp k4 end).
  assert (enterable k4) as O4 by (destruct O3; by constructor). assert (keeps k k5 /\ enterable k5) as [K5 O5].
  { unfold k5. destruct (kprcb_thread this s); [destruct (live_rsp_ok rsp k4 Hr O4); split; [by trans k4|done]|]. split; [done|destruct O4; by constructor]. }
  set (k6 := with_cpu this k5). assert (keeps k k6) as K6.
  { destruct K5 as (A1 & A2 & A3 & A4). split_and!; try done. intros Hid. destruct (own_keeps s i k Hs Hc Hi) as (_ & _ & _ & B). by rewrite <- B. }
  assert (enterable k6 /\ enterable (fresh_slice k6) /\ enterable (with_state Ready k6)) as (O6 & O7 & O8) by (destruct O5; split_and!; by constructor).
  destruct (b || negb e); [by apply (at_slot_quiet _ i k)|]. destruct (negb _ && _).
  - pose proof (requeue_quiet s i k (with_state Ready k6) Hs Hi K6 O8) as H1. eapply quiet_trans; [exact H1|]. apply quiet_same; [apply H1|done|done].
  - pose proof (at_slot_quiet s i k (λ _, with_state Ready k6) Hs Hi K6 O8) as H1. eapply quiet_trans; [exact H1|]. apply quiet_same; [apply H1|done|done].
Qed.

Lemma tid_checked s t : smp s -> cur s this = Some t -> current_tid_checked this s = Some t.
Proof. intros Hs Hc. unfold current_tid_checked. by rewrite (kprcb_this s t Hs Hc). Qed.

Lemma tick_quiet rsp cs b t s : smp s -> cur s this = Some t -> rsp ≠ 0 -> exists s', on_timer_tick this rsp cs b s = Some s' /\ quiet s s'.
Proof.
  intros Hs Hc Hr. unfold on_timer_tick. cbv zeta. set (s1 := count_tick s). assert (quiet s s1) as H1 by (by apply quiet_same). set (s2 := if s_ticks s1 mod AGING_INTERVAL_TICKS =? 0 then apply_aging s1 else s1).
  assert (quiet s s2) as H2 by (eapply quiet_trans; [exact H1|]; unfold s2; destruct (_ =? 0); [by apply age_quiet|done]). pose proof (qt_smp _ _ H2) as Hs2. assert (cur s2 this = Some t) as Hc2 by (by rewrite (qt_cur _ _ H2)).
  rewrite (tid_checked s2 t Hs2 Hc2). cbn [mbind option_bind]. destruct (find_slot s2 t) as [i|] eqn:Ef; [|by exists s2]. destruct (find_slot_some _ _ _ Ef) as (k & Hi & <-). cbn [mbind option_bind]. rewrite Hi. cbn [mjoin option_join mbind option_bind].
  eexists. split; [done|]. case_bool_decide as Est; [|done]. eapply quiet_trans; [exact H2|]. by apply tick_running_quiet.
Qed.

Lemma publish_quiet g rsp t s : smp s -> cur s this = Some t -> rsp ≠ 0 -> quiet s (publish cs_at this g rsp t s).
Proof.
  intros Hs Hc Hr. unfold publish. destruct (find_slot s t) as [i|] eqn:Ef; [|done]. destruct (find_slot_some _ _ _ Ef) as (k & Hi & <-). cbn [mbind option_bind]. rewrite Hi. cbn [mjoin option_join mbind option_bind]. cbv zeta.
  destruct (live_rsp_ok rsp k Hr (m_ok _ _ Hs i k Hi)) as [K1 O1]. set (k1 := save_live_rsp_checked rsp k) in *. set (k2 := with_cpu this (with_yield false k1)). assert (enterable k2) as O2 by (destruct O1; by constructor).
  assert (keeps k k2) as K2. { destruct K1 as (A1 & A2 & A3 & A4). split_and!; try done. intros Hid. destruct (own_keeps s i k Hs Hc Hi) as (_ & _ & _ & B). by rewrite <- B. }
  pose proof (at_slot_quiet s i k (λ _, k2) Hs Hi K2 O2) as H1. destruct (_ && _); [|done]. eapply quiet_trans; [exact H1|]. apply make_ready_quiet; [apply H1|by apply (at_slot_lookup i (λ _, k2) s k)].
Qed.

(** The thread a processor executes is in the table. *)
Lemma cur_thread s t : smp s -> cur s this = Some t -> exists i k, s_threads s !! i = Some (Some k) /\ k_tid k = t /\ find_kthread s t = Some k /\ enterable k.
Proof.
  intros Hs (p & Hp & Ht)%cur_lookup. destruct (m_cur _ _ Hs this p t Hp Ht) as (i & k & Hi & <- & _). exists i, k. destruct (find_kthread_has s i k (m_uniq _ _ Hs) Hi). split_and!; try done. by apply (m_ok _ _ Hs i).
Qed.

(** Entering the thread the block already names. *)
Lemma enter_again s t k : smp s -> cur s this = Some t -> find_kthread s t = Some k -> dispatched s t (on_cpu this (switched_to t (k_pid k)) s).
Proof.
  intros Hs Hc Hf. destruct (find_kthread_some _ _ _ Hf) as (i & _ & Hi & <-). apply (switch_block s i k); try done; [by apply (m_mine _ _ Hs)|].
  intros c Hne Hct. by destruct Hne; apply (m_one _ _ Hs c this (k_tid k)).
Qed.

Definition outcome (s : Sched) (R : option (Z * Sched)) : Prop := exists r s', R = Some (r, s') /\ smp s' /\ (forall c, c ≠ this -> cur s' c = cur s c) /\ is_Some (cur s' this).

Lemma quiet_outcome s s' r : quiet s s' -> is_Some (cur s this) -> outcome s (Some (r, s')).
Proof. intros [H1 H2 H3] Hc. exists r, s'. split_and!; try done. by rewrite H2. Qed.
Lemma dispatched_outcome s t s' r : dispatched s t s' -> outcome s (Some (r, s')).
Proof. intros [H1 H2 H3 H4]. exists r, s'. by split_and!. Qed.
Lemma outcome_quiet s s1 R : quiet s s1 -> outcome s1 R -> outcome s R.
Proof. intros Hq (r & s' & -> & H1 & H2 & H3). exists r, s'. split_and!; try done. intros c Hc. rewrite H2 by done. apply Hq. Qed.

Lemma restart_quiet f t s : smp s -> (forall k, keeps k (f k) /\ (enterable k -> enterable (f k))) -> quiet s (update t f s).
Proof. intros Hs Hf. apply update_quiet; [done|]. intros i k Hi _. split; [apply Hf|]. apply Hf, (m_ok _ _ Hs i k Hi). Qed.

Lemma restart_keeps b k : keeps k (restart b k) /\ (enterable k -> enterable (restart b k)).
Proof. unfold restart. destruct (b && k_idle k); (split; [done|intros []; by constructor]). Qed.

(** The last step of a switch: the selected thread is entered. *)
Lemma switch_outcome b s t s' k : dispatched s t s' -> find_kthread s' t = Some k -> enterable k -> outcome s (switch_to this t k (update t (restart b) s')).
Proof.
  intros Hd Hf Hok. unfold switch_to. rewrite (proj2 (Z.eqb_neq _ _) (e_stack _ Hok)). pose proof (restart_quiet (restart b) t s' (d_smp _ _ _ Hd) (restart_keeps b)) as Hq.
  apply (dispatched_outcome s t). eapply dispatched_again; [by eapply dispatched_quiet|]. destruct (find_kthread_some _ _ _ Hf) as (i & Hfi & Hi & <-). destruct (restart_keeps b k) as [(K1 & K2 & _) _].
  rewrite <- K2. apply enter_again; [apply Hq|by rewrite (qt_cur _ _ Hq), (d_cur _ _ _ Hd)|]. pose proof (m_uniq _ _ (qt_smp _ _ Hq)) as Hu.
  set (s2 := update (k_tid k) (restart b) s') in *. rewrite <- K1. apply (find_kthread_has _ i); [done|]. unfold s2, update. rewrite Hfi. by apply at_slot_lookup.
Qed.

Lemma same_outcome r s t s' : dispatched s t s' -> outcome s (Some (r, update t (λ k, with_starved 0 (fresh_slice (with_state Running k))) s')).
Proof.
  intros Hd. apply (dispatched_outcome s t). eapply dispatched_quiet; [exact Hd|]. apply restart_quiet; [apply Hd|]. intros k. split; [done|]. intros []. by constructor.
Qed.

Lemma idle_outcome rsp t s : smp s -> cur s this = Some t -> rsp ≠ 0 -> outcome s (preempt_idle cs_at this rsp t s).
Proof.
  intros Hs Hc Hr. unfold preempt_idle. assert (quiet s (update t (save_live_rsp_checked rsp) s)) as H1 by (apply update_quiet; [done|]; intros i k Hi _; by apply live_rsp_ok, (m_ok _ _ Hs i)).
  destruct (schedule_step false false _ (qt_smp _ _ H1) ltac:(by rewrite (qt_cur _ _ H1), Hc)) as (n & s2 & E & Hd). unfold schedule. rewrite E. cbn [mbind option_bind].
  destruct (cur_thread s2 n (d_smp _ _ _ Hd) (d_cur _ _ _ Hd)) as (i & k & Hi & _ & Hf & Hok). rewrite Hf. cbn [mbind option_bind]. eapply outcome_quiet; [exact H1|]. by apply switch_outcome.
Qed.

Lemma kernel_outcome rsp t s : smp s -> cur s this = Some t -> rsp ≠ 0 -> outcome s (preempt_kernel cs_at this rsp t s).
Proof.
  intros Hs Hc Hr. unfold preempt_kernel. pose proof (publish_quiet false rsp t s Hs Hc Hr) as H1.
  destruct (schedule_step false false _ (qt_smp _ _ H1) ltac:(by rewrite (qt_cur _ _ H1), Hc)) as (n & s2 & E & Hd). unfold schedule. rewrite E. cbn [mbind option_bind].
  destruct (cur_thread s2 n (d_smp _ _ _ Hd) (d_cur _ _ _ Hd)) as (i & k & Hi & _ & Hf & Hok). rewrite Hf. cbn [mbind option_bind]. eapply outcome_quiet; [exact H1|].
  rewrite (proj2 (Z.eqb_neq _ _) (e_rsp _ Hok)). destruct (n =? t); [by apply same_outcome|by apply switch_outcome].
Qed.

(** A rejected candidate: the block names the interrupted thread again. *)
Lemma revert_outcome rsp n t s s1 : smp s -> cur s this = Some t -> dispatched s n s1 -> outcome s (Some (rsp, revert_dispatch this n t s1)).
Proof.
  intros Hs Hc Hd. unfold revert_dispatch. assert (quiet s1 (update n (with_state Ready) s1)) as H1 by (apply restart_quiet; [apply Hd|]; intros k; split; [done|]; intros []; by constructor).
  cbv zeta. set (s2 := update n (with_state Ready) s1) in *. set (s3 := match find_kthread s2 n with Some k => enqueue_to_cpu_run_queue k s2 | None => s2 end). assert (quiet s2 s3) as H2.
  { unfold s3. destruct (find_kthread s2 n) as [k|] eqn:Ek; [|apply quiet_refl, H1]. destruct (find_kthread_some _ _ _ Ek) as (i & _ & Hi & _).
    apply enqueue_quiet; [apply H1| |apply (m_ok _ _ (qt_smp _ _ H1) i k Hi)]. intros Hid. by apply (not_idle_at _ i); [apply (m_uniq _ _ (qt_smp _ _ H1))|..]. }
  assert (dispatched s n s3) as Hd3 by (eapply dispatched_quiet; [exact Hd|by eapply quiet_trans]). pose proof (d_smp _ _ _ Hd3) as Hs3.
  destruct (find_kthread s3 t) as [k|] eqn:Ek; [|apply (dispatched_outcome s n); eapply dispatched_quiet; [exact Hd3|by apply quiet_same]].
  destruct (find_kthread_some _ _ _ Ek) as (i & Hfi & Hi & Ht). pose proof (remove_quiet k s3 Hs3) as H4. set (s4 := remove_from_run_queue k s3) in *.
  assert (quiet s4 (update t (with_state Running) s4)) as H5 by (apply restart_quiet; [apply H4|]; intros x; split; [done|]; intros []; by constructor). set (s5 := update t (with_state Running) s4) in *.
  assert (dispatched s n s5) as Hd5 by (eapply dispatched_quiet; [exact Hd3|by eapply quiet_trans]). assert (s_threads s5 !! i = Some (Some (with_state Running k))) as Hi5.
  { unfold s5, update. assert (s_threads s4 !! i = Some (Some k)) as Hi4 by (unfold s4, remove_from_run_queue; by destruct (_ <=? _)%nat). pose proof (find_kthread_has s4 i k (m_uniq _ _ (qt_smp _ _ H4)) Hi4) as [Hf4 _]. rewrite Ht in Hf4. rewrite Hf4. by apply at_slot_lookup. }
  assert (dispatched s t (sync_per_cpu_current this k s5)) as Hd6.
  { eapply dispatched_again; [exact Hd5|]. rewrite <- Ht. apply (switch_block s5 i (with_state Running k)); try done; [apply Hd5|by rewrite (d_cur _ _ _ Hd5)| |].
    - change (k_tid (with_state Running k)) with (k_tid k). rewrite Ht. eapply mine_le; [apply Hd5|]. by apply (m_mine _ _ Hs).
    - intros c Hne. rewrite (d_other _ _ _ Hd5) by done. change (k_tid (with_state Running k)) with (k_tid k). rewrite Ht. intros Hct. by destruct Hne; apply (m_one _ _ Hs c this t). }
  apply (dispatched_outcome s t). eapply dispatched_quiet; [exact Hd6|]. apply quiet_same; [apply Hd6|done|done].
Qed.

Lemma user_outcome rsp t s : smp s -> cur s this = Some t -> rsp ≠ 0 -> outcome s (preempt_user cs_at this rsp t s).
Proof.
  intros Hs Hc Hr. unfold preempt_user. pose proof (publish_quiet true rsp t s Hs Hc Hr) as H1. assert (cur (publish cs_at this true rsp t s) this = Some t) as Hc1 by (by rewrite (qt_cur _ _ H1)).
  destruct (schedule_step true true _ (qt_smp _ _ H1) ltac:(by rewrite Hc1)) as (n & s2 & E & Hd). rewrite E. cbn [mbind option_bind].
  destruct (cur_thread s2 n (d_smp _ _ _ Hd) (d_cur _ _ _ Hd)) as (i & k & Hi & _ & Hf & Hok). rewrite Hf. cbn [mbind option_bind]. eapply outcome_quiet; [exact H1|]. rewrite (proj2 (Z.eqb_neq _ _) (e_rsp _ Hok)).
  assert (dispatched (publish cs_at this true rsp t s) n (set_kernel_handoff this false s2)) as Hd2 by (eapply dispatched_quiet; [exact Hd|]; apply quiet_same; [apply Hd|done|done]).
  destruct (negb _); [destruct (accept_non_ring3_dispatch _ _)|].
  - apply (dispatched_outcome _ n). eapply dispatched_again; [exact Hd2|]. by apply enter_again; [apply Hd2|apply Hd2|].
  - apply revert_outcome; [apply H1|done|done].
  - destruct (n =? t); [by apply same_outcome|by apply switch_outcome].
Qed.

Lemma no_preemption_quiet rsp t b s : smp s -> quiet s (no_preemption this rsp t b s).2.
Proof.
  intros Hs. assert (forall s', quiet s s' -> quiet s (on_cpu this (set_need true) s')) as Hneed.
  { intros s' Hq. eapply quiet_trans; [exact Hq|]. apply on_cpu_quiet; [apply Hq|]. intros p Hp. split; [|done]. exact (m_queue _ _ (qt_smp _ _ Hq) this p Hp). }
  unfold no_preemption. destruct (find_kthread s t) as [k|]; [|cbn [snd]; destruct (_ || _); [by apply Hneed|done]]. destruct (_ && _); cbn [snd]; [|destruct (_ || _); [by apply Hneed|done]].
  apply Hneed. destruct (is_ready _); [|done]. pose proof (remove_quiet k s Hs) as H1. eapply quiet_trans; [exact H1|]. apply restart_quiet; [apply H1|]. intros x. split; [done|]. intros []. by constructor.
Qed.

(** Every timer interrupt on a processor that executes a thread returns. *)
Lemma timer_outcome rsp b s : smp s -> is_Some (cur s this) -> rsp ≠ 0 -> outcome s (timer_handler_inner cs_at this rsp b s).
Proof.
  intros Hs [t Hc] Hr. unfold timer_handler_inner. assert (quiet s (on_cpu this inc_ticks s)) as H1 by (apply on_cpu_quiet; [done|]; intros p Hp; split; [exact (m_queue _ _ Hs this p Hp)|done]). cbv zeta.
  assert (is_Some (cur s this)) as Hsome by (by exists t). destruct (_ && _); [by apply quiet_outcome|].
  destruct (tick_quiet rsp (cs_at (rsp + 128)) b t _ (qt_smp _ _ H1) ltac:(by rewrite (qt_cur _ _ H1)) Hr) as (s2 & E & H2). rewrite E. cbn [mbind option_bind]. pose proof (quiet_trans _ _ _ H1 H2) as H12. clear E H1 H2.
  pose proof (qt_smp _ _ H12) as Hs2. assert (cur s2 this = Some t) as Hc2 by (by rewrite (qt_cur _ _ H12)). rewrite (tid_checked s2 t Hs2 Hc2). cbn [mbind option_bind]. apply (outcome_quiet s s2); [done|].
  assert (is_Some (cur s2 this)) as Hsome2 by (by rewrite Hc2). assert (forall b, outcome s2 (Some (no_preemption this rsp t b s2))) as Hno.
  { intros b'. pose proof (no_preemption_quiet rsp t b' s2 Hs2). destruct (no_preemption this rsp t b' s2). by apply quiet_outcome. }
  destruct (_ && negb _); [destruct (_ || _); [by apply user_outcome|destruct (_ && _); [|apply Hno]]|].
  - apply quiet_outcome; [|done]. apply on_cpu_quiet; [done|]. intros p Hp. split; [exact (m_queue _ _ Hs2 this p Hp)|done].
  - destruct (default false _); [destruct (_ && _); [by apply idle_outcome|apply Hno]|]. destruct (_ && _); [by apply kernel_outcome|apply Hno].
Qed.
End processor.

(** ** Interleavings *)

(** A timer interrupt on a processor, a wake-up, the wake-up of those who wait
    for a process, a change of priority, or the end of a process that is queued
    for release. *)
Inductive sevent := STick (cpu : nat) (rsp : Z) (preempt_off : bool) | SWake (magic : Z) | SWakeWaiters (pid : Z) | SPriority (pid prio : Z) | SZombie (pid : Z).

Definition sstep (cs_at : Z -> Z) (e : sevent) (s : Sched) : option Sched :=
  match e with
  | STick cpu rsp off => snd <$> timer_handler_inner cs_at cpu rsp off s
  | SWake magic => Some (wake_blocked_on_magic magic s)
  | SWakeWaiters pid => Some (wake_waiters pid s)
  | SPriority pid prio => Some (set_process_priority pid prio s).2
  | SZombie pid => Some (set_zombies (zombie_enqueue pid (s_zombies s)).2 s)
  end.
Fixpoint sruns (cs_at : Z -> Z) (evs : list sevent) (s : Sched) : option Sched := match evs with [] => Some s | e :: evs => sstep cs_at e s ≫= sruns cs_at evs end.

(** The interrupted processor executes a thread; priorities are bytes. *)
Definition sevent_ok (s : Sched) (e : sevent) : Prop := match e with STick cpu rsp _ => is_Some (cur s cpu) /\ rsp ≠ 0 | SPriority _ prio => 0 <= prio | _ => True end.

Lemma sstep_ok cs_at e s : smp s -> sevent_ok s e -> exists s', sstep cs_at e s = Some s' /\ smp s' /\ forall c, is_Some (cur s c) -> is_Some (cur s' c).
Proof.
  intros Hs He. assert (forall s', quiet s s' -> smp s' /\ forall c, is_Some (cur s c) -> is_Some (cur s' c)) as Hq by (intros s' Hq; split; [apply Hq|]; intros c; by rewrite (qt_cur _ _ Hq)).
  destruct e as [cpu rsp off|m|pid|pid prio|pid]; cbn [sstep sevent_ok] in *.
  - destruct He as [Hc Hr]. destruct (timer_outcome cs_at cpu rsp off s Hs Hc Hr) as (r & s' & -> & Hs' & Ho & Ht). exists s'. split_and!; try done. intros c Hcc. destruct (decide (c = cpu)) as [->|Hn]; [done|by rewrite Ho].
  - eexists. split; [done|]. by apply Hq, wake_quiet.
  - eexists. split; [done|]. by apply Hq, wake_quiet.
  - eexists. split; [done|]. by apply Hq, priority_quiet.
  - eexists. split; [done|]. by apply Hq, quiet_same.
Qed.

Lemma sruns_ok cs_at evs s : smp s -> Forall (sevent_ok s) evs -> exists s', sruns cs_at evs s = Some s' /\ smp s'.
Proof.
  revert s. induction evs as [|e evs IH]; intros s Hs Hev; [by exists s|]. apply Forall_cons in Hev as [He Hev]. destruct (sstep_ok cs_at e s Hs He) as (s1 & E & Hs1 & Hc). cbn [sruns]. rewrite E. cbn [mbind option_bind].
  apply IH; [done|]. eapply Forall_impl; [exact Hev|]. intros [] Hok; cbn in *; try done. by destruct Hok as [Hok ?]; split; [apply Hc|].
Qed.

(** C5. Several processors: take any state that satisfies the scheduler's
    invariant and any interleaving of timer interrupts on processors that execute
    a thread, wake-ups, priority changes and process terminations, in which
    selection, stealing, hand-off and scan run as the code has them.  Then every
    interrupt returns without a panic, and afterwards no thread is the current
    thread of two processors, an idle thread is current only on its own
    processor, and the thread a processor executes is still in the thread table:
    its control block was not released by the reaping of terminated processes. *)
Theorem smp_dispatch_exclusive cs_at evs s : smp s -> Forall (sevent_ok s) evs ->
  exists s', sruns cs_at evs s = Some s' /\ (forall c c' t, cur s' c = Some t -> cur s' c' = Some t -> c = c') /\
    forall c t, cur s' c = Some t -> exists k, find_kthread s' t = Some k /\ k_tid k = t /\ (k_idle k = true -> k_cpu k = c).
Proof.
  intros Hs Hev. destruct (sruns_ok cs_at evs s Hs Hev) as (s' & E & Hs'). exists s'. split_and!; [done|apply (m_one _ _ Hs')|]. intros c t Hc.
  destruct (cur_thread c s' t Hs' Hc) as (i & k & Hi & Ht & Hf & _). exists k. split_and!; try done. intros Hid. by apply (m_mine _ _ Hs' c t Hc i k).
Qed.

(** ** An example *)

(** Two processors execute threads 3 and 4 on their last tick, thread 5 waits in
    the queue of the first. *)
Definition pair_thread (t pid : Z) (idle : bool) (state : ThreadState) (slice : Z) (cpu : nat) : option Kthread :=
  Some (mkThread t pid idle idle 0x9000 0x4000 state None 2 2 slice 0 cpu 0x5000 false (mkAcct 0 0 0)).
Definition pair_threads : list (option Kthread) :=
  [pair_thread 1 0 true Ready 10 0; pair_thread 2 0 true Ready 10 1; pair_thread 3 7 false Running 1 0; pair_thread 4 8 false Running 1 1; pair_thread 5 9 false Ready 100 0].
Definition pair_block (t pid : Z) (rq : CpuRunQueue) : option Kprcb := Some (mkPrcb (Some t) pid false false rq 0 0).
Definition pair_blocks : list (option Kprcb) := [pair_block 3 7 (rq_push_priority 5 2 rq_new).2; pair_block 4 8 rq_new].
Definition pair_state : Sched := mkSched pair_threads ∅ [] ∅ 3 6 0 0 pair_blocks (replicate 16 false) false true [8] 0.
Definition pair_events : list sevent := [STick 1 0x5000 false; SZombie 7; STick 0 0x5000 false; SPriority 9 0; STick 1 0x5000 false; STick 0 0x5000 false].

Lemma pair_smp : smp pair_state.
Proof.
  assert (forall c p, pair_blocks !! c = Some (Some p) -> (c = 0%nat /\ p = mkPrcb (Some 3) 7 false false (rq_push_priority 5 2 rq_new).2 0 0) \/ (c = 1%nat /\ p = mkPrcb (Some 4) 8 false false rq_new 0 0)) as Hb.
  { intros [|[|c]] p Hp; [injection Hp as <-; by left|injection Hp as <-; by right|]. by rewrite lookup_ge_None_2 in Hp by (cbn; lia). }
  assert (forall c t, cur pair_state c = Some t -> (c = 0%nat /\ t = 3) \/ (c = 1%nat /\ t = 4)) as Hc.
  { intros c t (p & Hp & Ht)%cur_lookup. destruct (Hb c p Hp) as [[-> ->]|[-> ->]]; injection Ht as <-; tauto. }
  constructor.
  - cbn. unfold MAX_CPUS. lia.
  - intros i j k k' Hi Hj E. slots Hi; slots Hj; done.
  - intros i k Hi. slots Hi; by constructor.
  - intros c c' t H1%Hc H2%Hc. lia.
  - intros c t H1%Hc i k Hi Ht Hid. slots Hi; cbn in *; try done; lia.
  - intros c p t Hp Ht. destruct (Hb c p Hp) as [[-> ->]|[-> ->]]; injection Ht as <-; [by exists 2%nat; eexists|by exists 3%nat; eexists].
  - intros c [t H1%Hc]. destruct H1 as [[-> ->]|[-> ->]]; [by exists 0%nat; eexists|by exists 1%nat; eexists].
  - assert (holds (not_idle pair_threads) rq_new) as H0 by (exists (replicate 4 []); split; [apply rq_rep_new|]; intros t Hin; by apply elem_of_nil in Hin).
    intros c p Hp. destruct (Hb c p Hp) as [[-> ->]|[-> ->]]; [|done]. apply holds_push; [done| |lia]. intros i k Hi Ht. slots Hi; done.
Qed.

Lemma smp_dispatch_exclusive_witness : exists s', sruns (λ _, 0x23) pair_events pair_state = Some s' /\ forall c c' t, cur s' c = Some t -> cur s' c' = Some t -> c = c'.
Proof.
  assert (Forall (sevent_ok pair_state) pair_events) as Hev by (repeat apply Forall_cons_2; try apply Forall_nil_2; (split; [by eexists|done]) || done).
  destruct (smp_dispatch_exclusive (λ _, 0x23) pair_events pair_state pair_smp Hev) as (s' & E & H1 & _). exists s'. split; [exact E|exact H1].
Defined.
